(* ===== verification/_CoqProject ===== *)
-Q . S2P
Prelude.v
TimeWheel.v
Glob.v
Text.v
F64.v
FloatText.v
FloatRound.v
Reply.v
Resp.v
Errors.v
Lua.v
OrdSet.v
SortedSet.v
Mocha.v
Ops.v
Store.v
Refine.v
Args.v
ListCmd.v
StringCmd.v
KeyCmd.v
HashCmd.v
SetCmd.v
Spop.v
ZSetCmd.v
Bits.v
Hll.v
BitmapCmd.v
HllCmd.v
Memory.v
Reports.v
Series.v
Handler.v
Answers.v
Requests.v
Script.v
Typed.v
StateMachine.v
Snapshot.v
Replay.v
Dumping.v
PubSub.v
Rpc.v
RpcSafe.v
RpcLive.v
LogStore.v
Pipeline.v
Config.v
Transfer.v
Peers.v
Cluster.v
Broadcast.v
Boot.v
App.v
Node.v
Session.v
Admin.v
Connection.v
Safety.v
Serve.v
Ping.v
