(* ===== verification/Prelude.v ===== *)
(** * Verification of cache-cat

    cache-cat is a cache that speaks the Redis protocol and replicates its data
    with Raft. This library models it from the bytes a client sends to the state
    every replica holds, and proves that the parts do what they are for. Paths
    below are relative to src/cache_cat/src.

    ** The program and the files

    A client's bytes are cut into RESP values (protocol/resp.rs: Resp, with the
    value type and the encoder of raft/types/core/response_value.rs in Reply). A
    connection (protocol/command.rs, raft/network/redis_server.rs: Connection,
    Serve) looks the command up and runs its [execute] method (Session), which
    parses the arguments (protocol/<group>/<command>.rs) and either queues an
    operation under MULTI, commits it through Raft, or reads under the leader's
    lease (raft/types/raft_types.rs: App). A committed operation is an entry of
    the log (raft/store/log_store.rs: LogStore) that each replica applies
    (raft/store/statemachine.rs: StateMachine) by the request handler
    (core/mocha/request_handler.rs: Handler), which runs the command on the
    cache. The cache is a list of databases (core/mocha/core.rs: Store), each an
    expiring map (mocha/mod.rs: Mocha) with a timing wheel (TimeWheel). Snapshots
    move a replica's state to another one (Snapshot, Dumping, Transfer). The nodes
    call each other over connections of their own (raft/network: Rpc, Peers).

    - Prelude, Text, F64, FloatText: machine integers, bytes, and what the code
      uses of the standard library on strings, UTF-8, numbers and doubles.
      FloatRound shows that a printed double reads back as the same double.
    - TimeWheel, Mocha, Glob: the expiring map, its expiry worker and the
      pattern matcher of KEYS (utils/glob.rs).
    - OrdSet, SortedSet, Bits, Hll, Series: the values of the sorted sets
      (core/sorted_set.rs), the bitmaps and the HyperLogLogs
      (core/mocha/hll.rs).
    - Ops, Store, Refine: the operations of the log, the cache, the drivers of
      the command traits (cas.rs, read_command.rs), and the method by which a
      command is verified.
    - Args, ListCmd, StringCmd, KeyCmd, HashCmd, SetCmd, Spop, ZSetCmd,
      BitmapCmd, HllCmd, Memory, Reports: the commands.
    - Handler, Answers, Requests, Typed, StateMachine: the replicated state, its
      specification and its types.
    - Snapshot, Replay, Dumping, Transfer: snapshot files, what replaying their
      queue does, how they are written while the log goes on, and how they get
      to another node (raft/types/file_operator.rs, raft/network/rpc.rs).
    - LogStore: the Raft log on disk and what a crash leaves of it.
    - Lua, Script: replies as Lua values, and scripts with the commands they
      call (protocol/lua_env.rs, raft_command.rs).
    - Rpc, RpcSafe, RpcLive, Pipeline, Peers: a connection between two nodes with
      its slots and tasks, requests matched by position, and the clients that
      retry over new connections (raft/network/client.rs, pipeline_client.rs,
      raft_network.rs, external_handler.rs).
    - Config, Cluster, Boot, Node: the configuration (cfg, node/parsed_config.rs),
      the members of a cluster (raft/application/cluster.rs), how a node starts
      (node/raft_node.rs, raft_builder.rs) and its background work.
    - PubSub, Broadcast: subscriptions on a node (raft/application/pub_sub.rs),
      and messages to the other nodes.
    - Errors, App, Session, Admin, Connection, Safety, Serve: a node and its
      clients, from one command to all connections at once.
    - Ping: the health check of src/cache_cat_ping.

    ** How state and effects are modelled

    A collection behind an [Arc<Mutex<..>>] is a location of a heap, so a
    mutation is seen through every clone of the value; the cache's invariant
    ([Refine.CacheInv]) includes that no two keys share a location. A command is
    an instance of the class of its trait ([ComputeCommand], [ReadCommand], ..),
    translated from the source on the heap; [PureCommand] and its relatives give
    its meaning on a plain value; the laws relate the two, and Refine lifts them
    to the cache as a whole: the specification is a list of finite maps with no
    locations, no expired entries and no tombstones.

    The logical clock is an argument of the operations of the map. Integers are
    in Z with the wrap-around of their width written out. A function that can
    index out of range returns an [outcome], with [Panic] as a value.

    What is not in the repository is a class whose laws are the documented
    behaviour: the iteration order of hash tables and random choices ([Env],
    [EnvOk]), the total order of the ordered-float crate ([OrderedFloat]), the
    sizes of Rust types ([MemEnv]), the Lua interpreter ([Interp]; the handler
    sees scripts through [LuaEnv]), the cache of compiled scripts ([Lru]), the bincode2
    codec ([Bincode], [BincodeOk]), raft-engine (LogStore), SHA1 and the reports
    of a process ([ServerEnv], which Admin implements). Each is instantiated in
    the witnesses. What a node observes of its surroundings (the clock, the file
    system, what openraft shows or answers) is a record or an argument: the log is
    an argument of the state machine, and the answer to a write or to a lease read
    is an argument of the command ([Inputs]).

    Concurrency is interleaving. The tasks of a connection between nodes take one
    atomic action at a time (Rpc); a dump visits one entry at a time between the
    events of the replica (Dumping); the connections of clients take one step
    each (Serve). Within such a step nothing else happens.

    ** What the theorems show

    - Replication: replicas that apply the same log agree, whatever their hash
      orders, batches, local clocks, worker steps and reads; every operation
      does what its specification says; every value stays well typed.
    - Snapshots: a snapshot of a replica at rest arrives on another one with its
      state; one written during writes carries the keys that nothing changes
      meanwhile; loading returns on any bytes; and, as theorems too, which writes
      are lost or applied twice, and what a restart forgets.
    - The log on disk: it reads as the sequence it stands for, and a crash leaves
      a prefix of what was written, with no hole.
    - Connections: no request makes a connection panic or get stuck, the named
      exceptions apart; however the bytes are cut, the requests are answered as
      one at a time; the connections do not touch each other; nothing happens
      without the password; a transaction is one step; a closed connection leaves
      no subscription behind, a failed one may.
    - Calls between nodes: an answer belongs to the call that gets it, a
      connection that stays up comes to rest with every call answered, and what
      a retried call may do twice.
    - The cluster: SENTINEL names the members that the leader has heard of, a
      message reaches the subscribers of every node that can be reached, a
      configuration that was validated is read without errors, and a node starts
      in order or not at all.
    - Scripts: a script does to the cache what its commands do to the plain
      store, scripts inside scripts included; replicas agree on a script whose
      replies do not depend on the replica, and need not agree on others; a reply
      comes back from Lua as the same bytes.
    - Expiry: the map with its lazy deletion, tombstones and worker is
      indistinguishable from one that forgets each key at its deadline; a write
      that follows a read never finds a key the read saw expired; the leader's
      tick clears what has expired.
    - Protocol: the decoder is total, does not depend on how the stream is cut,
      and inverts the encoder.
    - Values: ranks and ranges of sorted sets, the encodings of HyperLogLogs and
      the end of their series, the fields and the search of bitmaps, the draw of
      SPOP, the language of the glob patterns.
    - Publish and subscribe: the tables agree after every history, and a message
      reaches exactly the subscribers that match, though a later message may
      replace it before it is read.

    ** Fuel

    Recursions that are not structural take fuel, and the fuel is proved to be
    enough wherever a result is claimed: the decoder has two turns per byte of
    the buffer and one more, the glob matcher [len(pattern) + len(value) + 2]
    nested calls, the timing wheel one turn per tick, the snapshot loader one
    turn per byte of the file, UTF-8 one turn per byte. Decimal printing takes a
    turn per bit, and the shortest decimal of a double at most 17 digits. The
    series of the HyperLogLog have 2200 turns: one of them underflows after two
    dozen, the other after 1075 at the latest.

    ** Not modelled

    - openraft, raft-engine, mimalloc, bincode2, rustls, the Lua interpreter and
      the rest of the dependencies: they are parameters, as said above. What a
      script leaves in Lua's global variables, its memory limit and its sandbox
      are not modelled, and the theorems on connections as a whole are about
      requests without scripts.
    - Streams over TCP and TLS (raft/network/connection.rs) beyond the bytes they
      deliver and whether they fail, the banner and the wait for a signal in
      main.rs, and texts that only go to the log ([Display], tracing).
    - The benchmark programs: clients that measure a server.
    - Locks inside a request: a request, a worker turn and a step of a connection
      are atomic, and everything between them may be interleaved.
    - Unicode case mapping outside the characters whose upper case is ASCII: it
      is exact for comparing a word with a command name, while an error text
      repeats other letters as they came. *)

(** ** Machine integers, bytes and the generic lemmas the components share *)

From Stdlib Require Export ZArith Lia.
From Stdlib Require Import Strings.Byte NArith.
From stdpp Require Export base tactics numbers sorting countable gmap option.
From stdpp Require Export list list_numbers.

#[global] Set Default Goal Selector "!".
Open Scope Z_scope.

(** ** Bytes

    [bytes::Bytes], [Vec<u8>] and [&[u8]] are lists of [Byte.byte], so the
    8-bit width is part of the type. [bz] reads a byte as a number and [zb]
    is the Rust cast [as u8]. *)

Abbreviation byte := Byte.byte.
Abbreviation bytes := (list Byte.byte).

Definition bz (b : byte) : Z := Z.of_N (Byte.to_N b).

Definition zb (z : Z) : byte :=
  match Byte.of_N (Z.to_N (z mod 256)) with
  | Some b => b
  | None => x00
  end.

#[global] Instance byte_eq_dec : EqDecision byte.
Proof. intros x y. exact (Byte.byte_eq_dec x y). Defined.

#[global] Program Instance byte_countable : Countable byte :=
  inj_countable Byte.to_N Byte.of_N _.
Next Obligation. intros b. apply Byte.of_to_N. Qed.

Lemma bz_range b : 0 <= bz b < 256.
Proof. unfold bz. pose proof (Byte.to_N_bounded b). lia. Qed.

Lemma bz_zb z : bz (zb z) = z mod 256.
Proof.
  unfold bz, zb. pose proof (Z.mod_pos_bound z 256 ltac:(lia)) as Hb.
  destruct (Byte.of_N _) as [b|] eqn:E.
  - apply Byte.to_of_N in E. lia.
  - apply Byte.of_N_None_iff in E. lia.
Qed.

Lemma zb_bz b : zb (bz b) = b.
Proof.
  unfold zb. rewrite Z.mod_small by apply bz_range.
  unfold bz. rewrite N2Z.id, Byte.of_to_N. done.
Qed.

#[global] Instance bz_inj : Inj (=) (=) bz.
Proof. intros a b H. rewrite <- (zb_bz a), <- (zb_bz b), H. done. Qed.

(** Lexicographic comparison of byte strings, [Ord for Bytes]. *)
Fixpoint bytes_cmp (a b : bytes) : comparison :=
  match a, b with
  | [], [] => Eq
  | [], _ :: _ => Lt
  | _ :: _, [] => Gt
  | x :: a', y :: b' =>
      match Z.compare (bz x) (bz y) with
      | Eq => bytes_cmp a' b'
      | c => c
      end
  end.

Lemma bytes_cmp_eq a b : bytes_cmp a b = Eq <-> a = b.
Proof.
  revert b. induction a as [|x a IH]; intros [|y b]; simpl; try done.
  destruct (Z.compare_spec (bz x) (bz y)) as [E|E|E].
  - apply (inj bz) in E as ->. rewrite IH. split; [by intros ->|by intros [= ->]].
  - split; [done|]. intros [= -> ->]. lia.
  - split; [done|]. intros [= -> ->]. lia.
Qed.

Lemma bytes_cmp_refl a : bytes_cmp a a = Eq.
Proof. by apply bytes_cmp_eq. Qed.

Lemma bytes_cmp_antisym a b : bytes_cmp b a = CompOpp (bytes_cmp a b).
Proof.
  revert b. induction a as [|x a IH]; intros [|y b]; simpl; try done.
  rewrite (Z.compare_antisym (bz x) (bz y)).
  destruct (Z.compare (bz x) (bz y)); simpl; auto.
Qed.

Lemma bytes_cmp_lt_trans a b c :
  bytes_cmp a b = Lt -> bytes_cmp b c = Lt -> bytes_cmp a c = Lt.
Proof.
  revert b c. induction a as [|x a IH]; intros [|y b] [|z c]; simpl; try done.
  destruct (Z.compare_spec (bz x) (bz y)) as [E|E|E]; try done;
  destruct (Z.compare_spec (bz y) (bz z)) as [E'|E'|E']; try done; intros H1 H2;
  destruct (Z.compare_spec (bz x) (bz z)); try lia; eauto.
Qed.

(** ** Machine integers

    A [w]-bit Rust integer is a [Z]; every operation writes out what happens
    at the width. The arithmetic operators are those of the release profile
    (no overflow checks): two's complement wrap-around. *)

Definition u64_max : Z := 2 ^ 64 - 1.
Definition i64_min : Z := - 2 ^ 63.
Definition i64_max : Z := 2 ^ 63 - 1.

Definition wrap_u64 (z : Z) : Z := z mod 2 ^ 64.
Definition wrap_u32 (z : Z) : Z := z mod 2 ^ 32.
Definition wrap_i64 (z : Z) : Z := (z + 2 ^ 63) mod 2 ^ 64 - 2 ^ 63.

Definition is_u64 (z : Z) : Prop := 0 <= z < 2 ^ 64.
Definition is_i64 (z : Z) : Prop := i64_min <= z <= i64_max.

Definition u64_saturating_add (a b : Z) : Z := Z.min (a + b) u64_max.
Definition u64_saturating_sub (a b : Z) : Z := Z.max (a - b) 0.

Lemma wrap_u64_range z : is_u64 (wrap_u64 z).
Proof. apply Z.mod_pos_bound. lia. Qed.

Lemma wrap_u64_small z : is_u64 z -> wrap_u64 z = z.
Proof. apply Z.mod_small. Qed.

Lemma wrap_i64_range z : is_i64 (wrap_i64 z).
Proof.
  unfold wrap_i64, is_i64, i64_min, i64_max.
  pose proof (Z.mod_pos_bound (z + 2 ^ 63) (2 ^ 64) ltac:(lia)). lia.
Qed.

Lemma wrap_i64_small z : is_i64 z -> wrap_i64 z = z.
Proof.
  unfold wrap_i64, is_i64, i64_min, i64_max. intros H.
  rewrite Z.mod_small by lia. lia.
Qed.

(** Integer casts [as i64], [as usize] between 64-bit integers. *)
Definition u64_as_i64 (z : Z) : Z := wrap_i64 z.
Definition i64_as_u64 (z : Z) : Z := wrap_u64 z.

(** ** Results

    [Result<A, E>] and the [?] operator. *)

Inductive result (A E : Type) : Type :=
| Ok (a : A)
| Err (e : E).
Arguments Ok {A E} a.
Arguments Err {A E} e.

Definition result_bind {A B E} (m : result A E) (f : A -> result B E) : result B E :=
  match m with Ok a => f a | Err e => Err e end.

Definition ok_or {A E} (o : option A) (e : E) : result A E :=
  match o with Some a => Ok a | None => Err e end.

Declare Scope rust_scope.
Delimit Scope rust_scope with rust.
Notation "'let?' x := m 'in' k" := (result_bind m (fun x => k))
  (at level 10, x pattern, m at level 100, k at level 200) : rust_scope.
Notation "'let*' x := m 'in' k" := (match m with Some x => k | None => None end)
  (at level 10, x pattern, m at level 100, k at level 200) : rust_scope.
Open Scope rust_scope.

(** The outcome of code that can panic; [OutOfFuel] belongs to the model only
    and is shown unreachable where it occurs. *)
Inductive outcome (A : Type) : Type :=
| Ret (a : A)
| Panic
| OutOfFuel.
Arguments Ret {A} a.
Arguments Panic {A}.
Arguments OutOfFuel {A}.

(** ** Tactics and hints *)

(** Case analysis on the head [match] or [if] of the goal or of a hypothesis. *)
Ltac dmatch :=
  match goal with
  | |- context [match ?x with _ => _ end] =>
      lazymatch x with
      | context [match _ with _ => _ end] => fail
      | _ => destruct x eqn:?
      end
  end.

Ltac dmatch_in H :=
  match type of H with
  | context [match ?x with _ => _ end] =>
      lazymatch x with
      | context [match _ with _ => _ end] => fail
      | _ => destruct x eqn:?
      end
  end.

(** Boolean comparisons in the context and the goal to propositions. *)
Ltac zbool :=
  repeat match goal with
  | H : (_ <? _) = true |- _ => apply Z.ltb_lt in H
  | H : (_ <? _) = false |- _ => apply Z.ltb_ge in H
  | H : (_ <=? _) = true |- _ => apply Z.leb_le in H
  | H : (_ <=? _) = false |- _ => apply Z.leb_gt in H
  | H : (_ =? _) = true |- _ => apply Z.eqb_eq in H
  | H : (_ =? _) = false |- _ => apply Z.eqb_neq in H
  | H : (_ && _)%bool = true |- _ => apply andb_prop in H as [? ?]
  | H : negb _ = true |- _ => apply negb_true_iff in H
  | H : negb _ = false |- _ => apply negb_false_iff in H
  end.

(** Linear arithmetic with quotients and remainders by constants. *)
Ltac zdm := Z.div_mod_to_equations; lia.

Create HintDb rust discriminated.
#[export] Hint Resolve bz_range wrap_u64_range wrap_i64_range : rust.

(** ** Lists *)

Lemma Forall_filter {A} (P : A -> Prop) (Q : A -> Prop) `{forall x, Decision (Q x)} (l : list A) :
  Forall P l -> Forall P (filter Q l).
Proof. intros HP. apply Forall_forall. intros x [_ Hx]%list_elem_of_filter. by eapply Forall_forall in HP. Qed.

(** Updating one row of a list of lists changes the concatenation in that row
    only. *)
Lemma concat_alter {A} (ls : list (list A)) i x f :
  ls !! i = Some x ->
  exists rest, concat ls ≡ₚ x ++ rest /\ concat (alter f i ls) ≡ₚ f x ++ rest.
Proof.
  intros Hi. exists (concat (take i ls) ++ concat (drop (S i) ls)).
  pose proof (take_drop_middle ls i x Hi) as E.
  assert (Hlt : (i < length ls)%nat) by (by eapply lookup_lt_Some).
  assert (E' : alter f i ls = take i ls ++ f x :: drop (S i) ls).
  { rewrite <- E at 1.
    rewrite (alter_app_r_alt _ _ _ i) by (rewrite length_take; lia).
    rewrite length_take, Nat.min_l, Nat.sub_diag by lia. done. }
  split.
  - rewrite <- E at 1. rewrite concat_app. simpl. solve_Permutation.
  - rewrite E', concat_app. simpl. solve_Permutation.
Qed.

Lemma list_filter_all {A} (P : A -> Prop) `{forall x, Decision (P x)} (l : list A) :
  Forall P l -> filter P l = l.
Proof. induction 1; [done|]. by rewrite filter_cons_True, IHForall. Qed.

Lemma list_filter_none {A} (P : A -> Prop) `{forall x, Decision (P x)} (l : list A) :
  Forall (fun x => ~ P x) l -> filter P l = [].
Proof. induction 1; [done|]. by rewrite filter_cons_False. Qed.

Lemma elem_of_take_drop {A} (l : list A) k n x :
  x ∈ take n (drop k l) <-> exists i, (k <= i < k + n)%nat /\ l !! i = Some x.
Proof.
  rewrite list_elem_of_lookup. split.
  - intros [i [Hi Hlt]%lookup_take_Some]. rewrite lookup_drop in Hi.
    exists (k + i)%nat. split; [lia|done].
  - intros (i & Hi & Hx). exists (i - k)%nat. apply lookup_take_Some.
    split; [|lia]. rewrite lookup_drop. by replace (k + (i - k))%nat with i by lia.
Qed.

Lemma filter_fmap_comm {A B} (f : A -> B) (P : B -> Prop) `{forall x, Decision (P x)} (l : list A) :
  filter P (f <$> l) = f <$> filter (fun x => P (f x)) l.
Proof.
  induction l as [|x l IH]; [done|]. rewrite fmap_cons, !filter_cons.
  case_decide; cbn; by rewrite IH.
Qed.

(** [Iterator::take] and [skip] with a [usize] count. *)
Definition ztake {A} (n : Z) (l : list A) : list A :=
  if Z.of_nat (length l) <=? n then l else take (Z.to_nat n) l.
Definition zdrop {A} (n : Z) (l : list A) : list A :=
  if Z.of_nat (length l) <=? n then [] else drop (Z.to_nat n) l.

Lemma ztake_take {A} n (l : list A) : ztake n l = take (Z.to_nat n) l.
Proof. unfold ztake. destruct (Z.leb_spec (Z.of_nat (length l)) n); [|done]. by rewrite take_ge by lia. Qed.

Lemma zdrop_drop {A} n (l : list A) : zdrop n l = drop (Z.to_nat n) l.
Proof. unfold zdrop. destruct (Z.leb_spec (Z.of_nat (length l)) n); [|done]. by rewrite drop_ge by lia. Qed.

(** ** Big-endian integers

    [to_be_bytes] and [from_be_bytes], by the number of bytes. *)

Fixpoint be (n : nat) (z : Z) : bytes :=
  match n with
  | O => []
  | S n' => zb (Z.shiftr z (8 * Z.of_nat n')) :: be n' z
  end.

Definition from_be (b : bytes) : Z := foldl (fun acc x => 256 * acc + bz x) 0 b.

Lemma be_length n z : length (be n z) = n.
Proof. induction n; cbn; congruence. Qed.

Lemma from_be_app a b : from_be (a ++ b) = 256 ^ Z.of_nat (length b) * from_be a + from_be b.
Proof.
  unfold from_be. rewrite foldl_app. generalize (foldl (fun acc x => 256 * acc + bz x) 0 a). clear a.
  induction b as [|x b IH] using rev_ind; intros acc; [cbn; lia|].
  rewrite !foldl_app, length_app, Nat2Z.inj_add, Z.pow_add_r, IH by lia. cbn [foldl length]. lia.
Qed.

Lemma from_be_be n z : from_be (be n z) = z mod 256 ^ Z.of_nat n.
Proof.
  induction n as [|n IH]; [cbn; by rewrite Z.mod_1_r|]. cbn [be].
  change (zb _ :: be n z) with ([zb (Z.shiftr z (8 * Z.of_nat n))] ++ be n z).
  rewrite from_be_app, be_length, IH. unfold from_be at 1. cbn [foldl]. rewrite bz_zb, Z.shiftr_div_pow2 by lia.
  replace (2 ^ (8 * Z.of_nat n)) with (256 ^ Z.of_nat n) by (rewrite Z.pow_mul_r by lia; done).
  rewrite Nat2Z.inj_succ, Z.pow_succ_r by lia. pose proof (Z.pow_pos_nonneg 256 (Z.of_nat n)).
  rewrite (Z.mul_comm 256 (256 ^ _)), Z.rem_mul_r by lia. ring.
Qed.
