(* ===== verification/TimeWheel.v ===== *)
(** * TimeWheel: the hierarchical timing wheel of the active expirer.

    Models [HierarchicalTimeWheel] of src/cache_cat/src/mocha/mod.rs: eight
    levels of 256 slots, each slot a vector of pending timers. The callback
    [expire : FnMut(K, u64)] of [advance_to] is a state transformer. The main
    result is that advancing the wheel fires exactly the due timers and
    conserves all the others. *)

From S2P Require Import Prelude.

Definition WHEEL_BITS : Z := 8.
Definition WHEEL_SIZE : nat := 256.
Definition WHEEL_MASK : Z := 255.
Definition WHEEL_LEVELS : nat := 8.
Definition LARGE_ADVANCE_THRESHOLD : Z := 4096.

Section TimeWheel.
Context {K : Type}.

Record TimerItem := mkTimerItem { ti_key : K; ti_expire_at : Z }.

Record HierarchicalTimeWheel := mkWheel {
  current : Z;
  wheels : list (list (list TimerItem))
}.

Definition new (now : Z) : HierarchicalTimeWheel :=
  mkWheel now (replicate WHEEL_LEVELS (replicate WHEEL_SIZE [])).

Definition slot_for (at_ : Z) (level : nat) : nat :=
  Z.to_nat (Z.land (Z.shiftr at_ (Z.of_nat level * WHEEL_BITS)) WHEEL_MASK).

(** The [while] loop of [level_for_delta]; [fuel] bounds the levels left to
    climb, and eight levels are enough because the loop guard stops at
    [WHEEL_LEVELS]. [span <<= 8] drops the bits above the 64-bit width. *)
Fixpoint level_loop (fuel level : nat) (span delta : Z) : nat :=
  match fuel with
  | O => level
  | S fuel' =>
      if ((level + 1 <? WHEEL_LEVELS)%nat && (span <=? delta))%bool
      then level_loop fuel' (level + 1) (wrap_u64 (Z.shiftl span WHEEL_BITS)) delta
      else level
  end.

Definition level_for_delta (delta : Z) : nat :=
  level_loop WHEEL_LEVELS 0 (Z.of_nat WHEEL_SIZE) delta.

(** [self.wheels[level][slot]], and its update in place. *)
Definition get_slot (ws : list (list (list TimerItem))) (level slot : nat) : list TimerItem :=
  default [] (row ← ws !! level; row !! slot).

Definition upd_slot (f : list TimerItem -> list TimerItem) (level slot : nat)
    (ws : list (list (list TimerItem))) : list (list (list TimerItem)) :=
  alter (alter f slot) level ws.

Definition insert (w : HierarchicalTimeWheel) (item : TimerItem) : HierarchicalTimeWheel :=
  if ti_expire_at item <=? current w then
    mkWheel (current w)
      (upd_slot (fun v => v ++ [item]) 0 (slot_for (current w) 0) (wheels w))
  else
    let delta := ti_expire_at item - current w in
    let level := level_for_delta delta in
    let slot := slot_for (ti_expire_at item) level in
    mkWheel (current w) (upd_slot (fun v => v ++ [item]) level slot (wheels w)).

Definition has_due (w : HierarchicalTimeWheel) (now : Z) (is_current : K -> Z -> bool) : bool :=
  existsb (fun level =>
    existsb (fun slot =>
      existsb (fun item =>
        (ti_expire_at item <=? now) && is_current (ti_key item) (ti_expire_at item))%bool
        (get_slot (wheels w) level slot))
      (seq 0 WHEEL_SIZE))
    (seq 0 WHEEL_LEVELS).

(** [std::mem::take(&mut self.wheels[level][slot])]. *)
Definition take_slot (w : HierarchicalTimeWheel) (level slot : nat)
    : list TimerItem * HierarchicalTimeWheel :=
  (get_slot (wheels w) level slot,
   mkWheel (current w) (upd_slot (fun _ => []) level slot (wheels w))).

Definition insert_all (w : HierarchicalTimeWheel) (its : list TimerItem) : HierarchicalTimeWheel :=
  foldl insert w its.

Definition cascade (w : HierarchicalTimeWheel) (level : nat) : HierarchicalTimeWheel :=
  let '(its, w1) := take_slot w level (slot_for (current w) level) in
  insert_all w1 its.

(** The [for level in 1..WHEEL_LEVELS] loop, which stops at the first level
    whose lower bits are not all zero. *)
Fixpoint cascade_levels (w : HierarchicalTimeWheel) (levels : list nat) : HierarchicalTimeWheel :=
  match levels with
  | [] => w
  | level :: rest =>
      let lower_mask := Z.shiftl 1 (Z.of_nat level * WHEEL_BITS) - 1 in
      if Z.land (current w) lower_mask =? 0
      then cascade_levels (cascade w level) rest
      else w
  end.

Section Advance.
Context {S : Type} (expire : K -> Z -> S -> S).

(** The [for item in due] loop. *)
Definition fire_due (due : list TimerItem) (w : HierarchicalTimeWheel) (s : S)
    : HierarchicalTimeWheel * S :=
  foldl (fun '(w, s) item =>
    if ti_expire_at item <=? current w
    then (w, expire (ti_key item) (ti_expire_at item) s)
    else (insert w item, s)) (w, s) due.

(** One turn of the [while self.current < now] loop. *)
Definition tick (w : HierarchicalTimeWheel) (s : S) : HierarchicalTimeWheel * S :=
  let w1 := mkWheel (current w + 1) (wheels w) in
  let w2 := cascade_levels w1 (seq 1 (WHEEL_LEVELS - 1)) in
  let '(due, w3) := take_slot w2 0 (slot_for (current w2) 0) in
  fire_due due w3 s.

(** The [while self.current < now] loop; each turn adds one to [current], so
    [now - current] turns of fuel are enough (see [ticks_spec]). *)
Fixpoint ticks (fuel : nat) (now : Z) (w : HierarchicalTimeWheel) (s : S)
    : HierarchicalTimeWheel * S :=
  match fuel with
  | O => (w, s)
  | Datatypes.S fuel' =>
      if current w <? now
      then let '(w1, s1) := tick w s in ticks fuel' now w1 s1
      else (w, s)
  end.

Definition advance_large (w : HierarchicalTimeWheel) (now : Z) (s : S)
    : HierarchicalTimeWheel * S :=
  let pending := concat (concat (wheels w)) in
  let emptied := mkWheel now (map (map (fun _ => [])) (wheels w)) in
  foldl (fun '(w, s) item =>
    if ti_expire_at item <=? now
    then (w, expire (ti_key item) (ti_expire_at item) s)
    else (insert w item, s)) (emptied, s) pending.

Definition advance_to (w : HierarchicalTimeWheel) (now : Z) (s : S)
    : HierarchicalTimeWheel * S :=
  if now <=? current w then (w, s)
  else if LARGE_ADVANCE_THRESHOLD <? u64_saturating_sub now (current w)
  then advance_large w now s
  else ticks (Z.to_nat (now - current w)) now w s.

End Advance.
End TimeWheel.

Arguments TimerItem : clear implicits.
Arguments HierarchicalTimeWheel : clear implicits.

(** ** Arithmetic of levels and slots *)

Definition unit_of (level : nat) : Z := 2 ^ (8 * Z.of_nat level).

Lemma unit_of_pos level : 0 < unit_of level.
Proof. unfold unit_of. apply Z.pow_pos_nonneg; lia. Qed.

Lemma unit_of_succ level : unit_of (S level) = 256 * unit_of level.
Proof. unfold unit_of. rewrite Nat2Z.inj_succ, Z.mul_succ_r, Z.pow_add_r by lia. lia. Qed.

Lemma slot_for_div at_ level :
  slot_for at_ level = Z.to_nat ((at_ / unit_of level) mod 256).
Proof.
  unfold slot_for, unit_of, WHEEL_BITS, WHEEL_MASK.
  rewrite Z.shiftr_div_pow2 by lia.
  change 255 with (Z.ones 8). rewrite Z.land_ones by lia.
  do 3 f_equal. f_equal. lia.
Qed.

Lemma slot_for_lt at_ level : (slot_for at_ level < WHEEL_SIZE)%nat.
Proof.
  rewrite slot_for_div. unfold WHEEL_SIZE.
  pose proof (Z.mod_pos_bound (at_ / unit_of level) 256 ltac:(lia)). lia.
Qed.

Lemma slot_for_eq a b level :
  slot_for a level = slot_for b level ->
  (a / unit_of level) mod 256 = (b / unit_of level) mod 256.
Proof.
  rewrite !slot_for_div. intros H.
  pose proof (Z.mod_pos_bound (a / unit_of level) 256 ltac:(lia)).
  pose proof (Z.mod_pos_bound (b / unit_of level) 256 ltac:(lia)). lia.
Qed.

Lemma level_for_delta_spec delta :
  0 < delta < 2 ^ 64 ->
  let l := level_for_delta delta in
  (l < WHEEL_LEVELS)%nat /\ (l = 0%nat \/ unit_of l <= delta) /\ delta < unit_of (S l).
Proof.
  intros H. unfold level_for_delta, unit_of, WHEEL_LEVELS, WHEEL_SIZE.
  cbn [level_loop Nat.add Nat.ltb Nat.leb andb WHEEL_LEVELS].
  repeat match goal with
  | |- context [wrap_u64 (Z.shiftl ?a WHEEL_BITS)] =>
      let v := eval vm_compute in (wrap_u64 (Z.shiftl a WHEEL_BITS)) in
      change (wrap_u64 (Z.shiftl a WHEEL_BITS)) with v
  end.
  repeat (match goal with |- context [?a <=? delta] =>
    let v := eval vm_compute in a in change a with v;
    destruct (Z.leb_spec v delta) end; [|cbn; lia]).
  cbn; lia.
Qed.

Lemma div_window c a d :
  0 < d -> d <= a - c < 256 * d -> c / d < a / d <= c / d + 256.
Proof.
  intros Hd H. split.
  - assert ((c + 1 * d) / d <= a / d) as Hle by (apply Z.div_le_mono; lia).
    rewrite Z.div_add in Hle by lia. lia.
  - assert (a / d <= (c + 256 * d) / d) as Hle by (apply Z.div_le_mono; lia).
    rewrite Z.div_add in Hle by lia. lia.
Qed.

Lemma div_carry c d : 0 < d -> c mod d = 0 -> (c - 1) / d = c / d - 1.
Proof.
  intros Hd Hm. pose proof (Z.div_mod c d ltac:(lia)) as E.
  symmetry. apply (Z.div_unique_pos _ _ _ (d - 1)); lia.
Qed.

Lemma div_no_carry c d : 0 < d -> c mod d <> 0 -> (c - 1) / d = c / d.
Proof.
  intros Hd Hm. pose proof (Z.div_mod c d ltac:(lia)) as E.
  pose proof (Z.mod_pos_bound c d ltac:(lia)).
  symmetry. apply (Z.div_unique_pos _ _ _ (c mod d - 1)); lia.
Qed.

(** ** Slots and their contents *)

Section Slots.
Context {K : Type}.
Implicit Types (ws : list (list (list (TimerItem K)))) (it : TimerItem K).

Definition items ws : list (TimerItem K) := concat (concat ws).

Definition shape ws : Prop :=
  length ws = WHEEL_LEVELS /\ Forall (fun row => length row = WHEEL_SIZE) ws.

Lemma shape_row ws l : shape ws -> (l < WHEEL_LEVELS)%nat ->
  exists row, ws !! l = Some row /\ length row = WHEEL_SIZE.
Proof.
  intros [Hlen Hall] Hl. destruct (lookup_lt_is_Some_2 ws l) as [row Hrow]; [lia|].
  exists row. split; [done|]. by eapply Forall_lookup_1 in Hall.
Qed.

Lemma shape_upd f l s ws : shape ws -> shape (upd_slot f l s ws).
Proof.
  intros [Hlen Hall]. unfold upd_slot. split.
  - by rewrite length_alter.
  - apply Forall_alter; [done|]. intros row _ Hrow. by rewrite length_alter.
Qed.

Lemma get_slot_upd f l s ws l' s' : shape ws -> (l < WHEEL_LEVELS)%nat -> (s < WHEEL_SIZE)%nat ->
  get_slot (upd_slot f l s ws) l' s' =
    if decide (l = l' /\ s = s') then f (get_slot ws l s) else get_slot ws l' s'.
Proof.
  intros Hsh Hl Hs. destruct (shape_row ws l Hsh Hl) as (row & Hrow & Hlen).
  destruct (lookup_lt_is_Some_2 row s) as [v Hv]; [lia|].
  unfold get_slot, upd_slot.
  destruct (decide (l = l')) as [<-|Hne].
  - rewrite list_lookup_alter_eq, Hrow. simpl.
    destruct (decide (s = s')) as [<-|Hne'].
    + rewrite list_lookup_alter_eq, Hv, decide_True by done. done.
    + rewrite list_lookup_alter_ne, decide_False by intuition congruence. done.
  - rewrite list_lookup_alter_ne, decide_False by intuition congruence. done.
Qed.

Lemma get_slot_level ws l s it :
  shape ws -> it ∈ get_slot ws l s -> (l < WHEEL_LEVELS)%nat.
Proof.
  intros [Hlen _]. unfold get_slot. rewrite <- Hlen.
  destruct (ws !! l) eqn:E; simpl; [intros _; by eapply lookup_lt_Some|].
  by intros ?%not_elem_of_nil.
Qed.

Lemma get_slot_range ws l s it :
  shape ws -> it ∈ get_slot ws l s -> (s < WHEEL_SIZE)%nat.
Proof.
  intros [_ Hrows]. unfold get_slot.
  destruct (ws !! l) as [row|] eqn:E; simpl; [|by intros ?%not_elem_of_nil].
  eapply Forall_lookup_1 in Hrows as Hlen; [|done].
  destruct (row !! s) eqn:E'; simpl; [|by intros ?%not_elem_of_nil].
  intros _. rewrite <- Hlen. by eapply lookup_lt_Some.
Qed.

Lemma items_upd f l s ws : shape ws -> (l < WHEEL_LEVELS)%nat -> (s < WHEEL_SIZE)%nat ->
  exists rest, items ws ≡ₚ get_slot ws l s ++ rest /\
               items (upd_slot f l s ws) ≡ₚ f (get_slot ws l s) ++ rest.
Proof.
  intros Hsh Hl Hs. destruct (shape_row ws l Hsh Hl) as (row & Hrow & Hlen).
  destruct (lookup_lt_is_Some_2 row s) as [v Hv]; [lia|].
  unfold items, get_slot, upd_slot. rewrite Hrow. simpl. rewrite Hv. simpl.
  destruct (concat_alter row s v f Hv) as (r1 & E1 & E2).
  destruct (concat_alter ws l row (alter f s) Hrow) as (r2 & E3 & E4).
  exists (r1 ++ concat r2). split.
  - rewrite E3, concat_app, E1. by rewrite (assoc_L (++)).
  - rewrite E4, concat_app, E2. by rewrite (assoc_L (++)).
Qed.

Lemma elem_of_items ws it : it ∈ items ws <-> exists l s, it ∈ get_slot ws l s.
Proof.
  unfold items, get_slot. rewrite list_elem_of_In, in_concat. setoid_rewrite <- list_elem_of_In.
  split.
  - intros (v & Hv & Hit). apply list_elem_of_In, in_concat in Hv as (row & Hrow & Hv).
    rewrite <- list_elem_of_In in Hrow. rewrite list_elem_of_lookup in Hrow.
    rewrite <- list_elem_of_In in Hv. rewrite list_elem_of_lookup in Hv.
    destruct Hrow as [l Hl], Hv as [s Hs].
    exists l, s. rewrite Hl. simpl. by rewrite Hs.
  - intros (l & s & Hit).
    destruct (ws !! l) as [row|] eqn:Hl; simpl in Hit; [|by apply not_elem_of_nil in Hit].
    destruct (row !! s) as [v|] eqn:Hs; simpl in Hit; [|by apply not_elem_of_nil in Hit].
    exists v. split; [|done]. apply list_elem_of_In, in_concat. exists row.
    rewrite <- !list_elem_of_In. split; by eapply list_elem_of_lookup_2.
Qed.

(** Pushing one timer. *)
Lemma items_push it l s ws : shape ws -> (l < WHEEL_LEVELS)%nat -> (s < WHEEL_SIZE)%nat ->
  items (upd_slot (fun v => v ++ [it]) l s ws) ≡ₚ it :: items ws.
Proof.
  intros Hsh Hl Hs. destruct (items_upd (fun v => v ++ [it]) l s ws Hsh Hl Hs) as (r & E1 & E2).
  rewrite E1, E2. solve_Permutation.
Qed.

Lemma items_insert w it : shape (wheels w) ->
  (ti_expire_at it <= current w \/ ti_expire_at it - current w < 2 ^ 64) ->
  items (wheels (insert w it)) ≡ₚ it :: items (wheels w) /\ shape (wheels (insert w it)) /\
  current (insert w it) = current w.
Proof.
  intros Hsh Hat. unfold insert. destruct (Z.leb_spec (ti_expire_at it) (current w)); simpl.
  - split_and!; [|by apply shape_upd|done].
    apply items_push; [done|unfold WHEEL_LEVELS; lia|apply slot_for_lt].
  - pose proof (level_for_delta_spec (ti_expire_at it - current w) ltac:(lia)) as (Hl & _).
    split_and!; [|by apply shape_upd|done].
    apply items_push; [done|done|apply slot_for_lt].
Qed.

End Slots.

(** ** The placement invariant

    A timer at level [l] will be met by the cascade of that level: its time,
    counted in units of [256^l], is one to 256 units ahead of the clock. *)

Section Invariant.
Context {K : Type}.
Implicit Types (w : HierarchicalTimeWheel K) (it : TimerItem K).

Definition window (c : Z) (l : nat) (at_ : Z) : Prop :=
  c / unit_of l < at_ / unit_of l <= c / unit_of l + 256.

Definition carry (c : Z) (l : nat) : Prop := c mod unit_of l = 0.
#[global] Instance carry_dec c l : Decision (carry c l).
Proof. unfold carry. apply _. Defined.

(** The weaker placement that holds inside a tick, after the levels [1..j]
    have been cascaded: level 0 and the carrying levels above [j] may still
    hold timers of the current unit. *)
Definition mid (c : Z) (j l : nat) (at_ : Z) : Prop :=
  if decide (l = 0%nat \/ ((j < l)%nat /\ carry c l))
  then c / unit_of l <= at_ / unit_of l <= c / unit_of l + 255
  else window c l at_.

Definition placed (P : nat -> Z -> Prop) w : Prop :=
  shape (wheels w) /\ 0 <= current w /\
  forall l s it, it ∈ get_slot (wheels w) l s ->
    slot_for (ti_expire_at it) l = s /\ P l (ti_expire_at it) /\ ti_expire_at it < 2 ^ 64.

Definition WheelInv w : Prop := placed (window (current w)) w.
Definition MidInv j w : Prop := placed (mid (current w) j) w.

Lemma unit_of_mono l l' : (l <= l')%nat -> unit_of l <= unit_of l'.
Proof. intros H. unfold unit_of. apply Z.pow_le_mono_r; lia. Qed.

Lemma unit_of_divide l l' : (l <= l')%nat -> (unit_of l | unit_of l').
Proof.
  intros H. exists (2 ^ (8 * Z.of_nat (l' - l))). unfold unit_of.
  rewrite <- Z.pow_add_r by lia. f_equal. lia.
Qed.

Lemma carry_down c l l' : (l <= l')%nat -> carry c l' -> carry c l.
Proof.
  intros H Hc. unfold carry in *. apply Z.mod_divide; [pose proof (unit_of_pos l); lia|].
  etrans; [by apply (unit_of_divide l l')|].
  apply Z.mod_divide; [pose proof (unit_of_pos l'); lia|done].
Qed.

Lemma unit_of_0 : unit_of 0 = 1.
Proof. reflexivity. Qed.

Lemma window_gt c l a : window c l a -> c < a.
Proof.
  intros [H _]. destruct (Z.lt_ge_cases c a) as [|Hge]; [done|].
  apply (Z.div_le_mono _ _ (unit_of l)) in Hge; [|apply unit_of_pos]. lia.
Qed.

Lemma mid_ge c j l a : mid c j l a -> c <= a.
Proof.
  unfold mid. case_decide as Hd; [|intros H%window_gt; lia].
  intros [H _]. pose proof (unit_of_pos l).
  assert (Hc : c mod unit_of l = 0).
  { destruct Hd as [->|[_ ?]]; [rewrite unit_of_0; apply Z.mod_1_r|done]. }
  pose proof (Z.div_mod c (unit_of l) ltac:(lia)).
  pose proof (Z.div_mod a (unit_of l) ltac:(lia)).
  pose proof (Z.mod_pos_bound a (unit_of l) ltac:(lia)). nia.
Qed.

(** The level and slot [insert] chooses satisfy any placement implied by the
    level specification. *)
Lemma placed_push P w it l :
  placed P w -> (l < WHEEL_LEVELS)%nat ->
  P l (ti_expire_at it) -> ti_expire_at it < 2 ^ 64 ->
  placed P (mkWheel (current w)
    (upd_slot (fun v => v ++ [it]) l (slot_for (ti_expire_at it) l) (wheels w))).
Proof.
  intros (Hsh & Hc & Hp) Hl HP Hlt. split_and!; simpl; [by apply shape_upd|done|].
  intros l' s' it'. rewrite get_slot_upd by (done || apply slot_for_lt).
  case_decide as Hd; [destruct Hd as [<- <-]|apply Hp].
  intros [Hin| ->%list_elem_of_singleton]%elem_of_app; [by apply Hp in Hin|done].
Qed.

Lemma insert_window_level w it :
  current w < ti_expire_at it < 2 ^ 64 -> 0 <= current w ->
  let l := level_for_delta (ti_expire_at it - current w) in
  (l < WHEEL_LEVELS)%nat /\ window (current w) l (ti_expire_at it) /\
  (l <> 0%nat -> unit_of l <= ti_expire_at it - current w) /\
  (l = 0%nat -> ti_expire_at it <= current w + 255).
Proof.
  intros H Hc. pose proof (level_for_delta_spec (ti_expire_at it - current w) ltac:(lia)) as (H1 & H2 & H3).
  cbv zeta. set (l := level_for_delta _) in *. rewrite unit_of_succ in H3.
  split_and!; [done| |intros ?; by destruct H2|intros E; rewrite E, unit_of_0 in H3; lia].
  destruct H2 as [E|H2].
  - rewrite E, unit_of_0 in *. unfold window. rewrite !unit_of_0, !Z.div_1_r. lia.
  - apply div_window; [apply unit_of_pos|lia].
Qed.

Lemma insert_inv w it :
  WheelInv w -> current w < ti_expire_at it < 2 ^ 64 -> WheelInv (insert w it).
Proof.
  intros Hw Hat. unfold insert. destruct (Z.leb_spec (ti_expire_at it) (current w)); [lia|].
  destruct (insert_window_level w it) as (Hl & Hwin & _); [done|apply Hw|].
  apply (placed_push (window (current w))); [done|done|done|lia].
Qed.

Lemma insert_mid j w it :
  MidInv j w -> current w <= ti_expire_at it < 2 ^ 64 ->
  ti_expire_at it - current w < unit_of (S j) ->
  MidInv j (insert w it).
Proof.
  intros Hw Hat Hj. unfold insert. destruct (Z.leb_spec (ti_expire_at it) (current w)).
  - assert (E : ti_expire_at it = current w) by lia.
    rewrite <- E at 2. apply (placed_push (mid (current w) j)); [done|unfold WHEEL_LEVELS; lia| |lia].
    unfold mid. rewrite decide_True by by left. rewrite E. lia.
  - destruct (insert_window_level w it) as (Hl & Hwin & Hu & H0); [lia|apply Hw|].
    cbv zeta. set (l := level_for_delta _) in *.
    apply (placed_push (mid (current w) j)); [done|done| |lia].
    unfold mid. case_decide as Hd; [|done]. destruct Hd as [E|[Hlt _]].
    + specialize (H0 E). rewrite E, unit_of_0, !Z.div_1_r. lia.
    + exfalso. pose proof (Hu ltac:(lia)). pose proof (unit_of_mono (S j) l ltac:(lia)). lia.
Qed.

Lemma insert_all_mid j its w :
  MidInv j w ->
  Forall (fun it => current w <= ti_expire_at it < 2 ^ 64 /\
                    ti_expire_at it - current w < unit_of (S j)) its ->
  MidInv j (insert_all w its) /\ current (insert_all w its) = current w /\
  items (wheels (insert_all w its)) ≡ₚ its ++ items (wheels w).
Proof.
  revert w. induction its as [|it its IH]; intros w Hw Hall; [done|].
  apply Forall_cons in Hall as [[Hat Hj] Hall]. simpl.
  destruct (items_insert w it) as (Hp & _ & Hc); [apply Hw|destruct Hw as (_ & ? & _); lia|].
  destruct (IH (insert w it)) as (H1 & H2 & H3).
  - by apply insert_mid.
  - by rewrite Hc.
  - split_and!; [done|congruence|]. rewrite H3, Hp. solve_Permutation.
Qed.

Lemma take_placed (P Q : nat -> Z -> Prop) w l s :
  placed P w -> (l < WHEEL_LEVELS)%nat -> (s < WHEEL_SIZE)%nat ->
  (forall l' a, (l' < WHEEL_LEVELS)%nat -> (l' = l -> slot_for a l <> s) -> P l' a -> Q l' a) ->
  placed Q (take_slot w l s).2.
Proof.
  intros (Hsh & Hc & Hp) Hl Hs HPQ. split_and!; simpl; [by apply shape_upd|done|].
  intros l' s' it. rewrite get_slot_upd by done.
  case_decide as Hd; [by intros ?%not_elem_of_nil|].
  intros Hin. pose proof (get_slot_level _ _ _ _ Hsh Hin).
  apply Hp in Hin as (E & HP & Hlt). split_and!; [done| |done].
  apply HPQ; [done| |done]. intros -> E'. apply Hd. by rewrite <- E, <- E'.
Qed.

Lemma take_items w l s :
  shape (wheels w) -> (l < WHEEL_LEVELS)%nat -> (s < WHEEL_SIZE)%nat ->
  items (wheels w) ≡ₚ (take_slot w l s).1 ++ items (wheels (take_slot w l s).2).
Proof.
  intros Hsh Hl Hs. simpl.
  destruct (items_upd (fun _ => []) l s (wheels w) Hsh Hl Hs) as (r & E1 & E2).
  by rewrite E1, E2.
Qed.

(** Two times in the same slot less than 256 units apart are in the same unit. *)
Lemma same_unit c a l :
  slot_for a l = slot_for c l -> c / unit_of l <= a / unit_of l <= c / unit_of l + 255 ->
  a / unit_of l = c / unit_of l.
Proof.
  intros E%slot_for_eq. revert E.
  generalize (a / unit_of l) (c / unit_of l). intros p q E H. zdm.
Qed.

Lemma mid_ext c j j' l a :
  (l = 0%nat \/ ((j < l)%nat /\ carry c l) <-> l = 0%nat \/ ((j' < l)%nat /\ carry c l)) ->
  mid c j l a -> mid c j' l a.
Proof. intros E. unfold mid. repeat case_decide; tauto. Qed.

Lemma cascade_mid j w :
  MidInv j w -> (S j < WHEEL_LEVELS)%nat -> carry (current w) (S j) ->
  MidInv (S j) (cascade w (S j)) /\ current (cascade w (S j)) = current w /\
  items (wheels (cascade w (S j))) ≡ₚ items (wheels w).
Proof.
  intros Hw Hj Hcy. unfold cascade.
  destruct (take_slot w (S j) (slot_for (current w) (S j))) as [its w1] eqn:Et.
  pose proof (slot_for_lt (current w) (S j)) as Hs.
  assert (Hpend : forall a, mid (current w) j (S j) a ->
    current w / unit_of (S j) <= a / unit_of (S j) <= current w / unit_of (S j) + 255).
  { intros a. unfold mid. rewrite decide_True; [done|right; split; [lia|done]]. }
  assert (Hc1 : current w1 = current w) by (injection Et as _ <-; done).
  assert (Hw1 : MidInv (S j) w1).
  { unfold MidInv. rewrite Hc1. replace w1 with (take_slot w (S j) (slot_for (current w) (S j))).2 by by rewrite Et.
    apply (take_placed (mid (current w) j)); [done|done|done|].
    intros l' a _ Hne Hm. destruct (decide (l' = S j)) as [->|Hl'].
    - specialize (Hne eq_refl). pose proof (Hpend a Hm) as Hb. unfold mid.
      rewrite decide_False by (intros [|[? _]]; lia). unfold window.
      destruct (decide (a / unit_of (S j) = current w / unit_of (S j))) as [E|]; [|lia].
      exfalso. apply Hne. by rewrite !slot_for_div, E.
    - by apply (mid_ext _ j); [intuition lia|]. }
  assert (Hits : Forall (fun it => current w1 <= ti_expire_at it < 2 ^ 64 /\
                    ti_expire_at it - current w1 < unit_of (S (S j))) its).
  { apply Forall_forall. intros it Hin. injection Et as <- _. rewrite Hc1.
    apply Hw in Hin as (E & Hm & Hlt). pose proof (mid_ge _ _ _ _ Hm).
    apply same_unit in E; [|by apply Hpend].
    pose proof (unit_of_pos (S j)) as Hu. rewrite (unit_of_succ (S j)).
    pose proof (Z.div_mod (current w) (unit_of (S j)) ltac:(lia)) as D1.
    pose proof (Z.div_mod (ti_expire_at it) (unit_of (S j)) ltac:(lia)) as D2.
    pose proof (Z.mod_pos_bound (ti_expire_at it) (unit_of (S j)) ltac:(lia)).
    unfold carry in Hcy. rewrite Hcy in D1. rewrite E in D2. lia. }
  destruct (insert_all_mid (S j) its w1 Hw1 Hits) as (H1 & H2 & H3).
  split_and!; [done|congruence|]. rewrite H3. symmetry.
  rewrite (take_items w (S j) (slot_for (current w) (S j))) by (done || apply Hw). by rewrite Et.
Qed.

Lemma land_lower_mask c l :
  Z.land c (Z.shiftl 1 (Z.of_nat l * WHEEL_BITS) - 1) = c mod unit_of l.
Proof.
  unfold unit_of, WHEEL_BITS. rewrite Z.shiftl_1_l, Z.sub_1_r, <- Z.ones_equiv, Z.land_ones by lia.
  do 2 f_equal. lia.
Qed.

Lemma cascade_levels_mid n j w :
  MidInv j w -> (S j + n = WHEEL_LEVELS)%nat ->
  let w' := cascade_levels w (seq (S j) n) in
  MidInv (WHEEL_LEVELS - 1) w' /\ current w' = current w /\
  items (wheels w') ≡ₚ items (wheels w).
Proof.
  revert j w. induction n as [|n IH]; intros j w Hw Hn; cbv zeta; cbn [seq cascade_levels].
  - replace (WHEEL_LEVELS - 1)%nat with j by (unfold WHEEL_LEVELS in *; lia).
    by split_and!.
  - rewrite land_lower_mask. destruct (Z.eqb_spec (current w mod unit_of (S j)) 0) as [Hcy|Hcy].
    + destruct (cascade_mid j w Hw ltac:(lia) Hcy) as (H1 & H2 & H3).
      destruct (IH (S j) _ H1 ltac:(lia)) as (H4 & H5 & H6).
      split_and!; [done|congruence|]. by rewrite H6.
    + split_and!; [|done|done]. destruct Hw as (Hsh & Hc & Hp). split_and!; [done|done|].
      intros l s it Hin. apply Hp in Hin as (E & Hm & Hlt). split_and!; [done| |done].
      apply (mid_ext _ j); [|done].
      split; (intros [|[H1 H2]]; [by left|]); exfalso; apply Hcy;
        (apply (carry_down _ (S j) l); [unfold WHEEL_LEVELS in *; lia|done]).
Qed.

(** Starting a tick turns the placement invariant into its weaker form. *)
Lemma start_tick w :
  WheelInv w -> MidInv 0 (mkWheel (current w + 1) (wheels w)).
Proof.
  intros (Hsh & Hc & Hp). split_and!; simpl; [done|lia|].
  intros l s it Hin. apply Hp in Hin as (E & [Hlo Hhi] & Hlt). split_and!; [done| |done].
  pose proof (unit_of_pos l) as Hu. unfold mid.
  destruct (decide (carry (current w + 1) l)) as [Hcy|Hcy].
  - pose proof (div_carry (current w + 1) (unit_of l) Hu Hcy) as Ed. rewrite Z.add_simpl_r in Ed.
    rewrite decide_True; [lia|]. destruct l; [by left|right; split; [lia|done]].
  - pose proof (div_no_carry (current w + 1) (unit_of l) Hu Hcy) as Ed. rewrite Z.add_simpl_r in Ed.
    rewrite decide_False; [unfold window; lia|]. intros [->|[_ ?]]; [|done].
    apply Hcy. unfold carry. by rewrite unit_of_0, Z.mod_1_r.
Qed.

Section Fire.
Context {S : Type} (expire : K -> Z -> S -> S).

(** The callback run over a list of timers, in order. *)
Definition fire_all (s : S) (its : list (TimerItem K)) : S :=
  foldl (fun s it => expire (ti_key it) (ti_expire_at it) s) s its.

Lemma fire_due_all due w s :
  Forall (fun it => ti_expire_at it <= current w) due ->
  fire_due expire due w s = (w, fire_all s due).
Proof.
  unfold fire_due, fire_all. revert s. induction due as [|it due IH]; intros s Hall; [done|].
  apply Forall_cons in Hall as [H Hall]. simpl.
  destruct (Z.leb_spec (ti_expire_at it) (current w)); [by apply IH|lia].
Qed.

Lemma tick_spec w s : WheelInv w ->
  exists w' fired,
    tick expire w s = (w', fire_all s fired) /\ WheelInv w' /\
    current w' = current w + 1 /\ items (wheels w) ≡ₚ fired ++ items (wheels w') /\
    Forall (fun it => ti_expire_at it = current w') fired.
Proof.
  intros Hw. pose proof (start_tick w Hw) as Hm. unfold tick. cbv zeta.
  destruct (cascade_levels_mid (WHEEL_LEVELS - 1) 0 _ Hm) as (H1 & H2 & H3);
    [unfold WHEEL_LEVELS; lia|]. cbn [current wheels] in H2, H3.
  set (w2 := cascade_levels _ _) in *.
  pose proof (slot_for_lt (current w2) 0) as Hs.
  assert (Hdue : Forall (fun it => ti_expire_at it = current w2)
    (get_slot (wheels w2) 0 (slot_for (current w2) 0))).
  { apply Forall_forall. intros it Hin. apply H1 in Hin as (E & Hmid & _).
    unfold mid in Hmid. rewrite decide_True in Hmid by by left.
    apply same_unit in E; [|done]. by rewrite unit_of_0, !Z.div_1_r in E. }
  cbn [take_slot]. rewrite fire_due_all.
  2: { eapply Forall_impl; [exact Hdue|]. simpl. intros ? ->. lia. }
  eexists _, _. split; [done|]. split_and!.
  - unfold WheelInv. apply (take_placed (mid (current w2) (WHEEL_LEVELS - 1)) _ _ 0 (slot_for (current w2) 0));
      [done|unfold WHEEL_LEVELS; lia|done|].
    intros l' a Hlev Hne. unfold mid. cbn [current]. destruct (decide (l' = 0%nat)) as [->|Hl'].
    + rewrite decide_True by by left. intros Hb. unfold window.
      destruct (decide (a / unit_of 0 = current w2 / unit_of 0)) as [E|]; [|lia].
      exfalso. apply (Hne eq_refl). by rewrite !slot_for_div, E.
    + intros Hmid. case_decide as Hd; [|done]. unfold window.
      destruct Hd as [|[Hgt _]]; [done|unfold WHEEL_LEVELS in *; lia].
  - done.
  - rewrite <- H3. apply (take_items w2 0); [apply H1|unfold WHEEL_LEVELS; lia|done].
  - done.
Qed.

(** What an advance to [now] guarantees: the clock reaches [now], the fired
    timers are exactly the due ones, and no other timer is lost. *)
Definition advanced w (now : Z) w' (fired : list (TimerItem K)) : Prop :=
  WheelInv w' /\ current w' = Z.max now (current w) /\
  items (wheels w) ≡ₚ fired ++ items (wheels w') /\
  Forall (fun it => ti_expire_at it <= current w') fired /\
  Forall (fun it => current w' < ti_expire_at it) (items (wheels w')).

Lemma pending_later w : WheelInv w ->
  Forall (fun it => current w < ti_expire_at it) (items (wheels w)).
Proof.
  intros (_ & _ & Hp). apply Forall_forall. intros it (l & s & Hin)%elem_of_items.
  apply Hp in Hin as (_ & Hwin & _). by eapply window_gt.
Qed.

Lemma ticks_spec fuel now w s : WheelInv w ->
  now - current w <= Z.of_nat fuel ->
  exists w' fired, ticks expire fuel now w s = (w', fire_all s fired) /\ advanced w now w' fired.
Proof.
  revert w s. induction fuel as [|fuel IH]; intros w s Hw Hf.
  { exists w, []. split; [done|]. split_and!; [done|lia|done|done|by apply pending_later]. }
  cbn [ticks]. destruct (Z.ltb_spec (current w) now).
  - destruct (tick_spec w s Hw) as (w1 & f1 & E1 & Hw1 & Hc1 & Hp1 & Hf1). rewrite E1.
    destruct (IH w1 (fire_all s f1) Hw1) as (w' & f2 & E2 & Hw' & Hc' & Hp2 & Hf2 & Hl2); [lia|].
    exists w', (f1 ++ f2). split.
    { rewrite E2. unfold fire_all. by rewrite foldl_app. }
    split_and!; [done|lia| | |done].
    + rewrite Hp1, Hp2. by rewrite (assoc_L (++)).
    + apply Forall_app. split; [|done]. eapply Forall_impl; [exact Hf1|]. simpl. lia.
  - exists w, []. split; [done|]. split_and!; [done|lia|done|done|by apply pending_later].
Qed.

(** The redistribution loop of [advance_large], from a wheel whose clock is
    already [now]. *)
Lemma redistribute_spec now pending w s : WheelInv w -> current w = now ->
  Forall (fun it => ti_expire_at it < 2 ^ 64) pending ->
  exists w' fired,
    foldl (fun '(w, s) it =>
      if ti_expire_at it <=? now
      then (w, expire (ti_key it) (ti_expire_at it) s)
      else (insert w it, s)) (w, s) pending = (w', fire_all s fired) /\
    WheelInv w' /\ current w' = now /\
    pending ++ items (wheels w) ≡ₚ fired ++ items (wheels w') /\
    Forall (fun it => ti_expire_at it <= now) fired.
Proof.
  intros Hw Hnow Hall. revert w s Hw Hnow.
  induction Hall as [|it pending Hlt Hall IH]; intros w s Hw Hnow.
  { exists w, []. split_and!; done. }
  cbn [foldl]. destruct (Z.leb_spec (ti_expire_at it) now).
  - destruct (IH w (expire (ti_key it) (ti_expire_at it) s) Hw Hnow) as (w' & f & E & Hi & Hc & Hp & Hf).
    exists w', (it :: f). split_and!; [done|done|done| |by constructor].
    rewrite <- !app_comm_cons. by rewrite Hp.
  - destruct (items_insert w it) as (Hp1 & _ & Hc1); [apply Hw|destruct Hw as (_ & ? & _); lia|].
    destruct (IH (insert w it) s) as (w' & f & E & Hi & Hc & Hp & Hf);
      [by apply insert_inv; [|lia]|congruence|].
    exists w', f. split_and!; [done|done|done| |done].
    rewrite <- Hp, Hp1. solve_Permutation.
Qed.

Lemma items_emptied (ws : list (list (list (TimerItem K)))) :
  items (K:=K) (map (map (fun _ => [])) ws) = [].
Proof.
  unfold items. induction ws as [|row ws IH]; [done|]. simpl. rewrite concat_app, IH, app_nil_r.
  clear IH. by induction row.
Qed.

Lemma advance_large_spec w now s : WheelInv w -> current w < now ->
  exists w' fired, advance_large expire w now s = (w', fire_all s fired) /\ advanced w now w' fired.
Proof.
  intros Hw Hnow. unfold advance_large.
  assert (Hlt : Forall (fun it => ti_expire_at it < 2 ^ 64) (items (wheels w))).
  { apply Forall_forall. intros it (l & s' & Hin)%elem_of_items. by apply Hw in Hin as (_ & _ & ?). }
  set (e := mkWheel now (map (map (fun _ => [])) (wheels w))).
  assert (He : WheelInv e).
  { destruct Hw as ([Hlen Hrows] & Hc & _). split_and!; [split|simpl; lia|].
    - unfold e. cbn [wheels]. by rewrite length_map.
    - apply Forall_map. eapply Forall_impl; [exact Hrows|]. simpl. intros r <-. by rewrite length_map.
    - intros l s' it Hin. exfalso. assert (Hit : it ∈ items (wheels e)) by (apply elem_of_items; eauto).
      unfold e in Hit. cbn [wheels] in Hit. rewrite items_emptied in Hit. by apply not_elem_of_nil in Hit. }
  destruct (redistribute_spec now (items (wheels w)) e s He eq_refl Hlt)
    as (w' & f & E & Hi & Hc & Hp & Hf).
  exists w', f. split; [exact E|]. split_and!; [done|lia| |by rewrite Hc|by apply pending_later].
  rewrite <- Hp. unfold e. cbn [wheels]. by rewrite items_emptied, app_nil_r.
Qed.

Lemma advance_to_spec w now s : WheelInv w ->
  exists w' fired, advance_to expire w now s = (w', fire_all s fired) /\ advanced w now w' fired.
Proof.
  intros Hw. unfold advance_to. destruct (Z.leb_spec now (current w)).
  { exists w, []. split; [done|]. split_and!; [done|lia|done|done|by apply pending_later]. }
  destruct (LARGE_ADVANCE_THRESHOLD <? _); [by apply advance_large_spec|].
  apply ticks_spec; [done|lia].
Qed.

End Fire.

Lemma new_inv now : 0 <= now -> WheelInv (new (K:=K) now).
Proof.
  intros H. split_and!; [split; [done|]|done|].
  - apply Forall_replicate. apply length_replicate.
  - intros l s it. unfold get_slot, new. cbn [wheels].
    destruct (replicate WHEEL_LEVELS _ !! l) as [row|] eqn:El; simpl; [|by intros ?%not_elem_of_nil].
    apply lookup_replicate in El as [-> _].
    destruct (replicate WHEEL_SIZE _ !! s) as [v|] eqn:Es; simpl; [|by intros ?%not_elem_of_nil].
    apply lookup_replicate in Es as [-> _]. by intros ?%not_elem_of_nil.
Qed.

Lemma new_items now : items (wheels (new (K:=K) now)) = [].
Proof. reflexivity. Qed.

Lemma has_due_spec w now is_current : shape (wheels w) ->
  has_due w now is_current = true <->
  exists it, it ∈ items (wheels w) /\ ti_expire_at it <= now /\
             is_current (ti_key it) (ti_expire_at it) = true.
Proof.
  intros Hsh. unfold has_due. setoid_rewrite elem_of_items. rewrite existsb_exists. split.
  - intros (l & _ & Hl). apply existsb_exists in Hl as (s & _ & Hs).
    apply existsb_exists in Hs as (it & Hin & Hb). zbool.
    apply list_elem_of_In in Hin. exists it. eauto 6.
  - intros (it & (l & s & Hin) & Hle & Hcur).
    pose proof (get_slot_level _ _ _ _ Hsh Hin) as Hl. pose proof (get_slot_range _ _ _ _ Hsh Hin) as Hs.
    exists l. rewrite in_seq. split; [lia|]. apply existsb_exists.
    exists s. rewrite in_seq. split; [lia|]. apply existsb_exists.
    exists it. split; [by apply list_elem_of_In|].
    apply andb_true_intro. split; [by apply Z.leb_le|done].
Qed.

End Invariant.

(** ** Properties *)

(** C17: Advancing the wheel to [now] (by single ticks or, past 4096 ms, by
    redistribution) runs the callback on exactly the pending timers whose time
    has come, each once, keeps exactly the others, moves the clock to
    [max now current] and re-establishes the placement invariant. *)
Theorem advance_fires_exactly_due {K S : Type} (expire : K -> Z -> S -> S)
    (w : HierarchicalTimeWheel K) (now : Z) (s : S) :
  WheelInv w ->
  exists w' fired,
    advance_to expire w now s = (w', fire_all expire s fired) /\
    WheelInv w' /\
    current w' = Z.max now (current w) /\
    fired ≡ₚ filter (fun it => ti_expire_at it <= current w') (items (wheels w)) /\
    items (wheels w') ≡ₚ filter (fun it => current w' < ti_expire_at it) (items (wheels w)).
Proof.
  intros Hw. destruct (advance_to_spec expire w now s Hw) as (w' & f & E & Hi & Hc & Hp & Hf & Hl).
  exists w', f. split_and!; [done|done|done| |]; rewrite Hp, filter_app.
  - rewrite (list_filter_all _ f), (list_filter_none _ (items (wheels w'))), app_nil_r; [done| |done].
    eapply Forall_impl; [exact Hl|]. simpl. lia.
  - rewrite (list_filter_none _ f), (list_filter_all _ (items (wheels w'))); [done|done|].
    eapply Forall_impl; [exact Hf|]. simpl. lia.
Qed.

(** The wheel of a fresh worker with two timers, one due and one 70 seconds
    ahead. *)
Definition sample_wheel : HierarchicalTimeWheel nat :=
  insert (insert (new 1000) (mkTimerItem 1%nat 1010)) (mkTimerItem 2%nat 71000).

Lemma sample_wheel_inv : WheelInv sample_wheel.
Proof. apply insert_inv; [apply insert_inv; [apply new_inv; lia|simpl; lia]|simpl; lia]. Qed.

Lemma advance_fires_exactly_due_witness :
  exists w' fired,
    advance_to (fun k a log => log ++ [(k, a)]) sample_wheel 1300 [] =
      (w', fire_all (fun k a log => log ++ [(k, a)]) [] fired) /\
    WheelInv w' /\ current w' = 1300 /\
    fired ≡ₚ filter (fun it => ti_expire_at it <= current w') (items (wheels sample_wheel)) /\
    items (wheels w') ≡ₚ filter (fun it => current w' < ti_expire_at it) (items (wheels sample_wheel)).
Proof.
  exact (advance_fires_exactly_due (fun k a log => log ++ [(k, a)]) sample_wheel 1300 []
    sample_wheel_inv).
Defined.

Example sample_wheel_run :
  (advance_to (fun k a log => log ++ [(k, a)]) sample_wheel 1300 []).2 = [(1%nat, 1010)].
Proof. vm_compute. reflexivity. Qed.

Example sample_wheel_run_large :
  (advance_to (fun k a log => log ++ [(k, a)]) sample_wheel 80000 []).2
    = [(1%nat, 1010); (2%nat, 71000)].
Proof. vm_compute. reflexivity. Qed.

(** [has_due] finds a due timer exactly when one is pending that the
    predicate accepts, wherever in the eight levels it sits. *)
Theorem has_due_complete {K : Type} (w : HierarchicalTimeWheel K) (now : Z)
    (is_current : K -> Z -> bool) :
  WheelInv w ->
  has_due w now is_current = true <->
  exists it, it ∈ items (wheels w) /\ ti_expire_at it <= now /\
             is_current (ti_key it) (ti_expire_at it) = true.
Proof. intros [Hsh _]. by apply has_due_spec. Qed.

Lemma has_due_complete_witness :
  has_due sample_wheel 1010 (fun _ _ => true) = true <->
  exists it, it ∈ items (wheels sample_wheel) /\ ti_expire_at it <= 1010 /\ true = true.
Proof. exact (has_due_complete sample_wheel 1010 (fun _ _ => true) sample_wheel_inv). Defined.
