(* ===== verification/Glob.v ===== *)
(** * Glob: the pattern matcher behind KEYS.

    Models [GlobMatcher] of src/cache_cat/src/utils/glob.rs. The code indexes
    the pattern by position, and an index past its end panics, so a run has
    three outcomes here: a boolean, a panic, or (for the model only) lack of
    fuel. Well-formed patterns are related to the language they denote. *)

From S2P Require Import Prelude.
From Stdlib Require Import Strings.Byte.

Definition beq (a b : byte) : bool := bool_decide (a = b).

(** ** The matcher *)

(** The [while] loop of [match_bracket]; [i] grows by one or three at each
    turn, so the pattern's length is enough fuel. *)
Fixpoint bracket_loop (fuel : nat) (pattern : bytes) (value : byte) (i : nat) (matched : bool)
    : bool * nat :=
  match fuel with
  | O => (matched, i)
  | S fuel' =>
      match pattern !! i with
      | None => (matched, i)
      | Some c =>
          if beq c x5d then (matched, i)
          else
            match pattern !! (i + 1)%nat, pattern !! (i + 2)%nat with
            | Some d, Some e =>
                if beq d x2d then
                  let hit := ((bz c <=? bz value) && (bz value <=? bz e))%bool in
                  bracket_loop fuel' pattern value (i + 3) (if hit then true else matched)
                else bracket_loop fuel' pattern value (i + 1) (if beq c value then true else matched)
            | _, _ => bracket_loop fuel' pattern value (i + 1) (if beq c value then true else matched)
            end
      end
  end.

Definition match_bracket (pattern : bytes) (start : nat) (value : byte) : bool * nat :=
  let i := (start + 1)%nat in
  let negate :=
    match pattern !! i with
    | Some c => (beq c x5e || beq c x21)%bool
    | None => false
    end in
  let i := if negate then (i + 1)%nat else i in
  let '(matched, i) := bracket_loop (length pattern) pattern value i false in
  (if negate then negb matched else matched, i).

Fixpoint match_inner (fuel : nat) (pattern value : bytes) (pi vi : nat) : outcome bool :=
  match fuel with
  | O => OutOfFuel
  | S fuel' =>
      if (pi =? length pattern)%nat then Ret (vi =? length value)%nat
      else
        match pattern !! pi with
        | None => Panic
        | Some c =>
            if beq c x2a then
              match match_inner fuel' pattern value (pi + 1) vi with
              | Ret true => Ret true
              | Ret false =>
                  if (vi <? length value)%nat
                  then match_inner fuel' pattern value pi (vi + 1)
                  else Ret false
              | o => o
              end
            else if beq c x3f then
              if (vi <? length value)%nat
              then match_inner fuel' pattern value (pi + 1) (vi + 1)
              else Ret false
            else if beq c x5b then
              match value !! vi with
              | None => Ret false
              | Some b =>
                  let '(matched, end_) := match_bracket pattern pi b in
                  if negb matched then Ret false
                  else match_inner fuel' pattern value (end_ + 1) (vi + 1)
              end
            else if beq c x5c then
              match pattern !! (pi + 1)%nat with
              | None => Ret false
              | Some e =>
                  if bool_decide (value !! vi = Some e)
                  then match_inner fuel' pattern value (pi + 2) (vi + 1)
                  else Ret false
              end
            else
              if bool_decide (value !! vi = Some c)
              then match_inner fuel' pattern value (pi + 1) (vi + 1)
              else Ret false
        end
  end.

(** Every call moves forward in the pattern or in the value. *)
Definition glob_fuel (pattern value : bytes) : nat := S (S (length pattern) + length value).

Definition matches (pattern value : bytes) : outcome bool :=
  match_inner (glob_fuel pattern value) pattern value 0 0.

(** ** The language of a pattern

    A token matches either any string or one byte of a set. *)

Inductive tok : Type :=
| TStar
| TOne (p : byte -> bool).

Definition tok_matches (t : tok) (s : bytes) : Prop :=
  match t with
  | TStar => True
  | TOne p => exists b, s = [b] /\ p b = true
  end.

(** A token list denotes the strings that split into one piece per token. *)
Definition denotes (ts : list tok) (s : bytes) : Prop :=
  exists pieces, s = concat pieces /\ Forall2 tok_matches ts pieces.

(** The body of a bracket up to the closing one: its set, and what follows. *)
Fixpoint parse_class (s : bytes) : option ((byte -> bool) * bytes) :=
  match s with
  | [] => None
  | c :: r =>
      if beq c x5d then Some (fun _ => false, r)
      else
        let one :=
          match parse_class r with
          | Some (p, rest) => Some (fun b => beq c b || p b, rest)%bool
          | None => None
          end in
        match r with
        | d :: e :: r' =>
            if beq d x2d then
              match parse_class r' with
              | Some (p, rest) =>
                  Some (fun b => ((bz c <=? bz b) && (bz b <=? bz e)) || p b, rest)%bool
              | None => None
              end
            else one
        | _ => one
        end
  end.

Definition parse_bracket (s : bytes) : option ((byte -> bool) * bytes) :=
  match s with
  | c :: r =>
      if (beq c x5e || beq c x21)%bool then
        match parse_class r with
        | Some (p, rest) => Some (fun b => negb (p b), rest)
        | None => None
        end
      else parse_class s
  | [] => None
  end.

(** The tokens of a pattern; [None] for an unterminated bracket. A trailing
    backslash matches nothing. *)
Fixpoint parse_glob (fuel : nat) (s : bytes) : option (list tok) :=
  match fuel with
  | O => None
  | S fuel' =>
      match s with
      | [] => Some []
      | c :: r =>
          if beq c x2a then cons TStar <$> parse_glob fuel' r
          else if beq c x3f then cons (TOne (fun _ => true)) <$> parse_glob fuel' r
          else if beq c x5b then
            match parse_bracket r with
            | Some (p, rest) => cons (TOne p) <$> parse_glob fuel' rest
            | None => None
            end
          else if beq c x5c then
            match r with
            | e :: r' => cons (TOne (beq e)) <$> parse_glob fuel' r'
            | [] => Some [TOne (fun _ => false)]
            end
          else cons (TOne (beq c)) <$> parse_glob fuel' r
      end
  end.

Definition glob_tokens (pattern : bytes) : option (list tok) :=
  parse_glob (S (length pattern)) pattern.

(** ** Correctness *)

Lemma beq_true a b : beq a b = true <-> a = b.
Proof. apply bool_decide_eq_true. Qed.

Lemma beq_refl a : beq a a = true.
Proof. by apply beq_true. Qed.

Lemma denotes_nil s : denotes [] s <-> s = [].
Proof.
  split; [intros (ps & -> & H); by inversion H|intros ->; by exists []].
Qed.

Lemma denotes_one p ts s :
  denotes (TOne p :: ts) s <-> exists b s', s = b :: s' /\ p b = true /\ denotes ts s'.
Proof.
  split.
  - intros (ps & -> & H). inversion H as [|t x ts' ps' Hx Hr]; subst.
    destruct Hx as (b & -> & Hb). exists b, (concat ps'). split_and!; [done|done|]. by exists ps'.
  - intros (b & s' & -> & Hb & ps & -> & H). exists ([b] :: ps).
    split; [done|]. constructor; [by exists b|done].
Qed.

Lemma denotes_star ts s :
  denotes (TStar :: ts) s <-> denotes ts s \/ exists b s', s = b :: s' /\ denotes (TStar :: ts) s'.
Proof.
  split.
  - intros (ps & -> & H). inversion H as [|t x ts' ps' _ Hr]; subst. destruct x as [|b x].
    + left. by exists ps'.
    + right. exists b, (x ++ concat ps'). split; [done|]. exists (x :: ps'). by repeat constructor.
  - intros [(ps & -> & H)|(b & s' & -> & ps & -> & H)].
    + exists ([] :: ps). split; [done|]. by constructor.
    + inversion H as [|t x ts' ps' _ Hr]; subst. exists ((b :: x) :: ps'). split; [done|].
      by constructor.
Qed.

Lemma drop_lookup_cons {A} (l : list A) i c r :
  drop i l = c :: r -> l !! i = Some c /\ drop (i + 1) l = r /\ (i < length l)%nat.
Proof.
  intros E. assert (Hi : (i < length l)%nat).
  { apply (f_equal length) in E. rewrite length_drop in E. simpl in E. lia. }
  destruct (lookup_lt_is_Some_2 l i Hi) as [x Hx].
  pose proof (drop_S l x i Hx) as E'. rewrite E in E'. injection E' as -> ->.
  by rewrite Nat.add_1_r.
Qed.

Lemma drop_lookup_next {A} (l : list A) i : l !! (i + 1)%nat = head (drop (i + 1) l).
Proof. by rewrite head_lookup, lookup_drop, Nat.add_0_r. Qed.

Lemma parse_class_cons c r :
  parse_class (c :: r) =
    if beq c x5d then Some (fun _ => false, r)
    else
      match r with
      | d :: e :: r' =>
          if beq d x2d then
            match parse_class r' with
            | Some (p, rest) =>
                Some (fun b => ((bz c <=? bz b) && (bz b <=? bz e)) || p b, rest)%bool
            | None => None
            end
          else
            match parse_class r with
            | Some (p, rest) => Some (fun b => beq c b || p b, rest)%bool
            | None => None
            end
      | _ =>
          match parse_class r with
          | Some (p, rest) => Some (fun b => beq c b || p b, rest)%bool
          | None => None
          end
      end.
Proof. reflexivity. Qed.

Lemma bracket_loop_spec pat v fuel i m p rest :
  (length pat - i <= fuel)%nat ->
  parse_class (drop i pat) = Some (p, rest) ->
  exists j, bracket_loop fuel pat v i m = ((m || p v)%bool, j) /\
            drop (j + 1) pat = rest /\ (i <= j < length pat)%nat.
Proof.
  revert i m p. induction fuel as [|fuel IH]; intros i m p Hf Hp.
  { rewrite drop_ge in Hp by lia. done. }
  destruct (drop i pat) as [|c r] eqn:Ed; [done|].
  destruct (drop_lookup_cons _ _ _ _ Ed) as (Hi & Hr & Hlt).
  assert (Hone : forall q, parse_class r = Some (q, rest) -> (forall b, p b = beq c b || q b)%bool ->
    exists j, bracket_loop fuel pat v (i + 1) (if beq c v then true else m) = ((m || p v)%bool, j) /\
      drop (j + 1) pat = rest /\ (i <= j < length pat)%nat).
  { intros q Hq Hpq. rewrite <- Hr in Hq.
    destruct (IH (i + 1)%nat (if beq c v then true else m) q ltac:(lia) Hq) as (j & -> & Hj & ?).
    exists j. split_and!; [|done|lia|lia]. rewrite Hpq. destruct (beq c v), m; done. }
  rewrite parse_class_cons in Hp. cbn [bracket_loop]. rewrite Hi. destruct (beq c x5d).
  { injection Hp as <- <-. exists i. rewrite orb_false_r. split_and!; [done|done|lia|lia]. }
  assert (H1 : pat !! (i + 1)%nat = r !! 0%nat) by by rewrite <- Hr, lookup_drop, Nat.add_0_r.
  assert (H2 : pat !! (i + 2)%nat = r !! 1%nat) by (rewrite <- Hr, lookup_drop; f_equal; lia).
  rewrite H1, H2. destruct r as [|d [|e r']]; simpl lookup.
  - done.
  - destruct (parse_class [d]) as [[q rest']|]; [|done]. injection Hp as <- <-. by apply (Hone q).
  - cbn -[parse_class bracket_loop]. destruct (beq d x2d).
    + destruct (parse_class r') as [[q rest']|] eqn:Er'; [|done]. injection Hp as <- <-.
      assert (Er3 : drop (i + 3) pat = r').
      { replace (i + 3)%nat with (i + 1 + 2)%nat by lia. by rewrite <- drop_drop, Hr. }
      rewrite <- Er3 in Er'.
      destruct (IH (i + 3)%nat (if ((bz c <=? bz v) && (bz v <=? bz e))%bool then true else m) q ltac:(lia) Er')
        as (j & -> & Hj & ?).
      exists j. split_and!; [|done|lia|lia]. destruct (_ && _)%bool, m; done.
    + destruct (parse_class (d :: e :: r')) as [[q rest']|]; [|done].
      injection Hp as <- <-. by apply (Hone q).
Qed.

Lemma match_bracket_spec pat v i p rest :
  parse_bracket (drop (i + 1) pat) = Some (p, rest) ->
  exists j, match_bracket pat i v = (p v, j) /\ drop (j + 1) pat = rest /\ (i < j < length pat)%nat.
Proof.
  unfold match_bracket, parse_bracket. intros Hp.
  destruct (drop (i + 1) pat) as [|c r] eqn:Ed; [done|].
  destruct (drop_lookup_cons _ _ _ _ Ed) as (Hi & Hr & Hlt). rewrite Hi.
  destruct (beq c x5e || beq c x21)%bool.
  - destruct (parse_class r) as [[q rest']|] eqn:Er; [|done]. injection Hp as <- <-.
    rewrite <- Hr in Er.
    destruct (bracket_loop_spec pat v (length pat) _ false _ _ ltac:(lia) Er) as (j & -> & Hj & ?).
    exists j. split_and!; [done|done|lia|lia].
  - rewrite <- Ed in Hp.
    destruct (bracket_loop_spec pat v (length pat) _ false _ _ ltac:(lia) Hp) as (j & -> & Hj & ?).
    exists j. split_and!; [done|done|lia|lia].
Qed.

Lemma drop_value_cons {A} (v : list A) vi b : v !! vi = Some b -> drop vi v = b :: drop (vi + 1) v.
Proof. intros H. rewrite (drop_S _ _ _ H). by rewrite Nat.add_1_r. Qed.

(** One step over a byte of a set, once the pattern side has been read. *)
Lemma one_step pat v fuel pi' vi p ts (q : bool) :
  (forall b, v !! vi = Some b -> q = p b) -> (v !! vi = None -> q = false) ->
  (forall b, v !! vi = Some b ->
    exists r, match_inner fuel pat v pi' (vi + 1) = Ret r /\ (r = true <-> denotes ts (drop (vi + 1) v))) ->
  exists r, (if q then match_inner fuel pat v pi' (vi + 1) else Ret false) = Ret r /\
            (r = true <-> denotes (TOne p :: ts) (drop vi v)).
Proof.
  intros Hs Hn Hrec. setoid_rewrite denotes_one.
  destruct (v !! vi) as [b|] eqn:Ev.
  - rewrite (drop_value_cons _ _ _ Ev), (Hs b eq_refl). destruct (p b) eqn:Hp.
    + destruct (Hrec b eq_refl) as (r & -> & Hr). exists r. split; [done|]. rewrite Hr. split.
      * intros H. by exists b, (drop (vi + 1) v).
      * by intros (b' & s' & [= <- <-] & _ & ?).
    + exists false. split; [done|]. split; [done|].
      intros (b' & s' & [= <- <-] & ? & _). congruence.
  - rewrite (Hn eq_refl). exists false. split; [done|]. split; [done|].
    rewrite drop_ge by by apply lookup_ge_None. by intros (? & ? & ? & _).
Qed.

Lemma match_inner_spec pat v fuel pf pi vi ts :
  (pi <= length pat)%nat -> (length pat - pi + (length v - vi) < fuel)%nat ->
  parse_glob pf (drop pi pat) = Some ts -> (vi <= length v)%nat ->
  exists b, match_inner fuel pat v pi vi = Ret b /\ (b = true <-> denotes ts (drop vi v)).
Proof.
  revert pf pi vi ts. induction fuel as [|fuel IH]; intros pf pi vi ts Hpi Hf Hp Hvi; [lia|].
  destruct pf as [|pf]; [done|]. cbn [match_inner parse_glob] in *.
  destruct (drop pi pat) as [|c r] eqn:Ed.
  { injection Hp as <-. assert (pi = length pat).
    { apply (f_equal length) in Ed. rewrite length_drop in Ed. simpl in Ed. lia. }
    rewrite (proj2 (Nat.eqb_eq _ _)) by done. eexists. split; [done|].
    rewrite Nat.eqb_eq, denotes_nil. split; [intros ->; by rewrite drop_all|].
    intros E. apply (f_equal length) in E. rewrite length_drop in E. simpl in E. lia. }
  destruct (drop_lookup_cons _ _ _ _ Ed) as (Hi & Hr & Hlt).
  rewrite (proj2 (Nat.eqb_neq _ _)) by lia. rewrite Hi.
  assert (Hvlt : forall b, v !! vi = Some b -> (vi < length v)%nat) by (intros b ?; by eapply lookup_lt_Some).
  destruct (beq c x2a) eqn:Ec.
  { destruct (parse_glob pf r) as [ts'|] eqn:Er; [|done]. injection Hp as <-.
    assert (Er' := Er). rewrite <- Hr in Er'.
    destruct (IH pf (pi + 1)%nat vi ts' ltac:(lia) ltac:(lia) Er' Hvi) as (b & -> & Hb).
    destruct b.
    - exists true. split; [done|]. rewrite denotes_star. tauto.
    - destruct (Nat.ltb_spec vi (length v)) as [Hv|Hv].
      + destruct (IH (S pf) pi (vi + 1)%nat (TStar :: ts') ltac:(lia) ltac:(lia)) as (b' & -> & Hb').
        { rewrite Ed. cbn [parse_glob]. by rewrite Ec, Er. }
        { lia. }
        exists b'. split; [done|]. rewrite Hb'. rewrite (denotes_star _ (drop vi v)).
        destruct (lookup_lt_is_Some_2 v vi Hv) as [x Hx].
        rewrite (drop_value_cons _ _ _ Hx). rewrite (drop_value_cons _ _ _ Hx) in Hb.
        split; [eauto|]. intros [?%Hb|(y & s' & [= <- <-] & ?)]; done.
      + exists false. split; [done|]. split; [done|]. rewrite denotes_star, (drop_ge v) by lia.
        rewrite (drop_ge v) in Hb by lia. intros [?%Hb|(? & ? & ? & _)]; done. }
  destruct (beq c x3f).
  { destruct (parse_glob pf r) as [ts'|] eqn:Er; [|done]. injection Hp as <-. rewrite <- Hr in Er.
    apply one_step.
    - intros b Hb. apply Nat.ltb_lt. eauto.
    - intros Hn%lookup_ge_None. by apply Nat.ltb_ge.
    - intros b Hb%Hvlt. eapply IH; eauto; lia. }
  destruct (beq c x5b).
  { destruct (parse_bracket r) as [[p rest]|] eqn:Eb; [|done].
    destruct (parse_glob pf rest) as [ts'|] eqn:Er; [|done]. injection Hp as <-. rewrite <- Hr in Eb.
    destruct (v !! vi) as [b|] eqn:Ev.
    - destruct (match_bracket_spec pat b pi p rest Eb) as (j & -> & Hj & Hjlt). rewrite if_negb.
      apply one_step.
      + intros b' ?; congruence.
      + congruence.
      + intros b' Hb'. rewrite <- Hj in Er. pose proof (Hvlt b eq_refl). eapply IH; eauto; lia.
    - exists false. split; [done|]. split; [done|]. rewrite denotes_one, drop_ge by by apply lookup_ge_None.
      by intros (? & ? & ? & _). }
  destruct (beq c x5c).
  { rewrite drop_lookup_next, Hr. destruct r as [|e r']; simpl head.
    - injection Hp as <-. exists false. split; [done|]. rewrite denotes_one. by split; [|intros (? & ? & _ & ? & _)].
    - destruct (parse_glob pf r') as [ts'|] eqn:Er; [|done]. injection Hp as <-.
      destruct (drop_lookup_cons _ _ _ _ Hr) as (Hi' & Hr' & Hlt').
      replace (pi + 1 + 1)%nat with (pi + 2)%nat in Hr' by lia. rewrite <- Hr' in Er.
      apply one_step.
      + intros b ->. unfold beq. apply bool_decide_ext. naive_solver.
      + intros ->. done.
      + intros b Hb%Hvlt. eapply IH; eauto; lia. }
  destruct (parse_glob pf r) as [ts'|] eqn:Er; [|done]. injection Hp as <-. rewrite <- Hr in Er.
  apply one_step.
  - intros b ->. unfold beq. apply bool_decide_ext. naive_solver.
  - intros ->. done.
  - intros b Hb%Hvlt. eapply IH; eauto; lia.
Qed.

Lemma bracket_loop_ge fuel pat v i m : (i <= (bracket_loop fuel pat v i m).2)%nat.
Proof.
  revert i m. induction fuel as [|fuel IH]; intros i m; [done|]. cbn [bracket_loop].
  repeat (dmatch; [|try done]); try done;
    match goal with |- (_ <= (bracket_loop _ _ _ ?k ?b).2)%nat => pose proof (IH k b) end; lia.
Qed.

Lemma match_bracket_ge pat v i : (i < (match_bracket pat i v).2)%nat.
Proof.
  unfold match_bracket. cbv zeta. generalize (match pat !! (i + 1)%nat with
    Some c => (beq c x5e || beq c x21)%bool | None => false end). intros neg.
  pose proof (bracket_loop_ge (length pat) pat v (if neg then i + 1 + 1 else i + 1) false).
  destruct (bracket_loop _ _ _ _ _) as [m j]. simpl in *. destruct neg; lia.
Qed.

Lemma match_inner_fuel pat v fuel pi vi :
  (S (length pat) - pi + (length v - vi) < fuel)%nat -> match_inner fuel pat v pi vi <> OutOfFuel.
Proof.
  revert pi vi. induction fuel as [|fuel IH]; intros pi vi Hf; [lia|]. cbn [match_inner].
  destruct (Nat.eqb_spec pi (length pat)); [done|].
  destruct (pat !! pi) as [c|] eqn:Hi; [|done]. apply lookup_lt_Some in Hi.
  assert (Hnext : forall b pi', v !! vi = Some b -> (pi < pi')%nat ->
    match_inner fuel pat v pi' (vi + 1) <> OutOfFuel).
  { intros b pi' Hb%lookup_lt_Some Hlt. apply IH. lia. }
  destruct (beq c x2a).
  { pose proof (IH (pi + 1)%nat vi ltac:(lia)).
    destruct (match_inner fuel pat v (pi + 1) vi) as [[]| |]; try done.
    destruct (Nat.ltb_spec vi (length v)); [apply IH; lia|done]. }
  destruct (beq c x3f).
  { destruct (Nat.ltb_spec vi (length v)); [apply IH; lia|done]. }
  destruct (beq c x5b).
  { destruct (v !! vi) as [b|]; [|done]. pose proof (match_bracket_ge pat b pi).
    destruct (match_bracket pat pi b) as [m j]. simpl in *. destruct m; simpl; [|done].
    apply (Hnext b); [done|lia]. }
  destruct (beq c x5c).
  { destruct (pat !! (pi + 1)%nat) as [e|]; [|done]. case_bool_decide; [|done].
    apply (Hnext e); [done|lia]. }
  case_bool_decide; [|done]. apply (Hnext c); [done|lia].
Qed.

Lemma match_spec_ret (pattern : bytes) (ts : list tok) (value : bytes) :
  glob_tokens pattern = Some ts ->
  exists b, matches pattern value = Ret b /\ (b = true <-> denotes ts value).
Proof.
  intros H. apply (match_inner_spec pattern value _ (S (length pattern)) 0 0 ts);
    [lia|unfold glob_fuel; lia|done|lia].
Qed.

(** ** Properties *)

(** C22: On a pattern with no unterminated bracket the matcher returns, without
    panicking, whether the value is in the language the pattern denotes: the
    strings that split into one piece per token, where [*] takes any piece and
    [?], a bracket, an escape or a literal take one byte of their set. *)
Theorem matches_iff_denotes (pattern value : bytes) (ts : list tok) :
  glob_tokens pattern = Some ts ->
  exists b, matches pattern value = Ret b /\ (b = true <-> denotes ts value).
Proof. apply match_spec_ret. Qed.

(** [h[a-c]*o] against [habcdo]. *)
Definition sample_pattern : bytes := [x68; x5b; x61; x2d; x63; x5d; x2a; x6f].
Definition sample_key : bytes := [x68; x61; x62; x63; x64; x6f].

Lemma matches_iff_denotes_witness :
  exists ts, glob_tokens sample_pattern = Some ts /\
  exists b, matches sample_pattern sample_key = Ret b /\ (b = true <-> denotes ts sample_key).
Proof.
  eexists. split; [reflexivity|]. apply (matches_iff_denotes sample_pattern sample_key). reflexivity.
Defined.

Example sample_pattern_matches : matches sample_pattern sample_key = Ret true.
Proof. vm_compute. reflexivity. Qed.

(** The matcher always terminates: for every pattern, well-formed or not,
    the recursion ends within [len(pattern) + len(value) + 2] nested calls. *)
Theorem matches_terminates (pattern value : bytes) : matches pattern value <> OutOfFuel.
Proof. apply match_inner_fuel. unfold glob_fuel. lia. Qed.

(** A pattern that ends inside a bracket makes the matcher read past the
    end of the pattern as soon as the bracket accepts a byte: [KEYS \[c] panics
    when some key starts with [c]. *)
Theorem unterminated_bracket_panics (c : byte) (rest : bytes) :
  c <> x5d -> c <> x5e -> c <> x21 ->
  matches [x5b; c] (c :: rest) = Panic.
Proof.
  intros H1 H2 H3. unfold matches, glob_fuel.
  assert (E : match_bracket [x5b; c] 0 c = (true, 2%nat)).
  { unfold match_bracket, beq. cbn -[bool_decide].
    rewrite (bool_decide_false (c = x5e)), (bool_decide_false (c = x21)) by done. cbn -[bool_decide].
    unfold beq. by rewrite (bool_decide_false (c = x5d)), (bool_decide_true (c = c)) by done. }
  cbn -[bool_decide match_bracket]. rewrite E. reflexivity.
Qed.

Lemma unterminated_bracket_panics_witness :
  x61 <> x5d /\ matches [x5b; x61] [x61; x62] = Panic.
Proof. split; [discriminate|]. apply unterminated_bracket_panics; discriminate. Defined.
