(* ===== verification/Text.v ===== *)
(** * Text: UTF-8, decimal numbers and the string functions of the standard library.

    A Rust [String] is its UTF-8 byte sequence. This file models what the
    command parsers use: [from_utf8], [from_utf8_lossy], [trim],
    [to_uppercase], [parse::<i64>], [parse::<u64>], [to_string], and the
    helpers of src/cache_cat/src/utils/number.rs. *)

From S2P Require Import Prelude.
From Stdlib Require Import Strings.Byte.
From Stdlib Require String.
Export (notations) String.

(** String literals as byte sequences. *)
Definition str (s : String.string) : bytes := String.list_byte_of_string s.
Arguments str s%_string.

(** ** UTF-8 *)

Definition byte_in (lo hi : Z) (b : byte) : bool := ((lo <=? bz b) && (bz b <=? hi))%bool.
Definition is_cont (b : byte) : bool := byte_in 128 191 b.

(** Whether the second byte of a three or four byte sequence is allowed. *)
Definition second3 (b c : byte) : bool :=
  if bz b =? 224 then byte_in 160 191 c
  else if bz b =? 237 then byte_in 128 159 c
  else is_cont c.
Definition second4 (b c : byte) : bool :=
  if bz b =? 240 then byte_in 144 191 c
  else if bz b =? 244 then byte_in 128 143 c
  else is_cont c.

(** The first character: its bytes and the rest, or the length of the invalid
    sequence at the front, as [Utf8Chunks] delimits it. *)
Definition utf8_head (s : bytes) : option bytes * nat :=
  match s with
  | [] => (None, 0%nat)
  | b :: r =>
      if bz b <? 128 then (Some [b], 1%nat)
      else if byte_in 194 223 b then
        match r with
        | c :: _ => if is_cont c then (Some [b; c], 2%nat) else (None, 1%nat)
        | [] => (None, 1%nat)
        end
      else if byte_in 224 239 b then
        match r with
        | c :: r' =>
            if second3 b c then
              match r' with
              | d :: _ => if is_cont d then (Some [b; c; d], 3%nat) else (None, 2%nat)
              | [] => (None, 2%nat)
              end
            else (None, 1%nat)
        | [] => (None, 1%nat)
        end
      else if byte_in 240 244 b then
        match r with
        | c :: r' =>
            if second4 b c then
              match r' with
              | d :: r'' =>
                  if is_cont d then
                    match r'' with
                    | e :: _ => if is_cont e then (Some [b; c; d; e], 4%nat) else (None, 3%nat)
                    | [] => (None, 3%nat)
                    end
                  else (None, 2%nat)
              | [] => (None, 2%nat)
              end
            else (None, 1%nat)
        | [] => (None, 1%nat)
        end
      else (None, 1%nat)
  end.

(** The characters of a byte string; [None] stands for an invalid sequence.
    Every step consumes a byte, so the length is enough fuel. *)
Fixpoint utf8_chars (fuel : nat) (s : bytes) : list (option bytes) :=
  match fuel, s with
  | O, _ | _, [] => []
  | S fuel', _ =>
      let '(c, n) := utf8_head s in c :: utf8_chars fuel' (drop n s)
  end.

(** [str::from_utf8]: the characters, when all are valid. *)
Definition from_utf8 (s : bytes) : option (list bytes) :=
  mapM id (utf8_chars (length s) s).

(** U+FFFD. *)
Definition replacement : bytes := [xef; xbf; xbd].

Definition lossy_chars (s : bytes) : list bytes := default replacement <$> utf8_chars (length s) s.

(** [String::from_utf8_lossy]. *)
Definition from_utf8_lossy (s : bytes) : bytes := concat (lossy_chars s).

(** [char::is_whitespace], the Unicode property White_Space. *)
Definition is_whitespace (c : bytes) : bool :=
  bool_decide (c ∈
    [[x09]; [x0a]; [x0b]; [x0c]; [x0d]; [x20]; [xc2; x85]; [xc2; xa0]; [xe1; x9a; x80];
     [xe2; x80; x80]; [xe2; x80; x81]; [xe2; x80; x82]; [xe2; x80; x83]; [xe2; x80; x84];
     [xe2; x80; x85]; [xe2; x80; x86]; [xe2; x80; x87]; [xe2; x80; x88]; [xe2; x80; x89];
     [xe2; x80; x8a]; [xe2; x80; xa8]; [xe2; x80; xa9]; [xe2; x80; xaf]; [xe2; x81; x9f];
     [xe3; x80; x80]]).

Fixpoint drop_while {A} (p : A -> bool) (l : list A) : list A :=
  match l with
  | [] => []
  | x :: l' => if p x then drop_while p l' else l
  end.

(** [str::trim]. *)
Definition trim (cs : list bytes) : list bytes :=
  reverse (drop_while is_whitespace (reverse (drop_while is_whitespace cs))).

(** [str::to_uppercase], as far as a comparison with an ASCII literal can see
    it: the ASCII letters and the characters whose upper case is ASCII (sharp
    s, dotless i, long s and the Latin ligatures). Every other character maps
    to a string with a non-ASCII character, here itself. *)
Definition char_upper (c : bytes) : bytes :=
  match c with
  | [b] => if byte_in 97 122 b then [zb (bz b - 32)] else [b]
  | [xc3; x9f] => str "SS"
  | [xc4; xb1] => str "I"
  | [xc5; xbf] => str "S"
  | [xef; xac; x80] => str "FF"
  | [xef; xac; x81] => str "FI"
  | [xef; xac; x82] => str "FL"
  | [xef; xac; x83] => str "FFI"
  | [xef; xac; x84] => str "FFL"
  | [xef; xac; x85] => str "ST"
  | [xef; xac; x86] => str "ST"
  | _ => c
  end.

Definition to_uppercase (cs : list bytes) : bytes := concat (char_upper <$> cs).

(** [eq_ignore_ascii_case]. *)
Definition ascii_upper (b : byte) : byte := if byte_in 97 122 b then zb (bz b - 32) else b.
Definition eq_ignore_ascii_case (a b : bytes) : bool :=
  bool_decide (ascii_upper <$> a = ascii_upper <$> b).

(** ** Decimal numbers *)

Definition is_digit (b : byte) : bool := byte_in 48 57 b.
Definition digit_val (b : byte) : Z := bz b - 48.

(** The value of a non-empty digit string. *)
Fixpoint digits_val (acc : Z) (s : bytes) : option Z :=
  match s with
  | [] => Some acc
  | b :: s' => if is_digit b then digits_val (10 * acc + digit_val b) s' else None
  end.

Definition parse_digits (s : bytes) : option Z :=
  match s with [] => None | _ => digits_val 0 s end.

(** [parse::<i64>], [parse::<u64>]: an optional sign, digits, and the value in
    range (the checked multiplications and additions of the standard library
    fail exactly when the value leaves the range). *)
Definition parse_i64_str (s : bytes) : option Z :=
  let v :=
    match s with
    | x2b :: s' => parse_digits s'
    | x2d :: s' => Z.opp <$> parse_digits s'
    | _ => parse_digits s
    end in
  let* z := v in
  if ((i64_min <=? z) && (z <=? i64_max))%bool then Some z else None.

Definition parse_u64_str (s : bytes) : option Z :=
  let v := match s with x2b :: s' => parse_digits s' | _ => parse_digits s end in
  let* z := v in
  if z <=? u64_max then Some z else None.

Definition parse_u8_str (s : bytes) : option Z :=
  let v := match s with x2b :: s' => parse_digits s' | _ => parse_digits s end in
  let* z := v in
  if z <=? 255 then Some z else None.

Definition parse_u16_str (s : bytes) : option Z :=
  let v := match s with x2b :: s' => parse_digits s' | _ => parse_digits s end in
  let* z := v in
  if z <? 2 ^ 16 then Some z else None.

(** [utils::parse_i64]: valid UTF-8, trimmed, an integer. *)
Definition parse_i64 (data : bytes) : option Z :=
  let* cs := from_utf8 data in
  parse_i64_str (concat (trim cs)).

(** [to_string] of an integer. The quotient shrinks by a factor of ten at each
    turn, so a turn per bit is enough. *)
Definition digit_byte (d : Z) : byte := zb (48 + d).

Fixpoint dec_loop (fuel : nat) (n : Z) (acc : bytes) : bytes :=
  match fuel with
  | O => acc
  | S fuel' =>
      let acc' := digit_byte (n mod 10) :: acc in
      if n <? 10 then acc' else dec_loop fuel' (n / 10) acc'
  end.

Definition nat_to_string (n : Z) : bytes := dec_loop (S (Z.to_nat (Z.log2 n))) n [].

Definition i64_to_string (z : Z) : bytes :=
  if z <? 0 then x2d :: nat_to_string (- z) else nat_to_string z.

(** ** Printing and parsing *)

Lemma digit_byte_digit d : 0 <= d < 10 -> is_digit (digit_byte d) = true /\ digit_val (digit_byte d) = d.
Proof.
  intros Hd. unfold is_digit, byte_in, digit_val, digit_byte. rewrite bz_zb, Z.mod_small by lia. lia.
Qed.

Lemma dec_loop_val fuel n acc : 0 <= n < 2 ^ Z.of_nat fuel ->
  digits_val 0 (dec_loop fuel n acc) = digits_val n acc.
Proof.
  revert n acc. induction fuel as [|fuel IH]; intros n acc Hn; cbn [dec_loop].
  { change (2 ^ Z.of_nat 0) with 1 in Hn. by replace n with 0 by lia. }
  pose proof (Z.mod_pos_bound n 10 ltac:(lia)) as Hm. destruct (digit_byte_digit _ Hm) as [Hd Hv].
  pose proof (Z.div_mod n 10 ltac:(lia)) as Hdm. rewrite Nat2Z.inj_succ, Z.pow_succ_r in Hn by lia.
  destruct (Z.ltb_spec n 10).
  - cbn [digits_val]. rewrite Hd, Hv. f_equal. rewrite Z.mod_small by lia. lia.
  - rewrite IH by (split; [apply Z.div_pos; lia|apply Z.div_lt_upper_bound; lia]).
    cbn [digits_val]. rewrite Hd, Hv. f_equal. lia.
Qed.

Lemma dec_loop_nonempty fuel n acc : exists b s, dec_loop (S fuel) n acc = b :: s.
Proof.
  revert n acc. induction fuel as [|fuel IH]; intros n acc; cbn [dec_loop].
  - destruct (n <? 10); eauto.
  - destruct (n <? 10); [eauto|]. apply IH.
Qed.

Lemma parse_nat_to_string n : 0 <= n -> parse_digits (nat_to_string n) = Some n.
Proof.
  intros Hn. unfold parse_digits, nat_to_string.
  destruct (dec_loop_nonempty (Z.to_nat (Z.log2 n)) n []) as (b & s & E).
  rewrite E, <- E. rewrite dec_loop_val; [done|]. split; [done|].
  rewrite Nat2Z.inj_succ, Z2Nat.id by apply Z.log2_nonneg.
  destruct (Z.eq_dec n 0) as [->|]; [done|]. apply Z.log2_spec. lia.
Qed.

Lemma dec_loop_digits fuel n acc : 0 <= n -> Forall (fun b => is_digit b = true) acc ->
  Forall (fun b => is_digit b = true) (dec_loop fuel n acc).
Proof.
  revert n acc. induction fuel as [|fuel IH]; intros n acc Hn Hacc; cbn [dec_loop]; [done|].
  pose proof (Z.mod_pos_bound n 10 ltac:(lia)) as Hm. destruct (digit_byte_digit _ Hm) as [Hd _].
  destruct (n <? 10); [by constructor|]. apply IH; [apply Z.div_pos; lia|by constructor].
Qed.

Lemma nat_to_string_digits n : 0 <= n -> Forall (fun b => is_digit b = true) (nat_to_string n).
Proof. intros Hn. by apply dec_loop_digits. Qed.

(** A digit is an ASCII character and neither a sign nor white space. *)
Lemma digit_ascii b : is_digit b = true -> (bz b <? 128) = true /\ b <> x2b /\ b <> x2d.
Proof.
  unfold is_digit, byte_in. intros H.
  split_and!; [zbool; lia|intros ->; vm_compute in H; discriminate|intros ->; vm_compute in H; discriminate].
Qed.

Lemma parse_i64_str_to_string z : is_i64 z -> parse_i64_str (i64_to_string z) = Some z.
Proof.
  intros Hz. unfold parse_i64_str, i64_to_string. unfold is_i64 in Hz.
  assert (Hrange : ((i64_min <=? z) && (z <=? i64_max))%bool = true) by lia.
  destruct (Z.ltb_spec z 0).
  - rewrite parse_nat_to_string by lia. simpl. rewrite Z.opp_involutive, Hrange. done.
  - pose proof (nat_to_string_digits z ltac:(lia)) as Hd.
    pose proof (parse_nat_to_string z ltac:(lia)) as Hp.
    destruct (nat_to_string z) as [|b s] eqn:E; [done|]. apply Forall_cons in Hd as [Hb _].
    destruct (digit_ascii b Hb) as (_ & H1 & H2).
    destruct b; try (rewrite Hp; by rewrite Hrange); done.
Qed.

(** ** ASCII strings *)

Definition is_ascii (s : bytes) : Prop := Forall (fun b => (bz b <? 128) = true) s.

(** A character is the front of the string, and every step consumes a byte. *)
Lemma utf8_head_front b r : (1 <= (utf8_head (b :: r)).2 <= length (b :: r))%nat /\
  forall c, (utf8_head (b :: r)).1 = Some c -> c = take (utf8_head (b :: r)).2 (b :: r).
Proof. unfold utf8_head. repeat case_match; subst; cbn [fst snd length take]; (split; [lia|]); intros ? [=]; by subst. Qed.

(** So the length is enough fuel: a valid string is the sequence of its characters. *)
Lemma from_utf8_concat s cs : from_utf8 s = Some cs -> concat cs = s.
Proof.
  unfold from_utf8. assert (forall fuel s cs, (length s <= fuel)%nat -> mapM id (utf8_chars fuel s) = Some cs -> concat cs = s) as H; [|by apply H].
  clear. induction fuel as [|fuel IH]; intros [|b r] cs Hf Hm; [by injection Hm as <-|cbn in Hf; lia|by injection Hm as <-|].
  cbn [utf8_chars] in Hm. destruct (utf8_head_front b r) as [Hn Hc]. destruct (utf8_head (b :: r)) as [c n]. cbn [fst snd] in *.
  cbn in Hm. destruct c as [c|]; [|done]. cbn in Hm. destruct (mapM id (utf8_chars fuel _)) as [cs'|] eqn:E; [|done]. injection Hm as <-.
  cbn [concat]. rewrite (IH (drop n (b :: r)) cs'); [rewrite (Hc c eq_refl); apply take_drop| |done]. rewrite length_drop. cbn in *. lia.
Qed.

Lemma utf8_chars_ascii s fuel : is_ascii s -> (length s <= fuel)%nat ->
  utf8_chars fuel s = (fun b => Some [b]) <$> s.
Proof.
  intros Hs. revert fuel. induction Hs as [|b s Hb Hs IH]; intros [|fuel] Hf; cbn in *; [done|done|lia|].
  rewrite Hb. cbn. f_equal. rewrite drop_0. apply IH. lia.
Qed.

Lemma from_utf8_ascii s : is_ascii s -> from_utf8 s = Some ((fun b => [b]) <$> s).
Proof.
  intros Hs. unfold from_utf8. rewrite utf8_chars_ascii by done. clear Hs.
  induction s as [|b s IH]; [done|]. cbn. unfold id in *. by rewrite IH.
Qed.

Lemma concat_singletons (s : bytes) : concat ((fun b => [b]) <$> s) = s.
Proof. induction s as [|b s IH]; [done|]. cbn. by rewrite IH. Qed.

Lemma drop_while_none {A} (p : A -> bool) l : Forall (fun x => p x = false) l -> drop_while p l = l.
Proof. destruct 1 as [|x l Hx]; simpl; [done|]. by rewrite Hx. Qed.

Lemma trim_none cs : Forall (fun c => is_whitespace c = false) cs -> trim cs = cs.
Proof.
  intros H. unfold trim. rewrite (drop_while_none _ cs H), drop_while_none, reverse_involutive; [done|].
  by apply Forall_reverse.
Qed.

(** The bytes a decimal number is printed with. *)
Definition is_num_byte (b : byte) : bool := (is_digit b || bool_decide (b = x2d))%bool.

Lemma num_byte_props b : is_num_byte b = true -> (bz b <? 128) = true /\ is_whitespace [b] = false.
Proof. destruct b; vm_compute; try discriminate; auto. Qed.

Lemma i64_to_string_num z : Forall (fun b => is_num_byte b = true) (i64_to_string z).
Proof.
  assert (Hd : forall n, 0 <= n -> Forall (fun b => is_num_byte b = true) (nat_to_string n)).
  { intros n Hn. eapply Forall_impl; [by apply nat_to_string_digits|]. simpl. intros b Hb.
    unfold is_num_byte. by rewrite Hb. }
  unfold i64_to_string. destruct (Z.ltb_spec z 0).
  - constructor; [done|]. apply Hd. lia.
  - apply Hd. lia.
Qed.

Lemma parse_i64_to_string z : is_i64 z -> parse_i64 (i64_to_string z) = Some z.
Proof.
  intros Hz. pose proof (i64_to_string_num z) as Hnum. unfold parse_i64.
  rewrite from_utf8_ascii.
  - rewrite trim_none, concat_singletons; [by apply parse_i64_str_to_string|].
    apply Forall_fmap. eapply Forall_impl; [exact Hnum|]. intros b Hb. by apply num_byte_props.
  - eapply Forall_impl; [exact Hnum|]. intros b Hb. by apply num_byte_props.
Qed.

Lemma digits_val_nonneg s : forall acc z, 0 <= acc -> digits_val acc s = Some z -> 0 <= z.
Proof.
  induction s as [|b s IH]; intros acc z Hacc; simpl; [by intros [= <-]|].
  destruct (is_digit b) eqn:Hb; [|done]. apply IH. unfold is_digit, byte_in in Hb. zbool.
  unfold digit_val. lia.
Qed.

Lemma parse_i64_str_range s z : parse_i64_str s = Some z -> is_i64 z.
Proof.
  unfold parse_i64_str, is_i64. case_match; [|done].
  destruct (Z.leb_spec i64_min z0), (Z.leb_spec z0 i64_max); cbn; try done. intros [= <-]. lia.
Qed.

(** What [parse_i64] accepts fits an [i64]. *)
Lemma parse_i64_range data z : parse_i64 data = Some z -> is_i64 z.
Proof. unfold parse_i64. destruct (from_utf8 data); [|done]. apply parse_i64_str_range. Qed.

(** ** Decimal strings are canonical *)

Lemma dec_loop_fuel f1 : forall f2 n acc, 0 <= n < 2 ^ Z.of_nat f1 -> n < 2 ^ Z.of_nat f2 ->
  (1 <= f1)%nat -> (1 <= f2)%nat -> dec_loop f1 n acc = dec_loop f2 n acc.
Proof.
  induction f1 as [|f1 IH]; intros [|f2] n acc H1 H2 Hf1 Hf2; try lia. cbn [dec_loop].
  destruct (Z.ltb_spec n 10); [done|]. rewrite !Nat2Z.inj_succ, !Z.pow_succ_r in * by lia.
  assert (Hq : 1 <= n / 10) by (apply Z.div_le_lower_bound; lia).
  assert (Hb : forall f, n < 2 * 2 ^ Z.of_nat f -> n / 10 < 2 ^ Z.of_nat f).
  { intros f Hf. apply Z.div_lt_upper_bound; lia. }
  assert (Hp : forall f, n / 10 < 2 ^ Z.of_nat f -> (1 <= f)%nat) by (intros [|f] Hf; cbn in Hf; lia).
  apply IH; [split; [lia|apply Hb; lia]|apply Hb; lia|apply Hp, Hb; lia|apply Hp, Hb; lia].
Qed.

Lemma dec_loop_app f : forall n acc, dec_loop f n acc = dec_loop f n [] ++ acc.
Proof.
  induction f as [|f IH]; intros n acc; [done|]. cbn [dec_loop]. destruct (n <? 10); [done|].
  rewrite IH, (IH _ [_]), <- (assoc_L (++)). done.
Qed.

Lemma log2_fuel n : 0 < n -> n < 2 ^ Z.of_nat (S (Z.to_nat (Z.log2 n))).
Proof. intros Hn. rewrite Nat2Z.inj_succ, Z2Nat.id by apply Z.log2_nonneg. by apply Z.log2_spec. Qed.

Lemma dec_loop_S f n acc :
  dec_loop (S f) n acc =
    let acc' := digit_byte (n mod 10) :: acc in if n <? 10 then acc' else dec_loop f (n / 10) acc'.
Proof. done. Qed.

Lemma nat_to_string_snoc n d : 0 < n -> 0 <= d < 10 ->
  nat_to_string (10 * n + d) = nat_to_string n ++ [digit_byte d].
Proof.
  intros Hn Hd. unfold nat_to_string.
  rewrite (dec_loop_S _ (10 * n + d)). cbv zeta. destruct (Z.ltb_spec (10 * n + d) 10); [lia|].
  replace ((10 * n + d) mod 10) with d by (apply Z.mod_unique with n; lia).
  replace ((10 * n + d) / 10) with n by (apply Z.div_unique with d; lia).
  rewrite dec_loop_app. f_equal. assert (Hl : Z.log2 n < Z.log2 (10 * n + d)).
  { apply Z.lt_le_trans with (Z.log2 (2 * n)); [rewrite Z.log2_double by lia; lia|apply Z.log2_le_mono; lia]. }
  apply dec_loop_fuel; [|by apply log2_fuel|pose proof (Z.log2_nonneg n); lia|lia]. split; [lia|].
  eapply Z.lt_le_trans; [by apply log2_fuel|]. apply Z.pow_le_mono_r; [lia|]. pose proof (Z.log2_nonneg n). lia.
Qed.

Lemma digits_val_snoc s b : forall acc,
  digits_val acc (s ++ [b]) =
    (let* v := digits_val acc s in if is_digit b then Some (10 * v + digit_val b) else None).
Proof.
  induction s as [|c s IH]; intros acc; cbn; [done|]. destruct (is_digit c); [apply IH|done].
Qed.

Lemma digits_val_ge s : forall acc z, 0 <= acc -> digits_val acc s = Some z -> acc <= z.
Proof.
  induction s as [|b s IH]; intros acc z Hacc; cbn; [intros [= <-]; lia|].
  destruct (is_digit b) eqn:Hb; [|done]. intros Hz. unfold is_digit, byte_in in Hb. unfold digit_val in Hz. zbool.
  apply IH in Hz; lia.
Qed.

Definition is_nonzero_digit (b : byte) : bool := byte_in 49 57 b.

Lemma digit_byte_val b : is_digit b = true -> digit_byte (digit_val b) = b.
Proof.
  intros Hb. unfold digit_byte, digit_val. replace (48 + (bz b - 48)) with (bz b) by lia. apply zb_bz.
Qed.

(** A digit string without a leading zero is the decimal of its value. *)
Lemma digits_canonical b s z : is_nonzero_digit b = true -> digits_val 0 (b :: s) = Some z ->
  0 < z /\ nat_to_string z = b :: s.
Proof.
  intros Hb. assert (Hd : is_digit b = true /\ 1 <= digit_val b < 10).
  { unfold is_nonzero_digit, is_digit, byte_in, digit_val in *. zbool. lia. }
  destruct Hd as [Hd Hv]. revert z. induction s as [|c s IH] using rev_ind; intros z.
  - cbn [digits_val]. rewrite Hd. intros [= <-]. split; [lia|]. rewrite Z.add_0_l.
    unfold nat_to_string. cbn [dec_loop]. destruct (Z.ltb_spec (digit_val b) 10); [|lia].
    rewrite Z.mod_small by lia. by rewrite digit_byte_val.
  - rewrite app_comm_cons, digits_val_snoc. destruct (digits_val 0 (b :: s)) as [v|]; [|done].
    destruct (IH v eq_refl) as [Hpos E]. destruct (is_digit c) eqn:Hc; [|done]. intros [= <-].
    assert (0 <= digit_val c < 10) by (unfold is_digit, byte_in, digit_val in *; zbool; lia).
    split; [lia|]. rewrite nat_to_string_snoc, E, digit_byte_val by done. done.
Qed.

Lemma dec_loop_head f : forall n acc, 0 < n < 2 ^ Z.of_nat f ->
  exists b s, dec_loop f n acc = b :: s /\ is_nonzero_digit b = true.
Proof.
  induction f as [|f IH]; intros n acc Hn; [cbn in Hn; lia|]. cbn [dec_loop].
  destruct (Z.ltb_spec n 10).
  - eexists _, _. split; [done|]. unfold is_nonzero_digit, byte_in, digit_byte.
    rewrite bz_zb, (Z.mod_small n), Z.mod_small by lia. apply andb_true_intro. split; apply Z.leb_le; lia.
  - apply IH. rewrite Nat2Z.inj_succ, Z.pow_succ_r in Hn by lia.
    split; [assert (1 <= n / 10) by (apply Z.div_le_lower_bound; lia); lia|apply Z.div_lt_upper_bound; lia].
Qed.

Lemma nat_to_string_head n : 0 < n -> exists b s, nat_to_string n = b :: s /\ is_nonzero_digit b = true.
Proof. intros Hn. apply dec_loop_head. split; [done|by apply log2_fuel]. Qed.
