(* ===== verification/F64.v ===== *)
(** * F64: IEEE double precision numbers and their orders.

    [f64] is the Standard Library's executable specification of binary64
    ([spec_float], precision 53, exponent bound 1024). [partial_cmp] is
    [SFcompare]. The total order of the [ordered-float] crate is an interface:
    a class whose laws are that crate's documented ordering. *)

From S2P Require Import Prelude.
From Stdlib Require Import SpecFloat.

Abbreviation f64 := spec_float.

Definition f64_add (a b : f64) : f64 := SFadd 53 1024 a b.
Definition f64_lt (a b : f64) : bool := SFltb a b.
Definition f64_le (a b : f64) : bool := SFleb a b.
Definition f64_eq (a b : f64) : bool := SFeqb a b.
Definition is_nan (a : f64) : bool := match a with S754_nan => true | _ => false end.
Definition f64_zero : f64 := S754_zero false.

(** A double from an integer, rounded to nearest even. *)
Definition f64_of_Z (z : Z) : f64 := binary_normalize 53 1024 z 0 false.

#[global] Instance f64_eq_dec : EqDecision f64.
Proof. solve_decision. Defined.

(** ** Comparison functions *)

(** The laws of [Ord::cmp]: a total preorder. [Eq] need not be equality. *)
Class TotalCmp {A} (cmp : A -> A -> comparison) : Prop := {
  cmp_refl : forall a, cmp a a = Eq;
  cmp_antisym : forall a b, cmp b a = CompOpp (cmp a b);
  cmp_lt_trans : forall a b c, cmp a b = Lt -> cmp b c = Lt -> cmp a c = Lt;
  cmp_eq_l : forall a b c, cmp a b = Eq -> cmp a c = cmp b c
}.

Arguments cmp_refl {A} cmp {_} a.
Arguments cmp_antisym {A} cmp {_} a b.
Arguments cmp_lt_trans {A} cmp {_} a b c.
Arguments cmp_eq_l {A} cmp {_} a b c.

Section TotalCmpFacts.
Context {A} (cmp : A -> A -> comparison) `{!TotalCmp cmp}.

Lemma cmp_sym_eq a b : cmp a b = Eq -> cmp b a = Eq.
Proof using Type*. intros E. by rewrite (cmp_antisym cmp a b), E. Qed.

Lemma cmp_eq_r a b c : cmp a b = Eq -> cmp c a = cmp c b.
Proof using Type*. intros E. rewrite (cmp_antisym cmp a c), (cmp_antisym cmp b c). f_equal. by apply (cmp_eq_l cmp). Qed.

Lemma cmp_gt_lt a b : cmp a b = Gt <-> cmp b a = Lt.
Proof using Type*. rewrite (cmp_antisym cmp a b). destruct (cmp a b); done. Qed.

Lemma cmp_le_trans a b c : cmp a b <> Gt -> cmp b c <> Gt -> cmp a c <> Gt.
Proof using Type*.
  intros H1 H2. destruct (cmp a b) eqn:E; [by rewrite (cmp_eq_l cmp _ _ c E)| |done].
  destruct (cmp b c) eqn:E'; [by rewrite <- (cmp_eq_r _ _ a E'), E| |done].
  by rewrite (cmp_lt_trans cmp _ _ _ E E').
Qed.

Lemma cmp_lt_irrefl a : cmp a a <> Lt.
Proof using Type*. by rewrite cmp_refl. Qed.
End TotalCmpFacts.

#[export] Instance bytes_cmp_total : TotalCmp bytes_cmp.
Proof.
  split; [apply bytes_cmp_refl|apply bytes_cmp_antisym|apply bytes_cmp_lt_trans|].
  intros a b c ->%bytes_cmp_eq. done.
Qed.

Definition pair_cmp {A B} (c1 : A -> A -> comparison) (c2 : B -> B -> comparison)
    (x y : A * B) : comparison :=
  match c1 x.1 y.1 with Eq => c2 x.2 y.2 | c => c end.

#[export] Instance pair_cmp_total {A B} (c1 : A -> A -> comparison) (c2 : B -> B -> comparison) :
  TotalCmp c1 -> TotalCmp c2 -> TotalCmp (pair_cmp c1 c2).
Proof.
  intros H1 H2. unfold pair_cmp. split.
  - intros [a b]. simpl. by rewrite !cmp_refl.
  - intros [a b] [a' b']. simpl. rewrite (cmp_antisym c1 a a'), (cmp_antisym c2 b b').
    destruct (c1 a a'); done.
  - intros [a b] [a' b'] [a'' b'']. simpl.
    destruct (c1 a a') eqn:E; intros Hab; try done.
    + rewrite (cmp_eq_l c1 _ _ a'' E). destruct (c1 a' a''); try done. by apply (cmp_lt_trans c2).
    + destruct (c1 a' a'') eqn:E'; intros Hbc; try done.
      * rewrite <- (cmp_eq_r c1 _ _ a E'), E. done.
      * by rewrite (cmp_lt_trans c1 _ _ _ E E').
  - intros [a b] [a' b'] [a'' b'']. simpl. destruct (c1 a a') eqn:E; try done. intros E'.
    rewrite (cmp_eq_l c1 _ _ a'' E). destruct (c1 a' a''); try done. by apply (cmp_eq_l c2).
Qed.

Lemma cmp_total_proj {A B} (f : A -> B) (c : B -> B -> comparison) :
  TotalCmp c -> TotalCmp (fun x y => c (f x) (f y)).
Proof.
  intros H. split; intros.
  - apply (cmp_refl c).
  - apply (cmp_antisym c).
  - by eapply (cmp_lt_trans c).
  - by apply (cmp_eq_l c).
Qed.

#[export] Instance Z_cmp_total : TotalCmp Z.compare.
Proof.
  split; [apply Z.compare_refl|apply Z.compare_antisym|apply Z.lt_trans|].
  intros a b c ->%Z.compare_eq. done.
Qed.

(** ** The total order on doubles *)

(** IEEE comparison extended with NaN equal to itself and above the rest. *)
Definition nan_last_cmp (a b : f64) : comparison :=
  match a, b with
  | S754_nan, S754_nan => Eq
  | S754_nan, _ => Gt
  | _, S754_nan => Lt
  | _, _ => match SFcompare a b with Some c => c | None => Eq end
  end.

(** [OrderedFloat<f64>::cmp]: "NaN is sorted as greater than all other values
    and equal to itself", and the IEEE order otherwise. *)
Class OrderedFloat := {
  of_cmp : f64 -> f64 -> comparison;
  of_cmp_ieee : forall a b c, SFcompare a b = Some c -> of_cmp a b = c;
  of_cmp_nan_nan : of_cmp S754_nan S754_nan = Eq;
  of_cmp_nan_l : forall a, is_nan a = false -> of_cmp S754_nan a = Gt;
  of_cmp_nan_r : forall a, is_nan a = false -> of_cmp a S754_nan = Lt
}.

(** The documented ordering has a model. *)
#[export] Program Instance ordered_float : OrderedFloat := {| of_cmp := nan_last_cmp |}.
Next Obligation. intros a b c. unfold nan_last_cmp. destruct a, b; intros H; try done; by rewrite H. Qed.
Next Obligation. done. Qed.
Next Obligation. by intros []. Qed.
Next Obligation. by intros []. Qed.

Lemma of_cmp_nan_last `{OrderedFloat} a b : of_cmp a b = nan_last_cmp a b.
Proof.
  destruct (is_nan a) eqn:Ha, (is_nan b) eqn:Hb.
  - destruct a, b; try done. apply of_cmp_nan_nan.
  - destruct a; try done. rewrite of_cmp_nan_l by done. by destruct b.
  - destruct b; try done. rewrite of_cmp_nan_r by done. by destruct a.
  - destruct (SFcompare a b) as [c|] eqn:E.
    + rewrite (of_cmp_ieee _ _ _ E). destruct a, b; try done; unfold nan_last_cmp; by rewrite E.
    + by destruct a, b.
Qed.

(** A linear key for the order: class, then exponent, then mantissa. *)
Definition f64_key (a : f64) : Z * (Z * Z) :=
  match a with
  | S754_infinity true => (0, (0, 0))
  | S754_finite true m e => (1, (- e, Z.neg m))
  | S754_zero _ => (2, (0, 0))
  | S754_finite false m e => (3, (e, Z.pos m))
  | S754_infinity false => (4, (0, 0))
  | S754_nan => (5, (0, 0))
  end.

Lemma nan_last_cmp_key a b :
  nan_last_cmp a b =
    pair_cmp Z.compare (pair_cmp Z.compare Z.compare) (f64_key a) (f64_key b).
Proof.
  unfold nan_last_cmp, pair_cmp.
  destruct a as [[]|[]| |[] m e], b as [[]|[]| |[] m' e']; try reflexivity; cbn -[Z.compare].
  change (Z.compare 1 1) with Eq. cbn -[Z.compare]. rewrite Z.compare_opp.
  rewrite (Z.compare_antisym e e'). by destruct (Z.compare e e').
Qed.

#[export] Instance nan_last_total : TotalCmp nan_last_cmp.
Proof.
  pose proof (cmp_total_proj f64_key (pair_cmp Z.compare (pair_cmp Z.compare Z.compare)) _) as [H1 H2 H3 H4].
  split; intros *; rewrite !nan_last_cmp_key; [apply H1|apply H2|apply H3|apply H4].
Qed.

#[export] Instance of_cmp_total `{OrderedFloat} : TotalCmp of_cmp.
Proof.
  pose proof nan_last_total as [H1 H2 H3 H4].
  split; intros *; rewrite !of_cmp_nan_last; [apply H1|apply H2|apply H3|apply H4].
Qed.

(** ** IEEE tests in terms of the total order *)

Lemma SFcompare_cmp `{OrderedFloat} a b :
  SFcompare a b = if (is_nan a || is_nan b)%bool then None else Some (of_cmp a b).
Proof.
  rewrite of_cmp_nan_last. unfold nan_last_cmp.
  destruct (SFcompare a b) as [c|] eqn:E; destruct a, b; simpl; done || by rewrite E.
Qed.

Lemma f64_le_cmp `{OrderedFloat} a b :
  f64_le a b = true <-> is_nan a = false /\ is_nan b = false /\ of_cmp a b <> Gt.
Proof.
  unfold f64_le, SFleb. rewrite SFcompare_cmp.
  destruct (is_nan a), (is_nan b), (of_cmp a b); simpl; intuition congruence.
Qed.

Lemma f64_lt_cmp `{OrderedFloat} a b :
  f64_lt a b = true <-> is_nan a = false /\ is_nan b = false /\ of_cmp a b = Lt.
Proof.
  unfold f64_lt, SFltb. rewrite SFcompare_cmp.
  destruct (is_nan a), (is_nan b), (of_cmp a b); simpl; intuition congruence.
Qed.

Lemma f64_eq_cmp `{OrderedFloat} a b :
  f64_eq a b = true <-> is_nan a = false /\ is_nan b = false /\ of_cmp a b = Eq.
Proof.
  unfold f64_eq, SFeqb. rewrite SFcompare_cmp.
  destruct (is_nan a), (is_nan b), (of_cmp a b); simpl; intuition congruence.
Qed.

(** ** Digits and shifts of mantissas *)

Lemma digits2_log2 p : Z.pos (digits2_pos p) = Z.log2 (Z.pos p) + 1.
Proof.
  induction p as [p IH|p IH|]; [| |done]; cbn [digits2_pos]; rewrite Pos2Z.inj_succ, IH;
    (rewrite (Pos2Z.inj_xI p), Z.log2_succ_double || rewrite (Pos2Z.inj_xO p), Z.log2_double); lia.
Qed.

Lemma iter_xO p d : Z.pos (Pos.iter xO p d) = Z.pos p * 2 ^ Z.pos d.
Proof.
  induction d as [|d IH] using Pos.peano_ind; [cbn; lia|]. rewrite Pos.iter_succ, Pos2Z.inj_xO, IH, Pos2Z.inj_succ, Z.pow_succ_r by lia. lia.
Qed.

Lemma shr_1_ind (P : Z -> shr_record -> Prop) : (forall k x, 0 <= k -> P k x -> P (k + 1) (shr_1 x)) ->
  forall p k x, 0 <= k -> P k x -> P (k + Z.pos p) (iter_pos shr_1 p x).
Proof.
  intros Hs. induction p as [p IH|p IH|]; intros k x Hk Hx; cbn [iter_pos].
  - replace (k + Z.pos p~1) with (k + 1 + Z.pos p + Z.pos p) by lia. apply IH; [lia|]. apply IH; [lia|]. by apply Hs.
  - replace (k + Z.pos p~0) with (k + Z.pos p + Z.pos p) by lia. apply IH; [lia|]. by apply IH.
  - by apply Hs.
Qed.
