(* ===== verification/FloatText.v ===== *)
(** * FloatText: reading and printing doubles.

    [parse::<f64>] of the standard library (correctly rounded), its [Display]
    (the shortest decimal that reads back as the same double, in positional
    notation) and [format_double] of
    src/cache_cat/src/raft/types/core/response_value.rs. *)

From S2P Require Import Prelude Text F64.
From Stdlib Require Import SpecFloat Strings.Byte.

(** ** Parsing *)

(** The number of decimal digits of a positive number. *)
Definition dec_len (n : Z) : Z := Z.of_nat (length (nat_to_string n)).

(** [(-1)^neg * n * 10^e10] rounded to nearest even. Magnitudes beyond the range
    of doubles are cut off before the power is computed. *)
Definition dec_to_f64 (neg : bool) (n e10 : Z) : f64 :=
  match n with
  | Zpos p =>
      if 310 <? dec_len n + e10 then S754_infinity neg
      else if dec_len n + e10 <? -330 then S754_zero neg
      else if 0 <=? e10 then
        let v := n * 10 ^ e10 in
        binary_normalize 53 1024 (if neg then - v else v) 0 neg
      else
        match 10 ^ (- e10) with
        | Zpos q => SFdiv 53 1024 (S754_finite neg p 0) (S754_finite false q 0)
        | _ => S754_zero neg
        end
  | _ => S754_zero neg
  end.

(** The longest prefix of digits and the rest. *)
Fixpoint span_digits (s : bytes) : bytes * bytes :=
  match s with
  | b :: s' =>
      if is_digit b then let '(d, r) := span_digits s' in (b :: d, r) else ([], s)
  | [] => ([], [])
  end.

(** The exponent's digits; the accumulator stops growing past 2^16. *)
Fixpoint exp_val (acc : Z) (s : bytes) : Z :=
  match s with
  | [] => acc
  | b :: s' => exp_val (if acc <? 65536 then 10 * acc + digit_val b else acc) s'
  end.

(** The optional exponent, which must end the string. *)
Definition parse_exponent (s : bytes) : option Z :=
  match s with
  | [] => Some 0
  | c :: r =>
      if (bool_decide (c = x65) || bool_decide (c = x45))%bool then
        let '(neg, r) :=
          match r with
          | x2d :: r' => (true, r')
          | x2b :: r' => (false, r')
          | _ => (false, r)
          end in
        match span_digits r with
        | ([], _) => None
        | (d, []) => Some (if neg then - exp_val 0 d else exp_val 0 d)
        | _ => None
        end
      else None
  end.

Definition parse_number (neg : bool) (s : bytes) : option f64 :=
  let '(int_digits, r) := span_digits s in
  let '(frac_digits, r) :=
    match r with x2e :: r' => span_digits r' | _ => ([], r) end in
  match int_digits ++ frac_digits with
  | [] => None
  | ds =>
      let* e := parse_exponent r in
      let* n := digits_val 0 ds in
      Some (dec_to_f64 neg n (e - Z.of_nat (length frac_digits)))
  end.

Definition parse_inf_nan (neg : bool) (s : bytes) : option f64 :=
  if (eq_ignore_ascii_case s (str "inf") || eq_ignore_ascii_case s (str "infinity"))%bool
  then Some (S754_infinity neg)
  else if eq_ignore_ascii_case s (str "nan") then Some S754_nan
  else None.

Definition parse_f64_str (s : bytes) : option f64 :=
  let '(neg, r) :=
    match s with
    | x2d :: r => (true, r)
    | x2b :: r => (false, r)
    | _ => (false, s)
    end in
  match r with
  | [] => None
  | _ =>
      match parse_number neg r with
      | Some v => Some v
      | None => parse_inf_nan neg r
      end
  end.

(** ** Printing *)

(** [floor(num * 10^s / den)] rounded half up, for positive arguments. *)
Definition scaled_round (num den s : Z) : Z :=
  let '(a, b) := if 0 <=? s then (num * 10 ^ s, den) else (num, den * 10 ^ (- s)) in
  (2 * a + b) / (2 * b).

(** The absolute value as a fraction. *)
Definition f64_frac (m : positive) (e : Z) : Z * Z :=
  if 0 <=? e then (Zpos m * 2 ^ e, 1) else (Zpos m, 2 ^ (- e)).

(** The decimal exponent [p] with [10^(p-1) <= num/den < 10^p]. *)
Definition dec_exp (num den : Z) : Z :=
  if den <=? num then dec_len (num / den)
  else
    let k := dec_len (den / num) in
    if num * 10 ^ k <? den then - k
    else if num * 10 ^ (k - 1) <? den then - (k - 1) else - (k - 2).

(** The first number of digits, up to 17, at which a decimal reads back as the
    double: digits and exponent. The nearest decimal is tried first; above a
    power of two the doubles lie further apart than below it, so the next
    decimal above may read back when the nearest one, below, does not.
    Seventeen digits always do. *)
Fixpoint shortest_loop (fuel : nat) (d : f64) (num den p k : Z) : Z * Z :=
  match fuel with
  | O => (scaled_round num den (17 - p), p - 17)
  | S fuel' =>
      let n := scaled_round num den (k - p) in
      if bool_decide (dec_to_f64 false n (p - k) = d) then (n, p - k)
      else if bool_decide (dec_to_f64 false (n + 1) (p - k) = d) then (n + 1, p - k)
      else shortest_loop fuel' d num den p (k + 1)
  end.

(** Positional notation of [n * 10^e]. *)
Definition positional (n e : Z) : bytes :=
  let ds := nat_to_string n in
  if 0 <=? e then ds ++ replicate (Z.to_nat e) x30
  else
    let k := Z.to_nat (- e) in
    if (length ds <=? k)%nat
    then str "0." ++ replicate (k - length ds) x30 ++ ds
    else take (length ds - k) ds ++ [x2e] ++ drop (length ds - k) ds.

(** [Display for f64] on a finite non-zero value. *)
Definition f64_display (neg : bool) (m : positive) (e : Z) : bytes :=
  let '(num, den) := f64_frac m e in
  let '(n, e10) := shortest_loop 16 (S754_finite false m e) num den (dec_exp num den) 1 in
  (if neg then [x2d] else []) ++ positional n e10.

(** The integer value of a double that has one. *)
Definition f64_integral (neg : bool) (m : positive) (e : Z) : option Z :=
  let '(num, den) := f64_frac m e in
  if num mod den =? 0 then Some (if neg then - (num / den) else num / den) else None.

Definition format_double (d : f64) : bytes :=
  match d with
  | S754_nan => str "nan"
  | S754_infinity neg => if neg then str "-inf" else str "inf"
  | S754_zero neg => if neg then str "-0" else str "0"
  | S754_finite neg m e =>
      match f64_integral neg m e with
      | Some z => if ((i64_min <=? z) && (z <? 2 ^ 63))%bool then i64_to_string z else f64_display neg m e
      | None => f64_display neg m e
      end
  end.

(** ** Checks against known renderings *)

Definition f64_reads (s : String.string) : option f64 := parse_f64_str (str s).
Arguments f64_reads s%_string.

Example format_double_examples :
  (format_double <$> f64_reads "1.5") = Some (str "1.5") /\
  (format_double <$> f64_reads "0.1") = Some (str "0.1") /\
  (format_double <$> f64_reads "-3e3") = Some (str "-3000") /\
  (format_double <$> f64_reads "1e21") = Some (str "1000000000000000000000") /\
  (format_double <$> f64_reads "0.30000000000000004") = Some (str "0.30000000000000004") /\
  (format_double <$> f64_reads "123456789.125") = Some (str "123456789.125") /\
  (format_double <$> f64_reads "0.00012") = Some (str "0.00012") /\
  (format_double <$> f64_reads "1e999") = Some (str "inf") /\
  (format_double <$> f64_reads "1e23") = Some (str "100000000000000000000000") /\
  (format_double <$> f64_reads "5.6843418860808015e-14") = Some (str "0.00000000000005684341886080802") /\
  (format_double <$> f64_reads "-Infinity") = Some (str "-inf") /\
  f64_reads "." = None /\ f64_reads "1e" = None /\ f64_reads "" = None.
Proof. vm_compute. repeat split. Qed.
