(* ===== verification/FloatRound.v ===== *)
(** * FloatRound: what is printed of a double reads back as that double.

    A number within half the distance to its neighbours rounds to the double,
    through the executable rounding of the Standard Library's binary64. A
    double printed to 17 digits is that close, so the search for the shortest
    decimal ends with one that reads back, and [parse::<f64>] inverts
    [format_double] on every double. *)

From S2P Require Import Prelude Text F64 FloatText.
From Stdlib Require Import SpecFloat Strings.Byte.

(** ** Rounding to nearest *)

(** The record holds the number [X] in units of [u]: the integer part, the
    first bit after it, and whether anything is left. *)
Definition located (X u : Z) (x : shr_record) : Prop :=
  0 <= shr_m x /\ exists R, 2 * X = (2 * shr_m x + Z.b2z (shr_r x)) * u + R /\ 0 <= R < u /\ shr_s x = negb (R =? 0).

Lemma located_step X Y k x : 0 < Y -> 0 <= k -> located X (Y * 2 ^ k) x -> located X (Y * 2 ^ (k + 1)) (shr_1 x).
Proof.
  intros HY Hk (H0 & R & HX & HR & Hs). rewrite Z.add_1_r, Z.pow_succ_r by done. destruct x as [m r s]. cbn [shr_m shr_r shr_s] in *.
  pose proof (Z.pow_pos_nonneg 2 k ltac:(lia) Hk) as Hp. set (u := Y * 2 ^ k) in *. replace (Y * (2 * 2 ^ k)) with (2 * u) by (unfold u; ring).
  assert (shr_1 {| shr_m := m; shr_r := r; shr_s := s |} = {| shr_m := m / 2; shr_r := Z.odd m; shr_s := (r || s)%bool |}) as ->.
  { destruct m as [|[p|p|]|p]; cbn [shr_1 Z.odd]; [done|..|lia]; f_equal; first [by rewrite Pos2Z.inj_xI, Z.add_comm, Z.mul_comm, Z.div_add by done|by rewrite Pos2Z.inj_xO, Z.mul_comm, Z.div_mul by done|done]. }
  pose proof (Z.div_mod m 2 ltac:(lia)) as Hm. rewrite Zmod_odd in Hm. unfold located. cbn [shr_m shr_r shr_s]. split; [apply Z.div_pos; lia|].
  exists (Z.b2z r * u + R). destruct r, (Z.odd m), (Z.eqb_spec R 0); cbn [Z.b2z orb negb] in *; (split_and!; [nia..|]); rewrite ?Hs; symmetry; lia.
Qed.

(** The only integer within half a unit is the one rounded to. *)
Lemma located_round X u x t : located X u x -> 2 * Z.abs (X - t * u) < u -> round_nearest_even (shr_m x) (loc_of_shr_record x) = t.
Proof.
  intros (H0 & R & HX & HR & Hs) Ht. destruct x as [m r s]. cbn [shr_m shr_r shr_s] in *.
  assert (- u < (2 * m + Z.b2z r - 2 * t) * u + R < u) as Hd by lia. assert (-2 < 2 * m + Z.b2z r - 2 * t < 1) as Hm by nia.
  destruct r, (Z.eqb_spec R 0); subst s; cbn [Z.b2z negb loc_of_shr_record round_nearest_even] in *; [exfalso|..]; try lia.
  assert (t = m + 1) as -> by lia. lia.
Qed.

Lemma shr_fexp_located m e l X Y : 0 < Y -> located X Y (shr_record_of_loc m l) -> e <= fexp 53 1024 (Zdigits2 m + e) ->
  exists x, shr_fexp 53 1024 m e l = (x, fexp 53 1024 (Zdigits2 m + e)) /\ located X (Y * 2 ^ (fexp 53 1024 (Zdigits2 m + e) - e)) x.
Proof.
  intros HY H Hle. unfold shr_fexp. destruct (_ - e) as [|p|p] eqn:En; [..|lia]; cbn [shr].
  - exists (shr_record_of_loc m l). rewrite Z.pow_0_r, Z.mul_1_r. split; [f_equal; lia|done].
  - exists (iter_pos shr_1 p (shr_record_of_loc m l)). split; [f_equal; lia|].
    apply (shr_1_ind (fun k => located X (Y * 2 ^ k)) ltac:(intros; by apply located_step) p 0); [done|]. by rewrite Z.pow_0_r, Z.mul_1_r.
Qed.

(** ** Numbers close to a double *)

(** [N / q] is less than half the distance of [m * 2^e] to its neighbours away
    from it; below a power of two that distance is halved. *)
Definition near (N q m e : Z) : Prop :=
  let err := Z.abs (N * 2 ^ 1080 - m * q * 2 ^ (e + 1080)) in
  2 * err < q * 2 ^ (e + 1080) /\ (m = 2 ^ 52 -> 4 * err < q * 2 ^ (e + 1080)).

Lemma digits_spec m : 0 <= m -> m < 2 ^ Zdigits2 m /\ (0 < m -> 2 ^ (Zdigits2 m - 1) <= m) /\ 0 <= Zdigits2 m.
Proof.
  intros Hm. destruct m as [|p|p]; [done| |lia]. cbn [Zdigits2]. rewrite digits2_log2.
  pose proof (Z.log2_spec (Z.pos p) ltac:(lia)) as [Hl Hu]. pose proof (Z.log2_nonneg (Z.pos p)).
  replace (Z.log2 (Z.pos p) + 1 - 1) with (Z.log2 (Z.pos p)) by lia. rewrite Z.add_1_r. split_and!; [done|done|lia].
Qed.

Lemma fexp_cases d : fexp 53 1024 d = d - 53 /\ -1074 <= d - 53 \/ fexp 53 1024 d = -1074 /\ d - 53 <= -1074.
Proof. unfold fexp, emin. lia. Qed.

(** The doubles in the range of normal numbers have 53 bits. *)
Lemma bounded_range m e : bounded 53 1024 m e = true ->
  -1074 <= e <= 971 /\ Z.pos m < 2 ^ 53 /\ (e = -1074 \/ 2 ^ 52 <= Z.pos m) /\ fexp 53 1024 (Zdigits2 (Z.pos m) + e) = e.
Proof.
  unfold bounded, canonical_mantissa. intros [Hc%Z.eqb_eq He%Z.leb_le]%andb_true_iff. change (1024 - 53) with 971 in He.
  destruct (digits_spec (Z.pos m) ltac:(lia)) as (Hu & Hl & _). specialize (Hl ltac:(lia)). cbn [Zdigits2] in *.
  set (d := Z.pos (digits2_pos m)) in *. destruct (fexp_cases (d + e)) as [[E Hd]|[E Hd]]; rewrite E in Hc.
  - assert (d = 53) as Ed by lia. rewrite Ed in *. split_and!; [lia..|right; exact Hl|lia].
  - split_and!; [lia..| |by left|lia]. assert (2 ^ d <= 2 ^ 53) by (apply Z.pow_le_mono_r; lia). lia.
Qed.

Lemma pow_pos k : 0 <= k -> 0 < 2 ^ k.
Proof. intros. by apply Z.pow_pos_nonneg. Qed.

Lemma digits_below mx ex e : 0 <= mx -> -1080 <= ex -> -1080 <= e -> mx * 2 ^ (ex + 1080) < 2 ^ 53 * 2 ^ (e + 1080) -> 0 < mx -> Zdigits2 mx + ex <= 53 + e.
Proof.
  intros H0 Hx He H Hm. destruct (digits_spec mx H0) as (_ & Hl & Hd). specialize (Hl Hm). rewrite <- Z.pow_add_r in H by lia.
  assert (0 < Zdigits2 mx) by (destruct mx; cbn in *; lia).
  assert (2 ^ (Zdigits2 mx - 1 + (ex + 1080)) < 2 ^ (53 + (e + 1080))) as Hlt by (rewrite Z.pow_add_r by lia; pose proof (pow_pos (ex + 1080)); nia).
  apply Z.pow_lt_mono_r_iff in Hlt; lia.
Qed.

Lemma digits_above mx ex e j : 0 <= mx -> -1080 <= ex <= e -> 0 <= j -> 2 ^ j * 2 ^ (e + 1080) < (mx + 1) * 2 ^ (ex + 1080) -> j + 1 + e <= Zdigits2 mx + ex.
Proof.
  intros H0 Hx Hj H. destruct (digits_spec mx H0) as (Hu & _ & Hd). pose proof (pow_pos (ex + 1080) ltac:(lia)).
  replace (2 ^ (e + 1080)) with (2 ^ (e - ex) * 2 ^ (ex + 1080)) in H by (rewrite <- Z.pow_add_r by lia; f_equal; lia).
  rewrite Z.mul_assoc, <- Z.pow_add_r in H by lia. assert (2 ^ (j + (e - ex)) < 2 ^ Zdigits2 mx) as Hlt by nia.
  apply Z.pow_lt_mono_r_iff in Hlt; lia.
Qed.

(** The exponent a number close to a double is rounded at: that of the double,
    or one less just below a power of two. *)
Lemma near_exponent N q m e mx ex : 0 < q -> 0 <= mx -> -1080 <= ex <= 0 -> mx * q <= N * 2 ^ (- ex) < (mx + 1) * q ->
  let E := fexp 53 1024 (Zdigits2 mx + ex) in ex <= E -> near N q (Z.pos m) e -> bounded 53 1024 m e = true ->
  E = e \/ E = e - 1 /\ Z.pos m = 2 ^ 52.
Proof.
  intros Hq H0 Hex HN E HE [Hn Hn'] (He & Hm & Hmin & _)%bounded_range. subst E.
  set (a := 2 ^ (ex + 1080)). set (w := 2 ^ (e + 1080)) in *. set (V := N * 2 ^ 1080) in *.
  assert (0 < a /\ 0 < w) as [Ha Hw] by (split; apply pow_pos; lia).
  assert (mx * q * a <= V < (mx + 1) * q * a) as HV.
  { replace V with (N * 2 ^ (- ex) * a); [nia|]. unfold a, V. rewrite <- Z.mul_assoc, <- Z.pow_add_r by lia. do 2 f_equal. lia. }
  assert ((2 * Z.pos m - 1) * w * q < 2 * V < (2 * Z.pos m + 1) * w * q) as Hmid by lia.
  assert (forall x y, x * q < y * q -> x < y) as Hcancel by (intros x y; apply Z.mul_lt_mono_pos_r; done).
  assert (forall x, x * w * q <= V -> x * w < (mx + 1) * a) as Hlow by (intros x Hx; apply Hcancel; lia).
  assert (mx * a < 2 ^ 53 * w) as Hup.
  { assert (2 * (mx * a) < (2 * Z.pos m + 1) * w) by (apply Hcancel; lia). pose proof (Z.mul_le_mono_pos_r (2 * Z.pos m + 1) (2 * 2 ^ 53) w Hw) as [Hk _]. lia. }
  assert (fexp 53 1024 (Zdigits2 mx + ex) <= e) as Hle.
  { destruct (Z.eq_dec mx 0) as [E0|]; [assert (Zdigits2 mx = 0) by (by rewrite E0)|pose proof (digits_below mx ex e H0 ltac:(lia) ltac:(lia) Hup ltac:(lia))];
      destruct (fexp_cases (Zdigits2 mx + ex)); lia. }
  destruct Hmin as [->|Hmin]; [pose proof (fexp_cases (Zdigits2 mx + ex)); lia|].
  destruct (Z.le_gt_cases (2 ^ 52 * w * q) V) as [Hge|Hlt].
  - left. assert (52 + 1 + e <= Zdigits2 mx + ex); [|pose proof (fexp_cases (Zdigits2 mx + ex)); lia].
    apply digits_above; [lia..|]. by apply Hlow.
  - assert (Z.pos m = 2 ^ 52) as Em.
    { assert ((2 * Z.pos m - 1) * w < 2 * 2 ^ 52 * w) as Hk by (apply Hcancel; lia). apply Z.mul_lt_mono_pos_r in Hk; lia. }
    specialize (Hn' Em). rewrite Em in *.
    assert (51 + 1 + e <= Zdigits2 mx + ex); [|pose proof (fexp_cases (Zdigits2 mx + ex)); lia].
    apply digits_above; [lia..|]. apply Hlow. pose proof (Z.mul_pos_pos q w). lia.
Qed.

Lemma located_between X u x : 0 < u -> located X u x -> shr_m x * u <= X < (shr_m x + 1) * u.
Proof. intros Hu (H0 & R & HX & HR & _). destruct (shr_r x); cbn [Z.b2z] in *; lia. Qed.

Lemma record_m m l : shr_m (shr_record_of_loc m l) = m.
Proof. by destruct l as [|[]]. Qed.

(** A mantissa that is rounded already is left alone. *)
Lemma round_canonical m e : fexp 53 1024 (Zdigits2 (Z.pos m) + e) = e ->
  shr_fexp 53 1024 (Z.pos m) e loc_Exact = ({| shr_m := Z.pos m; shr_r := false; shr_s := false |}, e).
Proof. intros E. unfold shr_fexp. by rewrite E, Z.sub_diag. Qed.

Lemma round_power e : -1074 < e -> shr_fexp 53 1024 (2 ^ 53) (e - 1) loc_Exact = ({| shr_m := 2 ^ 52; shr_r := false; shr_s := false |}, e).
Proof.
  intros He. unfold shr_fexp. change (Zdigits2 (2 ^ 53)) with 54. replace (fexp 53 1024 (54 + (e - 1)) - (e - 1)) with 1 by (unfold fexp, emin; lia).
  cbn. f_equal. lia.
Qed.

Lemma round_near s mx ex lx N q m e : 0 < q -> -1080 <= ex <= 0 -> located (N * 2 ^ (- ex)) q (shr_record_of_loc mx lx) ->
  ex <= fexp 53 1024 (Zdigits2 mx + ex) -> near N q (Z.pos m) e -> bounded 53 1024 m e = true ->
  binary_round_aux 53 1024 s mx ex lx = S754_finite s m e.
Proof.
  intros Hq Hex HL HE Hn Hb. pose proof (located_between _ _ _ Hq HL) as HN. pose proof (proj1 HL) as H0. rewrite record_m in HN, H0.
  destruct (shr_fexp_located mx ex lx _ q Hq HL HE) as (x & Ex & Hx). unfold binary_round_aux. rewrite Ex. clear HL Ex.
  pose proof (near_exponent N q m e mx ex Hq H0 Hex HN HE Hn Hb) as Hcase. set (E := fexp 53 1024 (Zdigits2 mx + ex)) in *.
  destruct (bounded_range m e Hb) as (He & Hm & _ & Hc).
  assert (forall t, 2 * Z.abs (N * 2 ^ 1080 - t * q * 2 ^ (E + 1080)) < q * 2 ^ (E + 1080) -> round_nearest_even (shr_m x) (loc_of_shr_record x) = t) as Hr.
  { intros t Ht. apply (located_round _ _ _ _ Hx). pose proof (pow_pos (ex + 1080) ltac:(lia)) as Hp.
    replace (2 ^ (E + 1080)) with (2 ^ (E - ex) * 2 ^ (ex + 1080)) in Ht by (rewrite <- Z.pow_add_r by lia; f_equal; lia).
    replace (2 ^ 1080) with (2 ^ (- ex) * 2 ^ (ex + 1080)) in Ht by (rewrite <- Z.pow_add_r by lia; f_equal; lia).
    replace (N * (2 ^ (- ex) * 2 ^ (ex + 1080)) - t * q * (2 ^ (E - ex) * 2 ^ (ex + 1080))) with ((N * 2 ^ (- ex) - t * (q * 2 ^ (E - ex))) * 2 ^ (ex + 1080)) in Ht by ring.
    rewrite Z.abs_mul, (Z.abs_eq (2 ^ (ex + 1080))) in Ht by lia. nia. }
  destruct Hcase as [EE|[EE Em]]; rewrite EE in *; destruct Hn as [Hn Hn'].
  - rewrite (Hr (Z.pos m) Hn), round_canonical by done. cbn [shr_m]. by destruct (Z.leb_spec e (1024 - 53)); [|lia].
  - rewrite (Hr (2 ^ 53)).
    + rewrite round_power by (subst E; pose proof (fexp_cases (Zdigits2 mx + ex)); lia). cbn [shr_m]. rewrite <- Em.
      by destruct (Z.leb_spec e (1024 - 53)); [|lia].
    + specialize (Hn' Em). rewrite Em in Hn'. replace (2 ^ (e + 1080)) with (2 * 2 ^ (e - 1 + 1080)) in Hn' by (rewrite <- Z.pow_succ_r by lia; f_equal; lia).
      replace (2 ^ 53 * q * 2 ^ (e - 1 + 1080)) with (2 ^ 52 * q * (2 * 2 ^ (e - 1 + 1080))) by ring. lia.
Qed.

Lemma fexp_mono d d' : d <= d' -> fexp 53 1024 d <= fexp 53 1024 d'.
Proof. unfold fexp. lia. Qed.

Lemma normalize_near (neg : bool) N m e : 0 < N -> near N 1 (Z.pos m) e -> bounded 53 1024 m e = true ->
  binary_normalize 53 1024 (if neg then - N else N) 0 neg = S754_finite neg m e.
Proof.
  intros HN Hn Hb. destruct N as [|p|p]; [lia| |lia].
  transitivity (binary_round 53 1024 neg p 0); [by destruct neg|]. unfold binary_round, shl_align. rewrite Z.add_0_r, Z.sub_0_r.
  pose proof (fexp_cases (Z.pos (digits2_pos p))) as Hf. destruct (fexp 53 1024 _) as [|d|d] eqn:Ed.
  1,2: apply (round_near _ _ _ _ (Z.pos p) 1 m e); [lia|lia| |cbn [Zdigits2]; rewrite Z.add_0_r, Ed; lia|done|done].
  1,2: split; [done|]; exists 0; cbn [shr_record_of_loc shr_m shr_r shr_s Z.b2z]; rewrite Z.pow_0_r; split_and!; [lia..|done].
  apply (round_near _ _ _ _ (Z.pos p) 1 m e); [lia|lia| | |done|done].
  - unfold located. cbn [shr_record_of_loc shr_m shr_r shr_s Z.b2z]. split; [lia|]. exists 0. rewrite iter_xO. split_and!; [|lia..|done].
    change (- Z.neg d) with (Z.pos d). lia.
  - cbn [Zdigits2]. rewrite digits2_log2, iter_xO, Z.log2_mul_pow2 by lia. rewrite digits2_log2 in Ed.
    replace (Z.pos d + Z.log2 (Z.pos p) + 1 + Z.neg d) with (Z.log2 (Z.pos p) + 1) by lia. lia.
Qed.

(** The location of a remainder. *)
Lemma new_location_located X y q r : 0 < y -> 0 <= q -> X = q * y + r -> 0 <= r < y ->
  located X y (shr_record_of_loc q (new_location y r)).
Proof.
  intros Hy Hq HX Hr. unfold located, new_location, new_location_even, new_location_odd. rewrite record_m. split; [done|].
  destruct (Z.even y) eqn:Ey, (Z.eqb_spec r 0) as [->|Hne].
  1,3: exists 0; cbn [shr_record_of_loc shr_m shr_r shr_s Z.b2z]; split_and!; [lia..|done].
  - destruct (Z.compare_spec (2 * r) y); cbn [shr_record_of_loc shr_m shr_r shr_s Z.b2z];
      [exists 0|exists (2 * r)|exists (2 * r - y)]; split_and!; try lia; symmetry; lia.
  - assert (2 * r <> y) as Hodd by (intros <-; by rewrite Z.even_mul in Ey).
    destruct (Z.compare_spec (2 * r + 1) y); cbn [shr_record_of_loc shr_m shr_r shr_s Z.b2z];
      [exists (2 * r)|exists (2 * r)|exists (2 * r - y)]; split_and!; try lia; symmetry; lia.
Qed.

Lemma quotient_digits n q s : 0 < n -> 0 < q -> 0 <= s -> Zdigits2 n - Zdigits2 q <= Zdigits2 (n * 2 ^ s / q) - s.
Proof.
  intros Hn Hq Hs. destruct (digits_spec n) as (_ & Hl & _); [lia|]. destruct (digits_spec q) as (Hu & _ & Hd2); [lia|].
  pose proof (pow_pos s Hs) as Hp. assert (0 <= n * 2 ^ s / q) as H0 by (apply Z.div_pos; lia).
  destruct (digits_spec _ H0) as (Hm & _ & Hd). specialize (Hl Hn).
  destruct (Z.le_gt_cases (Zdigits2 n - Zdigits2 q + s) 0) as [?|Hpos]; [lia|].
  assert (2 ^ (Zdigits2 n - Zdigits2 q + s - 1) < 2 ^ Zdigits2 (n * 2 ^ s / q)) as Hlt; [|apply Z.pow_lt_mono_r_iff in Hlt; lia].
  eapply Z.le_lt_trans; [|exact Hm]. apply Z.div_le_lower_bound; [done|].
  assert (0 < Zdigits2 n) by (destruct n; cbn in *; lia).
  assert (2 ^ Zdigits2 q * 2 ^ (Zdigits2 n - Zdigits2 q + s - 1) = 2 ^ (Zdigits2 n - 1) * 2 ^ s) as E by (rewrite <- !Z.pow_add_r by lia; f_equal; lia).
  pose proof (pow_pos (Zdigits2 n - Zdigits2 q + s - 1) ltac:(lia)). nia.
Qed.

Lemma div_near neg n q m e : near (Z.pos n) (Z.pos q) (Z.pos m) e -> bounded 53 1024 m e = true ->
  SFdiv 53 1024 (S754_finite neg n 0) (S754_finite false q 0) = S754_finite neg m e.
Proof.
  intros Hn Hb. unfold SFdiv, SFdiv_core_binary. rewrite !Z.add_0_r, Z.sub_0_r, xorb_false_r.
  set (f := fexp 53 1024 _). pose proof (fexp_cases (Zdigits2 (Z.pos n) - Zdigits2 (Z.pos q))) as Hf. fold f in Hf.
  set (ex := Z.min f 0). replace (0 - ex) with (- ex) by lia.
  assert (match - ex with Z0 => Z.pos n | Z.pos _ => Z.shiftl (Z.pos n) (- ex) | Z.neg _ => 0 end = Z.pos n * 2 ^ (- ex)) as ->.
  { destruct (- ex) eqn:E; [cbn; lia|by rewrite Z.shiftl_mul_pow2 by lia|lia]. }
  destruct (Z.div_eucl _ _) as [z r] eqn:Ez. pose proof (Z.div_eucl_eq (Z.pos n * 2 ^ (- ex)) (Z.pos q) ltac:(lia)) as Heq. rewrite Ez in Heq.
  assert (z = Z.pos n * 2 ^ (- ex) / Z.pos q) as Ezq by (unfold Z.div; by rewrite Ez).
  assert (r = (Z.pos n * 2 ^ (- ex)) mod Z.pos q) as Erq by (unfold Z.modulo; by rewrite Ez).
  pose proof (Z.mod_pos_bound (Z.pos n * 2 ^ (- ex)) (Z.pos q) ltac:(lia)) as Hr. rewrite <- Erq in Hr.
  pose proof (pow_pos (- ex) ltac:(lia)) as Hp.
  apply (round_near _ _ _ _ (Z.pos n) (Z.pos q) m e); [lia|lia| | |done|done].
  - apply new_location_located; [lia| |lia|done]. rewrite Ezq. apply Z.div_pos; lia.
  - pose proof (quotient_digits (Z.pos n) (Z.pos q) (- ex) ltac:(lia) ltac:(lia) ltac:(lia)). rewrite Ezq.
    etransitivity; [|apply fexp_mono with (d := Zdigits2 (Z.pos n) - Zdigits2 (Z.pos q)); lia]. fold f. lia.
Qed.

(** ** Decimals *)

Lemma pow10_pos k : 0 <= k -> 0 < 10 ^ k.
Proof. intros. by apply Z.pow_pos_nonneg. Qed.

Lemma dec_len_digit n : 0 <= n < 10 -> dec_len n = 1.
Proof. intros Hn. unfold dec_len, nat_to_string. cbn [dec_loop]. by destruct (Z.ltb_spec n 10); [|lia]. Qed.

Lemma dec_len_step n : 10 <= n -> dec_len n = dec_len (n / 10) + 1.
Proof.
  intros Hn. pose proof (Z.div_mod n 10 ltac:(lia)) as E. pose proof (Z.mod_pos_bound n 10 ltac:(lia)).
  assert (1 <= n / 10) by (apply Z.div_le_lower_bound; lia). unfold dec_len. rewrite E at 1. rewrite nat_to_string_snoc, length_app by lia. cbn. lia.
Qed.

Lemma dec_len_spec n : 0 < n -> 1 <= dec_len n /\ 10 ^ (dec_len n - 1) <= n < 10 ^ dec_len n.
Proof.
  induction n as [n IH] using (well_founded_induction (Z.lt_wf 0)). intros Hn. destruct (Z.lt_ge_cases n 10).
  - rewrite dec_len_digit by lia. cbn. lia.
  - pose proof (Z.div_mod n 10 ltac:(lia)) as E. pose proof (Z.mod_pos_bound n 10 ltac:(lia)).
    destruct (IH (n / 10)) as (H1 & H2 & H3); [lia..|]. rewrite dec_len_step by done. set (l := dec_len (n / 10)) in *.
    replace (l + 1 - 1) with (Z.succ (l - 1)) by lia. rewrite Z.add_1_r, !Z.pow_succ_r by lia. lia.
Qed.

Lemma pow10_lt_inv a b : 0 <= b -> 10 ^ a < 10 ^ b -> a < b.
Proof. intros Hb. apply Z.pow_lt_mono_r_iff; lia. Qed.

Lemma dec_len_unique n j : 0 < n -> 1 <= j -> 10 ^ (j - 1) <= n < 10 ^ j -> dec_len n = j.
Proof.
  intros Hn Hj H. destruct (dec_len_spec n Hn) as (H1 & H2 & H3).
  pose proof (pow10_lt_inv (j - 1) (dec_len n) ltac:(lia) ltac:(lia)). pose proof (pow10_lt_inv (dec_len n - 1) j ltac:(lia) ltac:(lia)). lia.
Qed.

(** The decimal exponent of a fraction, in units of [10^-400]. *)
Definition dec_scale (num den p : Z) : Prop := den * 10 ^ (p + 399) <= num * 10 ^ 400 < den * 10 ^ (p + 400).

Lemma dec_scale_range num den p : 0 < num -> 0 < den -> -400 <= p -> num < den * 10 ^ 309 -> den < num * 10 ^ 324 -> dec_scale num den p -> -323 <= p <= 309.
Proof.
  intros Hn Hd Hp Hhi Hlo [H1 H2]. split.
  - assert (10 ^ 76 < 10 ^ (p + 400)) as Hlt by (change (10 ^ 400) with (10 ^ 324 * 10 ^ 76) in H2; nia). apply pow10_lt_inv in Hlt; lia.
  - destruct (Z.le_gt_cases p (-399)); [lia|]. assert (10 ^ (p + 399) < 10 ^ 709) as Hlt by (change (10 ^ 709) with (10 ^ 309 * 10 ^ 400); nia). apply pow10_lt_inv in Hlt; lia.
Qed.

Lemma dec_exp_scale num den : 0 < num -> 0 < den -> den < num * 10 ^ 324 -> -400 <= dec_exp num den /\ dec_scale num den (dec_exp num den).
Proof.
  intros Hn Hd Hlo. unfold dec_exp, dec_scale. destruct (Z.leb_spec den num) as [Hle|Hlt].
  - assert (0 < num / den) as Hv by (apply Z.div_str_pos; lia). pose proof (Z.div_mod num den ltac:(lia)) as E. pose proof (Z.mod_pos_bound num den Hd).
    destruct (dec_len_spec _ Hv) as (H1 & H2 & H3). set (p := dec_len _) in *. split; [lia|].
    replace (p + 399) with (p - 1 + 400) by lia. rewrite !Z.pow_add_r by lia. pose proof (pow10_pos 400 ltac:(lia)). set (M := 10 ^ 400) in *. clearbody M p.
    assert (den * 10 ^ (p - 1) <= num < den * 10 ^ p) as [Ha Hb] by nia. rewrite !Z.mul_assoc. split; [apply Z.mul_le_mono_nonneg_r|apply Z.mul_lt_mono_pos_r]; lia.
  - assert (0 < den / num) as Hv by (apply Z.div_str_pos; lia). pose proof (Z.div_mod den num ltac:(lia)) as E. pose proof (Z.mod_pos_bound den num Hn).
    destruct (dec_len_spec _ Hv) as (H1 & H2 & H3). set (k := dec_len _) in *.
    assert (k <= 324) as Hk by (enough (10 ^ (k - 1) < 10 ^ 324) as Hp by (apply pow10_lt_inv in Hp; lia); nia).
    assert (num * 10 ^ (k - 1) <= den < num * 10 ^ k) as [Ha Hb] by nia.
    assert (forall i, 0 <= i <= 400 -> 10 ^ 400 = 10 ^ i * 10 ^ (400 - i)) as Hsplit by (intros i Hi; rewrite <- Z.pow_add_r by lia; f_equal; lia).
    pose proof (pow10_pos (400 - k) ltac:(lia)). pose proof (pow10_pos (400 - (k - 1)) ltac:(lia)).
    destruct (Z.ltb_spec (num * 10 ^ k) den); [lia|]. destruct (Z.ltb_spec (num * 10 ^ (k - 1)) den) as [Hc|Hc]; (split; [lia|]).
    + replace (- (k - 1) + 399) with (400 - k) by lia. replace (- (k - 1) + 400) with (400 - (k - 1)) by lia. split; [rewrite (Hsplit k)|rewrite (Hsplit (k - 1))]; [nia|lia|nia|lia].
    + replace (- (k - 2) + 399) with (400 - (k - 1)) by lia. replace (- (k - 2) + 400) with (Z.succ (400 - (k - 1))) by lia.
      rewrite Z.pow_succ_r, (Hsplit (k - 1)) by lia. split; nia.
Qed.

Lemma scaled_round_spec num den s : 0 < num -> 0 < den ->
  let a := if 0 <=? s then num * 10 ^ s else num in let b := if 0 <=? s then den else den * 10 ^ (- s) in
  let n := scaled_round num den s in - b < 2 * n * b - 2 * a <= b.
Proof.
  intros Hn Hd a b n. assert (0 < b) as Hb.
  { unfold b. destruct (Z.leb_spec 0 s); [done|]. pose proof (pow10_pos (- s) ltac:(lia)). nia. }
  assert (n = (2 * a + b) / (2 * b)) as -> by (unfold n, scaled_round, a, b; by destruct (0 <=? s)).
  pose proof (Z.div_mod (2 * a + b) (2 * b) ltac:(lia)) as E. pose proof (Z.mod_pos_bound (2 * a + b) (2 * b) ltac:(lia)). lia.
Qed.

(** A decimal as a fraction. *)
Definition dec_frac (n e10 : Z) : Z * Z := if 0 <=? e10 then (n * 10 ^ e10, 1) else (n, 10 ^ (- e10)).

Lemma seventeen_digits num den p : 0 < num -> 0 < den -> -383 <= p -> dec_scale num den p ->
  let n := scaled_round num den (17 - p) in let '(N, q) := dec_frac n (p - 17) in
  10 ^ 16 <= n <= 10 ^ 17 /\ exists w, 2 * Z.abs (N * den - num * q) <= w /\ w * 10 ^ 16 <= num * q.
Proof.
  intros Hn Hd Hp [H1 H2] n. pose proof (scaled_round_spec num den (17 - p) Hn Hd) as Hr. cbn zeta in Hr. fold n in Hr. clearbody n.
  assert (forall a b, 0 < b -> - b < 2 * n * b - 2 * a <= b -> b * 10 ^ 16 <= a < b * 10 ^ 17 ->
    10 ^ 16 <= n <= 10 ^ 17 /\ exists w, 2 * Z.abs (n * b - a) <= w /\ w * 10 ^ 16 <= a) as Hgen.
  { clear. intros a b Hb Hr Ha. split; [nia|]. exists b. lia. }
  assert (forall x y, x * 10 ^ 400 <= y * 10 ^ 400 -> x <= y) as Hcle by (intros x y; apply Z.mul_le_mono_pos_r, pow10_pos; lia).
  assert (forall x y, x * 10 ^ 400 < y * 10 ^ 400 -> x < y) as Hclt by (intros x y; apply Z.mul_lt_mono_pos_r, pow10_pos; lia).
  unfold dec_frac. destruct (Z.leb_spec 0 (p - 17)) as [Hc|Hc].
  - pose proof (pow10_pos (p - 17) Hc). rewrite Z.mul_1_r. replace (n * 10 ^ (p - 17) * den) with (n * (den * 10 ^ (p - 17))) by ring.
    apply Hgen; [nia| |split; [apply Hcle|apply Hclt]; rewrite <- !Z.mul_assoc, <- !Z.pow_add_r by lia].
    + destruct (Z.leb_spec 0 (17 - p)); [|by replace (- (17 - p)) with (p - 17) in Hr by lia]. assert (p = 17) as -> by lia. cbn in *. lia.
    + by replace (p - 17 + (16 + 400)) with (p + 399) by lia.
    + by replace (p - 17 + (17 + 400)) with (p + 400) by lia.
  - replace (- (p - 17)) with (17 - p) by lia. destruct (Z.leb_spec 0 (17 - p)); [|lia]. pose proof (pow10_pos (17 - p) ltac:(lia)) as Hq.
    apply Hgen; [done|done|split; [apply Hcle|apply Hclt]].
    + replace (den * 10 ^ 16 * 10 ^ 400) with (den * 10 ^ (p + 399) * 10 ^ (17 - p)); [nia|].
      rewrite <- !Z.mul_assoc, <- !Z.pow_add_r by lia. do 2 f_equal. lia.
    + replace (den * 10 ^ 17 * 10 ^ 400) with (den * 10 ^ (p + 400) * 10 ^ (17 - p)); [nia|].
      rewrite <- !Z.mul_assoc, <- !Z.pow_add_r by lia. do 2 f_equal. lia.
Qed.

(** The numerator and denominator are those of the double. *)
Lemma f64_frac_value m e : -1074 <= e -> let '(num, den) := f64_frac m e in
  0 < num /\ 0 < den /\ num * 2 ^ 1080 = Z.pos m * den * 2 ^ (e + 1080).
Proof.
  intros He. unfold f64_frac. destruct (Z.leb_spec 0 e).
  - pose proof (pow_pos e ltac:(lia)). rewrite Z.pow_add_r by lia. split_and!; lia.
  - pose proof (pow_pos (- e) ltac:(lia)). split_and!; [lia..|]. rewrite <- Z.mul_assoc, <- Z.pow_add_r by lia. do 2 f_equal. lia.
Qed.

Lemma frac_near N q m e num den w : Z.pos m < 2 ^ 53 -> -1074 <= e -> 0 < q -> 0 < den -> num * 2 ^ 1080 = Z.pos m * den * 2 ^ (e + 1080) ->
  2 * Z.abs (N * den - num * q) <= w -> w * 10 ^ 16 <= num * q -> near N q (Z.pos m) e.
Proof.
  intros Hm He Hq Hd Hv Hw Hle. unfold near. set (err := Z.abs (N * 2 ^ 1080 - Z.pos m * q * 2 ^ (e + 1080))).
  pose proof (pow_pos 1080 ltac:(lia)) as HK. pose proof (pow_pos (e + 1080) ltac:(lia)) as Hu. set (K := 2 ^ 1080) in *. set (u := 2 ^ (e + 1080)) in *.
  assert (den * err = K * Z.abs (N * den - num * q)) as Herr.
  { unfold err. rewrite <- (Z.abs_eq den), <- (Z.abs_eq K), <- !Z.abs_mul by lia. f_equal. rewrite !Z.abs_eq by lia. nia. }
  assert (2 * 10 ^ 16 * err <= Z.pos m * (q * u)) as Hfin.
  { apply (Z.mul_le_mono_pos_r _ _ den Hd). replace (Z.pos m * (q * u) * den) with (q * (num * K)) by (rewrite Hv; ring). nia. }
  pose proof (Z.mul_pos_pos q u Hq Hu). clearbody err K u. split; [nia|]. intros Em. rewrite Em in Hfin. lia.
Qed.

Lemma dec_near neg n e10 m e : 0 < n -> -330 <= dec_len n + e10 <= 310 -> near (dec_frac n e10).1 (dec_frac n e10).2 (Z.pos m) e ->
  bounded 53 1024 m e = true -> dec_to_f64 neg n e10 = S754_finite neg m e.
Proof.
  intros Hn Hr Hnear Hb. unfold dec_to_f64. destruct n as [|p|p]; [lia| |lia].
  destruct (Z.ltb_spec 310 (dec_len (Z.pos p) + e10)); [lia|]. destruct (Z.ltb_spec (dec_len (Z.pos p) + e10) (-330)); [lia|].
  unfold dec_frac in Hnear. destruct (Z.leb_spec 0 e10) as [Hc|Hc]; cbn [fst snd] in Hnear.
  - pose proof (pow10_pos e10 Hc). apply normalize_near; [lia|done|done].
  - pose proof (pow10_pos (- e10) ltac:(lia)). destruct (10 ^ (- e10)) as [|q|q]; [lia| |lia]. by apply div_near.
Qed.

Lemma round_sign s m e l m' e' : binary_round_aux 53 1024 false m e l = S754_finite false m' e' ->
  binary_round_aux 53 1024 s m e l = S754_finite s m' e'.
Proof.
  unfold binary_round_aux. destruct (shr_fexp 53 1024 m e l) as [x ex]. destruct (shr_fexp 53 1024 _ ex loc_Exact) as [y ey].
  destruct (shr_m y); [done| |done]. destruct (ey <=? 1024 - 53); [|done]. by intros [= -> ->].
Qed.

(** The sign is not part of the rounding. *)
Lemma dec_sign neg n e10 m e : dec_to_f64 false n e10 = S754_finite false m e -> 0 < n /\ dec_to_f64 neg n e10 = S754_finite neg m e.
Proof.
  unfold dec_to_f64. destruct n as [|p|p]; [done| |done]. intros H. split; [lia|]. revert H. destruct (310 <? _); [done|]. destruct (_ <? -330); [done|].
  destruct (Z.leb_spec 0 e10).
  - pose proof (pow10_pos e10 ltac:(lia)). destruct (Z.pos p * 10 ^ e10) as [|v|v] eqn:Ev; [lia| |lia].
    cbn [binary_normalize]. intros H'. transitivity (binary_round 53 1024 neg v 0); [by destruct neg|].
    revert H'. unfold binary_round. destruct (shl_align _ _ _). apply round_sign.
  - destruct (10 ^ (- e10)); [done| |done]. unfold SFdiv. destruct (SFdiv_core_binary _ _ _ _ _ _) as [[z ez] lz]. rewrite !xorb_false_r. apply round_sign.
Qed.

Lemma seventeen_reads m e : bounded 53 1024 m e = true -> let '(num, den) := f64_frac m e in let p := dec_exp num den in
  dec_to_f64 false (scaled_round num den (17 - p)) (p - 17) = S754_finite false m e.
Proof.
  intros Hb. destruct (bounded_range m e Hb) as (He & Hm & _ & _). pose proof (f64_frac_value m e ltac:(lia)) as Hv.
  assert (let '(num, den) := f64_frac m e in num < den * 10 ^ 309 /\ den < num * 10 ^ 324) as Hrange.
  { unfold f64_frac. destruct (Z.leb_spec 0 e).
    - assert (2 ^ e <= 2 ^ 971) by (apply Z.pow_le_mono_r; lia). assert (Z.pos m * 2 ^ e < 2 ^ 53 * 2 ^ 971) by (pose proof (pow_pos e); nia).
      change (2 ^ 53 * 2 ^ 971) with (2 ^ 1024) in *. assert (2 ^ 1024 < 1 * 10 ^ 309) by done. pose proof (pow_pos e). split; [lia|]. nia.
    - assert (2 ^ (- e) <= 2 ^ 1074) by (apply Z.pow_le_mono_r; lia). assert (2 ^ 1074 < 10 ^ 324) by done. pose proof (pow_pos (- e)).
      assert (2 ^ 53 < 10 ^ 309) by done. split; nia. }
  destruct (f64_frac m e) as [num den]. destruct Hv as (Hn & Hd & Hv), Hrange as [Hhi Hlo]. cbn zeta.
  destruct (dec_exp_scale num den Hn Hd Hlo) as [Hp0 Hs]. set (p := dec_exp num den) in *.
  pose proof (dec_scale_range num den p Hn Hd Hp0 Hhi Hlo Hs) as Hp. pose proof (seventeen_digits num den p Hn Hd ltac:(lia) Hs) as H17. cbn zeta in H17.
  set (n := scaled_round num den (17 - p)) in *. destruct (dec_frac n (p - 17)) as [N q] eqn:Ef. destruct H17 as (Hn17 & w & Hw & Hle).
  assert (dec_len n = 17 \/ dec_len n = 18) as Hlen.
  { destruct (Z.eq_dec n (10 ^ 17)) as [->|]; [right; by vm_compute|left]. apply dec_len_unique; [lia|lia|]. cbn in *. lia. }
  apply dec_near; [lia|lia| |done]. rewrite Ef. apply (frac_near N q m e num den w); [done|lia| |done|done|done|done].
  unfold dec_frac in Ef. destruct (Z.leb_spec 0 (p - 17)); injection Ef as <- <-; [lia|]. apply pow10_pos. lia.
Qed.

(** The search for the shortest decimal ends with one that reads back. *)
Lemma shortest_loop_reads fuel d num den p : forall k,
  dec_to_f64 false (scaled_round num den (17 - p)) (p - 17) = d ->
  dec_to_f64 false (shortest_loop fuel d num den p k).1 (shortest_loop fuel d num den p k).2 = d.
Proof.
  induction fuel as [|fuel IH]; intros k H; [done|]. cbn [shortest_loop]. case_bool_decide; [done|]. case_bool_decide; [done|]. by apply IH.
Qed.

(** ** The text of a decimal *)

Definition all_digits (s : bytes) : Prop := Forall (fun b => is_digit b = true) s.

Definition starts_plain (s : bytes) : Prop := match s with b :: _ => is_digit b = false | [] => True end.

Lemma span_digits_app ds r : all_digits ds -> starts_plain r -> span_digits (ds ++ r) = (ds, r).
Proof.
  intros Hds Hr. induction Hds as [|b ds Hb _ IH]; cbn [app span_digits]; [|by rewrite Hb, IH].
  destruct r as [|c r]; [done|]. cbn in *. by rewrite Hr.
Qed.

Lemma digits_val_app s t : forall acc, digits_val acc (s ++ t) = (let* v := digits_val acc s in digits_val v t).
Proof. induction s as [|b s IH]; intros acc; cbn; [done|]. destruct (is_digit b); [apply IH|done]. Qed.

Lemma digits_val_zeros k : forall acc, digits_val acc (replicate k x30) = Some (acc * 10 ^ Z.of_nat k).
Proof.
  induction k as [|k IH]; intros acc; [cbn; f_equal; lia|]. cbn [replicate digits_val]. change (is_digit x30) with true. change (digit_val x30) with 0.
  cbn match. rewrite IH, Nat2Z.inj_succ, Z.pow_succ_r by lia. f_equal. lia.
Qed.

Lemma zeros_digits k : all_digits (replicate k x30).
Proof. by apply Forall_replicate. Qed.

Lemma nat_digits_val n : 0 < n -> digits_val 0 (nat_to_string n) = Some n /\ nat_to_string n <> [].
Proof.
  intros Hn. pose proof (parse_nat_to_string n ltac:(lia)) as H. unfold parse_digits in H. by destruct (nat_to_string n).
Qed.

Lemma dec_to_f64_zeros neg n e : 0 < n -> 0 <= e -> dec_to_f64 neg (n * 10 ^ e) 0 = dec_to_f64 neg n e.
Proof.
  intros Hn He. pose proof (pow10_pos e He) as Hp. assert (dec_len (n * 10 ^ e) = dec_len n + e) as El.
  { destruct (dec_len_spec n Hn) as (H1 & H2 & H3). apply dec_len_unique; [lia|lia|].
    replace (dec_len n + e - 1) with (dec_len n - 1 + e) by lia. rewrite !Z.pow_add_r by lia. nia. }
  unfold dec_to_f64. destruct n as [|p|p]; [lia| |lia]. destruct (Z.pos p * 10 ^ e) as [|v|v] eqn:Ev; [lia| |lia].
  rewrite El, Z.add_0_r, Z.pow_0_r, Z.mul_1_r. by destruct (Z.leb_spec 0 e); [|lia].
Qed.

(** A number in positional notation: its digits, with the point, if any, [k]
    digits before the end. *)
Lemma parse_number_point neg ds ds' n : all_digits ds -> all_digits ds' -> ds <> [] -> digits_val 0 (ds ++ ds') = Some n ->
  parse_number neg (ds ++ [x2e] ++ ds') = Some (dec_to_f64 neg n (- Z.of_nat (length ds'))).
Proof.
  intros H1 H2 H3 Hv. unfold parse_number. rewrite span_digits_app by done. cbn [app].
  pose proof (span_digits_app ds' [] H2 I) as E. rewrite app_nil_r in E. rewrite E.
  destruct (ds ++ ds') as [|b s] eqn:Eq; [by destruct ds|]. cbn [parse_exponent]. cbn [mbind option_bind]. rewrite Hv. done.
Qed.

Lemma parse_number_plain neg ds n : all_digits ds -> ds <> [] -> digits_val 0 ds = Some n -> parse_number neg ds = Some (dec_to_f64 neg n 0).
Proof.
  intros H1 H2 Hv. unfold parse_number. pose proof (span_digits_app ds [] H1 I) as E. rewrite app_nil_r in E. rewrite E, app_nil_r.
  destruct ds as [|b s]; [done|]. cbn [parse_exponent]. cbn [mbind option_bind]. rewrite Hv. done.
Qed.

Lemma parse_positional neg n e : 0 < n -> parse_number neg (positional n e) = Some (dec_to_f64 neg n e).
Proof.
  intros Hn. destruct (nat_digits_val n Hn) as [Hv Hne]. pose proof (nat_to_string_digits n ltac:(lia)) as Hd. fold (all_digits (nat_to_string n)) in Hd.
  unfold positional. set (ds := nat_to_string n) in *. destruct (Z.leb_spec 0 e).
  - rewrite (parse_number_plain neg _ (n * 10 ^ e)).
    + by rewrite dec_to_f64_zeros.
    + apply Forall_app. split; [done|apply zeros_digits].
    + by destruct ds.
    + rewrite digits_val_app, Hv. cbn [mbind option_bind]. rewrite digits_val_zeros. by rewrite Z2Nat.id.
  - set (k := Z.to_nat (- e)). destruct (Nat.leb_spec (length ds) k) as [Hle|Hlt].
    + change (str "0." ++ ?x) with ([x30] ++ [x2e] ++ x). rewrite (parse_number_point neg _ _ n).
      * rewrite length_app, length_replicate. do 2 f_equal. unfold k in *. lia.
      * by repeat constructor.
      * apply Forall_app. split; [apply zeros_digits|done].
      * done.
      * change ([x30] ++ ?x) with (replicate 1 x30 ++ x). rewrite !digits_val_app, digits_val_zeros. cbn [mbind option_bind].
        rewrite digits_val_app, digits_val_zeros. cbn [mbind option_bind]. by rewrite !Z.mul_0_l.
    + rewrite (parse_number_point neg _ _ n).
      * rewrite length_drop. do 2 f_equal. unfold k in *. lia.
      * by apply Forall_take.
      * by apply Forall_drop.
      * intros E%(f_equal length). rewrite length_take in E. cbn [length] in E. lia.
      * by rewrite take_drop.
Qed.

(** The text of a number without its sign: digits and a point, a digit first. *)
Definition is_num_char (b : byte) : bool := (is_digit b || bool_decide (b = x2e))%bool.

Record number_text (neg : bool) (s : bytes) (d : f64) : Prop := {
  number_first : exists b s', s = b :: s' /\ is_digit b = true;
  number_chars : Forall (fun b => is_num_char b = true) s;
  number_value : parse_number neg s = Some d
}.

Definition sign_text (neg : bool) : bytes := if neg then [x2d] else [].

Lemma digits_num_chars s : all_digits s -> Forall (fun b => is_num_char b = true) s.
Proof. intros H. eapply Forall_impl; [exact H|]. unfold is_num_char. by intros b ->. Qed.

Lemma nat_number_text neg n : 0 < n -> number_text neg (nat_to_string n) (dec_to_f64 neg n 0).
Proof.
  intros Hn. destruct (nat_digits_val n Hn) as [Hv Hne]. pose proof (nat_to_string_digits n ltac:(lia)) as Hd. split; [|by apply digits_num_chars|by apply parse_number_plain].
  destruct (nat_to_string n) as [|b s]; [done|]. exists b, s. by apply Forall_cons in Hd as [Hb _].
Qed.

Lemma positional_text neg n e : 0 < n -> number_text neg (positional n e) (dec_to_f64 neg n e).
Proof.
  intros Hn. destruct (nat_number_text neg n Hn) as [(b & s & Es & Hb) Hc _]. split; [| |by apply parse_positional]; unfold positional; rewrite Es in *.
  - destruct (0 <=? e); [by exists b, (s ++ replicate (Z.to_nat e) x30)|]. destruct (Nat.leb_spec (length (b :: s)) (Z.to_nat (- e))).
    + by eexists x30, _.
    + destruct (length (b :: s) - Z.to_nat (- e))%nat eqn:E; [lia|]. by eexists b, _.
  - assert (forall k, Forall (fun b => is_num_char b = true) (replicate k x30)) as Hz by (intros k; apply digits_num_chars, zeros_digits).
    destruct (0 <=? e); [by apply Forall_app|]. destruct (Nat.leb_spec (length (b :: s)) (Z.to_nat (- e))).
    + apply Forall_app. split; [by repeat constructor|]. by apply Forall_app.
    + apply Forall_app. split; [by apply Forall_take|]. constructor; [done|]. by apply Forall_drop.
Qed.

(** An integral double is its integer, exactly. *)
Lemma integral_reads neg m e z : bounded 53 1024 m e = true -> f64_integral neg m e = Some z -> i64_min <= z < 2 ^ 63 ->
  exists v, 0 < v /\ i64_to_string z = sign_text neg ++ nat_to_string v /\ dec_to_f64 neg v 0 = S754_finite neg m e.
Proof.
  intros Hb Hi Hz. destruct (bounded_range m e Hb) as (He & Hm & _ & _). pose proof (f64_frac_value m e ltac:(lia)) as Hv.
  unfold f64_integral in Hi. destruct (f64_frac m e) as [num den]. destruct Hv as (Hn & Hd & Hv).
  destruct (Z.eqb_spec (num mod den) 0) as [Hmod|]; [|done]. injection Hi as <-. pose proof (Z.div_mod num den ltac:(lia)) as Hdiv.
  rewrite Hmod, Z.add_0_r in Hdiv. set (v := num / den) in *. assert (0 < v) as Hpos by nia. exists v. split_and!; [done| |].
  - unfold i64_to_string, sign_text. destruct neg.
    + destruct (Z.ltb_spec (- v) 0); [|lia]. by rewrite Z.opp_involutive.
    + by destruct (Z.ltb_spec v 0); [lia|].
  - assert (v * 2 ^ 1080 = Z.pos m * 1 * 2 ^ (e + 1080)) as Ev.
    { apply (Z.mul_reg_l _ _ den); [lia|]. rewrite Z.mul_assoc, <- Hdiv, Hv. ring. }
    apply dec_near; [done| | |done].
    + destruct (dec_len_spec v Hpos) as (H1 & H2 & _). assert (dec_len v - 1 < 20); [|lia]. apply pow10_lt_inv; [lia|].
      assert (v <= 2 ^ 63) by (destruct neg; unfold i64_min in *; lia). lia.
    + unfold dec_frac. cbn [Z.leb Z.compare fst snd]. rewrite Z.pow_0_r, Z.mul_1_r. unfold near. rewrite Ev, Z.sub_diag.
      pose proof (pow_pos (e + 1080) ltac:(lia)). cbn [Z.abs]. lia.
Qed.

Lemma format_finite neg m e : bounded 53 1024 m e = true ->
  exists s, format_double (S754_finite neg m e) = sign_text neg ++ s /\ number_text neg s (S754_finite neg m e).
Proof.
  intros Hb. assert (exists s, f64_display neg m e = sign_text neg ++ s /\ number_text neg s (S754_finite neg m e)) as Hdisplay.
  { unfold f64_display. pose proof (seventeen_reads m e Hb) as H17. destruct (f64_frac m e) as [num den]. cbn zeta in H17.
    pose proof (shortest_loop_reads 16 _ num den (dec_exp num den) 1 H17) as Hs. destruct (shortest_loop _ _ _ _ _ _) as [n e10]. cbn [fst snd] in Hs.
    destruct (dec_sign neg n e10 m e Hs) as [Hn Hneg]. exists (positional n e10). split; [done|]. rewrite <- Hneg. by apply positional_text. }
  cbn [format_double]. destruct (f64_integral neg m e) as [z|] eqn:Ei; [|done].
  destruct (Z.leb_spec i64_min z), (Z.ltb_spec z (2 ^ 63)); cbn [andb]; try done.
  destruct (integral_reads neg m e z Hb Ei) as (v & Hv & -> & Hd); [lia|]. exists (nat_to_string v). split; [done|]. rewrite <- Hd. by apply nat_number_text.
Qed.

Lemma parse_signed neg s d : number_text neg s d -> parse_f64_str (sign_text neg ++ s) = Some d.
Proof.
  intros [(b & s' & -> & Hb) _ Hp]. unfold parse_f64_str, sign_text. destruct neg; cbn [app]; [by rewrite Hp|].
  destruct (digit_ascii b Hb) as (_ & H1 & H2). destruct b; try done; by rewrite Hp.
Qed.

(** Reading back what [format_double] prints gives the double: every value of
    binary64, the zeros, infinities and subnormal numbers among them. *)
Lemma format_double_reads (d : f64) : valid_binary 53 1024 d = true -> parse_f64_str (format_double d) = Some d.
Proof.
  destruct d as [[]|[]| |neg m e]; intros Hv; [by vm_compute..|]. destruct (format_finite neg m e Hv) as (s & -> & Hs). by apply parse_signed.
Qed.

(** The text fits on a line: no control bytes, and ASCII only. *)
Lemma format_double_plain (d : f64) : valid_binary 53 1024 d = true -> Forall (fun b => byte_in 32 126 b = true) (format_double d).
Proof.
  destruct d as [[]|[]| |neg m e]; intros Hv; [by vm_compute; repeat constructor..|]. destruct (format_finite neg m e Hv) as (s & -> & Hs).
  apply Forall_app. split; [destruct neg; by repeat constructor|]. eapply Forall_impl; [apply Hs|].
  intros b Hb. by destruct b.
Qed.
