(* ===== verification/Reply.v ===== *)
(** * Reply: the RESP value type and its encoder.

    Models [Value] of src/cache_cat/src/raft/types/core/response_value.rs, the
    accessors the command parsers use and [encode_to]; and the error texts of
    src/cache_cat/src/error.rs. *)

From S2P Require Import Prelude Text F64 FloatText.
From Stdlib Require Import SpecFloat Strings.Byte.

#[local] Set Warnings "-register-all".

Inductive Value :=
| SimpleString (s : bytes)
| Error (e : bytes)
| Integer (i : Z)
| BulkString (o : option bytes)
| Array (o : option (list Value))
| Null
| Map_ (pairs : list (Value * Value))
| Set_ (items : list Value)
| Push (items : list Value)
| Boolean (b : bool)
| Double (d : f64)
| BigNumber (n : bytes)
| VerbatimString (format data : bytes)
| BulkError (e : bytes)
| MemberScores (pairs : list (bytes * f64))
| Batch (frames : list Value).

Definition value_ok : Value := SimpleString (str "OK").

(** ** Errors *)

Inductive ProtocolError :=
| ScriptError (call msg : bytes)
| ScriptCompileError (msg : bytes)
| InvalidFormat (msg : bytes)
| DbNotExist
| UnknownCommand (cmd : bytes)
| WrongArgCount (cmd : bytes)
| InvalidArgument (what : bytes)
| SyntaxError
| WrongType
| ReadOnly
| NotAnInteger
| Overflow
| Custom (msg : bytes)
| NotAuthenticated.

(** [Display], from the [#[error(...)]] attributes. *)
Definition error_text (e : ProtocolError) : bytes :=
  match e with
  | ScriptError call msg => str "ERR Error running script (call to " ++ call ++ str "): " ++ msg
  | ScriptCompileError msg => str "ERR Error compiling script: " ++ msg
  | InvalidFormat msg => str "invalid RESP format: " ++ msg
  | DbNotExist => str "ERR DB index is out of range"
  | UnknownCommand cmd => str "unknown command '" ++ cmd ++ str "'"
  | WrongArgCount cmd =>
      str "ERR wrong number of arguments for '" ++ cmd ++ str "' command"
  | InvalidArgument what => str "ERR invalid " ++ what
  | SyntaxError => str "ERR syntax error"
  | WrongType => str "WRONGTYPE Operation against a key holding the wrong kind of value"
  | ReadOnly =>
      str "READONLY This instance is not the master. Write operations are only allowed on the master node."
  | NotAnInteger => str "ERR value is not an integer or out of range"
  | Overflow => str "ERR increment or decrement would overflow"
  | Custom msg => msg
  | NotAuthenticated => str "ERR Client sent AUTH, but no password is set"
  end.

Definition protocol_error (e : ProtocolError) : Value := Error (error_text e).

(** ** Accessors *)

Definition string_bytes_clone (v : Value) : option bytes :=
  match v with
  | BulkString (Some data) => Some data
  | SimpleString s => Some s
  | VerbatimString _ data => Some data
  | _ => None
  end.

(** [as_str_lossy], as the list of its characters. A [SimpleString] is a
    [String] already, which conversion leaves alone. *)
Definition as_str_lossy (v : Value) : option (list bytes) :=
  match v with
  | BulkString (Some data) => Some (lossy_chars data)
  | SimpleString s => Some (lossy_chars s)
  | VerbatimString _ data => Some (lossy_chars data)
  | _ => None
  end.

Definition value_parse_u64 (v : Value) : option Z :=
  match v with
  | BulkString (Some data) => parse_u64_str (from_utf8_lossy data)
  | SimpleString s => parse_u64_str s
  | Integer i => if 0 <=? i then Some i else None
  | _ => None
  end.

Definition value_parse_i64 (v : Value) : option Z :=
  match v with
  | BulkString (Some data) => parse_i64_str (from_utf8_lossy data)
  | SimpleString s => parse_i64_str s
  | Integer i => Some i
  | _ => None
  end.

(** [usize] is 64 bits wide. *)
Definition value_parse_usize (v : Value) : option Z := value_parse_u64 v.

Definition value_parse_bool_u8 (v : Value) : option Z :=
  match v with
  | BulkString (Some data) =>
      let* n := parse_u8_str (from_utf8_lossy data) in if n <=? 1 then Some n else None
  | SimpleString s => let* n := parse_u8_str s in if n <=? 1 then Some n else None
  | Integer i => if ((0 <=? i) && (i <=? 1))%bool then Some i else None
  | _ => None
  end.

Definition try_parse_u64 (v : Value) : result Z ProtocolError := ok_or (value_parse_u64 v) NotAnInteger.
Definition try_parse_i64 (v : Value) : result Z ProtocolError := ok_or (value_parse_i64 v) NotAnInteger.
Definition try_parse_usize (v : Value) : result Z ProtocolError := ok_or (value_parse_usize v) NotAnInteger.

(** ** The encoder *)

Definition crlf : bytes := [x0d; x0a].
Definition len_str {A} (l : list A) : bytes := nat_to_string (Z.of_nat (length l)).

Definition put_line (mode : byte) (line : bytes) : bytes := mode :: line ++ crlf.
Definition put_bulk (data : bytes) : bytes := x24 :: len_str data ++ crlf ++ data ++ crlf.

(** The three-character format hint of a verbatim string, padded with spaces. *)
Definition format_hint (format : bytes) : bytes := take 3 (format ++ [x20; x20; x20]).

(** [encode_to] appends to a buffer; this is what it appends. *)
Fixpoint encode_to (proto : Z) (v : Value) : bytes :=
  let null := if proto =? 3 then str "_" ++ crlf else str "$-1" ++ crlf in
  let all := fix all (l : list Value) : bytes :=
    match l with [] => [] | x :: l' => encode_to proto x ++ all l' end in
  let all_pairs := fix all_pairs (l : list (Value * Value)) : bytes :=
    match l with
    | [] => []
    | (k, x) :: l' => encode_to proto k ++ encode_to proto x ++ all_pairs l'
    end in
  match v with
  | SimpleString s => put_line x2b s
  | Error e => put_line x2d e
  | Integer i => put_line x3a (i64_to_string i)
  | Null => null
  | BulkString None => null
  | BulkString (Some data) => put_bulk data
  | Array None => if proto =? 3 then str "_" ++ crlf else str "*-1" ++ crlf
  | Array (Some items) => put_line x2a (len_str items) ++ all items
  | Map_ pairs =>
      (if proto =? 3 then put_line x25 (len_str pairs)
       else put_line x2a (nat_to_string (Z.of_nat (length pairs) * 2))) ++ all_pairs pairs
  | Set_ items => put_line (if proto =? 3 then x7e else x2a) (len_str items) ++ all items
  | Push items => put_line (if proto =? 3 then x3e else x2a) (len_str items) ++ all items
  | Boolean b =>
      if proto =? 3 then (if b then str "#t" else str "#f") ++ crlf
      else (if b then str ":1" else str ":0") ++ crlf
  | Double d =>
      if proto =? 3 then put_line x2c (format_double d) else put_bulk (format_double d)
  | BigNumber n => if proto =? 3 then put_line x28 n else put_bulk n
  | VerbatimString format data =>
      if proto =? 3 then
        x3d :: nat_to_string (Z.of_nat (length data) + 4) ++ crlf
          ++ format_hint format ++ [x3a] ++ data ++ crlf
      else put_bulk data
  | BulkError e =>
      if proto =? 3 then x21 :: len_str e ++ crlf ++ e ++ crlf else put_line x2d e
  | MemberScores pairs =>
      if proto =? 3 then
        put_line x2a (len_str pairs) ++
        concat ((fun p : bytes * f64 =>
          str "*2" ++ crlf ++ put_bulk p.1 ++ put_line x2c (format_double p.2)) <$> pairs)
      else
        put_line x2a (nat_to_string (Z.of_nat (length pairs) * 2)) ++
        concat ((fun p : bytes * f64 => put_bulk p.1 ++ put_bulk (format_double p.2)) <$> pairs)
  | Batch frames => all frames
  end.
