(* ===== verification/Resp.v ===== *)
(** * Resp: the incremental RESP parser.

    Models [Parser] of src/cache_cat/src/protocol/resp.rs: [parse_meta] measures
    the frame at the front of the buffer, [take] builds the value from exactly
    that many bytes. Slicing out of range panics in Rust and is a [Panic] here;
    the main results are that this never happens, that a parse does not depend
    on the bytes behind the frame, and that it inverts the encoder. *)

From S2P Require Import Prelude Text F64 FloatText FloatRound Reply.
From Stdlib Require Import SpecFloat Strings.Byte.

#[local] Set Warnings "-register-all".

Inductive AggregateKind := AArray | AMap | ASet | APush | AAttribute.

#[global] Instance AggregateKind_eq_dec : EqDecision AggregateKind.
Proof. solve_decision. Defined.

Inductive Parser :=
| PString (len : nat)
| PError (len : nat)
| PInteger (len : nat) (value : Z)
| PBytes (len : nat) (pl : option (nat * nat))
| PBulkError (len : nat) (pl : nat * nat)
| PVerbatim (len : nat) (pl : nat * nat)
| PNull (len : nat)
| PBoolean (len : nat) (value : bool)
| PDouble (len : nat) (value : f64)
| PBigNumber (len : nat)
| PAggregate (kind : AggregateKind) (len : nat) (value : option (nat * list Parser)).

Definition parser_len (p : Parser) : nat :=
  match p with
  | PString len | PError len | PInteger len _ | PBytes len _ | PBulkError len _
  | PVerbatim len _ | PNull len | PBoolean len _ | PDouble len _ | PBigNumber len
  | PAggregate _ len _ => len
  end.

(** Code that may panic and may return early with [None]. *)
Notation "'let!' x := m 'in' k" :=
  (match m with
   | Ret (Some x) => k
   | Ret None => Ret None
   | Panic => Panic
   | OutOfFuel => OutOfFuel
   end) (at level 10, x pattern, m at level 100, k at level 200) : rust_scope.

(** [&buffer[from..]] and [&buffer[from..to]]. *)
Definition slice_from (buffer : bytes) (from : nat) : outcome bytes :=
  if (from <=? length buffer)%nat then Ret (drop from buffer) else Panic.

Definition slice (buffer : bytes) (from to : nat) : outcome bytes :=
  if ((from <=? to) && (to <=? length buffer))%nat%bool
  then Ret (take (to - from) (drop from buffer)) else Panic.

(** ** Lines *)

Fixpoint find_line (buffer : bytes) : option nat :=
  match buffer with
  | a :: ((b :: _) as rest) =>
      if (bool_decide (a = x0d) && bool_decide (b = x0a))%bool then Some O
      else S <$> find_line rest
  | _ => None
  end.

Definition read_line (buffer : bytes) : outcome (option (bytes * nat)) :=
  match slice_from buffer 1 with
  | Ret rest =>
      match find_line rest with
      | Some index =>
          match slice buffer 1 (index + 1) with
          | Ret line => Ret (Some (line, (index + 3)%nat))
          | _ => Panic
          end
      | None => Ret None
      end
  | _ => Panic
  end.

Definition read_i64 (buffer : bytes) : outcome (option (Z * nat)) :=
  let! (line, len) := read_line buffer in
  Ret (let* cs := from_utf8 line in let* value := parse_i64_str (concat cs) in Some (value, len)).

Definition parse_simple_string (buffer : bytes) : outcome (option Parser) :=
  let! (_, len) := read_line buffer in Ret (Some (PString len)).

Definition parse_error (buffer : bytes) : outcome (option Parser) :=
  let! (_, len) := read_line buffer in Ret (Some (PError len)).

Definition parse_integer (buffer : bytes) : outcome (option Parser) :=
  let! (value, len) := read_i64 buffer in Ret (Some (PInteger len value)).

Definition parse_null (buffer : bytes) : outcome (option Parser) :=
  let! (line, len) := read_line buffer in
  Ret (match line with [] => Some (PNull len) | _ => None end).

Definition parse_boolean (buffer : bytes) : outcome (option Parser) :=
  let! (line, len) := read_line buffer in
  Ret (if bool_decide (line = str "t") then Some (PBoolean len true)
       else if bool_decide (line = str "f") then Some (PBoolean len false)
       else None).

Definition parse_double_text (text : bytes) : option f64 :=
  if (bool_decide (text = str "inf") || bool_decide (text = str "+inf"))%bool
  then Some (S754_infinity false)
  else if bool_decide (text = str "-inf") then Some (S754_infinity true)
  else if (bool_decide (text = str "nan") || bool_decide (text = str "-nan"))%bool then Some S754_nan
  else parse_f64_str text.

Definition parse_double (buffer : bytes) : outcome (option Parser) :=
  let! (line, len) := read_line buffer in
  Ret (let* text := from_utf8 line in
       let* value := parse_double_text (concat text) in Some (PDouble len value)).

Definition parse_big_number (buffer : bytes) : outcome (option Parser) :=
  let! (line, len) := read_line buffer in
  let digits := match line with x2b :: r | x2d :: r => r | _ => line end in
  Ret (match digits with
       | [] => None
       | _ => if forallb is_digit digits then Some (PBigNumber len) else None
       end).

Definition read_blob (buffer : bytes) (allow_null : bool)
    : outcome (option (nat * option (nat * nat))) :=
  let! (len, pos) := read_i64 buffer in
  if ((len =? -1) && allow_null)%bool then Ret (Some (pos, None))
  else if len <? 0 then Ret None
  else
    let full := wrap_u64 (Z.of_nat pos + len + 2) in
    if Z.of_nat (length buffer) <? full then Ret None
    else Ret (Some (Z.to_nat full, Some (pos, Z.to_nat len))).

Definition parse_bulk_string (buffer : bytes) : outcome (option Parser) :=
  let! (len, pl) := read_blob buffer true in Ret (Some (PBytes len pl)).

Definition parse_bulk_error (buffer : bytes) : outcome (option Parser) :=
  let! (len, pl) := read_blob buffer false in
  Ret (let* pl' := pl in Some (PBulkError len pl')).

Definition parse_verbatim (buffer : bytes) : outcome (option Parser) :=
  let! (len, pl) := read_blob buffer false in
  Ret (let* pl' := pl in Some (PVerbatim len pl')).

(** ** Frames *)

(** The header of an aggregate: [None] for the null array. *)
Definition aggregate_header (buffer : bytes) (kind : AggregateKind)
    : outcome (option (nat * option Z)) :=
  let! (count, pos) := read_i64 buffer in
  if ((count =? -1) && bool_decide (kind = AArray))%bool then Ret (Some (pos, None))
  else if count <? 0 then Ret None
  else
    match kind with
    | AMap | AAttribute =>
        Ret (if 2 * count <=? u64_max then Some (pos, Some (2 * count)) else None)
    | _ => Ret (Some (pos, Some count))
    end.

(** The [match mode] of [parse_meta]: what the first byte announces. *)
Inductive FrameMode :=
| Leaf (parse : bytes -> outcome (option Parser))
| Aggregate (kind : AggregateKind)
| Attribute.

Definition frame_mode (mode : byte) : option FrameMode :=
  match mode with
  | x2b => Some (Leaf parse_simple_string)
  | x2d => Some (Leaf parse_error)
  | x3a => Some (Leaf parse_integer)
  | x24 => Some (Leaf parse_bulk_string)
  | x2a => Some (Aggregate AArray)
  | x5f => Some (Leaf parse_null)
  | x23 => Some (Leaf parse_boolean)
  | x2c => Some (Leaf parse_double)
  | x28 => Some (Leaf parse_big_number)
  | x21 => Some (Leaf parse_bulk_error)
  | x3d => Some (Leaf parse_verbatim)
  | x25 => Some (Aggregate AMap)
  | x7e => Some (Aggregate ASet)
  | x3e => Some (Aggregate APush)
  | x7c => Some Attribute
  | _ => None
  end.

(** Every frame has at least three bytes, so twice the buffer's length bounds
    the nesting of the recursion and of the element loop together. *)
Fixpoint parse_meta (fuel : nat) (buffer : bytes) : outcome (option Parser) :=
  match fuel with
  | O => OutOfFuel
  | S fuel' =>
      let parse_aggregate kind :=
        let! (pos, count) := aggregate_header buffer kind in
        match count with
        | None => Ret (Some (PAggregate kind pos None))
        | Some n =>
            let! (full, elements) := parse_elements fuel' buffer pos n [] in
            Ret (Some (PAggregate kind full (Some (pos, elements))))
        end in
      if (length buffer <? 3)%nat then Ret None
      else
        match buffer with
        | [] => Ret None
        | mode :: _ =>
            match frame_mode mode with
            | None => Ret None
            | Some (Leaf parse) => parse buffer
            | Some (Aggregate kind) => parse_aggregate kind
            | Some Attribute =>
                let! attrs := parse_aggregate AAttribute in
                match attrs with
                | PAggregate _ attr_len (Some (pos, elements)) =>
                    match slice_from buffer attr_len with
                    | Ret rest =>
                        let! inner := parse_meta fuel' rest in
                        Ret (Some (PAggregate AAttribute (attr_len + parser_len inner)
                                     (Some (pos, elements ++ [inner]))))
                    | _ => Panic
                    end
                | _ => Ret None
                end
            end
        end
  end

(** The [for _ in 0..element_count] loop. *)
with parse_elements (fuel : nat) (buffer : bytes) (full : nat) (n : Z) (elements : list Parser)
    : outcome (option (nat * list Parser)) :=
  match fuel with
  | O => OutOfFuel
  | S fuel' =>
      if n <=? 0 then Ret (Some (full, elements))
      else
        match slice_from buffer full with
        | Ret rest =>
            let! meta := parse_meta fuel' rest in
            parse_elements fuel' buffer (full + parser_len meta) (n - 1) (elements ++ [meta])
        | _ => Panic
        end
  end.

Definition parse_fuel (buffer : bytes) : nat := S (2 * length buffer).

(** ** Building the value *)

(** [while let (Some(k), Some(v)) = (iter.next(), iter.next())]. *)
Fixpoint pair_up (l : list Value) : list (Value * Value) :=
  match l with
  | k :: v :: l' => (k, v) :: pair_up l'
  | _ => []
  end.

Definition finish_aggregate (kind : AggregateKind) (values : list Value) : Value :=
  match kind with
  | AArray => Array (Some values)
  | ASet => Set_ values
  | APush => Push values
  | AMap => Map_ (pair_up values)
  | AAttribute => match last values with Some v => v | None => Null end
  end.

(** The payload [(pos, len)] of a blob: [advance(pos)] then [split_to(len)]. *)
Definition blob (buffer : bytes) (pl : nat * nat) : outcome bytes := slice buffer pl.1 (pl.1 + pl.2).

Definition verbatim_value (payload : bytes) : Value :=
  if ((4 <=? length payload)%nat && bool_decide (payload !! 3%nat = Some x3a))%bool
  then VerbatimString (from_utf8_lossy (take 3 payload)) (drop 4 payload)
  else VerbatimString [] payload.

Definition outcome_map {A B} (f : A -> B) (o : outcome A) : outcome B :=
  match o with Ret a => Ret (f a) | Panic => Panic | OutOfFuel => OutOfFuel end.

Fixpoint parser_take (p : Parser) (buffer : bytes) : outcome Value :=
  let take_all := fix take_all (ps : list Parser) (buffer : bytes) : outcome (list Value) :=
    match ps with
    | [] => Ret []
    | p :: ps' =>
        match slice buffer 0 (parser_len p) with
        | Ret chunk =>
            match parser_take p chunk with
            | Ret v => outcome_map (cons v) (take_all ps' (drop (parser_len p) buffer))
            | _ => Panic
            end
        | _ => Panic
        end
    end in
  match p with
  | PString len => outcome_map (fun s => SimpleString (from_utf8_lossy s)) (slice buffer 1 (len - 2))
  | PError len => outcome_map (fun s => Error (from_utf8_lossy s)) (slice buffer 1 (len - 2))
  | PInteger _ value => Ret (Integer value)
  | PBytes _ None => Ret (BulkString None)
  | PBytes _ (Some pl) =>
      match blob buffer pl with
      | Ret data =>
          (* [buffer.advance(2)] over the line end *)
          if (pl.1 + pl.2 + 2 <=? length buffer)%nat then Ret (BulkString (Some data)) else Panic
      | _ => Panic
      end
  | PBulkError _ pl => outcome_map (fun s => BulkError (from_utf8_lossy s)) (blob buffer pl)
  | PVerbatim _ pl => outcome_map verbatim_value (blob buffer pl)
  | PNull _ => Ret Null
  | PBoolean _ value => Ret (Boolean value)
  | PDouble _ value => Ret (Double value)
  | PBigNumber len => outcome_map (fun s => BigNumber (from_utf8_lossy s)) (slice buffer 1 (len - 2))
  | PAggregate _ _ None => Ret (Array None)
  | PAggregate kind _ (Some (pos, elements)) =>
      match slice_from buffer pos with
      | Ret rest => outcome_map (finish_aggregate kind) (take_all elements rest)
      | _ => Panic
      end
  end.

(** [take_from_bytes_stream]: the value and the bytes left in the buffer. *)
Definition take_from_bytes_stream (buffer : bytes) : outcome (option (Value * bytes)) :=
  if (length buffer <? 3)%nat then Ret None
  else
    let! meta := parse_meta (parse_fuel buffer) buffer in
    match slice buffer 0 (parser_len meta) with
    | Ret chunk =>
        outcome_map (fun v => Some (v, drop (parser_len meta) buffer)) (parser_take meta chunk)
    | _ => Panic
    end.

Example decode_examples :
  take_from_bytes_stream (str "$3" ++ crlf ++ str "foo" ++ crlf ++ str ":1") =
    Ret (Some (BulkString (Some (str "foo")), str ":1")) /\
  take_from_bytes_stream (str "|1" ++ crlf ++ str "+a" ++ crlf ++ str ":90" ++ crlf ++ str ":42" ++ crlf) =
    Ret (Some (Integer 42, [])) /\
  take_from_bytes_stream (str "%1" ++ crlf ++ str "+a" ++ crlf) = Ret None /\
  take_from_bytes_stream (str "%1" ++ crlf ++ str "+a" ++ crlf ++ str "#t" ++ crlf) =
    Ret (Some (Map_ [(SimpleString (str "a"), Boolean true)], [])).
Proof. vm_compute. repeat split. Qed.

(** ** Lines do not depend on what follows *)

Lemma find_line_cons a b rest :
  find_line (a :: b :: rest) =
    if (bool_decide (a = x0d) && bool_decide (b = x0a))%bool then Some O else S <$> find_line (b :: rest).
Proof. reflexivity. Qed.

Lemma find_line_bound buffer i : find_line buffer = Some i -> (i + 2 <= length buffer)%nat.
Proof.
  revert i. induction buffer as [|a [|b rest] IH]; intros i; [done|done|].
  rewrite find_line_cons. destruct (_ && _)%bool; [intros [= <-]; cbn; lia|].
  destruct (find_line (b :: rest)) as [j|] eqn:E; [|done]. intros [= <-].
  specialize (IH j eq_refl). cbn in *. lia.
Qed.

Lemma find_line_app buffer more i : find_line buffer = Some i -> find_line (buffer ++ more) = Some i.
Proof.
  revert i. induction buffer as [|a [|b rest] IH]; intros i; [done|done|].
  cbn [app]. rewrite !find_line_cons. destruct (_ && _)%bool; [done|].
  destruct (find_line (b :: rest)) as [j|] eqn:E; [|done]. intros [= <-].
  change (b :: rest ++ more) with ((b :: rest) ++ more). by rewrite (IH j eq_refl).
Qed.

Lemma slice_from_ok (buffer : bytes) from : (from <= length buffer)%nat -> slice_from buffer from = Ret (drop from buffer).
Proof. intros H. unfold slice_from. by rewrite (proj2 (Nat.leb_le _ _) H). Qed.

Lemma slice_ok (buffer : bytes) from to : (from <= to <= length buffer)%nat ->
  slice buffer from to = Ret (take (to - from) (drop from buffer)).
Proof.
  intros [H1 H2]. unfold slice. by rewrite (proj2 (Nat.leb_le _ _) H1), (proj2 (Nat.leb_le _ _) H2).
Qed.

(** A line that was read: its length counts mode, line and line end. *)
Lemma read_line_spec b rest :
  exists o, read_line (b :: rest) = Ret o /\
  match o with
  | None => find_line rest = None
  | Some (line, len) =>
      exists i, find_line rest = Some i /\ line = take i rest /\ len = (i + 3)%nat /\
        (3 <= len <= length (b :: rest))%nat
  end.
Proof.
  unfold read_line. rewrite slice_from_ok by (cbn; lia). change (drop 1 (b :: rest)) with rest.
  destruct (find_line rest) as [i|] eqn:E; [|by exists None].
  pose proof (find_line_bound _ _ E). rewrite slice_ok by (cbn; lia). eexists. split; [done|].
  exists i. change (drop 1 (b :: rest)) with rest. split_and!; [done| |done|lia|cbn; lia]. by rewrite Nat.add_sub.
Qed.

Lemma read_line_len buffer line len : buffer <> [] ->
  read_line buffer = Ret (Some (line, len)) -> (3 <= len <= length buffer)%nat.
Proof.
  destruct buffer as [|b rest]; [done|]. intros _ E.
  destruct (read_line_spec b rest) as (o & E' & Ho). rewrite E in E'. injection E' as <-.
  by destruct Ho as (i & _ & _ & _ & ?).
Qed.

Lemma read_line_app buffer more x : buffer <> [] ->
  read_line buffer = Ret (Some x) -> read_line (buffer ++ more) = Ret (Some x).
Proof.
  destruct buffer as [|b rest]; [done|]. intros _ E.
  destruct (read_line_spec b rest) as (o & E' & Ho). rewrite E in E'. injection E' as <-.
  destruct x as [line len]. destruct Ho as (i & Hi & -> & -> & _).
  destruct (read_line_spec b (rest ++ more)) as (o & E' & Ho). cbn [app]. rewrite E'.
  rewrite (find_line_app _ _ _ Hi) in Ho. destruct o as [[line len]|]; [|done].
  destruct Ho as (j & [= <-] & -> & -> & _). apply find_line_bound in Hi.
  by rewrite take_app_le by lia.
Qed.

Lemma read_line_ret buffer : buffer <> [] -> exists o, read_line buffer = Ret o.
Proof. destruct buffer as [|b rest]; [done|]. intros _. destruct (read_line_spec b rest) as (o & E & _). eauto. Qed.

(** ** Well-formed measures *)

(** A measure whose parts lie within its length. *)
Fixpoint good (p : Parser) : Prop :=
  (3 <= parser_len p)%nat /\
  match p with
  | PInteger _ value => is_i64 value
  | PBytes len (Some (pos, n)) | PBulkError len (pos, n) | PVerbatim len (pos, n) =>
      (pos + n + 2 = len)%nat
  | PAggregate _ len (Some (pos, elements)) =>
      (pos + sum_list_with parser_len elements = len)%nat /\
      (fix all (l : list Parser) : Prop := match l with [] => True | x :: l' => good x /\ all l' end) elements
  | _ => True
  end.

Lemma good_all l :
  (fix all (l : list Parser) : Prop := match l with [] => True | x :: l' => good x /\ all l' end) l <->
  Forall good l.
Proof. induction l as [|x l IH]; [by split; [constructor|]|]. rewrite Forall_cons, IH. done. Qed.

Lemma good_len p : good p -> (3 <= parser_len p)%nat.
Proof. destruct p; cbn; by intros [? _]. Qed.

Lemma read_i64_ret buffer : buffer <> [] -> exists o, read_i64 buffer = Ret o /\
  forall v len, o = Some (v, len) -> (3 <= len <= length buffer)%nat /\ is_i64 v.
Proof.
  intros Hb. unfold read_i64. destruct (read_line_ret buffer Hb) as [[[line len]|] E]; rewrite E.
  - eexists. split; [done|]. intros v len'. destruct (from_utf8 line) as [cs|]; [|done].
    destruct (parse_i64_str _) as [z|] eqn:Ez; [|done]. intros [= <- <-].
    split; [by eapply read_line_len|by eapply parse_i64_str_range].
  - eexists. split; [done|]. done.
Qed.

Lemma read_i64_app buffer more x : buffer <> [] ->
  read_i64 buffer = Ret (Some x) -> read_i64 (buffer ++ more) = Ret (Some x).
Proof.
  intros Hb. unfold read_i64. destruct (read_line_ret buffer Hb) as [[[line len]|] E]; rewrite E; [|done].
  intros Hx. by rewrite (read_line_app _ more _ Hb E).
Qed.

(** A buffer below the largest possible allocation, [isize::MAX] bytes. *)
Definition alloc_ok (buffer : bytes) : Prop := Z.of_nat (length buffer) < i64_max.

Lemma read_blob_ret buffer an : buffer <> [] -> alloc_ok buffer ->
  exists o, read_blob buffer an = Ret o /\
  forall len pl, o = Some (len, pl) -> (3 <= len <= length buffer)%nat /\
    match pl with Some (pos, n) => (pos + n + 2 = len)%nat | None => True end.
Proof.
  intros Hb Hu. unfold alloc_ok, i64_max in Hu. unfold read_blob.
  destruct (read_i64_ret buffer Hb) as ([[v pos]|] & E & Hlen); rewrite E; [|by exists None].
  destruct (Hlen v pos eq_refl) as [Hpos Hv]. unfold is_i64, i64_max, i64_min in Hv.
  destruct (_ && _)%bool; [eexists; split; [done|]; by intros ? ? [= <- <-]|].
  destruct (Z.ltb_spec v 0); [by exists None|].
  rewrite wrap_u64_small by (unfold is_u64; lia).
  destruct (Z.ltb_spec (Z.of_nat (length buffer)) (Z.of_nat pos + v + 2)); [by exists None|].
  eexists. split; [done|]. intros len pl [= <- <-]. split; lia.
Qed.

Lemma read_blob_app buffer more an x : buffer <> [] -> 
  read_blob buffer an = Ret (Some x) -> read_blob (buffer ++ more) an = Ret (Some x).
Proof.
  intros Hb. unfold read_blob. destruct (read_i64_ret buffer Hb) as ([[v pos]|] & E & _); rewrite E; [|done].
  rewrite (read_i64_app _ more _ Hb E). destruct (_ && _)%bool; [done|]. destruct (v <? 0); [done|].
  rewrite length_app. destruct (Z.ltb_spec (Z.of_nat (length buffer)) (wrap_u64 (Z.of_nat pos + v + 2))); [done|].
  destruct (Z.ltb_spec (Z.of_nat (length buffer + length more)) (wrap_u64 (Z.of_nat pos + v + 2))); [lia|done].
Qed.

(** What one parser step promises: it returns, a measure is good and within
    the buffer, and more input does not change it. *)
Definition frame_ok (f : bytes -> outcome (option Parser)) (buffer : bytes) : Prop :=
  exists o, f buffer = Ret o /\
    match o with
    | Some p => good p /\ (parser_len p <= length buffer)%nat /\
        forall more, f (buffer ++ more) = Ret (Some p)
    | None => True
    end.

Lemma frame_of_line (f : bytes -> outcome (option Parser)) (g : bytes -> nat -> option Parser) buffer :
  (forall b, f b = let! (line, len) := read_line b in Ret (g line len)) ->
  (forall line len p, g line len = Some p -> parser_len p = len /\ ((3 <= len)%nat -> good p)) ->
  buffer <> [] -> frame_ok f buffer.
Proof.
  intros Hf Hg Hb. unfold frame_ok. rewrite Hf.
  destruct (read_line_ret buffer Hb) as [[[line len]|] E]; rewrite E; [|by exists None].
  exists (g line len). split; [done|]. destruct (g line len) as [p|] eqn:Ep; [|done].
  destruct (Hg _ _ _ Ep) as [Hlen Hgood]. pose proof (read_line_len _ _ _ Hb E).
  split_and!; [apply Hgood; lia|lia|]. intros more. by rewrite Hf, (read_line_app _ more _ Hb E), Ep.
Qed.

Lemma frame_of_blob (f : bytes -> outcome (option Parser)) an (g : nat -> option (nat * nat) -> option Parser) buffer :
  (forall b, f b = let! (len, pl) := read_blob b an in Ret (g len pl)) ->
  (forall len pl p, g len pl = Some p -> parser_len p = len /\
     ((3 <= len)%nat -> match pl with Some (pos, n) => (pos + n + 2 = len)%nat | None => True end -> good p)) ->
  buffer <> [] -> alloc_ok buffer -> frame_ok f buffer.
Proof.
  intros Hf Hg Hb Hu. unfold frame_ok. rewrite Hf.
  destruct (read_blob_ret buffer an Hb Hu) as ([[len pl]|] & E & Hlen); rewrite E; [|by exists None].
  exists (g len pl). split; [done|]. destruct (g len pl) as [p|] eqn:Ep; [|done].
  destruct (Hg _ _ _ Ep) as [Hl Hgood]. destruct (Hlen len pl eq_refl) as [H1 H2].
  split_and!; [apply Hgood; [lia|done]|lia|]. intros more. by rewrite Hf, (read_blob_app _ more _ _ Hb E), Ep.
Qed.

Lemma leaf_frames buffer : buffer <> [] -> alloc_ok buffer ->
  frame_ok parse_simple_string buffer /\ frame_ok parse_error buffer /\ frame_ok parse_integer buffer /\
  frame_ok parse_bulk_string buffer /\ frame_ok parse_null buffer /\ frame_ok parse_boolean buffer /\
  frame_ok parse_double buffer /\ frame_ok parse_big_number buffer /\ frame_ok parse_bulk_error buffer /\
  frame_ok parse_verbatim buffer.
Proof.
  intros Hb Hu. split_and!.
  - apply (frame_of_line _ (fun _ len => Some (PString len))); [done| |done]. by intros ??? [= <-].
  - apply (frame_of_line _ (fun _ len => Some (PError len))); [done| |done]. by intros ??? [= <-].
  - apply (frame_of_line _ (fun line len => let* cs := from_utf8 line in
      let* v := parse_i64_str (concat cs) in Some (PInteger len v))); [| |done].
    + intros b. unfold parse_integer, read_i64. by repeat dmatch.
    + intros line len p. destruct (from_utf8 line); [|done]. destruct (parse_i64_str _) eqn:Ez; [|done]. intros [= <-].
      split; [done|]. intros H. split; [done|]. by eapply parse_i64_str_range.
  - apply (frame_of_blob _ true (fun len pl => Some (PBytes len pl))); [done| |done|done].
    intros len pl p [= <-]. split; [done|]. by destruct pl as [[]|].
  - apply (frame_of_line _ (fun line len => match line with [] => Some (PNull len) | _ => None end)); [done| |done].
    intros line len p. dmatch; by intros [= <-].
  - apply (frame_of_line _ (fun line len => if bool_decide (line = str "t") then Some (PBoolean len true)
      else if bool_decide (line = str "f") then Some (PBoolean len false) else None)); [done| |done].
    intros line len p. repeat dmatch; by intros [= <-].
  - apply (frame_of_line _ (fun line len => let* text := from_utf8 line in
      let* v := parse_double_text (concat text) in Some (PDouble len v))); [done| |done].
    intros line len p. destruct (from_utf8 line); [|done]. destruct (parse_double_text _); [|done]. by intros [= <-].
  - apply (frame_of_line _ (fun line len =>
      match match line with x2b :: r | x2d :: r => r | _ => line end with
      | [] => None
      | digits => if forallb is_digit digits then Some (PBigNumber len) else None
      end)).
    + intros b. unfold parse_big_number. destruct (read_line b) as [[[line len]|]| |]; try done.
      cbv zeta. by destruct (match line with x2b :: r | x2d :: r => r | _ => line end).
    + intros line len p. destruct (match line with x2b :: r | x2d :: r => r | _ => line end); [done|].
      destruct (forallb _ _); [|done]. by intros [= <-].
    + done.
  - apply (frame_of_blob _ false (fun len pl => let* pl' := pl in Some (PBulkError len pl'))); [done| |done|done].
    intros len [[pos n]|] p; [|done]. by intros [= <-].
  - apply (frame_of_blob _ false (fun len pl => let* pl' := pl in Some (PVerbatim len pl'))); [done| |done|done].
    intros len [[pos n]|] p; [|done]. by intros [= <-].
Qed.

Lemma leaf_mode_ok mode f buffer : frame_mode mode = Some (Leaf f) ->
  buffer <> [] -> alloc_ok buffer -> frame_ok f buffer.
Proof.
  intros Hm Hb Hu. destruct (leaf_frames buffer Hb Hu) as (H1 & H2 & H3 & H4 & H5 & H6 & H7 & H8 & H9 & H10).
  unfold frame_mode in Hm. repeat (case_match; try discriminate); by injection Hm as <-.
Qed.

(** ** The recursive parser *)

(** What a run with some fuel promises about a measured frame: it is good,
    lies in the buffer, and more input or more fuel does not change it. *)
Definition meta_ok (fuel : nat) (buffer : bytes) : Prop :=
  exists o, parse_meta fuel buffer = Ret o /\
    match o with
    | Some p => good p /\ (parser_len p <= length buffer)%nat /\
        forall more fuel', (fuel <= fuel')%nat -> parse_meta fuel' (buffer ++ more) = Ret (Some p)
    | None => True
    end.

Definition elements_ok (fuel : nat) (buffer : bytes) (full : nat) (n : Z) (els : list Parser) : Prop :=
  exists o, parse_elements fuel buffer full n els = Ret o /\
    match o with
    | Some (full', els') =>
        exists new, els' = els ++ new /\ Forall good new /\
          (full' = full + sum_list_with parser_len new)%nat /\ (full' <= length buffer)%nat /\
          forall more fuel', (fuel <= fuel')%nat ->
            parse_elements fuel' (buffer ++ more) full n els = Ret (Some (full', els'))
    | None => True
    end.

Lemma aggregate_header_ret buffer kind : buffer <> [] ->
  exists o, aggregate_header buffer kind = Ret o /\
    forall pos n, o = Some (pos, n) -> (3 <= pos <= length buffer)%nat.
Proof.
  intros Hb. unfold aggregate_header.
  destruct (read_i64_ret buffer Hb) as ([[v pos]|] & E & Hlen); rewrite E; [|by exists None].
  destruct (Hlen v pos eq_refl) as [Hpos _].
  destruct (_ && _)%bool; [eexists; split; [done|]; by intros ?? [= <- <-]|].
  destruct (v <? 0); [by exists None|].
  destruct kind; try destruct (2 * v <=? u64_max); eexists; (split; [done|]); by intros ?? [= <- <-].
Qed.

Lemma aggregate_header_app buffer more kind x : buffer <> [] ->
  aggregate_header buffer kind = Ret (Some x) -> aggregate_header (buffer ++ more) kind = Ret (Some x).
Proof.
  intros Hb. unfold aggregate_header.
  destruct (read_i64_ret buffer Hb) as ([[v pos]|] & E & Hlen); rewrite E; [|done].
  by rewrite (read_i64_app _ more _ Hb E).
Qed.

Lemma alloc_drop buffer n : alloc_ok buffer -> alloc_ok (drop n buffer).
Proof. unfold alloc_ok. rewrite length_drop. lia. Qed.

Lemma slice_from_app (buffer more : bytes) n : (n <= length buffer)%nat ->
  slice_from (buffer ++ more) n = Ret (drop n buffer ++ more).
Proof. intros H. rewrite slice_from_ok by (rewrite length_app; lia). by rewrite drop_app_le. Qed.

Lemma elements_step fuel buffer full n els : alloc_ok buffer -> (full <= length buffer)%nat ->
  (2 * (length buffer - full) + 2 <= S fuel)%nat ->
  (forall b, alloc_ok b -> (2 * length b + 1 <= fuel)%nat -> meta_ok fuel b) ->
  (forall full' n' els', (full' <= length buffer)%nat -> (2 * (length buffer - full') + 2 <= fuel)%nat ->
     elements_ok fuel buffer full' n' els') ->
  elements_ok (S fuel) buffer full n els.
Proof.
  intros Hu Hfull Hfuel IHm IHe. unfold elements_ok. cbn [parse_elements].
  destruct (n <=? 0) eqn:Hn.
  { eexists. split; [done|]. exists []. rewrite app_nil_r. split_and!; [done|done|cbn; lia|done|].
    intros more [|fuel'] Hf; [lia|]. cbn [parse_elements]. by rewrite Hn. }
  rewrite slice_from_ok by done.
  destruct (IHm (drop full buffer)) as (o & E & Ho); [by apply alloc_drop|rewrite length_drop; lia|].
  rewrite E. destruct o as [p|]; [|by exists None].
  destruct Ho as (Hgood & Hlen & Hmore). rewrite length_drop in Hlen. pose proof (good_len p Hgood).
  destruct (IHe (full + parser_len p)%nat (n - 1) (els ++ [p])) as (o & E' & Ho); [lia|lia|].
  rewrite E'. exists o. split; [done|]. destruct o as [[full' els']|]; [|done].
  destruct Ho as (new & -> & Hnew & -> & Hle & Happ). exists (p :: new).
  split_and!; [by rewrite <- (assoc_L (++))|by constructor|cbn; lia|done|].
  intros more [|fuel'] Hf; [lia|]. cbn [parse_elements]. rewrite Hn, slice_from_app by done.
  rewrite Hmore by lia. apply Happ. lia.
Qed.

(** The body of [parse_aggregate] over the element loop. *)
Definition aggregate_of (fuel : nat) (buffer : bytes) (kind : AggregateKind) : outcome (option Parser) :=
  let! (pos, count) := aggregate_header buffer kind in
  match count with
  | None => Ret (Some (PAggregate kind pos None))
  | Some n =>
      let! (full, elements) := parse_elements fuel buffer pos n [] in
      Ret (Some (PAggregate kind full (Some (pos, elements))))
  end.

Lemma aggregate_step fuel buffer kind : buffer <> [] -> (2 * length buffer <= fuel + 4)%nat ->
  (forall full' n' els', (full' <= length buffer)%nat -> (2 * (length buffer - full') + 2 <= fuel)%nat ->
     elements_ok fuel buffer full' n' els') ->
  exists o, aggregate_of fuel buffer kind = Ret o /\
    match o with
    | Some p => good p /\ (parser_len p <= length buffer)%nat /\
        forall more fuel', (fuel <= fuel')%nat -> aggregate_of fuel' (buffer ++ more) kind = Ret (Some p)
    | None => True
    end.
Proof.
  intros Hb Hfuel IHe. unfold aggregate_of.
  destruct (aggregate_header_ret buffer kind Hb) as ([[pos count]|] & E & Hh); rewrite E; [|by exists None].
  specialize (Hh pos count eq_refl).
  assert (Happ : forall more, aggregate_header (buffer ++ more) kind = Ret (Some (pos, count)))
    by (intros; by apply aggregate_header_app).
  destruct count as [n|].
  - destruct (IHe pos n []) as (o & E' & Ho); [lia|lia|]. rewrite E'.
    destruct o as [[full els]|]; [|by exists None]. destruct Ho as (new & -> & Hnew & -> & Hle & Hmore).
    cbn [app] in *. eexists. split; [done|]. cbn [parser_len]. split_and!; [|done|].
    + cbn. rewrite good_all. split_and!; [lia|lia|done].
    + intros more fuel' Hf. by rewrite Happ, Hmore.
  - eexists. split; [done|]. cbn [parser_len]. split_and!; [cbn; split; [lia|done]|lia|].
    intros more fuel' Hf. by rewrite Happ.
Qed.

Lemma parse_meta_S fuel buffer :
  parse_meta (S fuel) buffer =
    if (length buffer <? 3)%nat then Ret None
    else
      match buffer with
      | [] => Ret None
      | mode :: _ =>
          match frame_mode mode with
          | None => Ret None
          | Some (Leaf parse) => parse buffer
          | Some (Aggregate kind) => aggregate_of fuel buffer kind
          | Some Attribute =>
              let! attrs := aggregate_of fuel buffer AAttribute in
              match attrs with
              | PAggregate _ attr_len (Some (pos, elements)) =>
                  match slice_from buffer attr_len with
                  | Ret rest =>
                      let! inner := parse_meta fuel rest in
                      Ret (Some (PAggregate AAttribute (attr_len + parser_len inner)
                                   (Some (pos, elements ++ [inner]))))
                  | _ => Panic
                  end
              | _ => Ret None
              end
          end
      end.
Proof. reflexivity. Qed.

Lemma meta_step fuel buffer : alloc_ok buffer -> (2 * length buffer + 1 <= S fuel)%nat ->
  (forall b, alloc_ok b -> (2 * length b + 1 <= fuel)%nat -> meta_ok fuel b) ->
  (forall full' n' els', (full' <= length buffer)%nat -> (2 * (length buffer - full') + 2 <= fuel)%nat ->
     elements_ok fuel buffer full' n' els') ->
  meta_ok (S fuel) buffer.
Proof.
  intros Hu Hfuel IHm IHe. unfold meta_ok. rewrite parse_meta_S.
  destruct (Nat.ltb_spec (length buffer) 3) as [|H3]; [by exists None|].
  destruct buffer as [|mode rest]; [by exists None|]. set (buffer := mode :: rest) in *.
  assert (Hb : buffer <> []) by done.
  assert (H3' : forall more, (length (buffer ++ more) <? 3)%nat = false)
    by (intros; apply Nat.ltb_ge; rewrite length_app; lia).
  destruct (frame_mode mode) as [[parse|kind|]|] eqn:Em; [| | |by exists None].
  - destruct (leaf_mode_ok mode parse buffer Em Hb Hu) as (o & E & Ho). exists o. split; [done|].
    destruct o as [p|]; [|done]. destruct Ho as (Hg & Hl & Happ). split_and!; [done|done|].
    intros more [|f] Hf; [lia|]. rewrite parse_meta_S, H3'. cbn [app buffer]. rewrite Em. apply Happ.
  - destruct (aggregate_step fuel buffer kind Hb) as (o & E & Ho); [lia|done|]. exists o. split; [done|].
    destruct o as [p|]; [|done]. destruct Ho as (Hg & Hl & Happ). split_and!; [done|done|].
    intros more [|f] Hf; [lia|]. rewrite parse_meta_S, H3'. cbn [app buffer]. rewrite Em. apply Happ. lia.
  - destruct (aggregate_step fuel buffer AAttribute Hb) as (o & E & Ho); [lia|done|]. rewrite E.
    destruct o as [p|]; [|by exists None]. destruct Ho as (Hg & Hl & Happ).
    destruct p as [| | | | | | | | | |k attr_len [[pos els]|]]; try (by exists None). cbn [parser_len] in Hl.
    rewrite slice_from_ok by done. pose proof (good_len _ Hg) as Hal. cbn [parser_len] in Hal.
    destruct (IHm (drop attr_len buffer)) as (o & E' & Ho); [by apply alloc_drop|rewrite length_drop; lia|].
    rewrite E'. destruct o as [inner|]; [|by exists None]. destruct Ho as (Hgi & Hli & Hmi).
    rewrite length_drop in Hli. eexists. split; [done|]. cbn [parser_len]. split_and!; [|lia|].
    + cbn in Hg |- *. rewrite good_all in Hg |- *. destruct Hg as (_ & Hsum & Hall).
      rewrite sum_list_with_app. cbn. split_and!; [lia|lia|]. apply Forall_app. by split; [|constructor].
    + intros more [|f] Hf; [lia|]. rewrite parse_meta_S, H3'. cbn [app buffer]. rewrite Em.
      change (mode :: rest ++ more) with (buffer ++ more). rewrite Happ by lia.
      rewrite slice_from_app by done. by rewrite Hmi by lia.
Qed.

Lemma parse_ok fuel :
  (forall buffer, alloc_ok buffer -> (2 * length buffer + 1 <= fuel)%nat -> meta_ok fuel buffer) /\
  (forall buffer full n els, alloc_ok buffer -> (full <= length buffer)%nat ->
     (2 * (length buffer - full) + 2 <= fuel)%nat -> elements_ok fuel buffer full n els).
Proof.
  induction fuel as [|fuel [IHm IHe]]; [split; intros; lia|]. split.
  - intros buffer Hu Hf. apply meta_step; [done|done|done|]. intros. by apply IHe.
  - intros buffer full n els Hu Hfull Hf. apply elements_step; [done|done|done|done|]. intros. by apply IHe.
Qed.

(** ** Building the value never reads past the frame *)

Definition is_leaf (p : Parser) : Prop :=
  match p with PAggregate _ _ (Some _) => False | _ => True end.

Lemma Parser_nested_ind (P : Parser -> Prop) :
  (forall p, is_leaf p -> P p) ->
  (forall kind len pos els, Forall P els -> P (PAggregate kind len (Some (pos, els)))) ->
  forall p, P p.
Proof.
  intros Hleaf Hagg. fix IH 1. intros p.
  destruct p as [| | | | | | | | | |kind len [[pos els]|]]; try (apply Hleaf; exact I).
  apply Hagg. induction els as [|x els IHl]; constructor; [apply IH|apply IHl].
Qed.

(** The element loop of [take]. *)
Fixpoint take_all (ps : list Parser) (buffer : bytes) : outcome (list Value) :=
  match ps with
  | [] => Ret []
  | p :: ps' =>
      match slice buffer 0 (parser_len p) with
      | Ret chunk =>
          match parser_take p chunk with
          | Ret v => outcome_map (cons v) (take_all ps' (drop (parser_len p) buffer))
          | _ => Panic
          end
      | _ => Panic
      end
  end.

Lemma parser_take_aggregate kind len pos els buffer :
  parser_take (PAggregate kind len (Some (pos, els))) buffer =
    match slice_from buffer pos with
    | Ret rest => outcome_map (finish_aggregate kind) (take_all els rest)
    | _ => Panic
    end.
Proof.
  cbn [parser_take]. destruct (slice_from buffer pos) as [rest| |]; [|done|done]. reflexivity.
Qed.

Lemma slice_prefix (buffer : bytes) n : (n <= length buffer)%nat -> slice buffer 0 n = Ret (take n buffer).
Proof. intros H. rewrite slice_ok by lia. by rewrite drop_0, Nat.sub_0_r. Qed.

Lemma take_all_ok els buffer :
  Forall (fun p => forall b, good p -> length b = parser_len p -> exists v, parser_take p b = Ret v) els ->
  Forall good els -> (sum_list_with parser_len els <= length buffer)%nat ->
  exists vs, take_all els buffer = Ret vs.
Proof.
  intros Hp. revert buffer. induction Hp as [|p els Hp Hels IH]; intros buffer Hg Hsum; [by eexists|].
  apply Forall_cons in Hg as [Hgp Hg]. cbn in Hsum. cbn [take_all]. rewrite slice_prefix by lia.
  destruct (Hp (take (parser_len p) buffer) Hgp) as [v ->]; [rewrite length_take; lia|].
  destruct (IH (drop (parser_len p) buffer) Hg) as [vs ->]; [rewrite length_drop; lia|]. by eexists.
Qed.

Lemma parser_take_ok p buffer : good p -> length buffer = parser_len p ->
  exists v, parser_take p buffer = Ret v.
Proof.
  revert buffer. induction p as [p Hleaf|kind len pos els IH] using Parser_nested_ind; intros buffer Hg Hlen.
  - pose proof (good_len _ Hg) as H3.
    destruct p as [n|n|n z|n [[pos l]|]|n [pos l]|n [pos l]|n|n b|n d|n|k n [[]|]]; cbn in *; try done;
      try (by eexists); unfold blob; destruct Hg as [_ Hg]; cbn in *.
    + rewrite slice_ok by lia. by eexists.
    + rewrite slice_ok by lia. by eexists.
    + rewrite slice_ok by lia. rewrite (proj2 (Nat.leb_le _ _)) by lia. by eexists.
    + rewrite slice_ok by lia. by eexists.
    + rewrite slice_ok by lia. by eexists.
    + rewrite slice_ok by lia. by eexists.
  - rewrite parser_take_aggregate. cbn in Hg, Hlen. rewrite good_all in Hg. destruct Hg as (H3 & Hsum & Hall).
    rewrite slice_from_ok by lia.
    destruct (take_all_ok els (drop pos buffer)) as [vs ->]; [|done|rewrite length_drop; lia|by eexists].
    eapply Forall_impl; [exact IH|]. intros p Hp b. apply Hp.
Qed.

(** A decode that delivers: the frame's measure, its bytes and the value. *)
Lemma decode_inv buffer : alloc_ok buffer ->
  exists o, take_from_bytes_stream buffer = Ret o /\
    match o with
    | None => True
    | Some (v, rest) =>
        exists p, parse_meta (parse_fuel buffer) buffer = Ret (Some p) /\ good p /\ (3 <= parser_len p <= length buffer)%nat /\
          parser_take p (take (parser_len p) buffer) = Ret v /\ rest = drop (parser_len p) buffer /\
          forall more fuel', (parse_fuel buffer <= fuel')%nat -> parse_meta fuel' (buffer ++ more) = Ret (Some p)
    end.
Proof.
  intros Hu. unfold take_from_bytes_stream.
  destruct (Nat.ltb_spec (length buffer) 3); [by exists None|].
  destruct (proj1 (parse_ok (parse_fuel buffer)) buffer Hu) as (o & E & Ho); [unfold parse_fuel; lia|].
  rewrite E. destruct o as [p|]; [|by exists None]. destruct Ho as (Hg & Hl & Hmore).
  rewrite slice_prefix by done.
  destruct (parser_take_ok p (take (parser_len p) buffer) Hg) as [v Hv]; [rewrite length_take; lia|].
  rewrite Hv. eexists. split; [done|]. exists p. pose proof (good_len p Hg). split_and!; done || lia.
Qed.

(** C20: on any bytes a client may send the decoder terminates without reading
    out of range (no panic, no stuck recursion), and when it delivers a value it
    has consumed a front part of the buffer of at least three bytes and left
    the rest untouched. *)
Theorem decode_total (buffer : bytes) : alloc_ok buffer ->
  exists o, take_from_bytes_stream buffer = Ret o /\
    forall v rest, o = Some (v, rest) ->
      exists frame, buffer = frame ++ rest /\ (3 <= length frame)%nat.
Proof.
  intros Hu. destruct (decode_inv buffer Hu) as (o & E & Ho). exists o. split; [done|].
  intros v rest ->. destruct Ho as (p & _ & _ & Hlen & _ & -> & _). exists (take (parser_len p) buffer).
  split; [by rewrite take_drop|]. rewrite length_take. lia.
Qed.

Lemma decode_app buffer more v rest : alloc_ok buffer ->
  take_from_bytes_stream buffer = Ret (Some (v, rest)) ->
  take_from_bytes_stream (buffer ++ more) = Ret (Some (v, rest ++ more)).
Proof.
  intros Hu Hd. destruct (decode_inv buffer Hu) as (o & E & Ho). rewrite Hd in E. injection E as <-.
  destruct Ho as (p & _ & _ & Hlen & Hv & -> & Hmore). unfold take_from_bytes_stream.
  rewrite (proj2 (Nat.ltb_ge _ _)) by (rewrite length_app; lia).
  rewrite Hmore by (unfold parse_fuel; rewrite length_app; lia).
  rewrite slice_prefix by (rewrite length_app; lia). rewrite take_app_le by lia. rewrite Hv. cbn.
  by rewrite drop_app_le by lia.
Qed.

(** The decoder is insensitive to how the stream is cut into reads: once it
    delivers a value, bytes arriving behind it change neither the value nor
    what was consumed. *)
Theorem decode_incremental (buffer more : bytes) (v : Value) (rest : bytes) :
  alloc_ok buffer ->
  take_from_bytes_stream buffer = Ret (Some (v, rest)) ->
  take_from_bytes_stream (buffer ++ more) = Ret (Some (v, rest ++ more)).
Proof. apply decode_app. Qed.

(** ** What a decoded value can be *)

(** Its integers are 64-bit integers, and its arrays have at most [n] elements. *)
Fixpoint value_wf (n : nat) (v : Value) : Prop :=
  match v with
  | Integer i => is_i64 i
  | Array (Some l) =>
      (length l <= n)%nat /\ (fix all (l : list Value) : Prop := match l with [] => True | x :: l' => value_wf n x /\ all l' end) l
  | _ => True
  end.

Lemma value_wf_all n l :
  (fix all (l : list Value) : Prop := match l with [] => True | x :: l' => value_wf n x /\ all l' end) l <-> Forall (value_wf n) l.
Proof. induction l as [|x l IH]; [by split; [constructor|]|]. rewrite Forall_cons, IH. done. Qed.

Lemma take_all_inv els : forall buffer vs (P : Value -> Prop),
  Forall (fun p => forall b v, parser_take p b = Ret v -> P v) els -> take_all els buffer = Ret vs ->
  Forall P vs /\ length vs = length els.
Proof.
  induction els as [|p els IH]; intros buffer vs P Hp H; cbn [take_all] in H; [by injection H as <-|].
  apply Forall_cons in Hp as [Hp Hels]. destruct (slice buffer 0 (parser_len p)) as [chunk| |]; [|done..].
  destruct (parser_take p chunk) as [v| |] eqn:Ev; [|done..].
  destruct (take_all els _) as [vs'| |] eqn:Es; [|done..]. injection H as <-.
  destruct (IH _ _ P Hels Es) as [H1 H2]. split; [constructor; [by eapply Hp|done]|cbn; by rewrite H2].
Qed.

Lemma good_sum els : Forall good els -> (length els <= sum_list_with parser_len els)%nat.
Proof. induction 1 as [|p els Hp _ IH]; [done|]. cbn. pose proof (good_len p Hp). lia. Qed.

Lemma elem_sum (p : Parser) els : p ∈ els -> (parser_len p <= sum_list_with parser_len els)%nat.
Proof. induction 1 as [|x y l _ IH]; cbn; lia. Qed.

Lemma parser_take_wf n p : good p -> (parser_len p <= n)%nat ->
  forall buffer v, parser_take p buffer = Ret v -> value_wf n v.
Proof.
  induction p as [p Hleaf|kind len pos els IH] using Parser_nested_ind; intros Hg Hn buffer v H.
  - destruct p as [m|m|m z|m [[pos l]|]|m [pos l]|m [pos l]|m|m b|m d|m|k m [[]|]]; cbn in H; try done;
      try (by injection H as <-); try (by destruct (slice _ _ _); [injection H as <-|..]).
    + injection H as <-. apply Hg.
    + destruct (blob _ _); [|done..]. destruct (_ <=? _)%nat; [by injection H as <-|done].
    + destruct (blob _ _); [by injection H as <-|done..].
    + destruct (blob _ _); [|done..]. injection H as <-. unfold verbatim_value. by destruct (_ && _)%bool.
  - rewrite parser_take_aggregate in H. cbn in Hg, Hn. rewrite good_all in Hg. destruct Hg as (H3 & Hsum & Hall).
    destruct (slice_from buffer pos) as [rest| |]; [|done..]. destruct (take_all els rest) as [vs| |] eqn:Et; [|done..].
    injection H as <-. destruct (take_all_inv els rest vs (value_wf n)) as [Hvs Hlen]; [|done|].
    { apply Forall_forall. intros p Hp. apply (proj1 (Forall_forall _ _) IH p Hp); [by eapply Forall_forall|].
      pose proof (elem_sum p els Hp). lia. }
    destruct kind; try done.
    + cbn. split; [pose proof (good_sum els Hall); lia|]. by apply value_wf_all.
    + cbn. destruct (last vs) as [x|] eqn:El; [|done]. apply last_Some_elem_of in El. by eapply Forall_forall.
Qed.

Lemma decode_wf buffer v rest : alloc_ok buffer -> take_from_bytes_stream buffer = Ret (Some (v, rest)) ->
  value_wf (length buffer) v.
Proof.
  intros Hu Hd. destruct (decode_inv buffer Hu) as (o & E & Ho). rewrite Hd in E. injection E as <-.
  destruct Ho as (p & _ & Hg & Hlen & Hv & _). refine (parser_take_wf _ p Hg _ _ _ Hv). lia.
Qed.

(** ** Decoding what the encoder wrote *)

Lemma Value_nested_ind (P : Value -> Prop) :
  (forall s, P (SimpleString s)) -> (forall e, P (Error e)) -> (forall i, P (Integer i)) ->
  (forall o, P (BulkString o)) -> P (Array None) -> (forall l, Forall P l -> P (Array (Some l))) ->
  P Null -> (forall l, Forall (fun kv => P kv.1 /\ P kv.2) l -> P (Map_ l)) ->
  (forall l, Forall P l -> P (Set_ l)) -> (forall l, Forall P l -> P (Push l)) ->
  (forall b, P (Boolean b)) -> (forall d, P (Double d)) -> (forall n, P (BigNumber n)) ->
  (forall f d, P (VerbatimString f d)) -> (forall e, P (BulkError e)) ->
  (forall l, P (MemberScores l)) -> (forall l, Forall P l -> P (Batch l)) ->
  forall v, P v.
Proof.
  intros H1 H2 H3 H4 H5 H6 H7 H8 H9 H10 H11 H12 H13 H14 H15 H16 H17. fix IH 1.
  intros v. destruct v as [s|e|i|o|[l|]| |l|l|l|b|d|n|f d|e|l|l]; try (clear IH; by auto).
  - apply H6. clear -IH. induction l as [|x l IHl]; constructor; [apply IH|apply IHl].
  - apply H8. clear -IH. induction l as [|[k x] l IHl]; constructor; [split; apply IH|apply IHl].
  - apply H9. clear -IH. induction l as [|x l IHl]; constructor; [apply IH|apply IHl].
  - apply H10. clear -IH. induction l as [|x l IHl]; constructor; [apply IH|apply IHl].
  - apply H17. clear -IH. induction l as [|x l IHl]; constructor; [apply IH|apply IHl].
Qed.

(** Text that a line can carry: valid UTF-8 without a line end inside. *)
Definition line_text (s : bytes) : Prop := find_line s = None /\ from_utf8_lossy s = s.

(** The values a protocol version can carry without loss: RESP2 has no type of
    its own for nulls inside replies, booleans, maps and the like, and RESP3
    has only one null. A double is any value of binary64. Score lists and
    batches are left out: they come back as another kind of value. *)
Fixpoint wire_ok (proto : Z) (v : Value) : Prop :=
  let all := fix all (l : list Value) : Prop :=
    match l with [] => True | x :: l' => wire_ok proto x /\ all l' end in
  let all_pairs := fix all_pairs (l : list (Value * Value)) : Prop :=
    match l with [] => True | (k, x) :: l' => (wire_ok proto k /\ wire_ok proto x) /\ all_pairs l' end in
  match v with
  | SimpleString s | Error s => line_text s
  | Integer i => is_i64 i
  | BulkString (Some _) => True
  | BulkString None | Array None => (proto =? 3) = false
  | Array (Some l) => all l
  | Null => (proto =? 3) = true
  | Set_ l | Push l => (proto =? 3) = true /\ all l
  | Map_ l => (proto =? 3) = true /\ all_pairs l
  | Boolean _ => (proto =? 3) = true
  | BigNumber n => (proto =? 3) = true /\ n <> [] /\ forallb is_digit n = true
  | VerbatimString f _ => (proto =? 3) = true /\ length f = 3%nat /\ from_utf8_lossy f = f
  | BulkError e => (proto =? 3) = true /\ from_utf8_lossy e = e
  | Double d => (proto =? 3) = true /\ valid_binary 53 1024 d = true
  | MemberScores _ | Batch _ => False
  end.

Lemma find_line_end s more : find_line s = None -> find_line (s ++ crlf ++ more) = Some (length s).
Proof.
  induction s as [|a [|b s] IH]; intros Hs; [done| |].
  - cbn [app]. unfold crlf. cbn [app]. rewrite find_line_cons.
    replace (bool_decide (x0d = x0a)) with false by (vm_compute; reflexivity). by rewrite andb_false_r.
  - cbn [app] in *. rewrite find_line_cons in *. destruct (_ && _)%bool; [done|].
    destruct (find_line (b :: s)) eqn:E; [done|]. by rewrite (IH eq_refl).
Qed.

Lemma read_line_put mode s more : find_line s = None ->
  read_line (mode :: s ++ crlf ++ more) = Ret (Some (s, (length s + 3)%nat)).
Proof.
  intros Hs. destruct (read_line_spec mode (s ++ crlf ++ more)) as (o & E & Ho). rewrite E.
  rewrite (find_line_end _ _ Hs) in Ho. destruct o as [[line len]|]; [|done].
  destruct Ho as (i & [= <-] & -> & -> & _). by rewrite take_app_length.
Qed.

Lemma num_no_line s : Forall (fun b => is_num_byte b = true) s -> find_line s = None.
Proof.
  induction 1 as [|a s Ha Hs IH]; [done|]. destruct s as [|b s]; [done|]. rewrite find_line_cons, IH.
  destruct a; try done; vm_compute in Ha; discriminate.
Qed.

Lemma read_i64_put mode z more : is_i64 z ->
  read_i64 (mode :: i64_to_string z ++ crlf ++ more) = Ret (Some (z, (length (i64_to_string z) + 3)%nat)).
Proof.
  intros Hz. unfold read_i64. rewrite read_line_put by apply num_no_line, i64_to_string_num.
  pose proof (parse_i64_to_string z Hz) as Hp. unfold parse_i64 in Hp.
  pose proof (i64_to_string_num z) as Hnum.
  rewrite from_utf8_ascii.
  - by rewrite concat_singletons, parse_i64_str_to_string.
  - eapply Forall_impl; [exact Hnum|]. intros b Hb. by apply num_byte_props.
Qed.

Lemma len_str_i64 {A} (l : list A) : len_str l = i64_to_string (Z.of_nat (length l)).
Proof. unfold len_str, i64_to_string. destruct (Z.ltb_spec (Z.of_nat (length l)) 0); [lia|done]. Qed.

(** The encoding of [v] is measured whole and gives back [v]. *)
Definition decodes (proto : Z) (v : Value) : Prop :=
  let enc := encode_to proto v in
  alloc_ok enc -> exists p,
    parse_meta (parse_fuel enc) enc = Ret (Some p) /\ parser_len p = length enc /\ parser_take p enc = Ret v.

(** Leaf frames: what remains is the measure of the frame. *)
Lemma decodes_leaf proto v mode rest f p :
  encode_to proto v = mode :: rest -> frame_mode mode = Some (Leaf f) ->
  (alloc_ok (encode_to proto v) -> f (mode :: rest) = Ret (Some p) /\ parser_len p = length (mode :: rest) /\
     parser_take p (mode :: rest) = Ret v) ->
  (3 <= length (mode :: rest))%nat -> decodes proto v.
Proof.
  intros E Hm Hf H3. unfold decodes. cbv zeta. intros Hu. specialize (Hf Hu). rewrite E in *.
  destruct Hf as (H1 & H2 & H4). exists p. split; [|done]. unfold parse_fuel.
  rewrite parse_meta_S, (proj2 (Nat.ltb_ge _ _)) by done. by rewrite Hm.
Qed.

Lemma decodes_line proto v mode s (mk : nat -> Parser) f :
  encode_to proto v = put_line mode s -> frame_mode mode = Some (Leaf f) ->
  (forall line len b, read_line b = Ret (Some (line, len)) -> line = s -> f b = Ret (Some (mk len))) ->
  (forall len, parser_len (mk len) = len) ->
  parser_take (mk (length s + 3)%nat) (put_line mode s) = Ret v ->
  find_line s = None -> decodes proto v.
Proof.
  intros E Hm Hf Hlen Htake Hs. eapply (decodes_leaf proto v mode (s ++ crlf)); [done|done| |cbn; rewrite length_app; cbn; lia].
  intros _. assert (Hr : read_line (mode :: s ++ crlf) = Ret (Some (s, (length s + 3)%nat))).
  { rewrite <- (app_nil_r crlf). by apply read_line_put. }
  split_and!; [by eapply Hf|rewrite Hlen; cbn; rewrite length_app; cbn; lia|done].
Qed.

Lemma take_line mode s : slice (put_line mode s) 1 (length s + 3 - 2) = Ret s.
Proof.
  unfold put_line. rewrite slice_ok by (cbn; rewrite length_app; cbn; lia).
  change (drop 1 (mode :: s ++ crlf)) with (s ++ crlf).
  by replace (length s + 3 - 2 - 1)%nat with (length s) by lia; rewrite take_app_length.
Qed.

(** Blobs: a length line, the payload and a line end. *)
Definition put_blob (mode : byte) (payload : bytes) : bytes := mode :: len_str payload ++ crlf ++ payload ++ crlf.

Lemma put_blob_length mode payload :
  length (put_blob mode payload) = (length (len_str payload) + 3 + length payload + 2)%nat.
Proof. unfold put_blob. cbn [length]. rewrite !length_app. cbn. lia. Qed.

Lemma read_blob_put mode payload an : alloc_ok (put_blob mode payload) ->
  read_blob (put_blob mode payload) an =
    Ret (Some (length (put_blob mode payload), Some ((length (len_str payload) + 3)%nat, length payload))).
Proof.
  intros Hu. unfold alloc_ok in Hu. pose proof (put_blob_length mode payload) as Hlen. unfold i64_max in Hu.
  unfold read_blob. unfold put_blob at 1. rewrite len_str_i64.
  rewrite read_i64_put by (unfold is_i64, i64_min, i64_max; lia). rewrite <- len_str_i64.
  rewrite (proj2 (Z.eqb_neq _ _)) by lia. cbn [andb]. rewrite (proj2 (Z.ltb_ge _ _)) by lia.
  rewrite wrap_u64_small by (unfold is_u64; lia). rewrite (proj2 (Z.ltb_ge _ _)) by lia.
  do 3 f_equal; [lia|]. f_equal. f_equal. lia.
Qed.

Lemma blob_put mode payload :
  blob (put_blob mode payload) ((length (len_str payload) + 3)%nat, length payload) = Ret payload.
Proof.
  unfold blob. cbn [fst snd]. pose proof (put_blob_length mode payload) as Hlen. rewrite slice_ok by lia.
  rewrite Nat.add_comm, Nat.add_sub. f_equal. unfold put_blob.
  replace (mode :: len_str payload ++ crlf ++ payload ++ crlf) with
    ((mode :: len_str payload ++ crlf) ++ payload ++ crlf) by (cbn; by rewrite <- (assoc_L (++))).
  rewrite drop_app_length' by (cbn; rewrite length_app; cbn; lia). by rewrite take_app_length.
Qed.

Lemma decodes_blob proto v mode payload f (mk : nat -> nat * nat -> Parser) an :
  encode_to proto v = put_blob mode payload -> frame_mode mode = Some (Leaf f) ->
  (forall b len pl, read_blob b an = Ret (Some (len, Some pl)) -> f b = Ret (Some (mk len pl))) ->
  (forall len pl, parser_len (mk len pl) = len) ->
  (parser_take (mk (length (put_blob mode payload)) ((length (len_str payload) + 3)%nat, length payload))
     (put_blob mode payload) = Ret v) ->
  decodes proto v.
Proof.
  intros E Hm Hf Hlen Htake. eapply (decodes_leaf proto v mode); [done|done| |].
  - intros Hu. rewrite E in Hu. split_and!; [|rewrite Hlen; reflexivity|exact Htake].
    apply (Hf (put_blob mode payload)). by apply read_blob_put.
  - change (3 <= length (put_blob mode payload))%nat. rewrite put_blob_length. lia.
Qed.

Lemma decodes_leaves proto :
  (forall s, line_text s -> decodes proto (SimpleString s)) /\
  (forall s, line_text s -> decodes proto (Error s)) /\
  (forall i, is_i64 i -> decodes proto (Integer i)) /\
  (forall data, decodes proto (BulkString (Some data))).
Proof.
  split_and!.
  - intros s [Hs Hu]. apply (decodes_line _ _ x2b s PString parse_simple_string); try done.
    + intros line len b Hr _. unfold parse_simple_string. by rewrite Hr.
    + cbn [parser_take]. rewrite take_line. cbn. by rewrite Hu.
  - intros s [Hs Hu]. apply (decodes_line _ _ x2d s PError parse_error); try done.
    + intros line len b Hr _. unfold parse_error. by rewrite Hr.
    + cbn [parser_take]. rewrite take_line. cbn. by rewrite Hu.
  - intros i Hi. apply (decodes_line _ _ x3a (i64_to_string i) (fun len => PInteger len i) parse_integer); try done.
    + intros line len b Hr ->. unfold parse_integer, read_i64. rewrite Hr. 
      pose proof (i64_to_string_num i) as Hnum. rewrite from_utf8_ascii.
      * by rewrite concat_singletons, parse_i64_str_to_string.
      * eapply Forall_impl; [exact Hnum|]. intros b' Hb'. by apply num_byte_props.
    + apply num_no_line, i64_to_string_num.
  - intros data. apply (decodes_blob _ _ x24 data parse_bulk_string (fun len pl => PBytes len (Some pl)) true); try done.
    + intros b len pl Hr. unfold parse_bulk_string. by rewrite Hr.
    + cbn [parser_take]. rewrite blob_put. cbn [fst snd].
      rewrite (proj2 (Nat.leb_le _ _)); [done|]. rewrite put_blob_length. lia.
Qed.

Lemma decodes_nulls proto :
  ((proto =? 3) = true -> decodes proto Null) /\
  ((proto =? 3) = false -> decodes proto (BulkString None) /\ decodes proto (Array None)) /\
  (forall b, (proto =? 3) = true -> decodes proto (Boolean b)).
Proof.
  split_and!.
  - intros Hp. unfold decodes. cbn [encode_to]. rewrite Hp. exists (PNull 3). vm_compute. done.
  - intros Hp. split; unfold decodes; cbn [encode_to]; rewrite Hp.
    + exists (PBytes 5 None). vm_compute. done.
    + exists (PAggregate AArray 5 None). vm_compute. done.
  - intros b Hp. unfold decodes. cbn [encode_to]. rewrite Hp. exists (PBoolean 4 b). destruct b; vm_compute; done.
Qed.

Lemma is_digit_num s : forallb is_digit s = true -> Forall (fun b => is_num_byte b = true) s.
Proof.
  intros H. apply Forall_forall. intros b Hb. apply list_elem_of_In in Hb.
  rewrite forallb_forall in H. unfold is_num_byte. by rewrite H.
Qed.

Lemma lossy_ascii s : is_ascii s -> from_utf8_lossy s = s.
Proof.
  intros Hs. unfold from_utf8_lossy, lossy_chars. rewrite utf8_chars_ascii by done.
  rewrite <- list_fmap_compose. apply concat_singletons.
Qed.

Lemma plain_no_line s : Forall (fun b => byte_in 32 126 b = true) s -> find_line s = None.
Proof.
  induction 1 as [|a s Ha Hs IH]; [done|]. destruct s as [|b s]; [done|]. rewrite find_line_cons, IH.
  destruct a; try done; vm_compute in Ha; discriminate.
Qed.

Lemma plain_ascii s : Forall (fun b => byte_in 32 126 b = true) s -> is_ascii s.
Proof. intros H. eapply Forall_impl; [exact H|]. intros b Hb. by destruct b. Qed.

Lemma parse_double_text_format (d : f64) : valid_binary 53 1024 d = true -> parse_double_text (format_double d) = Some d.
Proof.
  intros Hv. pose proof (format_double_reads d Hv) as Hr. destruct d as [[]|[]| |neg m e]; [by vm_compute..|].
  destruct (format_finite neg m e Hv) as (s & Es & [(b & s' & -> & Hb) _ _]). unfold parse_double_text. rewrite Hr, Es.
  rewrite !bool_decide_false; [done|..]; (destruct neg; cbn; intros [= ->]; done).
Qed.

Lemma decodes_double proto d : (proto =? 3) = true -> valid_binary 53 1024 d = true -> decodes proto (Double d).
Proof.
  intros Hp Hv. pose proof (format_double_plain d Hv) as Ht.
  apply (decodes_line _ _ x2c (format_double d) (fun len => PDouble len d) parse_double); try done.
  - cbn [encode_to]. by rewrite Hp.
  - intros line len b Hr ->. unfold parse_double. rewrite Hr, from_utf8_ascii by (by apply plain_ascii).
    cbn [mbind option_bind]. by rewrite concat_singletons, parse_double_text_format.
  - by apply plain_no_line.
Qed.

Lemma decodes_resp3 proto : (proto =? 3) = true ->
  (forall n, n <> [] -> forallb is_digit n = true -> decodes proto (BigNumber n)) /\
  (forall f d, length f = 3%nat -> from_utf8_lossy f = f -> decodes proto (VerbatimString f d)) /\
  (forall e, from_utf8_lossy e = e -> decodes proto (BulkError e)).
Proof.
  intros Hp. split_and!.
  - intros n Hne Hn. pose proof (is_digit_num n Hn) as Hnum.
    apply (decodes_line _ _ x28 n PBigNumber parse_big_number); try done.
    + cbn [encode_to]. by rewrite Hp.
    + intros line len b Hr ->. unfold parse_big_number. rewrite Hr. cbv zeta.
      destruct n as [|c n]; [done|]. cbn [forallb] in Hn. apply andb_prop in Hn as [Hc Hn].
      destruct (digit_ascii c Hc) as (_ & H1 & H2).
      assert (E : match c :: n with x2b :: r | x2d :: r => r | _ => c :: n end = c :: n) by (by destruct c).
      rewrite E. cbn [forallb]. by rewrite Hc, Hn.
    + cbn [parser_take]. rewrite take_line. cbn. rewrite lossy_ascii; [done|].
      eapply Forall_impl; [exact Hnum|]. intros b Hb. by apply num_byte_props.
    + by apply num_no_line.
  - intros f d Hf Hu.
    apply (decodes_blob _ _ x3d (f ++ [x3a] ++ d) parse_verbatim PVerbatim false); try done.
    + cbn [encode_to]. rewrite Hp. unfold put_blob, len_str, format_hint. rewrite !length_app.
      rewrite take_app_le, take_ge by lia. cbn [length]. rewrite Hf.
      replace (Z.of_nat (3 + (1 + length d))) with (Z.of_nat (length d) + 4) by lia.
      by rewrite <- !(assoc_L (++)).
    + intros b len pl Hr. unfold parse_verbatim. by rewrite Hr.
    + cbn [parser_take]. rewrite blob_put. cbn [outcome_map]. unfold verbatim_value. rewrite !length_app.
      rewrite (proj2 (Nat.leb_le _ _)) by (cbn; lia).
      rewrite lookup_app_r, Hf by lia. cbn. rewrite take_app_le, take_ge by lia. rewrite Hu.
      do 2 f_equal. destruct f as [|f0 [|f1 [|f2 [|]]]]; cbn in Hf; done || lia.
  - intros e Hu. apply (decodes_blob _ _ x21 e parse_bulk_error PBulkError false); try done.
    + cbn [encode_to]. by rewrite Hp.
    + intros b len pl Hr. unfold parse_bulk_error. by rewrite Hr.
    + cbn [parser_take]. rewrite blob_put. cbn. by rewrite Hu.
Qed.

(** *** Aggregates *)

Definition encode_all (proto : Z) (vs : list Value) : bytes := concat (encode_to proto <$> vs).

Lemma decodes_more proto v rest fuel : decodes proto v -> alloc_ok (encode_to proto v) ->
  (parse_fuel (encode_to proto v) <= fuel)%nat ->
  exists p, parse_meta fuel (encode_to proto v ++ rest) = Ret (Some p) /\ good p /\
    parser_len p = length (encode_to proto v) /\ parser_take p (encode_to proto v) = Ret v.
Proof.
  intros Hd Hu Hf. destruct (Hd Hu) as (p & E & Hlen & Ht).
  destruct (proj1 (parse_ok (parse_fuel (encode_to proto v))) _ Hu) as (o & E' & Ho); [unfold parse_fuel; lia|].
  rewrite E in E'. injection E' as <-. destruct Ho as (Hg & _ & Hmore). exists p. split_and!; [by apply Hmore|done..].
Qed.

Lemma elements_decode proto vs : Forall (decodes proto) vs ->
  forall pre els fuel, alloc_ok (pre ++ encode_all proto vs) ->
  (2 * length (encode_all proto vs) + 2 <= fuel)%nat ->
  exists ps, parse_elements fuel (pre ++ encode_all proto vs) (length pre) (Z.of_nat (length vs)) els =
      Ret (Some ((length pre + length (encode_all proto vs))%nat, els ++ ps)) /\
    take_all ps (encode_all proto vs) = Ret vs.
Proof.
  induction 1 as [|v vs Hv Hvs IH]; intros pre els fuel Hu Hf.
  { destruct fuel as [|fuel]; [lia|]. exists []. cbn. rewrite !app_nil_r, Nat.add_0_r. done. }
  unfold encode_all in *. cbn [fmap list_fmap concat] in *. set (enc := encode_to proto v) in *.
  set (tl := concat (encode_to proto <$> vs)) in *. rewrite !length_app in *.
  assert (Hue : alloc_ok enc) by (unfold alloc_ok in *; rewrite !length_app in Hu; lia).
  destruct fuel as [|fuel]; [lia|]. cbn [parse_elements length].
  rewrite (proj2 (Z.leb_gt _ _)) by lia. rewrite slice_from_ok by (rewrite length_app; lia).
  rewrite drop_app_length.
  destruct (decodes_more proto v tl fuel Hv Hue) as (p & E & Hg & Hlen & Ht); [unfold parse_fuel; fold enc; lia|].
  fold enc in E, Hlen, Ht. rewrite E. pose proof (good_len p Hg).
  destruct (IH (pre ++ enc) (els ++ [p]) fuel) as (ps & E' & Hps).
  - by rewrite <- (assoc_L (++)).
  - lia.
  - rewrite <- (assoc_L (++)), length_app in E'. rewrite Hlen.
    replace (Z.of_nat (S (length vs)) - 1) with (Z.of_nat (length vs)) by lia.
    exists (p :: ps). rewrite E'. split.
    + do 2 f_equal. f_equal; [lia|]. by rewrite <- (assoc_L (++)).
    + cbn [take_all]. rewrite slice_prefix by (rewrite length_app; lia). rewrite Hlen, take_app_length, Ht.
      rewrite drop_app_length. by rewrite Hps.
Qed.

Lemma encode_all_fix proto vs :
  (fix all (l : list Value) : bytes := match l with [] => [] | x :: l' => encode_to proto x ++ all l' end) vs =
  encode_all proto vs.
Proof. induction vs as [|v vs IH]; [done|]. unfold encode_all in *. cbn. by rewrite IH. Qed.

Lemma elem_lower_bound proto vs : Forall (decodes proto) vs -> alloc_ok (encode_all proto vs) ->
  (length vs <= length (encode_all proto vs))%nat.
Proof.
  induction 1 as [|v vs Hv Hvs IH]; intros Hu; [done|].
  unfold encode_all in *. cbn [fmap list_fmap concat length] in *. rewrite length_app in *.
  unfold alloc_ok in *. rewrite length_app in Hu.
  destruct (decodes_more proto v [] (parse_fuel (encode_to proto v)) Hv) as (p & _ & Hg & Hlen & _);
    [unfold alloc_ok; lia|reflexivity|].
  pose proof (good_len p Hg). specialize (IH ltac:(lia)). lia.
Qed.

(** An aggregate frame whose header announces its children. *)
Lemma decodes_aggregate proto v mode kind header vs :
  frame_mode mode = Some (Aggregate kind) -> Forall (decodes proto) vs ->
  encode_to proto v = mode :: header ++ encode_all proto vs ->
  (alloc_ok (encode_to proto v) -> (length vs <= length (encode_all proto vs))%nat ->
   aggregate_header (mode :: header ++ encode_all proto vs) kind =
     Ret (Some (S (length header), Some (Z.of_nat (length vs))))) ->
  (2 <= length header)%nat -> finish_aggregate kind vs = v -> decodes proto v.
Proof.
  intros Hm Hvs E Hh H2 Hfin. unfold decodes. cbv zeta. intros Hu. specialize (Hh Hu). rewrite E in *.
  set (body := encode_all proto vs) in *.
  assert (Hub : alloc_ok body) by (unfold alloc_ok in *; cbn [length] in Hu; rewrite length_app in Hu; lia).
  specialize (Hh (elem_lower_bound _ _ Hvs Hub)).
  destruct (elements_decode proto vs Hvs (mode :: header) [] (2 * length (mode :: header ++ body)))
    as (ps & Eps & Hps); [done|fold body; cbn [length]; rewrite length_app; lia|].
  fold body in Eps, Hps. cbn [app] in Eps. change (length (mode :: header)) with (S (length header)) in Eps.
  exists (PAggregate kind (length (mode :: header ++ body)) (Some (S (length header), ps))).
  split_and!; [|done|].
  - unfold parse_fuel. rewrite parse_meta_S, (proj2 (Nat.ltb_ge _ _)) by (cbn [length]; rewrite length_app; lia).
    rewrite Hm. unfold aggregate_of. rewrite Hh, Eps. do 3 f_equal. cbn [length]. by rewrite length_app.
  - rewrite parser_take_aggregate, slice_from_ok by (cbn [length]; rewrite length_app; lia).
    change (mode :: header ++ body) with ((mode :: header) ++ body). rewrite drop_app_length' by done.
    rewrite Hps. cbn. by rewrite Hfin.
Qed.

Lemma header_count mode n body kind : is_i64 n -> 0 <= n ->
  (match kind with AMap | AAttribute => 2 * n <= u64_max | _ => True end) ->
  aggregate_header (mode :: (i64_to_string n ++ crlf) ++ body) kind =
    Ret (Some (S (length (i64_to_string n ++ crlf)),
      Some (match kind with AMap | AAttribute => 2 * n | _ => n end))).
Proof.
  intros Hn H0 Hk. unfold aggregate_header. rewrite <- (assoc_L (++)), read_i64_put by done.
  rewrite (proj2 (Z.eqb_neq _ _)) by lia. cbn [andb]. rewrite (proj2 (Z.ltb_ge _ _)) by lia.
  rewrite length_app. cbn [length crlf].
  replace (length (i64_to_string n) + 3)%nat with (S (length (i64_to_string n) + 2)) by lia.
  destruct kind; try done; by rewrite (proj2 (Z.leb_le _ _)) by lia.
Qed.

Lemma decodes_list proto v mode kind vs : frame_mode mode = Some (Aggregate kind) ->
  match kind with AMap | AAttribute => False | _ => True end ->
  Forall (decodes proto) vs -> encode_to proto v = put_line mode (len_str vs) ++ encode_all proto vs ->
  finish_aggregate kind vs = v -> decodes proto v.
Proof.
  intros Hm Hk Hvs E Hfin.
  apply (decodes_aggregate proto v mode kind (len_str vs ++ crlf) vs); try done.
  - intros Hu Hle. rewrite len_str_i64, header_count.
    + by destruct kind.
    + unfold alloc_ok in Hu. rewrite E, length_app in Hu. unfold is_i64, i64_min, i64_max in *. lia.
    + lia.
    + by destruct kind.
  - rewrite length_app. cbn. lia.
Qed.

Definition flatten_pairs (l : list (Value * Value)) : list Value := concat ((fun kv => [kv.1; kv.2]) <$> l).

Lemma pair_up_flatten l : pair_up (flatten_pairs l) = l.
Proof. induction l as [|[k x] l IH]; [done|]. cbn. unfold flatten_pairs in IH. by rewrite IH. Qed.

Lemma flatten_length l : length (flatten_pairs l) = (2 * length l)%nat.
Proof. induction l as [|[k x] l IH]; [done|]. unfold flatten_pairs in *. cbn. lia. Qed.

Lemma encode_pairs_fix proto l :
  (fix all_pairs (l : list (Value * Value)) : bytes :=
    match l with
    | [] => []
    | (k, x) :: l' => encode_to proto k ++ encode_to proto x ++ all_pairs l'
    end) l = encode_all proto (flatten_pairs l).
Proof.
  induction l as [|[k x] l IH]; [done|]. unfold encode_all, flatten_pairs in *. cbn.
  by rewrite IH.
Qed.

Lemma decodes_map proto l : (proto =? 3) = true -> Forall (decodes proto) (flatten_pairs l) ->
  decodes proto (Map_ l).
Proof.
  intros Hp Hvs.
  assert (E : encode_to proto (Map_ l) = x25 :: (len_str l ++ crlf) ++ encode_all proto (flatten_pairs l)).
  { cbn [encode_to]. rewrite Hp. unfold put_line. cbn. f_equal. f_equal. apply encode_pairs_fix. }
  apply (decodes_aggregate proto _ x25 AMap (len_str l ++ crlf) (flatten_pairs l)); try done.
  - intros Hu Hle. unfold alloc_ok in Hu. rewrite E in Hu. cbn [length] in Hu. rewrite length_app, flatten_length in *.
    unfold i64_max in Hu. rewrite len_str_i64, header_count.
    + repeat f_equal; [by rewrite length_app|lia].
    + unfold is_i64, i64_min, i64_max. lia.
    + lia.
    + unfold u64_max. lia.
  - rewrite length_app. cbn. lia.
  - cbn. by rewrite pair_up_flatten.
Qed.

(** *** The round trip *)

Lemma wire_all proto l :
  (fix all (l : list Value) : Prop := match l with [] => True | x :: l' => wire_ok proto x /\ all l' end) l <->
  Forall (wire_ok proto) l.
Proof. induction l as [|x l IH]; [by split; [constructor|]|]. by rewrite Forall_cons, IH. Qed.

Lemma wire_all_pairs proto l :
  (fix all_pairs (l : list (Value * Value)) : Prop :=
    match l with [] => True | (k, x) :: l' => (wire_ok proto k /\ wire_ok proto x) /\ all_pairs l' end) l <->
  Forall (fun kv => wire_ok proto kv.1 /\ wire_ok proto kv.2) l.
Proof. induction l as [|[k x] l IH]; [by split; [constructor|]|]. by rewrite Forall_cons, IH. Qed.

Lemma Forall_imp_app {A} (P Q : A -> Prop) l : Forall (fun x => P x -> Q x) l -> Forall P l -> Forall Q l.
Proof. induction 1; intros HP; [constructor|]. apply Forall_cons in HP as [? ?]. constructor; auto. Qed.

Lemma wire_decodes proto v : wire_ok proto v -> decodes proto v.
Proof.
  induction v as [s|e|i|o| |l IH| |l IH|l IH|l IH|b|d|n|f d|e|l|l IH] using Value_nested_ind;
    cbn [wire_ok]; try done; intros Hw.
  - by apply decodes_leaves.
  - by apply decodes_leaves.
  - by apply decodes_leaves.
  - destruct o; [by apply decodes_leaves|by apply decodes_nulls].
  - by apply decodes_nulls.
  - apply wire_all in Hw. apply (decodes_list proto _ x2a AArray l); try done; [by eapply Forall_imp_app|].
    cbn [encode_to]. f_equal. apply encode_all_fix.
  - by apply decodes_nulls.
  - destruct Hw as [Hp Hw]. apply wire_all_pairs in Hw. apply decodes_map; [done|].
    unfold flatten_pairs. apply Forall_concat. apply Forall_fmap.
    assert (Hd : Forall (fun kv => decodes proto kv.1 /\ decodes proto kv.2) l).
    { eapply Forall_imp_app; [|exact Hw]. eapply Forall_impl; [exact IH|]. naive_solver. }
    eapply Forall_impl; [exact Hd|]. intros kv [? ?]. by repeat constructor.
  - destruct Hw as [Hp Hw]. apply wire_all in Hw.
    apply (decodes_list proto _ x7e ASet l); try done; [by eapply Forall_imp_app|].
    cbn [encode_to]. rewrite Hp. f_equal. apply encode_all_fix.
  - destruct Hw as [Hp Hw]. apply wire_all in Hw.
    apply (decodes_list proto _ x3e APush l); try done; [by eapply Forall_imp_app|].
    cbn [encode_to]. rewrite Hp. f_equal. apply encode_all_fix.
  - by apply decodes_nulls.
  - destruct Hw as [Hp Hv]. by apply decodes_double.
  - destruct Hw as (Hp & Hne & Hn). by apply decodes_resp3.
  - destruct Hw as (Hp & Hf & Hu). by apply decodes_resp3.
  - destruct Hw as (Hp & Hu). by apply decodes_resp3.
Qed.

Lemma encode_decode_app (proto : Z) (v : Value) (rest : bytes) :
  wire_ok proto v -> alloc_ok (encode_to proto v) ->
  take_from_bytes_stream (encode_to proto v ++ rest) = Ret (Some (v, rest)).
Proof.
  intros Hw Hu. destruct (decodes_more proto v rest (parse_fuel (encode_to proto v ++ rest)) (wire_decodes proto v Hw) Hu)
    as (p & E & Hg & Hlen & Ht); [unfold parse_fuel; rewrite length_app; lia|].
  unfold take_from_bytes_stream. pose proof (good_len p Hg).
  rewrite (proj2 (Nat.ltb_ge _ _)) by (rewrite length_app; lia). rewrite E, slice_prefix by (rewrite length_app; lia).
  rewrite Hlen, take_app_length, Ht. cbn. by rewrite drop_app_length.
Qed.

(** C19: decoding inverts encoding in the middle of a stream: an encoded value,
    whatever follows it, is decoded to that value and exactly its bytes are
    consumed. For every value the negotiated protocol version can represent;
    doubles come back from their decimal text, and are the same doubles. *)
Theorem encode_decode_roundtrip (proto : Z) (v : Value) (rest : bytes) :
  wire_ok proto v -> alloc_ok (encode_to proto v) ->
  take_from_bytes_stream (encode_to proto v ++ rest) = Ret (Some (v, rest)).
Proof. apply encode_decode_app. Qed.

(** ** Witnesses *)

Definition ping_bytes : bytes := encode_to 2 (Array (Some [BulkString (Some (str "PING"))])).

Lemma decode_total_witness : exists o, take_from_bytes_stream ping_bytes = Ret o /\
  forall v rest, o = Some (v, rest) -> exists frame, ping_bytes = frame ++ rest /\ (3 <= length frame)%nat.
Proof. apply (decode_total ping_bytes). vm_compute. reflexivity. Defined.

Lemma decode_incremental_witness :
  take_from_bytes_stream (ping_bytes ++ str "*1") =
    Ret (Some (Array (Some [BulkString (Some (str "PING"))]), str "*1")).
Proof.
  apply (decode_incremental ping_bytes (str "*1") (Array (Some [BulkString (Some (str "PING"))])) []).
  - vm_compute. reflexivity.
  - vm_compute. reflexivity.
Defined.

Lemma encode_decode_roundtrip_witness :
  take_from_bytes_stream (encode_to 3 (Map_ [(Null, Set_ [Integer (-7); Double (S754_finite true 4503599627370496 (-53))])]) ++ str "xyz") =
    Ret (Some (Map_ [(Null, Set_ [Integer (-7); Double (S754_finite true 4503599627370496 (-53))])], str "xyz")).
Proof.
  apply (encode_decode_roundtrip 3 (Map_ [(Null, Set_ [Integer (-7); Double (S754_finite true 4503599627370496 (-53))])]) (str "xyz")).
  - vm_compute. intuition discriminate.
  - vm_compute. reflexivity.
Defined.
