(* ===== verification/Errors.v ===== *)
(** * Errors: the error type of the server.

    Models src/cache_cat/src/error.rs: the kinds of errors, their texts, the
    conversions between them and to replies, and which of them may be retried.
    The protocol errors are in Reply. The [source] of an error is only printed,
    so an error is its kind here and the source an argument of [display_error]. *)

From S2P Require Import Prelude Text Reply.

(** ** Kinds *)

Inductive RetryReason := NoLeader | LeaderTransition | Transient | NodeStarting.

Inductive StorageError :=
| RaftFailed (msg : bytes)
| KeyNotFound
| ReadFailed (msg : bytes)
| WriteFailed (msg : bytes)
| DeleteFailed (msg : bytes).

Inductive TlsError :=
| CertificateLoad (msg : bytes)
| PrivateKeyLoad (msg : bytes)
| CaCertificateLoad (msg : bytes)
| InvalidTls (msg : bytes)
| Handshake (msg : bytes)
| General (msg : bytes).

Inductive RpcError :=
| Timeout
| Unreachable (msg : bytes)
| Network (msg : bytes)
| Remote (msg : bytes).

(** [ErrorKind]. *)
Inductive CacheCatError :=
| Retryable (reason : RetryReason)
| InvalidConfig (msg : bytes)
| Internal (msg : bytes)
| Protocol (e : ProtocolError)
| Storage (e : StorageError)
| RPC (e : RpcError)
| Tls (e : TlsError).

Inductive ApiError :=
| CannotForward (msg : bytes)
| ForwardToLeader (leader_id : option Z).

(** ** Texts *)

Definition retry_text (r : RetryReason) : bytes :=
  match r with
  | NoLeader => str "no leader available"
  | LeaderTransition => str "leader transition in progress"
  | Transient => str "temporary failure"
  | NodeStarting => str "target node is starting"
  end.

Definition storage_text (e : StorageError) : bytes :=
  match e with
  | RaftFailed msg => str "raft error: " ++ msg
  | KeyNotFound => str "key not found"
  | ReadFailed msg => str "read failed: " ++ msg
  | WriteFailed msg => str "write failed: " ++ msg
  | DeleteFailed msg => str "delete failed: " ++ msg
  end.

Definition tls_text (e : TlsError) : bytes :=
  match e with
  | CertificateLoad msg => str "failed to load certificate: " ++ msg
  | PrivateKeyLoad msg => str "failed to load private key: " ++ msg
  | CaCertificateLoad msg => str "failed to load CA certificate: " ++ msg
  | InvalidTls msg => str "invalid TLS configuration: " ++ msg
  | Handshake msg => str "TLS handshake failed: " ++ msg
  | General msg => str "TLS error: " ++ msg
  end.

Definition rpc_text (e : RpcError) : bytes :=
  match e with
  | Timeout => str "RPC timeout"
  | Unreachable msg => str "node unreachable: " ++ msg
  | Network msg => str "network error: " ++ msg
  | Remote msg => str "remote error: " ++ msg
  end.

Definition api_text (e : ApiError) : bytes :=
  match e with
  | CannotForward msg => str "cannot forward request: " ++ msg
  | ForwardToLeader _ => str "forward to leader"
  end.

(** [Display for ErrorKind], and [Display for Error] with its source. *)
Definition kind_text (e : CacheCatError) : bytes :=
  match e with
  | Retryable reason => str "retryable error: " ++ retry_text reason
  | InvalidConfig msg => str "configuration error: " ++ msg
  | Internal msg => str "internal error: " ++ msg
  | Protocol err => str "protocol error: " ++ error_text err
  | Storage err => str "storage error: " ++ storage_text err
  | RPC err => str "RPC error: " ++ rpc_text err
  | Tls err => str "TLS error: " ++ tls_text err
  end.

Definition display_error (e : CacheCatError) (source : option bytes) : bytes :=
  kind_text e ++ match source with Some s => str ": " ++ s | None => [] end.

(** ** Handling *)

Definition is_retryable (e : CacheCatError) : bool :=
  match e with Retryable _ => true | _ => false end.

Definition api_is_retryable (e : ApiError) : bool :=
  match e with CannotForward _ | ForwardToLeader _ => true end.

(** [From<ApiError> for Error]. *)
Definition api_error_from (e : ApiError) : CacheCatError :=
  if api_is_retryable e
  then Retryable (match e with ForwardToLeader _ => LeaderTransition | _ => Transient end)
  else Internal (api_text e).

(** [From<io::Error> for Error] and [From<bincode2::Error> for Error]. *)
Definition io_error_from (msg : bytes) : CacheCatError := Retryable Transient.
Definition bincode_error_from (msg : bytes) : CacheCatError := Internal (str "serialization failed").

(** [From<CacheCatError> for Value]. *)
Definition error_value (e : CacheCatError) : Value :=
  match e with
  | Protocol e => Error (error_text e)
  | Storage e => Error (str "ERR " ++ storage_text e)
  | Internal e => Error (str "ERR " ++ e)
  | InvalidConfig e => Error (str "ERR " ++ e)
  | Retryable e => Error (str "ERR " ++ retry_text e)
  | RPC e => Error (str "ERR " ++ rpc_text e)
  | Tls e => Error (str "ERR " ++ tls_text e)
  end.
