(* ===== verification/Lua.v ===== *)
(** * Lua: replies as Lua values and back.

    Models [into_lua_value] and [from_lua] of
    src/cache_cat/src/raft/types/core/response_value.rs on the values of the mlua
    crate. A table is the list of its entries in the order [pairs] gives them.
    mlua presents an integral number as an [Integer], so the index of a table is
    looked up among those. *)

From S2P Require Import Prelude Text F64 FloatText Reply Resp.
From Stdlib Require Import SpecFloat Strings.Byte.

#[local] Set Warnings "-register-all".

(** [mlua::Value]; [LError] carries the text of the error, [LOther] the debug
    text of a value of another type. *)
Inductive LuaValue :=
| LNil
| LBoolean (b : bool)
| LInteger (i : Z)
| LNumber (n : f64)
| LString (s : bytes)
| LTable (entries : list (LuaValue * LuaValue))
| LError (msg : bytes)
| LOther (debug : bytes).

(** What a call into Lua can fail with. *)
Inductive LuaError :=
| IndexIsNil
| External (msg : bytes).

(** ** Tables *)

(** Whether two keys are the same key. A table is a key only to itself, and the
    tables here are always new. *)
Definition same_key (a b : LuaValue) : bool :=
  match a, b with
  | LBoolean x, LBoolean y => Bool.eqb x y
  | LInteger x, LInteger y => x =? y
  | LNumber x, LNumber y => f64_eq x y
  | LString x, LString y => bool_decide (x = y)
  | _, _ => false
  end.

Fixpoint table_put (entries : list (LuaValue * LuaValue)) (key v : LuaValue) : list (LuaValue * LuaValue) :=
  match entries with
  | [] => match v with LNil => [] | _ => [(key, v)] end
  | (k, x) :: entries' =>
      if same_key k key then match v with LNil => entries' | _ => (key, v) :: entries' end
      else (k, x) :: table_put entries' key v
  end.

(** [table.set(key, value)]: nil is no key, and setting nil removes the key. *)
Definition table_set (entries : list (LuaValue * LuaValue)) (key v : LuaValue) : result (list (LuaValue * LuaValue)) LuaError :=
  match key with
  | LNil => Err IndexIsNil
  | LNumber n => if is_nan n then Err IndexIsNil else Ok (table_put entries key v)
  | _ => Ok (table_put entries key v)
  end.

(** [for (i, val) in arr.enumerate() { table.set(i + 1, val) }] from index [i]. *)
Fixpoint array_put (entries : list (LuaValue * LuaValue)) (i : Z) (l : list LuaValue) : list (LuaValue * LuaValue) :=
  match l with
  | [] => entries
  | v :: l' => array_put (table_put entries (LInteger i) v) (i + 1) l'
  end.

Definition array_table (l : list LuaValue) : LuaValue := LTable (array_put [] 1 l).
Definition field_table (name : String.string) (v : LuaValue) : LuaValue := LTable [(LString (str name), v)].

(** ** RESP to Lua *)

Definition lua_null (resp : Z) : LuaValue := if resp =? 3 then LNil else LBoolean false.

(** A (member, score) pair under RESP3. *)
Definition lua_score (p : bytes * f64) : LuaValue := array_table [LString p.1; field_table "double" (LNumber p.2)].

Fixpoint into_lua_value (resp : Z) (v : Value) : result LuaValue LuaError :=
  let all := fix all (l : list Value) : result (list LuaValue) LuaError :=
    match l with
    | [] => Ok []
    | x :: l' => let? y := into_lua_value resp x in let? ys := all l' in Ok (y :: ys)
    end in
  let flat := fix flat (l : list (Value * Value)) : result (list LuaValue) LuaError :=
    match l with
    | [] => Ok []
    | (k, x) :: l' =>
        let? a := into_lua_value resp k in let? b := into_lua_value resp x in let? ys := flat l' in Ok (a :: b :: ys)
    end in
  let map_all := fix map_all (acc : list (LuaValue * LuaValue)) (l : list (Value * Value)) : result (list (LuaValue * LuaValue)) LuaError :=
    match l with
    | [] => Ok acc
    | (k, x) :: l' =>
        let? a := into_lua_value resp k in let? b := into_lua_value resp x in
        let? acc' := table_set acc a b in map_all acc' l'
    end in
  let set_all := fix set_all (acc : list (LuaValue * LuaValue)) (l : list Value) : result (list (LuaValue * LuaValue)) LuaError :=
    match l with
    | [] => Ok acc
    | x :: l' =>
        let? a := into_lua_value resp x in
        let? acc' := table_set acc a (LBoolean true) in set_all acc' l'
    end in
  match v with
  | SimpleString s => Ok (field_table "ok" (LString s))
  | Error e | BulkError e => Ok (field_table "err" (LString e))
  | Integer i => Ok (LInteger i)
  | Boolean b => Ok (if resp =? 3 then LBoolean b else LInteger (if b then 1 else 0))
  | BulkString (Some data) => Ok (LString data)
  | BulkString None | Null | Array None => Ok (lua_null resp)
  | Array (Some arr) | Push arr | Batch arr => let? l := all arr in Ok (array_table l)
  | Map_ map =>
      if resp =? 3 then let? inner := map_all [] map in Ok (field_table "map" (LTable inner))
      else let? l := flat map in Ok (array_table l)
  | Set_ items =>
      if resp =? 3 then let? inner := set_all [] items in Ok (field_table "set" (LTable inner))
      else let? l := all items in Ok (array_table l)
  | Double d => Ok (if resp =? 3 then field_table "double" (LNumber d) else LString (format_double d))
  | BigNumber n => Ok (if resp =? 3 then field_table "big_number" (LString n) else LString n)
  | VerbatimString format data =>
      Ok (if resp =? 3
          then field_table "verbatim_string" (LTable [(LString (str "string"), LString data); (LString (str "format"), LString format)])
          else LString data)
  | MemberScores pairs =>
      Ok (array_table
        (if resp =? 3 then lua_score <$> pairs
         else concat ((fun p : bytes * f64 => [LString p.1; LString (format_double p.2)]) <$> pairs)))
  end.

(** ** Lua to RESP *)

(** [n as i64]: towards zero, saturating, and 0 for NaN. *)
Definition f64_as_i64 (n : f64) : Z :=
  match n with
  | S754_zero _ | S754_nan => 0
  | S754_infinity neg => if neg then i64_min else i64_max
  | S754_finite neg m e =>
      let a := if 0 <=? e then Zpos m * 2 ^ e else Zpos m / 2 ^ (- e) in
      Z.max i64_min (Z.min i64_max (if neg then - a else a))
  end.

(** An entry with its value as a reply and, if the value is a table, with the
    replies of that table's entries. *)
Record Converted := mkConverted { cv_key : LuaValue; cv_value : LuaValue; cv_key_reply : Value; cv_reply : Value; cv_pairs : list (Value * Value) }.

Definition raw_get (cs : list Converted) (key : LuaValue) : option Converted :=
  find (fun c => same_key (cv_key c) key) cs.

Definition string_field (cs : list Converted) (name : String.string) : option bytes :=
  match cv_value <$> raw_get cs (LString (str name)) with Some (LString s) => Some s | _ => None end.

(** The loop over the indices from [i], which ends at the first nil: after at
    most as many turns as there are entries. *)
Fixpoint array_items (fuel : nat) (cs : list Converted) (i : Z) : list Value :=
  match fuel with
  | O => []
  | S fuel' =>
      match raw_get cs (LInteger i) with
      | Some c => cv_reply c :: array_items fuel' cs (i + 1)
      | None => []
      end
  end.

(** [{ verbatim_string = { string = .., format = .. } }]. *)
Definition verbatim_field (cs : list Converted) : option Value :=
  match cv_value <$> raw_get cs (LString (str "verbatim_string")) with
  | Some (LTable vs) =>
      match find (fun p : LuaValue * LuaValue => same_key p.1 (LString (str "string"))) vs,
            find (fun p : LuaValue * LuaValue => same_key p.1 (LString (str "format"))) vs with
      | Some (_, LString data), Some (_, LString format) => Some (VerbatimString (from_utf8_lossy format) data)
      | _, _ => None
      end
  | _ => None
  end.

Definition table_field (cs : list Converted) (name : String.string) : option (list (Value * Value)) :=
  match raw_get cs (LString (str name)) with
  | Some c => match cv_value c with LTable _ => Some (cv_pairs c) | _ => None end
  | None => None
  end.

Definition table_reply (cs : list Converted) : Value :=
  match string_field cs "err" with
  | Some msg => Error (from_utf8_lossy msg)
  | None =>
  match string_field cs "ok" with
  | Some msg => SimpleString (from_utf8_lossy msg)
  | None =>
  match cv_value <$> raw_get cs (LString (str "double")) with
  | Some (LNumber n) => Double n
  | Some (LInteger i) => Double (f64_of_Z i)
  | _ =>
  match string_field cs "big_number" with
  | Some n => BigNumber (from_utf8_lossy n)
  | None =>
  match verbatim_field cs with
  | Some v => v
  | None =>
  match table_field cs "map" with
  | Some pairs => Map_ pairs
  | None =>
  match table_field cs "set" with
  | Some pairs => Set_ pairs.*1
  | None => Array (Some (array_items (length cs) cs 1))
  end end end end end end end.

(** The reply, and the replies of the entries of a table. *)
Fixpoint lua_reply (proto : Z) (l : LuaValue) : Value * list (Value * Value) :=
  match l with
  | LNil => (Null, [])
  | LBoolean b => (if proto =? 3 then Boolean b else if b then Integer 1 else Null, [])
  | LInteger i => (Integer i, [])
  | LNumber n => (Integer (f64_as_i64 n), [])
  | LString s => (BulkString (Some s), [])
  | LTable entries =>
      let cs := (fix convert (es : list (LuaValue * LuaValue)) : list Converted :=
        match es with
        | [] => []
        | (k, x) :: es' =>
            let '(kr, _) := lua_reply proto k in let '(xr, ps) := lua_reply proto x in
            mkConverted k x kr xr ps :: convert es'
        end) entries in
      (table_reply cs, (fun c => (cv_key_reply c, cv_reply c)) <$> cs)
  | LError msg => (Error msg, [])
  | LOther debug => (Error (str "Cannot convert Lua value to Redis: " ++ debug), [])
  end.

Definition from_lua (proto : Z) (l : LuaValue) : Value := (lua_reply proto l).1.

Example from_lua_examples :
  from_lua 2 (field_table "ok" (LString (str "PONG"))) = SimpleString (str "PONG") /\
  from_lua 2 (LNumber (f64_of_Z 3)) = Integer 3 /\
  from_lua 2 (array_table [LInteger 1; LBoolean false; LNil; LInteger 4]) = Array (Some [Integer 1; Null]) /\
  from_lua 3 (field_table "map" (LTable [(LString (str "a"), LBoolean true)])) = Map_ [(BulkString (Some (str "a")), Boolean true)] /\
  into_lua_value 2 (MemberScores [(str "m", f64_of_Z 2)]) = Ok (array_table [LString (str "m"); LString (str "2")]).
Proof. vm_compute. split_and!; reflexivity. Qed.

(** ** A reply survives the way through Lua *)

Definition convert (proto : Z) (p : LuaValue * LuaValue) : Converted :=
  mkConverted p.1 p.2 (lua_reply proto p.1).1 (lua_reply proto p.2).1 (lua_reply proto p.2).2.

Lemma lua_reply_table proto entries :
  from_lua proto (LTable entries) = table_reply (convert proto <$> entries).
Proof.
  unfold from_lua. cbn [lua_reply fst]. f_equal. induction entries as [|[k x] entries IH]; [done|].
  cbn [fmap list_fmap]. rewrite <- IH. unfold convert. cbn [fst snd].
  by destruct (lua_reply proto k), (lua_reply proto x).
Qed.

(** The entries of an array that starts at index [i]. *)
Fixpoint indexed (i : Z) (l : list LuaValue) : list (LuaValue * LuaValue) :=
  match l with [] => [] | v :: l' => (LInteger i, v) :: indexed (i + 1) l' end.

Lemma table_put_fresh es i v : Forall (fun p : LuaValue * LuaValue => same_key p.1 (LInteger i) = false) es -> v <> LNil ->
  table_put es (LInteger i) v = es ++ [(LInteger i, v)].
Proof.
  intros H Hv. induction H as [|[k x] es Hk _ IH]; cbn [table_put app]; [by destruct v|].
  cbn [fst] in Hk. by rewrite Hk, IH.
Qed.

Lemma array_put_indexed l : forall es i, Forall (fun p : LuaValue * LuaValue => exists j, p.1 = LInteger j /\ j < i) es ->
  Forall (fun v => v <> LNil) l -> array_put es i l = es ++ indexed i l.
Proof.
  induction l as [|v l IH]; intros es i Hes Hl; cbn [array_put indexed]; [by rewrite app_nil_r|].
  apply Forall_cons in Hl as [Hv Hl]. rewrite table_put_fresh; [|eapply Forall_impl; [exact Hes|]|done].
  - rewrite IH; [by rewrite <- app_assoc| |done]. apply Forall_app_2; [|apply Forall_singleton; exists i; cbn; split; [done|lia]].
    eapply Forall_impl; [exact Hes|]. intros p (j & -> & Hj). exists j. split; [done|lia].
  - intros p (j & -> & Hj). cbn. apply Z.eqb_neq. lia.
Qed.

Lemma raw_get_string proto l name : forall i, raw_get (convert proto <$> indexed i l) (LString name) = None.
Proof. induction l as [|v l IH]; intros i; [done|]. apply IH. Qed.

Lemma raw_get_index proto l : forall i (n : nat), raw_get (convert proto <$> indexed i l) (LInteger (i + Z.of_nat n)) =
  (fun v => convert proto (LInteger (i + Z.of_nat n), v)) <$> l !! n.
Proof.
  induction l as [|v l IH]; intros i n; [done|]. destruct n as [|n].
  - cbn. rewrite Z.add_0_r. unfold raw_get. cbn. by rewrite Z.eqb_refl.
  - unfold raw_get. cbn [indexed fmap list_fmap find convert cv_key fst same_key].
    rewrite (proj2 (Z.eqb_neq i (i + Z.of_nat (S n)))) by lia. specialize (IH (i + 1) n). unfold raw_get in IH.
    replace (i + Z.of_nat (S n)) with (i + 1 + Z.of_nat n) by lia. exact IH.
Qed.

Lemma array_items_all proto l : forall m (n : nat), (length l <= m + n)%nat ->
  array_items m (convert proto <$> indexed 1 l) (1 + Z.of_nat n) = from_lua proto <$> drop n l.
Proof.
  intros m. induction m as [|m IH]; intros n Hm; cbn [array_items].
  - by rewrite drop_ge by lia.
  - rewrite raw_get_index. destruct (l !! n) as [v|] eqn:Ev; cbn.
    + rewrite (drop_S _ _ _ Ev). cbn. f_equal. replace (1 + Z.of_nat n + 1) with (1 + Z.of_nat (S n)) by lia. apply IH. lia.
    + apply lookup_ge_None in Ev. by rewrite drop_ge by lia.
Qed.

Lemma indexed_length i l : length (indexed i l) = length l.
Proof. revert i. induction l as [|v l IH]; intros i; [done|]. cbn. by rewrite IH. Qed.

Lemma from_lua_array proto l : Forall (fun v => v <> LNil) l ->
  from_lua proto (array_table l) = Array (Some (from_lua proto <$> l)).
Proof.
  intros Hl. unfold array_table. rewrite array_put_indexed by (done || apply Forall_nil_2). cbn [app].
  rewrite lua_reply_table. unfold table_reply, string_field, verbatim_field, table_field. rewrite !raw_get_string. cbn [fmap option_fmap option_map].
  rewrite length_fmap, indexed_length. pose proof (array_items_all proto l (length l) 0 ltac:(lia)) as H.
  change (1 + Z.of_nat 0) with 1 in H. by rewrite H.
Qed.

(** What a command replies with: texts that are valid UTF-8, no null array (which
    Lua cannot tell from another null) and no batch of frames. *)
Fixpoint lua_plain (v : Value) : Prop :=
  let all := fix all (l : list Value) : Prop :=
    match l with [] => True | x :: l' => lua_plain x /\ all l' end in
  let all_pairs := fix all_pairs (l : list (Value * Value)) : Prop :=
    match l with [] => True | (k, x) :: l' => lua_plain k /\ lua_plain x /\ all_pairs l' end in
  match v with
  | SimpleString s | Error s | BulkError s => from_utf8_lossy s = s
  | Array None | Batch _ => False
  | Array (Some l) | Push l | Set_ l => all l
  | Map_ l => all_pairs l
  | _ => True
  end.

(** [l] is what [v] becomes, and it reads back as something that looks like [v]
    to a RESP2 client. *)
Definition comes_back (v : Value) : Prop :=
  exists l, into_lua_value 2 v = Ok l /\ l <> LNil /\ encode_to 2 (from_lua 2 l) = encode_to 2 v.

(** The loops of [into_lua_value] and [encode_to] over a list, named. *)
Fixpoint into_all (l : list Value) : result (list LuaValue) LuaError :=
  match l with
  | [] => Ok []
  | x :: l' => let? y := into_lua_value 2 x in let? ys := into_all l' in Ok (y :: ys)
  end.

Definition encode_all (l : list Value) : bytes := concat (encode_to 2 <$> l).

Lemma encode_array l : encode_to 2 (Array (Some l)) = put_line x2a (len_str l) ++ encode_all l.
Proof. cbn [encode_to]. f_equal. unfold encode_all. induction l as [|x l IH]; [done|]. cbn. by rewrite IH. Qed.

(** Lists of replies that come back do so as an array. *)
Lemma list_comes_back vs : Forall comes_back vs ->
  exists ls, into_all vs = Ok ls /\ encode_to 2 (from_lua 2 (array_table ls)) = put_line x2a (len_str vs) ++ encode_all vs.
Proof.
  intros H. assert (exists ls, into_all vs = Ok ls /\ Forall (fun v => v <> LNil) ls /\ length ls = length vs /\
    encode_all (from_lua 2 <$> ls) = encode_all vs) as (ls & E & Hn & Hl & He).
  { induction H as [|v vs (l & E & Hn & He) _ (ls & E' & Hn' & Hl' & He')]; [by exists []|].
    exists (l :: ls). cbn [into_all]. rewrite E, E'. cbn [result_bind]. split_and!; [done|by constructor|cbn; by rewrite Hl'|].
    unfold encode_all in *. cbn. by rewrite He, He'. }
  exists ls. split; [done|]. rewrite from_lua_array, encode_array, He by done. unfold len_str. by rewrite length_fmap, Hl.
Qed.

Lemma into_array v l : (v = Array (Some l) \/ v = Push l \/ v = Set_ l) ->
  into_lua_value 2 v = let? ls := into_all l in Ok (array_table ls).
Proof. by intros [->|[->| ->]]. Qed.

Lemma encode_aggregate v l : (v = Array (Some l) \/ v = Push l \/ v = Set_ l) ->
  encode_to 2 v = put_line x2a (len_str l) ++ encode_all l.
Proof. intros [->|[->| ->]]; apply encode_array. Qed.

Lemma aggregate_comes_back v l : (v = Array (Some l) \/ v = Push l \/ v = Set_ l) -> Forall comes_back l -> comes_back v.
Proof.
  intros Hv Hl. destruct (list_comes_back l Hl) as (ls & E & He). exists (array_table ls).
  rewrite (into_array v l Hv), E, (encode_aggregate v l Hv). done.
Qed.

Definition flat_pairs (l : list (Value * Value)) : list Value := concat ((fun p => [p.1; p.2]) <$> l).

Lemma flat_pairs_length l : length (flat_pairs l) = (length l * 2)%nat.
Proof. unfold flat_pairs. induction l as [|p l IH]; [done|]. cbn. rewrite IH. lia. Qed.

Lemma into_map l : into_lua_value 2 (Map_ l) = let? ls := into_all (flat_pairs l) in Ok (array_table ls).
Proof.
  cbn [into_lua_value Z.eqb Pos.eqb]. f_equal. induction l as [|[k x] l IH]; [done|].
  cbn. rewrite IH. change (concat _) with (flat_pairs l). destruct (into_lua_value 2 k); [cbn|done].
  destruct (into_lua_value 2 x); [cbn|done]. by destruct (into_all (flat_pairs l)).
Qed.

Lemma encode_map l : encode_to 2 (Map_ l) = put_line x2a (len_str (flat_pairs l)) ++ encode_all (flat_pairs l).
Proof.
  cbn [encode_to Z.eqb Pos.eqb]. unfold len_str. rewrite flat_pairs_length, Nat2Z.inj_mul. f_equal.
  unfold encode_all, flat_pairs. induction l as [|[k x] l IH]; [done|]. cbn. by rewrite IH.
Qed.

Lemma map_comes_back l : Forall comes_back (flat_pairs l) -> comes_back (Map_ l).
Proof.
  intros Hl. destruct (list_comes_back (flat_pairs l) Hl) as (ls & E & He). exists (array_table ls).
  rewrite into_map, E, encode_map. done.
Qed.

Lemma scores_come_back l : comes_back (MemberScores l).
Proof.
  cbn. eexists. split; [done|]. split; [done|]. rewrite from_lua_array.
  2: { apply Forall_concat, Forall_fmap, Forall_forall. intros p _. by repeat (apply Forall_cons; split). }
  rewrite encode_array. assert (forall (l : list (bytes * f64)), length (concat ((fun p : bytes * f64 => [LString p.1; LString (format_double p.2)]) <$> l)) = (length l * 2)%nat) as Hlen.
  { intros l'. induction l' as [|p l' IH]; [done|]. cbn. rewrite IH. lia. }
  cbn [encode_to Z.eqb Pos.eqb]. unfold len_str. rewrite length_fmap, Hlen, Nat2Z.inj_mul. f_equal.
  unfold encode_all. induction l as [|p l IH]; [done|]. cbn [fmap list_fmap concat app fst snd] in *.
  unfold from_lua at 1 2. cbn [lua_reply fst encode_to]. unfold fmap in *. by rewrite IH, app_assoc.
Qed.

Lemma plain_all l : Forall (fun v => lua_plain v -> comes_back v) l ->
  (fix all (l : list Value) : Prop := match l with [] => True | x :: l' => lua_plain x /\ all l' end) l -> Forall comes_back l.
Proof. induction 1 as [|x l Hx _ IH]; [constructor|]. intros [H1 H2]. constructor; auto. Qed.

Lemma from_lua_ok proto s : from_lua proto (field_table "ok" (LString s)) = SimpleString (from_utf8_lossy s).
Proof. reflexivity. Qed.

Lemma from_lua_err proto s : from_lua proto (field_table "err" (LString s)) = Error (from_utf8_lossy s).
Proof. reflexivity. Qed.

Lemma plain_comes_back v : lua_plain v -> comes_back v.
Proof.
  induction v as [s|e|i|o| |l IH| |l IH|l IH|l IH|b|d|n|f d|e|l|l IH] using Value_nested_ind; intros Hp.
  - exists (field_table "ok" (LString s)). split_and!; [done..|]. cbn in Hp. by rewrite from_lua_ok, Hp.
  - exists (field_table "err" (LString e)). split_and!; [done..|]. cbn in Hp. by rewrite from_lua_err, Hp.
  - by exists (LInteger i).
  - destruct o as [data|]; [by exists (LString data)|by exists (LBoolean false)].
  - done.
  - apply (aggregate_comes_back _ l); [auto|]. by apply plain_all, Hp.
  - by exists (LBoolean false).
  - apply map_comes_back. unfold flat_pairs. apply Forall_concat, Forall_fmap. revert Hp. cbn [lua_plain]. clear -IH.
    induction IH as [|[k x] l [Hk Hx] _ IHl]; [constructor|]. intros (Pk & Px & Pl). constructor; [|by apply IHl].
    repeat constructor; cbn in *; auto.
  - apply (aggregate_comes_back _ l); [auto|]. by apply plain_all, Hp.
  - apply (aggregate_comes_back _ l); [auto|]. by apply plain_all, Hp.
  - exists (LInteger (if b then 1 else 0)). by destruct b.
  - by exists (LString (format_double d)).
  - by exists (LString n).
  - by exists (LString d).
  - exists (field_table "err" (LString e)). split_and!; [done..|]. cbn in Hp. by rewrite from_lua_err, Hp.
  - apply scores_come_back.
  - done.
Qed.

(** A reply that a script gets from [redis.call] and returns as it is looks to
    a RESP2 client exactly as if the command had been sent without a script: for
    every reply without null arrays, batches and texts that are not UTF-8,
    [into_lua_value] succeeds, and what [from_lua_value] makes of the Lua value has
    the same bytes on the wire. *)
Theorem lua_roundtrip (v : Value) : lua_plain v ->
  exists l, into_lua_value 2 v = Ok l /\ encode_to 2 (from_lua 2 l) = encode_to 2 v.
Proof. intros H. destruct (plain_comes_back v H) as (l & H1 & _ & H2). by exists l. Qed.

Lemma lua_roundtrip_witness :
  exists l, into_lua_value 2 (Array (Some [Integer 1; Null; Map_ [(SimpleString (str "a"), Boolean true)]])) = Ok l /\
    encode_to 2 (from_lua 2 l) = str "*3" ++ [x0d; x0a] ++ str ":1" ++ [x0d; x0a] ++ str "$-1" ++ [x0d; x0a] ++
      str "*2" ++ [x0d; x0a] ++ str "+a" ++ [x0d; x0a] ++ str ":1" ++ [x0d; x0a].
Proof.
  destruct (lua_roundtrip (Array (Some [Integer 1; Null; Map_ [(SimpleString (str "a"), Boolean true)]]))) as (l & H1 & H2).
  - cbn. split_and!; (exact I || vm_compute; reflexivity).
  - exists l. split; [exact H1|]. rewrite H2. vm_compute. reflexivity.
Defined.
