(* ===== verification/OrdSet.v ===== *)
(** * OrdSet: [std::collections::BTreeSet] as a strictly sorted list.

    The set is observed through its ordered iteration only, so it is the list
    of its elements in increasing order of the key comparison. Two elements
    that compare equal need not be identical ([OrderedFloat] identifies the two
    zeros), and [insert] keeps the element already present, as [BTreeSet] does. *)

From S2P Require Import Prelude F64.

Section OrdSet.
Context {A : Type} (cmp : A -> A -> comparison).

Fixpoint bt_insert (x : A) (t : list A) : list A :=
  match t with
  | [] => [x]
  | y :: t' =>
      match cmp x y with
      | Lt => x :: t
      | Eq => t
      | Gt => y :: bt_insert x t'
      end
  end.

Fixpoint bt_remove (x : A) (t : list A) : list A :=
  match t with
  | [] => []
  | y :: t' =>
      match cmp x y with
      | Lt => t
      | Eq => t'
      | Gt => y :: bt_remove x t'
      end
  end.

(** [range(start..)]: the elements not below [start]. *)
Fixpoint bt_range_from (start : A) (t : list A) : list A :=
  match t with
  | [] => []
  | y :: t' => match cmp y start with Lt => bt_range_from start t' | _ => t end
  end.

(** [Iterator::take_while]. *)
Fixpoint take_while (p : A -> bool) (t : list A) : list A :=
  match t with
  | [] => []
  | y :: t' => if p y then y :: take_while p t' else []
  end.

Definition bt_sorted (t : list A) : Prop := StronglySorted (fun x y => cmp x y = Lt) t.

Context `{!TotalCmp cmp}.

Lemma elem_of_bt_insert x y t :
  Forall (fun z => cmp x z <> Eq) t -> y ∈ bt_insert x t <-> y = x \/ y ∈ t.
Proof.
  induction t as [|z t IH]; intros Hall; simpl.
  - rewrite list_elem_of_singleton, elem_of_nil. tauto.
  - apply Forall_cons in Hall as [Hz Hall]. destruct (cmp x z) eqn:E; [done| |].
    + by rewrite elem_of_cons.
    + rewrite !elem_of_cons, IH by done. tauto.
Qed.

Lemma bt_insert_elem x y t : y ∈ bt_insert x t -> y = x \/ y ∈ t.
Proof.
  induction t as [|z t IH]; simpl; [by intros ->%list_elem_of_singleton; left|].
  destruct (cmp x z); rewrite ?elem_of_cons; tauto.
Qed.

Lemma bt_insert_sorted x t : bt_sorted t -> bt_sorted (bt_insert x t).
Proof.
  induction 1 as [|z t Hs IH Hz]; simpl; [by repeat constructor|].
  destruct (cmp x z) eqn:E.
  - by constructor.
  - repeat constructor; [done|done|done|]. eapply Forall_impl; [exact Hz|].
    intros u Hu. by eapply (cmp_lt_trans cmp).
  - constructor; [done|]. apply Forall_forall. intros u Hu.
    destruct (bt_insert_elem x u t Hu) as [->|Hin]; [by apply (cmp_gt_lt cmp)|].
    by eapply Forall_forall in Hz.
Qed.

Lemma elem_of_bt_remove x y t : bt_sorted t ->
  y ∈ bt_remove x t <-> y ∈ t /\ cmp x y <> Eq.
Proof.
  induction 1 as [|z t Hs IH Hz]; simpl; [rewrite elem_of_nil; tauto|].
  assert (Habove : forall u, cmp x z <> Gt -> u ∈ t -> cmp x u = Lt).
  { intros u Hle Hu. eapply Forall_forall in Hz; [|done].
    destruct (cmp x z) eqn:E; [by rewrite (cmp_eq_l cmp _ _ _ E)|by eapply (cmp_lt_trans cmp)|done]. }
  destruct (cmp x z) eqn:E.
  - rewrite elem_of_cons. split.
    + intros Hu. split; [by right|]. by rewrite (Habove y ltac:(done) Hu).
    + intros [[->|Hu] Hne]; done.
  - rewrite elem_of_cons. split; [|tauto]. intros Hu. split; [done|].
    destruct Hu as [->|Hu]; [by rewrite E|]. by rewrite (Habove y ltac:(done) Hu).
  - rewrite !elem_of_cons, IH. split.
    + intros [->|[? ?]]; [by rewrite E; auto|auto].
    + intros [[->|?] ?]; auto.
Qed.

Lemma bt_remove_sorted x t : bt_sorted t -> bt_sorted (bt_remove x t).
Proof.
  induction 1 as [|z t Hs IH Hz]; simpl; [constructor|].
  destruct (cmp x z) eqn:E; [done|by constructor|].
  constructor; [done|]. apply Forall_forall. intros u [Hu _]%elem_of_bt_remove; [|done].
  by eapply Forall_forall in Hz.
Qed.

Lemma bt_sorted_tail z t : bt_sorted (z :: t) -> bt_sorted t.
Proof. by inversion 1. Qed.

Lemma bt_sorted_nodup t : bt_sorted t -> NoDup t.
Proof.
  induction 1 as [|z t Hs IH Hz]; constructor; [|done].
  intros Hin. eapply Forall_forall in Hz; [|done]. by apply (cmp_lt_irrefl cmp) in Hz.
Qed.

(** A strictly sorted list is determined by its elements. *)
Lemma bt_sorted_unique t t' :
  bt_sorted t -> bt_sorted t' -> (forall x, x ∈ t <-> x ∈ t') -> t = t'.
Proof.
  intros Hs. revert t'. induction Hs as [|z t Hs IH Hz]; intros t' Hs' Heq.
  - destruct t' as [|y t']; [done|]. exfalso. eapply not_elem_of_nil. apply Heq. by left.
  - destruct t' as [|y t'].
    { exfalso. eapply not_elem_of_nil. apply Heq. by left. }
    inversion Hs' as [|? ? Hs2 Hy]; subst.
    assert (z = y) as <-.
    { assert (Hzy : z ∈ y :: t') by (apply Heq; by left).
      assert (Hyz : y ∈ z :: t) by (apply Heq; by left).
      apply elem_of_cons in Hzy as [?|Hzy]; [done|]. apply elem_of_cons in Hyz as [?|Hyz]; [done|].
      eapply Forall_forall in Hz; [|done]. eapply Forall_forall in Hy; [|done].
      exfalso. by eapply (cmp_lt_irrefl cmp), (cmp_lt_trans cmp). }
    f_equal. apply IH; [done|]. intros x. specialize (Heq x). rewrite !elem_of_cons in Heq.
    split; intros Hx.
    + destruct (proj1 Heq (or_intror Hx)) as [->|]; [|done].
      eapply Forall_forall in Hz; [|done]. by apply (cmp_lt_irrefl cmp) in Hz.
    + destruct (proj2 Heq (or_intror Hx)) as [->|]; [|done].
      eapply Forall_forall in Hy; [|done]. by apply (cmp_lt_irrefl cmp) in Hy.
Qed.

(** [range] followed by [take_while] of a downward closed test is a filter. *)
Lemma range_take_while_filter (start : A) (p q : A -> bool) t :
  bt_sorted t ->
  (forall x y, cmp x y = Lt -> p y = true -> q x = false -> p x = true) ->
  (forall x, q x = true <-> cmp x start = Lt) ->
  take_while p (bt_range_from start t) =
    filter (fun x => (negb (q x) && p x)%bool = true) t.
Proof.
  intros Hs Hp Hq. induction Hs as [|z t Hs IH Hz]; [done|]. simpl.
  destruct (q z) eqn:Eq.
  - rewrite (proj1 (Hq z) Eq), filter_cons_False by (rewrite Eq; done). done.
  - assert (Hr : match cmp z start with Lt => bt_range_from start t | _ => z :: t end = z :: t).
    { destruct (cmp z start) eqn:E; try done. apply Hq in E. congruence. }
    rewrite Hr. simpl. destruct (p z) eqn:Ep.
    + rewrite filter_cons_True by (by rewrite Eq, Ep). f_equal.
      rewrite <- IH. clear IH. assert (Hall : bt_range_from start t = t).
      { destruct Hs as [|u t Hs Hu]; [done|]. simpl. destruct (cmp u start) eqn:E; try done.
        apply Forall_cons in Hz as [Hzu _].
        assert (cmp z start = Lt) by by eapply (cmp_lt_trans cmp). apply Hq in H. congruence. }
      by rewrite Hall.
    + rewrite filter_cons_False by (rewrite Eq, Ep; done).
      symmetry. apply list_filter_none. eapply Forall_impl; [exact Hz|]. simpl. intros u Hu Hpu.
      apply andb_prop in Hpu as [_ Hpu]. rewrite (Hp z u Hu Hpu Eq) in Ep. done.
Qed.

(** [Iterator::position]. *)
Fixpoint position (p : A -> bool) (l : list A) : option nat :=
  match l with
  | [] => None
  | x :: l' => if p x then Some O else S <$> position p l'
  end.

(** The rank of an element is the number of elements below it. *)
Lemma bt_position_rank x t : bt_sorted t -> x ∈ t ->
  position (fun y => match cmp y x with Eq => true | _ => false end) t =
    Some (length (filter (fun y => cmp y x = Lt) t)).
Proof.
  induction 1 as [|z t Hs IH Hz]; [by intros ?%elem_of_nil|].
  intros [->|Hin]%elem_of_cons; simpl.
  - rewrite (cmp_refl cmp). f_equal. rewrite list_filter_none; [done|].
    apply Forall_cons; split; [apply (cmp_lt_irrefl cmp)|]. eapply Forall_impl; [exact Hz|]. simpl.
    intros y Hy Hc. apply (cmp_lt_irrefl cmp y). by eapply (cmp_lt_trans cmp).
  - eapply Forall_forall in Hz as Hzx; [|exact Hin]. rewrite Hzx, IH by done.
    by rewrite filter_cons_True.
Qed.

Lemma bt_lookup_rank x t i : bt_sorted t -> t !! i = Some x ->
  length (filter (fun y => cmp y x = Lt) t) = i.
Proof.
  intros Hs. revert i. induction Hs as [|z t Hs IH Hz]; intros [|i]; simpl; try done.
  - intros [= ->]. rewrite list_filter_none; [done|].
    apply Forall_cons; split; [apply (cmp_lt_irrefl cmp)|]. eapply Forall_impl; [exact Hz|]. simpl.
    intros y Hy Hc. apply (cmp_lt_irrefl cmp y). by eapply (cmp_lt_trans cmp).
  - intros Hi. rewrite filter_cons_True.
    + simpl. by rewrite (IH i).
    + apply (proj1 (Forall_forall _ _) Hz). by eapply list_elem_of_lookup_2.
Qed.

Lemma bt_sorted_sublist t t' : t' `sublist_of` t -> bt_sorted t -> bt_sorted t'.
Proof.
  intros Hsub Hs. induction Hsub as [|z t1 t2 Hsub IH|z t1 t2 Hsub IH]; [done| |];
    apply StronglySorted_inv in Hs as [Hs Hz]; [|by apply IH].
  constructor; [by apply IH|]. apply Forall_forall. intros u Hu.
  apply (proj1 (Forall_forall _ _) Hz). eapply elem_of_submseteq; [done|by apply sublist_submseteq].
Qed.

End OrdSet.

Lemma flip_cmp_total {A} (cmp : A -> A -> comparison) :
  TotalCmp cmp -> TotalCmp (flip cmp).
Proof.
  intros Hc. unfold flip. split; intros *.
  - apply (cmp_refl cmp).
  - apply (cmp_antisym cmp).
  - intros ??. by eapply (cmp_lt_trans cmp).
  - intros E. apply (cmp_eq_r cmp). by apply (cmp_sym_eq cmp).
Qed.

Lemma bt_sorted_reverse {A} (cmp : A -> A -> comparison) t :
  bt_sorted cmp t -> bt_sorted (flip cmp) (reverse t).
Proof.
  unfold bt_sorted. induction 1 as [|z t Hs IH Hz]; [constructor|].
  rewrite reverse_cons. apply StronglySorted_app_2; [|exact IH|repeat constructor].
  intros x y Hx%elem_of_reverse ->%list_elem_of_singleton. unfold flip.
  apply (proj1 (Forall_forall _ _) Hz). by rewrite reverse_involutive in Hx.
Qed.
