(* ===== verification/SortedSet.v ===== *)
(** * SortedSet: the value behind the ZSET commands.

    Models src/cache_cat/src/raft/types/core/sorted_set.rs: a [BTreeSet] of
    (score, member) pairs next to a [HashMap] from members to scores. The
    invariant is that the two describe the same set; the reads are then
    functions of the map alone. [estimated_heap_usage] is in Memory. *)

From S2P Require Import Prelude F64 OrdSet.
From Stdlib Require Import SpecFloat.

Record ZAddReq := mkZAddReq {
  za_key : bytes;
  za_nx : bool; za_xx : bool; za_gt : bool; za_lt : bool; za_ch : bool;
  za_members : list (bytes * f64)
}.

Record SortedSet := mkSortedSet {
  tree : list (f64 * bytes);
  hash : gmap bytes f64
}.

Definition cmp_eqb (c : comparison) : bool := match c with Eq => true | _ => false end.

Section SortedSet.
Context `{OrderedFloat}.

(** The order of [(OrderedFloat<f64>, Bytes)]. *)
Definition entry_cmp : f64 * bytes -> f64 * bytes -> comparison := pair_cmp of_cmp bytes_cmp.

Definition zset_new : SortedSet := mkSortedSet [] ∅.

(** One turn of the loop of [zadd]: the set and the counters [added] and
    [changed]. *)
Definition zadd_one (req : ZAddReq) (acc : SortedSet * Z * Z) (mem : bytes * f64)
    : SortedSet * Z * Z :=
  let '(st, added, changed) := acc in
  let '(member, score) := mem in
  let old_score := hash st !! member in
  let exists_ := bool_decide (is_Some old_score) in
  if (za_nx req && exists_)%bool then acc
  else if (za_xx req && negb exists_)%bool then acc
  else
    match old_score with
    | Some old =>
        if (za_gt req && f64_le score old)%bool then acc
        else if (za_lt req && f64_le old score)%bool then acc
        else if negb (f64_eq old score) then
          (mkSortedSet
             (bt_insert entry_cmp (score, member) (bt_remove entry_cmp (old, member) (tree st)))
             (<[member := score]> (hash st)),
           added, changed + 1)
        else acc
    | None =>
        (mkSortedSet (bt_insert entry_cmp (score, member) (tree st))
           (<[member := score]> (hash st)),
         added + 1, changed + 1)
    end.

Definition zadd (st : SortedSet) (req : ZAddReq) : SortedSet * Z :=
  let '(st', added, changed) := foldl (zadd_one req) (st, 0, 0) (za_members req) in
  (st', if za_ch req then changed else added).

Definition swap_pair (e : f64 * bytes) : bytes * f64 := (e.2, e.1).

(** [len + start] cannot overflow: [start] is negative there. *)
Definition zrange (st : SortedSet) (start stop : Z) : list (bytes * f64) :=
  let len := Z.of_nat (length (tree st)) in
  if len =? 0 then []
  else
    let start_idx := if start <? 0 then len + start else start in
    let stop_idx := if stop <? 0 then len + stop else stop in
    let start_idx := if start_idx <? 0 then 0 else start_idx in
    let stop_idx := if len <=? stop_idx then len - 1 else stop_idx in
    if stop_idx <? 0 then []
    else if ((len <=? start_idx) || (stop_idx <? start_idx))%bool then []
    else
      let count := stop_idx - start_idx + 1 in
      map swap_pair (ztake count (zdrop start_idx (tree st))).

Definition zset_len (st : SortedSet) : Z := Z.of_nat (size (hash st)).

Definition zset_is_empty (st : SortedSet) : bool := bool_decide (hash st = ∅).

Definition zcount (st : SortedSet) (min max : f64) (min_exclusive max_exclusive : bool) : Z :=
  match tree st with
  | [] => 0
  | _ =>
      if f64_lt max min then 0
      else
        Z.of_nat (length (filter (fun e : f64 * bytes =>
          let score := e.1 in
          let min_ok := if min_exclusive then f64_lt min score else f64_le min score in
          let max_ok := if max_exclusive then f64_lt score max else f64_le score max in
          (min_ok && max_ok)%bool = true) (tree st)))
  end.

(** [limit] is [(offset, count)]; [usize::MAX] stands for no limit. *)
Definition zrangebyscore (st : SortedSet) (min max : f64) (limit : option (Z * Z))
    : list (bytes * f64) :=
  match tree st with
  | [] => []
  | _ =>
      if f64_lt max min then []
      else
        let skip_count := match limit with Some (offset, _) => offset | None => 0 end in
        let take_count := match limit with Some (_, count) => count | None => u64_max end in
        if take_count =? 0 then []
        else
          map swap_pair
            (ztake take_count
              (zdrop skip_count
                (take_while (fun e => f64_le e.1 max)
                  (bt_range_from entry_cmp (min, []) (tree st)))))
  end.

Definition zrem_one (acc : SortedSet * Z) (member : bytes) : SortedSet * Z :=
  let '(st, removed) := acc in
  match hash st !! member with
  | Some score =>
      (mkSortedSet (bt_remove entry_cmp (score, member) (tree st)) (delete member (hash st)),
       removed + 1)
  | None => acc
  end.

Definition zrem (st : SortedSet) (members : list bytes) : SortedSet * Z :=
  foldl zrem_one (st, 0) members.

Definition zincrby (st : SortedSet) (member : bytes) (increment : f64) : SortedSet * option f64 :=
  let old_score := hash st !! member in
  let new_score := f64_add (default f64_zero old_score) increment in
  if is_nan new_score then (st, None)
  else
    match old_score with
    | Some old =>
        if f64_eq old new_score then (st, Some new_score)
        else
          (mkSortedSet
             (bt_insert entry_cmp (new_score, member) (bt_remove entry_cmp (old, member) (tree st)))
             (<[member := new_score]> (hash st)),
           Some new_score)
    | None =>
        (mkSortedSet (bt_insert entry_cmp (new_score, member) (tree st))
           (<[member := new_score]> (hash st)),
         Some new_score)
    end.

Definition zscore (st : SortedSet) (member : bytes) : option f64 := hash st !! member.

Definition zrank (st : SortedSet) (member : bytes) : option Z :=
  match hash st !! member with
  | None => None
  | Some score =>
      Z.of_nat <$> position (fun item => cmp_eqb (entry_cmp item (score, member))) (tree st)
  end.

Definition zrevrank (st : SortedSet) (member : bytes) : option Z :=
  match hash st !! member with
  | None => None
  | Some score =>
      Z.of_nat <$> position (fun item => cmp_eqb (entry_cmp item (score, member))) (reverse (tree st))
  end.

(** The [for _ in 0..count] loop with its [break] on an empty tree. *)
Fixpoint pop_loop (t : list (f64 * bytes)) (h : gmap bytes f64) (count : Z)
    (values : list (bytes * f64)) : SortedSet * list (bytes * f64) :=
  if count <=? 0 then (mkSortedSet t h, values)
  else
    match t with
    | [] => (mkSortedSet t h, values)
    | (score, member) :: t' => pop_loop t' (delete member h) (count - 1) (values ++ [(member, score)])
    end.

Definition zpop_min (st : SortedSet) (count : option Z) : SortedSet * list (bytes * f64) :=
  match count with
  | Some 0 => (st, [])
  | _ =>
      let count := match count with None => 1 | Some c => c end in
      pop_loop (tree st) (hash st) count []
  end.

(** ** The invariant: tree and map hold the same scores *)

Definition WF (st : SortedSet) : Prop :=
  bt_sorted entry_cmp (tree st) /\
  forall s m, (s, m) ∈ tree st <-> hash st !! m = Some s.

#[global] Instance entry_cmp_total : TotalCmp entry_cmp.
Proof. unfold entry_cmp. apply _. Qed.

Lemma entry_cmp_member s m s' m' : entry_cmp (s, m) (s', m') = Eq -> m = m'.
Proof.
  unfold entry_cmp, pair_cmp. simpl. destruct (of_cmp s s'); try done. by intros ?%bytes_cmp_eq.
Qed.

Lemma zset_new_wf : WF zset_new.
Proof. split; [constructor|]. intros s m. simpl. rewrite elem_of_nil, lookup_empty. naive_solver. Qed.

Lemma wf_insert st m s : WF st -> hash st !! m = None ->
  WF (mkSortedSet (bt_insert entry_cmp (s, m) (tree st)) (<[m := s]> (hash st))).
Proof.
  intros [Hs Hmem] Hm. split; simpl; [apply (bt_insert_sorted entry_cmp); done|].
  intros s' m'. rewrite (elem_of_bt_insert entry_cmp).
  - rewrite Hmem, lookup_insert. case_decide as E; [subst|naive_solver].
    rewrite Hm. naive_solver.
  - apply Forall_forall. intros [s0 m0] Hin E%entry_cmp_member. subst.
    apply Hmem in Hin. congruence.
Qed.

Lemma wf_remove st m s : WF st -> hash st !! m = Some s ->
  WF (mkSortedSet (bt_remove entry_cmp (s, m) (tree st)) (delete m (hash st))).
Proof.
  intros [Hs Hmem] Hm. split; simpl; [apply (bt_remove_sorted entry_cmp); done|].
  intros s' m'. rewrite (elem_of_bt_remove entry_cmp) by done. rewrite Hmem, lookup_delete. case_decide as E.
  - subst m'. split; [|done]. intros [E Hne]. rewrite Hm in E. injection E as <-.
    by rewrite (cmp_refl entry_cmp) in Hne.
  - split; [tauto|]. intros ?. split; [done|]. by intros ?%entry_cmp_member.
Qed.

Lemma wf_replace st m old s : WF st -> hash st !! m = Some old ->
  WF (mkSortedSet (bt_insert entry_cmp (s, m) (bt_remove entry_cmp (old, m) (tree st)))
        (<[m := s]> (hash st))).
Proof.
  intros Hwf Hm. pose proof (wf_remove st m old Hwf Hm) as H1.
  apply (wf_insert _ m s) in H1; simpl in H1; [|apply lookup_delete_eq].
  by rewrite insert_delete_eq in H1.
Qed.

Create HintDb zset discriminated.
#[local] Hint Resolve wf_insert wf_remove wf_replace : zset.

Lemma zadd_one_wf req st a c mem : WF st -> WF (zadd_one req (st, a, c) mem).1.1.
Proof.
  intros Hwf. unfold zadd_one. destruct mem as [m s].
  repeat dmatch; simpl; eauto with zset.
Qed.

Lemma zadd_wf st req : WF st -> WF (zadd st req).1.
Proof.
  intros Hwf. unfold zadd.
  assert (Hloop : forall ms acc, WF acc.1.1 -> WF (foldl (zadd_one req) acc ms).1.1).
  { induction ms as [|m ms IH]; intros [[st0 a] c] H0; [done|]. simpl. apply IH. by apply zadd_one_wf. }
  specialize (Hloop (za_members req) (st, 0, 0) Hwf). destruct (foldl _ _ _) as [[st' a] c]. done.
Qed.

Lemma zrem_wf st ms : WF st -> WF (zrem st ms).1.
Proof.
  intros Hwf. unfold zrem. generalize 0. revert st Hwf.
  induction ms as [|m ms IH]; intros st Hwf r; [done|]. simpl.
  destruct (hash st !! m) as [s|] eqn:E; eauto with zset.
Qed.

Lemma zincrby_wf st m inc : WF st -> WF (zincrby st m inc).1.
Proof. intros Hwf. unfold zincrby. repeat dmatch; simpl; eauto with zset. Qed.

(** Popping the first element of a well-formed set. *)
Lemma wf_pop s m t h : WF (mkSortedSet ((s, m) :: t) h) -> WF (mkSortedSet t (delete m h)).
Proof.
  intros Hwf. assert (Hm : h !! m = Some s) by (apply Hwf; simpl; by left).
  pose proof (wf_remove _ m s Hwf Hm) as Hr. simpl in Hr. by rewrite (cmp_refl entry_cmp) in Hr.
Qed.

Lemma pop_loop_spec t h count vs : WF (mkSortedSet t h) ->
  let n := Z.to_nat count in
  let r := pop_loop t h count vs in
  WF r.1 /\ tree r.1 = drop n t /\ r.2 = vs ++ map swap_pair (take n t) /\
  hash r.1 = filter (fun kv : bytes * f64 => kv.1 ∉ (take n t).*2) h.
Proof.
  revert h count vs. induction t as [|[s m] t IH]; intros h count vs Hwf; cbv zeta; simpl.
  - rewrite drop_nil, take_nil. simpl. rewrite app_nil_r.
    assert (E : h = filter (fun kv : bytes * f64 => kv.1 ∉ @nil bytes) h).
    { symmetry. apply map_filter_id. intros k v _. simpl. apply not_elem_of_nil. }
    destruct (count <=? 0); done.
  - destruct (Z.leb_spec count 0).
    + replace (Z.to_nat count) with O by lia. simpl. rewrite app_nil_r. split_and!; [done|done|done|].
      symmetry. apply map_filter_id. intros k v _. simpl. apply not_elem_of_nil.
    + destruct (IH (delete m h) (count - 1) (vs ++ [(m, s)]) (wf_pop _ _ _ _ Hwf)) as (H1 & H2 & H3 & H4).
      replace (Z.to_nat count) with (S (Z.to_nat (count - 1))) by lia. simpl.
      split_and!; [done|done| |].
      * rewrite H3, <- (assoc_L (++)). done.
      * rewrite H4. apply map_eq. intros k. apply option_eq. intros v.
        rewrite !map_lookup_filter_Some, lookup_delete_Some. simpl. rewrite not_elem_of_cons. naive_solver.
Qed.

Lemma zpop_min_wf st count : WF st -> WF (zpop_min st count).1.
Proof.
  intros Hwf. destruct st as [t h]. unfold zpop_min. destruct count as [[|c|c]|]; try done; by apply pop_loop_spec.
Qed.

(** ** The tree is the sorted listing of the map *)

(** The (score, member) pairs of a map, in no particular order. *)
Definition entries (h : gmap bytes f64) : list (f64 * bytes) :=
  (fun kv : bytes * f64 => (kv.2, kv.1)) <$> map_to_list h.

Lemma elem_of_entries h s m : (s, m) ∈ entries h <-> h !! m = Some s.
Proof.
  unfold entries. rewrite list_elem_of_fmap. split.
  - by intros ([k v] & [= -> ->] & ?%elem_of_map_to_list).
  - intros Hm. exists (m, s). split; [done|]. by apply elem_of_map_to_list.
Qed.

Lemma entries_nodup h : NoDup (entries h).
Proof.
  apply (NoDup_fmap_2_strong _); [|apply NoDup_map_to_list].
  by intros [k v] [k' v'] _ _ [= -> ->].
Qed.

Lemma tree_entries st : WF st -> tree st ≡ₚ entries (hash st).
Proof.
  intros [Hs Hmem]. apply NoDup_Permutation.
  - by apply (bt_sorted_nodup entry_cmp).
  - apply entries_nodup.
  - intros [s m]. by rewrite Hmem, elem_of_entries.
Qed.

Lemma wf_length st : WF st -> length (tree st) = size (hash st).
Proof.
  intros Hwf. rewrite (tree_entries st Hwf). unfold entries.
  by rewrite length_fmap, length_map_to_list.
Qed.

Lemma tree_filter_count st (P : f64 * bytes -> Prop) `{forall x, Decision (P x)} :
  WF st -> length (filter P (tree st)) = length (filter P (entries (hash st))).
Proof. intros Hwf. by rewrite (tree_entries st Hwf). Qed.

(** ** Ranges by score *)

Definition score_in (min max : f64) (min_ex max_ex : bool) (s : f64) : bool :=
  ((if min_ex then f64_lt min s else f64_le min s) &&
   (if max_ex then f64_lt s max else f64_le s max))%bool.

Lemma score_in_empty min max a b s : f64_lt max min = true -> score_in min max a b s = false.
Proof.
  intros (H1 & H2 & Hlt)%f64_lt_cmp. unfold score_in. apply not_true_iff_false. intros [Ha Hb]%andb_prop.
  assert (Hge : of_cmp min s <> Gt /\ of_cmp s max <> Gt /\ is_nan s = false).
  { destruct a, b; rewrite ?f64_lt_cmp, ?f64_le_cmp in *; intuition congruence. }
  destruct Hge as (Hge1 & Hge2 & Hs).
  assert (Hms : of_cmp max s = Lt).
  { destruct (of_cmp min s) eqn:E; [|by eapply (cmp_lt_trans of_cmp)|done].
    by rewrite <- (cmp_eq_r of_cmp _ _ max E). }
  apply Hge2. by apply (cmp_gt_lt of_cmp).
Qed.

Lemma zcount_filter st min max a b :
  zcount st min max a b =
    Z.of_nat (length (filter (fun e : f64 * bytes => score_in min max a b e.1 = true) (tree st))).
Proof.
  unfold zcount. destruct (tree st) as [|e t] eqn:Et; [done|]. rewrite <- Et. clear e t Et.
  destruct (f64_lt max min) eqn:E; [|done].
  rewrite list_filter_none; [done|]. apply Forall_forall. intros e _.
  by rewrite (score_in_empty _ _ _ _ _ E).
Qed.

(** [range((min, "")..)] and [take_while(score <= max)] select the scores in
    the closed interval, also for NaN bounds and signed zeros. *)
Lemma range_filter st min max : WF st ->
  take_while (fun e => f64_le e.1 max) (bt_range_from entry_cmp (min, []) (tree st)) =
  filter (fun e : f64 * bytes => score_in min max false false e.1 = true) (tree st).
Proof.
  intros [Hs _].
  assert (Hq : forall e, entry_cmp e (min, []) = Lt <-> of_cmp e.1 min = Lt).
  { intros [sc m]. unfold entry_cmp, pair_cmp. simpl. by destruct (of_cmp sc min), m. }
  rewrite (range_take_while_filter entry_cmp (min, []) _
    (fun e => match of_cmp e.1 min with Lt => true | _ => false end)); [|done| |].
  - apply list_filter_iff. intros [sc m]. unfold score_in. cbn [fst].
    rewrite !andb_true_iff, !f64_le_cmp, negb_true_iff, (cmp_antisym of_cmp min sc).
    split; intros Hc; destruct_and! Hc; split_and!; try done.
    + destruct min; try done. by rewrite of_cmp_nan_l in *.
    + by destruct (of_cmp min sc).
    + by destruct (of_cmp min sc).
  - intros [s1 m1] [s2 m2] Hlt (Hn2 & Hnm & Hle)%f64_le_cmp _. apply f64_le_cmp. cbn [fst] in *.
    assert (Hle1 : of_cmp s1 s2 <> Gt).
    { unfold entry_cmp, pair_cmp in Hlt. cbn [fst] in Hlt. by destruct (of_cmp s1 s2). }
    split_and!; [|done|].
    + destruct s1; try done. rewrite of_cmp_nan_l in Hle1 by done. done.
    + by eapply (cmp_le_trans of_cmp).
  - intros e. rewrite Hq. by destruct (of_cmp e.1 min).
Qed.

(** ** Histories *)

(** The mutating operations, as a history applies them to an initially empty
    set. *)
Inductive zop :=
| OpZAdd (req : ZAddReq)
| OpZRem (members : list bytes)
| OpZIncrBy (member : bytes) (increment : f64)
| OpZPopMin (count : option Z).

Definition zset_apply (st : SortedSet) (op : zop) : SortedSet :=
  match op with
  | OpZAdd req => (zadd st req).1
  | OpZRem ms => (zrem st ms).1
  | OpZIncrBy m inc => (zincrby st m inc).1
  | OpZPopMin c => (zpop_min st c).1
  end.

Definition zset_run (ops : list zop) : SortedSet := foldl zset_apply zset_new ops.

(** C18: after any history of ZADD, ZREM, ZINCRBY and ZPOPMIN, with any scores
    (NaN and both zeros included), the ordered tree is strictly sorted by
    (score, member) and holds exactly the pairs of the member map; in
    particular both have the same size. *)
Theorem zset_history_wf (ops : list zop) :
  let st := zset_run ops in
  bt_sorted entry_cmp (tree st) /\
  (forall s m, (s, m) ∈ tree st <-> hash st !! m = Some s) /\
  zset_len st = Z.of_nat (length (tree st)).
Proof.
  assert (Hwf : forall st, WF st -> WF (foldl zset_apply st ops)).
  { induction ops as [|op ops IH]; intros st Hst; [done|]. simpl. apply IH.
    destruct op; simpl; auto using zadd_wf, zrem_wf, zincrby_wf, zpop_min_wf. }
  specialize (Hwf _ zset_new_wf). cbv zeta. unfold zset_run, zset_len.
  by rewrite (wf_length _ Hwf); destruct Hwf.
Qed.

(** ** ZRANK, ZREVRANK *)

Lemma wf_mem st m s : WF st -> hash st !! m = Some s -> (s, m) ∈ tree st.
Proof. intros [_ Hmem]. apply Hmem. Qed.

Lemma zrank_spec st m s : WF st -> hash st !! m = Some s ->
  zrank st m = Some (Z.of_nat (length (filter (fun e => entry_cmp e (s, m) = Lt) (tree st)))).
Proof.
  intros Hwf Hm. unfold zrank, cmp_eqb. rewrite Hm.
  rewrite (bt_position_rank entry_cmp (s, m)); [done|apply Hwf|by apply wf_mem].
Qed.

Lemma position_ext {A} (p q : A -> bool) l : (forall x, p x = q x) -> position p l = position q l.
Proof. intros Hpq. induction l as [|x l IH]; simpl; [done|]. by rewrite Hpq, IH. Qed.

Lemma zrevrank_spec st m s : WF st -> hash st !! m = Some s ->
  zrevrank st m = Some (Z.of_nat (length (filter (fun e => entry_cmp (s, m) e = Lt) (tree st)))).
Proof.
  intros Hwf Hm. unfold zrevrank, cmp_eqb. rewrite Hm.
  pose proof (flip_cmp_total entry_cmp _) as Hflip.
  pose proof (bt_position_rank (flip entry_cmp) (s, m) (reverse (tree st))) as Hpos.
  rewrite (position_ext _ (fun y => match flip entry_cmp y (s, m) with Eq => true | _ => false end)).
  - rewrite Hpos; [|by apply bt_sorted_reverse, Hwf|by apply elem_of_reverse_2, wf_mem].
    unfold flip. by rewrite (reverse_Permutation (tree st)).
  - intros x. unfold flip. rewrite (cmp_antisym entry_cmp x (s, m)). by destruct (entry_cmp x (s, m)).
Qed.

(** ZRANK of a member is the number of members that sort strictly before
    it by (score, member), ZREVRANK the number that sort strictly after it,
    and both are nil exactly for non-members. *)
Theorem zrank_counts_below (st : SortedSet) (m : bytes) : WF st ->
  match zscore st m with
  | None => zrank st m = None /\ zrevrank st m = None
  | Some s =>
      zrank st m = Some (Z.of_nat (length (filter (fun e => entry_cmp e (s, m) = Lt) (entries (hash st))))) /\
      zrevrank st m = Some (Z.of_nat (length (filter (fun e => entry_cmp (s, m) e = Lt) (entries (hash st)))))
  end.
Proof.
  intros Hwf. unfold zscore. destruct (hash st !! m) as [s|] eqn:Hm.
  - by rewrite (zrank_spec _ _ _ Hwf Hm), (zrevrank_spec _ _ _ Hwf Hm), !tree_filter_count.
  - unfold zrank, zrevrank. by rewrite Hm.
Qed.

(** ** ZRANGE *)

Lemma tree_lookup_rank st i s m : WF st ->
  tree st !! i = Some (s, m) <-> hash st !! m = Some s /\ zrank st m = Some (Z.of_nat i).
Proof.
  intros Hwf. split.
  - intros Hi. assert (Hm : hash st !! m = Some s) by (apply Hwf; by eapply list_elem_of_lookup_2).
    split; [done|]. rewrite (zrank_spec _ _ _ Hwf Hm).
    by rewrite (bt_lookup_rank entry_cmp _ _ i (proj1 Hwf) Hi).
  - intros [Hm Hr]. pose proof (wf_mem _ _ _ Hwf Hm) as [j Hj]%list_elem_of_lookup.
    rewrite (zrank_spec _ _ _ Hwf Hm), (bt_lookup_rank entry_cmp _ _ j (proj1 Hwf) Hj) in Hr.
    by replace i with j by (injection Hr; lia).
Qed.

(** The index a Redis range argument denotes. *)
Definition rank_of_index (st : SortedSet) (i : Z) : Z :=
  if i <? 0 then zset_len st + i else i.

(** The slice of the tree [zrange] returns. *)
Lemma zrange_slice st start stop : WF st -> exists k n, 
  zrange st start stop = map swap_pair (take n (drop k (tree st))) /\
  forall i, (i < length (tree st))%nat ->
    (k <= i < k + n)%nat <-> rank_of_index st start <= Z.of_nat i <= rank_of_index st stop.
Proof.
  intros Hwf. unfold zrange, rank_of_index, zset_len. rewrite <- (wf_length _ Hwf).
  set (len := length (tree st)). cbv zeta. rewrite ztake_take, zdrop_drop.
  repeat match goal with |- context [if ?b then _ else _] =>
    lazymatch b with context [if _ then _ else _] => fail | _ => destruct b eqn:? end end;
  zbool;
  repeat match goal with H : (_ || _)%bool = _ |- _ => apply orb_true_iff in H || apply orb_false_iff in H end;
  zbool;
  try (exists O, O; split; [done|]; intros i Hi; rewrite ?orb_true_iff, ?Z.leb_le, ?Z.ltb_lt in *; lia);
  match goal with |- context [drop ?k (tree st)] =>
    match goal with |- context [take ?n (drop k _)] => exists k, n end end;
  (split; [done|]); intros i Hi; rewrite ?orb_false_iff, ?Z.leb_gt, ?Z.ltb_ge in *; lia.
Qed.

(** ZRANGE returns exactly the members whose rank lies between the two
    indices (negative ones counted from the end, no clamping in the
    statement), with their scores, in increasing (score, member) order. *)
Theorem zrange_by_rank (st : SortedSet) (start stop : Z) : WF st ->
  (forall m s, (m, s) ∈ zrange st start stop <->
     zscore st m = Some s /\
     exists r, zrank st m = Some r /\ rank_of_index st start <= r <= rank_of_index st stop) /\
  bt_sorted entry_cmp (map (fun p => (p.2, p.1)) (zrange st start stop)).
Proof.
  intros Hwf. destruct (zrange_slice st start stop Hwf) as (k & n & -> & Hidx). split.
  - intros m s. unfold zscore. rewrite list_elem_of_fmap. split.
    + intros ([s' m'] & [= -> ->] & (i & Hi & Hx)%elem_of_take_drop).
      pose proof (lookup_lt_Some _ _ _ Hx). apply tree_lookup_rank in Hx as [Hm Hr]; [|done].
      split; [done|]. exists (Z.of_nat i). split; [done|]. by apply Hidx.
    + intros [Hm (r & Hr & Hb)]. exists (s, m). split; [done|].
      pose proof (wf_mem _ _ _ Hwf Hm) as [i Hi]%list_elem_of_lookup.
      pose proof (proj1 (tree_lookup_rank _ _ _ _ Hwf) Hi) as [_ Hr'].
      apply elem_of_take_drop. exists i. split; [|done].
      apply Hidx; [by eapply lookup_lt_Some|]. rewrite Hr in Hr'. injection Hr' as <-. done.
  - rewrite map_map. rewrite (map_ext _ id) by (by intros []). rewrite map_id.
    eapply (bt_sorted_sublist entry_cmp); [|apply Hwf].
    etrans; [apply sublist_take|apply sublist_drop].
Qed.

(** ** ZRANGEBYSCORE, ZCOUNT *)

Lemma zrangebyscore_filter st min max limit : WF st ->
  zrangebyscore st min max limit =
    map swap_pair
      (ztake (match limit with Some (_, c) => c | None => u64_max end)
        (zdrop (match limit with Some (o, _) => o | None => 0 end)
          (filter (fun e : f64 * bytes => score_in min max false false e.1 = true) (tree st)))).
Proof.
  intros Hwf. unfold zrangebyscore. rewrite (range_filter _ _ _ Hwf).
  destruct (tree st) as [|e t] eqn:Et; [by rewrite filter_nil, zdrop_drop, drop_nil, ztake_take, take_nil|].
  rewrite <- Et. clear e t Et. destruct (f64_lt max min) eqn:E.
  - rewrite list_filter_none; [by rewrite zdrop_drop, drop_nil, ztake_take, take_nil|]. apply Forall_forall.
    intros e _. by rewrite (score_in_empty _ _ _ _ _ E).
  - destruct (Z.eqb_spec (match limit with Some (_, c) => c | None => u64_max end) 0) as [E0|E0]; [|done].
    by rewrite E0, ztake_take.
Qed.

(** ZRANGEBYSCORE without LIMIT lists exactly the members whose score
    lies in the closed interval, in (score, member) order; ZCOUNT of the same
    interval is its length; LIMIT offset count cuts the slice
    [offset, offset+count) out of it. NaN bounds select nothing. The size bound
    is the address space's. *)
Theorem zrangebyscore_spec (st : SortedSet) (min max : f64) (offset count : Z) :
  WF st -> zset_len st <= u64_max ->
  (forall m s, (m, s) ∈ zrangebyscore st min max None <->
     zscore st m = Some s /\ score_in min max false false s = true) /\
  bt_sorted entry_cmp (map (fun p => (p.2, p.1)) (zrangebyscore st min max None)) /\
  zcount st min max false false = Z.of_nat (length (zrangebyscore st min max None)) /\
  zrangebyscore st min max (Some (offset, count)) =
    ztake count (zdrop offset (zrangebyscore st min max None)).
Proof.
  intros Hwf Hlen. rewrite !zrangebyscore_filter by done.
  rewrite !ztake_take, !zdrop_drop. change (Z.to_nat 0) with O. rewrite drop_0.
  set (l := filter _ (tree st)).
  assert (Hsub : l `sublist_of` tree st) by apply sublist_filter.
  rewrite (take_ge l).
  2: { unfold zset_len in Hlen. rewrite <- (wf_length _ Hwf) in Hlen. apply sublist_length in Hsub. lia. }
  split_and!.
  - intros m s. unfold zscore. rewrite list_elem_of_fmap. split.
    + intros ([s' m'] & [= -> ->] & [Hin Hm]%list_elem_of_filter). split; [by apply Hwf|done].
    + intros [Hm Hin]. exists (s, m). split; [done|]. apply list_elem_of_filter. split; [done|by apply wf_mem].
  - rewrite map_map, (map_ext _ id) by (by intros []). rewrite map_id.
    by eapply (bt_sorted_sublist entry_cmp); [|apply Hwf].
  - by rewrite zcount_filter, length_map.
  - by rewrite <- firstn_map, <- skipn_map.
Qed.

(** ZCOUNT with any combination of exclusive bounds counts the members
    of the map whose score satisfies both bounds. *)
Theorem zcount_counts (st : SortedSet) (min max : f64) (min_ex max_ex : bool) : WF st ->
  zcount st min max min_ex max_ex =
    Z.of_nat (size (filter (fun kv : bytes * f64 => score_in min max min_ex max_ex kv.2 = true) (hash st))).
Proof.
  intros Hwf. rewrite zcount_filter, tree_filter_count by done. f_equal.
  unfold entries. rewrite filter_fmap_comm, length_fmap, <- length_map_to_list.
  apply Permutation_length, NoDup_Permutation.
  - apply NoDup_filter, NoDup_map_to_list.
  - apply NoDup_map_to_list.
  - intros [k v]. rewrite list_elem_of_filter, !elem_of_map_to_list, map_lookup_filter_Some. simpl. tauto.
Qed.

(** ** ZPOPMIN *)

(** ZPOPMIN pops the [count] first members (one without a count, all of
    them when there are fewer), returns them in order with their scores, and
    leaves exactly the others; the set left is well formed and every popped
    member sorts before every member left. *)
Theorem zpop_min_spec (st : SortedSet) (count : option Z) : WF st ->
  let n := Z.to_nat (default 1 count) in
  let '(st', popped) := zpop_min st count in
  WF st' /\
  popped = map swap_pair (take n (tree st)) /\
  tree st' = drop n (tree st) /\
  (forall m, zscore st' m = if bool_decide (m ∈ popped.*1) then None else zscore st m) /\
  (forall m s m' s', (m, s) ∈ popped -> zscore st' m' = Some s' -> entry_cmp (s, m) (s', m') = Lt).
Proof.
  intros Hwf. cbv zeta. set (n := Z.to_nat (default 1 count)).
  assert (Hpop : zpop_min st count = pop_loop (tree st) (hash st) (default 1 count) []).
  { destruct st as [t h], count as [[|c|c]|]; try done. by destruct t. }
  rewrite Hpop. destruct (pop_loop_spec (tree st) (hash st) (default 1 count) []) as (H1 & H2 & H3 & H4); [by destruct st|].
  destruct (pop_loop _ _ _ _) as [st' popped]. cbn [fst snd app] in *. fold n in H2, H3, H4.
  assert (Hmem : popped.*1 = (take n (tree st)).*2) by (rewrite H3; apply map_map).
  split_and!; [done|done|done| |].
  - intros m. unfold zscore. rewrite H4, Hmem. case_bool_decide as E.
    + apply map_lookup_filter_None. right. intros s _. simpl. tauto.
    + destruct (hash st !! m) as [s|] eqn:Hm.
      * by apply map_lookup_filter_Some.
      * apply map_lookup_filter_None. by left.
  - intros m s m' s' Hp Hs'. apply (wf_mem _ _ _ H1) in Hs'. rewrite H2 in Hs'.
    rewrite H3 in Hp. apply list_elem_of_fmap in Hp as ([? ?] & [= -> ->] & Hp).
    destruct Hwf as [Hs _]. rewrite <- (take_drop n (tree st)) in Hs.
    by apply StronglySorted_app in Hs as [Hs _]; apply Hs.
Qed.

(** ** ZADD *)

(** A reflexive and transitive relation on member maps that every turn of the
    loop respects is respected by the command. *)
Lemma zadd_preserves (R : gmap bytes f64 -> gmap bytes f64 -> Prop) req st :
  (forall h, R h h) -> (forall h1 h2 h3, R h1 h2 -> R h2 h3 -> R h1 h3) ->
  (forall st a c mem, mem ∈ za_members req -> R (hash st) (hash (zadd_one req (st, a, c) mem).1.1)) ->
  R (hash st) (hash (zadd st req).1).
Proof.
  intros Hrefl Htrans Hone. unfold zadd.
  assert (Hloop : forall ms acc, ms ⊆ za_members req ->
            R (hash acc.1.1) (hash (foldl (zadd_one req) acc ms).1.1)).
  { induction ms as [|m ms IH]; intros [[st0 a] c] Hms; [apply Hrefl|]. simpl.
    eapply Htrans; [apply (Hone st0 a c m), Hms; by left|]. apply IH. set_solver. }
  specialize (Hloop (za_members req) (st, 0, 0) ltac:(done)).
  by destruct (foldl _ _ _) as [[st' a] c].
Qed.

(** One turn leaves the map alone or writes the score its flags allow. *)
Lemma zadd_one_cases req st a c m s :
  let h' := hash (zadd_one req (st, a, c) (m, s)).1.1 in
  h' = hash st \/
  (h' = <[m := s]> (hash st) /\
   match hash st !! m with
   | None => za_xx req = false
   | Some old =>
       za_nx req = false /\
       (za_gt req = true -> f64_le s old = false) /\ (za_lt req = true -> f64_le old s = false)
   end).
Proof.
  cbv zeta. unfold zadd_one. destruct (hash st !! m) as [old|]; simpl.
  - destruct (za_nx req); simpl; [by left|]. rewrite andb_false_r.
    destruct (za_gt req), (f64_le s old) eqn:E1; simpl; try (by left);
    destruct (za_lt req), (f64_le old s) eqn:E2; simpl; try (by left);
    destruct (f64_eq old s); simpl; (by left) || (right; auto).
  - rewrite andb_false_r, andb_true_r. destruct (za_xx req); simpl; [by left|by right].
Qed.

Lemma f64_le_refl x : is_nan x = false -> f64_le x x = true.
Proof. intros Hx. apply f64_le_cmp. by rewrite (cmp_refl of_cmp). Qed.

Lemma f64_le_trans x y z : f64_le x y = true -> f64_le y z = true -> f64_le x z = true.
Proof.
  intros (?&?&?)%f64_le_cmp (?&?&?)%f64_le_cmp. apply f64_le_cmp.
  split_and!; [done..|]. by eapply (cmp_le_trans of_cmp).
Qed.

Lemma f64_le_total x y : is_nan x = false -> is_nan y = false -> f64_le x y = false -> f64_le y x = true.
Proof.
  intros Hx Hy Hn. apply f64_le_cmp. split_and!; [done..|]. rewrite (cmp_antisym of_cmp x y).
  intros E. apply not_true_iff_false in Hn. apply Hn, f64_le_cmp. by destruct (of_cmp x y).
Qed.

(** How GT and LT bound the score of one member over a step. *)
Definition score_monotone (req : ZAddReq) (m : bytes) (h h' : gmap bytes f64) : Prop :=
  forall s, is_nan s = false -> h !! m = Some s ->
  exists s', h' !! m = Some s' /\ is_nan s' = false /\
    (za_gt req = true -> f64_le s s' = true) /\ (za_lt req = true -> f64_le s' s = true).

Lemma score_monotone_refl req m h : score_monotone req m h h.
Proof. intros s Hs Hm. exists s. auto using f64_le_refl. Qed.

Lemma score_monotone_trans req m h1 h2 h3 :
  score_monotone req m h1 h2 -> score_monotone req m h2 h3 -> score_monotone req m h1 h3.
Proof.
  intros H12 H23 s Hs Hm. destruct (H12 s Hs Hm) as (s1 & Hm1 & Hn1 & Hg1 & Hl1).
  destruct (H23 s1 Hn1 Hm1) as (s2 & Hm2 & Hn2 & Hg2 & Hl2). exists s2. eauto 10 using f64_le_trans.
Qed.

Lemma zadd_one_monotone req st a c m0 s0 m : is_nan s0 = false ->
  score_monotone req m (hash st) (hash (zadd_one req (st, a, c) (m0, s0)).1.1).
Proof.
  intros Hs0. destruct (zadd_one_cases req st a c m0 s0) as [->|[-> Hold]]; [apply score_monotone_refl|].
  intros s Hs Hm. rewrite lookup_insert. case_decide as E.
  - subst m0. rewrite Hm in Hold. destruct Hold as (_ & Hg & Hl). exists s0.
    split_and!; auto using f64_le_total.
  - exists s. auto using f64_le_refl.
Qed.

(** ZADD's flags do what they promise, for every list of members,
    duplicates included: NX never changes the score of an existing member, XX
    never adds a member, and without NaN scores GT never lowers and LT never
    raises an existing score; members not named keep their score. *)
Theorem zadd_flags (st : SortedSet) (req : ZAddReq) :
  let st' := (zadd st req).1 in
  (za_nx req = true -> forall m s, zscore st m = Some s -> zscore st' m = Some s) /\
  (za_xx req = true -> forall m, zscore st m = None -> zscore st' m = None) /\
  (forall m, m ∉ (za_members req).*1 -> zscore st' m = zscore st m) /\
  (forall m s, Forall (fun p : bytes * f64 => is_nan p.2 = false) (za_members req) ->
     is_nan s = false -> zscore st m = Some s ->
     exists s', zscore st' m = Some s' /\
       (za_gt req = true -> f64_le s s' = true) /\ (za_lt req = true -> f64_le s' s = true)).
Proof.
  cbv zeta. unfold zscore. split_and!.
  - intros Hnx. apply (zadd_preserves (fun h h' => forall m s, h !! m = Some s -> h' !! m = Some s)); [auto..|].
    intros st0 a c [m0 s0] _ m s Hm.
    destruct (zadd_one_cases req st0 a c m0 s0) as [->|[-> Hold]]; [done|].
    rewrite lookup_insert_ne; [done|]. intros ->. rewrite Hm in Hold. by destruct Hold as [? _]; congruence.
  - intros Hxx. apply (zadd_preserves (fun h h' => forall m, h !! m = None -> h' !! m = None)); [auto..|].
    intros st0 a c [m0 s0] _ m Hm.
    destruct (zadd_one_cases req st0 a c m0 s0) as [->|[-> Hold]]; [done|].
    rewrite lookup_insert_ne; [done|]. intros ->. rewrite Hm in Hold. congruence.
  - intros m Hm. apply (zadd_preserves (fun h h' => h' !! m = h !! m)); [done|congruence|].
    intros st0 a c [m0 s0] Hin.
    destruct (zadd_one_cases req st0 a c m0 s0) as [->|[-> _]]; [done|].
    rewrite lookup_insert_ne; [done|]. intros ->. apply Hm, list_elem_of_fmap. by exists (m, s0).
  - intros m s Hnan Hs Hm.
    destruct (zadd_preserves (score_monotone req m) req st
      (score_monotone_refl req m) (score_monotone_trans req m)) with (s := s) as (s' & ? & _ & ? & ?);
      [|done|done|by eauto].
    intros st0 a c [m0 s0] Hin. apply zadd_one_monotone. by apply (proj1 (Forall_forall _ _) Hnan) in Hin.
Qed.

(** The counters of the loop: [added] is the growth of the map. *)
Lemma zadd_loop_added req ms : forall st a c,
  let r := foldl (zadd_one req) (st, a, c) ms in
  r.1.2 - a = zset_len r.1.1 - zset_len st.
Proof.
  induction ms as [|[m s] ms IH]; intros st a c; cbv zeta; [simpl; lia|]. cbn [foldl].
  destruct (zadd_one req (st, a, c) (m, s)) as [[st1 a1] c1] eqn:E1. specialize (IH st1 a1 c1). cbv zeta in IH.
  enough (a1 - a = zset_len st1 - zset_len st) by lia. clear IH. unfold zadd_one, zset_len in *.
  destruct (hash st !! m) as [old|] eqn:Hm; repeat dmatch_in E1; simplify_eq; simpl; try lia.
  - rewrite map_size_insert_Some by (by eexists). lia.
  - rewrite map_size_insert_None by done. lia.
Qed.

(** Without CH, ZADD replies the number of members added, which is how
    much the cardinality grew; for all flags, duplicates in the request
    included. *)
Theorem zadd_reply_added (st : SortedSet) (req : ZAddReq) : za_ch req = false ->
  (zadd st req).2 = zset_len (zadd st req).1 - zset_len st.
Proof.
  intros Hch. unfold zadd. pose proof (zadd_loop_added req (za_members req) st 0 0) as E.
  destruct (foldl _ _ _) as [[st' a] c]. simpl in *. rewrite Hch. lia.
Qed.

End SortedSet.

(** ** Witnesses on a concrete set: c (score 0), a and b (score 1) *)

Definition sample_req : ZAddReq :=
  mkZAddReq [] false false false false false
    [([Byte.x62], f64_of_Z 1); ([Byte.x61], f64_of_Z 1); ([Byte.x63], f64_of_Z 0)].

Definition sample_zset : SortedSet := (zadd zset_new sample_req).1.

Lemma sample_zset_wf : WF sample_zset.
Proof. apply zadd_wf, zset_new_wf. Qed.

Lemma zrank_counts_below_witness :
  zrank sample_zset [Byte.x62] = Some 2 /\ zrevrank sample_zset [Byte.x62] = Some 0.
Proof. exact (zrank_counts_below sample_zset [Byte.x62] sample_zset_wf). Defined.

Lemma zrange_by_rank_witness :
  bt_sorted entry_cmp (map (fun p => (p.2, p.1)) (zrange sample_zset (-2) 5)) /\
  zrange sample_zset (-2) 5 = [([Byte.x61], f64_of_Z 1); ([Byte.x62], f64_of_Z 1)].
Proof. split; [apply (zrange_by_rank sample_zset (-2) 5 sample_zset_wf)|vm_compute; reflexivity]. Defined.

Lemma zrangebyscore_spec_witness :
  zrangebyscore sample_zset (f64_of_Z 1) (f64_of_Z 1) (Some (1, 5)) = [([Byte.x62], f64_of_Z 1)].
Proof.
  destruct (zrangebyscore_spec sample_zset (f64_of_Z 1) (f64_of_Z 1) 1 5 sample_zset_wf) as (_ & _ & _ & E).
  - vm_compute. discriminate.
  - rewrite E. vm_compute. reflexivity.
Defined.

Lemma zcount_counts_witness : zcount sample_zset (f64_of_Z 0) (f64_of_Z 1) true false = 2.
Proof.
  rewrite (zcount_counts sample_zset (f64_of_Z 0) (f64_of_Z 1) true false sample_zset_wf).
  vm_compute. reflexivity.
Defined.

Lemma zpop_min_spec_witness :
  WF (zpop_min sample_zset (Some 2)).1 /\
  (zpop_min sample_zset (Some 2)).2 = [([Byte.x63], f64_of_Z 0); ([Byte.x61], f64_of_Z 1)].
Proof.
  pose proof (zpop_min_spec sample_zset (Some 2) sample_zset_wf) as Hs. cbv zeta in Hs.
  destruct (zpop_min sample_zset (Some 2)) as [st' popped] eqn:E.
  destruct Hs as (Hwf & Hp & _). split; [exact Hwf|]. cbn [snd]. rewrite Hp. vm_compute. reflexivity.
Defined.

Lemma zadd_reply_added_witness : (zadd sample_zset sample_req).2 = 0.
Proof.
  rewrite (zadd_reply_added sample_zset sample_req eq_refl). vm_compute. reflexivity.
Defined.

Lemma zadd_flags_witness :
  zscore (zadd sample_zset (mkZAddReq [] true false false false false [([Byte.x61], f64_of_Z 7)])).1 [Byte.x61]
    = Some (f64_of_Z 1).
Proof.
  destruct (zadd_flags sample_zset (mkZAddReq [] true false false false false [([Byte.x61], f64_of_Z 7)])) as (Hnx & _).
  apply Hnx.
  - reflexivity.
  - vm_compute. reflexivity.
Defined.
