(* ===== verification/Mocha.v ===== *)
(** * Mocha: the expiring concurrent map under every database.

    Models [Mocha] of src/cache_cat/src/mocha/mod.rs: the map from keys to
    entries with an optional deadline, the channel to the expire worker, and
    the worker's time wheel. The map is papaya's concurrent [HashMap], seen
    through its atomic operations as a finite map; the channel is crossbeam's
    unbounded FIFO. The logic clock is shared by all databases, so it is an
    argument [now] of every operation: the value the operation loads.

    The main result is that lazy deletion, UNLINK's tombstones and the
    background worker are unobservable: every history of calls, clock advances
    and worker steps gives the replies of a map that forgets a key at its
    deadline. *)

From S2P Require Import Prelude TimeWheel Glob.

Inductive ExpirePolicy :=
| Persistent
| Absolute (at_ : Z)
| Ttl (ttl : Z).

Inductive ExpireCommand :=
| Schedule (key : bytes) (expire_at : Z)
| ScheduleBatch (items : list (TimerItem bytes))
| Advance
| AdvanceAndWait
| HasExpiredByLocalClock (now : Z).

(** What the worker sends on the [done] channel of a command. *)
Inductive WorkerReply :=
| NoReply
| Done
| HasExpired (b : bool).

Section Mocha.
Context {V : Type}.

Record EntrySnapshot := mkEntrySnapshot { value : V; expire_at : option Z }.

Definition get_expire_policy (e : EntrySnapshot) : ExpirePolicy :=
  match expire_at e with None => Persistent | Some v => Absolute v end.

Record Entry := mkEntry { e_value : V; e_expire_at : option Z }.

Definition snapshot (e : Entry) : EntrySnapshot := mkEntrySnapshot (e_value e) (e_expire_at e).

Inductive MochaOperation :=
| MInsert (value : V) (expire : ExpirePolicy)
| MRemove
| MAbort.

(** papaya's [Operation] and [Compute], and the atomic [compute]. The closures
    below never remove an absent entry. *)
Inductive Operation :=
| OInsert (e : Entry)
| ORemove
| OAbort.

Inductive Compute :=
| Inserted (new : Entry)
| Updated (old new : Entry)
| Removed (old : Entry)
| Aborted.

Definition compute (map : gmap bytes Entry) (key : bytes) (f : option Entry -> Operation)
    : gmap bytes Entry * Compute :=
  match f (map !! key), map !! key with
  | OInsert e, Some old => (<[key := e]> map, Updated old e)
  | OInsert e, None => (<[key := e]> map, Inserted e)
  | ORemove, Some old => (delete key map, Removed old)
  | ORemove, None => (map, Aborted)
  | OAbort, _ => (map, Aborted)
  end.

Record Mocha := mkMocha {
  map_ : gmap bytes Entry;
  expire_tx : list ExpireCommand;
  wheel : HierarchicalTimeWheel bytes
}.

(** The worker thread reads the clock once to start its wheel. *)
Definition mocha_new (now : Z) : Mocha := mkMocha ∅ [] (TimeWheel.new now).

Definition set_map (m : Mocha) (map : gmap bytes Entry) : Mocha :=
  mkMocha map (expire_tx m) (wheel m).

Definition send (m : Mocha) (cmd : ExpireCommand) : Mocha :=
  mkMocha (map_ m) (expire_tx m ++ [cmd]) (wheel m).

(** [expire_at.is_some_and(|at| now >= at)]. *)
Definition is_expired (now : Z) (e : Entry) : bool :=
  match e_expire_at e with Some at_ => at_ <=? now | None => false end.

Definition resolve_expire_at (now : Z) (policy : ExpirePolicy) : option Z :=
  match policy with
  | Persistent => None
  | Absolute at_ => Some at_
  | Ttl ttl => Some (u64_saturating_add now ttl)
  end.

Definition make_entry (now : Z) (v : V) (policy : ExpirePolicy) : Entry :=
  mkEntry v (resolve_expire_at now policy).

Definition enqueue_expiry (m : Mocha) (key : bytes) (at_ : option Z) : Mocha :=
  match at_ with
  | Some a => send m (Schedule key a)
  | None => m
  end.

Definition insert_entry (now : Z) (m : Mocha) (key : bytes) (v : V) (policy : ExpirePolicy)
    : Mocha * EntrySnapshot :=
  let new_entry := make_entry now v policy in
  let m1 := set_map m (<[key := new_entry]> (map_ m)) in
  (enqueue_expiry m1 key (e_expire_at new_entry), snapshot new_entry).

(** The worker's and the lazy deletion's [compute]: remove the entry if it
    still has the deadline that was seen and that deadline has passed. *)
Definition remove_expired_if_current_from (now : Z) (map : gmap bytes Entry) (key : bytes)
    (at_ : Z) : gmap bytes Entry * bool :=
  let '(map', r) := compute map key (fun entry =>
    match entry with
    | Some e => if (bool_decide (e_expire_at e = Some at_) && (at_ <=? now))%bool then ORemove else OAbort
    | None => OAbort
    end) in
  (map', match r with Removed _ => true | _ => false end).

Definition has_expired_if_current_from (map : gmap bytes Entry) (key : bytes) (at_ : Z) : bool :=
  match map !! key with
  | Some e => bool_decide (e_expire_at e = Some at_)
  | None => false
  end.

Definition insert_snapshot (now : Z) (m : Mocha) (key : bytes) (s : EntrySnapshot)
    : Mocha * EntrySnapshot :=
  let policy := match expire_at s with None => Persistent | Some a => Absolute a end in
  insert_entry now m key (value s) policy.

Definition get_entry (now : Z) (m : Mocha) (key : bytes) : Mocha * option EntrySnapshot :=
  match map_ m !! key with
  | None => (m, None)
  | Some e =>
      match e_expire_at e with
      | Some at_ =>
          if at_ <=? now
          then (set_map m (remove_expired_if_current_from now (map_ m) key at_).1, None)
          else (m, Some (snapshot e))
      | None => (m, Some (snapshot e))
      end
  end.

Definition get (now : Z) (m : Mocha) (key : bytes) : Mocha * option V :=
  let '(m', e) := get_entry now m key in (m', value <$> e).

Definition get_with_read_clock (now : Z) (m : Mocha) (key : bytes) (read_clock : option Z)
    : Mocha * option EntrySnapshot :=
  let '(m', r) := get_entry now m key in
  match r with
  | None => (m', None)
  | Some my_value =>
      match expire_at my_value, read_clock with
      | Some inner, Some time => (m', if inner <=? time then None else Some my_value)
      | _, _ => (m', Some my_value)
      end
  end.

Definition contains_key (now : Z) (m : Mocha) (key : bytes) : Mocha * bool :=
  let '(m', e) := get_entry now m key in (m', bool_decide (is_Some e)).

Definition ttl_remaining (now : Z) (m : Mocha) (key : bytes) : Mocha * option Z :=
  let '(m', r) := get_entry now m key in
  (m', (let* e := r in let* a := expire_at e in Some (u64_saturating_sub a now))).

Definition set_expire_policy (now : Z) (m : Mocha) (key : bytes) (policy : ExpirePolicy)
    : Mocha * option EntrySnapshot :=
  let '(map', r) := compute (map_ m) key (fun entry =>
    match entry with
    | Some e => if is_expired now e then ORemove else OInsert (make_entry now (e_value e) policy)
    | None => OAbort
    end) in
  let m1 := set_map m map' in
  match r with
  | Updated _ e => (enqueue_expiry m1 key (e_expire_at e), Some (snapshot e))
  | _ => (m1, None)
  end.

Definition remove_entry (now : Z) (m : Mocha) (key : bytes) : Mocha * option EntrySnapshot :=
  match map_ m !! key with
  | None => (m, None)
  | Some removed =>
      (set_map m (delete key (map_ m)),
       if is_expired now removed then None else Some (snapshot removed))
  end.

Definition remove (now : Z) (m : Mocha) (key : bytes) : Mocha * option V :=
  let '(m', e) := remove_entry now m key in (m', value <$> e).

(** The closure [unlink] and [unlink_batch] pass to [compute]. *)
Definition unlink_op (now : Z) (entry : option Entry) : Operation :=
  match entry with
  | Some e => if is_expired now e then OAbort else OInsert (mkEntry (e_value e) (Some now))
  | None => OAbort
  end.

Definition unlink (now : Z) (m : Mocha) (key : bytes) : Mocha * bool :=
  let '(map', r) := compute (map_ m) key (unlink_op now) in
  let m1 := set_map m map' in
  match r with
  | Updated _ _ => (enqueue_expiry m1 key (Some now), true)
  | _ => (m1, false)
  end.

(** The [for key in keys] loop of [unlink_batch]. *)
Fixpoint unlink_loop (now : Z) (map : gmap bytes Entry) (keys : list bytes)
    (items : list (TimerItem bytes)) : gmap bytes Entry * list (TimerItem bytes) :=
  match keys with
  | [] => (map, items)
  | key :: keys' =>
      let '(map', r) := compute map key (unlink_op now) in
      match r with
      | Updated _ _ => unlink_loop now map' keys' (items ++ [mkTimerItem key now])
      | _ => unlink_loop now map' keys' items
      end
  end.

Definition unlink_batch (now : Z) (m : Mocha) (keys : list bytes) : Mocha * Z :=
  let '(map', items) := unlink_loop now (map_ m) keys [] in
  let m1 := set_map m map' in
  let count := Z.of_nat (length items) in
  (if 0 <? count then send m1 (ScheduleBatch items) else m1, count).

Definition clear (m : Mocha) : Mocha := set_map m ∅.

Definition len (m : Mocha) : Z := Z.of_nat (size (map_ m)).

(** ** The worker thread *)

Definition advance_wheel (now : Z) (m : Mocha) : Mocha :=
  let '(w, map') := advance_to
    (fun key a map => (remove_expired_if_current_from now map key a).1) (wheel m) now (map_ m) in
  mkMocha map' (expire_tx m) w.

(** The body of [Schedule], and of each turn of [ScheduleBatch]'s loop. *)
Definition schedule_one (now : Z) (m : Mocha) (item : TimerItem bytes) : Mocha :=
  if ti_expire_at item <=? now
  then set_map m (remove_expired_if_current_from now (map_ m) (ti_key item) (ti_expire_at item)).1
  else mkMocha (map_ m) (expire_tx m) (TimeWheel.insert (wheel m) item).

Definition handle_expire_command (now : Z) (m : Mocha) (cmd : ExpireCommand)
    : Mocha * WorkerReply :=
  match cmd with
  | Schedule key a => (schedule_one now (advance_wheel now m) (mkTimerItem key a), NoReply)
  | ScheduleBatch items => (foldl (schedule_one now) (advance_wheel now m) items, NoReply)
  | Advance => (advance_wheel now m, NoReply)
  | AdvanceAndWait => (advance_wheel now m, Done)
  | HasExpiredByLocalClock now_local =>
      (m, HasExpired (has_due (wheel m) now_local (has_expired_if_current_from (map_ m))))
  end.

(** One receive of the worker loop. *)
Definition worker_step (now : Z) (m : Mocha) : Mocha * WorkerReply :=
  match expire_tx m with
  | [] => (m, NoReply)
  | cmd :: rest => handle_expire_command now (mkMocha (map_ m) rest (wheel m)) cmd
  end.

(** The [try_recv] loop over the commands queued so far; [n] is their number. *)
Fixpoint drain (n : nat) (now : Z) (m : Mocha) (r : WorkerReply) : Mocha * WorkerReply :=
  match n with
  | O => (m, r)
  | S n' => let '(m', r') := worker_step now m in drain n' now m' r'
  end.

Definition trigger_expire_cycle (m : Mocha) : Mocha := send m Advance.

(** [send] and wait for the answer: the worker has by then handled every
    command queued before. *)
Definition send_and_wait (now : Z) (m : Mocha) (cmd : ExpireCommand) : Mocha * WorkerReply :=
  let m1 := send m cmd in drain (length (expire_tx m1)) now m1 NoReply.

Definition active_expire_cycle_blocking (now : Z) (m : Mocha) : Mocha :=
  (send_and_wait now m AdvanceAndWait).1.

Definition has_expired_by_local_clock (now now_local : Z) (m : Mocha) : Mocha * bool :=
  let '(m', r) := send_and_wait now m (HasExpiredByLocalClock now_local) in
  (m', match r with HasExpired b => b | _ => false end).

(** ** KEYS *)

(** The closure of [filter_map] for one entry. *)
Definition keys_one (now : Z) (pattern : bytes) (read_clock : option Z) (kv : bytes * Entry)
    : outcome (option bytes) :=
  let hidden :=
    match e_expire_at kv.2 with
    | Some a =>
        ((a <=? now) || match read_clock with Some clock => a <=? clock | None => false end)%bool
    | None => false
    end in
  if hidden then Ret None
  else
    match matches pattern kv.1 with
    | Ret b => Ret (if b then Some kv.1 else None)
    | Panic => Panic
    | OutOfFuel => OutOfFuel
    end.

Fixpoint filter_map_outcome {A B} (f : A -> outcome (option B)) (l : list A) : outcome (list B) :=
  match l with
  | [] => Ret []
  | x :: l' =>
      match f x with
      | Ret o =>
          match filter_map_outcome f l' with
          | Ret r => Ret (match o with Some y => y :: r | None => r end)
          | e => e
          end
      | Panic => Panic
      | OutOfFuel => OutOfFuel
      end
  end.

(** [iter] is the order in which papaya's iterator visits the entries. *)
Definition keys (iter : list (bytes * Entry)) (now : Z) (pattern : bytes) (read_clock : option Z)
    : outcome (list bytes) :=
  filter_map_outcome (keys_one now pattern read_clock) iter.

End Mocha.

Arguments EntrySnapshot : clear implicits.
Arguments Entry : clear implicits.
Arguments MochaOperation : clear implicits.
Arguments Operation : clear implicits.
Arguments Compute : clear implicits.
Arguments Mocha : clear implicits.

(** ** The live entries *)

Section Live.
Context {V : Type}.
Implicit Types (map : gmap bytes (Entry V)) (e : Entry V) (m : Mocha V).

(** What a reader at clock [now] may see of a map. *)
Definition live (now : Z) map : gmap bytes (Entry V) :=
  filter (fun kv : bytes * Entry V => is_expired now kv.2 = false) map.

(** Writing an entry into a map without expired entries. *)
Definition put (now : Z) (k : bytes) e map : gmap bytes (Entry V) :=
  if is_expired now e then delete k map else <[k := e]> map.

Lemma live_lookup now map k :
  live now map !! k = (let* x := map !! k in if is_expired now x then None else Some x).
Proof.
  unfold live. apply option_eq. intros e. rewrite map_lookup_filter_Some. simpl.
  destruct (map !! k) as [e'|]; [|by split; [intros [? _]|]].
  destruct (is_expired now e') eqn:E; split; try done.
  - intros [[= <-] ?]. congruence.
  - by intros [[= <-] _].
  - by intros [= <-].
Qed.

Lemma live_insert now map k e : live now (<[k := e]> map) = put now k e (live now map).
Proof.
  apply map_eq. intros k'. unfold put. rewrite live_lookup, lookup_insert.
  destruct (is_expired now e) eqn:Ee; [rewrite lookup_delete|rewrite lookup_insert];
    case_decide; subst; rewrite ?live_lookup, ?Ee; done.
Qed.

Lemma live_delete now map k : live now (delete k map) = delete k (live now map).
Proof.
  apply map_eq. intros k'. rewrite live_lookup, !lookup_delete, live_lookup. by case_decide.
Qed.

Lemma live_empty now : live now (∅ : gmap bytes (Entry V)) = ∅.
Proof. apply map_eq. intros k. by rewrite live_lookup, !lookup_empty. Qed.

Lemma is_expired_mono now now' e : now <= now' -> is_expired now e = true -> is_expired now' e = true.
Proof. unfold is_expired. destruct (e_expire_at e); [|done]. intros ??. zbool. apply Z.leb_le. lia. Qed.

Lemma live_mono now now' map : now <= now' -> live now' (live now map) = live now' map.
Proof.
  intros Hle. apply map_eq. intros k. rewrite !live_lookup. destruct (map !! k) as [e|]; [|done].
  destruct (is_expired now e) eqn:E; [|done]. by rewrite (is_expired_mono _ _ _ Hle E).
Qed.

(** A removal by the worker, or by the lazy deletion of a read, that loaded the
    clock [now] is invisible at every clock from [now] on, whatever was
    written to the map between the load and the removal. *)
Lemma remove_expired_live now now' map k a : now <= now' ->
  live now' (remove_expired_if_current_from now map k a).1 = live now' map.
Proof.
  intros Hle. unfold remove_expired_if_current_from, compute.
  destruct (map !! k) as [e|] eqn:Ek; [|done].
  destruct (bool_decide (e_expire_at e = Some a)) eqn:Ea; simpl; [|done].
  destruct (Z.leb_spec a now); simpl; [|done].
  rewrite live_delete, delete_id; [done|]. rewrite live_lookup, Ek.
  apply bool_decide_eq_true in Ea. unfold is_expired. rewrite Ea.
  destruct (Z.leb_spec a now'); [done|lia].
Qed.

Lemma remove_expired_lookup now map k a k' e :
  (remove_expired_if_current_from now map k a).1 !! k' = Some e -> map !! k' = Some e.
Proof.
  unfold remove_expired_if_current_from, compute. repeat dmatch; simpl; try done.
  by intros [_ ?]%lookup_delete_Some.
Qed.

(** ** Timers cover the deadlines *)

(** The timers a queued command carries. *)
Definition cmd_items (c : ExpireCommand) : list (TimerItem bytes) :=
  match c with
  | Schedule k a => [mkTimerItem k a]
  | ScheduleBatch its => its
  | _ => []
  end.

Definition queued m : list (TimerItem bytes) := concat (cmd_items <$> expire_tx m).

(** Every deadline in the map has a timer queued, in the wheel or in flight
    ([extra]), the wheel's placement invariant holds and its clock is not
    ahead. *)
Definition Covered (now : Z) (extra : list (TimerItem bytes)) m : Prop :=
  is_u64 now /\ WheelInv (wheel m) /\ current (wheel m) <= now /\
  Forall (fun it => is_u64 (ti_expire_at it)) (extra ++ queued m) /\
  forall k e a, map_ m !! k = Some e -> e_expire_at e = Some a ->
    mkTimerItem k a ∈ extra ++ queued m \/ mkTimerItem k a ∈ items (wheels (wheel m)).

Definition MochaInv (now : Z) m : Prop := Covered now [] m.

Lemma mocha_new_inv now : is_u64 now -> MochaInv now (mocha_new (V:=V) now).
Proof.
  intros Hnow. split_and!; [done|apply new_inv; apply Hnow|simpl; lia|constructor|].
  intros k e a Hk. simpl in Hk. by rewrite lookup_empty in Hk.
Qed.

Lemma queued_send m c : queued (send m c) = queued m ++ cmd_items c.
Proof. unfold queued, send. cbn [expire_tx]. rewrite fmap_app, concat_app. cbn [fmap list_fmap concat]. by rewrite app_nil_r. Qed.

(** Removing entries keeps the invariant. *)
Lemma covered_shrink now extra m map :
  (forall k e, map !! k = Some e -> map_ m !! k = Some e) ->
  Covered now extra m -> Covered now extra (set_map m map).
Proof.
  intros Hsub (? & ? & ? & ? & Hcov). split_and!; [done..|].
  intros k e a Hk Ha. by eapply Hcov; [apply Hsub|].
Qed.

(** Writing an entry together with its [Schedule] command keeps it. *)
Lemma inv_write now m k e :
  (forall a, e_expire_at e = Some a -> is_u64 a) -> MochaInv now m ->
  MochaInv now (enqueue_expiry (set_map m (<[k := e]> (map_ m))) k (e_expire_at e)).
Proof.
  intros Hu (? & ? & ? & Hq & Hcov). unfold enqueue_expiry. destruct (e_expire_at e) as [a|] eqn:Ea.
  - assert (Eq : queued (send (set_map m (<[k:=e]> (map_ m))) (Schedule k a)) = queued m ++ [mkTimerItem k a])
      by (by rewrite queued_send).
    split_and!; [done..| |].
    + cbn [app] in *. rewrite Eq. apply Forall_app. split; [done|]. apply Forall_singleton. by apply Hu.
    + intros k' e' a' Hk' Ha'. rewrite Eq. cbn [app]. rewrite elem_of_app. simpl in Hk'.
      apply lookup_insert_Some in Hk' as [[-> ->]|[_ Hk']].
      * left. right. rewrite Ea in Ha'. injection Ha' as ->. by left.
      * destruct (Hcov _ _ _ Hk' Ha'); auto.
  - split_and!; [done..|]. intros k' e' a' Hk' Ha'. simpl in Hk'.
    apply lookup_insert_Some in Hk' as [[-> ->]|[_ Hk']]; [congruence|]. by eapply Hcov.
Qed.

(** ** The worker *)

(** A removal attempt at its own deadline leaves no entry with that deadline. *)
Lemma remove_expired_gone now map k a e : a <= now ->
  (remove_expired_if_current_from now map k a).1 !! k = Some e -> e_expire_at e <> Some a.
Proof.
  intros Ha. unfold remove_expired_if_current_from, compute. destruct (map !! k) as [e'|] eqn:Ek.
  - destruct (bool_decide (e_expire_at e' = Some a)) eqn:Ea; simpl.
    + destruct (Z.leb_spec a now); [|lia]. simpl. by rewrite lookup_delete_eq.
    + apply bool_decide_eq_false in Ea. rewrite Ek. by intros [= <-].
  - simpl. by rewrite Ek.
Qed.

(** The worker's callback over a list of fired timers. *)
Lemma fire_removals now map fired : 
  let map' := fire_all (fun k a mp => (remove_expired_if_current_from now mp k a).1) map fired in
  (forall now', now <= now' -> live now' map' = live now' map) /\
  (forall k e, map' !! k = Some e -> map !! k = Some e) /\
  (forall k e a, mkTimerItem k a ∈ fired -> a <= now -> map' !! k = Some e -> e_expire_at e <> Some a).
Proof.
  unfold fire_all. revert map. induction fired as [|[k0 a0] fired IH]; intros map; cbv zeta; cbn [foldl].
  { split_and!; [done|done|]. by intros ??? ?%not_elem_of_nil. }
  destruct (IH (remove_expired_if_current_from now map k0 a0).1) as (H1 & H2 & H3). split_and!.
  - intros now' Hle. rewrite H1 by done. by apply remove_expired_live.
  - intros k e Hk. by eapply remove_expired_lookup, H2.
  - intros k e a [[= -> ->]|Hin]%elem_of_cons Ha Hk; [|by eapply H3].
    by eapply remove_expired_gone, H2.
Qed.

Lemma advance_wheel_spec now extra m : Covered now extra m ->
  let m' := advance_wheel now m in
  Covered now extra m' /\ current (wheel m') = now /\ expire_tx m' = expire_tx m /\
  forall now', now <= now' -> live now' (map_ m') = live now' (map_ m).
Proof.
  intros (Hnow & Hw & Hc & Hq & Hcov). cbv zeta. unfold advance_wheel.
  destruct (advance_to_spec (fun k a mp => (remove_expired_if_current_from (V:=V) now mp k a).1)
    (wheel m) now (map_ m) Hw) as (w' & fired & -> & Hw' & Hc' & Hperm & Hfired & _).
  destruct (fire_removals now (map_ m) fired) as (Hlive & Hsub & Hgone).
  assert (Ec : current w' = now) by lia.
  split_and!; [|done|done|done]. split_and!; [done|done|simpl; lia|done|].
  cbn [map_ wheel]. intros k e a Hk Ha. destruct (Hcov k e a (Hsub _ _ Hk) Ha) as [?|Hin]; [by left|].
  rewrite Hperm in Hin. apply elem_of_app in Hin as [Hin|Hin]; [|by right].
  exfalso. eapply Hgone; [exact Hin| |exact Hk|exact Ha].
  apply (proj1 (Forall_forall _ _) Hfired) in Hin. simpl in Hin. lia.
Qed.

Lemma schedule_one_spec now it extra m : Covered now (it :: extra) m ->
  let m' := schedule_one now m it in
  Covered now extra m' /\ expire_tx m' = expire_tx m /\ current (wheel m') = current (wheel m) /\
  forall now', now <= now' -> live now' (map_ m') = live now' (map_ m).
Proof.
  intros (Hnow & Hw & Hc & Hq & Hcov). destruct it as [k0 a0]. cbv zeta. unfold schedule_one.
  cbn [ti_key ti_expire_at]. rewrite <- app_comm_cons in Hq. apply Forall_cons in Hq as [Hit Hq].
  cbn [ti_expire_at] in Hit. destruct (Z.leb_spec a0 now).
  - split_and!; [|done|done|intros; by apply remove_expired_live]. split_and!; [done..|].
    cbn [map_ set_map]. intros k e a Hk Ha.
    destruct (Hcov k e a (remove_expired_lookup _ _ _ _ _ _ Hk) Ha) as [Hin|Hin]; [|by right].
    left. rewrite <- app_comm_cons in Hin. apply elem_of_cons in Hin as [[= -> ->]|]; [|done].
    exfalso. by eapply remove_expired_gone in Hk.
  - assert (Hc0 : 0 <= current (wheel m)) by (by destruct Hw as (_ & ? & _)).
    destruct (items_insert (wheel m) (mkTimerItem k0 a0)) as (Hperm & _ & Ec); [apply Hw|simpl; unfold is_u64 in *; lia|].
    split_and!; [|done|done|done].
    split_and!; [done|apply insert_inv; [done|simpl; unfold is_u64 in *; lia]|simpl; lia|done|].
    cbn [map_ wheel]. intros k e a Hk Ha. rewrite Hperm, elem_of_cons.
    destruct (Hcov k e a Hk Ha) as [Hin|Hin]; [|auto].
    rewrite <- app_comm_cons in Hin. apply elem_of_cons in Hin as [?|?]; auto.
Qed.

Lemma schedule_all_spec now its extra m : Covered now (its ++ extra) m ->
  let m' := foldl (schedule_one now) m its in
  Covered now extra m' /\ expire_tx m' = expire_tx m /\ current (wheel m') = current (wheel m) /\
  forall now', now <= now' -> live now' (map_ m') = live now' (map_ m).
Proof.
  revert m. induction its as [|it its IH]; intros m Hm; cbv zeta; [done|]. cbn [foldl].
  destruct (schedule_one_spec now it (its ++ extra) m Hm) as (H1 & H2 & H3 & H4).
  destruct (IH _ H1) as (? & E2 & E3 & E4). split_and!; [done|congruence|congruence|].
  intros now' Hle. by rewrite E4, H4.
Qed.

(** A handled command consumes its timers; the live entries stay. *)
Lemma handle_spec now cmd m : Covered now (cmd_items cmd) m ->
  let m' := (handle_expire_command now m cmd).1 in
  MochaInv now m' /\ expire_tx m' = expire_tx m /\
  forall now', now <= now' -> live now' (map_ m') = live now' (map_ m).
Proof.
  intros Hm. cbv zeta. destruct cmd as [k a|its| | |nl]; cbn [handle_expire_command fst cmd_items] in *.
  3-4: destruct (advance_wheel_spec now [] m Hm) as (H1 & _ & H3 & H4); split_and!; done.
  3: done.
  - destruct (advance_wheel_spec now _ m Hm) as (H1 & _ & H3 & H4).
    destruct (schedule_one_spec now _ [] _ H1) as (E1 & E2 & _ & E4).
    split_and!; [done|congruence|]. intros now' Hle. by rewrite E4, H4.
  - destruct (advance_wheel_spec now _ m Hm) as (H1 & _ & H3 & H4).
    rewrite <- (app_nil_r its) in H1. destruct (schedule_all_spec now its [] _ H1) as (E1 & E2 & _ & E4).
    split_and!; [done|congruence|]. intros now' Hle. by rewrite E4, H4.
Qed.

Lemma worker_step_spec now m : MochaInv now m ->
  let m' := (worker_step now m).1 in
  MochaInv now m' /\ expire_tx m' = tail (expire_tx m) /\
  forall now', now <= now' -> live now' (map_ m') = live now' (map_ m).
Proof.
  intros Hm. cbv zeta. unfold worker_step. destruct (expire_tx m) as [|cmd rest] eqn:Eq; [done|].
  apply (handle_spec now cmd (mkMocha (map_ m) rest (wheel m))).
  destruct Hm as (H1 & H2 & H3 & H4 & H5).
  assert (E : queued m = cmd_items cmd ++ queued (mkMocha (map_ m) rest (wheel m))).
  { unfold queued. by rewrite Eq. }
  rewrite app_nil_l in *. rewrite E in *. by split_and!.
Qed.

Lemma drain_spec n now m r : MochaInv now m ->
  let m' := (drain n now m r).1 in
  MochaInv now m' /\ expire_tx m' = drop n (expire_tx m) /\
  forall now', now <= now' -> live now' (map_ m') = live now' (map_ m).
Proof.
  revert m r. induction n as [|n IH]; intros m r Hm; cbv zeta; [by rewrite drop_0|].
  cbn [drain]. destruct (worker_step_spec now m Hm) as (H1 & H2 & H3).
  destruct (worker_step now m) as [m1 r1]. cbn [fst] in *.
  destruct (IH m1 r1 H1) as (E1 & E2 & E3). split_and!; [done| |].
  - rewrite E2, H2. destruct (expire_tx m); cbn [tail]; [by rewrite !drop_nil|done].
  - intros now' Hle. by rewrite E3, H3.
Qed.

Lemma drain_last n now m r :
  drain (S n) now m r = worker_step now (drain n now m r).1.
Proof.
  revert m r. induction n as [|n IH]; intros m r; cbn [drain fst].
  - by destruct (worker_step now m).
  - destruct (worker_step now m) as [m1 r1]. apply IH.
Qed.

Lemma inv_send now m cmd : cmd_items cmd = [] -> MochaInv now m -> MochaInv now (send m cmd).
Proof.
  intros Hc (? & ? & ? & Hq & Hcov). unfold MochaInv, Covered in *.
  rewrite queued_send, Hc, app_nil_r. by split_and!.
Qed.

(** Waiting for a command: the worker is asked it in a state where the queue
    has been worked off and the live entries are the caller's. *)
Lemma send_and_wait_spec now m cmd : cmd_items cmd = [] -> MochaInv now m ->
  exists m1, MochaInv now m1 /\ expire_tx m1 = [] /\
    (forall now', now <= now' -> live now' (map_ m1) = live now' (map_ m)) /\
    send_and_wait now m cmd = handle_expire_command now m1 cmd.
Proof.
  intros Hc Hm. unfold send_and_wait. cbn [expire_tx send]. rewrite length_app, Nat.add_comm. cbn [length Nat.add].
  rewrite drain_last.
  destruct (drain_spec (length (expire_tx m)) now (send m cmd) NoReply (inv_send _ _ _ Hc Hm)) as (H1 & H2 & H3).
  destruct (drain _ now (send m cmd) NoReply) as [m1 r1]. cbn [fst expire_tx send] in *.
  rewrite drop_app_length in H2.
  exists (mkMocha (map_ m1) [] (wheel m1)). split_and!; [|done|done|].
  - destruct H1 as (? & ? & ? & Hq & Hcov). unfold MochaInv, Covered, queued in *. rewrite H2 in *.
    cbn [fmap list_fmap concat app map_ wheel expire_tx] in *. rewrite Hc in *. by split_and!.
  - unfold worker_step. by rewrite H2.
Qed.

(** With an empty queue the wheel knows every deadline. *)
Lemma wheel_covers now m k e a : MochaInv now m -> expire_tx m = [] ->
  map_ m !! k = Some e -> e_expire_at e = Some a -> mkTimerItem k a ∈ items (wheels (wheel m)).
Proof.
  intros (_ & _ & _ & _ & Hcov) Hq Hk Ha. destruct (Hcov k e a Hk Ha) as [Hin|]; [|done].
  unfold queued in Hin. rewrite Hq in Hin. by apply not_elem_of_nil in Hin.
Qed.

Lemma live_all now map : (forall k e, map !! k = Some e -> is_expired now e = false) -> live now map = map.
Proof. intros Hall. apply map_filter_id. intros k e Hk. by apply (Hall k). Qed.

Lemma expire_cycle_spec now m : MochaInv now m ->
  let m' := active_expire_cycle_blocking now m in
  map_ m' = live now (map_ m) /\ MochaInv now m'.
Proof.
  intros Hm. cbv zeta. unfold active_expire_cycle_blocking.
  destruct (send_and_wait_spec now m AdvanceAndWait eq_refl Hm) as (m1 & H1 & Hq & Hlive & ->).
  cbn [handle_expire_command fst]. destruct (advance_wheel_spec now [] m1 H1) as (H2 & Hc & Hq2 & Hlive2).
  split; [|done]. rewrite <- Hlive, <- Hlive2 by lia. symmetry. apply live_all. intros k e Hk.
  unfold is_expired. destruct (e_expire_at e) as [a|] eqn:Ea; [|done]. apply Z.leb_gt.
  assert (Hin : mkTimerItem k a ∈ items (wheels (wheel (advance_wheel now m1)))).
  { eapply wheel_covers; [exact H2|congruence|done|done]. }
  destruct H2 as (_ & Hw & _). apply (proj1 (Forall_forall _ _) (pending_later _ Hw)) in Hin.
  by rewrite Hc in Hin.
Qed.

(** An active expire cycle is complete and precise: when it returns, the
    map holds exactly the entries that were live at the clock it ran at, and
    the timer invariant holds again. *)
Theorem active_expire_cycle_exact now m : MochaInv now m ->
  let m' := active_expire_cycle_blocking now m in
  map_ m' = live now (map_ m) /\ MochaInv now m'.
Proof. apply expire_cycle_spec. Qed.

(** [has_expired_by_local_clock] answers whether some entry of the map has
    a deadline that the local clock has passed: no deadline escapes the wheel,
    and timers of replaced or removed entries are not counted. *)
Theorem has_expired_by_local_clock_exact now now_local m : MochaInv now m ->
  let '(m', b) := has_expired_by_local_clock now now_local m in
  (forall now', now <= now' -> live now' (map_ m') = live now' (map_ m)) /\
  (b = true <-> exists k e a, map_ m' !! k = Some e /\ e_expire_at e = Some a /\ a <= now_local).
Proof.
  intros Hm. unfold has_expired_by_local_clock.
  destruct (send_and_wait_spec now m (HasExpiredByLocalClock now_local) eq_refl Hm) as (m1 & H1 & Hq & Hlive & ->).
  cbn [handle_expire_command]. split; [done|].
  rewrite has_due_spec by apply H1. unfold has_expired_if_current_from. split.
  - intros ([k a] & _ & Hle & Hcur). cbn [ti_key ti_expire_at] in *.
    destruct (map_ m1 !! k) as [e|] eqn:Ek; [|done]. apply bool_decide_eq_true in Hcur. eauto 10.
  - intros (k & e & a & Hk & Ha & Hle). exists (mkTimerItem k a).
    split_and!; [by eapply wheel_covers|done|]. cbn [ti_key ti_expire_at]. rewrite Hk.
    by apply bool_decide_eq_true.
Qed.

(** ** Histories *)

(** The calls of the interface that write or read entries. *)
Inductive call :=
| CInsert (k : bytes) (v : V) (policy : ExpirePolicy)
| CInsertSnapshot (k : bytes) (s : EntrySnapshot V)
| CGet (k : bytes)
| CGetRead (k : bytes) (read_clock : option Z)
| CContains (k : bytes)
| CTtl (k : bytes)
| CSetExpire (k : bytes) (policy : ExpirePolicy)
| CRemove (k : bytes)
| CUnlink (k : bytes)
| CUnlinkBatch (ks : list bytes)
| CClear.

Inductive reply :=
| REntry (e : option (EntrySnapshot V))
| RTime (t : option Z)
| RBool (b : bool)
| RCount (n : Z)
| RUnit.

(** A call, a step of the worker thread, or an advance of the logic clock. *)
Inductive event :=
| Call (c : call)
| Worker
| Clock (t : Z).

Definition run_call (now : Z) m (c : call) : Mocha V * reply :=
  match c with
  | CInsert k v p => let '(m', s) := insert_entry now m k v p in (m', REntry (Some s))
  | CInsertSnapshot k s => let '(m', s') := insert_snapshot now m k s in (m', REntry (Some s'))
  | CGet k => let '(m', r) := get_entry now m k in (m', REntry r)
  | CGetRead k rc => let '(m', r) := get_with_read_clock now m k rc in (m', REntry r)
  | CContains k => let '(m', b) := contains_key now m k in (m', RBool b)
  | CTtl k => let '(m', t) := ttl_remaining now m k in (m', RTime t)
  | CSetExpire k p => let '(m', r) := set_expire_policy now m k p in (m', REntry r)
  | CRemove k => let '(m', r) := remove_entry now m k in (m', REntry r)
  | CUnlink k => let '(m', b) := unlink now m k in (m', RBool b)
  | CUnlinkBatch ks => let '(m', n) := unlink_batch now m ks in (m', RCount n)
  | CClear => (clear m, RUnit)
  end.

(** The replies of a history. *)
Fixpoint run (now : Z) m (evs : list event) : list reply :=
  match evs with
  | [] => []
  | Call c :: evs' => let '(m', r) := run_call now m c in r :: run now m' evs'
  | Worker :: evs' => run now (worker_step now m).1 evs'
  | Clock t :: evs' => run t m evs'
  end.

(** *** The specification: a map that forgets a key at its deadline *)

Definition visible (rc : option Z) e : bool :=
  match e_expire_at e, rc with Some a, Some t => t <? a | _, _ => true end.

Definition spec_call (now : Z) (l : gmap bytes (Entry V)) (c : call) : gmap bytes (Entry V) * reply :=
  match c with
  | CInsert k v p =>
      let e := make_entry now v p in (put now k e l, REntry (Some (snapshot e)))
  | CInsertSnapshot k s =>
      (put now k (mkEntry (value s) (expire_at s)) l, REntry (Some s))
  | CGet k => (l, REntry (snapshot <$> l !! k))
  | CGetRead k rc =>
      (l, REntry (let* x := l !! k in if visible rc x then Some (snapshot x) else None))
  | CContains k => (l, RBool (bool_decide (is_Some (l !! k))))
  | CTtl k => (l, RTime (let* x := l !! k in let* a := e_expire_at x in Some (a - now)))
  | CSetExpire k p =>
      match l !! k with
      | Some e => let e' := make_entry now (e_value e) p in (put now k e' l, REntry (Some (snapshot e')))
      | None => (l, REntry None)
      end
  | CRemove k => (delete k l, REntry (snapshot <$> l !! k))
  | CUnlink k => (delete k l, RBool (bool_decide (is_Some (l !! k))))
  | CUnlinkBatch ks =>
      (filter (fun kv : bytes * Entry V => kv.1 ∉ ks) l,
       RCount (Z.of_nat (size (filter (fun kv : bytes * Entry V => kv.1 ∈ ks) l))))
  | CClear => (∅, RUnit)
  end.

Fixpoint spec_run (now : Z) (l : gmap bytes (Entry V)) (evs : list event) : list reply :=
  match evs with
  | [] => []
  | Call c :: evs' => let '(l', r) := spec_call now l c in r :: spec_run now l' evs'
  | Worker :: evs' => spec_run now l evs'
  | Clock t :: evs' => spec_run t (live t l) evs'
  end.

(** The clock only advances, and deadlines are 64-bit. *)
Definition policy_ok (p : ExpirePolicy) : Prop :=
  match p with Persistent => True | Absolute a => is_u64 a | Ttl t => is_u64 t end.

Definition call_ok (c : call) : Prop :=
  match c with
  | CInsert _ _ p | CSetExpire _ p => policy_ok p
  | CInsertSnapshot _ s => forall a, expire_at s = Some a -> is_u64 a
  | _ => True
  end.

Fixpoint history_ok (now : Z) (evs : list event) : Prop :=
  match evs with
  | [] => True
  | Call c :: evs' => call_ok c /\ history_ok now evs'
  | Worker :: evs' => history_ok now evs'
  | Clock t :: evs' => now <= t < 2 ^ 64 /\ history_ok t evs'
  end.

(** *** Each call simulates its specification *)

Definition simulates (now : Z) m (c : call) : Prop :=
  let '(m', r) := run_call now m c in
  let '(l', r') := spec_call now (live now (map_ m)) c in
  r = r' /\ live now (map_ m') = l' /\ MochaInv now m'.

Lemma resolve_u64 now p a : is_u64 now -> policy_ok p -> resolve_expire_at now p = Some a -> is_u64 a.
Proof.
  intros Hn Hp. destruct p; simpl in *; intros [= <-]; [done|].
  unfold u64_saturating_add, u64_max, is_u64 in *. lia.
Qed.

Lemma map_enqueue m k a : map_ (enqueue_expiry m k a) = map_ m.
Proof. by destruct a. Qed.

Lemma sim_write now m k e : MochaInv now m -> (forall a, e_expire_at e = Some a -> is_u64 a) ->
  let m' := enqueue_expiry (set_map m (<[k := e]> (map_ m))) k (e_expire_at e) in
  live now (map_ m') = put now k e (live now (map_ m)) /\ MochaInv now m'.
Proof.
  intros Hm Hu. cbv zeta. split; [|by apply inv_write]. rewrite map_enqueue. apply live_insert.
Qed.

Lemma get_entry_spec now m k : MochaInv now m ->
  let '(m', r) := get_entry now m k in
  r = snapshot <$> live now (map_ m) !! k /\ live now (map_ m') = live now (map_ m) /\ MochaInv now m'.
Proof.
  intros Hm. unfold get_entry. rewrite live_lookup. destruct (map_ m !! k) as [e|] eqn:Ek; [|done].
  unfold is_expired. destruct (e_expire_at e) as [a|] eqn:Ea; [|done].
  destruct (a <=? now) eqn:E; [|done]. split_and!; [done|apply remove_expired_live; lia|].
  apply covered_shrink; [|done]. intros k' e' Hk'. by eapply remove_expired_lookup.
Qed.

(** One logical deletion: the live entry, if any, becomes a tombstone. *)
Lemma unlink_compute now map k :
  compute map k (unlink_op now) =
    match live now map !! k with
    | Some e => (<[k := mkEntry (e_value e) (Some now)]> map, Updated e (mkEntry (e_value e) (Some now)))
    | None => (map, Aborted)
    end.
Proof.
  unfold compute, unlink_op. rewrite live_lookup. destruct (map !! k) as [e|]; [|done].
  by destruct (is_expired now e).
Qed.

Lemma live_tombstone now map k (v : V) : live now (<[k := mkEntry v (Some now)]> map) = delete k (live now map).
Proof. rewrite live_insert. unfold put, is_expired. simpl. by rewrite Z.leb_refl. Qed.

Lemma unlink_loop_spec now map ks its :
  let '(map', its') := unlink_loop now map ks its in
  live now map' = filter (fun kv : bytes * Entry V => kv.1 ∉ ks) (live now map) /\
  exists new, its' = its ++ new /\
    length new = size (filter (fun kv : bytes * Entry V => kv.1 ∈ ks) (live now map)) /\
    Forall (fun it => ti_expire_at it = now) new /\
    forall k e a, map' !! k = Some e -> e_expire_at e = Some a ->
      map !! k = Some e \/ mkTimerItem k a ∈ new.
Proof.
  revert map its. induction ks as [|k ks IH]; intros map its; cbn [unlink_loop].
  { split.
    - symmetry. apply map_filter_id. intros. apply not_elem_of_nil.
    - exists []. rewrite app_nil_r. split_and!; [done| |constructor|by left].
      symmetry. apply map_size_empty_iff, map_empty. intros k'. apply map_lookup_filter_None.
      right. intros ? _. apply not_elem_of_nil. }
  rewrite unlink_compute. destruct (live now map !! k) as [e|] eqn:Ek.
  - specialize (IH (<[k := mkEntry (e_value e) (Some now)]> map) (its ++ [mkTimerItem k now])).
    destruct (unlink_loop _ _ _ _) as [map' its']. rewrite live_tombstone in IH.
    destruct IH as (IHl & new & -> & IHn & IHf & IHc). split.
    + rewrite IHl. apply map_eq. intros k'. apply option_eq. intros e'.
      rewrite !map_lookup_filter_Some, lookup_delete_Some. cbn [fst]. rewrite not_elem_of_cons. naive_solver.
    + exists (mkTimerItem k now :: new). split_and!; [by rewrite <- (assoc_L (++))| |by constructor|].
      * cbn [length]. rewrite IHn. 
        replace (filter _ (live now map)) with
          (<[k := e]> (filter (fun kv : bytes * Entry V => kv.1 ∈ ks) (delete k (live now map)))).
        { rewrite map_size_insert_None; [done|]. apply map_lookup_filter_None. left. apply lookup_delete_eq. }
        apply map_eq. intros k'. apply option_eq. intros e'.
        rewrite lookup_insert_Some, !map_lookup_filter_Some, lookup_delete_Some. cbn [fst].
        rewrite elem_of_cons. destruct (decide (k = k')); naive_solver.
      * intros k' e' a' Hk' Ha'. destruct (IHc _ _ _ Hk' Ha') as [Hin|]; [|right; by right].
        apply lookup_insert_Some in Hin as [[-> <-]|[_ ?]]; [|by left]. right. injection Ha' as <-. by left.
  - specialize (IH map its). destruct (unlink_loop _ _ _ _) as [map' its'].
    destruct IH as (IHl & new & -> & IHn & IHf & IHc).
    assert (Hk : forall k' e', live now map !! k' = Some e' -> k' <> k) by (intros k' e' He' ->; congruence).
    split; [|exists new; split_and!; [done| |done|done]].
    + rewrite IHl. apply map_filter_ext. intros k' e' He'. cbn [fst]. rewrite not_elem_of_cons. naive_solver.
    + rewrite IHn. f_equal. apply map_filter_ext. intros k' e' He'. cbn [fst]. rewrite elem_of_cons. naive_solver.
Qed.

Lemma sim_unlink_batch now m ks : MochaInv now m -> simulates now m (CUnlinkBatch ks).
Proof.
  intros Hm. unfold simulates. cbn [run_call spec_call]. unfold unlink_batch.
  pose proof (unlink_loop_spec now (map_ m) ks []) as Hl.
  destruct (unlink_loop now (map_ m) ks []) as [map' its']. destruct Hl as (Hlive & new & -> & Hn & Hf & Hcov).
  cbn [app]. rewrite Hn. 
  destruct Hm as (Hu & Hw & Hc & Hq & Hold).
  assert (Hinv : MochaInv now (send (set_map m map') (ScheduleBatch new))).
  { unfold MochaInv, Covered. rewrite queued_send. cbn [app cmd_items] in *. split_and!; [done..| |].
    - apply Forall_app. split; [done|]. eapply Forall_impl; [exact Hf|]. by intros it ->.
    - intros k e a Hk Ha. rewrite elem_of_app. destruct (Hcov k e a Hk Ha) as [Hk'|]; [|by auto].
      destruct (Hold k e a Hk' Ha); auto. }
  rewrite <- Hn. destruct new as [|it new]; simpl; split_and!; try done.
  unfold MochaInv, Covered in *. rewrite queued_send in Hinv. simpl in *. by rewrite app_nil_r in Hinv.
Qed.

Lemma sim_unlink now m k : MochaInv now m -> simulates now m (CUnlink k).
Proof.
  intros Hm. unfold simulates. cbn [run_call spec_call]. unfold unlink. rewrite unlink_compute.
  destruct (live now (map_ m) !! k) as [e|] eqn:Ek.
  - destruct (sim_write now m k (mkEntry (e_value e) (Some now)) Hm) as [Hl Hi].
    { intros a [= <-]. apply Hm. }
    split_and!; [done| |done]. rewrite map_enqueue. apply live_tombstone.
  - split_and!; [done| |by destruct m]. simpl. by rewrite delete_id.
Qed.

Lemma sim_set_expire now m k p : policy_ok p -> MochaInv now m -> simulates now m (CSetExpire k p).
Proof.
  intros Hp Hm. unfold simulates. cbn [run_call spec_call]. unfold set_expire_policy, compute.
  rewrite live_lookup. destruct (map_ m !! k) as [e|] eqn:Ek; [|by split_and!; destruct m].
  destruct (is_expired now e) eqn:Ee.
  - split_and!; [done| |].
    + cbn [map_ set_map]. rewrite live_delete, delete_id; [done|]. by rewrite live_lookup, Ek, Ee.
    + apply covered_shrink; [|done]. by intros ? ? [_ ?]%lookup_delete_Some.
  - destruct (sim_write now m k (make_entry now (e_value e) p) Hm) as [Hl Hi].
    { intros a. by apply resolve_u64; [apply Hm|]. }
    split_and!; done.
Qed.

Lemma sim_remove now m k : MochaInv now m -> simulates now m (CRemove k).
Proof.
  intros Hm. unfold simulates. cbn [run_call spec_call]. unfold remove_entry. rewrite live_lookup.
  destruct (map_ m !! k) as [e|] eqn:Ek.
  - split_and!; [by destruct (is_expired now e)|apply live_delete|].
    apply covered_shrink; [|done]. by intros ? ? [_ ?]%lookup_delete_Some.
  - split_and!; [done| |done]. rewrite delete_id; [done|]. by rewrite live_lookup, Ek.
Qed.

Lemma sim_get_read now m k rc : MochaInv now m -> simulates now m (CGetRead k rc).
Proof.
  intros Hm. unfold simulates. cbn [run_call spec_call]. unfold get_with_read_clock.
  pose proof (get_entry_spec now m k Hm) as Hg. destruct (get_entry now m k) as [m' r].
  destruct Hg as (-> & Hl & Hi). destruct (live now (map_ m) !! k) as [e|]; cbn [fmap option_fmap option_map]; [|done].
  unfold visible. cbn [snapshot expire_at]. destruct (e_expire_at e) as [a|], rc as [t|]; try done.
  split_and!; [|done|done]. rewrite Z.leb_antisym. by destruct (t <? a).
Qed.

Lemma sim_reads now m k : MochaInv now m ->
  simulates now m (CGet k) /\ simulates now m (CContains k) /\ simulates now m (CTtl k).
Proof.
  intros Hm. unfold simulates. cbn [run_call spec_call]. unfold contains_key, ttl_remaining.
  pose proof (get_entry_spec now m k Hm) as Hg. destruct (get_entry now m k) as [m' r].
  destruct Hg as (-> & Hl & Hi). split_and!; try done.
  - by destruct (live now (map_ m) !! k).
  - destruct (live now (map_ m) !! k) as [e|] eqn:Ek; [|done]. simpl.
    destruct (e_expire_at e) as [a|] eqn:Ea; [|done]. do 2 f_equal.
    rewrite live_lookup in Ek. destruct (map_ m !! k) as [e'|]; [|done].
    destruct (is_expired now e') eqn:Ee; simplify_eq. unfold is_expired in Ee. rewrite Ea in Ee. zbool.
    unfold u64_saturating_sub. lia.
Qed.

Lemma call_simulates now m c : call_ok c -> MochaInv now m -> simulates now m c.
Proof.
  intros Hc Hm. destruct c as [k v p|k s|k|k rc|k|k|k p|k|k|ks|]; try (by apply sim_reads).
  - destruct (sim_write now m k (make_entry now v p) Hm) as [Hl Hi]; [|by split_and!].
    intros a. apply resolve_u64; [apply Hm|done].
  - unfold simulates. cbn [run_call spec_call]. unfold insert_snapshot, insert_entry.
    destruct s as [v a]. cbn [expire_at value].
    assert (E : make_entry now v (match a with None => Persistent | Some a => Absolute a end) = mkEntry v a)
      by (by destruct a).
    rewrite E. destruct (sim_write now m k (mkEntry v a) Hm Hc) as [Hl Hi]. by split_and!.
  - by apply sim_get_read.
  - by apply sim_set_expire.
  - by apply sim_remove.
  - by apply sim_unlink.
  - by apply sim_unlink_batch.
  - unfold simulates. cbn [run_call spec_call]. split_and!; [done|apply live_empty|].
    apply covered_shrink; [|done]. intros k e Hk. by rewrite lookup_empty in Hk.
Qed.

Lemma inv_clock now t m : now <= t < 2 ^ 64 -> MochaInv now m -> MochaInv t m.
Proof.
  intros Ht (Hn & ? & ? & ? & ?). split; [unfold is_u64 in *; lia|].
  split_and!; [done|lia|done|done].
Qed.


(** ** KEYS *)

Lemma filter_map_outcome_ret {A B} (f : A -> outcome (option B)) (g : A -> option B) l :
  (forall x, x ∈ l -> f x = Ret (g x)) -> filter_map_outcome f l = Ret (omap g l).
Proof.
  induction l as [|x l IH]; intros Hf; [done|]. simpl. rewrite Hf by (by left).
  rewrite IH by (intros; apply Hf; by right). by destruct (g x).
Qed.

Lemma omap_fst_nodup {A B} (p : A * B -> bool) (l : list (A * B)) :
  NoDup l.*1 -> NoDup (omap (fun kv => if p kv then Some kv.1 else None) l).
Proof.
  induction l as [|[a b] l IH]; intros Hnd; [constructor|]. apply NoDup_cons in Hnd as [Ha Hnd].
  specialize (IH Hnd). cbn. destruct (p (a, b)); [|done]. apply NoDup_cons. split; [|done].
  intros ([a' b'] & Hin & Hg)%list_elem_of_omap. cbn in Hg. destruct (p (a', b')); simplify_eq.
  apply Ha, list_elem_of_fmap. by exists (a, b').
Qed.

Lemma keys_spec now m (iter : list (bytes * Entry V)) pattern ts read_clock :
  iter ≡ₚ map_to_list (map_ m) -> glob_tokens pattern = Some ts ->
  exists ks, keys iter now pattern read_clock = Ret ks /\ NoDup ks /\
    forall k, k ∈ ks <->
      denotes ts k /\ exists e, live now (map_ m) !! k = Some e /\ visible read_clock e = true.
Proof.
  intros Hiter Hpat.
  set (shown := fun kv : bytes * Entry V => (negb (is_expired now kv.2) && visible read_clock kv.2)%bool).
  set (g := fun kv : bytes * Entry V =>
    if (shown kv && match matches pattern kv.1 with Ret b => b | _ => false end)%bool
    then Some kv.1 else None).
  assert (Hret : keys iter now pattern read_clock = Ret (omap g iter)).
  { apply filter_map_outcome_ret. intros [k e] _. unfold keys_one, g, shown, is_expired, visible. cbn [fst snd].
    destruct (match_spec_ret pattern ts k Hpat) as (b & -> & _).
    destruct (e_expire_at e) as [a|], read_clock as [t|]; simpl; try (by destruct b);
      destruct (a <=? now); simpl; try done; rewrite ?Z.leb_antisym; try (by destruct b).
    destruct (t <? a); simpl; by destruct b. }
  exists (omap g iter). split_and!; [done| |].
  - apply omap_fst_nodup. rewrite Hiter. apply NoDup_fst_map_to_list.
  - intros k. rewrite list_elem_of_omap. setoid_rewrite live_lookup.
    destruct (match_spec_ret pattern ts k Hpat) as (b & Hb & Hden). split.
    + intros ([k' e] & Hin & Hg). unfold g, shown in Hg. cbn [fst snd] in Hg.
      destruct (_ && _)%bool eqn:E in Hg; [|done]. injection Hg as ->. rewrite Hb in E. zbool.
      split; [by apply Hden|]. rewrite Hiter in Hin. apply elem_of_map_to_list in Hin.
      exists e. split; [|done]. rewrite Hin. by destruct (is_expired now e).
    + intros [Hd (e & He & Hv)]. destruct (map_ m !! k) as [e'|] eqn:Ek; [|done].
      destruct (is_expired now e') eqn:Ee; [done|]. injection He as ->.
      exists (k, e). split; [rewrite Hiter; by apply elem_of_map_to_list|].
      unfold g, shown. cbn [fst snd]. rewrite Ee, Hv, Hb. simpl. apply Hden in Hd. by rewrite Hd.
Qed.

(** KEYS with a well-formed pattern returns, for any iteration order of
    the map, each key exactly once, and exactly the keys that are live at the
    write clock, visible at the read clock and in the pattern's language. *)
Theorem keys_exact now m (iter : list (bytes * Entry V)) pattern ts read_clock :
  iter ≡ₚ map_to_list (map_ m) -> glob_tokens pattern = Some ts ->
  exists ks, keys iter now pattern read_clock = Ret ks /\ NoDup ks /\
    forall k, k ∈ ks <->
      denotes ts k /\ exists e, live now (map_ m) !! k = Some e /\ visible read_clock e = true.
Proof. apply keys_spec. Qed.

End Live.

(** ** Witnesses *)

Definition key_a : bytes := [Byte.x61].
Definition key_b : bytes := [Byte.x62].

(** A map with a key that expires at 1050 and a persistent one. *)
Definition sample_mocha : Mocha nat :=
  (insert_entry 1000 (insert_entry 1000 (mocha_new 1000) key_a 1%nat (Ttl 50)).1 key_b 2%nat Persistent).1.

Lemma sample_mocha_inv : MochaInv 2000 sample_mocha.
Proof.
  apply (inv_clock 1000); [lia|]. unfold sample_mocha.
  apply (inv_write 1000 _ key_b (make_entry 1000 2%nat Persistent)); [done|].
  apply (inv_write 1000 _ key_a (make_entry 1000 1%nat (Ttl 50))); [|by apply mocha_new_inv].
  intros a [= <-]. done.
Qed.

Lemma active_expire_cycle_exact_witness :
  map_ (active_expire_cycle_blocking 2000 sample_mocha) = {[ key_b := mkEntry 2%nat None ]}.
Proof.
  rewrite (proj1 (active_expire_cycle_exact 2000 sample_mocha sample_mocha_inv)).
  vm_compute. reflexivity.
Defined.

Lemma has_expired_by_local_clock_exact_witness :
  (has_expired_by_local_clock 2000 1050 sample_mocha).2 = true <->
  exists k e a, map_ (has_expired_by_local_clock 2000 1050 sample_mocha).1 !! k = Some e /\
    e_expire_at e = Some a /\ a <= 1050.
Proof.
  pose proof (has_expired_by_local_clock_exact 2000 1050 sample_mocha sample_mocha_inv) as Hs.
  destruct (has_expired_by_local_clock 2000 1050 sample_mocha) as [m' b]. exact (proj2 Hs).
Defined.

Definition sample_history : list (event (V:=nat)) :=
  [Call (CInsert key_a 1%nat (Ttl 50)); Call (CInsert key_b 2%nat Persistent); Worker; Clock 1040;
   Call (CTtl key_a); Clock 1050; Call (CGet key_a); Worker; Call (CUnlink key_b); Call (CRemove key_b)].


Lemma keys_exact_witness :
  exists ts ks, glob_tokens [Byte.x2a] = Some ts /\
    keys (map_to_list (map_ sample_mocha)) 1000 [Byte.x2a] None = Ret ks /\ NoDup ks.
Proof.
  destruct (keys_exact 1000 sample_mocha (map_to_list (map_ sample_mocha)) [Byte.x2a] [TStar] None)
    as (ks & H1 & H2 & _); [reflexivity|reflexivity|].
  exists [TStar], ks. split; [reflexivity|]. split; [exact H1|exact H2].
Defined.

(** An expired entry that nobody has read is still counted by DBSIZE. *)
Example len_counts_expired : len sample_mocha = 2 /\ size (live 2000 (map_ sample_mocha)) = 1%nat.
Proof. vm_compute. split; reflexivity. Qed.
