(* ===== verification/Ops.v ===== *)
(** * Ops: the stored values and the operations of the replicated log.

    The value types of src/cache_cat/src/raft/types/core/value_object.rs and
    core/mocha/core.rs, the request structs of src/cache_cat/src/protocol, and
    the operation enums of src/cache_cat/src/raft/types/entry.

    A collection is an [Arc<Mutex<..>>]: a clone of the value shares the
    collection, and a command that locks it changes it for every holder. So a
    collection is a location here, and its contents are in the heap of Store. *)

From S2P Require Import Prelude Text F64 Reply SortedSet Mocha.

Abbreviation loc := positive.

Inductive HashValue :=
| HStr (s : bytes)
| HInt (i : Z).

Inductive ValueObject :=
| VInt (i : Z)
| VString (s : bytes)
| VList (l : loc)
| VHash (l : loc)
| VZSet (l : loc)
| VSet (l : loc).

#[global] Instance hash_value_eq_dec : EqDecision HashValue.
Proof. solve_decision. Defined.

#[global] Instance value_object_eq_dec : EqDecision ValueObject.
Proof. solve_decision. Defined.

Record MyValue := mkMyValue { version : Z; data : ValueObject }.

(** [MyValue::new]. *)
Definition my_value_new (v : ValueObject) : MyValue := mkMyValue 1 v.

(** ** Requests on keys *)

Record DelReq := mkDelReq { del_key : bytes }.
Record UnlinkReq := mkUnlinkReq { unlink_key : bytes }.
Record PersistReq := mkPersistReq { persist_key : bytes }.
Record InsertReq := mkInsertReq { ins_key : bytes; ins_value : ValueObject; ins_expires_at : Z }.
Record FlushDBReq := mkFlushDBReq { fdb_async_mode : bool }.
Record FlushAllReq := mkFlushAllReq { fall_async_mode : bool }.

Inductive ExpireCondition := ExNx | ExXx | ExGt | ExLt.

Record ExpireReq := mkExpireReq {
  ex_key : bytes; ex_expires_at : Z; ex_condition : option ExpireCondition
}.
Record PExpireReq := mkPExpireReq {
  pex_key : bytes; pex_expires_at : Z; pex_condition : option ExpireCondition
}.

Record DelParams := mkDelParams { dp_keys : list bytes }.
Record UnlinkParams := mkUnlinkParams { up_keys : list bytes }.
Record RenameParams := mkRenameParams { rn_key : bytes; rn_new_key : bytes }.
Record RenameNxParams := mkRenameNxParams { rnx_key : bytes; rnx_new_key : bytes }.
Record ExistsParams := mkExistsParams { exists_keys : list bytes }.
Record KeysParams := mkKeysParams { keys_pattern : bytes }.
Record TypeParams := mkTypeParams { type_key : bytes }.
Record TtlParams := mkTtlParams { ttl_key : bytes }.
Record PTtlParams := mkPTtlParams { pttl_key : bytes }.
Record DbsizeParams := mkDbsizeParams { dbsize_keys : list bytes }.

(** ** Requests on strings *)

Inductive Expiration :=
| Ex (seconds : Z)
| Px (millis : Z)
| ExAt (timestamp : Z)
| PxAt (timestamp : Z)
| KeepTTL.

Inductive SetMode := SetNx | SetXx.

Record SetParams := mkSetParams {
  sp_key : bytes; sp_value : bytes; sp_mode : option SetMode; sp_get : bool;
  sp_expiration : option Expiration
}.
Record SetReq := mkSetReq { set_key : bytes; set_value : bytes; set_ex_time : Z }.
Record SetNxParams := mkSetNxParams { snx_key : bytes; snx_value : bytes }.
Record SetExParams := mkSetExParams { sex_key : bytes; sex_value : bytes; sex_expiration : Z }.
Record PSetExParams := mkPSetExParams { psex_key : bytes; psex_value : bytes; psex_expiration : Z }.
Record GetSetParams := mkGetSetParams { gs_key : bytes; gs_value : bytes }.
Record MsetParams := mkMsetParams { mset_pairs : list (bytes * bytes) }.
Record IncrReq := mkIncrReq { incr_key : bytes }.
Record IncrByReq := mkIncrByReq { incrby_key : bytes; increment : Z }.
Record DecrReq := mkDecrReq { decr_key : bytes }.
Record DecrByReq := mkDecrByReq { decrby_key : bytes; decrement : Z }.
Record AppendReq := mkAppendReq { append_key : bytes; append_value : bytes }.
Record PfAddReq := mkPfAddReq { pfadd_key : bytes; pfadd_elements : list bytes }.
Record GetParams := mkGetParams { get_key : bytes }.
Record MgetParams := mkMgetParams { mget_keys : list bytes }.
Record StrLenParams := mkStrLenParams { strlen_key : bytes }.
Record PfcountParams := mkPfcountParams { pfcount_keys : list bytes }.

(** ** Requests on bitmaps *)

Record BitFieldEncoding := mkBitFieldEncoding { bf_signed : bool; bf_bits : Z }.
Inductive BitFieldOverflow := Wrap | Sat | BFFail.
Inductive BitFieldSubCommand :=
| BfGet (encoding : BitFieldEncoding) (offset : Z)
| BfSet (encoding : BitFieldEncoding) (offset : Z) (value : Z) (overflow : BitFieldOverflow)
| BfIncrBy (encoding : BitFieldEncoding) (offset : Z) (increment : Z) (overflow : BitFieldOverflow).
Record BitFieldReq := mkBitFieldReq { bf_key : bytes; bf_operations : list BitFieldSubCommand }.
Record SetBitReq := mkSetBitReq { setbit_key : bytes; setbit_offset : Z; setbit_value : Z }.
Record GetBitParams := mkGetBitParams { getbit_key : bytes; getbit_offset : Z }.
Record BitCountParams := mkBitCountParams {
  bc_key : bytes; bc_start : option Z; bc_end : option Z
}.
Inductive BitPosUnit := BPByte | BPBit.
Record BitPosParams := mkBitPosParams {
  bp_key : bytes; bp_bit : Z; bp_start : option Z; bp_end : option Z; bp_unit : BitPosUnit
}.

(** ** Requests on lists *)

Record LPushReq := mkLPushReq { lpush_key : bytes; lpush_elements : list bytes }.
Record RPushReq := mkRPushReq { rpush_key : bytes; rpush_elements : list bytes }.
Record LPopReq := mkLPopReq { lpop_key : bytes; lpop_count : Z }.
Record RPopReq := mkRPopReq { rpop_key : bytes; rpop_count : Z }.
Record LRemReq := mkLRemReq { lrem_key : bytes; lrem_count : Z; lrem_element : bytes }.
Record LSetReq := mkLSetReq { lset_key : bytes; lset_index : Z; lset_value : bytes }.
Record LTrimReq := mkLTrimReq { ltrim_key : bytes; ltrim_start : Z; ltrim_stop : Z }.
Record LRangeParams := mkLRangeParams { lrange_key : bytes; lrange_start : Z; lrange_stop : Z }.
Record LIndexParams := mkLIndexParams { lindex_key : bytes; lindex_index : Z }.
Record LLenParams := mkLLenParams { llen_key : bytes }.

(** ** Requests on hashes *)

Record HSetReq := mkHSetReq { hset_key : bytes; hset_elements : list (bytes * bytes) }.
Record HSetNxReq := mkHSetNxReq { hsetnx_key : bytes; hsetnx_field : bytes; hsetnx_value : bytes }.
Record HMSetReq := mkHMSetReq { hmset_key : bytes; hmset_fields : list (bytes * bytes) }.
Record HIncrReq := mkHIncrReq { hincr_key : bytes; hincr_field : bytes; hincr_value : Z }.
Record HDelReq := mkHDelReq { hdel_key : bytes; hdel_fields : list bytes }.
Record HGetParams := mkHGetParams { hget_key : bytes; hget_field : bytes }.
Record HMGetParams := mkHMGetParams { hmget_key : bytes; hmget_fields : list bytes }.
Record HExistsParams := mkHExistsParams { hexists_key : bytes; hexists_field : bytes }.
Record HGetAllParams := mkHGetAllParams { hgetall_key : bytes }.
Record HKeysParams := mkHKeysParams { hkeys_key : bytes }.
Record HValsParams := mkHValsParams { hvals_key : bytes }.
Record HLenParams := mkHLenParams { hlen_key : bytes }.

(** ** Requests on sets *)

Record SAddReq := mkSAddReq { sadd_key : bytes; sadd_elements : list bytes }.
Record SRemReq := mkSRemReq { srem_key : bytes; srem_members : list bytes }.
Record SPopReq := mkSPopReq { spop_key : bytes; spop_count : option Z }.
Record SInterStoreReq := mkSInterStoreReq { sis_key : bytes; sis_keys : list bytes }.
Record SUnionStoreParams := mkSUnionStoreParams { sus_key : bytes; sus_keys : list bytes }.
Record SDiffStoreParams := mkSDiffStoreParams { sds_key : bytes; sds_keys : list bytes }.
Record SMembersParams := mkSMembersParams { smembers_key : bytes }.
Record SIsMemberParams := mkSIsMemberParams { sismember_key : bytes; sismember_member : bytes }.
Record SCardParams := mkSCardParams { scard_key : bytes }.
Record SRandMemberParams := mkSRandMemberParams { srand_key : bytes; srand_count : option Z }.
Record SInterParams := mkSInterParams { sinter_keys : list bytes }.
Record SUnionParams := mkSUnionParams { sunion_keys : list bytes }.
Record SDiffParams := mkSDiffParams { sdiff_keys : list bytes }.

(** ** Requests on sorted sets *)

Record ZRemReq := mkZRemReq { zrem_key : bytes; zrem_members : list bytes }.
Record ZPopMinReq := mkZPopMinReq { zpop_key : bytes; zpop_count : option Z }.
Record ZIncrByReq := mkZIncrByReq { zincr_key : bytes; zincr_increment : f64; zincr_member : bytes }.
Record ZRangeParams := mkZRangeParams {
  zrange_key : bytes; zrange_start : Z; zrange_stop : Z; zrange_with_scores : bool
}.
Record ZRangeByScoreParams := mkZRangeByScoreParams {
  zrbs_key : bytes; zrbs_min : f64; zrbs_max : f64; zrbs_with_scores : bool;
  zrbs_limit : option (Z * Z)
}.
Record ZScoreParams := mkZScoreParams { zscore_key : bytes; zscore_member : bytes }.
Record ZCardParams := mkZCardParams { zcard_key : bytes }.
Record ZCountParams := mkZCountParams {
  zcount_key : bytes; zcount_min : f64; zcount_max : f64;
  zcount_min_exclusive : bool; zcount_max_exclusive : bool
}.
Record ZRankParams := mkZRankParams { zrank_key : bytes; zrank_member : bytes }.
Record ZRevRankParams := mkZRevRankParams { zrevrank_key : bytes; zrevrank_member : bytes }.

Record MemoryUsageParams := mkMemoryUsageParams { mu_key : bytes; mu_samples : Z }.

(** ** Operations *)

Inductive BaseOperation :=
| Empty
| Del (r : DelReq)
| Expire (r : ExpireReq)
| PExpire (r : PExpireReq)
| Persist (r : PersistReq)
| Insert (r : InsertReq)
| FlushDB (r : FlushDBReq)
| FlushAll (r : FlushAllReq)
| Set_op (r : SetReq)
| Incr (r : IncrReq)
| IncrBy (r : IncrByReq)
| Append (r : AppendReq)
| SetBit (r : SetBitReq)
| BitField (r : BitFieldReq)
| DecrBy (r : DecrByReq)
| Decr (r : DecrReq)
| LPush (r : LPushReq)
| RPush (r : RPushReq)
| LPop (r : LPopReq)
| RPop (r : RPopReq)
| LRem (r : LRemReq)
| LSet (r : LSetReq)
| LTrim (r : LTrimReq)
| HSet (r : HSetReq)
| HIncr (r : HIncrReq)
| HDel (r : HDelReq)
| HSetNx (r : HSetNxReq)
| HMSet (r : HMSetReq)
| ZAdd (r : ZAddReq)
| ZRem (r : ZRemReq)
| ZPopMin (r : ZPopMinReq)
| SAdd (r : SAddReq)
| SRem (r : SRemReq)
| SPop (r : SPopReq)
| Unlink (r : UnlinkReq)
| ZIncrBy (r : ZIncrByReq)
| PfAdd (r : PfAddReq)
| SInterStore (r : SInterStoreReq).

Inductive ReadOperation :=
| RExists (p : ExistsParams)
| RGet (p : GetParams)
| RMGet (p : MgetParams)
| RLRange (p : LRangeParams)
| RZRange (p : ZRangeParams)
| RHGet (p : HGetParams)
| RSMembers (p : SMembersParams)
| RHMGet (p : HMGetParams)
| RGetBit (p : GetBitParams)
| RZRangeByScore (p : ZRangeByScoreParams)
| RStrLen (p : StrLenParams)
| RHGetAll (p : HGetAllParams)
| RHKeys (p : HKeysParams)
| RHVals (p : HValsParams)
| RLLen (p : LLenParams)
| RType (p : TypeParams)
| RLIndex (p : LIndexParams)
| RSIsMember (p : SIsMemberParams)
| RHExists (p : HExistsParams)
| RPTtl (p : PTtlParams)
| RTtl (p : TtlParams)
| RHLen (p : HLenParams)
| RBitCount (p : BitCountParams)
| RBitPos (p : BitPosParams)
| RSCard (p : SCardParams)
| RSRandMember (p : SRandMemberParams)
| RSInter (p : SInterParams)
| RSUnion (p : SUnionParams)
| RSDiff (p : SDiffParams)
| RKeys (p : KeysParams)
| RZScore (p : ZScoreParams)
| RZCard (p : ZCardParams)
| RZCount (p : ZCountParams)
| RZRank (p : ZRankParams)
| RZRevRank (p : ZRevRankParams)
| RDbSize (p : DbsizeParams)
| RMemoryUsage (p : MemoryUsageParams)
| RPFCount (p : PfcountParams).

Record EvalParams := mkEvalParams {
  eval_script : bytes; eval_numkeys : Z; eval_keys : list bytes; eval_args : list bytes;
  eval_proto : Z
}.

(** The composed operations, and the operations of a request, which may be one
    of them; [ExecParams] is the list of queued operations. *)
Inductive RedisOperation :=
| RedisSet (p : SetParams)
| RedisSetNx (p : SetNxParams)
| RedisSetEx (p : SetExParams)
| RedisPSetEx (p : PSetExParams)
| RedisGetSet (p : GetSetParams)
| RedisMset (p : MsetParams)
| RedisDel (p : DelParams)
| RedisRename (p : RenameParams)
| RedisRenameNx (p : RenameNxParams)
| RedisEval (p : EvalParams)
| RedisExec (operations : list Operation)
| RedisSUnionStore (p : SUnionStoreParams)
| RedisSDiffStore (p : SDiffStoreParams)
| RedisUnlink (p : UnlinkParams)
with Operation :=
| Base (op : BaseOperation)
| Read (op : ReadOperation)
| Redis (op : RedisOperation).

(** An entry of the queue that collects the updates made while a snapshot is
    written. *)
Record AtomicRequest := mkAtomicRequest {
  ar_request : BaseOperation; ar_version : Z; ar_write_clock : Z
}.

(** ** The packed request header

    [Request.number] packs the write clock in the 48 high bits and the database
    number in the 16 low ones. *)

Record Request := mkRequest { number : Z; operation : Operation }.

Definition merge_u64 (high_48 low_16 : Z) : Z :=
  Z.lor (wrap_u64 (Z.shiftl (Z.land high_48 (Z.ones 48)) 16)) low_16.

Definition request_new (write_clock db_number : Z) (operation : Operation) : Request :=
  mkRequest (merge_u64 write_clock db_number) operation.

Definition set_request_clock (r : Request) (high_bits : Z) : Request :=
  let masked := wrap_u64 (Z.shiftl high_bits 16) in
  mkRequest (Z.lor (Z.land (number r) (Z.ones 16)) (Z.land masked (Z.shiftl (Z.ones 48) 16))) (operation r).

Definition split_u64 (r : Request) : Z * Z :=
  (Z.shiftr (number r) 16, Z.land (number r) (Z.ones 16)).

(** [get_db_number], which returns the low bits of the clock. *)
Definition get_db_number (r : Request) : Z := Z.shiftr (number r) 16 mod 2 ^ 16.

Lemma lor_shift_add a b n : 0 <= n -> 0 <= b < 2 ^ n -> Z.lor (Z.shiftl a n) b = a * 2 ^ n + b.
Proof.
  intros Hn Hb. rewrite <- Z.shiftl_mul_pow2 by lia. symmetry. apply Z.add_nocarry_lor.
  apply Z.bits_inj'. intros i Hi. rewrite Z.land_spec, Z.bits_0.
  destruct (Z.lt_ge_cases i n).
  - by rewrite Z.shiftl_spec_low by lia.
  - rewrite <- (Z.mod_small b (2 ^ n)), Z.mod_pow2_bits_high by lia. apply andb_false_r.
Qed.

Lemma merge_u64_val c d : 0 <= d < 2 ^ 16 -> merge_u64 c d = (c mod 2 ^ 48) * 2 ^ 16 + d.
Proof.
  intros Hd. unfold merge_u64. rewrite Z.land_ones by lia.
  pose proof (Z.mod_pos_bound c (2 ^ 48) ltac:(lia)).
  rewrite wrap_u64_small by (rewrite Z.shiftl_mul_pow2 by lia; unfold is_u64; lia).
  by apply lor_shift_add.
Qed.

Lemma split_u64_val r : split_u64 r = (number r / 2 ^ 16, number r mod 2 ^ 16).
Proof. unfold split_u64. by rewrite Z.shiftr_div_pow2, Z.land_ones by lia. Qed.

Lemma set_request_clock_val r c : 0 <= number r ->
  number (set_request_clock r c) = (c mod 2 ^ 48) * 2 ^ 16 + number r mod 2 ^ 16.
Proof.
  intros Hr. cbn [number set_request_clock]. rewrite Z.lor_comm, Z.land_ones by lia.
  replace (Z.land _ _) with (Z.shiftl (c mod 2 ^ 48) 16).
  { apply lor_shift_add; [lia|]. apply Z.mod_pos_bound. lia. }
  rewrite <- Z.land_ones by lia. rewrite Z.shiftl_land. unfold wrap_u64. rewrite <- Z.land_ones by lia.
  rewrite <- Z.land_assoc. f_equal.
Qed.

(** The packed header is faithful as long as the clock fits in 48 bits:
    [split_u64] gives back the clock and the database a request was made with,
    and stamping a new clock on it replaces the clock and keeps the database. *)
Theorem request_header_roundtrip c c' d op : 0 <= c < 2 ^ 48 -> 0 <= c' < 2 ^ 48 -> 0 <= d < 2 ^ 16 ->
  split_u64 (request_new c d op) = (c, d) /\
  split_u64 (set_request_clock (request_new c d op) c') = (c', d).
Proof.
  intros Hc Hc' Hd. rewrite !split_u64_val, set_request_clock_val; cbn [request_new number];
    rewrite !merge_u64_val by done; rewrite !(Z.mod_small _ (2 ^ 48)) by done; [|lia].
  rewrite (Z.add_comm (c * 2 ^ 16)), Z.mod_add, (Z.mod_small d (2 ^ 16)) by lia.
  rewrite (Z.add_comm (c' * 2 ^ 16)), !Z.div_add, !Z.mod_add, !(Z.div_small d), !(Z.mod_small d) by lia.
  done.
Qed.

Lemma request_header_roundtrip_witness :
  split_u64 (request_new 1700000000000 3 (Base Empty)) = (1700000000000, 3) /\
  split_u64 (set_request_clock (request_new 1700000000000 3 (Base Empty)) 1700000000001) = (1700000000001, 3).
Proof. apply (request_header_roundtrip 1700000000000 1700000000001 3 (Base Empty)); lia. Defined.

(** [get_db_number] shifts the database number out: it answers with the low 16
    bits of the clock whatever the database is. *)
Lemma get_db_number_ignores_db c d op : 0 <= c < 2 ^ 48 -> 0 <= d < 2 ^ 16 ->
  get_db_number (request_new c d op) = c mod 2 ^ 16.
Proof.
  intros Hc Hd. unfold get_db_number. rewrite Z.shiftr_div_pow2 by lia. cbn [request_new number].
  rewrite merge_u64_val, (Z.mod_small c (2 ^ 48)) by done.
  by rewrite (Z.add_comm (c * 2 ^ 16)), Z.div_add, (Z.div_small d) by lia.
Qed.
