(* ===== verification/Store.v ===== *)
(** * Store: the cache behind the state machine and the execution of commands.

    Models [MyCache] (src/cache_cat/src/raft/types/core/mocha/core.rs), the
    command traits and their drivers [execute_compute],
    [execute_multi_read_compute] (cas.rs), [execute_read] and
    [execute_multi_read] (read_command.rs).

    The heap holds the collections behind the [Arc<Mutex<..>>]s. A command
    takes the heap and returns it, so a mutation under the lock is seen through
    every alias of the location. The two locks order whole requests and are not
    part of the state: a request is one step. *)

From S2P Require Import Prelude Text F64 Reply SortedSet Mocha Ops.

(** ** The heap of shared collections *)

Record Heap := mkHeap {
  lists : gmap loc (list bytes);
  hashes : gmap loc (gmap bytes HashValue);
  zsets : gmap loc SortedSet;
  sets : gmap loc (gset bytes);
  next : loc
}.

Definition heap_empty : Heap := mkHeap ∅ ∅ ∅ ∅ 1%positive.

(** [lock()], reading and writing the contents. *)
Definition list_at (h : Heap) (l : loc) : list bytes := default [] (lists h !! l).
Definition hash_at (h : Heap) (l : loc) : gmap bytes HashValue := default ∅ (hashes h !! l).
Definition zset_at (h : Heap) (l : loc) : SortedSet := default zset_new (zsets h !! l).
Definition set_at (h : Heap) (l : loc) : gset bytes := default ∅ (sets h !! l).

Definition put_list (h : Heap) (l : loc) (x : list bytes) : Heap :=
  mkHeap (<[l := x]> (lists h)) (hashes h) (zsets h) (sets h) (next h).
Definition put_hash (h : Heap) (l : loc) (x : gmap bytes HashValue) : Heap :=
  mkHeap (lists h) (<[l := x]> (hashes h)) (zsets h) (sets h) (next h).
Definition put_zset (h : Heap) (l : loc) (x : SortedSet) : Heap :=
  mkHeap (lists h) (hashes h) (<[l := x]> (zsets h)) (sets h) (next h).
Definition put_set (h : Heap) (l : loc) (x : gset bytes) : Heap :=
  mkHeap (lists h) (hashes h) (zsets h) (<[l := x]> (sets h)) (next h).

Definition bump (h : Heap) : Heap :=
  mkHeap (lists h) (hashes h) (zsets h) (sets h) (Pos.succ (next h)).

(** [Arc::new(Mutex::new(x))]. *)
Definition alloc_list (h : Heap) (x : list bytes) : Heap * ValueObject :=
  (bump (put_list h (next h) x), VList (next h)).
Definition alloc_hash (h : Heap) (x : gmap bytes HashValue) : Heap * ValueObject :=
  (bump (put_hash h (next h) x), VHash (next h)).
Definition alloc_zset (h : Heap) (x : SortedSet) : Heap * ValueObject :=
  (bump (put_zset h (next h) x), VZSet (next h)).
Definition alloc_set (h : Heap) (x : gset bytes) : Heap * ValueObject :=
  (bump (put_set h (next h) x), VSet (next h)).

(** ** What the process environment decides

    The local clock, the iteration orders of the hash tables (each table has
    its own random hasher, so the order depends on the table's identity), the
    random number generator of the [rand] crate, and whether a buffer can be
    allocated. A set that is not in the heap iterates like the one the next
    allocation would make. *)

Class Env := {
  now_ms : Z;
  set_iter : loc -> gset bytes -> list bytes;
  map_iter : loc -> gmap bytes HashValue -> list (bytes * HashValue);
  db_iter : gmap bytes (Entry MyValue) -> list (bytes * Entry MyValue);
  rand_choose : list bytes -> option bytes;
  rand_choose_multiple : Z -> list bytes -> list bytes;
  rand_gen_range : nat -> Z -> Z;
  try_reserve : Z -> bool
}.

(** An iteration visits every element once; a random choice is one of the
    elements. *)
Class EnvOk (E : Env) : Prop := {
  set_iter_perm l s : set_iter l s ≡ₚ elements s;
  map_iter_perm l m : map_iter l m ≡ₚ map_to_list m;
  db_iter_perm m : db_iter m ≡ₚ map_to_list m;
  rand_choose_in l x : rand_choose l = Some x -> x ∈ l;
  rand_choose_some l : l <> [] -> is_Some (rand_choose l);
  rand_choose_multiple_sub n l : rand_choose_multiple n l ⊆+ l;
  rand_choose_multiple_len n l : 0 <= n ->
    Z.of_nat (length (rand_choose_multiple n l)) = Z.min n (Z.of_nat (length l));
  rand_gen_range_lt i n : 0 < n -> 0 <= rand_gen_range i n < n
}.

(** ** The cache *)

Record MyCache := mkMyCache {
  databases : list (Mocha MyValue);
  read_logic_clock : Z;
  write_logic_clock : Z;
  heap : Heap
}.

Inductive UpdateType :=
| UNone
| Snapshot (queue : list AtomicRequest)
| CAS (cas_version : Z).

Record Update := mkUpdate { db_number : Z; write_clock : Z; update_type : UpdateType }.

Definition with_type (u : Update) (t : UpdateType) : Update :=
  mkUpdate (db_number u) (write_clock u) t.

(** [queue.push]. *)
Definition push_request (u : Update) (r : AtomicRequest) : Update :=
  match update_type u with
  | Snapshot q => with_type u (Snapshot (q ++ [r]))
  | _ => u
  end.

Definition get_db (c : MyCache) (n : Z) : option (Mocha MyValue) := databases c !! Z.to_nat n.

Definition put_db (c : MyCache) (n : Z) (db : Mocha MyValue) (h : Heap) : MyCache :=
  mkMyCache (<[Z.to_nat n := db]> (databases c)) (read_logic_clock c) (write_logic_clock c) h.

(** [get_cache]. *)
Definition get_cache (c : MyCache) (n : Z) : result (Mocha MyValue) Value :=
  ok_or (get_db c n) (protocol_error DbNotExist).

(** [MyCache::new]: the expire worker of every database starts at clock 0. *)
Definition my_cache_new (db_count : Z) : MyCache :=
  mkMyCache (replicate (Z.to_nat db_count) (mocha_new 0)) 0 0 heap_empty.

(** [invalidate_all]. *)
Definition invalidate_all (c : MyCache) : MyCache :=
  mkMyCache (clear <$> databases c) (read_logic_clock c) (write_logic_clock c) (heap c).

(** *** The logic clocks. [system_now] is the value [now_ms()] returns. *)

Definition get_and_update_read_clock (c : MyCache) (system_now : Z) : MyCache * Z :=
  let target := Z.max (write_logic_clock c) system_now in
  let old_val := read_logic_clock c in
  (mkMyCache (databases c) (Z.max old_val target) (write_logic_clock c) (heap c),
   Z.max old_val target).

Definition generate_new_write_clock (c : MyCache) (system_now : Z) : Z :=
  Z.max (read_logic_clock c) system_now.

Definition set_write_clock (c : MyCache) (new_clock : Z) : MyCache * Z :=
  let old_value := write_logic_clock c in
  (mkMyCache (databases c) (read_logic_clock c) (Z.max old_value new_clock) (heap c),
   Z.max old_value new_clock).

(** *** Reads stamped with the read clock *)

(** The [match] on the entry that the two functions below share. *)
Definition hide_before (read_clock : Z) (r : option (EntrySnapshot MyValue)) : option MyValue :=
  match r with
  | None => None
  | Some my_value =>
      match expire_at my_value with
      | Some inner => if inner <? read_clock then None else Some (value my_value)
      | None => Some (value my_value)
      end
  end.

Definition get_value_with_read_clock (c : MyCache) (system_now : Z) (key : bytes) (n : Z)
    : MyCache * result (option MyValue) ProtocolError :=
  match get_db c n with
  | None => (c, Err DbNotExist)
  | Some db =>
      let '(c1, read_clock) := get_and_update_read_clock c system_now in
      let '(db1, r) := get_entry (write_logic_clock c1) db key in
      (put_db c1 n db1 (heap c1), Ok (hide_before read_clock r))
  end.

(** [cache.get_entry] for each key in turn. *)
Fixpoint get_entries (now : Z) (db : Mocha MyValue) (keys : list bytes)
    : Mocha MyValue * list (option (EntrySnapshot MyValue)) :=
  match keys with
  | [] => (db, [])
  | k :: keys' =>
      let '(db1, r) := get_entry now db k in
      let '(db2, rs) := get_entries now db1 keys' in
      (db2, r :: rs)
  end.

Definition get_values_with_read_clock (c : MyCache) (system_now : Z) (keys : list bytes) (n : Z)
    : MyCache * result (list (option MyValue)) ProtocolError :=
  match get_db c n with
  | None => (c, Err DbNotExist)
  | Some db =>
      let '(c1, read_clock) := get_and_update_read_clock c system_now in
      let '(db1, rs) := get_entries (write_logic_clock c1) db keys in
      (put_db c1 n db1 (heap c1), Ok (hide_before read_clock <$> rs))
  end.

(** [self.get_cache(..)?.mocha.get_entry(key)], on the database of the update. *)
Definition lookup_entry (c : MyCache) (n : Z) (db : Mocha MyValue) (k : bytes)
    : MyCache * option (EntrySnapshot MyValue) :=
  let '(db1, r) := get_entry (write_logic_clock c) db k in
  (put_db c n db1 (heap c), r).

(** ** The command traits *)

(** The heap a command leaves, what is to be done with the entry, the reply. *)
Abbreviation mutation := (Heap * (MochaOperation MyValue * Value))%type.

(** The entry is written back with its value, which shares the changed
    collection, and its deadline. *)
Definition write_back (e : EntrySnapshot MyValue) : MochaOperation MyValue :=
  MInsert (value e) (get_expire_policy e).

Definition wrong_type : Value :=
  Error (str "WRONGTYPE Operation against a key holding the wrong kind of value").

Class ComputeCommand (C : Type) := {
  key : C -> bytes;
  into_base_op : C -> BaseOperation;
  mutate : C -> EntrySnapshot MyValue -> Z -> Heap -> mutation;
  init : C -> Heap -> mutation
}.

Class MultiReadComputeCommand (C : Type) := {
  write_key : C -> bytes;
  read_keys : C -> list bytes;
  multi_into_base_op : C -> BaseOperation;
  multi_mutate : C -> list (option (EntrySnapshot MyValue)) -> Z -> Heap -> mutation
}.

Class ReadCommand (C : Type) := {
  rkey : C -> bytes;
  execute : C -> Heap -> option (EntrySnapshot MyValue) -> Value
}.

Class MultiReadCommand (C : Type) := {
  rkeys : C -> list bytes;
  multi_execute : C -> Heap -> list (option (EntrySnapshot MyValue)) -> Value
}.

(** ** The drivers *)

Definition key_not_found : Value := Error (str "Key not found").

(** The [match changed] the drivers end with. *)
Definition apply_changed (now : Z) (db : Mocha MyValue) (k : bytes) (changed : MochaOperation MyValue)
    : Mocha MyValue :=
  match changed with
  | MInsert v e => (insert_entry now db k v e).1
  | MRemove => (remove now db k).1
  | MAbort => db
  end.

(** [next_version] of the snapshot branches. *)
Definition next_version (changed : MochaOperation MyValue) : Z :=
  match changed with
  | MInsert v _ => wrap_u32 (version v + 1)
  | _ => 1
  end.

(** [value.version += 1] of the CAS branches. *)
Definition bump_version (changed : MochaOperation MyValue) : MochaOperation MyValue :=
  match changed with
  | MInsert v e => MInsert (mkMyValue (wrap_u32 (version v + 1)) (data v)) e
  | op => op
  end.

Definition execute_compute {C} `{ComputeCommand C} (c : MyCache) (cmd : C) (u : Update)
    : MyCache * Update * Value :=
  let n := db_number u in
  match get_db c n with
  | None => (c, u, key_not_found)
  | Some db =>
      let now := write_logic_clock c in
      let k := key cmd in
      let '(db1, option) := get_entry now db k in
      match option with
      | None =>
          let '(h, (new_obj, res)) := init cmd (heap c) in
          match new_obj with
          | MAbort => (put_db c n db1 h, u, key_not_found)
          | _ => (put_db c n (apply_changed now db1 k new_obj) h, u, res)
          end
      | Some entry =>
          match update_type u with
          | UNone =>
              let '(h, (changed, res)) := mutate cmd entry (write_clock u) (heap c) in
              (put_db c n (apply_changed now db1 k changed) h, u, res)
          | Snapshot _ =>
              let '(h, (changed, res)) := mutate cmd entry (write_clock u) (heap c) in
              (put_db c n (apply_changed now db1 k changed) h,
               push_request u (mkAtomicRequest (into_base_op cmd) (next_version changed) (write_clock u)),
               res)
          | CAS cas_version =>
              if version (value entry) =? wrap_u32 (cas_version - 1)
              then
                let '(h, (changed, res)) := mutate cmd entry (write_clock u) (heap c) in
                (put_db c n (apply_changed now db1 k (bump_version changed)) h, u, res)
              else (put_db c n db1 (heap c), u, Null)
          end
      end
  end.

Definition execute_multi_read_compute {C} `{MultiReadComputeCommand C} (c : MyCache) (cmd : C)
    (u : Update) : MyCache * Update * Value :=
  let n := db_number u in
  match get_db c n with
  | None => (c, u, key_not_found)
  | Some db =>
      let now := write_logic_clock c in
      let '(db1, keys) := get_entries now db (read_keys cmd) in
      let k := write_key cmd in
      match update_type u with
      | UNone =>
          let '(h, (changed, res)) := multi_mutate cmd keys (write_clock u) (heap c) in
          (put_db c n (apply_changed now db1 k changed) h, u, res)
      | Snapshot _ =>
          let '(h, (changed, res)) := multi_mutate cmd keys (write_clock u) (heap c) in
          (put_db c n (apply_changed now db1 k changed) h,
           push_request u (mkAtomicRequest (multi_into_base_op cmd) (next_version changed) (write_clock u)),
           res)
      | CAS cas_version =>
          let '(db2, option) := get_entry now db1 k in
          match option with
          | None => (put_db c n db2 (heap c), u, Null)
          | Some entry =>
              if version (value entry) =? wrap_u32 (cas_version - 1)
              then
                let '(h, (changed, res)) := multi_mutate cmd keys (write_clock u) (heap c) in
                (put_db c n (apply_changed now db2 k (bump_version changed)) h, u, res)
              else (put_db c n db2 (heap c), u, Null)
          end
      end
  end.

Definition execute_read {C} `{ReadCommand C} (c : MyCache) (cmd : C) (n : Z) (read_clock : option Z)
    : MyCache * Value :=
  match get_db c n with
  | None => (c, key_not_found)
  | Some db =>
      let '(db1, option) := get_with_read_clock (write_logic_clock c) db (rkey cmd) read_clock in
      (put_db c n db1 (heap c), execute cmd (heap c) option)
  end.

(** The loop of [execute_multi_read]. *)
Fixpoint get_all_with_read_clock (now : Z) (db : Mocha MyValue) (keys : list bytes) (read_clock : option Z)
    : Mocha MyValue * list (option (EntrySnapshot MyValue)) :=
  match keys with
  | [] => (db, [])
  | k :: keys' =>
      let '(db1, r) := get_with_read_clock now db k read_clock in
      let '(db2, rs) := get_all_with_read_clock now db1 keys' read_clock in
      (db2, r :: rs)
  end.

Definition execute_multi_read {C} `{MultiReadCommand C} (c : MyCache) (cmd : C) (n : Z)
    (read_clock : option Z) : MyCache * Value :=
  match get_db c n with
  | None => (c, key_not_found)
  | Some db =>
      let '(db1, vec) := get_all_with_read_clock (write_logic_clock c) db (rkeys cmd) read_clock in
      (put_db c n db1 (heap c), multi_execute cmd (heap c) vec)
  end.
