(* ===== verification/Refine.v ===== *)
(** * Refine: the store without sharing, and the simulation of the drivers.

    The specification of the store is a list of finite maps from keys to plain
    values, with no locations, no expired entries and no tombstones. A command
    is specified by what it does to the plain value of its key ([PureCommand]);
    [ComputeLaws] states that the implementation of the command agrees with it
    and touches no other collection. The theorems here lift one command's laws
    to the whole cache: the invariant is kept, exactly the command's key
    changes, and the reply is the specified one. *)

From S2P Require Import Prelude Text F64 Reply SortedSet TimeWheel Mocha Ops Store.

(** ** Plain values *)

Inductive PData :=
| PInt (i : Z)
| PString (s : bytes)
| PList (l : list bytes)
| PHash (m : gmap bytes HashValue)
| PZSet (z : SortedSet)
| PSet (s : gset bytes).

Record PValue := mkPValue { pversion : Z; pdata : PData }.

Definition pvalue_new (d : PData) : PValue := mkPValue 1 d.

(** Reading a stored value through the heap; [None] is a dangling location. *)
Definition abs_data (h : Heap) (v : ValueObject) : option PData :=
  match v with
  | VInt i => Some (PInt i)
  | VString s => Some (PString s)
  | VList l => PList <$> lists h !! l
  | VHash l => PHash <$> hashes h !! l
  | VZSet l => PZSet <$> zsets h !! l
  | VSet l => PSet <$> sets h !! l
  end.

Definition abs_value (h : Heap) (v : MyValue) : option PValue :=
  mkPValue (version v) <$> abs_data h (data v).

Definition value_loc (v : ValueObject) : option loc :=
  match v with
  | VInt _ | VString _ => None
  | VList l | VHash l | VZSet l | VSet l => Some l
  end.

(** Every location in use is below [next]. *)
Definition HeapInv (h : Heap) : Prop :=
  forall v d l, abs_data h v = Some d -> value_loc v = Some l -> (l < next h)%positive.

(** [h'] extends [h] and agrees with it on every value that does not point to
    [own]. *)
Definition frame (own : option loc) (h h' : Heap) : Prop :=
  HeapInv h' /\ (next h <= next h')%positive /\
  forall v d, abs_data h v = Some d -> (value_loc v = None \/ value_loc v <> own) ->
    abs_data h' v = Some d.

(** A location handed out by an allocation in [h]. *)
Definition fresh_or (own : option loc) (h : Heap) (v : ValueObject) : Prop :=
  match value_loc v with
  | None => True
  | Some l => own = Some l \/ (next h <= l)%positive
  end.

(** Writing a collection at a location, whatever its type. *)
Definition heap_put (h : Heap) (l : loc) (d : PData) : Heap :=
  match d with
  | PInt _ | PString _ => h
  | PList x => put_list h l x
  | PHash x => put_hash h l x
  | PZSet x => put_zset h l x
  | PSet x => put_set h l x
  end.

Definition ptr (l : loc) (d : PData) : ValueObject :=
  match d with
  | PInt i => VInt i
  | PString s => VString s
  | PList _ => VList l
  | PHash _ => VHash l
  | PZSet _ => VZSet l
  | PSet _ => VSet l
  end.

Lemma abs_heap_put h l d v :
  abs_data (heap_put h l d) v = if decide (v = ptr l d) then Some d else abs_data h v.
Proof.
  destruct d; destruct v as [i'|s'|l'|l'|l'|l']; cbn; case_decide as E;
    simplify_eq/=; rewrite ?lookup_insert_eq, ?lookup_insert_ne by congruence; done.
Qed.

Lemma abs_bump h v : abs_data (bump h) v = abs_data h v.
Proof. by destruct v. Qed.

Lemma ptr_loc l d : value_loc (ptr l d) = None \/ value_loc (ptr l d) = Some l.
Proof. destruct d; auto. Qed.

Lemma next_heap_put h l d : next (heap_put h l d) = next h.
Proof. by destruct d. Qed.

Lemma frame_refl own h : HeapInv h -> frame own h h.
Proof. intros. split_and!; [done|lia|done]. Qed.

Lemma frame_put h l d : HeapInv h -> (l < next h)%positive -> frame (Some l) h (heap_put h l d).
Proof.
  intros Hh Hl. split_and!; [|rewrite next_heap_put; lia|].
  - intros v d' l' Hv Hl'. rewrite next_heap_put. rewrite abs_heap_put in Hv. case_decide as E.
    + subst v. destruct (ptr_loc l d) as [E|E]; congruence.
    + by eapply Hh.
  - intros v d' Hv Hown. rewrite abs_heap_put. case_decide as E; [|done]. subst v.
    destruct Hown as [Hown|Hown]; destruct d; cbn in *; congruence.
Qed.

Lemma frame_alloc own h d : HeapInv h -> frame own h (bump (heap_put h (next h) d)).
Proof.
  intros Hh. split_and!; [|cbn; rewrite next_heap_put; lia|].
  - intros v d' l' Hv Hl'. cbn [next bump]. rewrite next_heap_put.
    rewrite abs_bump, abs_heap_put in Hv. case_decide as E.
    + subst v. destruct (ptr_loc (next h) d) as [E|E]; [congruence|]. rewrite E in Hl'.
      injection Hl' as <-. lia.
    + specialize (Hh _ _ _ Hv Hl'). lia.
  - intros v d' Hv _. rewrite abs_bump, abs_heap_put. case_decide as E; [|done]. subst v.
    destruct (ptr_loc (next h) d) as [E|E]; [destruct d; cbn in *; congruence|].
    specialize (Hh _ _ _ Hv E). lia.
Qed.

Lemma abs_alloc h d : abs_data (bump (heap_put h (next h) d)) (ptr (next h) d) = Some d.
Proof. by rewrite abs_bump, abs_heap_put, decide_True. Qed.

Lemma abs_put h l d : abs_data (heap_put h l d) (ptr l d) = Some d.
Proof. by rewrite abs_heap_put, decide_True. Qed.

Lemma fresh_alloc own h d : fresh_or own h (ptr (next h) d).
Proof. unfold fresh_or. destruct (ptr_loc (next h) d) as [->| ->]; [done|]. right. lia. Qed.

Lemma frame_mono own h h' : frame None h h' -> frame own h h'.
Proof. intros (? & ? & H). split_and!; [done..|]. intros v d Hv _. apply H; [done|]. destruct (value_loc v); auto. Qed.

(** ** Commands on plain values *)

Class PureCommand (C : Type) := {
  pmutate : C -> EntrySnapshot PValue -> Z -> MochaOperation PValue * Value;
  pinit : C -> MochaOperation PValue * Value
}.

(** The implementation's answer [op], given in heap [h'] by a command that ran
    in [h] on the value at [own], stands for the specified [pop]. *)
Definition op_rel (own : option loc) (h h' : Heap) (op : MochaOperation MyValue)
    (pop : MochaOperation PValue) : Prop :=
  match op, pop with
  | MInsert v p, MInsert pv p' =>
      p = p' /\ policy_ok p /\ abs_value h' v = Some pv /\ fresh_or own h (data v)
  | MRemove, MRemove => True
  | MAbort, MAbort => True
  | _, _ => False
  end.

(** What a command promises to the drivers. *)
Class ComputeLaws (C : Type) `{ComputeCommand C, PureCommand C} := {
  cmd_ok : C -> Prop;
  mutate_refines cmd e pv wc h :
    HeapInv h -> cmd_ok cmd -> is_u64 wc -> (forall a, expire_at e = Some a -> is_u64 a) ->
    abs_value h (value e) = Some pv ->
    let own := value_loc (data (value e)) in
    let '(h', (op, r)) := mutate cmd e wc h in
    let '(pop, pr) := pmutate cmd (mkEntrySnapshot pv (expire_at e)) wc in
    r = pr /\ frame own h h' /\ op_rel own h h' op pop /\
    (op = MAbort -> abs_value h' (value e) = Some pv);
  init_refines cmd h :
    HeapInv h -> cmd_ok cmd ->
    let '(h', (op, r)) := init cmd h in
    let '(pop, pr) := pinit cmd in
    r = pr /\ frame None h h' /\ op_rel None h h' op pop
}.

(** ** The specification of the store *)

Abbreviation PStore := (list (gmap bytes (Entry PValue))).

Definition papply (now : Z) (k : bytes) (op : MochaOperation PValue) (m : gmap bytes (Entry PValue))
    : gmap bytes (Entry PValue) :=
  match op with
  | MInsert pv p => put now k (make_entry now pv p) m
  | MRemove => delete k m
  | MAbort => m
  end.

Definition spec_compute {C} `{ComputeCommand C, PureCommand C} (now wc n : Z) (s : PStore) (cmd : C)
    : PStore * Value :=
  match s !! Z.to_nat n with
  | None => (s, key_not_found)
  | Some m =>
      match m !! key cmd with
      | None =>
          match pinit cmd with
          | (MAbort, _) => (s, key_not_found)
          | (op, r) => (<[Z.to_nat n := papply now (key cmd) op m]> s, r)
          end
      | Some e =>
          let '(op, r) := pmutate cmd (snapshot e) wc in
          (<[Z.to_nat n := papply now (key cmd) op m]> s, r)
      end
  end.

(** ** The abstraction of a cache, and its invariant *)

Definition abs_entry (h : Heap) (e : Entry MyValue) : option (Entry PValue) :=
  (fun pv => mkEntry pv (e_expire_at e)) <$> abs_value h (e_value e).

Definition abs_db (now : Z) (h : Heap) (db : Mocha MyValue) : gmap bytes (Entry PValue) :=
  omap (abs_entry h) (live now (map_ db)).

Definition abs (c : MyCache) : PStore := abs_db (write_logic_clock c) (heap c) <$> databases c.

Definition entry_at (c : MyCache) (i : nat) (k : bytes) (e : Entry MyValue) : Prop :=
  exists db, databases c !! i = Some db /\ live (write_logic_clock c) (map_ db) !! k = Some e.

Record CacheInv (c : MyCache) : Prop := {
  inv_clock : is_u64 (write_logic_clock c);
  inv_mocha i db : databases c !! i = Some db -> MochaInv (write_logic_clock c) db;
  inv_heap : HeapInv (heap c);
  inv_bound i k e : entry_at c i k e -> is_Some (abs_data (heap c) (data (e_value e)));
  inv_deadline i k e a : entry_at c i k e -> e_expire_at e = Some a -> is_u64 a;
  inv_sep i k e i' k' e' l : entry_at c i k e -> entry_at c i' k' e' ->
    value_loc (data (e_value e)) = Some l -> value_loc (data (e_value e')) = Some l ->
    i = i' /\ k = k'
}.

Lemma abs_lookup c i : abs c !! i = abs_db (write_logic_clock c) (heap c) <$> databases c !! i.
Proof. apply list_lookup_fmap. Qed.

Lemma abs_db_lookup now h db k : abs_db now h db !! k = live now (map_ db) !! k ≫= abs_entry h.
Proof. apply lookup_omap. Qed.

Lemma get_db_abs c n db : get_db c n = Some db ->
  abs c !! Z.to_nat n = Some (abs_db (write_logic_clock c) (heap c) db).
Proof. unfold get_db. intros Hdb. by rewrite abs_lookup, Hdb. Qed.

Lemma get_db_lt c n db : get_db c n = Some db -> (Z.to_nat n < length (databases c))%nat.
Proof. apply lookup_lt_Some. Qed.

Lemma entry_at_put_db c n db db' h i k e : get_db c n = Some db ->
  entry_at (put_db c n db' h) i k e <->
  (i = Z.to_nat n /\ live (write_logic_clock c) (map_ db') !! k = Some e) \/
  (i <> Z.to_nat n /\ entry_at c i k e).
Proof.
  unfold get_db, entry_at. cbn [databases write_logic_clock put_db]. intros Hdb.
  destruct (decide (i = Z.to_nat n)) as [->|Hne].
  - rewrite list_lookup_insert_eq by (by eapply lookup_lt_Some). naive_solver.
  - rewrite list_lookup_insert_ne by done. naive_solver.
Qed.

(** Whoever else holds a live entry does not share the location of key [k]. *)
Definition owner (c : MyCache) (n : Z) (k : bytes) (own : option loc) : Prop :=
  forall l, own = Some l -> exists e, entry_at c (Z.to_nat n) k e /\ value_loc (data (e_value e)) = Some l.

Lemma owner_frame c n k own h' i k' e d : CacheInv c -> owner c n k own -> frame own (heap c) h' ->
  entry_at c i k' e -> (i, k') <> (Z.to_nat n, k) -> abs_data (heap c) (data (e_value e)) = Some d ->
  abs_data h' (data (e_value e)) = Some d.
Proof.
  intros Hc Hown (_ & _ & Hfr) He Hne Hd. apply Hfr; [done|].
  destruct (value_loc (data (e_value e))) as [l|] eqn:El; [|by left]. right. intros <-.
  destruct (Hown l eq_refl) as (e' & He' & El'). apply Hne.
  by destruct (inv_sep c Hc _ _ _ _ _ _ _ He He' El El') as [-> ->].
Qed.

(** No entry but that of [k] shares the location of [v]. *)
Definition private (c : MyCache) (n : Z) (k : bytes) (v : ValueObject) : Prop :=
  forall i k' e l, entry_at c i k' e -> (i, k') <> (Z.to_nat n, k) ->
    value_loc v = Some l -> value_loc (data (e_value e)) <> Some l.

Lemma fresh_private c n k own v : CacheInv c -> owner c n k own -> fresh_or own (heap c) v ->
  private c n k v.
Proof.
  intros Hc Hown Hf i k' e l He Hne Hl Hl'. unfold fresh_or in Hf. rewrite Hl in Hf. destruct Hf as [Ho|Hf].
  - destruct (Hown l Ho) as (e0 & He0 & Hl0). apply Hne.
    by destruct (inv_sep c Hc _ _ _ _ _ _ _ He He0 Hl' Hl0) as [-> ->].
  - destruct (inv_bound c Hc _ _ _ He) as [d Hd]. pose proof (inv_heap c Hc _ _ _ Hd Hl'). lia.
Qed.

(** *** Replacing one key

    One database is replaced by one that differs at key [k] only, in a heap that
    changed only at the value of [k]. *)

Section ReplaceKey.
Context (c : MyCache) (n : Z) (db db' : Mocha MyValue) (h' : Heap) (k : bytes) (own : option loc).
Let now := write_logic_clock c.
Hypothesis Hc : CacheInv c.
Hypothesis Hdb : get_db c n = Some db.
Hypothesis Hm' : MochaInv now db'.
Hypothesis Hsame : forall k', k' <> k -> live now (map_ db') !! k' = live now (map_ db) !! k'.
Hypothesis Hown : owner c n k own.
Hypothesis Hfr : frame own (heap c) h'.
Hypothesis Hk : forall e, live now (map_ db') !! k = Some e ->
  is_Some (abs_data h' (data (e_value e))) /\ private c n k (data (e_value e)) /\
  forall a, e_expire_at e = Some a -> is_u64 a.

Lemma replace_entry i k' e : entry_at (put_db c n db' h') i k' e ->
  (i = Z.to_nat n /\ k' = k /\ live now (map_ db') !! k = Some e) \/
  ((i, k') <> (Z.to_nat n, k) /\ entry_at c i k' e).
Proof.
  intros He. apply (entry_at_put_db _ _ _ _ _ _ _ _ Hdb) in He as [[-> He]|[Hi He]].
  - destruct (decide (k' = k)) as [->|Hne]; [by left|]. right. split; [congruence|].
    fold now in He. rewrite Hsame in He by done. by exists db.
  - right. split; [congruence|done].
Qed.

Lemma replace_inv : CacheInv (put_db c n db' h').
Proof.
  constructor.
  - apply Hc.
  - intros i dbi Hi. cbn in Hi. destruct (decide (i = Z.to_nat n)) as [->|Hne].
    + rewrite list_lookup_insert_eq in Hi by (exact (get_db_lt _ _ _ Hdb)). by simplify_eq.
    + rewrite list_lookup_insert_ne in Hi by done. exact (inv_mocha c Hc _ _ Hi).
  - apply Hfr.
  - intros i k' e [(-> & -> & He)|[Hne He]]%replace_entry; [by apply Hk|].
    destruct (inv_bound c Hc _ _ _ He) as [d Hd]. exists d. by eapply owner_frame.
  - intros i k' e a [(-> & -> & He)|[Hne He]]%replace_entry Ha; [by eapply Hk|].
    exact (inv_deadline c Hc _ _ _ _ He Ha).
  - intros i1 k1 e1 i2 k2 e2 l [(-> & -> & He1)|[Hne1 He1]]%replace_entry
      [(-> & -> & He2)|[Hne2 He2]]%replace_entry Hl1 Hl2; [done| | |].
    + destruct (Hk e1 He1) as (_ & Hp & _). by destruct (Hp _ _ _ _ He2 Hne2 Hl1).
    + destruct (Hk e2 He2) as (_ & Hp & _). by destruct (Hp _ _ _ _ He1 Hne1 Hl2).
    + by eapply (inv_sep c Hc).
Qed.

Lemma replace_other i k' e : entry_at c i k' e -> (i, k') <> (Z.to_nat n, k) ->
  abs_entry h' e = abs_entry (heap c) e.
Proof.
  intros He Hne. destruct (inv_bound c Hc _ _ _ He) as [d Hd]. unfold abs_entry, abs_value. rewrite Hd.
  by erewrite owner_frame.
Qed.

Lemma replace_abs : abs (put_db c n db' h') =
  <[Z.to_nat n := partial_alter (fun _ => live now (map_ db') !! k ≫= abs_entry h') k
      (abs_db now (heap c) db)]> (abs c).
Proof.
  pose proof Hdb as Hi. unfold get_db in Hi.
  apply list_eq. intros i. rewrite abs_lookup. cbn [databases write_logic_clock heap put_db]. fold now.
  destruct (decide (i = Z.to_nat n)) as [->|Hne].
  - rewrite !list_lookup_insert_eq by (unfold abs; rewrite ?length_fmap; exact (get_db_lt _ _ _ Hdb)).
    cbn. f_equal. apply map_eq. intros k'. rewrite abs_db_lookup. destruct (decide (k' = k)) as [->|Hk'].
    + by rewrite lookup_partial_alter_eq.
    + rewrite lookup_partial_alter_ne, abs_db_lookup, Hsame by done.
      destruct (live now (map_ db) !! k') as [e|] eqn:Ee; [|done]. cbn.
      apply (replace_other (Z.to_nat n) k'); [by exists db|congruence].
  - rewrite !list_lookup_insert_ne, abs_lookup by done. fold now.
    destruct (databases c !! i) as [dbi|] eqn:Ei; [|done]. cbn. f_equal.
    apply map_eq. intros k'. rewrite !abs_db_lookup.
    destruct (live now (map_ dbi) !! k') as [e|] eqn:Ee; [|done]. cbn.
    apply (replace_other i k'); [by exists dbi|congruence].
Qed.

End ReplaceKey.

(** ** The drivers simulate the specification *)

Lemma apply_changed_spec now db k op : MochaInv now db ->
  (forall v p, op = MInsert v p -> policy_ok p) ->
  MochaInv now (apply_changed now db k op) /\
  live now (map_ (apply_changed now db k op)) =
    match op with
    | MInsert v p => put now k (make_entry now v p) (live now (map_ db))
    | MRemove => delete k (live now (map_ db))
    | MAbort => live now (map_ db)
    end.
Proof.
  intros Hm Hp. destruct op as [v p| |]; cbn [apply_changed]; [| |done].
  - pose proof (call_simulates now db (CInsert k v p) (Hp v p eq_refl) Hm) as Hs.
    unfold simulates in Hs. cbn [run_call spec_call] in Hs.
    destruct (insert_entry now db k v p) as [m' s]. by destruct Hs as (_ & ? & ?).
  - pose proof (call_simulates now db (CRemove k) I Hm) as Hs.
    unfold simulates in Hs. cbn [run_call spec_call] in Hs. unfold remove.
    destruct (remove_entry now db k) as [m' s]. by destruct Hs as (_ & ? & ?).
Qed.

Lemma partial_alter_none {V} (k : bytes) (m : gmap bytes V) :
  partial_alter (fun _ => None) k m = delete k m.
Proof. done. Qed.

Lemma abs_make_entry now h v pv p : abs_value h v = Some pv ->
  abs_entry h (make_entry now v p) = Some (make_entry now pv p).
Proof. unfold abs_entry. cbn. by intros ->. Qed.

(** Changing the heap at most at the value of [k], and no entry. *)
Lemma abort_key c n db db1 h' k own : CacheInv c -> get_db c n = Some db ->
  let now := write_logic_clock c in
  MochaInv now db1 -> live now (map_ db1) = live now (map_ db) ->
  owner c n k own -> frame own (heap c) h' ->
  (forall e, live now (map_ db) !! k = Some e -> abs_entry h' e = abs_entry (heap c) e) ->
  CacheInv (put_db c n db1 h') /\ abs (put_db c n db1 h') = abs c.
Proof.
  intros Hc Hdb now Hm1 Hlive1 Hown Hfr Hab.
  set (own' := live now (map_ db) !! k ≫= fun e => value_loc (data (e_value e))).
  assert (Hown' : owner c n k own').
  { intros l Hl. unfold own' in Hl. destruct (live now (map_ db) !! k) as [e|] eqn:Ee; [|done].
    exists e. split; [by exists db|done]. }
  assert (Hfr' : frame own' (heap c) h').
  { destruct own as [l|]; [|by apply frame_mono]. destruct (Hown l eq_refl) as (e & (db0 & Hdb0 & He) & El).
    unfold get_db in Hdb. replace own' with (Some l); [done|]. unfold own'. rewrite Hdb in Hdb0.
    injection Hdb0 as ->. fold now in He. rewrite He. cbn. congruence. }
  assert (Hk : forall e, live now (map_ db1) !! k = Some e ->
    is_Some (abs_data h' (data (e_value e))) /\ private c n k (data (e_value e)) /\
    forall a, e_expire_at e = Some a -> is_u64 a).
  { rewrite Hlive1. intros e He. assert (Hat : entry_at c (Z.to_nat n) k e) by (by exists db). split_and!.
    - specialize (Hab e He). destruct (inv_bound c Hc _ _ _ Hat) as [d Hd]. revert Hab.
      unfold abs_entry, abs_value. rewrite Hd. by destruct (abs_data h' (data (e_value e))).
    - apply (fresh_private c n k own'); [done..|]. unfold fresh_or, own'. rewrite He. cbn. destruct (value_loc _); auto.
    - intros a Ha. exact (inv_deadline c Hc _ _ _ _ Hat Ha). }
  assert (Hsame : forall k', k' <> k -> live now (map_ db1) !! k' = live now (map_ db) !! k')
    by (by rewrite Hlive1).
  split; [by eapply replace_inv|]. erewrite replace_abs by done. fold now. rewrite Hlive1.
  apply list_insert_id. rewrite (get_db_abs c n db Hdb). fold now. f_equal. symmetry.
  apply map_eq. intros k'. destruct (decide (k' = k)) as [->|Hne].
  - rewrite lookup_partial_alter_eq, abs_db_lookup. destruct (live now (map_ db) !! k) as [e|] eqn:Ee; [|done].
    cbn. by apply Hab.
  - by rewrite lookup_partial_alter_ne.
Qed.

(** Writing a new entry at [k]. *)
Lemma insert_key c n db db' h' k own v pv p : CacheInv c -> get_db c n = Some db ->
  let now := write_logic_clock c in
  MochaInv now db' -> live now (map_ db') = put now k (make_entry now v p) (live now (map_ db)) ->
  owner c n k own -> frame own (heap c) h' ->
  policy_ok p -> abs_value h' v = Some pv -> private c n k (data v) ->
  CacheInv (put_db c n db' h') /\
  abs (put_db c n db' h') =
    <[Z.to_nat n := put now k (make_entry now pv p) (abs_db now (heap c) db)]> (abs c).
Proof.
  intros Hc Hdb now Hm' Hlive' Hown Hfr Hpol Habs Hfresh.
  assert (Hk : live now (map_ db') !! k =
    if is_expired now (make_entry now v p) then None else Some (make_entry now v p)).
  { rewrite Hlive'. unfold put. case_match; [by rewrite lookup_delete_eq|by rewrite lookup_insert_eq]. }
  assert (Hsame : forall k', k' <> k -> live now (map_ db') !! k' = live now (map_ db) !! k').
  { intros k' Hne. rewrite Hlive'. unfold put.
    case_match; [by rewrite lookup_delete_ne|by rewrite lookup_insert_ne]. }
  assert (Hnew : forall e, live now (map_ db') !! k = Some e ->
    is_Some (abs_data h' (data (e_value e))) /\ private c n k (data (e_value e)) /\
    forall a, e_expire_at e = Some a -> is_u64 a).
  { rewrite Hk. intros e. case_match; [done|]. intros [= <-]. split_and!; [|done|].
    - revert Habs. unfold abs_value. cbn. by destruct (abs_data h' (data v)).
    - intros a. apply resolve_u64; [apply Hc|done]. }
  split; [by eapply replace_inv|]. erewrite replace_abs by done. fold now. rewrite Hk.
  f_equal. unfold put. change (is_expired now (make_entry now pv p)) with
    (is_expired now (make_entry now v p)).
  case_match; [done|]. cbn. by rewrite (abs_make_entry now h' v pv p Habs).
Qed.

(** [db1] is [db] after the lookup, which may have dropped expired entries. *)
Lemma change_key c n db db1 h' k own op pop : CacheInv c -> get_db c n = Some db ->
  let now := write_logic_clock c in
  MochaInv now db1 -> live now (map_ db1) = live now (map_ db) ->
  owner c n k own -> frame own (heap c) h' -> op_rel own (heap c) h' op pop ->
  (op = MAbort -> forall e, live now (map_ db) !! k = Some e -> abs_entry h' e = abs_entry (heap c) e) ->
  let c' := put_db c n (apply_changed now db1 k op) h' in
  CacheInv c' /\ abs c' = <[Z.to_nat n := papply now k pop (abs_db now (heap c) db)]> (abs c).
Proof.
  intros Hc Hdb now Hm1 Hlive1 Hown Hfr Hop Hab c'.
  assert (Hp : forall v p, op = MInsert v p -> policy_ok p).
  { intros v p ->. destruct pop; cbn in Hop; naive_solver. }
  destruct (apply_changed_spec now db1 k op Hm1 Hp) as [Hm' Hlive']. rewrite Hlive1 in Hlive'.
  destruct op as [v p| |], pop as [pv p'| |]; try done; cbn in Hop.
  - destruct Hop as (<- & Hpol & Habs & Hfresh). apply (insert_key c n db _ h' k own v); try done.
    by eapply fresh_private.
  - assert (Hsame : forall k', k' <> k ->
      live now (map_ (apply_changed now db1 k MRemove)) !! k' = live now (map_ db) !! k').
    { intros k' Hne. by rewrite Hlive', lookup_delete_ne. }
    assert (Hk : live now (map_ (apply_changed now db1 k MRemove)) !! k = None)
      by (by rewrite Hlive', lookup_delete_eq).
    split; [eapply replace_inv; try done; intros e He; fold now in He; congruence|].
    unfold c'. erewrite replace_abs by done. fold now. by rewrite Hk.
  - cbn [apply_changed papply] in *. destruct (abort_key c n db db1 h' k own) as [? Ha]; [done..|by apply Hab|].
    split; [done|]. unfold c'. rewrite Ha. symmetry. apply list_insert_id. by apply get_db_abs.
Qed.

(** The value a live entry holds, with its abstract entry. *)
Lemma live_abs c n db k e : CacheInv c -> get_db c n = Some db ->
  live (write_logic_clock c) (map_ db) !! k = Some e ->
  exists pv, abs_value (heap c) (e_value e) = Some pv /\
    abs_db (write_logic_clock c) (heap c) db !! k = Some (mkEntry pv (e_expire_at e)).
Proof.
  intros Hc Hdb He. assert (Hat : entry_at c (Z.to_nat n) k e) by (by exists db).
  destruct (inv_bound c Hc _ _ _ Hat) as [d Hd]. exists (mkPValue (version (e_value e)) d).
  rewrite abs_db_lookup, He. cbn. unfold abs_entry, abs_value. by rewrite Hd.
Qed.

Lemma owner_self c n db k e : get_db c n = Some db ->
  live (write_logic_clock c) (map_ db) !! k = Some e ->
  owner c n k (value_loc (data (e_value e))).
Proof. intros Hdb He l Hl. exists e. split; [by exists db|done]. Qed.

Lemma owner_none c n k : owner c n k None.
Proof. done. Qed.

(** Modes in which every update is carried out. *)
Definition applies (t : UpdateType) : Prop := match t with CAS _ => False | _ => True end.

(** The update a request leaves behind: in snapshot mode the queue may have
    grown, the rest is as before. *)
Definition same_update (u u' : Update) : Prop :=
  db_number u' = db_number u /\ write_clock u' = write_clock u /\
  match update_type u, update_type u' with
  | UNone, UNone => True
  | Snapshot q, Snapshot q' => exists new, q' = q ++ new
  | CAS v, CAS v' => v = v'
  | _, _ => False
  end.

Lemma same_update_refl u : same_update u u.
Proof. split_and!; [done..|]. destruct (update_type u); [done| |done]. exists []. by rewrite app_nil_r. Qed.

Lemma same_update_trans u1 u2 u3 : same_update u1 u2 -> same_update u2 u3 -> same_update u1 u3.
Proof.
  intros (? & ? & H1) (? & ? & H2). split_and!; [congruence..|].
  destruct (update_type u1), (update_type u2), (update_type u3); try done; [|congruence].
  destruct H1 as [n1 ->], H2 as [n2 ->]. exists (n1 ++ n2). by rewrite (assoc_L (++)).
Qed.

Lemma same_update_push u r : applies (update_type u) -> same_update u (push_request u r).
Proof.
  intros Hu. unfold push_request. destruct (update_type u) eqn:E; [apply same_update_refl| |done].
  split_and!; [done..|]. rewrite E. cbn. by eexists.
Qed.

Lemma same_update_applies u u' : same_update u u' -> applies (update_type u) -> applies (update_type u').
Proof. intros (_ & _ & H). by destruct (update_type u), (update_type u'). Qed.

Lemma put_db_clock c n db h : write_logic_clock (put_db c n db h) = write_logic_clock c.
Proof. done. Qed.

(** A driver's result against the specification's: the invariant, the abstract
    store, the clock, the update and the reply. *)
Definition refines (c : MyCache) (u : Update) (res : MyCache * Update * Value) (spec : PStore * Value) : Prop :=
  let '(c', u', r) := res in
  CacheInv c' /\ abs c' = spec.1 /\ r = spec.2 /\
  write_logic_clock c' = write_logic_clock c /\ same_update u u'.

Lemma execute_compute_refines {C} `{ComputeLaws C} c (cmd : C) u :
  CacheInv c -> cmd_ok cmd -> is_u64 (write_clock u) -> applies (update_type u) ->
  refines c u (execute_compute c cmd u)
    (spec_compute (write_logic_clock c) (write_clock u) (db_number u) (abs c) cmd).
Proof.
  intros Hc Hcmd Hwc Hu. unfold execute_compute, spec_compute.
  destruct (get_db c (db_number u)) as [db|] eqn:Hdb.
  2: { rewrite abs_lookup. unfold get_db in Hdb. rewrite Hdb. cbn.
       split_and!; [done..|apply same_update_refl]. }
  rewrite (get_db_abs _ _ _ Hdb). set (now := write_logic_clock c) in *.
  pose proof (get_entry_spec now db (key cmd) (inv_mocha c Hc _ _ Hdb)) as Hg.
  destruct (get_entry now db (key cmd)) as [db1 r0]. destruct Hg as (-> & Hlive & Hm1).
  destruct (live now (map_ db) !! key cmd) as [e|] eqn:Ee; cbn [fmap option_fmap option_map].
  - destruct (live_abs c _ db _ _ Hc Hdb Ee) as (pv & Hpv & Habs). fold now in Habs. rewrite Habs.
    assert (Hat : entry_at c (Z.to_nat (db_number u)) (key cmd) e) by (by exists db).
    pose proof (mutate_refines cmd (snapshot e) pv (write_clock u) (heap c) (inv_heap c Hc) Hcmd Hwc
      (fun a Ha => inv_deadline c Hc _ _ _ _ Hat Ha) Hpv) as Hmut. cbv zeta in Hmut.
    change (snapshot (mkEntry pv (e_expire_at e))) with (mkEntrySnapshot pv (expire_at (snapshot e))).
    destruct (mutate cmd (snapshot e) (write_clock u) (heap c)) as [h' [op r]].
    destruct (pmutate cmd _ (write_clock u)) as [pop pr]. destruct Hmut as (-> & Hfr & Hop & Hab).
    destruct (change_key c (db_number u) db db1 h' (key cmd) _ op pop Hc Hdb Hm1 Hlive
      (owner_self c _ db _ e Hdb Ee) Hfr Hop) as [Hinv Ha].
    { intros Eop e' Ee'. fold now in Ee'. rewrite Ee in Ee'. injection Ee' as <-. specialize (Hab Eop).
      cbn [snapshot value] in Hab. unfold abs_entry. by rewrite Hab, Hpv. }
    destruct (update_type u) eqn:Et; [| |done]; split_and!; try done;
      [apply same_update_refl|by apply same_update_push; rewrite Et].
  - rewrite abs_db_lookup, Ee. cbn [mbind option_bind].
    pose proof (init_refines cmd (heap c) (inv_heap c Hc) Hcmd) as Hin.
    destruct (init cmd (heap c)) as [h' [op r]]. destruct (pinit cmd) as [pop pr].
    destruct Hin as (-> & Hfr & Hop).
    destruct (change_key c (db_number u) db db1 h' (key cmd) None op pop Hc Hdb Hm1 Hlive
      (owner_none _ _ _) Hfr Hop) as [Hinv Ha]; [intros _ e' Ee'; fold now in Ee'; congruence|].
    assert (Hid : <[Z.to_nat (db_number u) := abs_db now (heap c) db]> (abs c) = abs c)
      by (apply list_insert_id; by apply get_db_abs).
    destruct op, pop; try done; split_and!; try done; try apply same_update_refl.
    exact (eq_trans Ha Hid).
Qed.

(** *** Commands that read several keys and write one *)

Class PureMultiCommand (C : Type) := {
  pmulti_mutate : C -> list (option (EntrySnapshot PValue)) -> Z -> MochaOperation PValue * Value
}.

Definition abs_snapshot (h : Heap) (e : EntrySnapshot MyValue) : option (EntrySnapshot PValue) :=
  (fun pv => mkEntrySnapshot pv (expire_at e)) <$> abs_value h (value e).

(** The entries read, without their locations. *)
Definition abs_read (h : Heap) (r : option (EntrySnapshot MyValue)) (pr : option (EntrySnapshot PValue)) : Prop :=
  match r, pr with
  | Some e, Some pe => abs_snapshot h e = Some pe
  | None, None => True
  | _, _ => False
  end.

Class MultiLaws (C : Type) `{MultiReadComputeCommand C, PureMultiCommand C} := {
  multi_mutate_refines cmd rs prs wc h :
    HeapInv h -> is_u64 wc -> Forall2 (abs_read h) rs prs ->
    let '(h', (op, r)) := multi_mutate cmd rs wc h in
    let '(pop, pr) := pmulti_mutate cmd prs wc in
    r = pr /\ frame None h h' /\ op_rel None h h' op pop
}.

Definition spec_multi_compute {C} `{MultiReadComputeCommand C, PureMultiCommand C}
    (now wc n : Z) (s : PStore) (cmd : C) : PStore * Value :=
  match s !! Z.to_nat n with
  | None => (s, key_not_found)
  | Some m =>
      let '(op, r) := pmulti_mutate cmd ((fun k => snapshot <$> m !! k) <$> read_keys cmd) wc in
      (<[Z.to_nat n := papply now (write_key cmd) op m]> s, r)
  end.

(** A sequence of lookups: nothing visible changes, each finds the live entry. *)
Lemma get_entries_spec now db ks : MochaInv now db ->
  let '(db1, rs) := get_entries now db ks in
  rs = (fun k => snapshot <$> live now (map_ db) !! k) <$> ks /\
  live now (map_ db1) = live now (map_ db) /\ MochaInv now db1.
Proof.
  revert db. induction ks as [|k ks IH]; intros db Hm; cbn [get_entries]; [done|].
  pose proof (get_entry_spec now db k Hm) as Hg. destruct (get_entry now db k) as [db1 r].
  destruct Hg as (-> & Hl1 & Hm1). specialize (IH db1 Hm1).
  destruct (get_entries now db1 ks) as [db2 rs]. destruct IH as (-> & Hl2 & Hm2).
  split_and!; [by rewrite Hl1|congruence|done].
Qed.

Lemma abs_read_live c n db k : CacheInv c -> get_db c n = Some db ->
  abs_read (heap c) (snapshot <$> live (write_logic_clock c) (map_ db) !! k)
    (snapshot <$> abs_db (write_logic_clock c) (heap c) db !! k).
Proof.
  intros Hc Hdb. destruct (live _ (map_ db) !! k) as [e|] eqn:Ee.
  - destruct (live_abs c n db k e Hc Hdb Ee) as (pv & Hpv & ->). cbn. unfold abs_snapshot. cbn. by rewrite Hpv.
  - by rewrite abs_db_lookup, Ee.
Qed.

Lemma execute_multi_read_compute_refines {C} `{MultiLaws C} c (cmd : C) u :
  CacheInv c -> is_u64 (write_clock u) -> applies (update_type u) ->
  refines c u (execute_multi_read_compute c cmd u)
    (spec_multi_compute (write_logic_clock c) (write_clock u) (db_number u) (abs c) cmd).
Proof.
  intros Hc Hwc Hu. unfold execute_multi_read_compute, spec_multi_compute.
  destruct (get_db c (db_number u)) as [db|] eqn:Hdb.
  2: { rewrite abs_lookup. unfold get_db in Hdb. rewrite Hdb. cbn.
       split_and!; [done..|apply same_update_refl]. }
  rewrite (get_db_abs _ _ _ Hdb). set (now := write_logic_clock c) in *.
  pose proof (get_entries_spec now db (read_keys cmd) (inv_mocha c Hc _ _ Hdb)) as Hg.
  destruct (get_entries now db (read_keys cmd)) as [db1 rs]. destruct Hg as (-> & Hlive & Hm1).
  assert (Hrs : Forall2 (abs_read (heap c))
    ((fun k => snapshot <$> live now (map_ db) !! k) <$> read_keys cmd)
    ((fun k => snapshot <$> abs_db now (heap c) db !! k) <$> read_keys cmd)).
  { apply Forall2_fmap_2, Forall_Forall2_diag, Forall_forall. intros k _. by eapply abs_read_live. }
  pose proof (multi_mutate_refines cmd _ _ (write_clock u) (heap c) (inv_heap c Hc) Hwc Hrs) as Hmut.
  destruct (multi_mutate cmd _ (write_clock u) (heap c)) as [h' [op r]].
  destruct (pmulti_mutate cmd _ (write_clock u)) as [pop pr]. destruct Hmut as (-> & Hfr & Hop).
  destruct (change_key c (db_number u) db db1 h' (write_key cmd) None op pop Hc Hdb Hm1 Hlive
    (owner_none _ _ _) Hfr Hop) as [Hinv Ha].
  { intros _ e Ee. assert (Hat : entry_at c (Z.to_nat (db_number u)) (write_key cmd) e) by (by exists db).
    destruct (inv_bound c Hc _ _ _ Hat) as [d Hd]. unfold abs_entry, abs_value.
    rewrite Hd, (proj2 (proj2 Hfr) _ _ Hd); [done|]. destruct (value_loc _); auto. }
  destruct (update_type u) eqn:Et; [| |done]; split_and!; try done;
    [apply same_update_refl|by apply same_update_push; rewrite Et].
Qed.

(** *** Reads *)

(** What a read at an optional read clock is given for key [k]. *)
Definition seen {V} (rc : option Z) (m : gmap bytes (Entry V)) (k : bytes) : option (EntrySnapshot V) :=
  let* x := m !! k in if visible rc x then Some (snapshot x) else None.

(** The replies a read may give for the plain entry of its key. A hash table's
    iteration order is not fixed, so this is a relation. *)
Class PureRead (C : Type) := { pread : C -> option (EntrySnapshot PValue) -> Value -> Prop }.
Class PureMultiRead (C : Type) := { pmulti_read : C -> list (option (EntrySnapshot PValue)) -> Value -> Prop }.

Class ReadLaws (C : Type) `{ReadCommand C, PureRead C} := {
  execute_refines cmd h r pr : HeapInv h -> abs_read h r pr -> pread cmd pr (execute cmd h r)
}.
Class MultiReadLaws (C : Type) `{MultiReadCommand C, PureMultiRead C} := {
  multi_execute_refines cmd h rs prs : HeapInv h -> Forall2 (abs_read h) rs prs ->
    pmulti_read cmd prs (multi_execute cmd h rs)
}.

Lemma get_with_read_clock_spec now (db : Mocha MyValue) k rc : MochaInv now db ->
  let '(db1, r) := get_with_read_clock now db k rc in
  r = seen rc (live now (map_ db)) k /\
  live now (map_ db1) = live now (map_ db) /\ MochaInv now db1.
Proof.
  intros Hm. pose proof (call_simulates now db (CGetRead k rc) I Hm) as Hs.
  unfold simulates in Hs. cbn [run_call spec_call] in Hs.
  destruct (get_with_read_clock now db k rc) as [db1 r]. destruct Hs as ([= ->] & ? & ?). done.
Qed.

Lemma get_all_spec now (db : Mocha MyValue) ks rc : MochaInv now db ->
  let '(db1, rs) := get_all_with_read_clock now db ks rc in
  rs = seen rc (live now (map_ db)) <$> ks /\
  live now (map_ db1) = live now (map_ db) /\ MochaInv now db1.
Proof.
  revert db. induction ks as [|k ks IH]; intros db Hm; cbn [get_all_with_read_clock]; [done|].
  pose proof (get_with_read_clock_spec now db k rc Hm) as Hg.
  destruct (get_with_read_clock now db k rc) as [db1 r]. destruct Hg as (-> & Hl1 & Hm1).
  specialize (IH db1 Hm1). destruct (get_all_with_read_clock now db1 ks rc) as [db2 rs].
  destruct IH as (-> & Hl2 & Hm2). split_and!; [|congruence|done]. by rewrite fmap_cons, Hl1.
Qed.

(** A database whose live entries are the same may replace another. *)
Lemma touch_db c n db db1 : CacheInv c -> get_db c n = Some db ->
  MochaInv (write_logic_clock c) db1 ->
  live (write_logic_clock c) (map_ db1) = live (write_logic_clock c) (map_ db) ->
  CacheInv (put_db c n db1 (heap c)) /\ abs (put_db c n db1 (heap c)) = abs c.
Proof.
  intros Hc Hdb Hm Hl. eapply (abort_key c n db db1 (heap c) [] None); try done.
  apply frame_refl, Hc.
Qed.

(** A read's result against the state: nothing changes that a client can see,
    and the reply is one the specification allows. *)
Definition reads (c : MyCache) (res : MyCache * Value) (allowed : Value -> Prop) : Prop :=
  let '(c', r) := res in
  CacheInv c' /\ abs c' = abs c /\ heap c' = heap c /\
  write_logic_clock c' = write_logic_clock c /\ allowed r.

Lemma seen_abs c n db rc k : CacheInv c -> get_db c n = Some db ->
  abs_read (heap c) (seen rc (live (write_logic_clock c) (map_ db)) k)
    (seen rc (abs_db (write_logic_clock c) (heap c) db) k).
Proof.
  intros Hc Hdb. unfold seen. destruct (live _ (map_ db) !! k) as [e|] eqn:Ee.
  - destruct (live_abs c n db k e Hc Hdb Ee) as (pv & Hpv & ->).
    change (visible rc (mkEntry pv (e_expire_at e))) with (visible rc e).
    destruct (visible rc e); [|done]. cbn. unfold abs_snapshot. cbn. by rewrite Hpv.
  - by rewrite abs_db_lookup, Ee.
Qed.

Lemma execute_read_refines {C} `{ReadLaws C} c (cmd : C) n rc : CacheInv c ->
  reads c (execute_read c cmd n rc) (fun r =>
    match abs c !! Z.to_nat n with
    | None => r = key_not_found
    | Some m => pread cmd (seen rc m (rkey cmd)) r
    end).
Proof.
  intros Hc. unfold execute_read, reads. destruct (get_db c n) as [db|] eqn:Hdb.
  - pose proof (get_with_read_clock_spec _ db (rkey cmd) rc (inv_mocha c Hc _ _ Hdb)) as Hg.
    destruct (get_with_read_clock _ db (rkey cmd) rc) as [db1 r]. destruct Hg as (-> & Hl & Hm).
    destruct (touch_db c n db db1 Hc Hdb Hm Hl). split_and!; [done..|].
    rewrite (get_db_abs c n db Hdb). apply execute_refines; [apply Hc|]. by eapply seen_abs.
  - unfold get_db in Hdb. by rewrite abs_lookup, Hdb.
Qed.

Lemma execute_multi_read_refines {C} `{MultiReadLaws C} c (cmd : C) n rc : CacheInv c ->
  reads c (execute_multi_read c cmd n rc) (fun r =>
    match abs c !! Z.to_nat n with
    | None => r = key_not_found
    | Some m => pmulti_read cmd (seen rc m <$> rkeys cmd) r
    end).
Proof.
  intros Hc. unfold execute_multi_read, reads. destruct (get_db c n) as [db|] eqn:Hdb.
  - pose proof (get_all_spec _ db (rkeys cmd) rc (inv_mocha c Hc _ _ Hdb)) as Hg.
    destruct (get_all_with_read_clock _ db (rkeys cmd) rc) as [db1 rs]. destruct Hg as (-> & Hl & Hm).
    destruct (touch_db c n db db1 Hc Hdb Hm Hl). split_and!; [done..|].
    rewrite (get_db_abs c n db Hdb). apply multi_execute_refines; [apply Hc|].
    apply Forall2_fmap_2, Forall_Forall2_diag, Forall_forall. intros k _. by eapply seen_abs.
  - unfold get_db in Hdb. by rewrite abs_lookup, Hdb.
Qed.

(** *** Composing requests *)

(** A lookup by a composed command: nothing visible changes. *)
Lemma lookup_entry_spec c n db k : CacheInv c -> get_db c n = Some db ->
  let '(c1, r) := lookup_entry c n db k in
  CacheInv c1 /\ abs c1 = abs c /\ heap c1 = heap c /\
  write_logic_clock c1 = write_logic_clock c /\ is_Some (get_db c1 n) /\
  abs_read (heap c) r (snapshot <$> abs_db (write_logic_clock c) (heap c) db !! k).
Proof.
  intros Hc Hdb. unfold lookup_entry.
  pose proof (get_entry_spec _ db k (inv_mocha c Hc _ _ Hdb)) as Hg.
  destruct (get_entry _ db k) as [db1 r]. destruct Hg as (-> & Hl & Hm).
  destruct (touch_db c n db db1 Hc Hdb Hm Hl). split_and!; [done..| |by eapply abs_read_live].
  exists db1. unfold get_db. cbn. apply list_lookup_insert_eq. exact (get_db_lt _ _ _ Hdb).
Qed.

Lemma get_cache_spec c n :
  (exists db, get_cache c n = Ok db /\ get_db c n = Some db /\
    abs c !! Z.to_nat n = Some (abs_db (write_logic_clock c) (heap c) db)) \/
  (get_cache c n = Err (protocol_error DbNotExist) /\ abs c !! Z.to_nat n = None).
Proof.
  unfold get_cache. destruct (get_db c n) as [db|] eqn:Hdb.
  - left. exists db. split_and!; [done..|by apply get_db_abs].
  - right. unfold get_db in Hdb. by rewrite abs_lookup, Hdb.
Qed.

(** A step that only touched what no client sees may be put in front. *)
Lemma refines_after c c1 u res spec : write_logic_clock c1 = write_logic_clock c ->
  refines c1 u res spec -> refines c u res spec.
Proof. destruct res as [[c' u'] r]. unfold refines. by intros <-. Qed.

Lemma refines_same c c1 u r s : CacheInv c1 -> abs c1 = s -> write_logic_clock c1 = write_logic_clock c ->
  refines c u (c1, u, r) (s, r).
Proof. intros. split_and!; [done..|apply same_update_refl]. Qed.

(** Answering something else than the command that ran last. *)
Lemma refines_reply c u res spec r : refines c u res spec ->
  refines c u (let '(c', u', _) := res in (c', u', r)) (spec.1, r).
Proof. destruct res as [[c' u'] r']. intros (? & ? & ? & ? & ?). by split_and!. Qed.

(** Deleting a key, however it is done. *)
Lemma delete_key c n db db' k : CacheInv c -> get_db c n = Some db ->
  let now := write_logic_clock c in
  MochaInv now db' -> live now (map_ db') = delete k (live now (map_ db)) ->
  CacheInv (put_db c n db' (heap c)) /\
  abs (put_db c n db' (heap c)) = <[Z.to_nat n := delete k (abs_db now (heap c) db)]> (abs c).
Proof.
  intros Hc Hdb now Hm Hl.
  assert (Hsame : forall k', k' <> k -> live now (map_ db') !! k' = live now (map_ db) !! k')
    by (intros; by rewrite Hl, lookup_delete_ne).
  assert (Hk : live now (map_ db') !! k = None) by (by rewrite Hl, lookup_delete_eq).
  assert (Hfr : frame None (heap c) (heap c)) by (apply frame_refl, Hc).
  split; [eapply (replace_inv c n db db' (heap c) k None); try done; fold now; intros e He; congruence|].
  erewrite (replace_abs c n db db' (heap c) k None) by done. fold now. by rewrite Hk.
Qed.

Lemma abs_db_some c n db k : CacheInv c -> get_db c n = Some db ->
  is_Some (live (write_logic_clock c) (map_ db) !! k) <->
  is_Some (abs_db (write_logic_clock c) (heap c) db !! k).
Proof.
  intros Hc Hdb. rewrite abs_db_lookup. destruct (live _ (map_ db) !! k) as [e|] eqn:Ee.
  - destruct (live_abs c n db k e Hc Hdb Ee) as (pv & Hpv & Ha). rewrite abs_db_lookup, Ee in Ha.
    rewrite Ha. by split; eauto.
  - cbn. done.
Qed.

(** The deadline of a live entry lies ahead. *)
Lemma live_deadline c i k e a : CacheInv c -> entry_at c i k e -> e_expire_at e = Some a ->
  0 <= write_logic_clock c < a /\ a < 2 ^ 64.
Proof.
  intros Hc Hat Ea. pose proof (inv_deadline c Hc _ _ _ _ Hat Ea) as Hua.
  pose proof (inv_clock c Hc) as Hclk. destruct Hat as (db & _ & He). rewrite live_lookup in He.
  destruct (map_ db !! k) as [e0|]; [|done]. destruct (is_expired _ e0) eqn:Ex; [done|]. injection He as ->.
  unfold is_expired in Ex. rewrite Ea in Ex. apply Z.leb_gt in Ex. unfold is_u64 in *. lia.
Qed.

(** Writing a value with the deadline, 0 for none, of a live entry. *)
Lemma put_live now k (pv : PValue) x m : (forall a, x = Some a -> 0 <= now < a) ->
  put now k (make_entry now pv (if default 0 x =? 0 then Persistent else Absolute (default 0 x))) m =
  <[k := mkEntry pv x]> m.
Proof.
  intros Hx. unfold put, make_entry. destruct x as [a|]; [|done]. specialize (Hx a eq_refl).
  change (default 0 (Some a)) with a. destruct (Z.eqb_spec a 0); [lia|]. unfold is_expired. cbn.
  destruct (Z.leb_spec a now); [lia|done].
Qed.

(** *** Requests on whole databases *)

(** The databases lose entries, or only what no client sees. *)
Lemma shrink_inv c dbs : CacheInv c ->
  let now := write_logic_clock c in
  Forall2 (fun db db' => MochaInv now db' /\ live now (map_ db') ⊆ live now (map_ db)) (databases c) dbs ->
  CacheInv (mkMyCache dbs (read_logic_clock c) now (heap c)).
Proof.
  intros Hc now Hdbs. set (c' := mkMyCache _ _ _ _).
  assert (Hsub : forall i k e, entry_at c' i k e -> entry_at c i k e).
  { intros i k e (db' & Hi & He). cbn in Hi. 
    destruct (Forall2_lookup_r _ _ _ _ _ Hdbs Hi) as (db & Hdb & _ & Hle). exists db. split; [done|].
    by eapply lookup_weaken. }
  constructor; cbn.
  - apply Hc.
  - intros i db' Hi. by destruct (Forall2_lookup_r _ _ _ _ _ Hdbs Hi) as (db & _ & ? & _).
  - apply Hc.
  - intros i k e He. by apply (inv_bound c Hc i k), Hsub.
  - intros i k e a He. by apply (inv_deadline c Hc i k), Hsub.
  - intros i k e i' k' e' l He He'. apply (inv_sep c Hc); by apply Hsub.
Qed.

(** ** Patterns of commands *)

Lemma op_rel_abort own h h' : op_rel own h h' MAbort MAbort.
Proof. done. Qed.

Lemma policy_of_entry {V} (e : EntrySnapshot V) :
  (forall a, expire_at e = Some a -> is_u64 a) -> policy_ok (get_expire_policy e).
Proof. unfold get_expire_policy. intros He. destruct (expire_at e); cbn; auto. Qed.

(** The stored value and the plain value have the same shape. *)
Definition same_shape (h : Heap) (v : ValueObject) (d : PData) : Prop :=
  match v, d with
  | VInt i, PInt i' => i = i'
  | VString s, PString s' => s = s'
  | VList l, PList x => lists h !! l = Some x
  | VHash l, PHash x => hashes h !! l = Some x
  | VZSet l, PZSet x => zsets h !! l = Some x
  | VSet l, PSet x => sets h !! l = Some x
  | _, _ => False
  end.

Lemma abs_same_shape h v d : abs_data h v = Some d -> same_shape h v d.
Proof. destruct v; cbn; try (by intros [= <-]); destruct (_ !! _) eqn:E; cbn; try done; by intros [= <-]. Qed.

Lemma value_shape h v pv : abs_value h v = Some pv ->
  pversion pv = version v /\ same_shape h (data v) (pdata pv).
Proof.
  unfold abs_value. destruct (abs_data h (data v)) eqn:E; [|done]. cbn. intros [= <-].
  split; [done|]. by apply abs_same_shape.
Qed.

(** Case analysis on the shape of the value of an entry. *)
Ltac shape_cases Hpv :=
  let Hs := fresh "Hshape" in
  pose proof (value_shape _ _ _ Hpv) as [? Hs];
  match type of Hpv with
  | abs_value ?h ?v = Some ?pv =>
      destruct (data v) eqn:?; destruct (pdata pv) eqn:?; cbn in Hs; try done
  end.

(** The entry a read is given, and its shape. *)
Ltac read_law Hr :=
  match type of Hr with
  | abs_read ?h ?r ?pr =>
      destruct r as [e|], pr as [pe|]; cbn in Hr; try done;
      unfold abs_snapshot in Hr;
      let Hpv := fresh "Hpv" in
      destruct (abs_value h (value e)) as [pv|] eqn:Hpv; [|done];
      injection Hr as <-; cbn [value expire_at]; shape_cases Hpv
  end.

Definition pwrite_back (e : EntrySnapshot PValue) (d : PData) : MochaOperation PValue :=
  MInsert (mkPValue (pversion (value e)) d) (get_expire_policy e).

(** What [mutate_refines] asks of a result. *)
Definition mutation_ok (e : EntrySnapshot MyValue) (pv : PValue) (h : Heap) (m : mutation)
    (pm : MochaOperation PValue * Value) : Prop :=
  let own := value_loc (data (value e)) in
  let '(h', (op, r)) := m in
  let '(pop, pr) := pm in
  r = pr /\ frame own h h' /\ op_rel own h h' op pop /\
  (op = MAbort -> abs_value h' (value e) = Some pv).

Section Patterns.
Context (h : Heap) (e : EntrySnapshot MyValue) (pv : PValue).
Hypothesis Hh : HeapInv h.
Hypothesis He : forall a, expire_at e = Some a -> is_u64 a.
Hypothesis Hpv : abs_value h (value e) = Some pv.
Let pe := mkEntrySnapshot pv (expire_at e).

(** A command that refuses: no change on either side. *)
Lemma refuse_ok r : mutation_ok e pv h (h, (MAbort, r)) (MAbort, r).
Proof. split_and!; [done|by apply frame_refl|done|done]. Qed.

Lemma remove_ok h' r : frame (value_loc (data (value e))) h h' ->
  mutation_ok e pv h (h', (MRemove, r)) (MRemove, r).
Proof. intros. by split_and!. Qed.

(** A command that replaces the value by one without a collection. *)
Lemma scalar_ok v pv' p r : policy_ok p -> value_loc (data v) = None -> abs_value h v = Some pv' ->
  mutation_ok e pv h (h, (MInsert v p, r)) (MInsert pv' p, r).
Proof.
  intros Hp Hl Ha. split_and!; [done|by apply frame_refl| |done]. split_and!; try done.
  unfold fresh_or. by rewrite Hl.
Qed.

(** A command that writes the entry back, with or without another deadline. *)
Lemma same_value_ok p r : policy_ok p ->
  mutation_ok e pv h (h, (MInsert (value e) p, r)) (MInsert pv p, r).
Proof.
  intros Hp. split_and!; [done|by apply frame_refl| |done]. split_and!; try done.
  unfold fresh_or. destruct (value_loc _); [by left|done].
Qed.

(** A command that changes its collection under the lock and writes the entry
    back. *)
Lemma inplace_ok l d r : data (value e) = ptr l d -> value_loc (ptr l d) = Some l ->
  mutation_ok e pv h (heap_put h l d, (write_back e, r)) (pwrite_back pe d, r).
Proof.
  intros Hd Hl. unfold abs_value in Hpv. pose proof Hpv as Hpv'. rewrite Hd in Hpv'.
  destruct (abs_data h (ptr l d)) as [d0|] eqn:Ed; [|done]. injection Hpv' as <-.
  unfold mutation_ok. rewrite Hd, Hl. split_and!; [done| | |done].
  - apply frame_put; [done|]. exact (Hh _ _ _ Ed Hl).
  - split_and!; [done|by apply policy_of_entry| |].
    + unfold abs_value. by rewrite Hd, abs_put.
    + unfold fresh_or. rewrite Hd, Hl. by left.
Qed.

Lemma write_back_ok r : mutation_ok e pv h (h, (write_back e, r)) (pwrite_back pe (pdata pv), r).
Proof.
  unfold pwrite_back, pe. cbn [value]. replace (mkPValue (pversion pv) (pdata pv)) with pv by (by destruct pv).
  apply same_value_ok, policy_of_entry, He.
Qed.

(** Only the collection of the key is written. *)
Lemma frame_inplace l d : data (value e) = ptr l d -> value_loc (ptr l d) = Some l ->
  frame (value_loc (data (value e))) h (heap_put h l d).
Proof. intros Hd Hl. by destruct (inplace_ok l d Null Hd Hl) as (_ & ? & _). Qed.
End Patterns.

(** What [init_refines] asks of a result. *)
Definition init_ok (h : Heap) (m : mutation) (pm : MochaOperation PValue * Value) : Prop :=
  let '(h', (op, r)) := m in
  let '(pop, pr) := pm in
  r = pr /\ frame None h h' /\ op_rel None h h' op pop.

Lemma init_refuse_ok h r : HeapInv h -> init_ok h (h, (MAbort, r)) (MAbort, r).
Proof. intros Hh. split_and!; [done|by apply frame_refl|done]. Qed.

Lemma init_alloc_ok h d p r : HeapInv h -> policy_ok p ->
  init_ok h (bump (heap_put h (next h) d), (MInsert (my_value_new (ptr (next h) d)) p, r))
    (MInsert (pvalue_new d) p, r).
Proof.
  intros Hh Hp. split_and!; [done|by apply frame_alloc|]. split_and!; [done..| |apply fresh_alloc].
  unfold abs_value. cbn [data my_value_new]. by rewrite abs_alloc.
Qed.

Lemma init_scalar_ok h v pv p r : HeapInv h -> policy_ok p -> value_loc (data v) = None ->
  abs_value h v = Some pv -> init_ok h (h, (MInsert v p, r)) (MInsert pv p, r).
Proof.
  intros Hh Hp Hl Ha. split_and!; [done|by apply frame_refl|]. split_and!; try done.
  unfold fresh_or. by rewrite Hl.
Qed.

(** The laws, stated with [mutation_ok] and [init_ok]. *)
Lemma compute_laws {C} `{ComputeCommand C, PureCommand C} (ok : C -> Prop) :
  (forall cmd e pv wc h, HeapInv h -> ok cmd -> is_u64 wc -> (forall a, expire_at e = Some a -> is_u64 a) ->
    abs_value h (value e) = Some pv ->
    mutation_ok e pv h (mutate cmd e wc h) (pmutate cmd (mkEntrySnapshot pv (expire_at e)) wc)) ->
  (forall cmd h, HeapInv h -> ok cmd -> init_ok h (init cmd h) (pinit cmd)) ->
  ComputeLaws C.
Proof. intros Hm Hi. exists ok; [exact Hm|exact Hi]. Defined.
