(* ===== verification/Args.v ===== *)
(** * Args: what the [parse_args] functions of the commands share.

    A command arrives as the list [items] of RESP values, the command name
    first. The parsers index [items] after a check of its length. *)

From S2P Require Import Prelude Text Reply.

Abbreviation parsed A := (result A ProtocolError).

(** [items[i]]. Every use is behind a length check, so the default is never
    taken. *)
Definition item (items : list Value) (i : nat) : Value := default Null (items !! i).

(** [items[i].string_bytes_clone().ok_or(e)?]. *)
Definition string_or (items : list Value) (i : nat) (e : ProtocolError) : parsed bytes :=
  ok_or (string_bytes_clone (item items i)) e.

Definition string_item (items : list Value) (i : nat) (what : bytes) : parsed bytes :=
  string_or items i (InvalidArgument what).

Definition argc (items : list Value) : Z := Z.of_nat (length items).

(** [map_while(Value::string_bytes_clone).collect()]. *)
Fixpoint map_while_string (items : list Value) : list bytes :=
  match items with
  | [] => []
  | v :: items' =>
      match string_bytes_clone v with
      | Some s => s :: map_while_string items'
      | None => []
      end
  end.

(** The arguments from index [n] on, all of them strings, or [e]. *)
Definition strings_from (items : list Value) (n : nat) (e : ProtocolError) : parsed (list bytes) :=
  let elements := map_while_string (drop n items) in
  if Z.of_nat (length elements) <? argc items - Z.of_nat n then Err e else Ok elements.

(** The [while] loop over (field, value) pairs. The callers have checked that
    the number of arguments is even. *)
Fixpoint pairs_of (e1 e2 : ProtocolError) (items : list Value) : parsed (list (bytes * bytes)) :=
  match items with
  | k :: v :: items' =>
      let? field := ok_or (string_bytes_clone k) e1 in
      let? val := ok_or (string_bytes_clone v) e2 in
      let? rest := pairs_of e1 e2 items' in
      Ok ((field, val) :: rest)
  | _ => Ok []
  end.

(** An upper-cased option word. *)
Definition upper_flag (v : Value) : option bytes := to_uppercase <$> as_str_lossy v.

Definition is_word (s : bytes) (w : String.string) : bool := bool_decide (s = str w).

(** ** All arguments are delivered *)

Definition bulk (s : bytes) : Value := BulkString (Some s).

Lemma map_while_bulk l : map_while_string (bulk <$> l) = l.
Proof. induction l as [|x l IH]; [done|]. cbn. by rewrite IH. Qed.

Lemma map_while_length items : (length (map_while_string items) <= length items)%nat.
Proof. induction items as [|v items IH]; cbn; [lia|]. destruct (string_bytes_clone v); cbn; lia. Qed.

(** A parser that collects the rest of its arguments never drops one: it
    succeeds only if each of them is a string. *)
Lemma strings_from_ok items n e l : strings_from items n e = Ok l ->
  string_bytes_clone <$> drop n items = Some <$> l.
Proof.
  unfold strings_from, argc. case_match eqn:E; [done|]. intros [= <-]. apply Z.ltb_ge in E.
  assert (Hlen : (length (drop n items) <= length (map_while_string (drop n items)))%nat).
  { rewrite length_drop. lia. }
  clear E. revert Hlen. generalize (drop n items). induction l as [|v l IH]; cbn; [done|].
  destruct (string_bytes_clone v) eqn:Ev; cbn; [|lia]. intros. rewrite <- IH by lia. done.
Qed.

Lemma pairs_of_bulk e1 e2 l :
  pairs_of e1 e2 (concat ((fun p => [bulk p.1; bulk p.2]) <$> l)) = Ok l.
Proof. induction l as [|[k v] l IH]; [done|]. cbn in *. by rewrite IH. Qed.
