(* ===== verification/ListCmd.v ===== *)
(** * ListCmd: the list commands.

    Models src/cache_cat/src/protocol/list (LPUSH, RPUSH, LPOP, RPOP, LREM,
    LSET, LTRIM, LRANGE, LINDEX, LLEN), the list methods of
    src/cache_cat/src/raft/types/core/cache/list.rs and
    src/cache_cat/src/utils/list.rs.

    Each write command has its parser, its [ComputeCommand] instance
    (translated from the source, on the heap), its meaning on a plain list
    ([PureCommand]) and the proof that they agree ([ComputeLaws]). *)

From S2P Require Import Prelude Text F64 Reply Args SortedSet Mocha Ops Store Refine.

(** ** Parsers *)

Definition lpush_request (items : list Value) : parsed Operation :=
  if argc items <? 3 then Err (WrongArgCount (str "lpush"))
  else
    let? key := string_item items 1 (str "key") in
    let? elements := strings_from items 2 (InvalidArgument (str "element")) in
    Ok (Base (LPush (mkLPushReq key elements))).

Definition rpush_request (items : list Value) : parsed Operation :=
  if argc items <? 3 then Err (WrongArgCount (str "rpush"))
  else
    let? key := string_item items 1 (str "key") in
    let? elements := strings_from items 2 (InvalidArgument (str "element")) in
    Ok (Base (RPush (mkRPushReq key elements))).

(** The optional count of LPOP and RPOP. *)
Definition parse_pop_count (items : list Value) : parsed (option Z) :=
  if argc items =? 3 then
    let? c := ok_or (value_parse_u64 (item items 2)) (InvalidArgument (str "count")) in Ok (Some c)
  else Ok None.

Definition lpop_request (items : list Value) : parsed Operation :=
  if ((argc items <? 2) || (3 <? argc items))%bool then Err (WrongArgCount (str "lpop"))
  else
    let? key := string_item items 1 (str "key") in
    let? count := parse_pop_count items in
    Ok (Base (LPop (mkLPopReq key (default 1 count)))).

Definition rpop_request (items : list Value) : parsed Operation :=
  if ((argc items <? 2) || (3 <? argc items))%bool then Err (WrongArgCount (str "rpop"))
  else
    let? key := string_item items 1 (str "key") in
    let? count := parse_pop_count items in
    Ok (Base (RPop (mkRPopReq key (default 1 count)))).

Definition lrem_request (items : list Value) : parsed Operation :=
  if negb (argc items =? 4) then Err (WrongArgCount (str "lrem"))
  else
    let? key := string_item items 1 (str "key") in
    let? count := ok_or (value_parse_i64 (item items 2)) (InvalidArgument (str "count")) in
    let? element := string_item items 3 (str "element") in
    Ok (Base (LRem (mkLRemReq key count element))).

Definition lset_request (items : list Value) : parsed Operation :=
  if negb (argc items =? 4) then Err (WrongArgCount (str "lset"))
  else
    let? key := string_item items 1 (str "key") in
    let? index_str := string_item items 2 (str "index") in
    let? index := ok_or (parse_i64_str (from_utf8_lossy index_str))
      (InvalidArgument (str "index must be an integer")) in
    let? val := string_item items 3 (str "value") in
    Ok (Base (LSet (mkLSetReq key index val))).

Definition ltrim_request (items : list Value) : parsed Operation :=
  if negb (argc items =? 4) then Err (WrongArgCount (str "ltrim"))
  else
    let? key := string_item items 1 (str "key") in
    let? start := ok_or (value_parse_i64 (item items 2)) (InvalidArgument (str "start")) in
    let? stop := ok_or (value_parse_i64 (item items 3)) (InvalidArgument (str "stop")) in
    Ok (Base (LTrim (mkLTrimReq key start stop))).

Definition lrange_operation (items : list Value) : parsed ReadOperation :=
  if negb (argc items =? 4) then Err (WrongArgCount (str "lrange"))
  else
    let? key := string_item items 1 (str "key") in
    let? start := try_parse_i64 (item items 2) in
    let? stop := try_parse_i64 (item items 3) in
    Ok (RLRange (mkLRangeParams key start stop)).

Definition lindex_operation (items : list Value) : parsed ReadOperation :=
  if negb (argc items =? 3) then Err (WrongArgCount (str "lindex"))
  else
    let? key := string_item items 1 (str "key") in
    let? index := try_parse_i64 (item items 2) in
    Ok (RLIndex (mkLIndexParams key index)).

Definition llen_operation (items : list Value) : parsed ReadOperation :=
  if negb (argc items =? 2) then Err (WrongArgCount (str "llen"))
  else
    let? key := string_item items 1 (str "key") in
    Ok (RLLen (mkLLenParams key)).

(** ** Write commands *)

Definition not_a_list : Value := Error (str "Key exists but is not a List").
Definition llen (l : list bytes) : Z := Z.of_nat (length l).

Definition lpush_mutate (cmd : LPushReq) (entry : EntrySnapshot MyValue) (write_clock : Z) (h : Heap) : mutation :=
  match data (value entry) with
  | VList data_arc =>
      let list := foldl (fun list element => element :: list) (list_at h data_arc) (lpush_elements cmd) in
      (put_list h data_arc list, (write_back entry, Integer (llen list)))
  | _ => (h, (MAbort, not_a_list))
  end.

Definition lpush_init (cmd : LPushReq) (h : Heap) : mutation :=
  let deque := lpush_elements cmd in
  let '(h', v) := alloc_list h deque in
  (h', (MInsert (my_value_new v) Persistent, Integer (llen deque))).

#[global] Instance lpush_compute : ComputeCommand LPushReq := {
  key := lpush_key;
  into_base_op := LPush;
  mutate := lpush_mutate;
  init := lpush_init
}.

Definition rpush_mutate (cmd : RPushReq) (entry : EntrySnapshot MyValue) (write_clock : Z) (h : Heap) : mutation :=
  match data (value entry) with
  | VList data_arc =>
      let list := foldl (fun list element => list ++ [element]) (list_at h data_arc) (rpush_elements cmd) in
      (put_list h data_arc list, (write_back entry, Integer (llen list)))
  | _ => (h, (MAbort, not_a_list))
  end.

Definition rpush_init (cmd : RPushReq) (h : Heap) : mutation :=
  let deque := rpush_elements cmd in
  let '(h', v) := alloc_list h deque in
  (h', (MInsert (my_value_new v) Persistent, Integer (llen deque))).

#[global] Instance rpush_compute : ComputeCommand RPushReq := {
  key := rpush_key;
  into_base_op := RPush;
  mutate := rpush_mutate;
  init := rpush_init
}.

Definition lpop_mutate (cmd : LPopReq) (entry : EntrySnapshot MyValue) (write_clock : Z) (h : Heap) : mutation :=
  match data (value entry) with
  | VList data_arc =>
      match list_at h data_arc with
      | x :: list => (put_list h data_arc list, (write_back entry, BulkString (Some x)))
      | [] => (h, (write_back entry, BulkString None))
      end
  | _ => (h, (MAbort, not_a_list))
  end.

Definition lpop_init (cmd : LPopReq) (h : Heap) : mutation :=
  (h, (MAbort, BulkString None)).

#[global] Instance lpop_compute : ComputeCommand LPopReq := {
  key := lpop_key;
  into_base_op := LPop;
  mutate := lpop_mutate;
  init := lpop_init
}.

(** [VecDeque::pop_back]. *)
Definition pop_back (l : list bytes) : option (list bytes * bytes) :=
  match reverse l with
  | [] => None
  | x :: r => Some (reverse r, x)
  end.

Definition rpop_mutate (cmd : RPopReq) (entry : EntrySnapshot MyValue) (write_clock : Z) (h : Heap) : mutation :=
  match data (value entry) with
  | VList data_arc =>
      match pop_back (list_at h data_arc) with
      | Some (list, x) => (put_list h data_arc list, (write_back entry, BulkString (Some x)))
      | None => (h, (write_back entry, BulkString None))
      end
  | _ => (h, (MAbort, not_a_list))
  end.

Definition rpop_init (cmd : RPopReq) (h : Heap) : mutation :=
  (h, (MAbort, BulkString None)).

#[global] Instance rpop_compute : ComputeCommand RPopReq := {
  key := rpop_key;
  into_base_op := RPop;
  mutate := rpop_mutate;
  init := rpop_init
}.

(** *** LREM

    The loops of [remove_elements]. Every turn removes an element or moves the
    index, so the length of the list bounds the number of turns. *)

Fixpoint rem_forward (fuel : nat) (x : bytes) (l : list bytes) (i : nat) (count removed : Z)
    : list bytes * Z :=
  match fuel with
  | O => (l, removed)
  | S fuel' =>
      if ((Z.of_nat i <? llen l) && (0 <? count))%bool then
        if bool_decide (l !! i = Some x)
        then rem_forward fuel' x (delete i l) i (count - 1) (removed + 1)
        else rem_forward fuel' x l (S i) count removed
      else (l, removed)
  end.

Fixpoint rem_backward (i : nat) (x : bytes) (l : list bytes) (count removed : Z) : list bytes * Z :=
  match i with
  | O => (l, removed)
  | S i' =>
      if 0 <? count then
        if bool_decide (l !! i' = Some x)
        then rem_backward i' x (delete i' l) (count - 1) (removed + 1)
        else rem_backward i' x l count removed
      else (l, removed)
  end.

Fixpoint rem_all (fuel : nat) (x : bytes) (l : list bytes) (i : nat) (removed : Z) : list bytes * Z :=
  match fuel with
  | O => (l, removed)
  | S fuel' =>
      if Z.of_nat i <? llen l then
        if bool_decide (l !! i = Some x)
        then rem_all fuel' x (delete i l) i (removed + 1)
        else rem_all fuel' x l (S i) removed
      else (l, removed)
  end.

(** [-self.count] wraps at [i64::MIN]. *)
Definition remove_elements (req : LRemReq) (l : list bytes) : list bytes * Z :=
  match lrem_count req ?= 0 with
  | Gt => rem_forward (length l) (lrem_element req) l 0 (lrem_count req) 0
  | Lt => rem_backward (length l) (lrem_element req) l (wrap_i64 (- lrem_count req)) 0
  | Eq => rem_all (length l) (lrem_element req) l 0 0
  end.

Definition lrem_mutate (cmd : LRemReq) (entry : EntrySnapshot MyValue) (write_clock : Z) (h : Heap) : mutation :=
  match data (value entry) with
  | VList data_arc =>
      let '(list, removed_count) := remove_elements cmd (list_at h data_arc) in
      (put_list h data_arc list, (write_back entry, Integer removed_count))
  | _ => (h, (MAbort, wrong_type))
  end.

Definition lrem_init (cmd : LRemReq) (h : Heap) : mutation :=
  (h, (MAbort, Integer 0)).

#[global] Instance lrem_compute : ComputeCommand LRemReq := {
  key := lrem_key;
  into_base_op := LRem;
  mutate := lrem_mutate;
  init := lrem_init
}.

(** *** LSET and LTRIM. A list has fewer than 2^63 elements, so [len + index]
    does not overflow. *)

Definition lset_mutate (cmd : LSetReq) (entry : EntrySnapshot MyValue) (write_clock : Z) (h : Heap) : mutation :=
  match data (value entry) with
  | VList data_arc =>
      let list := list_at h data_arc in
      let len := llen list in
      let index := if lset_index cmd <? 0 then len + lset_index cmd else lset_index cmd in
      if ((index <? 0) || (len <=? index))%bool
      then (h, (MAbort, Error (str "ERR index out of range")))
      else
        (put_list h data_arc (<[Z.to_nat index := lset_value cmd]> list),
         (write_back entry, SimpleString (str "OK")))
  | _ => (h, (MAbort, wrong_type))
  end.

Definition lset_init (cmd : LSetReq) (h : Heap) : mutation :=
  (h, (MAbort, Error (str "ERR no such key"))).

#[global] Instance lset_compute : ComputeCommand LSetReq := {
  key := lset_key;
  into_base_op := LSet;
  mutate := lset_mutate;
  init := lset_init
}.

Definition ltrim_mutate (cmd : LTrimReq) (entry : EntrySnapshot MyValue) (write_clock : Z) (h : Heap) : mutation :=
  match data (value entry) with
  | VList data_arc =>
      let list := list_at h data_arc in
      let len := llen list in
      if len =? 0 then (h, (write_back entry, SimpleString (str "OK")))
      else
        let start := if ltrim_start cmd <? 0 then len + ltrim_start cmd else ltrim_start cmd in
        let stop := if ltrim_stop cmd <? 0 then len + ltrim_stop cmd else ltrim_stop cmd in
        let start := if start <? 0 then 0 else start in
        let stop := if len <=? stop then len - 1 else stop in
        let list' :=
          if stop <? start then []
          else
            let truncated := take (Z.to_nat (stop + 1)) list in
            if 0 <? start then drop (Z.to_nat start) truncated else truncated in
        (put_list h data_arc list', (write_back entry, SimpleString (str "OK")))
  | _ => (h, (MAbort, wrong_type))
  end.

Definition ltrim_init (cmd : LTrimReq) (h : Heap) : mutation :=
  (h, (MAbort, SimpleString (str "OK"))).

#[global] Instance ltrim_compute : ComputeCommand LTrimReq := {
  key := ltrim_key;
  into_base_op := LTrim;
  mutate := ltrim_mutate;
  init := ltrim_init
}.

(** ** Reads *)

(** [utils::lrange]. *)
Definition lrange (deque : list bytes) (start end_ : Z) : list bytes :=
  let len := llen deque in
  if len =? 0 then []
  else
    let start := if start <? 0 then len + start else start in
    let end_ := if end_ <? 0 then len + end_ else end_ in
    let start := Z.max start 0 in
    let end_ := Z.min end_ (len - 1) in
    if end_ <? start then []
    else take (Z.to_nat (end_ - start + 1)) (drop (Z.to_nat start) deque).

Definition lrange_execute (cmd : LRangeParams) (h : Heap) (v : option (EntrySnapshot MyValue)) : Value :=
  match v with
  | None => BulkString None
  | Some e =>
      match data (value e) with
      | VList l => Array (Some (bulk <$> lrange (list_at h l) (lrange_start cmd) (lrange_stop cmd)))
      | _ => protocol_error WrongType
      end
  end.

#[global] Instance lrange_read : ReadCommand LRangeParams := {
  rkey := lrange_key;
  execute := lrange_execute
}.

Definition lindex_execute (cmd : LIndexParams) (h : Heap) (v : option (EntrySnapshot MyValue)) : Value :=
  match v with
  | None => BulkString None
  | Some e =>
      match data (value e) with
      | VList l =>
          let deque := list_at h l in
          let len := llen deque in
          let idx := if lindex_index cmd <? 0 then len + lindex_index cmd else lindex_index cmd in
          if ((idx <? 0) || (len <=? idx))%bool then BulkString None
          else BulkString (deque !! Z.to_nat idx)
      | _ => protocol_error WrongType
      end
  end.

#[global] Instance lindex_read : ReadCommand LIndexParams := {
  rkey := lindex_key;
  execute := lindex_execute
}.

Definition llen_execute (cmd : LLenParams) (h : Heap) (v : option (EntrySnapshot MyValue)) : Value :=
  match v with
  | None => Integer 0
  | Some e =>
      match data (value e) with
      | VList l => Integer (llen (list_at h l))
      | _ => protocol_error WrongType
      end
  end.

#[global] Instance llen_read : ReadCommand LLenParams := {
  rkey := llen_key;
  execute := llen_execute
}.

(** ** The cache methods *)

Definition l_push (c : MyCache) (param : LPushReq) (u : Update) := execute_compute c param u.
Definition r_push (c : MyCache) (param : RPushReq) (u : Update) := execute_compute c param u.
Definition l_pop (c : MyCache) (param : LPopReq) (u : Update) := execute_compute c param u.
Definition r_pop (c : MyCache) (param : RPopReq) (u : Update) := execute_compute c param u.
Definition l_rem (c : MyCache) (param : LRemReq) (u : Update) := execute_compute c param u.
Definition l_set (c : MyCache) (param : LSetReq) (u : Update) := execute_compute c param u.
Definition l_trim (c : MyCache) (param : LTrimReq) (u : Update) := execute_compute c param u.

(** ** The commands on plain lists *)

(** Removing the first [n] occurrences of [x]. *)
Fixpoint remove_first (n : nat) (x : bytes) (l : list bytes) : list bytes :=
  match l with
  | [] => []
  | y :: l' =>
      match n with
      | S n' => if bool_decide (y = x) then remove_first n' x l' else y :: remove_first n x l'
      | O => l
      end
  end.

(** LREM: the first [count] occurrences, the last [-count], or all. At
    [i64::MIN] the negated count is still negative and nothing is removed. *)
Definition lrem_spec (count : Z) (x : bytes) (l : list bytes) : list bytes :=
  if 0 <? count then remove_first (Z.to_nat count) x l
  else if count =? 0 then filter (fun y => y <> x) l
  else if count =? i64_min then l
  else reverse (remove_first (Z.to_nat (- count)) x (reverse l)).

(** A position counted from the end when negative. *)
Definition list_index (l : list bytes) (i : Z) : option nat :=
  let i := if i <? 0 then llen l + i else i in
  if ((0 <=? i) && (i <? llen l))%bool then Some (Z.to_nat i) else None.

Definition on_list (e : EntrySnapshot PValue) (err : Value)
    (f : list bytes -> MochaOperation PValue * Value) : MochaOperation PValue * Value :=
  match pdata (value e) with
  | PList l => f l
  | _ => (MAbort, err)
  end.

#[global] Instance lpush_pure : PureCommand LPushReq := {
  pmutate cmd e _ := on_list e not_a_list (fun l =>
    let l' := reverse (lpush_elements cmd) ++ l in (pwrite_back e (PList l'), Integer (llen l')));
  pinit cmd := (MInsert (pvalue_new (PList (lpush_elements cmd))) Persistent, Integer (llen (lpush_elements cmd)))
}.

#[global] Instance rpush_pure : PureCommand RPushReq := {
  pmutate cmd e _ := on_list e not_a_list (fun l =>
    let l' := l ++ rpush_elements cmd in (pwrite_back e (PList l'), Integer (llen l')));
  pinit cmd := (MInsert (pvalue_new (PList (rpush_elements cmd))) Persistent, Integer (llen (rpush_elements cmd)))
}.

#[global] Instance lpop_pure : PureCommand LPopReq := {
  pmutate cmd e _ := on_list e not_a_list (fun l =>
    (pwrite_back e (PList (tail l)), BulkString (head l)));
  pinit cmd := (MAbort, BulkString None)
}.

#[global] Instance rpop_pure : PureCommand RPopReq := {
  pmutate cmd e _ := on_list e not_a_list (fun l =>
    (pwrite_back e (PList (take (length l - 1) l)), BulkString (last l)));
  pinit cmd := (MAbort, BulkString None)
}.

#[global] Instance lrem_pure : PureCommand LRemReq := {
  pmutate cmd e _ := on_list e wrong_type (fun l =>
    let l' := lrem_spec (lrem_count cmd) (lrem_element cmd) l in
    (pwrite_back e (PList l'), Integer (llen l - llen l')));
  pinit cmd := (MAbort, Integer 0)
}.

#[global] Instance lset_pure : PureCommand LSetReq := {
  pmutate cmd e _ := on_list e wrong_type (fun l =>
    match list_index l (lset_index cmd) with
    | Some i => (pwrite_back e (PList (<[i := lset_value cmd]> l)), SimpleString (str "OK"))
    | None => (MAbort, Error (str "ERR index out of range"))
    end);
  pinit cmd := (MAbort, Error (str "ERR no such key"))
}.

(** LTRIM keeps what LRANGE returns. *)
#[global] Instance ltrim_pure : PureCommand LTrimReq := {
  pmutate cmd e _ := on_list e wrong_type (fun l =>
    (pwrite_back e (PList (lrange l (ltrim_start cmd) (ltrim_stop cmd))), SimpleString (str "OK")));
  pinit cmd := (MAbort, SimpleString (str "OK"))
}.

Definition pread_list {C} (missing : Value) (f : C -> list bytes -> Value)
    (cmd : C) (e : option (EntrySnapshot PValue)) (r : Value) : Prop :=
  r = match e with
      | None => missing
      | Some e => match pdata (value e) with PList l => f cmd l | _ => protocol_error WrongType end
      end.

#[global] Instance lrange_pure : PureRead LRangeParams := {
  pread := pread_list (BulkString None) (fun cmd l =>
    Array (Some (bulk <$> lrange l (lrange_start cmd) (lrange_stop cmd))))
}.

#[global] Instance lindex_pure : PureRead LIndexParams := {
  pread := pread_list (BulkString None) (fun cmd l =>
    BulkString (let* i := list_index l (lindex_index cmd) in l !! i))
}.

#[global] Instance llen_pure : PureRead LLenParams := {
  pread := pread_list (Integer 0) (fun _ l => Integer (llen l))
}.

(** ** The loops compute the specification *)

Lemma foldl_push_front (l els : list bytes) : foldl (fun list element => element :: list) l els = reverse els ++ l.
Proof.
  revert l. induction els as [|x els IH]; intros l; [done|]. cbn [foldl].
  by rewrite IH, reverse_cons, <- (assoc_L (++)).
Qed.

Lemma foldl_push_back (l els : list bytes) : foldl (fun list element => list ++ [element]) l els = l ++ els.
Proof.
  revert l. induction els as [|x els IH]; intros l; cbn [foldl]; [by rewrite app_nil_r|].
  by rewrite IH, <- (assoc_L (++)).
Qed.

Lemma pop_back_spec l : pop_back l =
  match last l with Some x => Some (take (length l - 1) l, x) | None => None end.
Proof.
  unfold pop_back. destruct l as [|x l] using rev_ind; [done|]. rewrite reverse_snoc, last_snoc, length_app.
  cbn [length]. rewrite Nat.add_sub, take_app_length. by rewrite reverse_involutive.
Qed.

Lemma remove_first_0 x l : remove_first 0 x l = l.
Proof. by destruct l. Qed.

Lemma list_delete_middle (l1 l2 : list bytes) x : delete (length l1) (l1 ++ x :: l2) = l1 ++ l2.
Proof. induction l1 as [|y l1 IH]; [done|]. cbn. f_equal. apply IH. Qed.

Lemma rem_forward_spec x l2 : forall l1 count removed,
  rem_forward (length l2) x (l1 ++ l2) (length l1) count removed =
    (l1 ++ remove_first (Z.to_nat count) x l2,
     removed + llen l2 - llen (remove_first (Z.to_nat count) x l2)).
Proof.
  induction l2 as [|y l2 IH]; intros l1 count removed; cbn [length rem_forward].
  { unfold llen. cbn. f_equal. lia. }
  replace (Z.of_nat (length l1) <? llen (l1 ++ y :: l2)) with true
    by (symmetry; apply Z.ltb_lt; unfold llen; rewrite length_app; cbn; lia).
  cbn [andb]. destruct (Z.ltb_spec 0 count) as [Hc|Hc].
  - rewrite list_lookup_middle by done. cbn [remove_first].
    destruct (Z.to_nat count) as [|n] eqn:En; [lia|].
    case_bool_decide as E1.
    + injection E1 as ->. rewrite bool_decide_true by done. rewrite list_delete_middle, IH.
      replace (Z.to_nat (count - 1)) with n by lia. unfold llen. cbn [length]. f_equal. lia.
    + rewrite bool_decide_false by congruence.
      replace (l1 ++ y :: l2) with ((l1 ++ [y]) ++ l2) by (by rewrite <- (assoc_L (++))).
      replace (S (length l1)) with (length (l1 ++ [y])) by (rewrite length_app; cbn; lia).
      rewrite IH, En, <- (assoc_L (++)). unfold llen. cbn [length app]. f_equal. lia.
  - replace (Z.to_nat count) with O by lia. rewrite remove_first_0. f_equal. lia.
Qed.

Lemma rem_backward_spec x l1 : forall l2 count removed,
  rem_backward (length l1) x (l1 ++ l2) count removed =
    (reverse (remove_first (Z.to_nat count) x (reverse l1)) ++ l2,
     removed + llen l1 - llen (remove_first (Z.to_nat count) x (reverse l1))).
Proof.
  induction l1 as [|y l1 IH] using rev_ind; intros l2 count removed.
  { unfold llen. cbn. f_equal. lia. }
  rewrite length_app, Nat.add_comm. cbn [length Nat.add rem_backward].
  destruct (Z.ltb_spec 0 count) as [Hc|Hc].
  - rewrite <- (assoc_L (++)). cbn [app]. rewrite list_lookup_middle by done.
    rewrite reverse_snoc. cbn [remove_first]. destruct (Z.to_nat count) as [|n] eqn:En; [lia|].
    case_bool_decide as E1.
    + injection E1 as ->. rewrite bool_decide_true by done. rewrite list_delete_middle, IH.
      replace (Z.to_nat (count - 1)) with n by lia. unfold llen. rewrite length_app. cbn [length]. f_equal. lia.
    + rewrite bool_decide_false by congruence. rewrite IH, En, reverse_cons, <- (assoc_L (++)).
      unfold llen. rewrite length_app. cbn [length app]. f_equal. lia.
  - replace (Z.to_nat count) with O by lia. rewrite remove_first_0, reverse_involutive. f_equal.
    unfold llen. rewrite length_reverse, length_app. cbn. lia.
Qed.

Lemma rem_all_spec x l2 : forall l1 removed,
  rem_all (length l2) x (l1 ++ l2) (length l1) removed =
    (l1 ++ filter (fun y => y <> x) l2,
     removed + llen l2 - llen (filter (fun y => y <> x) l2)).
Proof.
  induction l2 as [|y l2 IH]; intros l1 removed; cbn [length rem_all].
  { unfold llen. cbn. f_equal. lia. }
  replace (Z.of_nat (length l1) <? llen (l1 ++ y :: l2)) with true
    by (symmetry; apply Z.ltb_lt; unfold llen; rewrite length_app; cbn; lia).
  rewrite list_lookup_middle by done. case_bool_decide as E1.
  - injection E1 as ->. rewrite list_delete_middle, IH, filter_cons_False by naive_solver.
    unfold llen. cbn [length]. f_equal. lia.
  - rewrite filter_cons_True by congruence.
    replace (l1 ++ y :: l2) with ((l1 ++ [y]) ++ l2) by (by rewrite <- (assoc_L (++))).
    replace (S (length l1)) with (length (l1 ++ [y])) by (rewrite length_app; cbn; lia).
    rewrite IH, <- (assoc_L (++)). unfold llen. cbn [length app]. f_equal. lia.
Qed.

Lemma remove_elements_spec req l : is_i64 (lrem_count req) ->
  remove_elements req l =
    (lrem_spec (lrem_count req) (lrem_element req) l,
     llen l - llen (lrem_spec (lrem_count req) (lrem_element req) l)).
Proof.
  intros Hi. unfold remove_elements, lrem_spec. destruct (Z.compare_spec (lrem_count req) 0) as [E|E|E].
  - rewrite E. cbn. apply (rem_all_spec _ l []).
  - destruct (Z.ltb_spec 0 (lrem_count req)); [lia|]. destruct (Z.eqb_spec (lrem_count req) 0); [lia|].
    pose proof (rem_backward_spec (lrem_element req) l [] (wrap_i64 (- lrem_count req)) 0) as Hb.
    rewrite !app_nil_r in Hb. rewrite Hb. clear Hb. destruct (Z.eqb_spec (lrem_count req) i64_min) as [Em|Em].
    + rewrite Em. change (Z.to_nat (wrap_i64 (- i64_min))) with O.
      rewrite remove_first_0, reverse_involutive. f_equal. unfold llen. rewrite length_reverse. lia.
    + rewrite wrap_i64_small by (unfold is_i64, i64_min, i64_max in *; lia).
      f_equal. unfold llen. rewrite length_reverse. lia.
  - destruct (Z.ltb_spec 0 (lrem_count req)); [|lia]. apply (rem_forward_spec _ l []).
Qed.

Lemma list_index_spec l i :
  list_index l i = (let i' := if i <? 0 then llen l + i else i in
    if ((i' <? 0) || (llen l <=? i'))%bool then None else Some (Z.to_nat i')).
Proof.
  unfold list_index. cbv zeta. set (i' := if i <? 0 then _ else _).
  destruct (Z.ltb_spec i' 0), (Z.leb_spec 0 i'), (Z.leb_spec (llen l) i'), (Z.ltb_spec i' (llen l)); try lia; done.
Qed.

Lemma ltrim_lrange l s e : l <> [] ->
  (let start := if s <? 0 then llen l + s else s in
   let stop := if e <? 0 then llen l + e else e in
   let start := if start <? 0 then 0 else start in
   let stop := if llen l <=? stop then llen l - 1 else stop in
   if stop <? start then []
   else
     let truncated := take (Z.to_nat (stop + 1)) l in
     if 0 <? start then drop (Z.to_nat start) truncated else truncated) = lrange l s e.
Proof.
  intros Hl. unfold lrange. destruct (Z.eqb_spec (llen l) 0) as [E|_].
  { unfold llen in E. destruct l; [done|cbn in E; lia]. }
  cbv zeta. set (s' := if s <? 0 then _ else _). set (e' := if e <? 0 then _ else _).
  replace (Z.max s' 0) with (if s' <? 0 then 0 else s') by (destruct (Z.ltb_spec s' 0); lia).
  replace (Z.min e' (llen l - 1)) with (if llen l <=? e' then llen l - 1 else e')
    by (destruct (Z.leb_spec (llen l) e'); lia).
  set (a := if s' <? 0 then _ else _). set (b := if llen l <=? e' then _ else _).
  assert (0 <= a) by (unfold a; destruct (Z.ltb_spec s' 0); lia).
  destruct (Z.ltb_spec b a); [done|]. destruct (Z.ltb_spec 0 a).
  - rewrite skipn_firstn_comm. f_equal. lia.
  - replace a with 0 by lia. cbn. f_equal. lia.
Qed.

(** ** The laws *)

Lemma list_at_eq h l x : lists h !! l = Some x -> list_at h l = x.
Proof. unfold list_at. by intros ->. Qed.

(** Split on the shape of the value; the wrong shapes are refused alike. *)
Ltac list_law Hpv :=
  unfold on_list; cbn [value]; shape_cases Hpv; try (by apply refuse_ok);
  match goal with H : lists _ !! _ = Some _ |- _ => rewrite ?(list_at_eq _ _ _ H) end.

Lemma inplace_list h e pv l x r pe : HeapInv h -> (forall a, expire_at e = Some a -> is_u64 a) ->
  abs_value h (value e) = Some pv -> data (value e) = VList l -> pe = mkEntrySnapshot pv (expire_at e) ->
  mutation_ok e pv h (put_list h l x, (write_back e, r)) (pwrite_back pe (PList x), r).
Proof. intros Hh He Hpv Hd ->. by apply (inplace_ok h e pv Hh He Hpv l (PList x)). Qed.

#[global] Instance lpush_laws : ComputeLaws LPushReq.
Proof.
  apply (compute_laws (fun _ => True)).
  - intros cmd e pv wc h Hh _ _ He Hpv. cbn. unfold lpush_mutate. list_law Hpv.
    rewrite foldl_push_front. by apply inplace_list.
  - intros cmd h Hh _. by apply (init_alloc_ok h (PList (lpush_elements cmd))).
Defined.

#[global] Instance rpush_laws : ComputeLaws RPushReq.
Proof.
  apply (compute_laws (fun _ => True)).
  - intros cmd e pv wc h Hh _ _ He Hpv. cbn. unfold rpush_mutate. list_law Hpv.
    rewrite foldl_push_back. by apply inplace_list.
  - intros cmd h Hh _. by apply (init_alloc_ok h (PList (rpush_elements cmd))).
Defined.

#[global] Instance lpop_laws : ComputeLaws LPopReq.
Proof.
  apply (compute_laws (fun _ => True)).
  - intros cmd e pv wc h Hh _ _ He Hpv. cbn. unfold lpop_mutate. list_law Hpv.
    destruct l0 as [|x l0]; cbn [tail head].
    + replace (PList []) with (pdata pv). by apply write_back_ok.
    + by apply inplace_list.
  - intros cmd h Hh _. by apply init_refuse_ok.
Defined.

#[global] Instance rpop_laws : ComputeLaws RPopReq.
Proof.
  apply (compute_laws (fun _ => True)).
  - intros cmd e pv wc h Hh _ _ He Hpv. cbn. unfold rpop_mutate. list_law Hpv.
    rewrite pop_back_spec. destruct (last l0) eqn:El.
    + by apply inplace_list.
    + apply last_None in El as ->. cbn [length take]. replace (PList _) with (pdata pv). by apply write_back_ok.
  - intros cmd h Hh _. by apply init_refuse_ok.
Defined.

#[global] Instance lrem_laws : ComputeLaws LRemReq.
Proof.
  apply (compute_laws (fun cmd => is_i64 (lrem_count cmd))).
  - intros cmd e pv wc h Hh Hi _ He Hpv. cbn. unfold lrem_mutate. list_law Hpv.
    rewrite remove_elements_spec by done. by apply inplace_list.
  - intros cmd h Hh _. by apply init_refuse_ok.
Defined.

#[global] Instance lset_laws : ComputeLaws LSetReq.
Proof.
  apply (compute_laws (fun _ => True)).
  - intros cmd e pv wc h Hh _ _ He Hpv. cbn. unfold lset_mutate. list_law Hpv.
    rewrite list_index_spec. cbv zeta. case_match; [by apply refuse_ok|by apply inplace_list].
  - intros cmd h Hh _. by apply init_refuse_ok.
Defined.

#[global] Instance ltrim_laws : ComputeLaws LTrimReq.
Proof.
  apply (compute_laws (fun _ => True)).
  - intros cmd e pv wc h Hh _ _ He Hpv. cbn. unfold ltrim_mutate. list_law Hpv.
    destruct (decide (l0 = [])) as [->|Hne].
    + cbn. replace (PList _) with (pdata pv). by apply write_back_ok.
    + destruct (Z.eqb_spec (llen l0) 0) as [E|_]; [unfold llen in E; destruct l0; [done|cbn in E; lia]|].
      pose proof (ltrim_lrange l0 (ltrim_start cmd) (ltrim_stop cmd) Hne) as E. cbv zeta in *. rewrite E.
      by apply inplace_list.
  - intros cmd h Hh _. by apply init_refuse_ok.
Defined.

#[global] Instance lrange_laws : ReadLaws LRangeParams.
Proof.
  constructor. intros cmd h r pr Hh Hr. cbn. unfold pread_list, lrange_execute. read_law Hr.
  by rewrite (list_at_eq _ _ _ Hshape).
Qed.

#[global] Instance lindex_laws : ReadLaws LIndexParams.
Proof.
  constructor. intros cmd h r pr Hh Hr. cbn. unfold pread_list, lindex_execute. read_law Hr.
  rewrite (list_at_eq _ _ _ Hshape), list_index_spec. cbv zeta. by case_match.
Qed.

#[global] Instance llen_laws : ReadLaws LLenParams.
Proof.
  constructor. intros cmd h r pr Hh Hr. cbn. unfold pread_list, llen_execute. read_law Hr.
  by rewrite (list_at_eq _ _ _ Hshape).
Qed.
