(* ===== verification/StringCmd.v ===== *)
(** * StringCmd: the string commands.

    Models src/cache_cat/src/protocol/string (SET, SETNX, SETEX, PSETEX, GETSET,
    MSET, INCR, INCRBY, DECR, DECRBY, APPEND, GET, MGET, STRLEN) and
    src/cache_cat/src/raft/types/core/cache/string.rs. The HyperLogLog commands
    are in HllCmd. *)

From S2P Require Import Prelude Text F64 Reply Args SortedSet Mocha Ops Store Refine.

(** ** Parsers *)

(** The [while] loop of [SetParams::parse] over the options. *)
Fixpoint set_options (params : SetParams) (items : list Value) : parsed SetParams :=
  let with_mode m := mkSetParams (sp_key params) (sp_value params) (Some m) (sp_get params) (sp_expiration params) in
  let with_exp x := mkSetParams (sp_key params) (sp_value params) (sp_mode params) (sp_get params) (Some x) in
  match items with
  | [] => Ok params
  | it :: rest =>
      let? arg := ok_or (upper_flag it) SyntaxError in
      let timed (mk : Z -> Expiration) :=
        match sp_expiration params, rest with
        | None, n :: rest' => let? t := try_parse_u64 n in set_options (with_exp (mk t)) rest'
        | _, _ => Err SyntaxError
        end in
      if is_word arg "NX" then
        match sp_mode params with Some _ => Err SyntaxError | None => set_options (with_mode SetNx) rest end
      else if is_word arg "XX" then
        match sp_mode params with Some _ => Err SyntaxError | None => set_options (with_mode SetXx) rest end
      else if is_word arg "GET" then
        set_options (mkSetParams (sp_key params) (sp_value params) (sp_mode params) true (sp_expiration params)) rest
      else if is_word arg "EX" then timed Ex
      else if is_word arg "PX" then timed Px
      else if is_word arg "EXAT" then timed ExAt
      else if is_word arg "PXAT" then timed PxAt
      else if is_word arg "KEEPTTL" then
        match sp_expiration params with Some _ => Err SyntaxError | None => set_options (with_exp KeepTTL) rest end
      else Err SyntaxError
  end.

Definition set_parse (items : list Value) : parsed SetParams :=
  if argc items <? 3 then Err (WrongArgCount (str "set"))
  else
    let? key := string_item items 1 (str "key") in
    let? val := string_item items 2 (str "value") in
    set_options (mkSetParams key val None false None) (drop 3 items).

Definition set_request (items : list Value) : parsed Operation :=
  let? params := set_parse items in Ok (Redis (RedisSet params)).

(** SETNX takes the value from [items[1]], the key. *)
Definition setnx_request (items : list Value) : parsed Operation :=
  if negb (argc items =? 3) then Err (WrongArgCount (str "setnx"))
  else
    let? key := string_item items 1 (str "key") in
    let? val := string_item items 1 (str "value") in
    Ok (Redis (RedisSetNx (mkSetNxParams key val))).

(** SETEX takes the value from [items[1]] as well. *)
Definition setex_request (items : list Value) : parsed Operation :=
  if negb (argc items =? 4) then Err (WrongArgCount (str "setex"))
  else
    let? key := string_item items 1 (str "key") in
    let? seconds := try_parse_u64 (item items 2) in
    let? val := string_item items 1 (str "value") in
    Ok (Redis (RedisSetEx (mkSetExParams key val (wrap_u64 (seconds * 1000))))).

Definition psetex_request (items : list Value) : parsed Operation :=
  if negb (argc items =? 4) then Err (WrongArgCount (str "psetex"))
  else
    let? key := string_item items 1 (str "key") in
    let? milliseconds := try_parse_u64 (item items 2) in
    let? val := string_item items 3 (str "value") in
    Ok (Redis (RedisPSetEx (mkPSetExParams key val milliseconds))).

Definition getset_request (items : list Value) : parsed Operation :=
  if negb (argc items =? 3) then Err (WrongArgCount (str "getset"))
  else
    let? key := string_item items 1 (str "key") in
    let? val := string_item items 2 (str "value") in
    Ok (Redis (RedisGetSet (mkGetSetParams key val))).

Definition mset_request (items : list Value) : parsed Operation :=
  if argc items <? 3 then Err (WrongArgCount (str "MSET"))
  else if negb ((argc items - 1) mod 2 =? 0) then Err (WrongArgCount (str "MSET"))
  else
    let? pairs := pairs_of (InvalidArgument (str "key")) (InvalidArgument (str "value")) (drop 1 items) in
    Ok (Redis (RedisMset (mkMsetParams pairs))).

Definition incr_request (items : list Value) : parsed Operation :=
  if negb (argc items =? 2) then Err (WrongArgCount (str "INCR"))
  else let? key := string_item items 1 (str "key") in Ok (Base (Incr (mkIncrReq key))).

Definition incrby_request (items : list Value) : parsed Operation :=
  if negb (argc items =? 3) then Err (WrongArgCount (str "INCR"))
  else
    let? key := string_item items 1 (str "key") in
    let? inc := ok_or (value_parse_i64 (item items 2)) (InvalidArgument (str "increment")) in
    Ok (Base (IncrBy (mkIncrByReq key inc))).

Definition decr_request (items : list Value) : parsed Operation :=
  if negb (argc items =? 2) then Err (WrongArgCount (str "DECR"))
  else let? key := string_item items 1 (str "key") in Ok (Base (Decr (mkDecrReq key))).

Definition decrby_request (items : list Value) : parsed Operation :=
  if negb (argc items =? 3) then Err (WrongArgCount (str "DECRBY"))
  else
    let? key := string_item items 1 (str "key") in
    let? dec := ok_or (value_parse_i64 (item items 2)) (InvalidArgument (str "decrement")) in
    Ok (Base (DecrBy (mkDecrByReq key dec))).

Definition append_request (items : list Value) : parsed Operation :=
  if negb (argc items =? 3) then Err (WrongArgCount (str "APPEND"))
  else
    let? key := string_item items 1 (str "key") in
    let? val := string_item items 2 (str "value") in
    Ok (Base (Append (mkAppendReq key val))).

Definition get_operation (items : list Value) : parsed ReadOperation :=
  if negb (argc items =? 2) then Err (WrongArgCount (str "GET"))
  else let? key := string_item items 1 (str "key") in Ok (RGet (mkGetParams key)).

Definition mget_operation (items : list Value) : parsed ReadOperation :=
  if argc items <? 2 then Err (WrongArgCount (str "MGET"))
  else
    let? keys := strings_from items 1 (InvalidArgument (str "key")) in
    Ok (RMGet (mkMgetParams keys)).

Definition strlen_operation (items : list Value) : parsed ReadOperation :=
  if negb (argc items =? 2) then Err (WrongArgCount (str "STRLEN"))
  else let? key := string_item items 1 (str "key") in Ok (RStrLen (mkStrLenParams key)).

(** ** Write commands on one key *)

(** SET stores what reads as an integer as an integer. *)
Definition encode_string (s : bytes) : ValueObject :=
  match parse_i64 s with
  | None => VString s
  | Some v => VInt v
  end.

(** A deadline of 0 stands for none. *)
Definition expire_of (ex_time : Z) : ExpirePolicy :=
  if ex_time =? 0 then Persistent else Absolute ex_time.

Definition set_mutate (cmd : SetReq) (entry : EntrySnapshot MyValue) (write_clock : Z) (h : Heap) : mutation :=
  let new_version := wrap_u32 (version (value entry) + 1) in
  (h, (MInsert (mkMyValue new_version (encode_string (set_value cmd))) (expire_of (set_ex_time cmd)), value_ok)).

Definition set_init (cmd : SetReq) (h : Heap) : mutation :=
  (h, (MInsert (mkMyValue 1 (encode_string (set_value cmd))) (expire_of (set_ex_time cmd)), value_ok)).

#[global] Instance set_compute : ComputeCommand SetReq := {
  key := set_key; into_base_op := Set_op; mutate := set_mutate; init := set_init
}.

(** INCR, INCRBY, DECR and DECRBY differ in the amount added. *)
Definition add_mutate (delta : Z) (entry : EntrySnapshot MyValue) (h : Heap) : mutation :=
  let store n := (h, (MInsert (my_value_new (VInt n)) (get_expire_policy entry), Integer n)) in
  match data (value entry) with
  | VInt n => store (wrap_i64 (n + delta))
  | VString s =>
      match parse_i64 s with
      | None => (h, (MAbort, Error (str "Value is not an integer")))
      | Some v => store (wrap_i64 (v + delta))
      end
  | _ => (h, (MAbort, Error (str "Key exists but is not an Integer")))
  end.

Definition add_init (v : Z) (h : Heap) : mutation :=
  (h, (MInsert (my_value_new (VInt v)) Persistent, Integer v)).

Definition incr_mutate (cmd : IncrReq) (entry : EntrySnapshot MyValue) (write_clock : Z) (h : Heap) : mutation :=
  add_mutate 1 entry h.
Definition incr_init (cmd : IncrReq) (h : Heap) : mutation := add_init 1 h.

#[global] Instance incr_compute : ComputeCommand IncrReq := {
  key := incr_key; into_base_op := Incr; mutate := incr_mutate; init := incr_init
}.

Definition incrby_mutate (cmd : IncrByReq) (entry : EntrySnapshot MyValue) (write_clock : Z) (h : Heap) : mutation :=
  add_mutate (increment cmd) entry h.
Definition incrby_init (cmd : IncrByReq) (h : Heap) : mutation := add_init (increment cmd) h.

#[global] Instance incrby_compute : ComputeCommand IncrByReq := {
  key := incrby_key; into_base_op := IncrBy; mutate := incrby_mutate; init := incrby_init
}.

Definition decr_mutate (cmd : DecrReq) (entry : EntrySnapshot MyValue) (write_clock : Z) (h : Heap) : mutation :=
  add_mutate (-1) entry h.
Definition decr_init (cmd : DecrReq) (h : Heap) : mutation := add_init (-1) h.

#[global] Instance decr_compute : ComputeCommand DecrReq := {
  key := decr_key; into_base_op := Decr; mutate := decr_mutate; init := decr_init
}.

(** [n - decrement] and [-decrement], at the width. *)
Definition decrby_mutate (cmd : DecrByReq) (entry : EntrySnapshot MyValue) (write_clock : Z) (h : Heap) : mutation :=
  add_mutate (- decrement cmd) entry h.
Definition decrby_init (cmd : DecrByReq) (h : Heap) : mutation := add_init (wrap_i64 (- decrement cmd)) h.

#[global] Instance decrby_compute : ComputeCommand DecrByReq := {
  key := decrby_key; into_base_op := DecrBy; mutate := decrby_mutate; init := decrby_init
}.

Definition append_mutate (cmd : AppendReq) (entry : EntrySnapshot MyValue) (write_clock : Z) (h : Heap) : mutation :=
  match data (value entry) with
  | VString data =>
      let new_buf := data ++ append_value cmd in
      (h, (MInsert (my_value_new (VString new_buf)) (get_expire_policy entry), Integer (Z.of_nat (length new_buf))))
  | _ => (h, (MAbort, Error (str "Key exists but is not a String")))
  end.

Definition append_init (cmd : AppendReq) (h : Heap) : mutation :=
  (h, (MInsert (my_value_new (VString (append_value cmd))) Persistent, Integer (Z.of_nat (length (append_value cmd))))).

#[global] Instance append_compute : ComputeCommand AppendReq := {
  key := append_key; into_base_op := Append; mutate := append_mutate; init := append_init
}.

(** ** Reads *)

(** The bytes of a string value. *)
Definition value_bytes (v : ValueObject) : option bytes :=
  match v with
  | VInt i => Some (i64_to_string i)
  | VString s => Some s
  | _ => None
  end.

Definition get_execute (cmd : GetParams) (h : Heap) (v : option (EntrySnapshot MyValue)) : Value :=
  match v with
  | None => BulkString None
  | Some e =>
      match data (value e) with
      | VInt i => BulkString (Some (i64_to_string i))
      | VString s => BulkString (Some s)
      | _ => protocol_error WrongType
      end
  end.

#[global] Instance get_read : ReadCommand GetParams := { rkey := get_key; execute := get_execute }.

Definition mget_execute (cmd : MgetParams) (h : Heap) (vs : list (option (EntrySnapshot MyValue))) : Value :=
  Array (Some ((fun v =>
    match v with
    | None => BulkString None
    | Some e =>
        match data (value e) with
        | VInt i => BulkString (Some (i64_to_string i))
        | VString s => BulkString (Some s)
        | _ => protocol_error WrongType
        end
    end) <$> vs)).

#[global] Instance mget_read : MultiReadCommand MgetParams := { rkeys := mget_keys; multi_execute := mget_execute }.

Definition strlen_execute (cmd : StrLenParams) (h : Heap) (v : option (EntrySnapshot MyValue)) : Value :=
  match v with
  | None => Integer 0
  | Some e =>
      match data (value e) with
      | VString s => Integer (Z.of_nat (length s))
      | VInt i => Integer (Z.of_nat (length (i64_to_string i)))
      | _ => protocol_error WrongType
      end
  end.

#[global] Instance strlen_read : ReadCommand StrLenParams := { rkey := strlen_key; execute := strlen_execute }.

(** ** The cache methods *)

Definition set (c : MyCache) (param : SetReq) (u : Update) := execute_compute c param u.
Definition incr (c : MyCache) (param : IncrReq) (u : Update) := execute_compute c param u.
Definition incr_by (c : MyCache) (param : IncrByReq) (u : Update) := execute_compute c param u.
Definition decr (c : MyCache) (param : DecrReq) (u : Update) := execute_compute c param u.
Definition decr_by (c : MyCache) (param : DecrByReq) (u : Update) := execute_compute c param u.
Definition append (c : MyCache) (param : AppendReq) (u : Update) := execute_compute c param u.

(** The loop of MSET. *)
Fixpoint mset_loop (c : MyCache) (pairs : list (bytes * bytes)) (u : Update) : MyCache * Update :=
  match pairs with
  | [] => (c, u)
  | (k, v) :: pairs' =>
      let '(c1, u1, _) := set c (mkSetReq k v 0) u in
      mset_loop c1 pairs' u1
  end.

Definition redis_mset (c : MyCache) (params : MsetParams) (u : Update) : MyCache * Update * Value :=
  let '(c', u') := mset_loop c (mset_pairs params) u in (c', u', value_ok).

Inductive ExistingKey :=
| EkNone
| EkData (s : bytes)
| EkOtherType.

Definition existing_key (r : option (EntrySnapshot MyValue)) : ExistingKey :=
  match r with
  | None => EkNone
  | Some v =>
      match data (value v) with
      | VInt i => EkData (i64_to_string i)
      | VString s => EkData s
      | _ => EkOtherType
      end
  end.

(** The deadline an option other than KEEPTTL asks for. *)
Definition expires_at (now : Z) (e : option Expiration) : Z :=
  match e with
  | Some (Ex seconds) => wrap_u64 (now + wrap_u64 (seconds * 1000))
  | Some (Px millis) => wrap_u64 (now + millis)
  | Some (ExAt timestamp) => wrap_u64 (timestamp * 1000)
  | Some (PxAt timestamp) => timestamp
  | _ => 0
  end.

(** What SET with GET answers with. *)
Definition old_value (k : ExistingKey) : Value :=
  match k with
  | EkData v => BulkString (Some v)
  | _ => BulkString None
  end.

(** The rest of [redis_set], once the deadline is known and the key has been
    looked up where the options ask for it. *)
Definition redis_set_finish (c : MyCache) (params : SetParams) (u : Update) (ex : Z) (k : ExistingKey)
    : MyCache * Update * Value :=
  let key_exists := match k with EkNone => false | _ => true end in
  match sp_mode params, key_exists with
  | Some SetNx, true => (c, u, if sp_get params then old_value k else BulkString None)
  | Some SetXx, false => (c, u, BulkString None)
  | _, _ =>
      let '(c', u', _) := set c (mkSetReq (sp_key params) (sp_value params) ex) u in
      (c', u', if sp_get params then old_value k else value_ok)
  end.

(** The options of SET ask whether the key exists. *)
Definition set_asks (params : SetParams) : bool :=
  (match sp_mode params with Some _ => true | None => false end || sp_get params)%bool.

(** The lookup for NX, XX and GET, where KEEPTTL has not found the key. *)
Definition redis_set_check (c : MyCache) (params : SetParams) (u : Update) (ex : Z) (k : ExistingKey)
    : MyCache * Update * Value :=
  match k, set_asks params with
  | EkNone, true =>
      match get_cache c (db_number u) with
      | Err err => (c, u, err)
      | Ok db =>
          let '(c1, r) := lookup_entry c (db_number u) db (sp_key params) in
          redis_set_finish c1 params u ex (existing_key r)
      end
  | _, _ => redis_set_finish c params u ex k
  end.

Definition redis_set (c : MyCache) (params : SetParams) (u : Update) : MyCache * Update * Value :=
  match sp_expiration params with
  | Some KeepTTL =>
      match get_cache c (db_number u) with
      | Err err => (c, u, err)
      | Ok db =>
          let '(c1, r) := lookup_entry c (db_number u) db (sp_key params) in
          let ttl_ms := match r with Some v => default 0 (expire_at v) | None => 0 end in
          redis_set_check c1 params u ttl_ms (existing_key r)
      end
  | e => redis_set_check c params u (expires_at (write_clock u) e) EkNone
  end.

Definition redis_setnx (c : MyCache) (params : SetNxParams) (u : Update) : MyCache * Update * Value :=
  match get_cache c (db_number u) with
  | Err err => (c, u, err)
  | Ok db =>
      let '(c1, r) := lookup_entry c (db_number u) db (snx_key params) in
      match existing_key r with
      | EkNone =>
          let '(c2, u2, _) := set c1 (mkSetReq (snx_key params) (snx_value params) 0) u in
          (c2, u2, value_ok)
      | _ => (c1, u, BulkString None)
      end
  end.

(** SETEX multiplies by 1000 what its parser has already multiplied. *)
Definition redis_setex (c : MyCache) (params : SetExParams) (u : Update) : MyCache * Update * Value :=
  let ex := wrap_u64 (write_clock u + wrap_u64 (sex_expiration params * 1000)) in
  let '(c1, u1, _) := set c (mkSetReq (sex_key params) (sex_value params) ex) u in
  (c1, u1, value_ok).

Definition redis_psetex (c : MyCache) (params : PSetExParams) (u : Update) : MyCache * Update * Value :=
  let ex := wrap_u64 (write_clock u + psex_expiration params) in
  let '(c1, u1, _) := set c (mkSetReq (psex_key params) (psex_value params) ex) u in
  (c1, u1, value_ok).

Definition redis_get_set (c : MyCache) (params : GetSetParams) (u : Update) : MyCache * Update * Value :=
  match get_cache c (db_number u) with
  | Err err => (c, u, err)
  | Ok db =>
      let '(c1, r) := lookup_entry c (db_number u) db (gs_key params) in
      match existing_key r with
      | EkOtherType => (c1, u, protocol_error WrongType)
      | k =>
          let '(c2, u2, _) := set c1 (mkSetReq (gs_key params) (gs_value params) 0) u in
          (c2, u2, old_value k)
      end
  end.

(** ** The commands on plain values *)

Definition pencode (s : bytes) : PData :=
  match parse_i64 s with
  | None => PString s
  | Some v => PInt v
  end.

#[global] Instance set_pure : PureCommand SetReq := {
  pmutate cmd e _ :=
    (MInsert (mkPValue (wrap_u32 (pversion (value e) + 1)) (pencode (set_value cmd))) (expire_of (set_ex_time cmd)),
     value_ok);
  pinit cmd := (MInsert (mkPValue 1 (pencode (set_value cmd))) (expire_of (set_ex_time cmd)), value_ok)
}.

Definition padd (delta : Z) (e : EntrySnapshot PValue) : MochaOperation PValue * Value :=
  let store n := (MInsert (pvalue_new (PInt n)) (get_expire_policy e), Integer n) in
  match pdata (value e) with
  | PInt n => store (wrap_i64 (n + delta))
  | PString s =>
      match parse_i64 s with
      | None => (MAbort, Error (str "Value is not an integer"))
      | Some v => store (wrap_i64 (v + delta))
      end
  | _ => (MAbort, Error (str "Key exists but is not an Integer"))
  end.

Definition padd_init (v : Z) : MochaOperation PValue * Value :=
  (MInsert (pvalue_new (PInt v)) Persistent, Integer v).

#[global] Instance incr_pure : PureCommand IncrReq := {
  pmutate cmd e _ := padd 1 e; pinit cmd := padd_init 1
}.
#[global] Instance incrby_pure : PureCommand IncrByReq := {
  pmutate cmd e _ := padd (increment cmd) e; pinit cmd := padd_init (increment cmd)
}.
#[global] Instance decr_pure : PureCommand DecrReq := {
  pmutate cmd e _ := padd (-1) e; pinit cmd := padd_init (-1)
}.
#[global] Instance decrby_pure : PureCommand DecrByReq := {
  pmutate cmd e _ := padd (- decrement cmd) e; pinit cmd := padd_init (wrap_i64 (- decrement cmd))
}.

#[global] Instance append_pure : PureCommand AppendReq := {
  pmutate cmd e _ :=
    match pdata (value e) with
    | PString s =>
        (MInsert (pvalue_new (PString (s ++ append_value cmd))) (get_expire_policy e),
         Integer (Z.of_nat (length (s ++ append_value cmd))))
    | _ => (MAbort, Error (str "Key exists but is not a String"))
    end;
  pinit cmd := (MInsert (pvalue_new (PString (append_value cmd))) Persistent, Integer (Z.of_nat (length (append_value cmd))))
}.

(** The string form of a plain value. *)
Definition pbytes (d : PData) : option bytes :=
  match d with
  | PInt i => Some (i64_to_string i)
  | PString s => Some s
  | _ => None
  end.

Definition pget (e : option (EntrySnapshot PValue)) : Value :=
  match e with
  | None => BulkString None
  | Some e => match pbytes (pdata (value e)) with Some s => bulk s | None => protocol_error WrongType end
  end.

#[global] Instance get_pure : PureRead GetParams := { pread _ e r := r = pget e }.
#[global] Instance mget_pure : PureMultiRead MgetParams := {
  pmulti_read _ es r := r = Array (Some (pget <$> es))
}.
#[global] Instance strlen_pure : PureRead StrLenParams := {
  pread _ e r := r =
    match e with
    | None => Integer 0
    | Some e =>
        match pbytes (pdata (value e)) with
        | Some s => Integer (Z.of_nat (length s))
        | None => protocol_error WrongType
        end
    end
}.

(** ** The laws *)

Lemma abs_encode h v s : abs_value h (mkMyValue v (encode_string s)) = Some (mkPValue v (pencode s)).
Proof. unfold abs_value, encode_string, pencode. cbn. by destruct (parse_i64 s). Qed.

Lemma encode_loc s : value_loc (encode_string s) = None.
Proof. unfold encode_string. by destruct (parse_i64 s). Qed.

Lemma expire_of_ok ex : is_u64 ex -> policy_ok (expire_of ex).
Proof. intros. unfold expire_of. by case_match. Qed.

#[global] Instance set_laws : ComputeLaws SetReq.
Proof.
  apply (compute_laws (fun cmd => is_u64 (set_ex_time cmd))).
  - intros cmd e pv wc h Hh Hex _ He Hpv. cbn. unfold set_mutate.
    destruct (value_shape _ _ _ Hpv) as [-> _].
    apply scalar_ok; try done; [by apply expire_of_ok|apply encode_loc|apply abs_encode].
  - intros cmd h Hh Hex. cbn. unfold set_init.
    apply init_scalar_ok; [done|by apply expire_of_ok|apply encode_loc|apply abs_encode].
Defined.

Lemma add_ok delta e pv h : HeapInv h -> (forall a, expire_at e = Some a -> is_u64 a) ->
  abs_value h (value e) = Some pv ->
  mutation_ok e pv h (add_mutate delta e h) (padd delta (mkEntrySnapshot pv (expire_at e))).
Proof.
  intros Hh He Hpv. unfold add_mutate, padd. cbn [value]. shape_cases Hpv; try (by apply refuse_ok); subst.
  - apply scalar_ok; try done. by apply policy_of_entry.
  - destruct (parse_i64 s0); [|by apply refuse_ok]. apply scalar_ok; try done. by apply policy_of_entry.
Qed.

Lemma add_init_ok v h : HeapInv h -> init_ok h (add_init v h) (padd_init v).
Proof. intros Hh. by apply init_scalar_ok. Qed.

Ltac add_law :=
  apply (compute_laws (fun _ => True));
  [intros cmd e pv wc h Hh _ _ He Hpv; by apply add_ok|intros cmd h Hh _; by apply add_init_ok].

#[global] Instance incr_laws : ComputeLaws IncrReq.
Proof. add_law. Defined.
#[global] Instance incrby_laws : ComputeLaws IncrByReq.
Proof. add_law. Defined.
#[global] Instance decr_laws : ComputeLaws DecrReq.
Proof. add_law. Defined.
#[global] Instance decrby_laws : ComputeLaws DecrByReq.
Proof. add_law. Defined.

#[global] Instance append_laws : ComputeLaws AppendReq.
Proof.
  apply (compute_laws (fun _ => True)).
  - intros cmd e pv wc h Hh _ _ He Hpv. cbn. unfold append_mutate.
    shape_cases Hpv; try (by apply refuse_ok); subst. apply scalar_ok; try done. by apply policy_of_entry.
  - intros cmd h Hh _. by apply init_scalar_ok.
Defined.

Lemma get_reply h r pr : abs_read h r pr ->
  match r with
  | None => BulkString None
  | Some e =>
      match data (value e) with
      | VInt i => BulkString (Some (i64_to_string i))
      | VString s => BulkString (Some s)
      | _ => protocol_error WrongType
      end
  end = pget pr.
Proof. intros Hr. unfold pget. read_law Hr; by subst. Qed.

#[global] Instance get_laws : ReadLaws GetParams.
Proof. constructor. intros cmd h r pr Hh Hr. by apply (get_reply h). Qed.

#[global] Instance mget_laws : MultiReadLaws MgetParams.
Proof.
  constructor. intros cmd h rs prs Hh Hr. cbn. unfold mget_execute. do 2 f_equal.
  induction Hr as [|r pr rs prs H1 H2 IH]; [done|]. rewrite !fmap_cons, IH. f_equal. by apply (get_reply h).
Qed.

#[global] Instance strlen_laws : ReadLaws StrLenParams.
Proof. constructor. intros cmd h r pr Hh Hr. cbn. unfold strlen_execute. read_law Hr; by subst. Qed.

(** ** The composed commands on the plain store *)

Section SpecString.
Context (now wc n : Z).

Definition spec_set (s : PStore) (k v : bytes) (ex : Z) : PStore :=
  (spec_compute now wc n s (mkSetReq k v ex)).1.

Definition pold (e : option (Entry PValue)) : Value := BulkString (let* x := e in pbytes (pdata (e_value x))).

(** SET: NX needs the key absent, XX needs it present; KEEPTTL keeps the
    deadline; GET answers with the old string. *)
Definition spec_redis_set (s : PStore) (params : SetParams) : PStore * Value :=
  let k := sp_key params in
  match s !! Z.to_nat n with
  | None =>
      match sp_expiration params, sp_mode params, sp_get params with
      | Some KeepTTL, _, _ | _, Some _, _ | _, _, true => (s, protocol_error DbNotExist)
      | _, _, _ => (s, value_ok)
      end
  | Some m =>
      let e := m !! k in
      let ex := match sp_expiration params with
                | Some KeepTTL => default 0 (let* x := e in e_expire_at x)
                | o => expires_at wc o
                end in
      match sp_mode params, e with
      | Some SetNx, Some _ | Some SetXx, None => (s, if sp_get params then pold e else BulkString None)
      | _, _ => (spec_set s k (sp_value params) ex, if sp_get params then pold e else value_ok)
      end
  end.

Definition spec_redis_setnx (s : PStore) (params : SetNxParams) : PStore * Value :=
  match s !! Z.to_nat n with
  | None => (s, protocol_error DbNotExist)
  | Some m =>
      match m !! snx_key params with
      | Some _ => (s, BulkString None)
      | None => (spec_set s (snx_key params) (snx_value params) 0, value_ok)
      end
  end.

Definition spec_redis_setex (s : PStore) (params : SetExParams) : PStore * Value :=
  (spec_set s (sex_key params) (sex_value params)
     (wrap_u64 (wc + wrap_u64 (sex_expiration params * 1000))), value_ok).

Definition spec_redis_psetex (s : PStore) (params : PSetExParams) : PStore * Value :=
  (spec_set s (psex_key params) (psex_value params) (wrap_u64 (wc + psex_expiration params)), value_ok).

Definition spec_redis_get_set (s : PStore) (params : GetSetParams) : PStore * Value :=
  match s !! Z.to_nat n with
  | None => (s, protocol_error DbNotExist)
  | Some m =>
      match (let* x := m !! gs_key params in Some (pbytes (pdata (e_value x)))) with
      | Some None => (s, protocol_error WrongType)
      | old => (spec_set s (gs_key params) (gs_value params) 0, BulkString (let* o := old in o))
      end
  end.

Definition spec_redis_mset (s : PStore) (params : MsetParams) : PStore * Value :=
  (foldl (fun s kv => spec_set s kv.1 kv.2 0) s (mset_pairs params), value_ok).

End SpecString.

Section RefineString.
Context (c : MyCache) (u : Update).
Hypothesis Hc : CacheInv c.
Hypothesis Hwc : is_u64 (write_clock u).
Hypothesis Hu : applies (update_type u).
Let now := write_logic_clock c.
Let n := db_number u.

Lemma set_refines c1 k v ex r : CacheInv c1 -> abs c1 = abs c -> write_logic_clock c1 = now -> is_u64 ex ->
  refines c u (let '(c', u', _) := set c1 (mkSetReq k v ex) u in (c', u', r))
    (spec_set now (write_clock u) n (abs c) k v ex, r).
Proof.
  intros Hc1 Ha Hclk Hex. apply (refines_after c c1); [done|].
  unfold spec_set. rewrite <- Ha, <- Hclk. apply refines_reply.
  by apply execute_compute_refines.
Qed.

Lemma existing_key_spec h r pr : abs_read h r pr ->
  existing_key r =
    match pr with
    | None => EkNone
    | Some e => match pbytes (pdata (value e)) with Some s => EkData s | None => EkOtherType end
    end.
Proof. intros Hr. unfold existing_key. read_law Hr; by subst. Qed.

Lemma expires_at_u64 e : (forall t, e = Some (PxAt t) -> is_u64 t) -> is_u64 (expires_at (write_clock u) e).
Proof.
  intros Ht. destruct e as [[]|]; cbn; eauto with rust; unfold is_u64; lia.
Qed.

Lemma redis_setnx_refines params :
  refines c u (redis_setnx c params u) (spec_redis_setnx now (write_clock u) n (abs c) params).
Proof.
  unfold redis_setnx, spec_redis_setnx.
  destruct (get_cache_spec c (db_number u)) as [(db & -> & Hdb & Hab)|[-> Hab]]; fold n in Hab; rewrite Hab.
  2: { by apply refines_same. }
  pose proof (lookup_entry_spec c (db_number u) db (snx_key params) Hc Hdb) as Hl.
  destruct (lookup_entry c (db_number u) db (snx_key params)) as [c1 r].
  destruct Hl as (Hc1 & Ha & _ & Hclk & _ & Hr). rewrite (existing_key_spec _ _ _ Hr).
  destruct (abs_db _ _ db !! snx_key params) as [e|]; cbn.
  - destruct (pbytes _); by apply refines_same.
  - by apply set_refines.
Qed.

Lemma redis_setex_refines params :
  refines c u (redis_setex c params u) (spec_redis_setex now (write_clock u) n (abs c) params).
Proof. apply set_refines; eauto with rust. Qed.

Lemma redis_psetex_refines params :
  refines c u (redis_psetex c params u) (spec_redis_psetex now (write_clock u) n (abs c) params).
Proof. apply set_refines; eauto with rust. Qed.

Lemma redis_get_set_refines params :
  refines c u (redis_get_set c params u) (spec_redis_get_set now (write_clock u) n (abs c) params).
Proof.
  unfold redis_get_set, spec_redis_get_set.
  destruct (get_cache_spec c (db_number u)) as [(db & -> & Hdb & Hab)|[-> Hab]]; fold n in Hab; rewrite Hab.
  2: { by apply refines_same. }
  pose proof (lookup_entry_spec c (db_number u) db (gs_key params) Hc Hdb) as Hl.
  destruct (lookup_entry c (db_number u) db (gs_key params)) as [c1 r].
  destruct Hl as (Hc1 & Ha & _ & Hclk & _ & Hr). rewrite (existing_key_spec _ _ _ Hr).
  destruct (abs_db _ _ db !! gs_key params) as [e|]; cbn.
  - destruct (pbytes (pdata (e_value e))); [by apply set_refines|by apply refines_same].
  - by apply set_refines.
Qed.

(** The existence test of SET, for a plain entry. *)
Definition ek_of (e : option (Entry PValue)) : ExistingKey :=
  match e with
  | None => EkNone
  | Some x => match pbytes (pdata (e_value x)) with Some s => EkData s | None => EkOtherType end
  end.

Lemma old_value_spec e : old_value (ek_of e) = pold e.
Proof. unfold pold. destruct e as [x|]; [|done]. cbn. by destruct (pbytes _). Qed.

Lemma redis_set_finish_refines c1 params ex e : CacheInv c1 -> abs c1 = abs c ->
  write_logic_clock c1 = now -> is_u64 ex ->
  refines c u (redis_set_finish c1 params u ex (ek_of e))
    (match sp_mode params, e with
     | Some SetNx, Some _ | Some SetXx, None => (abs c, if sp_get params then pold e else BulkString None)
     | _, _ =>
         (spec_set now (write_clock u) n (abs c) (sp_key params) (sp_value params) ex,
          if sp_get params then pold e else value_ok)
     end).
Proof.
  intros Hc1 Ha Hclk Hex. unfold redis_set_finish. rewrite old_value_spec.
  assert (Hset : forall r, refines c u
    (let '(c', u', _) := set c1 (mkSetReq (sp_key params) (sp_value params) ex) u in (c', u', r))
    (spec_set now (write_clock u) n (abs c) (sp_key params) (sp_value params) ex, r)) by (by intros; apply set_refines).
  assert (Hsame : forall r, refines c u (c1, u, r) (abs c, r)) by (by intros; apply refines_same).
  destruct (sp_mode params) as [[]|]; destruct e as [x|]; cbn [ek_of]; try (by apply Hset).
  - destruct (pbytes _); apply Hsame.
  - destruct (pbytes _); apply Hset.
  - replace (if sp_get params then pold None else BulkString None) with (BulkString None); [apply Hsame|].
    by destruct (sp_get params).
Qed.

(** What SET leaves and answers, given the entry [e] of its key. *)
Definition spec_set_finish (params : SetParams) (ex : Z) (e : option (Entry PValue)) : PStore * Value :=
  match sp_mode params, e with
  | Some SetNx, Some _ | Some SetXx, None => (abs c, if sp_get params then pold e else BulkString None)
  | _, _ =>
      (spec_set now (write_clock u) n (abs c) (sp_key params) (sp_value params) ex,
       if sp_get params then pold e else value_ok)
  end.

Lemma redis_set_plain c1 params ex k : CacheInv c1 -> abs c1 = abs c -> write_logic_clock c1 = now ->
  is_u64 ex -> set_asks params = false ->
  refines c u (redis_set_finish c1 params u ex k)
    (spec_set now (write_clock u) n (abs c) (sp_key params) (sp_value params) ex, value_ok).
Proof.
  unfold set_asks, redis_set_finish. intros Hc1 Ha Hclk Hex Hask.
  destruct (sp_mode params); [done|]. cbn in Hask. rewrite Hask. by apply set_refines.
Qed.

Lemma redis_set_check_refines c1 params ex k m : CacheInv c1 -> abs c1 = abs c ->
  write_logic_clock c1 = now -> is_u64 ex -> abs c !! Z.to_nat n = Some m ->
  (k = EkNone \/ k = ek_of (m !! sp_key params)) ->
  refines c u (redis_set_check c1 params u ex k) (spec_set_finish params ex (m !! sp_key params)).
Proof.
  intros Hc1 Ha Hclk Hex Hm Hk. unfold redis_set_check.
  assert (Hcase : k = EkNone \/ k <> EkNone) by (destruct k; auto).
  destruct Hcase as [->|Hne].
  - destruct (set_asks params) eqn:Hask.
    + destruct (get_cache_spec c1 (db_number u)) as [(db & -> & Hdb & Hab)|[_ Hab]];
        [|unfold n in Hm; congruence].
      pose proof (lookup_entry_spec c1 (db_number u) db (sp_key params) Hc1 Hdb) as Hl.
      destruct (lookup_entry c1 (db_number u) db (sp_key params)) as [c2 r].
      destruct Hl as (Hc2 & Ha2 & _ & Hclk2 & _ & Hr). rewrite (existing_key_spec _ _ _ Hr).
      rewrite Ha in Hab. fold n in Hab. rewrite Hm in Hab. injection Hab as ->.
      replace (match _ with None => EkNone | _ => _ end) with
        (ek_of (abs_db (write_logic_clock c1) (heap c1) db !! sp_key params)) by (by destruct (_ !! sp_key params)).
      apply redis_set_finish_refines; congruence.
    + replace (spec_set_finish params ex (m !! sp_key params)) with
        (spec_set now (write_clock u) n (abs c) (sp_key params) (sp_value params) ex, value_ok);
        [by apply redis_set_plain|].
      unfold set_asks in Hask. unfold spec_set_finish. destruct (sp_mode params); [done|]. by cbn in Hask; rewrite Hask.
  - destruct Hk as [->| ->]; [done|]. pose proof (redis_set_finish_refines c1 params ex (m !! sp_key params) Hc1 Ha Hclk Hex).
    by destruct (ek_of (m !! sp_key params)).
Qed.

(** SET with KEEPTTL, in an existing database. *)
Lemma redis_set_keepttl params db : get_db c n = Some db ->
  let e := abs_db now (heap c) db !! sp_key params in
  refines c u
    (let '(c1, r) := lookup_entry c n db (sp_key params) in
     redis_set_check c1 params u (match r with Some v => default 0 (expire_at v) | None => 0 end) (existing_key r))
    (spec_set_finish params (default 0 (let* x := e in e_expire_at x)) e).
Proof.
  intros Hdb e. pose proof (lookup_entry_spec c n db (sp_key params) Hc Hdb) as Hl.
  destruct (lookup_entry c n db (sp_key params)) as [c1 r].
  destruct Hl as (Hc1 & Ha & _ & Hclk & _ & Hr). fold now e in Hr.
  replace (match r with Some v => default 0 (expire_at v) | None => 0 end) with
    (default 0 (let* x := e in e_expire_at x)).
  2: { destruct e as [x|], r as [v|]; try done. cbn in *.
       unfold abs_snapshot in Hr. destruct (abs_value _ _); [|done]. injection Hr. cbn. congruence. }
  apply redis_set_check_refines; try done.
  - destruct e as [x|] eqn:Ex; cbn; [|unfold is_u64; lia]. unfold e in Ex.
    rewrite abs_db_lookup in Ex. destruct (live now (map_ db) !! sp_key params) as [e'|] eqn:El; [|done].
    cbn in Ex. unfold abs_entry in Ex. destruct (abs_value _ _); [|done]. injection Ex as <-. cbn.
    destruct (e_expire_at e') as [a|] eqn:Ea; cbn; [|unfold is_u64; lia].
    refine (inv_deadline c Hc (Z.to_nat n) _ e' a _ Ea). by exists db.
  - by apply get_db_abs.
  - right. fold e. rewrite (existing_key_spec _ _ _ Hr). by destruct e.
Qed.

Lemma redis_set_refines params : (forall t, sp_expiration params = Some (PxAt t) -> is_u64 t) ->
  refines c u (redis_set c params u) (spec_redis_set now (write_clock u) n (abs c) params).
Proof.
  intros Ht. pose proof (expires_at_u64 (sp_expiration params) Ht) as Hex.
  unfold redis_set, spec_redis_set.
  destruct (get_cache_spec c (db_number u)) as [(db & Eget & Hdb & Hab)|[Eget Hab]]; fold n in Hab; rewrite Hab.
  - pose proof (redis_set_check_refines c params (expires_at (write_clock u) (sp_expiration params)) EkNone _
      Hc eq_refl eq_refl Hex Hab (or_introl eq_refl)) as Hchk.
    destruct (sp_expiration params) as [[]|]; try exact Hchk. rewrite Eget. by apply redis_set_keepttl.
  - rewrite Eget. unfold redis_set_check, redis_set_finish, set_asks. rewrite Eget.
    assert (Hset : forall ex, set c (mkSetReq (sp_key params) (sp_value params) ex) u = (c, u, key_not_found)).
    { intros. unfold set, execute_compute. unfold get_cache in Eget. by destruct (get_db c (db_number u)). }
    destruct (sp_expiration params) as [[]|], (sp_mode params) as [[]|], (sp_get params); cbn;
      rewrite ?Hset; by apply refines_same.
Qed.

Lemma redis_mset_refines params :
  refines c u (redis_mset c params u) (spec_redis_mset now (write_clock u) n (abs c) params).
Proof.
  unfold redis_mset, spec_redis_mset. cbn [mset_pairs]. generalize (mset_pairs params) as pairs.
  intros pairs. enough (H : forall c0 u0, CacheInv c0 -> write_logic_clock c0 = now -> same_update u u0 ->
    let '(c', u') := mset_loop c0 pairs u0 in
    CacheInv c' /\ write_logic_clock c' = now /\ same_update u u' /\
    abs c' = foldl (fun s kv => spec_set now (write_clock u) n s kv.1 kv.2 0) (abs c0) pairs).
  { specialize (H c u Hc eq_refl (same_update_refl u)). destruct (mset_loop c pairs u) as [c' u'].
    destruct H as (? & ? & ? & ?). by split_and!. }
  induction pairs as [|[k v] pairs IH]; intros c0 u0 Hc0 Hclk Hsu; [by split_and!|]. cbn [mset_loop foldl].
  pose proof Hsu as (En & Ewc & _).
  assert (Hr : refines c0 u0 (set c0 (mkSetReq k v 0) u0) (spec_compute (write_logic_clock c0) (write_clock u0) (db_number u0) (abs c0) (mkSetReq k v 0))).
  { apply execute_compute_refines; [done|cbn; unfold is_u64; lia|congruence|by eapply same_update_applies]. }
  destruct (set c0 (mkSetReq k v 0) u0) as [[c1 u1] r1]. destruct Hr as (Hc1 & Ha1 & _ & Hclk1 & Hsu1).
  specialize (IH c1 u1 Hc1 ltac:(congruence) (same_update_trans _ _ _ Hsu Hsu1)).
  destruct (mset_loop c1 pairs u1) as [c2 u2]. destruct IH as (? & ? & ? & Ha). split_and!; [done..|].
  rewrite Ha, Ha1, Hclk, En, Ewc. done.
Qed.
End RefineString.
