(* ===== verification/KeyCmd.v ===== *)
(** * KeyCmd: the commands on keys.

    Models src/cache_cat/src/protocol/key (DEL, UNLINK, EXPIRE, PEXPIRE,
    PERSIST, RENAME, RENAMENX, FLUSHDB, FLUSHALL, EXISTS, TYPE, TTL, PTTL, KEYS,
    DBSIZE) and src/cache_cat/src/raft/types/core/cache/key.rs. *)

From S2P Require Import Prelude Text F64 Reply Args SortedSet Mocha Ops Store Refine.

(** ** Parsers *)

Definition del_request (items : list Value) : parsed Operation :=
  if argc items <? 2 then Err (WrongArgCount (str "del"))
  else
    let? keys := strings_from items 1 (WrongArgCount (str "del")) in
    Ok (match keys with
        | [k] => Base (Del (mkDelReq k))
        | _ => Redis (RedisDel (mkDelParams keys))
        end).

Definition unlink_request (items : list Value) : parsed Operation :=
  if argc items <? 2 then Err (WrongArgCount (str "unlink"))
  else
    let? keys := strings_from items 1 (WrongArgCount (str "unlink")) in
    Ok (match keys with
        | [k] => Base (Unlink (mkUnlinkReq k))
        | _ => Redis (RedisUnlink (mkUnlinkParams keys))
        end).

(** The optional condition of EXPIRE and PEXPIRE, which follows the time. *)
Definition parse_condition (items : list Value) (cmd : bytes) : parsed (option ExpireCondition) :=
  if 4 <=? argc items then
    let? flag := ok_or (upper_flag (item items 3)) (WrongArgCount cmd) in
    if is_word flag "NX" then Ok (Some ExNx)
    else if is_word flag "XX" then Ok (Some ExXx)
    else if is_word flag "GT" then Ok (Some ExGt)
    else if is_word flag "LT" then Ok (Some ExLt)
    else Err SyntaxError
  else Ok None.

Definition expire_request (items : list Value) : parsed Operation :=
  if argc items <? 3 then Err (WrongArgCount (str "expire"))
  else
    let? key := string_item items 1 (str "key") in
    let? seconds := try_parse_u64 (item items 2) in
    let? condition := parse_condition items (str "expire") in
    Ok (Base (Expire (mkExpireReq key seconds condition))).

Definition pexpire_request (items : list Value) : parsed Operation :=
  if argc items <? 3 then Err (WrongArgCount (str "pexpire"))
  else
    let? key := string_item items 1 (str "key") in
    let? milliseconds := try_parse_u64 (item items 2) in
    let? condition := parse_condition items (str "pexpire") in
    Ok (Base (PExpire (mkPExpireReq key milliseconds condition))).

Definition persist_request (items : list Value) : parsed Operation :=
  if negb (argc items =? 2) then Err (WrongArgCount (str "persist"))
  else let? key := string_item items 1 (str "key") in Ok (Base (Persist (mkPersistReq key))).

Definition rename_request (items : list Value) : parsed Operation :=
  if negb (argc items =? 3) then Err (WrongArgCount (str "rename"))
  else
    let? key := string_item items 1 (str "rename") in
    let? new_key := string_item items 2 (str "rename") in
    Ok (Redis (RedisRename (mkRenameParams key new_key))).

Definition renamenx_request (items : list Value) : parsed Operation :=
  if negb (argc items =? 3) then Err (WrongArgCount (str "renamenx"))
  else
    let? key := string_item items 1 (str "renamenx") in
    let? new_key := string_item items 2 (str "renamenx") in
    Ok (Redis (RedisRenameNx (mkRenameNxParams key new_key))).

(** The ASYNC or SYNC word of FLUSHDB and FLUSHALL. *)
Definition parse_async (items : list Value) (cmd : bytes) : parsed bool :=
  if ((argc items =? 0) || (2 <? argc items))%bool then Err (WrongArgCount cmd)
  else if argc items =? 2 then
    match string_bytes_clone (item items 1) with
    | Some arg =>
        let arg_upper := to_uppercase (lossy_chars arg) in
        if is_word arg_upper "ASYNC" then Ok true
        else if is_word arg_upper "SYNC" then Ok false
        else Err SyntaxError
    | None => Err SyntaxError
    end
  else Ok false.

Definition flushdb_request (items : list Value) : parsed Operation :=
  let? async_mode := parse_async items (str "flushdb") in Ok (Base (FlushDB (mkFlushDBReq async_mode))).

Definition flushall_request (items : list Value) : parsed Operation :=
  let? async_mode := parse_async items (str "flushall") in Ok (Base (FlushAll (mkFlushAllReq async_mode))).

Definition exists_operation (items : list Value) : parsed ReadOperation :=
  if argc items <? 2 then Err (WrongArgCount (str "exists"))
  else
    let? keys := strings_from items 1 (WrongArgCount (str "exists")) in
    Ok (RExists (mkExistsParams keys)).

Definition type_operation (items : list Value) : parsed ReadOperation :=
  if negb (argc items =? 2) then Err (WrongArgCount (str "type"))
  else let? key := string_item items 1 (str "key") in Ok (RType (mkTypeParams key)).

Definition ttl_operation (items : list Value) : parsed ReadOperation :=
  if negb (argc items =? 2) then Err (WrongArgCount (str "ttl"))
  else let? key := string_item items 1 (str "key") in Ok (RTtl (mkTtlParams key)).

Definition pttl_operation (items : list Value) : parsed ReadOperation :=
  if negb (argc items =? 2) then Err (WrongArgCount (str "pttl"))
  else let? key := string_item items 1 (str "key") in Ok (RPTtl (mkPTtlParams key)).

Definition keys_operation (items : list Value) : parsed ReadOperation :=
  if negb (argc items =? 2) then Err (WrongArgCount (str "KEYS"))
  else let? pattern := string_item items 1 (str "pattern") in Ok (RKeys (mkKeysParams pattern)).

Definition dbsize_operation (items : list Value) : parsed ReadOperation :=
  if negb (argc items =? 1) then Err (WrongArgCount (str "DBSIZE"))
  else Ok (RDbSize (mkDbsizeParams [])).

(** ** Deadlines *)

(** EXPIRE and PEXPIRE differ in the unit of the time. *)
Definition should_update (condition : option ExpireCondition) (old : option Z) (new : Z) : bool :=
  match condition with
  | None => true
  | Some ExNx => match old with None => true | Some _ => false end
  | Some ExXx => match old with None => false | Some _ => true end
  | Some ExGt => match old with None => false | Some expire => expire <? new end
  | Some ExLt => match old with None => true | Some expire => new <? expire end
  end.

Definition set_deadline (condition : option ExpireCondition) (new : Z) (entry : EntrySnapshot MyValue) (h : Heap)
    : mutation :=
  if should_update condition (expire_at entry) new
  then (h, (MInsert (value entry) (Absolute new), Boolean true))
  else (h, (MAbort, Boolean false)).

Definition expire_mutate (cmd : ExpireReq) (entry : EntrySnapshot MyValue) (write_clock : Z) (h : Heap) : mutation :=
  set_deadline (ex_condition cmd) (wrap_u64 (wrap_u64 (ex_expires_at cmd * 1000) + write_clock)) entry h.
Definition expire_init (cmd : ExpireReq) (h : Heap) : mutation := (h, (MAbort, Boolean false)).

#[global] Instance expire_compute : ComputeCommand ExpireReq := {
  key := ex_key; into_base_op := Expire; mutate := expire_mutate; init := expire_init
}.

Definition pexpire_mutate (cmd : PExpireReq) (entry : EntrySnapshot MyValue) (write_clock : Z) (h : Heap) : mutation :=
  set_deadline (pex_condition cmd) (wrap_u64 (pex_expires_at cmd + write_clock)) entry h.
Definition pexpire_init (cmd : PExpireReq) (h : Heap) : mutation := (h, (MAbort, Boolean false)).

#[global] Instance pexpire_compute : ComputeCommand PExpireReq := {
  key := pex_key; into_base_op := PExpire; mutate := pexpire_mutate; init := pexpire_init
}.

Definition persist_mutate (cmd : PersistReq) (entry : EntrySnapshot MyValue) (write_clock : Z) (h : Heap) : mutation :=
  match expire_at entry with
  | None => (h, (MAbort, Boolean false))
  | Some _ => (h, (MInsert (value entry) Persistent, Boolean true))
  end.
Definition persist_init (cmd : PersistReq) (h : Heap) : mutation := (h, (MAbort, Boolean false)).

#[global] Instance persist_compute : ComputeCommand PersistReq := {
  key := persist_key; into_base_op := Persist; mutate := persist_mutate; init := persist_init
}.

(** ** INSERT, which RENAME uses: the collection is shared, not copied *)

Definition ins_expire (cmd : InsertReq) : ExpirePolicy :=
  if ins_expires_at cmd =? 0 then Persistent else Absolute (ins_expires_at cmd).

Definition insert_mutate (cmd : InsertReq) (entry : EntrySnapshot MyValue) (write_clock : Z) (h : Heap) : mutation :=
  (h, (MInsert (mkMyValue (wrap_u32 (version (value entry) + 1)) (ins_value cmd)) (ins_expire cmd), value_ok)).
Definition insert_init (cmd : InsertReq) (h : Heap) : mutation :=
  (h, (MInsert (mkMyValue 1 (ins_value cmd)) (ins_expire cmd), value_ok)).

#[global] Instance insert_compute : ComputeCommand InsertReq := {
  key := ins_key; into_base_op := Insert; mutate := insert_mutate; init := insert_init
}.

(** ** Reads *)

Definition exists_execute (cmd : ExistsParams) (h : Heap) (vs : list (option (EntrySnapshot MyValue))) : Value :=
  Integer (Z.of_nat (length (filter is_Some vs))).

#[global] Instance exists_read : MultiReadCommand ExistsParams := {
  rkeys := exists_keys; multi_execute := exists_execute
}.

Definition value_object_to_type_string (v : ValueObject) : bytes :=
  match v with
  | VString _ => str "string"
  | VInt _ => str "string"
  | VList _ => str "list"
  | VSet _ => str "set"
  | VZSet _ => str "zset"
  | VHash _ => str "hash"
  end.

Definition type_execute (cmd : TypeParams) (h : Heap) (v : option (EntrySnapshot MyValue)) : Value :=
  match v with
  | None => SimpleString (str "none")
  | Some e => SimpleString (value_object_to_type_string (data (value e)))
  end.

#[global] Instance type_read : ReadCommand TypeParams := { rkey := type_key; execute := type_execute }.

(** [u64::div_ceil]. *)
Definition div_ceil (a b : Z) : Z := if 0 <? a mod b then a / b + 1 else a / b.

Section KeyReads.
Context `{Env}.

Definition ttl_execute (cmd : TtlParams) (h : Heap) (v : option (EntrySnapshot MyValue)) : Value :=
  match v with
  | None => Integer (-2)
  | Some e =>
      match expire_at e with
      | None => Integer (-1)
      | Some expire_at =>
          let ttl_ms := wrap_u64 (expire_at - now_ms) in
          Integer (u64_as_i64 (div_ceil ttl_ms 1000))
      end
  end.

#[global] Instance ttl_read : ReadCommand TtlParams := { rkey := ttl_key; execute := ttl_execute }.

Definition pttl_execute (cmd : PTtlParams) (h : Heap) (v : option (EntrySnapshot MyValue)) : Value :=
  match v with
  | None => Integer (-2)
  | Some e =>
      match expire_at e with
      | None => Integer (-1)
      | Some expire_at => Integer (u64_as_i64 (wrap_u64 (expire_at - now_ms)))
      end
  end.

#[global] Instance pttl_read : ReadCommand PTtlParams := { rkey := pttl_key; execute := pttl_execute }.

(** KEYS, whose pattern can panic the matcher. *)
Definition cache_keys (c : MyCache) (param : KeysParams) (n : Z) (read_clock : option Z) : outcome Value :=
  match get_cache c n with
  | Err err => Ret err
  | Ok db =>
      match keys (db_iter (map_ db)) (write_logic_clock c) (keys_pattern param) read_clock with
      | Ret ks => Ret (Array (Some (bulk <$> ks)))
      | Panic => Panic
      | OutOfFuel => OutOfFuel
      end
  end.

End KeyReads.

Definition dbsize (c : MyCache) (n : Z) : Value :=
  match get_cache c n with
  | Err err => err
  | Ok db => Integer (len db)
  end.

(** ** The cache methods *)

Definition persist (c : MyCache) (param : PersistReq) (u : Update) := execute_compute c param u.
Definition expire (c : MyCache) (param : ExpireReq) (u : Update) := execute_compute c param u.
Definition p_expire (c : MyCache) (param : PExpireReq) (u : Update) := execute_compute c param u.
Definition insert_req (c : MyCache) (param : InsertReq) (u : Update) := execute_compute c param u.

Definition of_bool (b : bool) : Value := Integer (if b then 1 else 0).

(** The version DEL and UNLINK queue while a snapshot is written. *)
Definition queued_version (r : option MyValue) : Z :=
  match r with
  | Some v => wrap_u32 (version v + 1)
  | None => 1
  end.

Definition del (c : MyCache) (req : DelReq) (u : Update) : MyCache * Update * Value :=
  let n := db_number u in
  match get_cache c n with
  | Err err => (c, u, err)
  | Ok db =>
      let now := write_logic_clock c in
      let k := del_key req in
      match update_type u with
      | UNone =>
          let '(db1, existed) := remove now db k in
          (put_db c n db1 (heap c), u, of_bool (bool_decide (is_Some existed)))
      | Snapshot _ =>
          let '(db0, r) := get now db k in
          let u' := push_request u (mkAtomicRequest (Del req) (queued_version r) (write_clock u)) in
          let '(db1, existed) := remove now db0 k in
          (put_db c n db1 (heap c), u', of_bool (bool_decide (is_Some existed)))
      | CAS cas_version =>
          let '(db0, r) := get now db k in
          match r with
          | Some v =>
              if version v =? wrap_u32 (cas_version - 1)
              then (put_db c n (remove now db0 k).1 (heap c), u, Integer 1)
              else (put_db c n db0 (heap c), u, Integer 0)
          | None => (put_db c n db0 (heap c), u, Integer 0)
          end
      end
  end.

Definition unlink_method (c : MyCache) (req : UnlinkReq) (u : Update) : MyCache * Update * Value :=
  let n := db_number u in
  match get_cache c n with
  | Err err => (c, u, err)
  | Ok db =>
      let now := write_logic_clock c in
      let k := unlink_key req in
      match update_type u with
      | UNone =>
          let '(db1, existed) := unlink now db k in
          (put_db c n db1 (heap c), u, of_bool existed)
      | Snapshot _ =>
          let '(db0, r) := get now db k in
          let u' := push_request u (mkAtomicRequest (Unlink req) (queued_version r) (write_clock u)) in
          let '(db1, existed) := unlink now db0 k in
          (put_db c n db1 (heap c), u', of_bool existed)
      | CAS cas_version =>
          let '(db0, r) := get now db k in
          match r with
          | Some v =>
              if version v =? wrap_u32 (cas_version - 1)
              then (put_db c n (remove now db0 k).1 (heap c), u, Integer 1)
              else (put_db c n db0 (heap c), u, Integer 0)
          | None => (put_db c n db0 (heap c), u, Integer 0)
          end
      end
  end.

(** The loops of multi-key DEL and UNLINK: the first error ends them. *)
Fixpoint del_loop (c : MyCache) (keys : list bytes) (u : Update) (count : Z) : MyCache * Update * Value :=
  match keys with
  | [] => (c, u, Integer count)
  | k :: keys' =>
      let '(c1, u1, r) := del c (mkDelReq k) u in
      match r with
      | Error err => (c1, u1, Error err)
      | Integer num => del_loop c1 keys' u1 (wrap_i64 (count + num))
      | _ => del_loop c1 keys' u1 count
      end
  end.

Definition redis_del (c : MyCache) (params : DelParams) (u : Update) : MyCache * Update * Value :=
  del_loop c (dp_keys params) u 0.

Fixpoint unlink_keys_loop (c : MyCache) (keys : list bytes) (u : Update) (count : Z) : MyCache * Update * Value :=
  match keys with
  | [] => (c, u, Integer count)
  | k :: keys' =>
      let '(c1, u1, r) := unlink_method c (mkUnlinkReq k) u in
      match r with
      | Error err => (c1, u1, Error err)
      | Integer num => unlink_keys_loop c1 keys' u1 (wrap_i64 (count + num))
      | _ => unlink_keys_loop c1 keys' u1 count
      end
  end.

Definition redis_unlink (c : MyCache) (params : UnlinkParams) (u : Update) : MyCache * Update * Value :=
  unlink_keys_loop c (up_keys params) u 0.

(** Delete the old key and insert its value, shared, under the new one. *)
Definition move_key (c : MyCache) (old new : bytes) (v : EntrySnapshot MyValue) (u : Update) : MyCache * Update :=
  let '(c1, u1, _) := del c (mkDelReq old) u in
  let '(c2, u2, _) := insert_req c1 (mkInsertReq new (data (value v)) (default 0 (expire_at v))) u1 in
  (c2, u2).

Definition redis_rename (c : MyCache) (params : RenameParams) (u : Update) : MyCache * Update * Value :=
  match get_cache c (db_number u) with
  | Err err => (c, u, err)
  | Ok db =>
      let '(c1, r) := lookup_entry c (db_number u) db (rn_key params) in
      match r with
      | None => (c1, u, Error (str "no such key"))
      | Some v => let '(c2, u2) := move_key c1 (rn_key params) (rn_new_key params) v u in (c2, u2, value_ok)
      end
  end.

Definition redis_rename_nx (c : MyCache) (params : RenameNxParams) (u : Update) : MyCache * Update * Value :=
  match get_cache c (db_number u) with
  | Err err => (c, u, err)
  | Ok db =>
      let '(c1, r1) := lookup_entry c (db_number u) db (rnx_new_key params) in
      match r1, get_db c1 (db_number u) with
      | None, Some db1 =>
          let '(c2, r2) := lookup_entry c1 (db_number u) db1 (rnx_key params) in
          match r2 with
          | None => (c2, u, Error (str "no such key"))
          | Some v => let '(c3, u3) := move_key c2 (rnx_key params) (rnx_new_key params) v u in (c3, u3, Integer 1)
          end
      | _, _ => (c1, u, Integer 0)
      end
  end.

Definition flush_db (c : MyCache) (req : FlushDBReq) (u : Update) : MyCache * Update * Value :=
  match get_cache c (db_number u) with
  | Err err => (c, u, err)
  | Ok db =>
      (put_db c (db_number u) (clear db) (heap c),
       push_request u (mkAtomicRequest (FlushDB req) 1 (write_clock u)), value_ok)
  end.

Definition flush_all (c : MyCache) (req : FlushAllReq) (u : Update) : MyCache * Update * Value :=
  (mkMyCache (clear <$> databases c) (read_logic_clock c) (write_logic_clock c) (heap c),
   push_request u (mkAtomicRequest (FlushAll req) 1 (write_clock u)), value_ok).

(** ** The commands on plain values *)

Definition pset_deadline (condition : option ExpireCondition) (new : Z) (e : EntrySnapshot PValue)
    : MochaOperation PValue * Value :=
  if should_update condition (expire_at e) new
  then (MInsert (value e) (Absolute new), Boolean true)
  else (MAbort, Boolean false).

#[global] Instance expire_pure : PureCommand ExpireReq := {
  pmutate cmd e wc := pset_deadline (ex_condition cmd) (wrap_u64 (wrap_u64 (ex_expires_at cmd * 1000) + wc)) e;
  pinit _ := (MAbort, Boolean false)
}.
#[global] Instance pexpire_pure : PureCommand PExpireReq := {
  pmutate cmd e wc := pset_deadline (pex_condition cmd) (wrap_u64 (pex_expires_at cmd + wc)) e;
  pinit _ := (MAbort, Boolean false)
}.
#[global] Instance persist_pure : PureCommand PersistReq := {
  pmutate cmd e wc :=
    match expire_at e with
    | None => (MAbort, Boolean false)
    | Some _ => (MInsert (value e) Persistent, Boolean true)
    end;
  pinit _ := (MAbort, Boolean false)
}.

#[global] Instance exists_pure : PureMultiRead ExistsParams := {
  pmulti_read _ es r := r = Integer (Z.of_nat (length (filter is_Some es)))
}.

Definition ptype (d : PData) : bytes :=
  match d with
  | PInt _ | PString _ => str "string"
  | PList _ => str "list"
  | PHash _ => str "hash"
  | PZSet _ => str "zset"
  | PSet _ => str "set"
  end.

#[global] Instance type_pure : PureRead TypeParams := {
  pread _ e r := r = SimpleString (match e with None => str "none" | Some e => ptype (pdata (value e)) end)
}.

(** -2 for a missing key, -1 for a key without a deadline, otherwise what
    [remaining] makes of the deadline. *)
Definition pttl (remaining : Z -> Z) (e : option (EntrySnapshot PValue)) (r : Value) : Prop :=
  r = Integer
    (match e with
     | None => -2
     | Some e => match expire_at e with None => -1 | Some a => remaining a end
     end).

Section KeyLaws.
Context `{Env}.

#[global] Instance ttl_pure : PureRead TtlParams := {
  pread _ := pttl (fun a => u64_as_i64 (div_ceil (wrap_u64 (a - now_ms)) 1000))
}.
#[global] Instance pttl_pure : PureRead PTtlParams := {
  pread _ := pttl (fun a => u64_as_i64 (wrap_u64 (a - now_ms)))
}.

(** ** The laws *)

Lemma set_deadline_ok cond new e pv h : HeapInv h -> is_u64 new -> abs_value h (value e) = Some pv ->
  mutation_ok e pv h (set_deadline cond new e h) (pset_deadline cond new (mkEntrySnapshot pv (expire_at e))).
Proof.
  intros Hh Hnew Hpv. unfold set_deadline, pset_deadline. cbn [expire_at value].
  case_match; [by apply same_value_ok|by apply refuse_ok].
Qed.

#[global] Instance expire_laws : ComputeLaws ExpireReq.
Proof.
  apply (compute_laws (fun _ => True)).
  - intros cmd e pv wc h Hh _ _ He Hpv. apply set_deadline_ok; eauto with rust.
  - intros cmd h Hh _. by apply init_refuse_ok.
Defined.

#[global] Instance pexpire_laws : ComputeLaws PExpireReq.
Proof.
  apply (compute_laws (fun _ => True)).
  - intros cmd e pv wc h Hh _ _ He Hpv. apply set_deadline_ok; eauto with rust.
  - intros cmd h Hh _. by apply init_refuse_ok.
Defined.

#[global] Instance persist_laws : ComputeLaws PersistReq.
Proof.
  apply (compute_laws (fun _ => True)).
  - intros cmd e pv wc h Hh _ _ He Hpv. cbn. unfold persist_mutate.
    destruct (expire_at e); [by apply same_value_ok|by apply refuse_ok].
  - intros cmd h Hh _. by apply init_refuse_ok.
Defined.

#[global] Instance exists_laws : MultiReadLaws ExistsParams.
Proof.
  constructor. intros cmd h rs prs Hh Hr. cbn. unfold exists_execute. do 2 f_equal.
  induction Hr as [|r pr rs prs H1 H2 IH]; [done|]. rewrite !filter_cons.
  destruct r, pr; try done. rewrite !decide_True by eauto. cbn. by rewrite IH.
Qed.

#[global] Instance type_laws : ReadLaws TypeParams.
Proof. constructor. intros cmd h r pr Hh Hr. cbn. unfold type_execute. read_law Hr; done. Qed.

Lemma abs_read_expire h r pr : abs_read h r pr ->
  (let* e := r in Some (expire_at e)) = (let* e := pr in Some (expire_at e)).
Proof.
  destruct r as [e|], pr as [pe|]; cbn; try done. unfold abs_snapshot.
  destruct (abs_value h (value e)); [|done]. by intros [= <-].
Qed.

#[global] Instance ttl_laws : ReadLaws TtlParams.
Proof.
  constructor. intros cmd h r pr Hh Hr. apply abs_read_expire in Hr. cbn. unfold pttl, ttl_execute.
  destruct r as [e|], pr as [pe|]; try done. injection Hr as ->. by destruct (expire_at pe).
Qed.
#[global] Instance pttl_laws : ReadLaws PTtlParams.
Proof.
  constructor. intros cmd h r pr Hh Hr. apply abs_read_expire in Hr. cbn. unfold pttl, pttl_execute.
  destruct r as [e|], pr as [pe|]; try done. injection Hr as ->. by destruct (expire_at pe).
Qed.
End KeyLaws.

(** ** The composed commands on the plain store *)

Section SpecKey.
Context (now wc n : Z).

Definition spec_del (s : PStore) (k : bytes) : PStore * Value :=
  match s !! Z.to_nat n with
  | None => (s, protocol_error DbNotExist)
  | Some m => (<[Z.to_nat n := delete k m]> s, of_bool (bool_decide (is_Some (m !! k))))
  end.

(** DEL and UNLINK of several keys: all are deleted, the live ones counted. *)
Definition spec_del_many (s : PStore) (ks : list bytes) : PStore * Value :=
  match s !! Z.to_nat n, ks with
  | _, [] => (s, Integer 0)
  | None, _ => (s, protocol_error DbNotExist)
  | Some m, _ =>
      (<[Z.to_nat n := filter (fun kv : bytes * Entry PValue => kv.1 ∉ ks) m]> s,
       Integer (Z.of_nat (size (filter (fun kv : bytes * Entry PValue => kv.1 ∈ ks) m))))
  end.

(** The entry moves with its value and deadline; its version restarts, or
    follows the version of the entry it replaces. *)
Definition spec_move (m : gmap bytes (Entry PValue)) (old new : bytes) (e : Entry PValue)
    : gmap bytes (Entry PValue) :=
  let m1 := delete old m in
  let v := match m1 !! new with Some e' => wrap_u32 (pversion (e_value e') + 1) | None => 1 end in
  <[new := mkEntry (mkPValue v (pdata (e_value e))) (e_expire_at e)]> m1.

Definition spec_rename (s : PStore) (old new : bytes) : PStore * Value :=
  match s !! Z.to_nat n with
  | None => (s, protocol_error DbNotExist)
  | Some m =>
      match m !! old with
      | None => (s, Error (str "no such key"))
      | Some e => (<[Z.to_nat n := spec_move m old new e]> s, value_ok)
      end
  end.

Definition spec_rename_nx (s : PStore) (old new : bytes) : PStore * Value :=
  match s !! Z.to_nat n with
  | None => (s, protocol_error DbNotExist)
  | Some m =>
      match m !! new, m !! old with
      | Some _, _ => (s, Integer 0)
      | None, None => (s, Error (str "no such key"))
      | None, Some e => (<[Z.to_nat n := spec_move m old new e]> s, Integer 1)
      end
  end.

Definition spec_flush_db (s : PStore) : PStore * Value :=
  match s !! Z.to_nat n with
  | None => (s, protocol_error DbNotExist)
  | Some _ => (<[Z.to_nat n := ∅]> s, value_ok)
  end.

Definition spec_flush_all (s : PStore) : PStore * Value := ((fun _ => ∅) <$> s, value_ok).
End SpecKey.

Lemma remove_spec now (db : Mocha MyValue) k : MochaInv now db ->
  let '(db1, r) := remove now db k in
  MochaInv now db1 /\ live now (map_ db1) = delete k (live now (map_ db)) /\
  (is_Some r <-> is_Some (live now (map_ db) !! k)).
Proof.
  intros Hm. pose proof (call_simulates now db (CRemove k) I Hm) as Hs.
  unfold simulates in Hs. cbn [run_call spec_call] in Hs. unfold remove.
  destruct (remove_entry now db k) as [m' s]. destruct Hs as ([= ->] & ? & ?). split_and!; [done..|].
  by rewrite !fmap_is_Some.
Qed.

Lemma unlink_spec now (db : Mocha MyValue) k : MochaInv now db ->
  let '(db1, r) := unlink now db k in
  MochaInv now db1 /\ live now (map_ db1) = delete k (live now (map_ db)) /\
  r = bool_decide (is_Some (live now (map_ db) !! k)).
Proof.
  intros Hm. pose proof (call_simulates now db (CUnlink k) I Hm) as Hs.
  unfold simulates in Hs. cbn [run_call spec_call] in Hs.
  destruct (unlink now db k) as [m' s]. by destruct Hs as ([= ->] & ? & ?).
Qed.

Lemma get_spec now (db : Mocha MyValue) k : MochaInv now db ->
  let '(db1, r) := get now db k in
  MochaInv now db1 /\ live now (map_ db1) = live now (map_ db).
Proof.
  intros Hm. unfold get. pose proof (get_entry_spec now db k Hm) as Hg.
  destruct (get_entry now db k) as [db1 r]. by destruct Hg as (_ & ? & ?).
Qed.

Section RefineKey.
Context (c : MyCache) (u : Update).
Hypothesis Hc : CacheInv c.
Hypothesis Hu : applies (update_type u).
Let n := db_number u.

Lemma del_refines req : refines c u (del c req u) (spec_del n (abs c) (del_key req)).
Proof.
  unfold del, spec_del.
  destruct (get_cache_spec c (db_number u)) as [(db & -> & Hdb & Hab)|[-> Hab]]; fold n in Hab; rewrite Hab.
  2: { by apply refines_same. }
  set (now := write_logic_clock c) in *. pose proof (inv_mocha c Hc _ _ Hdb) as Hm.
  assert (Hrem : forall db0, MochaInv now db0 -> live now (map_ db0) = live now (map_ db) ->
    let '(db1, r) := remove now db0 (del_key req) in
    forall u', same_update u u' ->
    refines c u (put_db c n db1 (heap c), u', of_bool (bool_decide (is_Some r)))
      (<[Z.to_nat n := delete (del_key req) (abs_db now (heap c) db)]> (abs c),
       of_bool (bool_decide (is_Some (abs_db now (heap c) db !! del_key req))))).
  { intros db0 Hm0 Hl0. pose proof (remove_spec now db0 (del_key req) Hm0) as Hr.
    destruct (remove now db0 (del_key req)) as [db1 r]. destruct Hr as (Hm1 & Hl1 & Hr). intros u' Hsu.
    rewrite Hl0 in *. destruct (delete_key c n db db1 (del_key req) Hc Hdb Hm1 Hl1) as [? ?].
    split_and!; [done..| |done|done]. cbn. f_equal. apply bool_decide_ext.
    rewrite Hr. by apply (abs_db_some c n db). }
  destruct (update_type u) eqn:Et; [| |done].
  - specialize (Hrem db Hm eq_refl). destruct (remove now db (del_key req)). apply Hrem, same_update_refl.
  - pose proof (get_spec now db (del_key req) Hm) as Hg. destruct (get now db (del_key req)) as [db0 r0].
    destruct Hg as [Hm0 Hl0]. specialize (Hrem db0 Hm0 Hl0). destruct (remove now db0 (del_key req)).
    apply Hrem, same_update_push. by rewrite Et.
Qed.

Lemma unlink_refines req : refines c u (unlink_method c req u) (spec_del n (abs c) (unlink_key req)).
Proof.
  unfold unlink_method, spec_del.
  destruct (get_cache_spec c (db_number u)) as [(db & -> & Hdb & Hab)|[-> Hab]]; fold n in Hab; rewrite Hab.
  2: { by apply refines_same. }
  set (now := write_logic_clock c) in *. pose proof (inv_mocha c Hc _ _ Hdb) as Hm.
  assert (Hrem : forall db0, MochaInv now db0 -> live now (map_ db0) = live now (map_ db) ->
    let '(db1, r) := unlink now db0 (unlink_key req) in
    forall u', same_update u u' ->
    refines c u (put_db c n db1 (heap c), u', of_bool r)
      (<[Z.to_nat n := delete (unlink_key req) (abs_db now (heap c) db)]> (abs c),
       of_bool (bool_decide (is_Some (abs_db now (heap c) db !! unlink_key req))))).
  { intros db0 Hm0 Hl0. pose proof (unlink_spec now db0 (unlink_key req) Hm0) as Hr.
    destruct (unlink now db0 (unlink_key req)) as [db1 r]. destruct Hr as (Hm1 & Hl1 & ->). intros u' Hsu.
    rewrite Hl0 in *. destruct (delete_key c n db db1 (unlink_key req) Hc Hdb Hm1 Hl1) as [? ?].
    split_and!; [done..| |done|done]. cbn. f_equal. apply bool_decide_ext. by apply (abs_db_some c n db). }
  destruct (update_type u) eqn:Et; [| |done].
  - specialize (Hrem db Hm eq_refl). destruct (unlink now db (unlink_key req)). apply Hrem, same_update_refl.
  - pose proof (get_spec now db (unlink_key req) Hm) as Hg. destruct (get now db (unlink_key req)) as [db0 r0].
    destruct Hg as [Hm0 Hl0]. specialize (Hrem db0 Hm0 Hl0). destruct (unlink now db0 (unlink_key req)).
    apply Hrem, same_update_push. by rewrite Et.
Qed.

Lemma clear_inv now (db : Mocha MyValue) : MochaInv now db -> MochaInv now (clear db).
Proof. apply covered_shrink. intros k e. by rewrite lookup_empty. Qed.

Lemma abs_clear now h db : abs_db now h (clear db) = ∅.
Proof. unfold abs_db, clear. cbn. by rewrite live_empty, omap_empty. Qed.

Lemma live_clear now (db db' : Mocha MyValue) : live now (map_ (clear db)) ⊆ live now (map_ db').
Proof. cbn. rewrite live_empty. apply map_empty_subseteq. Qed.

Lemma flush_db_refines req : refines c u (flush_db c req u) (spec_flush_db n (abs c)).
Proof.
  unfold flush_db, spec_flush_db.
  destruct (get_cache_spec c (db_number u)) as [(db & -> & Hdb & Hab)|[-> Hab]]; fold n in Hab; rewrite Hab.
  2: { by apply refines_same. }
  split_and!; [| |done|done|by apply same_update_push].
  - apply shrink_inv; [done|]. rewrite <- (list_insert_id (databases c) (Z.to_nat (db_number u)) db) at 1 by done.
    apply Forall2_insert; [|split; [apply clear_inv, (inv_mocha c Hc _ _ Hdb)|apply live_clear]].
    apply Forall_Forall2_diag, Forall_lookup. intros i dbi Hi. split; [exact (inv_mocha c Hc _ _ Hi)|done].
  - unfold abs. cbn. by rewrite list_fmap_insert, abs_clear.
Qed.

Lemma flush_all_refines req : refines c u (flush_all c req u) (spec_flush_all (abs c)).
Proof.
  split_and!; [| |done|done|by apply same_update_push].
  - apply shrink_inv; [done|]. rewrite <- (list_fmap_id (databases c)) at 1.
    apply Forall2_fmap_2, Forall_Forall2_diag, Forall_lookup. intros i dbi Hi.
    split; [apply clear_inv; exact (inv_mocha c Hc _ _ Hi)|apply live_clear].
  - unfold abs, spec_flush_all. cbn. rewrite <- !list_fmap_compose. apply list_fmap_ext. intros i dbi _.
    cbn. apply abs_clear.
Qed.
End RefineKey.

(** *** Several keys *)

Lemma filter_not_cons (m : gmap bytes (Entry PValue)) k ks :
  filter (fun kv : bytes * Entry PValue => kv.1 ∉ k :: ks) m =
  filter (fun kv : bytes * Entry PValue => kv.1 ∉ ks) (delete k m).
Proof.
  apply map_eq. intros k'. apply option_eq. intros e.
  rewrite !map_lookup_filter_Some, lookup_delete_Some. cbn [fst]. rewrite not_elem_of_cons. naive_solver.
Qed.

Lemma filter_in_cons_size (m : gmap bytes (Entry PValue)) k ks :
  Z.of_nat (size (filter (fun kv : bytes * Entry PValue => kv.1 ∈ k :: ks) m)) =
  (if bool_decide (is_Some (m !! k)) then 1 else 0) +
  Z.of_nat (size (filter (fun kv : bytes * Entry PValue => kv.1 ∈ ks) (delete k m))).
Proof.
  case_bool_decide as E.
  - destruct E as [e Ee]. replace (filter _ m) with
      (<[k := e]> (filter (fun kv : bytes * Entry PValue => kv.1 ∈ ks) (delete k m))).
    + rewrite map_size_insert_None; [lia|]. apply map_lookup_filter_None. left. apply lookup_delete_eq.
    + apply map_eq. intros k'. apply option_eq. intros e'.
      rewrite lookup_insert_Some, !map_lookup_filter_Some, lookup_delete_Some. cbn [fst].
      rewrite elem_of_cons. destruct (decide (k = k')); naive_solver.
  - apply eq_None_not_Some in E. rewrite delete_id, Z.add_0_l by done. do 2 f_equal. apply map_filter_ext.
    intros k' e' He'. cbn [fst]. rewrite elem_of_cons. naive_solver.
Qed.

Lemma filter_in_size_le (m : gmap bytes (Entry PValue)) ks :
  Z.of_nat (size (filter (fun kv : bytes * Entry PValue => kv.1 ∈ ks) m)) <= Z.of_nat (length ks).
Proof.
  revert m. induction ks as [|k ks IH]; intros m.
  - replace (filter _ m) with (∅ : gmap bytes (Entry PValue)); [done|]. symmetry. apply map_empty. intros k. apply map_lookup_filter_None.
    right. intros e _. apply not_elem_of_nil.
  - rewrite filter_in_cons_size. specialize (IH (delete k m)). cbn. case_bool_decide; lia.
Qed.

(** A loop that deletes one key after the other and adds up the replies. *)
Section DelLoop.
Context (one : MyCache -> bytes -> Update -> MyCache * Update * Value).
Context (loop : MyCache -> list bytes -> Update -> Z -> MyCache * Update * Value).
Hypothesis Hone : forall c u k, CacheInv c -> applies (update_type u) ->
  refines c u (one c k u) (spec_del (db_number u) (abs c) k).
Hypothesis Hnil : forall c u count, loop c [] u count = (c, u, Integer count).
Hypothesis Hcons : forall c u k ks count, loop c (k :: ks) u count =
  let '(c1, u1, r) := one c k u in
  match r with
  | Error err => (c1, u1, Error err)
  | Integer num => loop c1 ks u1 (wrap_i64 (count + num))
  | _ => loop c1 ks u1 count
  end.

Lemma del_loop_live ks : forall c u count m, CacheInv c -> applies (update_type u) ->
  abs c !! Z.to_nat (db_number u) = Some m -> 0 <= count -> count + Z.of_nat (length ks) <= i64_max ->
  refines c u (loop c ks u count)
    (<[Z.to_nat (db_number u) := filter (fun kv : bytes * Entry PValue => kv.1 ∉ ks) m]> (abs c),
     Integer (count + Z.of_nat (size (filter (fun kv : bytes * Entry PValue => kv.1 ∈ ks) m)))).
Proof.
  induction ks as [|k ks IH]; intros c u count m Hc Hu Hm H0 Hmax.
  - rewrite Hnil. rewrite (map_filter_id (fun kv : bytes * Entry PValue => kv.1 ∉ []) m)
      by (intros; apply not_elem_of_nil).
    pose proof (filter_in_size_le m []). rewrite list_insert_id by done.
    replace (count + _) with count by (cbn in *; lia). by apply refines_same.
  - rewrite Hcons. pose proof (Hone c u k Hc Hu) as Hr. destruct (one c k u) as [[c1 u1] r].
    destruct Hr as (Hc1 & Ha1 & -> & Hclk1 & Hsu). unfold spec_del in *. rewrite Hm in *. cbn [fst snd of_bool] in *.
    pose proof Hsu as (En & _). rewrite <- En in Ha1 |- *.
    assert (Hm1 : abs c1 !! Z.to_nat (db_number u1) = Some (delete k m)).
    { rewrite Ha1, list_lookup_insert_eq; [done|]. rewrite En. by eapply lookup_lt_Some. }
    cbn in Hmax. rewrite wrap_i64_small by (unfold is_i64, i64_min, i64_max in *; case_bool_decide; lia).
    assert (Hnext := IH c1 u1 (count + (if bool_decide (is_Some (m !! k)) then 1 else 0)) (delete k m) Hc1
      (same_update_applies _ _ Hsu Hu) Hm1 ltac:(case_bool_decide; lia) ltac:(case_bool_decide; lia)).
    destruct (loop c1 ks u1 _) as [[c2 u2] r2]. destruct Hnext as (? & Ha2 & Hr2 & ? & Hsu2). cbn [fst snd] in *.
    split_and!; [done| | |congruence|by eapply same_update_trans].
    + by rewrite Ha2, Ha1, list_insert_insert_eq, filter_not_cons.
    + by rewrite Hr2, filter_in_cons_size, Z.add_assoc.
Qed.

Lemma del_loop_refines c u ks : CacheInv c -> applies (update_type u) ->
  Z.of_nat (length ks) <= i64_max ->
  refines c u (loop c ks u 0) (spec_del_many (db_number u) (abs c) ks).
Proof.
  intros Hc Hu Hmax. unfold spec_del_many. destruct (abs c !! Z.to_nat (db_number u)) as [m|] eqn:Hm.
  - pose proof (del_loop_live ks c u 0 m Hc Hu Hm ltac:(lia) ltac:(lia)) as Hl. destruct ks; [|done].
    rewrite Hnil in *. by apply refines_same.
  - destruct ks as [|k ks]; [rewrite Hnil; by apply refines_same|]. rewrite Hcons.
    pose proof (Hone c u k Hc Hu) as Hr. destruct (one c k u) as [[c1 u1] r].
    destruct Hr as (Hc1 & Ha1 & -> & Hclk1 & Hsu). unfold spec_del in *. rewrite Hm in *. by split_and!.
Qed.
End DelLoop.

Lemma redis_del_refines c u params : CacheInv c -> applies (update_type u) ->
  Z.of_nat (length (dp_keys params)) <= i64_max ->
  refines c u (redis_del c params u) (spec_del_many (db_number u) (abs c) (dp_keys params)).
Proof.
  apply (del_loop_refines (fun c k u => del c (mkDelReq k) u) del_loop); [|done|done].
  intros c0 u0 k Hc0 Hu0. exact (del_refines c0 u0 Hc0 Hu0 (mkDelReq k)).
Qed.

Lemma redis_unlink_refines c u params : CacheInv c -> applies (update_type u) ->
  Z.of_nat (length (up_keys params)) <= i64_max ->
  refines c u (redis_unlink c params u) (spec_del_many (db_number u) (abs c) (up_keys params)).
Proof.
  apply (del_loop_refines (fun c k u => unlink_method c (mkUnlinkReq k) u) unlink_keys_loop); [|done|done].
  intros c0 u0 k Hc0 Hu0. exact (unlink_refines c0 u0 Hc0 Hu0 (mkUnlinkReq k)).
Qed.

(** *** RENAME *)

Definition spec_insert (now n : Z) (s : PStore) (k : bytes) (d : PData) (p : ExpirePolicy) : PStore :=
  match s !! Z.to_nat n with
  | None => s
  | Some m =>
      let v := match m !! k with Some e => wrap_u32 (pversion (e_value e) + 1) | None => 1 end in
      <[Z.to_nat n := put now k (make_entry now (mkPValue v d) p) m]> s
  end.

(** Inserting a value whose collection no entry holds any more. *)
Lemma insert_refines c u k v ex d : CacheInv c -> applies (update_type u) -> is_u64 ex ->
  abs_data (heap c) v = Some d -> private c (db_number u) k v ->
  let '(c', u', _) := insert_req c (mkInsertReq k v ex) u in
  CacheInv c' /\
  abs c' = spec_insert (write_logic_clock c) (db_number u) (abs c) k d (if ex =? 0 then Persistent else Absolute ex) /\
  write_logic_clock c' = write_logic_clock c /\ same_update u u'.
Proof.
  intros Hc Hu Hex Hd Hpriv. unfold insert_req, execute_compute, spec_insert.
  destruct (get_db c (db_number u)) as [db|] eqn:Hdb.
  2: { rewrite abs_lookup. unfold get_db in Hdb. rewrite Hdb. cbn. split_and!; [done..|apply same_update_refl]. }
  rewrite (get_db_abs _ _ _ Hdb). set (now := write_logic_clock c) in *. cbn [key insert_compute ins_key].
  pose proof (get_entry_spec now db k (inv_mocha c Hc _ _ Hdb)) as Hg.
  destruct (get_entry now db k) as [db1 r0]. destruct Hg as (-> & Hlive & Hm1).
  set (p := if ex =? 0 then Persistent else Absolute ex).
  assert (Hp : policy_ok p) by (unfold p; by case_match).
  assert (Hput : forall ver, let db' := apply_changed now db1 k (MInsert (mkMyValue ver v) p) in
    CacheInv (put_db c (db_number u) db' (heap c)) /\
    abs (put_db c (db_number u) db' (heap c)) =
      <[Z.to_nat (db_number u) := put now k (make_entry now (mkPValue ver d) p) (abs_db now (heap c) db)]> (abs c)).
  { intros ver. destruct (apply_changed_spec now db1 k (MInsert (mkMyValue ver v) p) Hm1) as [Hm' Hl'].
    { by intros ? ? [= _ <-]. }
    rewrite Hlive in Hl'. apply (insert_key c (db_number u) db _ (heap c) k None (mkMyValue ver v)); try done.
    - apply frame_refl, Hc.
    - unfold abs_value. cbn. by rewrite Hd. }
  destruct (live now (map_ db) !! k) as [e|] eqn:Ee; cbn [fmap option_fmap option_map].
  - destruct (live_abs c _ db _ _ Hc Hdb Ee) as (pv & Hpv & Habs). fold now in Habs. rewrite Habs. cbn [e_value].
    destruct (value_shape _ _ _ Hpv) as [Hver _]. rewrite Hver.
    destruct (Hput (wrap_u32 (version (e_value e) + 1))) as [? ?].
    destruct (update_type u) eqn:Et; [| |done]; split_and!; try done;
      [apply same_update_refl|by apply same_update_push; rewrite Et].
  - rewrite abs_db_lookup, Ee. cbn [mbind option_bind]. destruct (Hput 1) as [? ?].
    split_and!; [done..|apply same_update_refl].
Qed.

(** DEL changes its database only, by removing its key. *)
Lemma del_shape c req u db : CacheInv c -> applies (update_type u) -> get_db c (db_number u) = Some db ->
  exists db1 u' r, del c req u = (put_db c (db_number u) db1 (heap c), u', r) /\
    live (write_logic_clock c) (map_ db1) = delete (del_key req) (live (write_logic_clock c) (map_ db)).
Proof.
  intros Hc Hu Hdb. unfold del, get_cache. rewrite Hdb. cbn [ok_or].
  pose proof (inv_mocha c Hc _ _ Hdb) as Hm. destruct (update_type u); [| |done].
  - pose proof (remove_spec _ db (del_key req) Hm) as Hr. destruct (remove _ db (del_key req)) as [db1 r].
    destruct Hr as (_ & Hl & _). by eexists _, _, _.
  - pose proof (get_spec _ db (del_key req) Hm) as Hg. destruct (get _ db (del_key req)) as [db0 r0].
    destruct Hg as [Hm0 Hl0]. pose proof (remove_spec _ db0 (del_key req) Hm0) as Hr.
    destruct (remove _ db0 (del_key req)) as [db1 r]. destruct Hr as (_ & Hl & _).
    eexists _, _, _. split; [done|]. by rewrite Hl, Hl0.
Qed.

(** Once its key is deleted, nobody holds the collection. *)
Lemma detached c n db db1 k e new : CacheInv c -> get_db c n = Some db ->
  live (write_logic_clock c) (map_ db) !! k = Some e ->
  live (write_logic_clock c) (map_ db1) = delete k (live (write_logic_clock c) (map_ db)) ->
  private (put_db c n db1 (heap c)) n new (data (e_value e)).
Proof.
  intros Hc Hdb He Hl i k' e' l He' _ Hl1 Hl2.
  assert (Hat : entry_at c (Z.to_nat n) k e) by (by exists db).
  apply (entry_at_put_db _ _ _ _ _ _ _ _ Hdb) in He' as [[-> He']|[Hne He']].
  - rewrite Hl in He'. apply lookup_delete_Some in He' as [Hk He'].
    assert (Hat' : entry_at c (Z.to_nat n) k' e') by (by exists db).
    by destruct (inv_sep c Hc _ _ _ _ _ _ _ Hat Hat' Hl1 Hl2).
  - by destruct (inv_sep c Hc _ _ _ _ _ _ _ Hat He' Hl1 Hl2).
Qed.

Lemma move_key_refines c u db old new e pv : CacheInv c -> applies (update_type u) ->
  get_db c (db_number u) = Some db ->
  live (write_logic_clock c) (map_ db) !! old = Some e -> abs_value (heap c) (e_value e) = Some pv ->
  let '(c', u') := move_key c old new (snapshot e) u in
  CacheInv c' /\ write_logic_clock c' = write_logic_clock c /\ same_update u u' /\
  abs c' = <[Z.to_nat (db_number u) :=
    spec_move (abs_db (write_logic_clock c) (heap c) db) old new (mkEntry pv (e_expire_at e))]> (abs c).
Proof.
  intros Hc Hu Hdb He Hpv. unfold move_key. set (now := write_logic_clock c) in *. set (n := db_number u) in *.
  pose proof (del_refines c u Hc Hu (mkDelReq old)) as Hdel.
  destruct (del_shape c (mkDelReq old) u db Hc Hu Hdb) as (db1 & u1 & r1 & E1 & Hl1). rewrite E1 in *.
  destruct Hdel as (Hc1 & Ha1 & _ & _ & Hsu1). fold n in Hc1, Ha1 |- *. pose proof Hsu1 as (En & _).
  assert (Hat : entry_at c (Z.to_nat n) old e) by (by exists db).
  pose proof (fun a Ea => live_deadline c _ _ _ a Hc Hat Ea) as Hdl.
  destruct (abs_data (heap c) (data (e_value e))) as [d|] eqn:Hd; [|unfold abs_value in Hpv; by rewrite Hd in Hpv].
  assert (Hpd : pdata pv = d) by (unfold abs_value in Hpv; rewrite Hd in Hpv; by injection Hpv as <-).
  pose proof (insert_refines (put_db c n db1 (heap c)) u1 new (data (e_value e)) (default 0 (e_expire_at e)) d
    Hc1 (same_update_applies _ _ Hsu1 Hu)) as Hins. rewrite En in Hins. fold n in Hins.
  specialize (Hins ltac:(destruct (e_expire_at e); cbn; [specialize (Hdl _ eq_refl)|]; unfold is_u64; lia) Hd
    (detached c n db db1 old e new Hc Hdb He Hl1)).
  cbn [snapshot value expire_at]. destruct (insert_req _ _ u1) as [[c2 u2] r2].
  destruct Hins as (Hc2 & Ha2 & Hclk2 & Hsu2).
  split_and!; [done|done|by eapply same_update_trans|].
  rewrite Ha2, Ha1. unfold spec_del, n at 1. rewrite (get_db_abs _ _ _ Hdb). fold n. cbn [fst del_key].
  unfold spec_insert. rewrite list_lookup_insert_eq by (unfold abs; rewrite length_fmap; exact (get_db_lt _ _ _ Hdb)).
  rewrite list_insert_insert_eq. f_equal. unfold spec_move. cbn [e_value e_expire_at write_logic_clock put_db].
  rewrite Hpd. apply put_live. intros a Ea. apply (Hdl a Ea).
Qed.

(** A lookup that succeeds finds a live entry. *)
Lemma lookup_entry_some c n db k : CacheInv c -> get_db c n = Some db ->
  let '(c1, r) := lookup_entry c n db k in
  match r with
  | Some v => exists db1 e pv, get_db c1 n = Some db1 /\ v = snapshot e /\
      live (write_logic_clock c1) (map_ db1) !! k = Some e /\ abs_value (heap c1) (e_value e) = Some pv /\
      abs_db (write_logic_clock c) (heap c) db !! k = Some (mkEntry pv (e_expire_at e)) /\
      abs_db (write_logic_clock c1) (heap c1) db1 = abs_db (write_logic_clock c) (heap c) db
  | None => abs_db (write_logic_clock c) (heap c) db !! k = None
  end.
Proof.
  intros Hc Hdb. unfold lookup_entry. set (now := write_logic_clock c).
  pose proof (get_entry_spec now db k (inv_mocha c Hc _ _ Hdb)) as Hg.
  destruct (get_entry now db k) as [db1 r]. destruct Hg as (-> & Hl & Hm).
  destruct (live now (map_ db) !! k) as [e|] eqn:Ee; cbn [fmap option_fmap option_map].
  - destruct (live_abs c n db k e Hc Hdb Ee) as (pv & Hpv & Ha). exists db1, e, pv. split_and!; try done.
    + unfold get_db. cbn. apply list_lookup_insert_eq. exact (get_db_lt _ _ _ Hdb).
    + cbn. fold now. by rewrite Hl.
    + unfold abs_db. cbn. fold now. by rewrite Hl.
  - by rewrite abs_db_lookup, Ee.
Qed.

Lemma redis_rename_refines c u params : CacheInv c -> applies (update_type u) ->
  refines c u (redis_rename c params u) (spec_rename (db_number u) (abs c) (rn_key params) (rn_new_key params)).
Proof.
  intros Hc Hu. unfold redis_rename, spec_rename.
  destruct (get_cache_spec c (db_number u)) as [(db & -> & Hdb & Hab)|[-> Hab]]; rewrite Hab.
  2: { by apply refines_same. }
  pose proof (lookup_entry_spec c _ db (rn_key params) Hc Hdb) as Hl.
  pose proof (lookup_entry_some c _ db (rn_key params) Hc Hdb) as Hs.
  destruct (lookup_entry c _ db (rn_key params)) as [c1 r]. destruct Hl as (Hc1 & Ha1 & _ & Hclk1 & _ & _).
  destruct r as [v|]; [|rewrite Hs; by apply refines_same].
  destruct Hs as (db1 & e & pv & Hdb1 & -> & He & Hpv & -> & Eabs).
  pose proof (move_key_refines c1 u db1 (rn_key params) (rn_new_key params) e pv Hc1 Hu Hdb1 He Hpv) as Hmv.
  destruct (move_key c1 _ _ (snapshot e) u) as [c2 u2]. destruct Hmv as (? & ? & ? & Ha2).
  split_and!; [done| |done|congruence|done]. by rewrite Ha2, Ha1, Eabs.
Qed.

Lemma redis_rename_nx_refines c u params : CacheInv c -> applies (update_type u) ->
  refines c u (redis_rename_nx c params u)
    (spec_rename_nx (db_number u) (abs c) (rnx_key params) (rnx_new_key params)).
Proof.
  intros Hc Hu. unfold redis_rename_nx, spec_rename_nx.
  destruct (get_cache_spec c (db_number u)) as [(db & -> & Hdb & Hab)|[-> Hab]]; rewrite Hab.
  2: { by apply refines_same. }
  pose proof (lookup_entry_spec c _ db (rnx_new_key params) Hc Hdb) as Hl.
  pose proof (lookup_entry_some c _ db (rnx_new_key params) Hc Hdb) as Hs.
  destruct (lookup_entry c _ db (rnx_new_key params)) as [c1 r].
  destruct Hl as (Hc1 & Ha1 & Hh1 & Hclk1 & [db1 Hdb1] & _). rewrite Hdb1.
  destruct r as [v|]; [destruct Hs as (? & ? & ? & _ & _ & _ & _ & -> & _); by apply refines_same|]. rewrite Hs.
  pose proof (lookup_entry_spec c1 _ db1 (rnx_key params) Hc1 Hdb1) as Hl.
  pose proof (lookup_entry_some c1 _ db1 (rnx_key params) Hc1 Hdb1) as Hs2.
  assert (Eab : abs_db (write_logic_clock c1) (heap c1) db1 = abs_db (write_logic_clock c) (heap c) db).
  { apply get_db_abs in Hdb1. rewrite Ha1, Hab in Hdb1. by injection Hdb1. }
  destruct (lookup_entry c1 _ db1 (rnx_key params)) as [c2 r]. destruct Hl as (Hc2 & Ha2 & _ & Hclk2 & _ & _).
  rewrite Eab in Hs2. destruct r as [v|]; [|rewrite Hs2; apply refines_same; [done|congruence|congruence]].
  destruct Hs2 as (db2 & e & pv & Hdb2 & -> & He & Hpv & -> & Eabs).
  pose proof (move_key_refines c2 u db2 (rnx_key params) (rnx_new_key params) e pv Hc2 Hu Hdb2 He Hpv) as Hmv.
  destruct (move_key c2 _ _ (snapshot e) u) as [c3 u3]. destruct Hmv as (? & ? & ? & Ha3).
  split_and!; [done| |done|congruence|done]. by rewrite Ha3, Ha2, Ha1, Eabs.
Qed.
