(* ===== verification/HashCmd.v ===== *)
(** * HashCmd: the hash commands.

    Models src/cache_cat/src/protocol/hash (HSET, HSETNX, HMSET, HINCRBY, HDEL,
    HGET, HMGET, HEXISTS, HGETALL, HKEYS, HVALS, HLEN) and the hash methods of
    src/cache_cat/src/raft/types/core/cache/hash.rs.

    A [HashMap] is a [gmap]; the order of an iteration is the environment's
    choice, and the specification of HGETALL, HKEYS and HVALS allows any
    order. *)

From S2P Require Import Prelude Text F64 Reply Args SortedSet Mocha Ops Store Refine.

(** ** Parsers *)

Definition hset_request (items : list Value) : parsed Operation :=
  if argc items <? 4 then Err (WrongArgCount (str "hset"))
  else
    let? key := string_item items 1 (str "key") in
    if negb ((argc items - 2) mod 2 =? 0) then Err (WrongArgCount (str "hset"))
    else
      let? fields := pairs_of (InvalidArgument (str "field")) (InvalidArgument (str "value")) (drop 2 items) in
      Ok (Base (HSet (mkHSetReq key fields))).

Definition hsetnx_request (items : list Value) : parsed Operation :=
  if negb (argc items =? 4) then Err (WrongArgCount (str "hsetnx"))
  else
    let? key := string_item items 1 (str "key") in
    let? field := string_item items 2 (str "field") in
    let? val := string_item items 3 (str "value") in
    Ok (Base (HSetNx (mkHSetNxReq key field val))).

Definition hmset_request (items : list Value) : parsed Operation :=
  if ((argc items <? 4) || negb (argc items mod 2 =? 0))%bool then Err (WrongArgCount (str "hmset"))
  else
    let? key := string_item items 1 (str "key") in
    let? fields := pairs_of (InvalidArgument (str "field")) (InvalidArgument (str "value")) (drop 2 items) in
    Ok (Base (HMSet (mkHMSetReq key fields))).

Definition hincrby_request (items : list Value) : parsed Operation :=
  if negb (argc items =? 4) then Err (WrongArgCount (str "hincrby"))
  else
    let? key := string_item items 1 (str "key") in
    let? field := string_item items 2 (str "field") in
    let? increment := try_parse_i64 (item items 3) in
    Ok (Base (HIncr (mkHIncrReq key field increment))).

Definition hdel_request (items : list Value) : parsed Operation :=
  if argc items <? 3 then Err (WrongArgCount (str "hdel"))
  else
    let? key := string_item items 1 (str "key") in
    let? fields := strings_from items 2 (InvalidArgument (str "field")) in
    Ok (Base (HDel (mkHDelReq key fields))).

Definition hget_operation (items : list Value) : parsed ReadOperation :=
  if argc items <? 3 then Err (WrongArgCount (str "hget"))
  else
    let? key := string_item items 1 (str "key") in
    let? field := string_item items 2 (str "field") in
    Ok (RHGet (mkHGetParams key field)).

Definition hmget_operation (items : list Value) : parsed ReadOperation :=
  if argc items <? 3 then Err (WrongArgCount (str "hmget"))
  else
    let? key := string_item items 1 (str "key") in
    let? fields := strings_from items 2 (InvalidArgument (str "field")) in
    Ok (RHMGet (mkHMGetParams key fields)).

Definition hexists_operation (items : list Value) : parsed ReadOperation :=
  if argc items <? 3 then Err (WrongArgCount (str "hexists"))
  else
    let? key := string_item items 1 (str "key") in
    let? field := string_item items 2 (str "field") in
    Ok (RHExists (mkHExistsParams key field)).

Definition hgetall_operation (items : list Value) : parsed ReadOperation :=
  if argc items <? 2 then Err (WrongArgCount (str "hgetall"))
  else let? key := string_item items 1 (str "key") in Ok (RHGetAll (mkHGetAllParams key)).

Definition hkeys_operation (items : list Value) : parsed ReadOperation :=
  if argc items <? 2 then Err (WrongArgCount (str "hkeys"))
  else let? key := string_item items 1 (str "key") in Ok (RHKeys (mkHKeysParams key)).

Definition hvals_operation (items : list Value) : parsed ReadOperation :=
  if argc items <? 2 then Err (WrongArgCount (str "hvals"))
  else let? key := string_item items 1 (str "key") in Ok (RHVals (mkHValsParams key)).

Definition hlen_operation (items : list Value) : parsed ReadOperation :=
  if argc items <? 2 then Err (WrongArgCount (str "hlen"))
  else let? key := string_item items 1 (str "key") in Ok (RHLen (mkHLenParams key)).

(** ** Write commands *)

(** [HashValue::to_bytes]. *)
Definition to_bytes (v : HashValue) : bytes :=
  match v with
  | HStr s => s
  | HInt i => i64_to_string i
  end.

(** [parse_i64(v).map(Int).unwrap_or_else(Str)]. *)
Definition hash_value (v : bytes) : HashValue :=
  match parse_i64 v with
  | Some i => HInt i
  | None => HStr v
  end.

Definition hash_len (m : gmap bytes HashValue) : Z := Z.of_nat (size m).

(** The loop over the elements, counting the fields that were new. *)
Definition hset_loop (els : list (bytes * bytes)) (m : gmap bytes HashValue) : gmap bytes HashValue * Z :=
  foldl (fun '(m, count) '(k, v) =>
    (<[k := hash_value v]> m, if decide (is_Some (m !! k)) then count else count + 1)) (m, 0) els.

Definition hset_mutate (cmd : HSetReq) (entry : EntrySnapshot MyValue) (write_clock : Z) (h : Heap) : mutation :=
  match data (value entry) with
  | VHash hash =>
      let '(m, count) := hset_loop (hset_elements cmd) (hash_at h hash) in
      (put_hash h hash m, (write_back entry, Integer count))
  | _ => (h, (MAbort, wrong_type))
  end.

Definition hset_init (cmd : HSetReq) (h : Heap) : mutation :=
  let m := foldl (fun m '(k, v) => <[k := hash_value v]> m) ∅ (hset_elements cmd) in
  let '(h', v) := alloc_hash h m in
  (h', (MInsert (my_value_new v) Persistent, Integer (Z.of_nat (length (hset_elements cmd))))).

#[global] Instance hset_compute : ComputeCommand HSetReq := {
  key := hset_key;
  into_base_op := HSet;
  mutate := hset_mutate;
  init := hset_init
}.

Definition hsetnx_mutate (cmd : HSetNxReq) (entry : EntrySnapshot MyValue) (write_clock : Z) (h : Heap)
    : mutation :=
  match data (value entry) with
  | VHash hash =>
      let m := hash_at h hash in
      if decide (is_Some (m !! hsetnx_field cmd)) then (h, (MAbort, Integer 0))
      else
        (put_hash h hash (<[hsetnx_field cmd := hash_value (hsetnx_value cmd)]> m),
         (write_back entry, Integer 1))
  | _ => (h, (MAbort, wrong_type))
  end.

Definition hsetnx_init (cmd : HSetNxReq) (h : Heap) : mutation :=
  let '(h', v) := alloc_hash h {[hsetnx_field cmd := hash_value (hsetnx_value cmd)]} in
  (h', (MInsert (my_value_new v) Persistent, Integer 1)).

#[global] Instance hsetnx_compute : ComputeCommand HSetNxReq := {
  key := hsetnx_key;
  into_base_op := HSetNx;
  mutate := hsetnx_mutate;
  init := hsetnx_init
}.

Definition hmset_loop (fields : list (bytes * bytes)) (m : gmap bytes HashValue) : gmap bytes HashValue :=
  foldl (fun m '(k, v) => <[k := HStr v]> m) m fields.

Definition hmset_mutate (cmd : HMSetReq) (entry : EntrySnapshot MyValue) (write_clock : Z) (h : Heap)
    : mutation :=
  match data (value entry) with
  | VHash hash =>
      (put_hash h hash (hmset_loop (hmset_fields cmd) (hash_at h hash)),
       (write_back entry, SimpleString (str "OK")))
  | _ => (h, (MAbort, wrong_type))
  end.

Definition hmset_init (cmd : HMSetReq) (h : Heap) : mutation :=
  let '(h', v) := alloc_hash h (hmset_loop (hmset_fields cmd) ∅) in
  (h', (MInsert (my_value_new v) Persistent, SimpleString (str "OK"))).

#[global] Instance hmset_compute : ComputeCommand HMSetReq := {
  key := hmset_key;
  into_base_op := HMSet;
  mutate := hmset_mutate;
  init := hmset_init
}.

Definition hincr_mutate (cmd : HIncrReq) (entry : EntrySnapshot MyValue) (write_clock : Z) (h : Heap)
    : mutation :=
  match data (value entry) with
  | VHash hash =>
      let m := hash_at h hash in
      match m !! hincr_field cmd with
      | Some (HInt int) =>
          let new_int := wrap_i64 (int + hincr_value cmd) in
          (put_hash h hash (<[hincr_field cmd := HInt new_int]> m), (write_back entry, Integer new_int))
      | Some (HStr _) => (h, (MAbort, Error (str "ERR hash value is not an integer")))
      | None =>
          (put_hash h hash (<[hincr_field cmd := HInt (hincr_value cmd)]> m),
           (write_back entry, Integer (hincr_value cmd)))
      end
  | _ => (h, (MAbort, wrong_type))
  end.

Definition hincr_init (cmd : HIncrReq) (h : Heap) : mutation :=
  let '(h', v) := alloc_hash h {[hincr_field cmd := HInt (hincr_value cmd)]} in
  (h', (MInsert (my_value_new v) Persistent, Integer (hincr_value cmd))).

#[global] Instance hincr_compute : ComputeCommand HIncrReq := {
  key := hincr_key;
  into_base_op := HIncr;
  mutate := hincr_mutate;
  init := hincr_init
}.

(** The loop of HDEL, counting the fields that were there. *)
Definition hdel_loop (fields : list bytes) (m : gmap bytes HashValue) : gmap bytes HashValue * Z :=
  foldl (fun '(m, count) k =>
    (delete k m, if decide (is_Some (m !! k)) then count + 1 else count)) (m, 0) fields.

Definition hdel_mutate (cmd : HDelReq) (entry : EntrySnapshot MyValue) (write_clock : Z) (h : Heap) : mutation :=
  match data (value entry) with
  | VHash hash =>
      let '(m, deleted_count) := hdel_loop (hdel_fields cmd) (hash_at h hash) in
      let h' := put_hash h hash m in
      if deleted_count =? 0 then (h', (MAbort, Integer 0))
      else (h', (write_back entry, Integer deleted_count))
  | _ => (h, (MAbort, wrong_type))
  end.

Definition hdel_init (cmd : HDelReq) (h : Heap) : mutation := (h, (MAbort, Integer 0)).

#[global] Instance hdel_compute : ComputeCommand HDelReq := {
  key := hdel_key;
  into_base_op := HDel;
  mutate := hdel_mutate;
  init := hdel_init
}.

(** ** Reads *)

Definition hget_execute (cmd : HGetParams) (h : Heap) (v : option (EntrySnapshot MyValue)) : Value :=
  match v with
  | None => BulkString None
  | Some e =>
      match data (value e) with
      | VHash m =>
          match hash_at h m !! hget_field cmd with
          | None => BulkString None
          | Some x => BulkString (Some (to_bytes x))
          end
      | _ => protocol_error WrongType
      end
  end.

#[global] Instance hget_read : ReadCommand HGetParams := { rkey := hget_key; execute := hget_execute }.

Definition hmget_execute (cmd : HMGetParams) (h : Heap) (v : option (EntrySnapshot MyValue)) : Value :=
  match v with
  | None => BulkString None
  | Some e =>
      match data (value e) with
      | VHash m =>
          Array (Some ((fun field =>
            match hash_at h m !! field with
            | None => BulkString None
            | Some (HStr s) => BulkString (Some s)
            | Some (HInt i) => BulkString (Some (i64_to_string i))
            end) <$> hmget_fields cmd))
      | _ => protocol_error WrongType
      end
  end.

#[global] Instance hmget_read : ReadCommand HMGetParams := { rkey := hmget_key; execute := hmget_execute }.

Definition hexists_execute (cmd : HExistsParams) (h : Heap) (v : option (EntrySnapshot MyValue)) : Value :=
  match v with
  | None => Integer 0
  | Some e =>
      match data (value e) with
      | VHash m => if decide (is_Some (hash_at h m !! hexists_field cmd)) then Integer 1 else Integer 0
      | _ => protocol_error WrongType
      end
  end.

#[global] Instance hexists_read : ReadCommand HExistsParams := { rkey := hexists_key; execute := hexists_execute }.

Definition hlen_execute (cmd : HLenParams) (h : Heap) (v : option (EntrySnapshot MyValue)) : Value :=
  match v with
  | None => Integer 0
  | Some e =>
      match data (value e) with
      | VHash m => Integer (hash_len (hash_at h m))
      | _ => protocol_error WrongType
      end
  end.

#[global] Instance hlen_read : ReadCommand HLenParams := { rkey := hlen_key; execute := hlen_execute }.

Section Iterating.
Context `{E : Env}.

Definition hgetall_execute (cmd : HGetAllParams) (h : Heap) (v : option (EntrySnapshot MyValue)) : Value :=
  match v with
  | None => Map_ []
  | Some e =>
      match data (value e) with
      | VHash m => Map_ ((fun '(field, x) => (bulk field, bulk (to_bytes x))) <$> map_iter m (hash_at h m))
      | _ => protocol_error WrongType
      end
  end.

Definition hkeys_execute (cmd : HKeysParams) (h : Heap) (v : option (EntrySnapshot MyValue)) : Value :=
  match v with
  | None => Array (Some [])
  | Some e =>
      match data (value e) with
      | VHash m => Array (Some ((fun '(field, _) => bulk field) <$> map_iter m (hash_at h m)))
      | _ => protocol_error WrongType
      end
  end.

Definition hvals_execute (cmd : HValsParams) (h : Heap) (v : option (EntrySnapshot MyValue)) : Value :=
  match v with
  | None => Array (Some [])
  | Some e =>
      match data (value e) with
      | VHash m => Array (Some ((fun '(_, x) => bulk (to_bytes x)) <$> map_iter m (hash_at h m)))
      | _ => protocol_error WrongType
      end
  end.

#[global] Instance hgetall_read : ReadCommand HGetAllParams := { rkey := hgetall_key; execute := hgetall_execute }.
#[global] Instance hkeys_read : ReadCommand HKeysParams := { rkey := hkeys_key; execute := hkeys_execute }.
#[global] Instance hvals_read : ReadCommand HValsParams := { rkey := hvals_key; execute := hvals_execute }.
End Iterating.

(** ** The cache methods *)

Definition h_del (c : MyCache) (param : HDelReq) (u : Update) := execute_compute c param u.
Definition h_set (c : MyCache) (param : HSetReq) (u : Update) := execute_compute c param u.
Definition h_set_nx (c : MyCache) (param : HSetNxReq) (u : Update) := execute_compute c param u.
Definition h_incr (c : MyCache) (param : HIncrReq) (u : Update) := execute_compute c param u.
Definition h_mset (c : MyCache) (param : HMSetReq) (u : Update) := execute_compute c param u.

(** ** The commands on plain maps *)

(** The fields given last win, over the old ones. *)
Definition hset_all (els : list (bytes * bytes)) (m : gmap bytes HashValue) : gmap bytes HashValue :=
  list_to_map (reverse ((fun '(k, v) => (k, hash_value v)) <$> els)) ∪ m.

Definition hmset_all (els : list (bytes * bytes)) (m : gmap bytes HashValue) : gmap bytes HashValue :=
  list_to_map (reverse ((fun '(k, v) => (k, HStr v)) <$> els)) ∪ m.

Definition hdel_all (fields : list bytes) (m : gmap bytes HashValue) : gmap bytes HashValue :=
  filter (fun '(k, _) => k ∉ fields) m.

Definition on_hash (e : EntrySnapshot PValue)
    (f : gmap bytes HashValue -> MochaOperation PValue * Value) : MochaOperation PValue * Value :=
  match pdata (value e) with
  | PHash m => f m
  | _ => (MAbort, wrong_type)
  end.

(** HSET on an existing hash answers how much it grew. *)
#[global] Instance hset_pure : PureCommand HSetReq := {
  pmutate cmd e _ := on_hash e (fun m =>
    let m' := hset_all (hset_elements cmd) m in (pwrite_back e (PHash m'), Integer (hash_len m' - hash_len m)));
  pinit cmd := (MInsert (pvalue_new (PHash (hset_all (hset_elements cmd) ∅))) Persistent,
    Integer (Z.of_nat (length (hset_elements cmd))))
}.

#[global] Instance hsetnx_pure : PureCommand HSetNxReq := {
  pmutate cmd e _ := on_hash e (fun m =>
    match m !! hsetnx_field cmd with
    | Some _ => (MAbort, Integer 0)
    | None => (pwrite_back e (PHash (<[hsetnx_field cmd := hash_value (hsetnx_value cmd)]> m)), Integer 1)
    end);
  pinit cmd := (MInsert (pvalue_new (PHash {[hsetnx_field cmd := hash_value (hsetnx_value cmd)]})) Persistent,
    Integer 1)
}.

#[global] Instance hmset_pure : PureCommand HMSetReq := {
  pmutate cmd e _ := on_hash e (fun m =>
    (pwrite_back e (PHash (hmset_all (hmset_fields cmd) m)), SimpleString (str "OK")));
  pinit cmd := (MInsert (pvalue_new (PHash (hmset_all (hmset_fields cmd) ∅))) Persistent, SimpleString (str "OK"))
}.

#[global] Instance hincr_pure : PureCommand HIncrReq := {
  pmutate cmd e _ := on_hash e (fun m =>
    match m !! hincr_field cmd with
    | Some (HStr _) => (MAbort, Error (str "ERR hash value is not an integer"))
    | x =>
        let new := wrap_i64 (match x with Some (HInt i) => i | _ => 0 end + hincr_value cmd) in
        (pwrite_back e (PHash (<[hincr_field cmd := HInt new]> m)), Integer new)
    end);
  pinit cmd := (MInsert (pvalue_new (PHash {[hincr_field cmd := HInt (hincr_value cmd)]})) Persistent,
    Integer (hincr_value cmd))
}.

#[global] Instance hdel_pure : PureCommand HDelReq := {
  pmutate cmd e _ := on_hash e (fun m =>
    let m' := hdel_all (hdel_fields cmd) m in
    if decide (m' = m) then (MAbort, Integer 0)
    else (pwrite_back e (PHash m'), Integer (hash_len m - hash_len m')));
  pinit cmd := (MAbort, Integer 0)
}.

(** What a read of a hash may answer. *)
Definition pread_hash {C} (missing : Value) (f : C -> gmap bytes HashValue -> Value -> Prop)
    (cmd : C) (e : option (EntrySnapshot PValue)) (r : Value) : Prop :=
  match e with
  | None => r = missing
  | Some e => match pdata (value e) with PHash m => f cmd m r | _ => r = protocol_error WrongType end
  end.

#[global] Instance hget_pure : PureRead HGetParams := {
  pread := pread_hash (BulkString None) (fun cmd m r => r = BulkString (to_bytes <$> m !! hget_field cmd))
}.

#[global] Instance hmget_pure : PureRead HMGetParams := {
  pread := pread_hash (BulkString None) (fun cmd m r =>
    r = Array (Some ((fun f => BulkString (to_bytes <$> m !! f)) <$> hmget_fields cmd)))
}.

#[global] Instance hexists_pure : PureRead HExistsParams := {
  pread := pread_hash (Integer 0) (fun cmd m r =>
    r = Integer (if bool_decide (hexists_field cmd ∈ dom m) then 1 else 0))
}.

#[global] Instance hlen_pure : PureRead HLenParams := {
  pread := pread_hash (Integer 0) (fun _ m r => r = Integer (hash_len m))
}.

#[global] Instance hgetall_pure : PureRead HGetAllParams := {
  pread := pread_hash (Map_ []) (fun _ m r => exists l, l ≡ₚ map_to_list m /\
    r = Map_ ((fun '(field, x) => (bulk field, bulk (to_bytes x))) <$> l))
}.

#[global] Instance hkeys_pure : PureRead HKeysParams := {
  pread := pread_hash (Array (Some [])) (fun _ m r => exists l, l ≡ₚ elements (dom m) /\
    r = Array (Some (bulk <$> l)))
}.

#[global] Instance hvals_pure : PureRead HValsParams := {
  pread := pread_hash (Array (Some [])) (fun _ m r => exists l, l ≡ₚ (map_to_list m).*2 /\
    r = Array (Some (bulk ∘ to_bytes <$> l)))
}.

(** ** The loops compute the specification *)

(** Inserting one pair after the other. *)
Lemma foldl_insert (f : bytes -> HashValue) (els : list (bytes * bytes)) (m : gmap bytes HashValue) :
  foldl (fun m (p : bytes * bytes) => let (k, v) := p in <[k := f v]> m) m els =
    list_to_map (reverse ((fun '(k, v) => (k, f v)) <$> els)) ∪ m.
Proof.
  induction els as [|[k v] els IH] using rev_ind; cbn; [by rewrite map_empty_union|].
  rewrite foldl_snoc, IH, fmap_app, reverse_app. cbn. by rewrite insert_union_l.
Qed.

Lemma hset_loop_spec els m :
  hset_loop els m = (hset_all els m, hash_len (hset_all els m) - hash_len m).
Proof.
  unfold hset_loop, hset_all. rewrite <- foldl_insert.
  induction els as [|[k v] els IH] using rev_ind; cbn; [f_equal; lia|].
  rewrite !foldl_snoc, IH. f_equal. unfold hash_len. rewrite map_size_insert.
  destruct (foldl _ m els !! k) as [x|]; [rewrite decide_True by done|rewrite decide_False by (by intros [? ?])]; cbn; lia.
Qed.

Lemma hdel_loop_spec fields m :
  hdel_loop fields m = (hdel_all fields m, hash_len m - hash_len (hdel_all fields m)).
Proof.
  unfold hdel_loop, hdel_all. induction fields as [|k fields IH] using rev_ind; cbn.
  { rewrite map_filter_id by (intros; set_solver). f_equal. lia. }
  rewrite foldl_snoc, IH. set (m1 := filter _ m).
  replace (filter (fun '(k', _) => k' ∉ fields ++ [k]) m) with (delete k m1).
  - f_equal. unfold hash_len. rewrite map_size_delete.
    destruct (m1 !! k) as [x|] eqn:E; [rewrite decide_True by done|rewrite decide_False by (by intros [? ?])]; cbn; [|lia].
    assert (size m1 <> 0%nat) by (intros Z0; apply map_size_empty_inv in Z0; rewrite Z0 in E; done). lia.
  - apply map_eq. intros k'. apply option_eq. intros x. unfold m1.
    rewrite lookup_delete_Some, !map_lookup_filter_Some. set_solver.
Qed.

Lemma hdel_all_same fields m : hash_len m - hash_len (hdel_all fields m) = 0 <-> hdel_all fields m = m.
Proof.
  split; [|intros ->; lia]. intros E. apply map_subseteq_size_eq; [apply map_filter_subseteq|].
  unfold hash_len in E. lia.
Qed.

(** ** The laws *)

Lemma hash_at_eq h l x : hashes h !! l = Some x -> hash_at h l = x.
Proof. unfold hash_at. by intros ->. Qed.

Lemma put_hash_same h l x : hashes h !! l = Some x -> put_hash h l x = h.
Proof. intros Hl. unfold put_hash. rewrite insert_id by done. by destruct h. Qed.

Ltac hash_law Hpv :=
  unfold on_hash; cbn [value]; shape_cases Hpv; try (by apply refuse_ok);
  match goal with H : hashes _ !! _ = Some _ |- _ => rewrite ?(hash_at_eq _ _ _ H) end.

Lemma inplace_hash h e pv l x r pe : HeapInv h -> (forall a, expire_at e = Some a -> is_u64 a) ->
  abs_value h (value e) = Some pv -> data (value e) = VHash l -> pe = mkEntrySnapshot pv (expire_at e) ->
  mutation_ok e pv h (put_hash h l x, (write_back e, r)) (pwrite_back pe (PHash x), r).
Proof. intros Hh He Hpv Hd ->. by apply (inplace_ok h e pv Hh He Hpv l (PHash x)). Qed.

Lemma init_hash h x r : HeapInv h ->
  init_ok h (let '(h', v) := alloc_hash h x in (h', (MInsert (my_value_new v) Persistent, r)))
    (MInsert (pvalue_new (PHash x)) Persistent, r).
Proof. intros Hh. by apply (init_alloc_ok h (PHash x)). Qed.

#[global] Instance hset_laws : ComputeLaws HSetReq.
Proof.
  apply (compute_laws (fun _ => True)).
  - intros cmd e pv wc h Hh _ _ He Hpv. cbn. unfold hset_mutate. hash_law Hpv.
    rewrite hset_loop_spec. by apply inplace_hash.
  - intros cmd h Hh _. cbn. unfold hset_init. rewrite foldl_insert. by apply init_hash.
Defined.

#[global] Instance hsetnx_laws : ComputeLaws HSetNxReq.
Proof.
  apply (compute_laws (fun _ => True)).
  - intros cmd e pv wc h Hh _ _ He Hpv. cbn. unfold hsetnx_mutate. hash_law Hpv.
    destruct (m !! hsetnx_field cmd) as [x|].
    + rewrite decide_True by done. by apply refuse_ok.
    + rewrite decide_False by (by intros [? ?]). by apply inplace_hash.
  - intros cmd h Hh _. by apply init_hash.
Defined.

#[global] Instance hmset_laws : ComputeLaws HMSetReq.
Proof.
  apply (compute_laws (fun _ => True)).
  - intros cmd e pv wc h Hh _ _ He Hpv. cbn. unfold hmset_mutate, hmset_loop. hash_law Hpv.
    rewrite foldl_insert. by apply inplace_hash.
  - intros cmd h Hh _. cbn. unfold hmset_init, hmset_loop. rewrite foldl_insert. by apply init_hash.
Defined.

#[global] Instance hincr_laws : ComputeLaws HIncrReq.
Proof.
  apply (compute_laws (fun cmd => is_i64 (hincr_value cmd))).
  - intros cmd e pv wc h Hh Hi _ He Hpv. cbn. unfold hincr_mutate. hash_law Hpv.
    destruct (m !! hincr_field cmd) as [[s|i]|].
    + by apply refuse_ok.
    + by apply inplace_hash.
    + rewrite Z.add_0_l, wrap_i64_small by done. by apply inplace_hash.
  - intros cmd h Hh _. by apply init_hash.
Defined.

#[global] Instance hdel_laws : ComputeLaws HDelReq.
Proof.
  apply (compute_laws (fun _ => True)).
  - intros cmd e pv wc h Hh _ _ He Hpv. cbn. unfold hdel_mutate. hash_law Hpv.
    rewrite hdel_loop_spec. destruct (decide (hdel_all (hdel_fields cmd) m = m)) as [E|E].
    + rewrite (proj2 (hdel_all_same _ _) E), E, (put_hash_same _ _ _ Hshape). by apply refuse_ok.
    + destruct (Z.eqb_spec (hash_len m - hash_len (hdel_all (hdel_fields cmd) m)) 0) as [E0|_];
        [by apply hdel_all_same in E0|]. by apply inplace_hash.
  - intros cmd h Hh _. by apply init_refuse_ok.
Defined.

Ltac hash_read Hr :=
  read_law Hr; match goal with H : hashes _ !! _ = Some _ |- _ => rewrite (hash_at_eq _ _ _ H) end.

#[global] Instance hget_laws : ReadLaws HGetParams.
Proof.
  constructor. intros cmd h r pr Hh Hr. cbn. unfold pread_hash, hget_execute. hash_read Hr.
  by destruct (m !! hget_field cmd).
Qed.

#[global] Instance hmget_laws : ReadLaws HMGetParams.
Proof.
  constructor. intros cmd h r pr Hh Hr. cbn. unfold pread_hash, hmget_execute. hash_read Hr.
  do 2 f_equal. apply list_fmap_ext. intros i f _. by destruct (m !! f) as [[]|].
Qed.

#[global] Instance hexists_laws : ReadLaws HExistsParams.
Proof.
  constructor. intros cmd h r pr Hh Hr. cbn. unfold pread_hash, hexists_execute. hash_read Hr.
  case_decide as Hd; [rewrite bool_decide_true|rewrite bool_decide_false]; try done; by rewrite elem_of_dom.
Qed.

#[global] Instance hlen_laws : ReadLaws HLenParams.
Proof. constructor. intros cmd h r pr Hh Hr. cbn. unfold pread_hash, hlen_execute. by hash_read Hr. Qed.

Section IteratingLaws.
Context `{E : Env} `{!EnvOk E}.

#[global] Instance hgetall_laws : ReadLaws HGetAllParams.
Proof.
  constructor. intros cmd h r pr Hh Hr. cbn. unfold pread_hash, hgetall_execute. hash_read Hr.
  eexists. split; [apply map_iter_perm|done].
Qed.

#[global] Instance hkeys_laws : ReadLaws HKeysParams.
Proof.
  constructor. intros cmd h r pr Hh Hr. cbn. unfold pread_hash, hkeys_execute. hash_read Hr.
  exists (map_iter l m).*1. split.
  - rewrite (map_iter_perm l m). apply NoDup_Permutation; [apply NoDup_fst_map_to_list|apply NoDup_elements|].
    intros x. rewrite elem_of_elements, elem_of_dom, list_elem_of_fmap. split.
    + intros ([k v] & -> & Hin). apply elem_of_map_to_list in Hin. by exists v.
    + intros [v Hv]. exists (x, v). split; [done|by apply elem_of_map_to_list].
  - rewrite <- list_fmap_compose. do 2 f_equal. apply list_fmap_ext. by intros i [f x] _.
Qed.

#[global] Instance hvals_laws : ReadLaws HValsParams.
Proof.
  constructor. intros cmd h r pr Hh Hr. cbn. unfold pread_hash, hvals_execute. hash_read Hr.
  exists (map_iter l m).*2. split; [by rewrite (map_iter_perm l m)|].
  rewrite <- list_fmap_compose. do 2 f_equal. apply list_fmap_ext. by intros i [f x] _.
Qed.
End IteratingLaws.
