(* ===== verification/SetCmd.v ===== *)
(** * SetCmd: the set commands.

    Models src/cache_cat/src/protocol/set (SADD, SREM, SINTERSTORE,
    SUNIONSTORE, SDIFFSTORE, SMEMBERS, SISMEMBER, SCARD, SRANDMEMBER, SINTER,
    SUNION, SDIFF; SPOP has a file of its own) and the set methods of
    src/cache_cat/src/raft/types/core/cache/set.rs.

    A [HashSet] is a [gset]. SMEMBERS, SRANDMEMBER, SINTER, SUNION and SDIFF
    answer in an order the environment chooses, and their specification allows
    every order; the sets SUNIONSTORE and SDIFFSTORE store do not depend on
    the order their elements are listed in. *)

From S2P Require Import Prelude Text F64 Reply Args SortedSet Mocha Ops Store Refine KeyCmd.

(** ** Parsers *)

Definition sadd_request (items : list Value) : parsed Operation :=
  if argc items <? 3 then Err (WrongArgCount (str "sadd"))
  else
    let? key := string_item items 1 (str "key") in
    let? members := strings_from items 2 (InvalidArgument (str "member")) in
    Ok (Base (SAdd (mkSAddReq key members))).

Definition srem_request (items : list Value) : parsed Operation :=
  if argc items <? 3 then Err (WrongArgCount (str "srem"))
  else
    let? key := string_item items 1 (str "key") in
    let? members := strings_from items 2 (InvalidArgument (str "member")) in
    Ok (Base (SRem (mkSRemReq key members))).

Definition sinterstore_request (items : list Value) : parsed Operation :=
  if argc items <? 3 then Err (WrongArgCount (str "SINTERSTORE"))
  else
    let? key := string_item items 1 (str "key") in
    let? keys := strings_from items 2 (InvalidArgument (str "key")) in
    Ok (Base (SInterStore (mkSInterStoreReq key keys))).

Definition sunionstore_request (items : list Value) : parsed Operation :=
  if argc items <? 3 then Err (WrongArgCount (str "SUNIONSTORE"))
  else
    let? key := string_item items 1 (str "key") in
    let? keys := strings_from items 2 (InvalidArgument (str "key")) in
    Ok (Redis (RedisSUnionStore (mkSUnionStoreParams key keys))).

Definition sdiffstore_request (items : list Value) : parsed Operation :=
  if argc items <? 3 then Err (WrongArgCount (str "SDIFFSTORE"))
  else
    let? key := string_item items 1 (str "key") in
    let? keys := strings_from items 2 (InvalidArgument (str "key")) in
    Ok (Redis (RedisSDiffStore (mkSDiffStoreParams key keys))).

Definition smembers_operation (items : list Value) : parsed ReadOperation :=
  if negb (argc items =? 2) then Err (WrongArgCount (str "smembers"))
  else let? key := string_item items 1 (str "key") in Ok (RSMembers (mkSMembersParams key)).

Definition sismember_operation (items : list Value) : parsed ReadOperation :=
  if negb (argc items =? 3) then Err (WrongArgCount (str "sismember"))
  else
    let? key := string_item items 1 (str "key") in
    let? member := string_item items 2 (str "member") in
    Ok (RSIsMember (mkSIsMemberParams key member)).

Definition scard_operation (items : list Value) : parsed ReadOperation :=
  if negb (argc items =? 2) then Err (WrongArgCount (str "scard"))
  else let? key := string_item items 1 (str "key") in Ok (RSCard (mkSCardParams key)).

(** [str::from_utf8(..).parse::<i64>()], every failure an invalid count. *)
Definition parse_count_i64 (v : Value) : parsed Z :=
  let bad := InvalidArgument (str "count") in
  let? b := ok_or (string_bytes_clone v) bad in
  let? text := ok_or (from_utf8 b) bad in
  ok_or (parse_i64_str (concat text)) bad.

Definition srandmember_operation (items : list Value) : parsed ReadOperation :=
  if (negb (argc items =? 2) && negb (argc items =? 3))%bool then Err (WrongArgCount (str "srandmember"))
  else
    let? key := string_item items 1 (str "key") in
    let? count :=
      (if argc items =? 3 then let? count := parse_count_i64 (item items 2) in Ok (Some count)
       else Ok None) in
    Ok (RSRandMember (mkSRandMemberParams key count)).

Definition sinter_operation (items : list Value) : parsed ReadOperation :=
  if argc items <? 2 then Err (WrongArgCount (str "SINTER"))
  else let? keys := strings_from items 1 (InvalidArgument (str "key")) in Ok (RSInter (mkSInterParams keys)).

Definition sunion_operation (items : list Value) : parsed ReadOperation :=
  if argc items <? 2 then Err (WrongArgCount (str "SUNION"))
  else let? keys := strings_from items 1 (InvalidArgument (str "key")) in Ok (RSUnion (mkSUnionParams keys)).

Definition sdiff_operation (items : list Value) : parsed ReadOperation :=
  if argc items <? 2 then Err (WrongArgCount (str "SDIFF"))
  else let? keys := strings_from items 1 (InvalidArgument (str "key")) in Ok (RSDiff (mkSDiffParams keys)).

(** ** Write commands *)

Definition card (s : gset bytes) : Z := Z.of_nat (size s).

Definition sadd_loop (els : list bytes) (s : gset bytes) : gset bytes * Z :=
  foldl (fun '(s, count) v => ({[v]} ∪ s, if decide (v ∈ s) then count else count + 1)) (s, 0) els.

Definition sadd_mutate (cmd : SAddReq) (entry : EntrySnapshot MyValue) (write_clock : Z) (h : Heap) : mutation :=
  match data (value entry) with
  | VSet set =>
      let '(s, count) := sadd_loop (sadd_elements cmd) (set_at h set) in
      (put_set h set s, (write_back entry, Integer count))
  | _ => (h, (MAbort, wrong_type))
  end.

Definition sadd_init (cmd : SAddReq) (h : Heap) : mutation :=
  let s := foldl (fun s v => {[v]} ∪ s) ∅ (sadd_elements cmd) in
  let '(h', v) := alloc_set h s in
  (h', (MInsert (my_value_new v) Persistent, Integer (Z.of_nat (length (sadd_elements cmd))))).

#[global] Instance sadd_compute : ComputeCommand SAddReq := {
  key := sadd_key;
  into_base_op := SAdd;
  mutate := sadd_mutate;
  init := sadd_init
}.

Definition srem_loop (members : list bytes) (s : gset bytes) : gset bytes * Z :=
  foldl (fun '(s, count) v => (s ∖ {[v]}, if decide (v ∈ s) then count + 1 else count)) (s, 0) members.

Definition srem_mutate (cmd : SRemReq) (entry : EntrySnapshot MyValue) (write_clock : Z) (h : Heap) : mutation :=
  match data (value entry) with
  | VSet set =>
      let '(s, deleted_count) := srem_loop (srem_members cmd) (set_at h set) in
      let h' := put_set h set s in
      if deleted_count =? 0 then (h', (write_back entry, Integer 0))
      else if card s =? 0 then (h', (MRemove, Integer deleted_count))
      else (h', (write_back entry, Integer deleted_count))
  | _ => (h, (MAbort, wrong_type))
  end.

Definition srem_init (cmd : SRemReq) (h : Heap) : mutation := (h, (MAbort, Integer 0)).

#[global] Instance srem_compute : ComputeCommand SRemReq := {
  key := srem_key;
  into_base_op := SRem;
  mutate := srem_mutate;
  init := srem_init
}.

(** [let ValueObject::Set(data) = value.data] and its lock. *)
Definition set_of (h : Heap) (e : EntrySnapshot MyValue) : option (gset bytes) :=
  match data (value e) with
  | VSet l => Some (set_at h l)
  | _ => None
  end.

(** The loop of SINTERSTORE; it stops at the first missing key. *)
Fixpoint sinterstore_loop (h : Heap) (entries : list (option (EntrySnapshot MyValue)))
    (intersection : option (gset bytes)) : result (option (gset bytes)) Value :=
  match entries with
  | [] => Ok intersection
  | None :: _ => Ok (Some ∅)
  | Some snapshot :: entries' =>
      match set_of h snapshot with
      | None => Err (protocol_error WrongType)
      | Some set =>
          sinterstore_loop h entries'
            (Some (match intersection with None => set | Some result => result ∩ set end))
      end
  end.

Definition sinterstore_mutate (cmd : SInterStoreReq) (read_entries : list (option (EntrySnapshot MyValue)))
    (write_clock : Z) (h : Heap) : mutation :=
  match sinterstore_loop h read_entries None with
  | Err e => (h, (MAbort, e))
  | Ok intersection =>
      let result := default ∅ intersection in
      if card result =? 0 then (h, (MRemove, Integer 0))
      else
        let '(h', v) := alloc_set h result in
        (h', (MInsert (my_value_new v) Persistent, Integer (card result)))
  end.

#[global] Instance sinterstore_compute : MultiReadComputeCommand SInterStoreReq := {
  write_key := sis_key;
  read_keys := sis_keys;
  multi_into_base_op := SInterStore;
  multi_mutate := sinterstore_mutate
}.

(** ** Reads *)

Definition not_a_set : Value := protocol_error (InvalidArgument (str "There is a value that is not a set")).

Definition sismember_execute (cmd : SIsMemberParams) (h : Heap) (v : option (EntrySnapshot MyValue)) : Value :=
  match v with
  | None => Integer 0
  | Some e =>
      match data (value e) with
      | VSet set => if decide (sismember_member cmd ∈ set_at h set) then Integer 1 else Integer 0
      | _ => protocol_error WrongType
      end
  end.

#[global] Instance sismember_read : ReadCommand SIsMemberParams := {
  rkey := sismember_key;
  execute := sismember_execute
}.

Definition scard_execute (cmd : SCardParams) (h : Heap) (v : option (EntrySnapshot MyValue)) : Value :=
  match v with
  | None => Integer 0
  | Some e =>
      match data (value e) with
      | VSet set => Integer (card (set_at h set))
      | _ => protocol_error WrongType
      end
  end.

#[global] Instance scard_read : ReadCommand SCardParams := { rkey := scard_key; execute := scard_execute }.

Section Iterating.
Context `{E : Env}.

Definition smembers_execute (cmd : SMembersParams) (h : Heap) (v : option (EntrySnapshot MyValue)) : Value :=
  match v with
  | None => Set_ []
  | Some e =>
      match data (value e) with
      | VSet set => Set_ (bulk <$> set_iter set (set_at h set))
      | _ => protocol_error WrongType
      end
  end.

#[global] Instance smembers_read : ReadCommand SMembersParams := {
  rkey := smembers_key;
  execute := smembers_execute
}.

Definition empty_result (cmd : SRandMemberParams) : Value :=
  match srand_count cmd with
  | None => BulkString None
  | Some _ => Array (Some [])
  end.

(** [checked_abs] fails on [i64::MIN] only. *)
Definition srandmember_execute (cmd : SRandMemberParams) (h : Heap) (v : option (EntrySnapshot MyValue)) : Value :=
  match v with
  | None => empty_result cmd
  | Some e =>
      match data (value e) with
      | VSet set =>
          let guard := set_at h set in
          if card guard =? 0 then empty_result cmd
          else
            match srand_count cmd with
            | None => BulkString (rand_choose (set_iter set guard))
            | Some count =>
                if count =? 0 then Array (Some [])
                else if 0 <? count then
                  let take_count := Z.min count (card guard) in
                  Array (Some (bulk <$> rand_choose_multiple take_count (set_iter set guard)))
                else if count =? i64_min then Error (str "ERR value is out of range, must be positive")
                else
                  let requested := Z.abs count in
                  let members := set_iter set guard in
                  if negb (try_reserve requested) then Error (str "ERR count is too large")
                  else
                    Array (Some ((fun i => BulkString (members !! Z.to_nat (rand_gen_range i (Z.of_nat (length members)))))
                      <$> seq 0 (Z.to_nat requested)))
            end
      | _ => protocol_error WrongType
      end
  end.

#[global] Instance srandmember_read : ReadCommand SRandMemberParams := {
  rkey := srand_key;
  execute := srandmember_execute
}.

(** A set that was built for the answer. *)
Definition set_reply (h : Heap) (s : gset bytes) : Value := Set_ (bulk <$> set_iter (next h) s).

Fixpoint sdiff_loop (h : Heap) (values : list (option (EntrySnapshot MyValue)))
    (results : option (gset bytes)) : result (option (gset bytes)) Value :=
  match values with
  | [] => Ok results
  | None :: values' => sdiff_loop h values' results
  | Some v :: values' =>
      match set_of h v with
      | None => Err not_a_set
      | Some data => sdiff_loop h values' ((fun results => results ∖ data) <$> results)
      end
  end.

Definition sdiff_execute (cmd : SDiffParams) (h : Heap) (values : list (option (EntrySnapshot MyValue))) : Value :=
  let finish values results :=
    match sdiff_loop h values results with
    | Err e => e
    | Ok results => set_reply h (default ∅ results)
    end in
  match values with
  | [] => protocol_error (WrongArgCount (str "wrong number of arguments for command"))
  | None :: values' => finish values' None
  | Some v :: values' =>
      match set_of h v with
      | None => not_a_set
      | Some data => finish values' (Some data)
      end
  end.

#[global] Instance sdiff_read : MultiReadCommand SDiffParams := {
  rkeys := sdiff_keys;
  multi_execute := sdiff_execute
}.

Fixpoint sinter_loop (h : Heap) (values : list (option (EntrySnapshot MyValue)))
    (results : option (gset bytes)) : result (option (gset bytes)) Value :=
  match values with
  | [] => Ok results
  | None :: values' => sinter_loop h values' (Some ∅)
  | Some v :: values' =>
      match set_of h v with
      | None => Err not_a_set
      | Some data =>
          match results with
          | None => sinter_loop h values' (Some data)
          | Some set =>
              if card set =? 0 then sinter_loop h values' (Some set)
              else sinter_loop h values' (Some (set ∩ data))
          end
      end
  end.

Definition sinter_execute (cmd : SInterParams) (h : Heap) (values : list (option (EntrySnapshot MyValue))) : Value :=
  match sinter_loop h values None with
  | Err e => e
  | Ok results => set_reply h (default ∅ results)
  end.

#[global] Instance sinter_read : MultiReadCommand SInterParams := {
  rkeys := sinter_keys;
  multi_execute := sinter_execute
}.

Fixpoint sunion_loop (h : Heap) (values : list (option (EntrySnapshot MyValue))) (results : gset bytes)
    : result (gset bytes) Value :=
  match values with
  | [] => Ok results
  | None :: values' => sunion_loop h values' results
  | Some v :: values' =>
      match set_of h v with
      | None => Err not_a_set
      | Some data => sunion_loop h values' (results ∪ data)
      end
  end.

Definition sunion_execute (cmd : SUnionParams) (h : Heap) (values : list (option (EntrySnapshot MyValue))) : Value :=
  match sunion_loop h values ∅ with
  | Err e => e
  | Ok results => set_reply h results
  end.

#[global] Instance sunion_read : MultiReadCommand SUnionParams := {
  rkeys := sunion_keys;
  multi_execute := sunion_execute
}.
End Iterating.

(** ** The cache methods *)

Definition s_rem (c : MyCache) (param : SRemReq) (u : Update) := execute_compute c param u.
Definition s_add (c : MyCache) (param : SAddReq) (u : Update) := execute_compute c param u.
Definition s_inter_store (c : MyCache) (param : SInterStoreReq) (u : Update) := execute_multi_read_compute c param u.

(** [cache.mocha.get_entry]; the database has been found before. *)
Definition find_entry (c : MyCache) (n : Z) (k : bytes) : MyCache * option (EntrySnapshot MyValue) :=
  match get_db c n with
  | Some db => lookup_entry c n db k
  | None => (c, None)
  end.

Fixpoint sunionstore_loop (c : MyCache) (n : Z) (keys : list bytes) (results : gset bytes)
    : MyCache * result (gset bytes) Value :=
  match keys with
  | [] => (c, Ok results)
  | key :: keys' =>
      let '(c1, r) := find_entry c n key in
      match r with
      | None => sunionstore_loop c1 n keys' results
      | Some value =>
          match set_of (heap c1) value with
          | None => (c1, Err not_a_set)
          | Some data => sunionstore_loop c1 n keys' (results ∪ data)
          end
      end
  end.

Fixpoint sdiffstore_loop (c : MyCache) (n : Z) (keys : list bytes) (results : option (gset bytes))
    : MyCache * result (option (gset bytes)) Value :=
  match keys with
  | [] => (c, Ok results)
  | key :: keys' =>
      let '(c1, r) := find_entry c n key in
      match r with
      | None => sdiffstore_loop c1 n keys' results
      | Some value =>
          match set_of (heap c1) value with
          | None => (c1, Err not_a_set)
          | Some data => sdiffstore_loop c1 n keys' ((fun results => results ∖ data) <$> results)
          end
      end
  end.

(** Deleting the destination if it is there, then SADD of the result. *)
Definition store_set (c : MyCache) (key : bytes) (elements : list bytes) (u : Update) : MyCache * Update * Value :=
  let '(c1, r) := find_entry c (db_number u) key in
  let '(c2, u2) :=
    match r with
    | Some _ => let '(c2, u2, _) := del c1 (mkDelReq key) u in (c2, u2)
    | None => (c1, u)
    end in
  s_add c2 (mkSAddReq key elements) u2.

Section Stores.
Context `{E : Env}.

Definition redis_sunionstore (c : MyCache) (param : SUnionStoreParams) (u : Update) : MyCache * Update * Value :=
  match get_cache c (db_number u) with
  | Err err => (c, u, err)
  | Ok _ =>
      let '(c1, r) := sunionstore_loop c (db_number u) (sus_keys param) ∅ in
      match r with
      | Err e => (c1, u, e)
      | Ok results => store_set c1 (sus_key param) (set_iter (next (heap c1)) results) u
      end
  end.

Definition redis_sdiffstore (c : MyCache) (param : SDiffStoreParams) (u : Update) : MyCache * Update * Value :=
  match get_cache c (db_number u) with
  | Err err => (c, u, err)
  | Ok _ =>
      let finish c1 keys results :=
        let '(c2, r) := sdiffstore_loop c1 (db_number u) keys results in
        match r with
        | Err e => (c2, u, e)
        | Ok results =>
            let elements := match results with Some res => set_iter (next (heap c2)) res | None => [] end in
            store_set c2 (sds_key param) elements u
        end in
      match sds_keys param with
      | [] => (c, u, protocol_error (WrongArgCount (str "wrong number of arguments for command")))
      | key :: keys =>
          let '(c1, r) := find_entry c (db_number u) key in
          match r with
          | None => finish c1 keys None
          | Some value =>
              match set_of (heap c1) value with
              | None => (c1, u, not_a_set)
              | Some data => finish c1 keys (Some data)
              end
          end
      end
  end.
End Stores.

(** ** The commands on plain sets *)

Definition on_set (e : EntrySnapshot PValue)
    (f : gset bytes -> MochaOperation PValue * Value) : MochaOperation PValue * Value :=
  match pdata (value e) with
  | PSet s => f s
  | _ => (MAbort, wrong_type)
  end.

(** SADD on an existing set answers how much it grew. *)
#[global] Instance sadd_pure : PureCommand SAddReq := {
  pmutate cmd e _ := on_set e (fun s =>
    let s' := list_to_set (sadd_elements cmd) ∪ s in (pwrite_back e (PSet s'), Integer (card s' - card s)));
  pinit cmd := (MInsert (pvalue_new (PSet (list_to_set (sadd_elements cmd)))) Persistent,
    Integer (Z.of_nat (length (sadd_elements cmd))))
}.

(** SREM removes the key with the last member. *)
#[global] Instance srem_pure : PureCommand SRemReq := {
  pmutate cmd e _ := on_set e (fun s =>
    let s' := s ∖ list_to_set (srem_members cmd) in
    (if decide (s <> ∅ /\ s' = ∅) then MRemove else pwrite_back e (PSet s'), Integer (card s - card s')));
  pinit cmd := (MAbort, Integer 0)
}.

Definition pset_of (e : EntrySnapshot PValue) : option (gset bytes) :=
  match pdata (value e) with
  | PSet s => Some s
  | _ => None
  end.

(** The sets under several keys, missing keys included; [None] if some key
    holds something else. *)
Definition set_args {A} (f : A -> option (gset bytes)) (es : list (option A)) : option (list (option (gset bytes))) :=
  mapM (fun o => match o with None => Some None | Some e => Some <$> f e end) es.

Definition the_set (o : option (gset bytes)) : gset bytes := default ∅ o.

Definition inter_list (l : list (gset bytes)) : gset bytes :=
  match l with
  | [] => ∅
  | s :: l' => foldl (∩) s l'
  end.

(** The entries up to the first missing one. *)
Fixpoint to_missing {A} (es : list (option A)) : list (option A) :=
  match es with
  | [] => []
  | None :: _ => [None]
  | Some e :: es' => Some e :: to_missing es'
  end.

(** SINTERSTORE: the types of the keys after a missing one are not looked at. *)
#[global] Instance sinterstore_pure : PureMultiCommand SInterStoreReq := {
  pmulti_mutate _ es _ :=
    match set_args pset_of (to_missing es) with
    | None => (MAbort, protocol_error WrongType)
    | Some l =>
        let s := inter_list (the_set <$> l) in
        if decide (s = ∅) then (MRemove, Integer 0)
        else (MInsert (pvalue_new (PSet s)) Persistent, Integer (card s))
    end
}.

Definition pread_set {C} (missing : C -> Value) (f : C -> gset bytes -> Value -> Prop)
    (cmd : C) (e : option (EntrySnapshot PValue)) (r : Value) : Prop :=
  match e with
  | None => r = missing cmd
  | Some e => match pdata (value e) with PSet s => f cmd s r | _ => r = protocol_error WrongType end
  end.

(** [r] lists the members of [s], in some order. *)
Definition lists_set (s : gset bytes) (r : Value) : Prop := exists l, l ≡ₚ elements s /\ r = Set_ (bulk <$> l).

#[global] Instance smembers_pure : PureRead SMembersParams := {
  pread := pread_set (fun _ => Set_ []) (fun _ s r => lists_set s r)
}.

#[global] Instance sismember_pure : PureRead SIsMemberParams := {
  pread := pread_set (fun _ => Integer 0) (fun cmd s r =>
    r = Integer (if bool_decide (sismember_member cmd ∈ s) then 1 else 0))
}.

#[global] Instance scard_pure : PureRead SCardParams := {
  pread := pread_set (fun _ => Integer 0) (fun _ s r => r = Integer (card s))
}.

(** SRANDMEMBER: one member; [count] different ones, or all; or [-count] of
    them with repetitions. *)
Definition pick (cmd : SRandMemberParams) (s : gset bytes) (r : Value) : Prop :=
  if decide (s = ∅) then r = empty_result cmd
  else
    match srand_count cmd with
    | None => exists x, x ∈ s /\ r = bulk x
    | Some count =>
        if 0 <=? count then
          exists l, NoDup l /\ Forall (.∈ s) l /\ Z.of_nat (length l) = Z.min count (card s) /\
            r = Array (Some (bulk <$> l))
        else
          (exists l, Forall (.∈ s) l /\ Z.of_nat (length l) = - count /\ r = Array (Some (bulk <$> l))) \/
          (exists e, r = Error e)
    end.

#[global] Instance srandmember_pure : PureRead SRandMemberParams := {
  pread := pread_set empty_result pick
}.

(** An operation on the sets under several keys. *)
Definition pread_sets (f : list (gset bytes) -> gset bytes) (es : list (option (EntrySnapshot PValue))) (r : Value)
    : Prop :=
  match set_args pset_of es with
  | None => r = not_a_set
  | Some l => lists_set (f (the_set <$> l)) r
  end.

Definition diff_list (l : list (gset bytes)) : gset bytes :=
  match l with
  | [] => ∅
  | s :: l' => s ∖ ⋃ l'
  end.

#[global] Instance sinter_pure : PureMultiRead SInterParams := { pmulti_read _ := pread_sets inter_list }.
#[global] Instance sunion_pure : PureMultiRead SUnionParams := { pmulti_read _ := pread_sets union_list }.
#[global] Instance sdiff_pure : PureMultiRead SDiffParams := {
  pmulti_read _ es r :=
    match es with
    | [] => r = protocol_error (WrongArgCount (str "wrong number of arguments for command"))
    | _ => pread_sets diff_list es r
    end
}.

(** ** The loops compute the specification *)

Lemma foldl_add (els : list bytes) (s : gset bytes) : foldl (fun s v => {[v]} ∪ s) s els = list_to_set els ∪ s.
Proof.
  revert s. induction els as [|v els IH]; intros s; cbn; [set_solver|]. rewrite IH. set_solver.
Qed.

Lemma card_add (v : bytes) (s : gset bytes) : card ({[v]} ∪ s) = if decide (v ∈ s) then card s else card s + 1.
Proof.
  unfold card. case_decide as Hv.
  - by replace ({[v]} ∪ s) with s by set_solver.
  - rewrite size_union, size_singleton by set_solver. lia.
Qed.

Lemma sadd_loop_spec els s : let s' := list_to_set els ∪ s in sadd_loop els s = (s', card s' - card s).
Proof.
  cbv zeta. unfold sadd_loop. rewrite <- foldl_add.
  induction els as [|v els IH] using rev_ind; cbn; [f_equal; lia|]. rewrite !foldl_snoc, IH.
  rewrite card_add. f_equal. case_decide; lia.
Qed.

Lemma card_remove (v : bytes) (s : gset bytes) : card (s ∖ {[v]}) = if decide (v ∈ s) then card s - 1 else card s.
Proof.
  case_decide as Hv.
  - pose proof (card_add v (s ∖ {[v]})) as E. rewrite decide_False in E by set_solver.
    rewrite <- (union_difference_singleton_L v s Hv) in E. lia.
  - by replace (s ∖ {[v]}) with s by set_solver.
Qed.

Lemma srem_loop_spec ms s : let s' := s ∖ list_to_set ms in srem_loop ms s = (s', card s - card s').
Proof.
  cbv zeta. unfold srem_loop. induction ms as [|v ms IH] using rev_ind; cbn.
  { replace (s ∖ ∅) with s by set_solver. f_equal. lia. }
  rewrite foldl_snoc, IH. replace (s ∖ list_to_set (ms ++ [v])) with (s ∖ list_to_set ms ∖ {[v]}) by set_solver.
  rewrite card_remove. f_equal. case_decide; lia.
Qed.

Lemma card_0 s : card s = 0 <-> s = ∅.
Proof.
  unfold card. split; [|intros ->; by rewrite size_empty].
  intros E. apply leibniz_equiv, size_empty_inv. lia.
Qed.

(** The sets of the entries read are those of the plain entries. *)
Lemma set_of_abs h e pe : abs_snapshot h e = Some pe -> set_of h e = pset_of pe.
Proof.
  unfold abs_snapshot, set_of, pset_of. intros Hr.
  destruct (abs_value h (value e)) as [pv|] eqn:Hpv; [|done]. injection Hr as <-. cbn [value].
  shape_cases Hpv. unfold set_at. by rewrite Hshape.
Qed.

Lemma set_args_cons {A} (f : A -> option (gset bytes)) o es :
  set_args f (o :: es) =
    (let* s := match o with None => Some None | Some e => Some <$> f e end in
     let* l := set_args f es in Some (s :: l)).
Proof. done. Qed.

Lemma set_args_abs h rs prs : Forall2 (abs_read h) rs prs -> set_args (set_of h) rs = set_args pset_of prs.
Proof.
  induction 1 as [|r pr rs prs Hr _ IH]; [done|]. rewrite !set_args_cons, IH.
  destruct r as [e|], pr as [pe|]; cbn in Hr; try done. by rewrite (set_of_abs _ _ _ Hr).
Qed.

Lemma to_missing_abs h rs prs : Forall2 (abs_read h) rs prs -> Forall2 (abs_read h) (to_missing rs) (to_missing prs).
Proof.
  induction 1 as [|r pr rs prs Hr _ IH]; [constructor|].
  destruct r as [e|], pr as [pe|]; cbn in Hr; try done; cbn; repeat constructor; done.
Qed.

Lemma foldl_inter_empty (l : list (gset bytes)) : foldl (∩) ∅ l = ∅.
Proof. induction l as [|s l IH]; [done|]. cbn. by replace (∅ ∩ s) with (∅ : gset bytes) by set_solver. Qed.

(** The intersection of what was collected so far with the rest. *)
Definition inter_acc (acc : option (gset bytes)) (l : list (gset bytes)) : option (gset bytes) :=
  match acc with
  | Some s => Some (foldl (∩) s l)
  | None => match l with [] => None | s :: l' => Some (foldl (∩) s l') end
  end.

Lemma inter_acc_cons acc s l :
  inter_acc acc (s :: l) = inter_acc (Some (match acc with None => s | Some r => r ∩ s end)) l.
Proof. by destruct acc. Qed.

Lemma inter_acc_list l : the_set (inter_acc None l) = inter_list l.
Proof. by destruct l. Qed.

Lemma sinterstore_loop_spec h es acc :
  sinterstore_loop h es acc =
    match set_args (set_of h) (to_missing es) with
    | None => Err (protocol_error WrongType)
    | Some l => Ok (inter_acc acc (the_set <$> l))
    end.
Proof.
  revert acc. induction es as [|[e|] es IH]; intros acc; cbn [to_missing sinterstore_loop].
  - by destruct acc.
  - rewrite set_args_cons. destruct (set_of h e) as [s|]; [|done]. cbn [fmap option_fmap option_map].
    rewrite IH. destruct (set_args (set_of h) (to_missing es)) as [l|]; [|done]. cbn [fmap list_fmap].
    by rewrite inter_acc_cons.
  - destruct acc as [s|]; [|done]. cbn. by replace (s ∩ ∅) with (∅ : gset bytes) by set_solver.
Qed.

Lemma sinter_loop_spec h es acc :
  sinter_loop h es acc =
    match set_args (set_of h) es with
    | None => Err not_a_set
    | Some l => Ok (inter_acc acc (the_set <$> l))
    end.
Proof.
  revert acc. induction es as [|[e|] es IH]; intros acc; cbn [sinter_loop]; [by destruct acc| |];
    rewrite set_args_cons.
  - destruct (set_of h e) as [s|]; [|done]. cbn [fmap option_fmap option_map].
    destruct acc as [r|]; [destruct (Z.eqb_spec (card r) 0) as [E|E]|]; rewrite IH;
      destruct (set_args (set_of h) es) as [l|]; try done.
    apply card_0 in E as ->. cbn. by replace (∅ ∩ s) with (∅ : gset bytes) by set_solver.
  - rewrite IH. destruct (set_args (set_of h) es) as [l|]; [|done]. cbn. destruct acc as [r|]; [|done]. cbn.
    by replace (r ∩ ∅) with (∅ : gset bytes) by set_solver.
Qed.

Lemma sunion_loop_spec h es acc :
  sunion_loop h es acc =
    match set_args (set_of h) es with
    | None => Err not_a_set
    | Some l => Ok (acc ∪ ⋃ (the_set <$> l))
    end.
Proof.
  revert acc. induction es as [|[e|] es IH]; intros acc; cbn [sunion_loop].
  - cbn. f_equal. set_solver.
  - rewrite set_args_cons. destruct (set_of h e) as [s|]; [|done]. cbn [fmap option_fmap option_map].
    rewrite IH. destruct (set_args (set_of h) es) as [l|]; [|done]. cbn. f_equal. set_solver.
  - rewrite set_args_cons, IH. destruct (set_args (set_of h) es) as [l|]; [|done]. cbn. f_equal. set_solver.
Qed.

Lemma sdiff_loop_spec h es acc :
  sdiff_loop h es acc =
    match set_args (set_of h) es with
    | None => Err not_a_set
    | Some l => Ok ((fun s => s ∖ ⋃ (the_set <$> l)) <$> acc)
    end.
Proof.
  revert acc. induction es as [|[e|] es IH]; intros acc; cbn [sdiff_loop].
  - cbn. f_equal. destruct acc; cbn; f_equal. set_solver.
  - rewrite set_args_cons. destruct (set_of h e) as [s|]; [|done]. cbn [fmap option_fmap option_map].
    rewrite IH. destruct (set_args (set_of h) es) as [l|]; [|done]. cbn. f_equal.
    destruct acc; cbn; f_equal. set_solver.
  - rewrite set_args_cons, IH. destruct (set_args (set_of h) es) as [l|]; [|done]. cbn. f_equal.
    destruct acc; cbn; f_equal. set_solver.
Qed.

(** ** The laws *)

Lemma set_at_eq h l x : sets h !! l = Some x -> set_at h l = x.
Proof. unfold set_at. by intros ->. Qed.

Lemma put_set_same h l x : sets h !! l = Some x -> put_set h l x = h.
Proof. intros Hl. unfold put_set. rewrite insert_id by done. by destruct h. Qed.

Ltac set_law Hpv :=
  unfold on_set; cbn [value]; shape_cases Hpv; try (by apply refuse_ok);
  match goal with H : sets _ !! _ = Some _ |- _ => rewrite ?(set_at_eq _ _ _ H) end.

Lemma inplace_set h e pv l x r pe : HeapInv h -> (forall a, expire_at e = Some a -> is_u64 a) ->
  abs_value h (value e) = Some pv -> data (value e) = VSet l -> pe = mkEntrySnapshot pv (expire_at e) ->
  mutation_ok e pv h (put_set h l x, (write_back e, r)) (pwrite_back pe (PSet x), r).
Proof. intros Hh He Hpv Hd ->. by apply (inplace_ok h e pv Hh He Hpv l (PSet x)). Qed.

Lemma remove_set h e pv l x r : HeapInv h -> (forall a, expire_at e = Some a -> is_u64 a) ->
  abs_value h (value e) = Some pv -> data (value e) = VSet l ->
  mutation_ok e pv h (put_set h l x, (MRemove, r)) (MRemove, r).
Proof.
  intros Hh He Hpv Hd. apply remove_ok. by apply (frame_inplace h e pv Hh He Hpv l (PSet x)).
Qed.

Lemma init_set h x r : HeapInv h ->
  init_ok h (let '(h', v) := alloc_set h x in (h', (MInsert (my_value_new v) Persistent, r)))
    (MInsert (pvalue_new (PSet x)) Persistent, r).
Proof. intros Hh. by apply (init_alloc_ok h (PSet x)). Qed.

#[global] Instance sadd_laws : ComputeLaws SAddReq.
Proof.
  apply (compute_laws (fun _ => True)).
  - intros cmd e pv wc h Hh _ _ He Hpv. cbn. unfold sadd_mutate. set_law Hpv.
    rewrite sadd_loop_spec. by apply inplace_set.
  - intros cmd h Hh _. cbn. unfold sadd_init. rewrite foldl_add.
    replace (list_to_set (sadd_elements cmd) ∪ ∅) with (list_to_set (sadd_elements cmd) : gset bytes) by set_solver.
    by apply init_set.
Defined.

#[global] Instance srem_laws : ComputeLaws SRemReq.
Proof.
  apply (compute_laws (fun _ => True)).
  - intros cmd e pv wc h Hh _ _ He Hpv. cbn. unfold srem_mutate. set_law Hpv.
    rewrite srem_loop_spec. set (s' := s ∖ list_to_set (srem_members cmd)).
    destruct (Z.eqb_spec (card s - card s') 0) as [E|E].
    + rewrite decide_False, E; [by apply inplace_set|]. intros [Hs Hs'].
      apply Hs, card_0. apply card_0 in Hs'. lia.
    + destruct (Z.eqb_spec (card s') 0) as [E0|E0].
      * rewrite decide_True; [by apply remove_set|]. rewrite <- !card_0. split; [lia|done].
      * rewrite decide_False; [by apply inplace_set|]. intros [_ Hs']. by apply E0, card_0.
  - intros cmd h Hh _. by apply init_refuse_ok.
Defined.

#[global] Instance sinterstore_laws : MultiLaws SInterStoreReq.
Proof.
  constructor. intros cmd rs prs wc h Hh Hwc Hr.
  enough (init_ok h (sinterstore_mutate cmd rs wc h) (pmulti_mutate cmd prs wc)) as H by exact H.
  unfold sinterstore_mutate. cbn [pmulti_mutate sinterstore_pure]. rewrite sinterstore_loop_spec.
  rewrite (set_args_abs h _ _ (to_missing_abs h _ _ Hr)).
  destruct (set_args pset_of (to_missing prs)) as [l|]; [|by apply init_refuse_ok].
  pose proof (inter_acc_list (the_set <$> l)) as E. unfold the_set at 1 in E. rewrite E. clear E.
  set (s := inter_list _). case_decide as Es.
  - rewrite (proj2 (Z.eqb_eq _ _) (proj2 (card_0 s) Es)). split_and!; [done|by apply frame_refl|done].
  - destruct (Z.eqb_spec (card s) 0) as [E0|_]; [by apply card_0 in E0|]. by apply init_set.
Qed.

Ltac set_read Hr :=
  read_law Hr; match goal with H : sets _ !! _ = Some _ |- _ => rewrite (set_at_eq _ _ _ H) end.

#[global] Instance sismember_laws : ReadLaws SIsMemberParams.
Proof.
  constructor. intros cmd h r pr Hh Hr. cbn. unfold pread_set, sismember_execute. set_read Hr.
  case_decide as Hd; [by rewrite bool_decide_true|by rewrite bool_decide_false].
Qed.

#[global] Instance scard_laws : ReadLaws SCardParams.
Proof. constructor. intros cmd h r pr Hh Hr. cbn. unfold pread_set, scard_execute. by set_read Hr. Qed.

Section IteratingLaws.
Context `{E : Env} `{!EnvOk E}.

#[global] Instance smembers_laws : ReadLaws SMembersParams.
Proof.
  constructor. intros cmd h r pr Hh Hr. cbn. unfold pread_set, smembers_execute. set_read Hr.
  eexists. split; [apply set_iter_perm|done].
Qed.

Lemma members_of (l : loc) (s : gset bytes) x : x ∈ set_iter l s <-> x ∈ s.
Proof. by rewrite (set_iter_perm l s), elem_of_elements. Qed.

Lemma members_length (l : loc) (s : gset bytes) : Z.of_nat (length (set_iter l s)) = card s.
Proof. by rewrite (set_iter_perm l s). Qed.

(** A draw with repetitions. *)
Lemma draws (l : loc) (s : gset bytes) n : s <> ∅ ->
  let members := set_iter l s in
  exists xs, Forall (.∈ s) xs /\ length xs = n /\
    (fun i => BulkString (members !! Z.to_nat (rand_gen_range i (Z.of_nat (length members))))) <$> seq 0 n = bulk <$> xs.
Proof.
  intros Hs members. assert (Hlen : 0 < Z.of_nat (length members)).
  { unfold members. rewrite members_length. rewrite <- card_0 in Hs. unfold card in *. lia. }
  generalize 0%nat. induction n as [|n IH]; intros i; [by exists []|].
  destruct (IH (S i)) as (xs & Hin & Hn & Hx). pose proof (rand_gen_range_lt i _ Hlen) as Hr.
  destruct (lookup_lt_is_Some_2 members (Z.to_nat (rand_gen_range i (Z.of_nat (length members))))) as [x Hxi]; [lia|].
  exists (x :: xs). cbn. rewrite Hxi, Hx. split_and!; [|by rewrite Hn|done].
  constructor; [|done]. apply members_of with l. by eapply list_elem_of_lookup_2.
Qed.

#[global] Instance srandmember_laws : ReadLaws SRandMemberParams.
Proof.
  constructor. intros cmd h r pr Hh Hr. cbn. unfold pread_set, srandmember_execute. set_read Hr.
  unfold pick. destruct (Z.eqb_spec (card s) 0) as [E0|E0]; [by rewrite decide_True by (by apply card_0)|].
  rewrite decide_False by (by rewrite <- card_0). assert (0 < card s) by (unfold card in *; lia).
  assert (Hs : s <> ∅) by (by rewrite <- card_0). destruct (srand_count cmd) as [count|].
  - destruct (Z.eqb_spec count 0) as [->|En].
    { exists []. cbn. split_and!; try done; [constructor|lia]. }
    destruct (Z.ltb_spec 0 count).
    + destruct (Z.leb_spec 0 count); [|lia]. pose proof (rand_choose_multiple_sub (Z.min count (card s)) (set_iter l s)) as Hsub.
      eexists. split_and!; [| | |done].
      * apply submseteq_Permutation in Hsub as [k' Hk]. pose proof (NoDup_elements s) as Hnd.
        rewrite <- (set_iter_perm l s), Hk in Hnd. by apply NoDup_app in Hnd as [? _].
      * apply Forall_forall. intros x Hx. apply members_of with l. by eapply elem_of_submseteq.
      * rewrite rand_choose_multiple_len by lia. rewrite members_length. lia.
    + destruct (Z.leb_spec 0 count); [lia|]. destruct (count =? i64_min); [right; by eexists|].
      destruct (try_reserve _); [left|right; by eexists]. cbn [negb].
      destruct (draws l s (Z.to_nat (Z.abs count)) Hs) as (xs & Hin & Hn & ->).
      exists xs. split_and!; [done|lia|done].
  - destruct (rand_choose_some (set_iter l s)) as [x Hx].
    { intros E1. pose proof (members_length l s) as Hl. rewrite E1 in Hl. cbn in Hl. lia. }
    exists x. rewrite Hx. split; [|done]. apply members_of with l. by apply rand_choose_in.
Qed.

Lemma set_reply_lists h s : lists_set s (set_reply h s).
Proof. eexists. split; [apply set_iter_perm|done]. Qed.

#[global] Instance sinter_laws : MultiReadLaws SInterParams.
Proof.
  constructor. intros cmd h rs prs Hh Hr. cbn. unfold sinter_execute, pread_sets.
  rewrite sinter_loop_spec, (set_args_abs h _ _ Hr). destruct (set_args pset_of prs) as [l|]; [|done].
  pose proof (inter_acc_list (the_set <$> l)) as E0. unfold the_set at 1 in E0. rewrite E0. apply set_reply_lists.
Qed.

#[global] Instance sunion_laws : MultiReadLaws SUnionParams.
Proof.
  constructor. intros cmd h rs prs Hh Hr. cbn. unfold sunion_execute, pread_sets.
  rewrite sunion_loop_spec, (set_args_abs h _ _ Hr). destruct (set_args pset_of prs) as [l|]; [|done].
  replace (∅ ∪ ⋃ (the_set <$> l)) with (⋃ (the_set <$> l)) by set_solver. apply set_reply_lists.
Qed.

#[global] Instance sdiff_laws : MultiReadLaws SDiffParams.
Proof.
  constructor. intros cmd h rs prs Hh Hr. cbn. unfold sdiff_execute, pread_sets.
  destruct Hr as [|r pr rs prs Hr1 Hr]; [done|]. rewrite set_args_cons, <- (set_args_abs h _ _ Hr).
  destruct r as [e|], pr as [pe|]; cbn in Hr1; try done.
  - rewrite <- (set_of_abs _ _ _ Hr1). destruct (set_of h e) as [s|]; [|done].
    rewrite sdiff_loop_spec. cbn [fmap option_fmap option_map]. destruct (set_args (set_of h) rs) as [l|]; [|done].
    apply set_reply_lists.
  - rewrite sdiff_loop_spec. destruct (set_args (set_of h) rs) as [l|]; [|done]. cbn.
    replace (∅ ∖ ⋃ (the_set <$> l)) with (∅ : gset bytes) by set_solver. apply set_reply_lists.
Qed.
End IteratingLaws.

(** ** SUNIONSTORE and SDIFFSTORE on the plain store *)

Definition entries_of (m : gmap bytes (Entry PValue)) (ks : list bytes) : list (option (EntrySnapshot PValue)) :=
  (fun k => snapshot <$> m !! k) <$> ks.

(** The destination is overwritten with a fresh set, also with an empty one. *)
Definition spec_store (n : Z) (s : PStore) (k : bytes) (f : list (gset bytes) -> gset bytes) (ks : list bytes)
    : PStore * Value :=
  match s !! Z.to_nat n with
  | None => (s, protocol_error DbNotExist)
  | Some m =>
      match set_args pset_of (entries_of m ks) with
      | None => (s, not_a_set)
      | Some l =>
          let r := f (the_set <$> l) in
          (<[Z.to_nat n := <[k := mkEntry (pvalue_new (PSet r)) None]> m]> s, Integer (card r))
      end
  end.

Definition spec_sunionstore (n : Z) (s : PStore) (p : SUnionStoreParams) : PStore * Value :=
  spec_store n s (sus_key p) union_list (sus_keys p).

Definition spec_sdiffstore (n : Z) (s : PStore) (p : SDiffStoreParams) : PStore * Value :=
  match s !! Z.to_nat n, sds_keys p with
  | Some _, [] => (s, protocol_error (WrongArgCount (str "wrong number of arguments for command")))
  | _, _ => spec_store n s (sds_key p) diff_list (sds_keys p)
  end.

(** Nothing but reads has happened. *)
Definition only_read (c c1 : MyCache) : Prop :=
  CacheInv c1 /\ abs c1 = abs c /\ write_logic_clock c1 = write_logic_clock c.

Section StoreRefine.
Context (n : Z) (m : gmap bytes (Entry PValue)).

Lemma find_entry_spec c k : CacheInv c -> abs c !! Z.to_nat n = Some m ->
  let '(c1, r) := find_entry c n k in only_read c c1 /\ abs_read (heap c1) r (snapshot <$> m !! k).
Proof.
  intros Hc Hm. unfold find_entry. destruct (get_db c n) as [db|] eqn:Hdb.
  2: { rewrite abs_lookup in Hm. unfold get_db in Hdb. by rewrite Hdb in Hm. }
  pose proof (lookup_entry_spec c n db k Hc Hdb) as Hl. destruct (lookup_entry c n db k) as [c1 r].
  destruct Hl as (? & ? & Hh & ? & _ & Hr). rewrite (get_db_abs _ _ _ Hdb) in Hm. injection Hm as <-.
  rewrite Hh. by split_and!.
Qed.

Lemma only_read_trans c c1 c2 : only_read c c1 -> only_read c1 c2 -> only_read c c2.
Proof. intros (? & ? & ?) (? & ? & ?). split_and!; [done|congruence..]. Qed.

Lemma sunionstore_loop_refines ks : forall c acc, CacheInv c -> abs c !! Z.to_nat n = Some m ->
  let '(c1, r) := sunionstore_loop c n ks acc in
  only_read c c1 /\ r = match set_args pset_of (entries_of m ks) with
                        | None => Err not_a_set
                        | Some l => Ok (acc ∪ ⋃ (the_set <$> l))
                        end.
Proof.
  induction ks as [|k ks IH]; intros c acc Hc Hm; cbn [sunionstore_loop].
  { split; [done|]. cbn. f_equal. set_solver. }
  pose proof (find_entry_spec c k Hc Hm) as Hf. destruct (find_entry c n k) as [c1 r].
  destruct Hf as [Ho Hr]. pose proof Ho as (Hc1 & Ha1 & _).
  unfold entries_of. rewrite fmap_cons, set_args_cons. fold (entries_of m ks).
  destruct r as [e|], (m !! k) as [pe|]; cbn in Hr; try done; cbn [fmap option_fmap option_map].
  - rewrite (set_of_abs _ _ _ Hr). destruct (pset_of (snapshot pe)) as [s|]; [|done].
    specialize (IH c1 (acc ∪ s) Hc1 ltac:(by rewrite Ha1)). destruct (sunionstore_loop c1 n ks _) as [c2 r2].
    destruct IH as [Ho2 ->]. split; [by eapply only_read_trans|].
    destruct (set_args pset_of _) as [l|]; [|done]. cbn. f_equal. set_solver.
  - specialize (IH c1 acc Hc1 ltac:(by rewrite Ha1)). destruct (sunionstore_loop c1 n ks _) as [c2 r2].
    destruct IH as [Ho2 ->]. split; [by eapply only_read_trans|].
    destruct (set_args pset_of _) as [l|]; [|done]. cbn. f_equal. set_solver.
Qed.

Lemma sdiffstore_loop_refines ks : forall c acc, CacheInv c -> abs c !! Z.to_nat n = Some m ->
  let '(c1, r) := sdiffstore_loop c n ks acc in
  only_read c c1 /\ r = match set_args pset_of (entries_of m ks) with
                        | None => Err not_a_set
                        | Some l => Ok ((fun s => s ∖ ⋃ (the_set <$> l)) <$> acc)
                        end.
Proof.
  induction ks as [|k ks IH]; intros c acc Hc Hm; cbn [sdiffstore_loop].
  { split; [done|]. cbn. f_equal. destruct acc; cbn; f_equal. set_solver. }
  pose proof (find_entry_spec c k Hc Hm) as Hf. destruct (find_entry c n k) as [c1 r].
  destruct Hf as [Ho Hr]. pose proof Ho as (Hc1 & Ha1 & _).
  unfold entries_of. rewrite fmap_cons, set_args_cons. fold (entries_of m ks).
  destruct r as [e|], (m !! k) as [pe|]; cbn in Hr; try done; cbn [fmap option_fmap option_map].
  - rewrite (set_of_abs _ _ _ Hr). destruct (pset_of (snapshot pe)) as [s|]; [|done].
    specialize (IH c1 ((fun r => r ∖ s) <$> acc) Hc1 ltac:(by rewrite Ha1)).
    cbn [fmap option_fmap] in IH. destruct (sdiffstore_loop c1 n ks _) as [c2 r2].
    destruct IH as [Ho2 ->]. split; [by eapply only_read_trans|].
    destruct (set_args pset_of _) as [l|]; [|done]. cbn. f_equal. destruct acc; cbn; f_equal. set_solver.
  - specialize (IH c1 acc Hc1 ltac:(by rewrite Ha1)). destruct (sdiffstore_loop c1 n ks _) as [c2 r2].
    destruct IH as [Ho2 ->]. split; [by eapply only_read_trans|].
    destruct (set_args pset_of _) as [l|]; [|done]. cbn. f_equal. destruct acc; cbn; f_equal. set_solver.
Qed.
End StoreRefine.

(** SADD on a key that is not there. *)
Lemma s_add_fresh c u k els m : CacheInv c -> is_u64 (write_clock u) -> applies (update_type u) ->
  abs c !! Z.to_nat (db_number u) = Some m -> m !! k = None ->
  refines c u (s_add c (mkSAddReq k els) u)
    (<[Z.to_nat (db_number u) := <[k := mkEntry (pvalue_new (PSet (list_to_set els))) None]> m]> (abs c),
     Integer (Z.of_nat (length els))).
Proof.
  intros Hc Hwc Hu Hm Hk. pose proof (execute_compute_refines c (mkSAddReq k els) u Hc I Hwc Hu) as Hr.
  unfold spec_compute in Hr. rewrite Hm in Hr. cbn in Hr. rewrite Hk in Hr. exact Hr.
Qed.

Lemma store_set_refines c u k els s m : CacheInv c -> is_u64 (write_clock u) -> applies (update_type u) ->
  abs c !! Z.to_nat (db_number u) = Some m -> els ≡ₚ elements s ->
  refines c u (store_set c k els u)
    (<[Z.to_nat (db_number u) := <[k := mkEntry (pvalue_new (PSet s)) None]> m]> (abs c), Integer (card s)).
Proof.
  intros Hc Hwc Hu Hm Hels. unfold store_set.
  assert (Hlen : Z.of_nat (length els) = card s) by (by rewrite Hels).
  assert (Hset : list_to_set els = s) by (apply set_eq; intros x; by rewrite elem_of_list_to_set, Hels, elem_of_elements).
  pose proof (find_entry_spec _ m c k Hc Hm) as Hf. destruct (find_entry c _ k) as [c1 r].
  destruct Hf as [(Hc1 & Ha1 & Hclk1) Hr]. destruct r as [e|], (m !! k) as [pe|] eqn:Ek; cbn in Hr; try done.
  - pose proof (del_refines c1 u Hc1 Hu (mkDelReq k)) as Hd. destruct (del c1 _ u) as [[c2 u2] r2].
    destruct Hd as (Hc2 & Ha2 & _ & Hclk2 & Hsu). pose proof Hsu as (En & Ew & _).
    unfold spec_del in Ha2. rewrite Ha1, Hm in Ha2. cbn in Ha2.
    assert (Hlt : (Z.to_nat (db_number u) < length (abs c))%nat) by (by eapply lookup_lt_Some).
    assert (Hm2 : abs c2 !! Z.to_nat (db_number u) = Some (delete k m))
      by (rewrite Ha2; by apply list_lookup_insert_eq).
    pose proof (s_add_fresh c2 u2 k els (delete k m) Hc2) as Hadd. rewrite En, Ew in Hadd.
    specialize (Hadd Hwc (same_update_applies _ _ Hsu Hu) Hm2 (lookup_delete_eq _ _)).
    destruct (s_add c2 _ u2) as [[c3 u3] r3]. destruct Hadd as (? & Ha3 & -> & Hclk3 & Hsu3). cbn in Ha3.
    split_and!; [done| |by rewrite <- Hlen|congruence|by eapply same_update_trans].
    rewrite Ha3, Ha2, Hset. cbn. by rewrite list_insert_insert_eq, insert_delete_eq.
  - rewrite <- Ha1 in Hm. pose proof (s_add_fresh c1 u k els m Hc1 Hwc Hu Hm Ek) as Hadd.
    eapply refines_after; [done|]. by rewrite <- Ha1, <- Hlen, <- Hset.
Qed.

Section Composed.
Context `{E : Env} `{!EnvOk E} (c : MyCache) (u : Update).
Hypothesis Hc : CacheInv c.
Hypothesis Hwc : is_u64 (write_clock u).
Hypothesis Hu : applies (update_type u).

Lemma redis_sunionstore_refines param :
  refines c u (redis_sunionstore c param u) (spec_sunionstore (db_number u) (abs c) param).
Proof.
  unfold redis_sunionstore, spec_sunionstore, spec_store.
  destruct (get_cache_spec c (db_number u)) as [(db & -> & Hdb & Hab)|[-> Hab]]; rewrite Hab.
  2: { by apply refines_same. }
  pose proof (sunionstore_loop_refines _ _ (sus_keys param) c ∅ Hc Hab) as Hl.
  destruct (sunionstore_loop c _ _ ∅) as [c1 r]. destruct Hl as [(Hc1 & Ha1 & Hclk1) ->].
  destruct (set_args pset_of _) as [l|]; [|by apply refines_same].
  eapply refines_after; [done|]. rewrite <- Ha1. apply store_set_refines; try done.
  - by rewrite Ha1.
  - rewrite set_iter_perm. by replace (∅ ∪ ⋃ (the_set <$> l)) with (⋃ (the_set <$> l)) by set_solver.
Qed.

Lemma redis_sdiffstore_refines param :
  refines c u (redis_sdiffstore c param u) (spec_sdiffstore (db_number u) (abs c) param).
Proof.
  unfold redis_sdiffstore, spec_sdiffstore, spec_store.
  destruct (get_cache_spec c (db_number u)) as [(db & -> & Hdb & Hab)|[-> Hab]]; rewrite Hab.
  2: { by apply refines_same. }
  set (m := abs_db _ _ db) in *. destruct (sds_keys param) as [|k ks]; [by apply refines_same|].
  pose proof (find_entry_spec _ m c k Hc Hab) as Hf. destruct (find_entry c _ k) as [c1 r].
  destruct Hf as [Ho Hr]. pose proof Ho as (Hc1 & Ha1 & Hclk1).
  unfold entries_of. rewrite fmap_cons, set_args_cons. fold (entries_of m ks).
  assert (Hab1 : abs c1 !! Z.to_nat (db_number u) = Some m) by (by rewrite Ha1).
  destruct r as [e|], (m !! k) as [pe|]; cbn in Hr; try done; cbn [fmap option_fmap option_map].
  - rewrite (set_of_abs _ _ _ Hr). destruct (pset_of (snapshot pe)) as [s|]; [|by apply refines_same].
    pose proof (sdiffstore_loop_refines _ m ks c1 (Some s) Hc1 Hab1) as Hl.
    destruct (sdiffstore_loop c1 _ ks _) as [c2 r2]. destruct Hl as [Ho2 ->].
    destruct (only_read_trans _ _ _ Ho Ho2) as (Hc2 & Ha2 & Hclk2). cbn [fmap option_fmap option_map].
    destruct (set_args pset_of _) as [l|]; [|by apply refines_same].
    eapply refines_after; [done|]. rewrite <- Ha2. apply store_set_refines; try done; [by rewrite Ha2|].
    cbn. by rewrite set_iter_perm.
  - pose proof (sdiffstore_loop_refines _ m ks c1 None Hc1 Hab1) as Hl.
    destruct (sdiffstore_loop c1 _ ks _) as [c2 r2]. destruct Hl as [Ho2 ->].
    destruct (only_read_trans _ _ _ Ho Ho2) as (Hc2 & Ha2 & Hclk2).
    destruct (set_args pset_of _) as [l|]; [|by apply refines_same].
    eapply refines_after; [done|]. rewrite <- Ha2. apply store_set_refines; try done; [by rewrite Ha2|].
    cbn. replace (∅ ∖ ⋃ (the_set <$> l)) with (∅ : gset bytes) by set_solver. by rewrite elements_empty.
Qed.
End Composed.
