(* ===== verification/Spop.v ===== *)
(** * Spop: SPOP, the random pop every replica must agree on.

    Models src/cache_cat/src/protocol/set/spop.rs. The members are listed in
    the iteration order of the replica's own hash set, sorted by their bytes,
    and drawn with a splitmix64 generator seeded with the key and the logical
    write clock, so the draw is the same on every replica. *)

From S2P Require Import Prelude Text F64 Reply Args SortedSet Mocha Ops Store Refine SetCmd.

Definition parse_count (v : Value) : parsed Z :=
  let? count := parse_count_i64 v in
  if count <? 0 then Err (InvalidArgument (str "count")) else Ok count.

Definition spop_request (items : list Value) : parsed Operation :=
  if (negb (argc items =? 2) && negb (argc items =? 3))%bool then Err (WrongArgCount (str "spop"))
  else
    let? key := string_item items 1 (str "key") in
    let? count := (if argc items =? 3 then let? n := parse_count (item items 2) in Ok (Some n) else Ok None) in
    Ok (Base (SPop (mkSPopReq key count))).

(** ** The generator *)

(** [DeterministicRng::next_u64]: the number drawn and the next state. *)
Definition next_u64 (state : Z) : Z * Z :=
  let state := wrap_u64 (state + 0x9E3779B97F4A7C15) in
  let v := state in
  let v := wrap_u64 (Z.lxor v (Z.shiftr v 30) * 0xBF58476D1CE4E5B9) in
  let v := wrap_u64 (Z.lxor v (Z.shiftr v 27) * 0x94D049BB133111EB) in
  (Z.lxor v (Z.shiftr v 31), state).

(** The high half of the 128-bit product. *)
Definition next_index (state : Z) (upper_bound : Z) : Z * Z :=
  let '(random, state') := next_u64 state in
  (Z.shiftr (random * upper_bound) 64, state').

Definition rotate_left (x : Z) (n : Z) : Z :=
  Z.lor (wrap_u64 (Z.shiftl x n)) (Z.shiftr x (64 - n)).

(** FNV-1a of the key, mixed with the clock. *)
Definition random_seed (cmd : SPopReq) (write_clock : Z) : Z :=
  let hash := foldl (fun hash b => wrap_u64 (Z.lxor hash (bz b) * 0x00000100000001B3)) 0xCBF29CE484222325
    (spop_key cmd) in
  Z.lxor (Z.lxor hash (rotate_left write_clock 17)) 0xA0761D6478BD642F.

(** ** The command *)

Definition missing_key_response (cmd : SPopReq) : Value :=
  match spop_count cmd with
  | None => BulkString None
  | Some _ => Set_ []
  end.

Definition popped_response (cmd : SPopReq) (members : list bytes) : Value :=
  match spop_count cmd with
  | None => BulkString (head members)
  | Some _ => Set_ (bulk <$> members)
  end.

Definition bytes_le (a b : bytes) : Prop := bytes_cmp a b <> Gt.

#[global] Instance bytes_le_dec a b : Decision (bytes_le a b).
Proof. unfold bytes_le. apply _. Defined.

(** [Vec::swap_remove]; [None] out of range, where it panics. *)
Definition swap_remove (index : nat) (l : list bytes) : option (bytes * list bytes) :=
  match l !! index, last l with
  | Some member, Some x => Some (member, take (length l - 1) (<[index := x]> l))
  | _, _ => None
  end.

(** The drawing loop. [spop_loop_spec] shows it never goes out of range. *)
Fixpoint spop_loop (n : nat) (rng : Z) (candidates : list bytes) (s : gset bytes) (popped : list bytes)
    : gset bytes * list bytes :=
  match n with
  | O => (s, popped)
  | S n' =>
      let '(index, rng') := next_index rng (Z.of_nat (length candidates)) in
      match swap_remove (Z.to_nat index) candidates with
      | Some (member, candidates') => spop_loop n' rng' candidates' (s ∖ {[member]}) (popped ++ [member])
      | None => (s, popped)
      end
  end.

Definition pop_count (cmd : SPopReq) (set_len : Z) : Z :=
  match spop_count cmd with
  | None => 1
  | Some count => if set_len <=? count then set_len else count
  end.

Section Spop.
Context `{E : Env}.

Definition spop_mutate (cmd : SPopReq) (entry : EntrySnapshot MyValue) (write_clock : Z) (h : Heap) : mutation :=
  match data (value entry) with
  | VSet set =>
      if bool_decide (spop_count cmd = Some 0) then (h, (MAbort, Set_ []))
      else
        let set_guard := set_at h set in
        if card set_guard =? 0 then (h, (MRemove, missing_key_response cmd))
        else
          let candidates := merge_sort bytes_le (set_iter set set_guard) in
          let '(set_guard', popped) :=
            spop_loop (Z.to_nat (pop_count cmd (card set_guard))) (random_seed cmd write_clock) candidates
              set_guard [] in
          let h' := put_set h set set_guard' in
          let response := popped_response cmd popped in
          if card set_guard' =? 0 then (h', (MRemove, response)) else (h', (write_back entry, response))
  | _ => (h, (MAbort, wrong_type))
  end.

Definition spop_init (cmd : SPopReq) (h : Heap) : mutation := (h, (MAbort, missing_key_response cmd)).

#[global] Instance spop_compute : ComputeCommand SPopReq := {
  key := spop_key;
  into_base_op := SPop;
  mutate := spop_mutate;
  init := spop_init
}.

Definition s_pop (c : MyCache) (param : SPopReq) (u : Update) := execute_compute c param u.
End Spop.

(** ** The draw *)

(** The members drawn from the sorted candidates. *)
Fixpoint draw (n : nat) (rng : Z) (candidates : list bytes) : list bytes :=
  match n with
  | O => []
  | S n' =>
      let '(index, rng') := next_index rng (Z.of_nat (length candidates)) in
      match swap_remove (Z.to_nat index) candidates with
      | Some (member, candidates') => member :: draw n' rng' candidates'
      | None => []
      end
  end.

(** What SPOP takes from a set. *)
Definition spop_draw (cmd : SPopReq) (write_clock : Z) (s : gset bytes) : list bytes :=
  draw (Z.to_nat (pop_count cmd (card s))) (random_seed cmd write_clock) (merge_sort bytes_le (elements s)).

#[global] Instance spop_pure : PureCommand SPopReq := {
  pmutate cmd e wc := on_set e (fun s =>
    if bool_decide (spop_count cmd = Some 0) then (MAbort, Set_ [])
    else if decide (s = ∅) then (MRemove, missing_key_response cmd)
    else
      let popped := spop_draw cmd wc s in
      let s' := s ∖ list_to_set popped in
      (if decide (s' = ∅) then MRemove else pwrite_back e (PSet s'), popped_response cmd popped));
  pinit cmd := (MAbort, missing_key_response cmd)
}.

Lemma lxor_u64 a b : is_u64 a -> is_u64 b -> is_u64 (Z.lxor a b).
Proof.
  intros Ha Hb. unfold is_u64 in *. assert (Hnn : 0 <= Z.lxor a b) by (apply Z.lxor_nonneg; lia).
  split; [done|]. destruct (Z.eq_dec (Z.lxor a b) 0) as [->|Hn]; [lia|].
  assert (Hlog : forall x, 0 <= x < 2 ^ 64 -> Z.log2 x < 64).
  { intros x Hx. destruct (Z.eq_dec x 0) as [->|]; [done|]. apply Z.log2_lt_pow2; lia. }
  assert (Z.log2 (Z.lxor a b) < 64); [|apply Z.log2_lt_pow2; lia].
  eapply Z.le_lt_trans; [apply Z.log2_lxor; lia|]. apply Z.max_lub_lt; apply Hlog; lia.
Qed.

Lemma next_u64_range st : is_u64 (next_u64 st).1.
Proof.
  unfold next_u64. cbn [fst]. set (v := wrap_u64 (_ * 0x94D049BB133111EB)).
  assert (Hv : is_u64 v) by apply wrap_u64_range. apply lxor_u64; [done|].
  unfold is_u64 in *. rewrite Z.shiftr_div_pow2 by lia.
  split; [apply Z.div_pos; lia|]. eapply Z.le_lt_trans; [apply Z.div_le_upper_bound with (q := v)|]; lia.
Qed.

Lemma next_index_lt st n : 0 < n -> 0 <= (next_index st n).1 < n.
Proof.
  intros Hn. unfold next_index. pose proof (next_u64_range st) as Hr. destruct (next_u64 st) as [r st'].
  cbn [fst] in *. unfold is_u64 in Hr. rewrite Z.shiftr_div_pow2 by lia.
  split; [apply Z.div_pos; lia|apply Z.div_lt_upper_bound; nia].
Qed.

Lemma swap_remove_spec i l : (i < length l)%nat ->
  exists x l', swap_remove i l = Some (x, l') /\ x :: l' ≡ₚ l.
Proof.
  intros Hi. destruct l as [|y l _] using rev_ind; [cbn in Hi; lia|].
  destruct (lookup_lt_is_Some_2 (l ++ [y]) i Hi) as [x Hx]. unfold swap_remove. rewrite Hx, last_snoc.
  eexists _, _. split; [done|]. rewrite length_app in *. cbn [length] in *. rewrite Nat.add_sub.
  destruct (decide (i = length l)) as [->|Hne].
  - rewrite list_lookup_middle in Hx by done. injection Hx as <-.
    rewrite insert_app_r_alt, Nat.sub_diag by lia. cbn. rewrite take_app_length.
    apply Permutation_cons_append.
  - rewrite lookup_app_l in Hx by lia. rewrite insert_app_l by lia.
    rewrite take_app_le by (rewrite length_insert; lia).
    rewrite take_ge by (rewrite length_insert; lia).
    rewrite <- (Permutation_cons_append l y), insert_take_drop by lia.
    rewrite <- (take_drop_middle l i x Hx) at 3. rewrite <- !Permutation_middle. apply perm_swap.
Qed.

Lemma draw_spec n : forall rng l, (n <= length l)%nat ->
  length (draw n rng l) = n /\ draw n rng l ⊆+ l.
Proof.
  induction n as [|n IH]; intros rng l Hn; cbn [draw]; [split; [done|apply submseteq_nil_l]|].
  pose proof (next_index_lt rng (Z.of_nat (length l)) ltac:(lia)) as Hi.
  destruct (next_index rng _) as [i rng']. cbn [fst] in Hi.
  destruct (swap_remove_spec (Z.to_nat i) l) as (x & l' & -> & Hp); [lia|].
  destruct (IH rng' l') as [Hlen Hsub]; [apply Permutation_length in Hp; cbn in Hp; lia|].
  cbn. rewrite Hlen. split; [done|]. rewrite <- Hp. by apply submseteq_skip.
Qed.

Lemma spop_loop_spec n : forall rng l s popped,
  spop_loop n rng l s popped = (s ∖ list_to_set (draw n rng l), popped ++ draw n rng l).
Proof.
  induction n as [|n IH]; intros rng l s popped; cbn [spop_loop draw].
  { rewrite app_nil_r. f_equal. set_solver. }
  destruct (next_index rng _) as [i rng']. destruct (swap_remove _ l) as [[x l']|].
  - rewrite IH, <- (assoc_L (++)). f_equal. set_solver.
  - rewrite app_nil_r. f_equal. set_solver.
Qed.

(** Sorting forgets the iteration order. *)
#[global] Instance bytes_le_trans : Transitive bytes_le.
Proof.
  intros a b c Hab Hbc. unfold bytes_le in *. destruct (bytes_cmp a b) eqn:E1; [| |done].
  - by apply bytes_cmp_eq in E1 as ->.
  - destruct (bytes_cmp b c) eqn:E2; [| |done].
    + apply bytes_cmp_eq in E2 as <-. by rewrite E1.
    + by rewrite (bytes_cmp_lt_trans _ _ _ E1 E2).
Qed.

#[global] Instance bytes_le_total : Total bytes_le.
Proof.
  intros a b. unfold bytes_le. rewrite (bytes_cmp_antisym a b). destruct (bytes_cmp a b); cbn; auto.
Qed.

#[global] Instance bytes_le_antisymm : AntiSymm (=) bytes_le.
Proof.
  intros a b Hab Hba. unfold bytes_le in *. rewrite (bytes_cmp_antisym a b) in Hba.
  destruct (bytes_cmp a b) eqn:E1; [by apply bytes_cmp_eq|done..].
Qed.

Lemma sort_perm l1 l2 : l1 ≡ₚ l2 -> merge_sort bytes_le l1 = merge_sort bytes_le l2.
Proof.
  intros Hp. eapply (Sorted_unique bytes_le); [apply Sorted_merge_sort, _|apply Sorted_merge_sort, _|].
  by rewrite !merge_sort_Permutation.
Qed.

Section SpopLaws.
Context `{E : Env} `{!EnvOk E}.

(** The command in terms of the draw. *)
Lemma spop_set cmd e wc h l s : data (value e) = VSet l -> sets h !! l = Some s ->
  spop_mutate cmd e wc h =
    if bool_decide (spop_count cmd = Some 0) then (h, (MAbort, Set_ []))
    else if decide (s = ∅) then (h, (MRemove, missing_key_response cmd))
    else
      let popped := spop_draw cmd wc s in
      let s' := s ∖ list_to_set popped in
      (put_set h l s', (if decide (s' = ∅) then MRemove else write_back e, popped_response cmd popped)).
Proof.
  intros Hd Hs. unfold spop_mutate, spop_draw. rewrite Hd, (set_at_eq _ _ _ Hs), (sort_perm _ _ (set_iter_perm l s)).
  rewrite spop_loop_spec. cbn [app]. case_bool_decide; [done|].
  destruct (Z.eqb_spec (card s) 0) as [E0|E0], (decide (s = ∅)) as [E1|E1]; rewrite ?card_0 in E0; try done.
  set (s' := s ∖ _). cbv zeta.
  destruct (Z.eqb_spec (card s') 0) as [E2|E2], (decide (s' = ∅)) as [E3|E3]; rewrite ?card_0 in E2; done.
Qed.

#[global] Instance spop_laws : ComputeLaws SPopReq.
Proof.
  apply (compute_laws (fun _ => True)).
  - intros cmd e pv wc h Hh _ _ He Hpv. cbn. unfold on_set. cbn [value].
    shape_cases Hpv; try (unfold spop_mutate; rewrite Heqv; by apply refuse_ok).
    rewrite (spop_set cmd e wc h l s) by done. case_bool_decide; [by apply refuse_ok|].
    case_decide; [by apply remove_ok, frame_refl|]. cbv zeta.
    case_decide; [by apply remove_set|by apply inplace_set].
  - intros cmd h Hh _. by apply init_refuse_ok.
Defined.
End SpopLaws.

Lemma pop_count_min cmd n : 0 < n -> pop_count cmd n = Z.min (default 1 (spop_count cmd)) n.
Proof. intros Hn. unfold pop_count. destruct (spop_count cmd) as [k|]; cbn; [|lia]. destruct (Z.leb_spec n k); lia. Qed.

Lemma spop_draw_spec cmd wc s : s <> ∅ -> (forall n, spop_count cmd = Some n -> 0 < n) ->
  let popped := spop_draw cmd wc s in
  NoDup popped /\ Forall (.∈ s) popped /\ Z.of_nat (length popped) = Z.min (default 1 (spop_count cmd)) (card s).
Proof.
  intros Hne Hn. assert (Hpos : 0 < card s) by (rewrite <- card_0 in Hne; unfold card in *; lia).
  assert (Hge : 0 <= Z.min (default 1 (spop_count cmd)) (card s))
    by (destruct (spop_count cmd) as [n|]; cbn; [specialize (Hn n eq_refl)|]; lia).
  unfold spop_draw. rewrite (pop_count_min cmd (card s) Hpos). set (n := Z.min _ _) in *.
  assert (Hel : merge_sort bytes_le (elements s) ≡ₚ elements s) by apply merge_sort_Permutation.
  destruct (draw_spec (Z.to_nat n) (random_seed cmd wc) (merge_sort bytes_le (elements s))) as [Hlen Hsub].
  { rewrite Hel. change (length (elements s)) with (size s). unfold n, card in *. lia. }
  set (popped := draw _ _ _) in *. rewrite Hel in Hsub. cbv zeta. split_and!; [| |lia].
  - apply submseteq_Permutation in Hsub as [k' Hk]. pose proof (NoDup_elements s) as Hnd.
    rewrite Hk in Hnd. by apply NoDup_app in Hnd as [? _].
  - apply Forall_forall. intros x Hx. apply elem_of_elements. by eapply elem_of_submseteq.
Qed.

(** Nothing is left exactly if all members were drawn. *)
Lemma left_empty (s : gset bytes) l : NoDup l -> Forall (.∈ s) l ->
  s ∖ list_to_set l = ∅ <-> length l = size s.
Proof.
  intros Hnd Hin. assert (Hincl : (list_to_set l : gset bytes) ⊆ s).
  { intros x Hx. apply elem_of_list_to_set in Hx. by eapply Forall_forall in Hin. }
  pose proof (subseteq_size _ _ Hincl) as Hle. pose proof (size_list_to_set (C := gset bytes) l Hnd) as Hsz.
  rewrite <- card_0. unfold card. rewrite size_difference by done. lia.
Qed.

(** ** Properties *)

(** Every replica pops the same members. The iteration order of the hash
    set, which differs from process to process, has no influence on the
    result, the reply included. *)
Theorem spop_same_on_every_replica (E1 E2 : Env) (Ok1 : EnvOk E1) (Ok2 : EnvOk E2) cmd e wc h :
  @spop_mutate E1 cmd e wc h = @spop_mutate E2 cmd e wc h.
Proof.
  unfold spop_mutate. destruct (data (value e)); [done..|].
  rewrite (sort_perm (@set_iter E1 l (set_at h l)) (@set_iter E2 l (set_at h l))); [done|].
  by rewrite !set_iter_perm.
Qed.

Definition first_env : Env := {|
  now_ms := 0;
  set_iter _ s := elements s;
  map_iter _ m := map_to_list m;
  db_iter m := map_to_list m;
  rand_choose l := head l;
  rand_choose_multiple n l := take (Z.to_nat n) l;
  rand_gen_range _ _ := 0;
  try_reserve _ := true
|}.

Definition last_env : Env := {|
  now_ms := 0;
  set_iter _ s := reverse (elements s);
  map_iter _ m := map_to_list m;
  db_iter m := map_to_list m;
  rand_choose l := head l;
  rand_choose_multiple n l := take (Z.to_nat n) l;
  rand_gen_range _ _ := 0;
  try_reserve _ := true
|}.

Lemma first_env_ok : EnvOk first_env.
Proof.
  split; cbn; try done.
  - by intros [|y l] x [= ->]; left.
  - by intros [|y l]; [|eexists].
  - intros n l. apply sublist_submseteq, sublist_take.
  - intros n l Hn. rewrite length_take. lia.
Qed.

Lemma last_env_ok : EnvOk last_env.
Proof.
  split; cbn; try done.
  - intros _ s. by rewrite reverse_Permutation.
  - by intros [|y l] x [= ->]; left.
  - by intros [|y l]; [|eexists].
  - intros n l. apply sublist_submseteq, sublist_take.
  - intros n l Hn. rewrite length_take. lia.
Qed.

Definition spop_example : Heap * EntrySnapshot MyValue :=
  (put_set heap_empty 1%positive {[str "a"; str "b"; str "c"]},
   mkEntrySnapshot (my_value_new (VSet 1%positive)) None).

Lemma spop_same_on_every_replica_witness :
  @set_iter first_env 1%positive (set_at spop_example.1 1%positive) <>
    @set_iter last_env 1%positive (set_at spop_example.1 1%positive) /\
  @spop_mutate first_env (mkSPopReq (str "k") (Some 2)) spop_example.2 7 spop_example.1 =
    @spop_mutate last_env (mkSPopReq (str "k") (Some 2)) spop_example.2 7 spop_example.1.
Proof.
  split; [by vm_compute|]. apply (spop_same_on_every_replica first_env last_env first_env_ok last_env_ok).
Defined.

(** SPOP of a non-empty set takes different members of the set, one of
    them or as many as asked for and there are; the set keeps the others, and
    the key goes away with the last one. *)
Theorem spop_pops (E : Env) (HE : EnvOk E) cmd e wc h l s :
  data (value e) = VSet l -> sets h !! l = Some s -> s <> ∅ ->
  (forall n, spop_count cmd = Some n -> 0 < n) ->
  exists popped,
    NoDup popped /\ Forall (.∈ s) popped /\
    Z.of_nat (length popped) = Z.min (default 1 (spop_count cmd)) (card s) /\
    spop_mutate cmd e wc h =
      (put_set h l (s ∖ list_to_set popped),
       (if decide (length popped = size s) then MRemove else write_back e, popped_response cmd popped)).
Proof.
  intros Hd Hs Hne Hn. exists (spop_draw cmd wc s). rewrite (spop_set cmd e wc h l s) by done.
  destruct (spop_draw_spec cmd wc s Hne Hn) as (Hnd & Hin & Hlen). split_and!; [done..|].
  rewrite bool_decide_false, decide_False by (try done; intros E0; specialize (Hn _ E0); lia). cbv zeta.
  do 2 f_equal. pose proof (left_empty s _ Hnd Hin). do 2 case_decide; tauto.
Qed.

Lemma spop_pops_witness :
  exists popped,
    NoDup popped /\ Forall (.∈ set_at spop_example.1 1%positive) popped /\ Z.of_nat (length popped) = 2 /\
    @spop_mutate last_env (mkSPopReq (str "k") (Some 2)) spop_example.2 7 spop_example.1 =
      (put_set spop_example.1 1%positive (set_at spop_example.1 1%positive ∖ list_to_set popped),
       (if decide (length popped = size (set_at spop_example.1 1%positive)) then MRemove else write_back spop_example.2,
        popped_response (mkSPopReq (str "k") (Some 2)) popped)).
Proof.
  assert (Hne : set_at spop_example.1 1%positive <> ∅) by (rewrite <- card_0; by vm_compute).
  destruct (spop_pops last_env last_env_ok (mkSPopReq (str "k") (Some 2)) spop_example.2 7 spop_example.1 1%positive
    (set_at spop_example.1 1%positive) eq_refl eq_refl Hne ltac:(intros n [= <-]; lia))
    as (popped & H1 & H2 & H3 & H4).
  exists popped. split; [exact H1|]. split; [exact H2|]. split; [|exact H4].
  rewrite H3. by vm_compute.
Defined.
