(* ===== verification/ZSetCmd.v ===== *)
(** * ZSetCmd: the sorted set commands.

    Models src/cache_cat/src/protocol/zset (ZADD, ZREM, ZPOPMIN, ZINCRBY,
    ZRANGE, ZRANGEBYSCORE, ZSCORE, ZCARD, ZCOUNT, ZRANK, ZREVRANK) and the
    methods of src/cache_cat/src/raft/types/core/cache/zset.rs. What the
    operations do to a sorted set is in SortedSet.v; here they are commands on
    the store. *)

From S2P Require Import Prelude Text F64 FloatText Reply Args SortedSet Mocha Ops Store Refine.
From Stdlib Require Import SpecFloat.

(** ** Parsers *)

Record ZFlags := mkZFlags { zf_nx : bool; zf_xx : bool; zf_gt : bool; zf_lt : bool; zf_ch : bool }.

(** The [while] loop over the options of ZADD; it stops at the first item that
    is none. *)
Fixpoint zadd_flags_loop (f : ZFlags) (items : list Value) : ZFlags * list Value :=
  match items with
  | [] => (f, [])
  | v :: rest =>
      match upper_flag v with
      | None => (f, items)
      | Some flag =>
          if is_word flag "NX" then zadd_flags_loop (mkZFlags true (zf_xx f) (zf_gt f) (zf_lt f) (zf_ch f)) rest
          else if is_word flag "XX" then zadd_flags_loop (mkZFlags (zf_nx f) true (zf_gt f) (zf_lt f) (zf_ch f)) rest
          else if is_word flag "GT" then zadd_flags_loop (mkZFlags (zf_nx f) (zf_xx f) true (zf_lt f) (zf_ch f)) rest
          else if is_word flag "LT" then zadd_flags_loop (mkZFlags (zf_nx f) (zf_xx f) (zf_gt f) true (zf_ch f)) rest
          else if is_word flag "CH" then zadd_flags_loop (mkZFlags (zf_nx f) (zf_xx f) (zf_gt f) (zf_lt f) true) rest
          else (f, items)
      end
  end.

(** The (score, member) pairs; their number has been checked to be even. *)
Fixpoint zadd_members (items : list Value) : parsed (list (bytes * f64)) :=
  match items with
  | s :: m :: rest =>
      let? score := ok_or (let* v := as_str_lossy s in parse_f64_str (concat v))
        (Custom (str "ERR value is not a valid float")) in
      let? member := ok_or (string_bytes_clone m) (InvalidArgument (str "member")) in
      let? members := zadd_members rest in
      Ok ((member, score) :: members)
  | _ => Ok []
  end.

Definition zadd_request (items : list Value) : parsed Operation :=
  if argc items <? 4 then Err (WrongArgCount (str "zadd"))
  else
    let? key := string_item items 1 (str "key") in
    let '(f, remaining) := zadd_flags_loop (mkZFlags false false false false false) (drop 2 items) in
    if (zf_nx f && zf_xx f)%bool then
      Err (Custom (str "ERR XX and NX options at the same time are not compatible"))
    else if (zf_gt f && zf_lt f)%bool then
      Err (Custom (str "ERR GT and LT options at the same time are not compatible"))
    else if ((argc remaining =? 0) || negb (argc remaining mod 2 =? 0))%bool then Err (WrongArgCount (str "zadd"))
    else
      let? members := zadd_members remaining in
      Ok (Base (ZAdd (mkZAddReq key (zf_nx f) (zf_xx f) (zf_gt f) (zf_lt f) (zf_ch f) members))).

Definition zrem_request (items : list Value) : parsed Operation :=
  if argc items <? 3 then Err (WrongArgCount (str "zrem"))
  else
    let? key := string_item items 1 (str "key") in
    let? members := strings_from items 2 (InvalidArgument (str "member")) in
    Ok (Base (ZRem (mkZRemReq key members))).

Definition zpopmin_request (items : list Value) : parsed Operation :=
  let? count :=
    (if argc items =? 2 then Ok None
     else if argc items =? 3 then let? n := try_parse_usize (item items 2) in Ok (Some n)
     else Err (WrongArgCount (str "zpopmin"))) in
  let? key := string_item items 1 (str "key") in
  Ok (Base (ZPopMin (mkZPopMinReq key count))).

Definition zincrby_request (items : list Value) : parsed Operation :=
  if negb (argc items =? 4) then Err (WrongArgCount (str "zincrby"))
  else
    let? key := string_item items 1 (str "key") in
    let bad := InvalidArgument (str "increment") in
    let? increment_bytes := string_or items 2 bad in
    let? increment_str := ok_or (from_utf8 increment_bytes) bad in
    let? increment := ok_or (parse_f64_str (concat increment_str)) bad in
    if is_nan increment then Err bad
    else
      let? member := string_item items 3 (str "member") in
      Ok (Base (ZIncrBy (mkZIncrByReq key increment member))).

Definition has_withscores (items : list Value) : bool :=
  existsb (fun v => match upper_flag v with Some f => is_word f "WITHSCORES" | None => false end) items.

Definition zrange_operation (items : list Value) : parsed ReadOperation :=
  if argc items <? 4 then Err (WrongArgCount (str "zrange"))
  else
    let? key := string_item items 1 (str "key") in
    let? start := try_parse_i64 (item items 2) in
    let? stop := try_parse_i64 (item items 3) in
    Ok (RZRange (mkZRangeParams key start stop (has_withscores (drop 4 items)))).

Definition parse_score_string (s : bytes) : parsed f64 :=
  let s_upper := to_uppercase (lossy_chars s) in
  if (is_word s_upper "-INF" || is_word s_upper "-INFINITY")%bool then Ok (S754_infinity true)
  else if (is_word s_upper "+INF" || is_word s_upper "+INFINITY")%bool then Ok (S754_infinity false)
  else ok_or (parse_f64_str s) (InvalidArgument (str "score")).

Definition parse_score (v : Value) : parsed f64 :=
  match v with
  | BulkString (Some data) => parse_score_string (from_utf8_lossy data)
  | SimpleString s => parse_score_string s
  | Integer n => Ok (f64_of_Z n)
  | _ => Err (InvalidArgument (str "score"))
  end.

Definition parse_usize (v : Value) : parsed Z :=
  match v with
  | BulkString (Some data) => ok_or (parse_u64_str (from_utf8_lossy data)) NotAnInteger
  | SimpleString s => ok_or (parse_u64_str s) NotAnInteger
  | Integer n => if n <? 0 then Err (InvalidArgument (str "limit")) else Ok n
  | _ => Err NotAnInteger
  end.

Fixpoint zrbs_options (with_scores : bool) (limit : option (Z * Z)) (items : list Value)
    : parsed (bool * option (Z * Z)) :=
  match items with
  | [] => Ok (with_scores, limit)
  | v :: rest =>
      match upper_flag v with
      | None => zrbs_options with_scores limit rest
      | Some flag =>
          if is_word flag "WITHSCORES" then zrbs_options true limit rest
          else if is_word flag "LIMIT" then
            match rest with
            | o :: c :: rest' =>
                let? offset := parse_usize o in
                let? count := parse_usize c in
                zrbs_options with_scores (Some (offset, count)) rest'
            | _ => Err SyntaxError
            end
          else zrbs_options with_scores limit rest
      end
  end.

Definition zrangebyscore_operation (items : list Value) : parsed ReadOperation :=
  if argc items <? 4 then Err (WrongArgCount (str "zrangebyscore"))
  else
    let? key := string_item items 1 (str "key") in
    let? min := parse_score (item items 2) in
    let? max := parse_score (item items 3) in
    let? o := zrbs_options false None (drop 4 items) in
    Ok (RZRangeByScore (mkZRangeByScoreParams key min max o.1 o.2)).

(** A bound of ZCOUNT, exclusive after an opening parenthesis. *)
Definition parse_score_range (v : bytes) : parsed (f64 * bool) :=
  let s := from_utf8_lossy v in
  let bad := InvalidArgument (str "score") in
  match s with
  | x28 :: s' => let? score := ok_or (parse_f64_str s') bad in Ok (score, true)
  | _ =>
      let? score :=
        (if bool_decide (s = str "-inf") then Ok (S754_infinity true)
         else if (bool_decide (s = str "+inf") || bool_decide (s = str "inf"))%bool then Ok (S754_infinity false)
         else ok_or (parse_f64_str s) bad) in
      Ok (score, false)
  end.

Definition zcount_operation (items : list Value) : parsed ReadOperation :=
  if negb (argc items =? 4) then Err (WrongArgCount (str "zcount"))
  else
    let? key := string_item items 1 (str "key") in
    let? min_bytes := string_item items 2 (str "min") in
    let? max_bytes := string_item items 3 (str "max") in
    let? min := parse_score_range min_bytes in
    let? max := parse_score_range max_bytes in
    Ok (RZCount (mkZCountParams key min.1 max.1 min.2 max.2)).

Definition zcard_operation (items : list Value) : parsed ReadOperation :=
  if negb (argc items =? 2) then Err (WrongArgCount (str "zcard"))
  else let? key := string_item items 1 (str "key") in Ok (RZCard (mkZCardParams key)).

Definition zscore_operation (items : list Value) : parsed ReadOperation :=
  if negb (argc items =? 3) then Err (WrongArgCount (str "zscore"))
  else
    let? key := string_item items 1 (str "key") in
    let? member := string_item items 2 (str "member") in
    Ok (RZScore (mkZScoreParams key member)).

Definition zrank_operation (items : list Value) : parsed ReadOperation :=
  if negb (argc items =? 3) then Err (WrongArgCount (str "zrank"))
  else
    let? key := string_item items 1 (str "key") in
    let? member := string_item items 2 (str "member") in
    Ok (RZRank (mkZRankParams key member)).

Definition zrevrank_operation (items : list Value) : parsed ReadOperation :=
  if negb (argc items =? 3) then Err (WrongArgCount (str "zrevrank"))
  else
    let? key := string_item items 1 (str "key") in
    let? member := string_item items 2 (str "member") in
    Ok (RZRevRank (mkZRevRankParams key member)).

Section Commands.
Context `{OrderedFloat}.

(** ** Write commands *)

Definition not_a_zset : Value := Error (str "zadd: key is not a zset").

Definition zadd_mutate (cmd : ZAddReq) (entry : EntrySnapshot MyValue) (write_clock : Z) (h : Heap) : mutation :=
  match data (value entry) with
  | VZSet zset =>
      let '(z, changed_count) := zadd (zset_at h zset) cmd in
      (put_zset h zset z, (write_back entry, Integer changed_count))
  | _ => (h, (MAbort, not_a_zset))
  end.

Definition zadd_init (cmd : ZAddReq) (h : Heap) : mutation :=
  let '(z, changed_count) := zadd zset_new cmd in
  let '(h', v) := alloc_zset h z in
  (h', (MInsert (my_value_new v) Persistent, Integer changed_count)).

#[global] Instance zadd_compute : ComputeCommand ZAddReq := {
  key := za_key;
  into_base_op := ZAdd;
  mutate := zadd_mutate;
  init := zadd_init
}.

Definition zrem_mutate (cmd : ZRemReq) (entry : EntrySnapshot MyValue) (write_clock : Z) (h : Heap) : mutation :=
  match data (value entry) with
  | VZSet zset =>
      let '(z, removed_count) := zrem (zset_at h zset) (zrem_members cmd) in
      let h' := put_zset h zset z in
      if zset_is_empty z then (h', (MRemove, Integer removed_count))
      else (h', (write_back entry, Integer removed_count))
  | _ => (h, (MAbort, Error (str "zrem: key is not a zset")))
  end.

Definition zrem_init (cmd : ZRemReq) (h : Heap) : mutation := (h, (MAbort, Integer 0)).

#[global] Instance zrem_compute : ComputeCommand ZRemReq := {
  key := zrem_key;
  into_base_op := ZRem;
  mutate := zrem_mutate;
  init := zrem_init
}.

Definition zpop_response (cmd : ZPopMinReq) (popped : list (bytes * f64)) : Value :=
  match zpop_count cmd with
  | None =>
      match popped with
      | (member, score) :: _ => Array (Some [bulk member; Double score])
      | [] => Array (Some [])
      end
  | Some _ => MemberScores popped
  end.

Definition zpopmin_mutate (cmd : ZPopMinReq) (entry : EntrySnapshot MyValue) (write_clock : Z) (h : Heap)
    : mutation :=
  match data (value entry) with
  | VZSet zset =>
      let '(z, popped) := zpop_min (zset_at h zset) (zpop_count cmd) in
      (put_zset h zset z, (write_back entry, zpop_response cmd popped))
  | _ => (h, (MAbort, not_a_zset))
  end.

Definition zpopmin_init (cmd : ZPopMinReq) (h : Heap) : mutation := (h, (MAbort, Array (Some []))).

#[global] Instance zpopmin_compute : ComputeCommand ZPopMinReq := {
  key := zpop_key;
  into_base_op := ZPopMin;
  mutate := zpopmin_mutate;
  init := zpopmin_init
}.

Definition nan_score : Value := Error (str "ERR resulting score is not a number (NaN)").

Definition zincrby_mutate (cmd : ZIncrByReq) (entry : EntrySnapshot MyValue) (write_clock : Z) (h : Heap)
    : mutation :=
  match data (value entry) with
  | VZSet zset =>
      let '(z, new_score) := zincrby (zset_at h zset) (zincr_member cmd) (zincr_increment cmd) in
      let h' := put_zset h zset z in
      match new_score with
      | Some score => (h', (write_back entry, Double score))
      | None => (h', (MAbort, nan_score))
      end
  | _ => (h, (MAbort, wrong_type))
  end.

Definition zincrby_init (cmd : ZIncrByReq) (h : Heap) : mutation :=
  match zincrby zset_new (zincr_member cmd) (zincr_increment cmd) with
  | (_, None) => (h, (MAbort, nan_score))
  | (z, Some score) =>
      let '(h', v) := alloc_zset h z in
      (h', (MInsert (my_value_new v) Persistent, Double score))
  end.

#[global] Instance zincrby_compute : ComputeCommand ZIncrByReq := {
  key := zincr_key;
  into_base_op := ZIncrBy;
  mutate := zincrby_mutate;
  init := zincrby_init
}.

(** ** Reads *)

(** The members found, with their scores if asked for. *)
Definition scored_reply (with_scores : bool) (res : list (bytes * f64)) : Value :=
  if with_scores then MemberScores res else Array (Some ((fun '(member, _) => bulk member) <$> res)).

Definition zrange_execute (cmd : ZRangeParams) (h : Heap) (v : option (EntrySnapshot MyValue)) : Value :=
  match v with
  | None => Array (Some [])
  | Some e =>
      match data (value e) with
      | VZSet l =>
          scored_reply (zrange_with_scores cmd) (zrange (zset_at h l) (zrange_start cmd) (zrange_stop cmd))
      | _ => protocol_error WrongType
      end
  end.

#[global] Instance zrange_read : ReadCommand ZRangeParams := { rkey := zrange_key; execute := zrange_execute }.

Definition zrangebyscore_execute (cmd : ZRangeByScoreParams) (h : Heap) (v : option (EntrySnapshot MyValue))
    : Value :=
  match v with
  | None => Array (Some [])
  | Some e =>
      match data (value e) with
      | VZSet l =>
          scored_reply (zrbs_with_scores cmd)
            (zrangebyscore (zset_at h l) (zrbs_min cmd) (zrbs_max cmd) (zrbs_limit cmd))
      | _ => protocol_error WrongType
      end
  end.

#[global] Instance zrangebyscore_read : ReadCommand ZRangeByScoreParams := {
  rkey := zrbs_key;
  execute := zrangebyscore_execute
}.

Definition zscore_execute (cmd : ZScoreParams) (h : Heap) (v : option (EntrySnapshot MyValue)) : Value :=
  match v with
  | None => Null
  | Some e =>
      match data (value e) with
      | VZSet l =>
          match zscore (zset_at h l) (zscore_member cmd) with
          | Some score => Double score
          | None => Null
          end
      | _ => protocol_error WrongType
      end
  end.

#[global] Instance zscore_read : ReadCommand ZScoreParams := { rkey := zscore_key; execute := zscore_execute }.

Definition zcard_execute (cmd : ZCardParams) (h : Heap) (v : option (EntrySnapshot MyValue)) : Value :=
  match v with
  | None => Integer 0
  | Some e =>
      match data (value e) with
      | VZSet l => Integer (zset_len (zset_at h l))
      | _ => protocol_error WrongType
      end
  end.

#[global] Instance zcard_read : ReadCommand ZCardParams := { rkey := zcard_key; execute := zcard_execute }.

Definition zcount_execute (cmd : ZCountParams) (h : Heap) (v : option (EntrySnapshot MyValue)) : Value :=
  match v with
  | None => Integer 0
  | Some e =>
      match data (value e) with
      | VZSet l =>
          Integer (zcount (zset_at h l) (zcount_min cmd) (zcount_max cmd) (zcount_min_exclusive cmd)
            (zcount_max_exclusive cmd))
      | _ => protocol_error WrongType
      end
  end.

#[global] Instance zcount_read : ReadCommand ZCountParams := { rkey := zcount_key; execute := zcount_execute }.

Definition rank_reply (r : option Z) : Value :=
  match r with
  | Some rank => Integer rank
  | None => BulkString None
  end.

Definition zrank_execute (cmd : ZRankParams) (h : Heap) (v : option (EntrySnapshot MyValue)) : Value :=
  match v with
  | None => BulkString None
  | Some e =>
      match data (value e) with
      | VZSet l => rank_reply (zrank (zset_at h l) (zrank_member cmd))
      | _ => protocol_error WrongType
      end
  end.

#[global] Instance zrank_read : ReadCommand ZRankParams := { rkey := zrank_key; execute := zrank_execute }.

Definition zrevrank_execute (cmd : ZRevRankParams) (h : Heap) (v : option (EntrySnapshot MyValue)) : Value :=
  match v with
  | None => BulkString None
  | Some e =>
      match data (value e) with
      | VZSet l => rank_reply (zrevrank (zset_at h l) (zrevrank_member cmd))
      | _ => protocol_error WrongType
      end
  end.

#[global] Instance zrevrank_read : ReadCommand ZRevRankParams := {
  rkey := zrevrank_key;
  execute := zrevrank_execute
}.

(** ** The cache methods *)

Definition z_add (c : MyCache) (param : ZAddReq) (u : Update) := execute_compute c param u.
Definition z_rem (c : MyCache) (param : ZRemReq) (u : Update) := execute_compute c param u.
Definition z_pop_min (c : MyCache) (param : ZPopMinReq) (u : Update) := execute_compute c param u.
Definition z_incr_by (c : MyCache) (param : ZIncrByReq) (u : Update) := execute_compute c param u.

(** ** The commands on plain sorted sets *)

Definition on_zset (e : EntrySnapshot PValue) (err : Value)
    (f : SortedSet -> MochaOperation PValue * Value) : MochaOperation PValue * Value :=
  match pdata (value e) with
  | PZSet z => f z
  | _ => (MAbort, err)
  end.

#[global] Instance zadd_pure : PureCommand ZAddReq := {
  pmutate cmd e _ := on_zset e not_a_zset (fun z =>
    (pwrite_back e (PZSet (zadd z cmd).1), Integer (zadd z cmd).2));
  pinit cmd := (MInsert (pvalue_new (PZSet (zadd zset_new cmd).1)) Persistent, Integer (zadd zset_new cmd).2)
}.

#[global] Instance zrem_pure : PureCommand ZRemReq := {
  pmutate cmd e _ := on_zset e (Error (str "zrem: key is not a zset")) (fun z =>
    let '(z', n) := zrem z (zrem_members cmd) in
    (if zset_is_empty z' then MRemove else pwrite_back e (PZSet z'), Integer n));
  pinit cmd := (MAbort, Integer 0)
}.

#[global] Instance zpopmin_pure : PureCommand ZPopMinReq := {
  pmutate cmd e _ := on_zset e not_a_zset (fun z =>
    let '(z', popped) := zpop_min z (zpop_count cmd) in (pwrite_back e (PZSet z'), zpop_response cmd popped));
  pinit cmd := (MAbort, Array (Some []))
}.

#[global] Instance zincrby_pure : PureCommand ZIncrByReq := {
  pmutate cmd e _ := on_zset e wrong_type (fun z =>
    match zincrby z (zincr_member cmd) (zincr_increment cmd) with
    | (z', Some score) => (pwrite_back e (PZSet z'), Double score)
    | (_, None) => (MAbort, nan_score)
    end);
  pinit cmd :=
    match zincrby zset_new (zincr_member cmd) (zincr_increment cmd) with
    | (z', Some score) => (MInsert (pvalue_new (PZSet z')) Persistent, Double score)
    | (_, None) => (MAbort, nan_score)
    end
}.

Definition pread_zset {C} (missing : Value) (f : C -> SortedSet -> Value)
    (cmd : C) (e : option (EntrySnapshot PValue)) (r : Value) : Prop :=
  r = match e with
      | None => missing
      | Some e => match pdata (value e) with PZSet z => f cmd z | _ => protocol_error WrongType end
      end.

#[global] Instance zrange_pure : PureRead ZRangeParams := {
  pread := pread_zset (Array (Some [])) (fun cmd z =>
    scored_reply (zrange_with_scores cmd) (zrange z (zrange_start cmd) (zrange_stop cmd)))
}.
#[global] Instance zrangebyscore_pure : PureRead ZRangeByScoreParams := {
  pread := pread_zset (Array (Some [])) (fun cmd z =>
    scored_reply (zrbs_with_scores cmd) (zrangebyscore z (zrbs_min cmd) (zrbs_max cmd) (zrbs_limit cmd)))
}.
#[global] Instance zscore_pure : PureRead ZScoreParams := {
  pread := pread_zset Null (fun cmd z =>
    match zscore z (zscore_member cmd) with Some score => Double score | None => Null end)
}.
#[global] Instance zcard_pure : PureRead ZCardParams := {
  pread := pread_zset (Integer 0) (fun _ z => Integer (zset_len z))
}.
#[global] Instance zcount_pure : PureRead ZCountParams := {
  pread := pread_zset (Integer 0) (fun cmd z => Integer (zcount z (zcount_min cmd) (zcount_max cmd)
    (zcount_min_exclusive cmd) (zcount_max_exclusive cmd)))
}.
#[global] Instance zrank_pure : PureRead ZRankParams := {
  pread := pread_zset (BulkString None) (fun cmd z => rank_reply (zrank z (zrank_member cmd)))
}.
#[global] Instance zrevrank_pure : PureRead ZRevRankParams := {
  pread := pread_zset (BulkString None) (fun cmd z => rank_reply (zrevrank z (zrevrank_member cmd)))
}.

(** ** The laws *)

Lemma zset_at_eq h l x : zsets h !! l = Some x -> zset_at h l = x.
Proof. unfold zset_at. by intros ->. Qed.

Lemma put_zset_same h l x : zsets h !! l = Some x -> put_zset h l x = h.
Proof. intros Hl. unfold put_zset. rewrite insert_id by done. by destruct h. Qed.

Ltac zset_law Hpv :=
  unfold on_zset; cbn [value]; shape_cases Hpv; try (by apply refuse_ok);
  match goal with Hl : zsets _ !! _ = Some _ |- _ => rewrite ?(zset_at_eq _ _ _ Hl) end.

Lemma inplace_zset h e pv l x r pe : HeapInv h -> (forall a, expire_at e = Some a -> is_u64 a) ->
  abs_value h (value e) = Some pv -> data (value e) = VZSet l -> pe = mkEntrySnapshot pv (expire_at e) ->
  mutation_ok e pv h (put_zset h l x, (write_back e, r)) (pwrite_back pe (PZSet x), r).
Proof. intros Hh He Hpv Hd ->. by apply (inplace_ok h e pv Hh He Hpv l (PZSet x)). Qed.

Lemma init_zset h x r : HeapInv h ->
  init_ok h (let '(h', v) := alloc_zset h x in (h', (MInsert (my_value_new v) Persistent, r)))
    (MInsert (pvalue_new (PZSet x)) Persistent, r).
Proof. intros Hh. by apply (init_alloc_ok h (PZSet x)). Qed.

#[global] Instance zadd_laws : ComputeLaws ZAddReq.
Proof.
  apply (compute_laws (fun _ => True)).
  - intros cmd e pv wc h Hh _ _ He Hpv. cbn. unfold zadd_mutate. zset_law Hpv.
    destruct (zadd z cmd) as [z' n]. by apply inplace_zset.
  - intros cmd h Hh _. cbn. unfold zadd_init. destruct (zadd zset_new cmd) as [z n]. by apply init_zset.
Defined.

#[global] Instance zrem_laws : ComputeLaws ZRemReq.
Proof.
  apply (compute_laws (fun _ => True)).
  - intros cmd e pv wc h Hh _ _ He Hpv. cbn. unfold zrem_mutate. zset_law Hpv.
    destruct (zrem z (zrem_members cmd)) as [z' n]. destruct (zset_is_empty z'); [|by apply inplace_zset].
    apply remove_ok. by apply (frame_inplace h e pv Hh He Hpv l (PZSet z')).
  - intros cmd h Hh _. by apply init_refuse_ok.
Defined.

#[global] Instance zpopmin_laws : ComputeLaws ZPopMinReq.
Proof.
  apply (compute_laws (fun _ => True)).
  - intros cmd e pv wc h Hh _ _ He Hpv. cbn. unfold zpopmin_mutate. zset_law Hpv.
    destruct (zpop_min z (zpop_count cmd)) as [z' n]. by apply inplace_zset.
  - intros cmd h Hh _. by apply init_refuse_ok.
Defined.

(** A refused increment leaves the set alone. *)
Lemma zincrby_none z m inc z' : zincrby z m inc = (z', None) -> z' = z.
Proof. unfold zincrby. repeat case_match; congruence. Qed.

#[global] Instance zincrby_laws : ComputeLaws ZIncrByReq.
Proof.
  apply (compute_laws (fun _ => True)).
  - intros cmd e pv wc h Hh _ _ He Hpv. cbn. unfold zincrby_mutate. zset_law Hpv.
    destruct (zincrby z _ _) as [z' [score|]] eqn:Ez; [by apply inplace_zset|].
    apply zincrby_none in Ez as ->. rewrite (put_zset_same _ _ _ Hshape). by apply refuse_ok.
  - intros cmd h Hh _. cbn. unfold zincrby_init.
    destruct (zincrby zset_new _ _) as [z [score|]]; [by apply init_zset|by apply init_refuse_ok].
Defined.

Ltac zset_read Hr :=
  unfold pread_zset; read_law Hr; match goal with Hl : zsets _ !! _ = Some _ |- _ => by rewrite (zset_at_eq _ _ _ Hl) end.

#[global] Instance zrange_laws : ReadLaws ZRangeParams.
Proof. constructor. intros cmd h r pr Hh Hr. cbn. unfold zrange_execute. zset_read Hr. Qed.
#[global] Instance zrangebyscore_laws : ReadLaws ZRangeByScoreParams.
Proof. constructor. intros cmd h r pr Hh Hr. cbn. unfold zrangebyscore_execute. zset_read Hr. Qed.
#[global] Instance zscore_laws : ReadLaws ZScoreParams.
Proof. constructor. intros cmd h r pr Hh Hr. cbn. unfold zscore_execute. zset_read Hr. Qed.
#[global] Instance zcard_laws : ReadLaws ZCardParams.
Proof. constructor. intros cmd h r pr Hh Hr. cbn. unfold zcard_execute. zset_read Hr. Qed.
#[global] Instance zcount_laws : ReadLaws ZCountParams.
Proof. constructor. intros cmd h r pr Hh Hr. cbn. unfold zcount_execute. zset_read Hr. Qed.
#[global] Instance zrank_laws : ReadLaws ZRankParams.
Proof. constructor. intros cmd h r pr Hh Hr. cbn. unfold zrank_execute. zset_read Hr. Qed.
#[global] Instance zrevrank_laws : ReadLaws ZRevRankParams.
Proof. constructor. intros cmd h r pr Hh Hr. cbn. unfold zrevrank_execute. zset_read Hr. Qed.
End Commands.
