(* ===== verification/Bits.v ===== *)
(** * Bits: strings as arrays of bits.

    Models the bit-level code of src/cache_cat/src/protocol/bitmap: the
    encodings, reads and writes of BITFIELD (bitfield.rs), the search of BITPOS
    (bitpos.rs), and the single-bit accesses and population count of SETBIT,
    GETBIT and BITCOUNT. Bit 0 is the most significant bit of the first
    byte; past the end of the string every bit is 0. The specification is
    [bit_at]. *)

From S2P Require Import Prelude Ops.
From Stdlib Require Import Strings.Byte.

(** ** Bytes and single bits *)

(** [bytes[i]]; the callers check the bound. *)
Definition byte_at (s : bytes) (i : Z) : byte := default x00 (s !! Z.to_nat i).

Definition blen (s : bytes) : Z := Z.of_nat (length s).

(** [(byte >> bit_position) & 1]. *)
Definition bit_of (b : byte) (bit_position : Z) : Z := Z.land (Z.shiftr (bz b) bit_position) 1.

(** [bytes[byte_index] |= mask] or [&= !mask]. *)
Definition put_bit (s : bytes) (byte_index bit_position bit : Z) : bytes :=
  let mask := Z.shiftl 1 bit_position in
  let old_byte := bz (byte_at s byte_index) in
  let new_byte := if bit =? 1 then Z.lor old_byte mask else Z.land old_byte (Z.lxor mask 255) in
  <[Z.to_nat byte_index := zb new_byte]> s.

(** [bytes.resize(n, 0)] to a length that is not smaller. *)
Definition grow (s : bytes) (n : Z) : bytes := s ++ replicate (Z.to_nat n - length s) x00.

(** GETBIT. *)
Definition get_bit (s : bytes) (offset : Z) : Z :=
  let byte_index := offset / 8 in
  let bit_offset := offset mod 8 in
  if blen s <=? byte_index then 0 else bit_of (byte_at s byte_index) (7 - bit_offset).

(** SETBIT: the string and the old bit. *)
Definition set_bit (s : bytes) (offset v : Z) : bytes * Z :=
  let bit_value := Z.land v 1 in
  let byte_index := offset / 8 in
  let bit_position := 7 - offset mod 8 in
  let s := if blen s <=? byte_index then grow s (byte_index + 1) else s in
  let old_bit := bit_of (byte_at s byte_index) bit_position in
  (put_bit s byte_index bit_position bit_value, old_bit).

(** [u8::count_ones]. *)
Definition count_ones (b : byte) : Z :=
  Z.of_nat (length (filter (fun i => Z.testbit (bz b) i = true) (seqZ 0 8))).

(** The sum BITCOUNT takes over a slice. *)
Definition count_sum (s : bytes) : Z := foldl (fun sum b => sum + count_ones b) 0 s.

(** ** BITFIELD *)

Definition width (e : BitFieldEncoding) : Z := bf_bits e.

Definition bounds (e : BitFieldEncoding) : Z * Z :=
  if bf_signed e then
    let sign_value := Z.shiftl 1 (bf_bits e - 1) in (- sign_value, sign_value - 1)
  else (0, Z.shiftl 1 (bf_bits e) - 1).

(** [decode]: sign extension of the raw bits. *)
Definition bf_decode (e : BitFieldEncoding) (raw : Z) : Z :=
  if negb (bf_signed e) then u64_as_i64 raw
  else if bf_bits e =? 64 then u64_as_i64 raw
  else
    let sign_bit := Z.shiftl 1 (bf_bits e - 1) in
    if negb (Z.land raw sign_bit =? 0)
    then u64_as_i64 (Z.lor raw (wrap_u64 (Z.shiftl u64_max (bf_bits e))))
    else u64_as_i64 raw.

(** [encode]: the low bits. *)
Definition bf_encode (e : BitFieldEncoding) (v : Z) : Z :=
  let raw := i64_as_u64 v in
  if bf_bits e =? 64 then raw else Z.land raw (Z.shiftl 1 (bf_bits e) - 1).

Definition normalize (e : BitFieldEncoding) (v : Z) (overflow : BitFieldOverflow) : option Z :=
  let '(min, max) := bounds e in
  if ((min <=? v) && (v <=? max))%bool then Some v
  else
    match overflow with
    | BFFail => None
    | Sat => Some (if v <? min then min else max)
    | Wrap =>
        let modulus := Z.shiftl 1 (bf_bits e) in
        let wrapped := v mod modulus in
        Some (if (bf_signed e && (Z.shiftl 1 (bf_bits e - 1) <=? wrapped))%bool then wrapped - modulus else wrapped)
    end.

Definition is_write (op : BitFieldSubCommand) : bool :=
  match op with
  | BfGet _ _ => false
  | _ => true
  end.

Definition end_bit (op : BitFieldSubCommand) : option Z :=
  let '(encoding, offset) :=
    match op with
    | BfGet e o => (e, o)
    | BfSet e o _ _ => (e, o)
    | BfIncrBy e o _ _ => (e, o)
    end in
  let z := offset + (width encoding - 1) in
  if z <=? u64_max then Some z else None.

Definition has_write_operation (ops : list BitFieldSubCommand) : bool := existsb is_write ops.

(** The maximum over the writes. *)
Definition highest_write_end_bit (ops : list BitFieldSubCommand) : option Z :=
  foldl (fun m op =>
    match (if is_write op then end_bit op else None), m with
    | Some z, Some m => Some (Z.max m z)
    | Some z, None => Some z
    | None, m => m
    end) None ops.

Definition prepare_write_buffer (ops : list BitFieldSubCommand) (s : bytes) : bytes :=
  match highest_write_end_bit ops with
  | None => s
  | Some end_bit =>
      let required_len := Z.shiftr end_bit 3 + 1 in
      if blen s <? required_len then grow s required_len else s
  end.

(** One turn of the loop of [read_bitfield]. *)
Definition read_step (s : bytes) (offset : Z) (raw : Z) (bit_index : nat) : Z :=
  let absolute_bit := offset + Z.of_nat bit_index in
  let byte_index := Z.shiftr absolute_bit 3 in
  let bit_position := 7 - Z.land absolute_bit 7 in
  let bit := if byte_index <? blen s then bit_of (byte_at s byte_index) bit_position else 0 in
  Z.lor (wrap_u64 (Z.shiftl raw 1)) bit.

Definition read_bitfield (s : bytes) (e : BitFieldEncoding) (offset : Z) : Z :=
  bf_decode e (foldl (read_step s offset) 0 (seq 0 (Z.to_nat (width e)))).

(** One turn of the loop of [write_bitfield]. *)
Definition write_step (w offset raw : Z) (s : bytes) (bit_index : nat) : bytes :=
  let absolute_bit := offset + Z.of_nat bit_index in
  let byte_index := Z.shiftr absolute_bit 3 in
  let bit_position := 7 - Z.land absolute_bit 7 in
  let source_shift := w - 1 - Z.of_nat bit_index in
  put_bit s byte_index bit_position (Z.land (Z.shiftr raw source_shift) 1).

Definition write_bitfield (s : bytes) (e : BitFieldEncoding) (offset v : Z) : bytes :=
  foldl (write_step (width e) offset (bf_encode e v)) s (seq 0 (Z.to_nat (width e))).

(** ** BITPOS *)

Definition normalize_range (len : Z) (start end_ : option Z) : option (Z * Z) :=
  if len =? 0 then None
  else
    let start := default 0 start in
    let end_ := default (len - 1) end_ in
    let start := if start <? 0 then start + len else start in
    let end_ := if end_ <? 0 then end_ + len else end_ in
    let start := if start <? 0 then 0 else start in
    if ((end_ <? 0) || (len <=? start) || (end_ <? start))%bool then None
    else Some (start, if len <=? end_ then len - 1 else end_).

(** [u8::leading_zeros]. *)
Definition leading_zeros (b : Z) : Z := if b =? 0 then 8 else 7 - Z.log2 b.

(** The [while] loop of [find_first_bit]. The position grows at every turn, so
    [end_bit - start_bit + 1] turns are enough. *)
Fixpoint find_loop (fuel : nat) (s : bytes) (target_bit position end_bit : Z) : option Z :=
  match fuel with
  | O => None
  | S fuel' =>
      if end_bit <? position then None
      else
        let byte_index := position / 8 in
        let bit_offset := position mod 8 in
        let b := byte_at s byte_index in
        if ((bit_offset =? 0) && (7 <=? end_bit - position))%bool then
          let candidate := if target_bit =? 1 then bz b else Z.lxor (bz b) 255 in
          if negb (candidate =? 0) then Some (position + leading_zeros candidate)
          else find_loop fuel' s target_bit (position + 8) end_bit
        else if bit_of b (7 - bit_offset) =? target_bit then Some position
        else find_loop fuel' s target_bit (position + 1) end_bit
  end.

Definition find_first_bit (s : bytes) (target_bit start_bit end_bit : Z) : option Z :=
  find_loop (Z.to_nat (end_bit - start_bit + 1)) s target_bit start_bit end_bit.

(** ** The specification *)

(** Bit [i] of a string. *)
Definition bit_at (s : bytes) (i : Z) : bool := Z.testbit (bz (byte_at s (i / 8))) (7 - i mod 8).

Lemma land_1 x p : 0 <= p -> Z.land (Z.shiftr x p) 1 = Z.b2z (Z.testbit x p).
Proof.
  intros Hp. change 1 with (Z.ones 1). rewrite Z.land_ones by lia. rewrite Z.shiftr_div_pow2 by done.
  by rewrite <- Z.testbit_spec'.
Qed.

Lemma testbit_1 k : Z.testbit 1 k = (k =? 0).
Proof.
  destruct (Z.eqb_spec k 0) as [->|Hk]; [done|]. destruct (Z.lt_ge_cases k 0); [by apply Z.testbit_neg_r|].
  apply Z.bits_above_log2; cbn; lia.
Qed.

Lemma testbit_mask p q : 0 <= q -> Z.testbit (Z.shiftl 1 p) q = (q =? p).
Proof. intros Hq. rewrite Z.shiftl_spec, testbit_1 by done. destruct (Z.eqb_spec q p), (Z.eqb_spec (q - p) 0); lia || done. Qed.

Lemma bz_zb_bit z q : 0 <= q < 8 -> Z.testbit (bz (zb z)) q = Z.testbit z q.
Proof. intros Hq. rewrite bz_zb. change 256 with (2 ^ 8). by rewrite Z.mod_pow2_bits_low by lia. Qed.

Lemma testbit_255 q : 0 <= q < 8 -> Z.testbit 255 q = true.
Proof. intros Hq. change 255 with (Z.ones 8). by apply Z.ones_spec_low. Qed.

(** The byte with one bit changed. *)
Lemma put_byte_bit old p bit q : 0 <= q < 8 ->
  let mask := Z.shiftl 1 p in
  Z.testbit (bz (zb (if bit =? 1 then Z.lor old mask else Z.land old (Z.lxor mask 255)))) q =
    if q =? p then bit =? 1 else Z.testbit old q.
Proof.
  intros Hq mask. rewrite bz_zb_bit by done. unfold mask. destruct (bit =? 1).
  - rewrite Z.lor_spec, testbit_mask by lia. destruct (q =? p); [apply orb_true_r|apply orb_false_r].
  - rewrite Z.land_spec, Z.lxor_spec, testbit_mask, testbit_255 by lia.
    destruct (q =? p); cbn; [apply andb_false_r|apply andb_true_r].
Qed.

Lemma div_mod_8 i : i = 8 * (i / 8) + i mod 8 /\ 0 <= i mod 8 < 8.
Proof. split; [apply Z.div_mod; lia|apply Z.mod_pos_bound; lia]. Qed.

Lemma length_put_bit s a p b : length (put_bit s a p b) = length s.
Proof. apply length_insert. Qed.

(** Writing a bit changes that bit and no other. *)
Lemma bit_at_put_bit s i b j : 0 <= i < 8 * blen s -> 0 <= j ->
  bit_at (put_bit s (i / 8) (7 - i mod 8) b) j = if j =? i then b =? 1 else bit_at s j.
Proof.
  intros Hi Hj. unfold bit_at, put_bit, byte_at, blen in *. cbv zeta.
  destruct (div_mod_8 i) as [Ei Hmi], (div_mod_8 j) as [Ej Hmj].
  assert (0 <= i / 8) by (apply Z.div_pos; lia). assert (0 <= j / 8) by (apply Z.div_pos; lia).
  destruct (decide (i / 8 = j / 8)) as [E|E].
  - rewrite <- E. rewrite list_lookup_insert_eq by lia. cbn [from_option id].
    rewrite put_byte_bit by lia. destruct (Z.eqb_spec (7 - j mod 8) (7 - i mod 8)), (Z.eqb_spec j i); lia || done.
  - rewrite list_lookup_insert_ne by lia. destruct (Z.eqb_spec j i); [subst; lia|done].
Qed.

Lemma bit_at_end s i : 8 * blen s <= i -> bit_at s i = false.
Proof.
  intros Hi. unfold bit_at, byte_at, blen in *. assert (Z.of_nat (length s) <= i / 8).
  { apply Z.div_le_lower_bound; lia. }
  rewrite lookup_ge_None_2 by lia. apply Z.bits_0.
Qed.

(** Growing a string changes no bit. *)
Lemma bit_at_grow s n i : bit_at (grow s n) i = bit_at s i.
Proof.
  unfold bit_at, byte_at, grow. f_equal. f_equal. destruct (decide (Z.to_nat (i / 8) < length s)%nat).
  - by rewrite lookup_app_l.
  - rewrite lookup_app_r by lia. rewrite (lookup_ge_None_2 s) by lia.
    destruct (replicate _ _ !! _) as [b|] eqn:E; [|done]. by apply lookup_replicate in E as [-> _].
Qed.

Lemma blen_grow s n : blen s <= n -> blen (grow s n) = n.
Proof. intros Hn. unfold blen, grow in *. rewrite length_app, length_replicate. lia. Qed.

Lemma shiftr_3 i : Z.shiftr i 3 = i / 8.
Proof. by rewrite Z.shiftr_div_pow2. Qed.

Lemma land_7 i : Z.land i 7 = i mod 8.
Proof. change 7 with (Z.ones 3). by rewrite Z.land_ones. Qed.

Lemma bit_of_at s i : bit_of (byte_at s (i / 8)) (7 - i mod 8) = Z.b2z (bit_at s i).
Proof. unfold bit_of. rewrite land_1; [done|]. pose proof (div_mod_8 i). lia. Qed.

(** The bit a read finds, inside the string or past its end. *)
Lemma bit_in_range s i : 0 <= i ->
  (if i / 8 <? blen s then bit_of (byte_at s (i / 8)) (7 - i mod 8) else 0) = Z.b2z (bit_at s i).
Proof.
  intros Hi. destruct (Z.ltb_spec (i / 8) (blen s)); [apply bit_of_at|].
  rewrite bit_at_end; [done|]. pose proof (div_mod_8 i). lia.
Qed.

(** ** Reading and writing fields *)

(** The number formed by the [n] bits from [offset] on. *)
Fixpoint field (s : bytes) (offset : Z) (n : nat) : Z :=
  match n with
  | O => 0
  | S n' => 2 * field s offset n' + Z.b2z (bit_at s (offset + Z.of_nat n'))
  end.

Lemma field_range s offset n : 0 <= field s offset n < 2 ^ Z.of_nat n.
Proof.
  induction n as [|n IH]; [done|]. rewrite Nat2Z.inj_succ, Z.pow_succ_r by lia. cbn [field].
  destruct (bit_at s _); cbn [Z.b2z]; lia.
Qed.

(** Appending a bit, as a shift and an or. *)
Lemma lor_append r b : 0 <= r -> Z.lor (Z.shiftl r 1) (Z.b2z b) = 2 * r + Z.b2z b.
Proof.
  intros Hr. rewrite Z.shiftl_mul_pow2 by lia. change (2 ^ 1) with 2.
  destruct b; cbn [Z.b2z]; [|by rewrite Z.lor_0_r; lia].
  replace (r * 2) with (2 * r) by lia. destruct r; [done|done|lia].
Qed.

Lemma read_loop_field s offset n : 0 <= offset -> (n <= 64)%nat ->
  foldl (read_step s offset) 0 (seq 0 n) = field s offset n.
Proof.
  intros Ho. induction n as [|n IH]; intros Hn; [done|].
  rewrite seq_S, foldl_app, IH by lia. cbn [foldl]. unfold read_step. cbv zeta. cbn [Nat.add].
  rewrite shiftr_3, land_7, bit_in_range by lia.
  pose proof (field_range s offset n) as Hr. assert (2 ^ Z.of_nat n <= 2 ^ 63) by (apply Z.pow_le_mono_r; lia).
  replace (wrap_u64 (Z.shiftl (field s offset n) 1)) with (Z.shiftl (field s offset n) 1); [apply lor_append; lia|].
  rewrite Z.shiftl_mul_pow2 by lia. unfold wrap_u64. rewrite Z.mod_small by lia. done.
Qed.

(** A field depends on its bits only. *)
Lemma field_ext s s' offset n :
  (forall k, (k < n)%nat -> bit_at s (offset + Z.of_nat k) = bit_at s' (offset + Z.of_nat k)) ->
  field s offset n = field s' offset n.
Proof.
  induction n as [|n IH]; intros Hb; [done|]. cbn [field]. rewrite IH by (intros; apply Hb; lia).
  by rewrite Hb by lia.
Qed.

(** The leading bits of a number. *)
Lemma field_of_number s offset w raw n : 0 <= raw < 2 ^ w -> Z.of_nat n <= w ->
  (forall k, (k < n)%nat -> bit_at s (offset + Z.of_nat k) = Z.testbit raw (w - 1 - Z.of_nat k)) ->
  field s offset n = raw / 2 ^ (w - Z.of_nat n).
Proof.
  intros Hraw. induction n as [|n IH]; intros Hn Hb; cbn [field].
  { rewrite Z.sub_0_r, Z.div_small by lia. done. }
  rewrite IH; [|lia|intros; apply Hb; lia]. rewrite Hb by lia. set (d := w - 1 - Z.of_nat n).
  replace (w - Z.of_nat n) with (Z.succ d) by lia. replace (w - Z.of_nat (S n)) with d by lia.
  rewrite Z.testbit_spec' by lia. replace (2 ^ Z.succ d) with (2 ^ d * 2) by (rewrite Z.pow_succ_r; lia).
  rewrite <- (Z.div_div raw) by lia.
  pose proof (Z.div_mod (raw / 2 ^ d) 2 ltac:(lia)). lia.
Qed.

Definition write_loop (w offset raw : Z) (s : bytes) (n : nat) : bytes :=
  foldl (write_step w offset raw) s (seq 0 n).

Lemma write_loop_spec w offset raw s n : 0 <= offset -> Z.of_nat n <= w -> offset + Z.of_nat n <= 8 * blen s ->
  length (write_loop w offset raw s n) = length s /\
  forall j, 0 <= j -> bit_at (write_loop w offset raw s n) j =
    if ((offset <=? j) && (j <? offset + Z.of_nat n))%bool then Z.testbit raw (w - 1 - (j - offset)) else bit_at s j.
Proof.
  intros Ho. induction n as [|n IH]; intros Hw Hn.
  { split; [done|]. intros j Hj. destruct (Z.leb_spec offset j), (Z.ltb_spec j (offset + Z.of_nat 0)); lia || done. }
  unfold write_loop. rewrite seq_S, foldl_app. cbn [foldl Nat.add]. fold (write_loop w offset raw s n).
  destruct IH as [Hlen Hbit]; [lia..|]. unfold write_step. cbv zeta. rewrite shiftr_3, land_7.
  rewrite length_put_bit. split; [done|]. intros j Hj.
  rewrite bit_at_put_bit by (unfold blen in *; rewrite ?Hlen; lia). rewrite land_1 by lia. rewrite Hbit by done.
  destruct (Z.eqb_spec j (offset + Z.of_nat n)) as [->|Hne].
  - destruct (Z.leb_spec offset (offset + Z.of_nat n)), (Z.ltb_spec (offset + Z.of_nat n) (offset + Z.of_nat (S n)));
      try lia. cbn [andb]. replace (offset + Z.of_nat n - offset) with (Z.of_nat n) by lia.
    by destruct (Z.testbit raw _).
  - destruct (Z.leb_spec offset j), (Z.ltb_spec j (offset + Z.of_nat n)), (Z.ltb_spec j (offset + Z.of_nat (S n)));
      lia || done.
Qed.

(** ** Encodings *)

(** The encodings the parser accepts: i1 to i64 and u1 to u63. *)
Definition enc_ok (e : BitFieldEncoding) : Prop :=
  if bf_signed e then 1 <= bf_bits e <= 64 else 1 <= bf_bits e <= 63.

Definition in_bounds (e : BitFieldEncoding) (v : Z) : Prop := (bounds e).1 <= v <= (bounds e).2.

Lemma shiftl_1 n : Z.shiftl 1 n = 2 ^ n.
Proof. by rewrite Z.shiftl_1_l. Qed.

Lemma bounds_spec e : bounds e =
  if bf_signed e then (- 2 ^ (bf_bits e - 1), 2 ^ (bf_bits e - 1) - 1) else (0, 2 ^ bf_bits e - 1).
Proof. unfold bounds. by rewrite !shiftl_1. Qed.

Lemma pow_split n : 1 <= n -> 2 ^ n = 2 * 2 ^ (n - 1).
Proof. intros Hn. rewrite <- Z.pow_succ_r by lia. f_equal. lia. Qed.

Lemma bf_encode_mod e v : enc_ok e -> bf_encode e v = v mod 2 ^ bf_bits e.
Proof.
  intros He. assert (Hb : 1 <= bf_bits e <= 64) by (unfold enc_ok in He; destruct (bf_signed e); lia).
  unfold bf_encode, i64_as_u64, wrap_u64. destruct (Z.eqb_spec (bf_bits e) 64) as [->|]; [done|].
  rewrite shiftl_1. replace (2 ^ bf_bits e - 1) with (Z.ones (bf_bits e)) by (rewrite Z.ones_equiv; lia).
  rewrite Z.land_ones by lia. replace (2 ^ 64) with (2 ^ bf_bits e * 2 ^ (64 - bf_bits e))
    by (rewrite <- Z.pow_add_r by lia; f_equal; lia).
  rewrite Z.rem_mul_r by lia. rewrite Z.mul_comm, Z.mod_add by lia. apply Z.mod_mod. lia.
Qed.

Lemma wrap_i64_add z : wrap_i64 (z + 2 ^ 64) = wrap_i64 z.
Proof.
  unfold wrap_i64. replace (z + 2 ^ 64 + 2 ^ 63) with (z + 2 ^ 63 + 1 * 2 ^ 64) by lia.
  by rewrite Z.mod_add by lia.
Qed.

(** The bits above the field, all ones. *)
Lemma ones_above n : 0 <= n < 64 -> wrap_u64 (Z.shiftl u64_max n) = Z.shiftl (Z.ones (64 - n)) n.
Proof.
  intros Hn. unfold wrap_u64, u64_max. rewrite !Z.shiftl_mul_pow2 by lia. rewrite Z.ones_equiv.
  assert (E : 2 ^ 64 = 2 ^ (64 - n) * 2 ^ n) by (rewrite <- Z.pow_add_r by lia; f_equal; lia).
  assert (0 < 2 ^ n) by lia. assert (0 < 2 ^ (64 - n)) by lia.
  replace ((2 ^ 64 - 1) * 2 ^ n) with (Z.pred (2 ^ (64 - n)) * 2 ^ n + (2 ^ n - 1) * 2 ^ 64) by (rewrite E; nia).
  rewrite Z.mod_add by lia. apply Z.mod_small. rewrite E. nia.
Qed.

Lemma sign_extend raw n : 1 <= n < 64 -> 0 <= raw < 2 ^ n ->
  Z.lor raw (wrap_u64 (Z.shiftl u64_max n)) = raw + 2 ^ 64 - 2 ^ n.
Proof.
  intros Hn Hr. rewrite ones_above by lia.
  assert (Hd : Z.land raw (Z.shiftl (Z.ones (64 - n)) n) = 0).
  { apply Z.bits_inj'. intros k Hk. rewrite Z.land_spec, Z.bits_0, Z.shiftl_spec by done.
    destruct (Z.lt_ge_cases k n); [rewrite (Z.testbit_neg_r _ (k - n)) by lia; apply andb_false_r|].
    rewrite <- (Z.mod_small raw (2 ^ n)) by done. by rewrite Z.mod_pow2_bits_high by lia. }
  rewrite <- Z.lxor_lor, <- Z.add_nocarry_lxor by done. rewrite Z.shiftl_mul_pow2, Z.ones_equiv by lia.
  assert (E : 2 ^ 64 = 2 ^ (64 - n) * 2 ^ n) by (rewrite <- Z.pow_add_r by lia; f_equal; lia). nia.
Qed.

(** The sign bit of a number of [n] bits. *)
Lemma top_bit raw n : 1 <= n -> 0 <= raw < 2 ^ n ->
  (Z.land raw (Z.shiftl 1 (n - 1)) =? 0) = (raw <? 2 ^ (n - 1)).
Proof.
  intros Hn Hr. rewrite pow_split in Hr by done.
  assert (E : Z.land raw (Z.shiftl 1 (n - 1)) = Z.b2z (Z.testbit raw (n - 1)) * 2 ^ (n - 1)).
  { apply Z.bits_inj'. intros k Hk. rewrite Z.land_spec, testbit_mask by done.
    destruct (Z.testbit raw (n - 1)) eqn:Et; cbn [Z.b2z].
    - rewrite Z.mul_1_l, Z.pow2_bits_eqb by lia. rewrite Z.eqb_sym.
      destruct (Z.eqb_spec (n - 1) k) as [<-|]; [by rewrite Et|apply andb_false_r].
    - rewrite Z.bits_0. destruct (Z.eqb_spec k (n - 1)) as [->|]; [by rewrite Et|apply andb_false_r]. }
  rewrite E. assert (Hp : 0 < 2 ^ (n - 1)) by lia. rewrite Z.testbit_spec' by lia.
  destruct (Z.ltb_spec raw (2 ^ (n - 1))).
  - rewrite Z.div_small by lia. done.
  - replace (raw / 2 ^ (n - 1)) with 1; [|apply Z.div_unique with (raw - 2 ^ (n - 1)); lia].
    apply Z.eqb_neq. change (1 mod 2) with 1. lia.
Qed.

Lemma bf_decode_spec e raw : enc_ok e -> 0 <= raw < 2 ^ bf_bits e ->
  bf_decode e raw = if (bf_signed e && (2 ^ (bf_bits e - 1) <=? raw))%bool then raw - 2 ^ bf_bits e else raw.
Proof.
  unfold enc_ok, bf_decode, u64_as_i64. intros He Hr. destruct (bf_signed e); cbn [negb andb].
  2: { apply wrap_i64_small. assert (2 ^ bf_bits e <= 2 ^ 63) by (apply Z.pow_le_mono_r; lia).
       unfold is_i64, i64_min, i64_max. lia. }
  assert (Hi : forall z, - 2 ^ 63 <= z < 2 ^ 63 -> wrap_i64 z = z).
  { intros z Hz. apply wrap_i64_small. unfold is_i64, i64_min, i64_max. lia. }
  destruct (Z.eqb_spec (bf_bits e) 64) as [E|E].
  - rewrite E in *. change (64 - 1) with 63. destruct (Z.leb_spec (2 ^ 63) raw); [|apply Hi; lia].
    replace raw with (raw - 2 ^ 64 + 2 ^ 64) at 1 by lia. rewrite wrap_i64_add. apply Hi. lia.
  - rewrite top_bit by lia. assert (2 ^ bf_bits e <= 2 ^ 63) by (apply Z.pow_le_mono_r; lia).
    destruct (Z.ltb_spec raw (2 ^ (bf_bits e - 1))), (Z.leb_spec (2 ^ (bf_bits e - 1)) raw); try lia; cbn [negb].
    + apply Hi. lia.
    + rewrite sign_extend by lia. replace (raw + 2 ^ 64 - 2 ^ bf_bits e) with (raw - 2 ^ bf_bits e + 2 ^ 64) by lia.
      rewrite wrap_i64_add. apply Hi. lia.
Qed.

(** Encoding and decoding a number the encoding can represent. *)
Lemma decode_encode e v : enc_ok e -> in_bounds e v -> bf_decode e (bf_encode e v) = v.
Proof.
  intros He Hv. rewrite bf_encode_mod by done. unfold in_bounds in Hv. rewrite bounds_spec in Hv.
  assert (Hb : 1 <= bf_bits e) by (unfold enc_ok in He; destruct (bf_signed e); lia).
  assert (Hp : 0 < 2 ^ (bf_bits e - 1)) by lia. pose proof (pow_split (bf_bits e) Hb) as Hs.
  rewrite bf_decode_spec; [|done|apply Z.mod_pos_bound; lia].
  destruct (bf_signed e); cbn [fst snd andb] in *; [|apply Z.mod_small; lia].
  destruct (Z.lt_ge_cases v 0).
  - replace (v mod 2 ^ bf_bits e) with (v + 2 ^ bf_bits e)
      by (apply Z.mod_unique with (-1); lia).
    destruct (Z.leb_spec (2 ^ (bf_bits e - 1)) (v + 2 ^ bf_bits e)); lia.
  - rewrite Z.mod_small by lia. destruct (Z.leb_spec (2 ^ (bf_bits e - 1)) v); lia.
Qed.

(** ** Properties *)

(** What BITFIELD SET stores, BITFIELD GET reads back: for every encoding
    and every value in its bounds, the field holds the value, and no bit
    outside the field and no byte of the length changes. *)
Theorem bitfield_set_get (s : bytes) (e : BitFieldEncoding) (offset v : Z) :
  enc_ok e -> in_bounds e v -> 0 <= offset -> offset + width e <= 8 * blen s ->
  let s' := write_bitfield s e offset v in
  read_bitfield s' e offset = v /\ length s' = length s /\
  forall j, 0 <= j -> j < offset \/ offset + width e <= j -> bit_at s' j = bit_at s j.
Proof.
  intros He Hv Ho Hfit s'. assert (Hw : 1 <= width e <= 64) by (unfold enc_ok, width in *; destruct (bf_signed e); lia).
  destruct (write_loop_spec (width e) offset (bf_encode e v) s (Z.to_nat (width e))) as [Hlen Hbit]; [lia..|].
  rewrite Z2Nat.id in Hbit by lia. unfold write_loop in Hlen, Hbit. fold (write_bitfield s e offset v) in Hlen, Hbit.
  fold s' in Hlen, Hbit. split_and!; [|done|].
  - unfold read_bitfield. rewrite read_loop_field by lia.
    rewrite (field_of_number s' offset (width e) (bf_encode e v)); [| |lia|].
    + rewrite Z2Nat.id, Z.sub_diag, Z.div_1_r by lia. by apply decode_encode.
    + rewrite bf_encode_mod by done. apply Z.mod_pos_bound. unfold width in *. lia.
    + intros k Hk. rewrite Hbit by lia. replace (offset + Z.of_nat k - offset) with (Z.of_nat k) by lia.
      destruct (Z.leb_spec offset (offset + Z.of_nat k)), (Z.ltb_spec (offset + Z.of_nat k) (offset + width e)); lia || done.
  - intros j Hj Hout. rewrite Hbit by done.
    destruct (Z.leb_spec offset j), (Z.ltb_spec j (offset + width e)); lia || done.
Qed.

Lemma bitfield_set_get_witness :
  read_bitfield (write_bitfield [xff; x00; x00] (mkBitFieldEncoding true 13) 5 (-1000)) (mkBitFieldEncoding true 13) 5
    = -1000.
Proof.
  apply (bitfield_set_get [xff; x00; x00] (mkBitFieldEncoding true 13) 5 (-1000));
    [cbn; lia|vm_compute; split; discriminate|lia|vm_compute; discriminate].
Defined.

(** C25: the overflow policies of BITFIELD. A value in bounds is kept. Out of
    bounds, WRAP gives the representable number congruent to it modulo 2^bits,
    SAT the nearest bound, and FAIL refuses. *)
Theorem bitfield_overflow (e : BitFieldEncoding) (v : Z) : enc_ok e ->
  (forall o, in_bounds e v -> normalize e v o = Some v) /\
  (exists r, normalize e v Wrap = Some r /\ in_bounds e r /\ r mod 2 ^ bf_bits e = v mod 2 ^ bf_bits e) /\
  normalize e v Sat = Some (Z.max (bounds e).1 (Z.min v (bounds e).2)) /\
  (normalize e v BFFail = None <-> ~ in_bounds e v).
Proof.
  intros He. assert (Hb : 1 <= bf_bits e) by (unfold enc_ok in He; destruct (bf_signed e); lia).
  assert (Hp : 0 < 2 ^ (bf_bits e - 1)) by lia. pose proof (pow_split (bf_bits e) Hb) as Hs.
  pose proof (Z.mod_pos_bound v (2 ^ bf_bits e) ltac:(lia)) as Hm.
  unfold normalize, in_bounds. rewrite !shiftl_1. destruct (bounds e) as [lo hi] eqn:Eb. cbn [fst snd].
  assert (Hlh : lo <= hi) by (rewrite bounds_spec in Eb; destruct (bf_signed e); injection Eb as <- <-; lia).
  destruct (Z.leb_spec lo v), (Z.leb_spec v hi); cbn [andb].
  1: { split_and!; [done|by exists v|f_equal; lia|]. split; [done|lia]. }
  all: split_and!; [lia| |f_equal; destruct (Z.ltb_spec v lo); lia|split; [lia|done]].
  all: eexists; split; [done|]; rewrite bounds_spec in Eb; destruct (bf_signed e); injection Eb as <- <-; cbn [andb].
  all: try (rewrite Z.mod_mod by lia; split; [lia|done]).
  all: destruct (Z.leb_spec (2 ^ (bf_bits e - 1)) (v mod 2 ^ bf_bits e));
    [|rewrite Z.mod_mod by lia; split; [lia|done]].
  all: split; [lia|]; replace (v mod 2 ^ bf_bits e - 2 ^ bf_bits e)
    with (v mod 2 ^ bf_bits e + (-1) * 2 ^ bf_bits e) by lia; by rewrite Z.mod_add, Z.mod_mod by lia.
Qed.

Lemma bitfield_overflow_witness :
  normalize (mkBitFieldEncoding true 8) 200 Sat = Some 127 /\
  exists r, normalize (mkBitFieldEncoding true 8) 200 Wrap = Some r /\ r mod 256 = 200 mod 256.
Proof.
  destruct (bitfield_overflow (mkBitFieldEncoding true 8) 200 ltac:(unfold enc_ok; cbn; lia)) as (_ & (r & H1 & _ & H2) & H3 & _).
  split; [exact H3|]. exists r. split; [exact H1|exact H2].
Defined.

(** SETBIT changes one bit: the string grows just enough to hold it, GETBIT
    then answers the new bit at that offset and the old bits everywhere else,
    and the reply is the old bit. *)
Theorem setbit_getbit (s : bytes) (offset v : Z) : 0 <= offset ->
  let '(s', old) := set_bit s offset v in
  old = get_bit s offset /\
  blen s' = Z.max (blen s) (offset / 8 + 1) /\
  forall j, 0 <= j -> get_bit s' j = if j =? offset then Z.land v 1 else get_bit s j.
Proof.
  intros Ho. unfold set_bit. set (s1 := if blen s <=? offset / 8 then _ else s).
  assert (Hs1 : blen s1 = Z.max (blen s) (offset / 8 + 1) /\ forall i, bit_at s1 i = bit_at s i).
  { unfold s1. destruct (Z.leb_spec (blen s) (offset / 8)).
    - rewrite blen_grow by lia. split; [lia|]. intros i. apply bit_at_grow.
    - split; [lia|done]. }
  destruct Hs1 as [Hlen Hbits]. rewrite bit_of_at, Hbits.
  assert (Hget : forall x i, 0 <= i -> get_bit x i = Z.b2z (bit_at x i)).
  { intros x i Hi. rewrite <- bit_in_range by done. unfold get_bit.
    destruct (Z.leb_spec (blen x) (i / 8)), (Z.ltb_spec (i / 8) (blen x)); lia || done. }
  rewrite Hget by done. split_and!; [done|by unfold blen in *; rewrite length_put_bit|].
  intros j Hj. rewrite !Hget, bit_at_put_bit, Hbits by (pose proof (div_mod_8 offset); lia).
  destruct (j =? offset); [|done]. change (Z.land v 1) with (Z.land (Z.shiftr v 0) 1). rewrite land_1 by lia.
  by destruct (Z.testbit v 0).
Qed.

Lemma setbit_getbit_witness : get_bit (set_bit (zb <$> [97]) 17 1).1 17 = 1 /\ (set_bit (zb <$> [97]) 17 1).2 = 0.
Proof.
  pose proof (setbit_getbit (zb <$> [97]) 17 1 ltac:(lia)) as H.
  destruct (set_bit (zb <$> [97]) 17 1) as [s' old]. destruct H as (H1 & _ & H2). split; [|exact H1].
  exact (H2 17 ltac:(lia)).
Defined.

(** The first position of [target] in a range, by counting up. *)
Fixpoint first_from (n : nat) (s : bytes) (target : bool) (i : Z) : option Z :=
  match n with
  | O => None
  | S n' => if Bool.eqb (bit_at s i) target then Some i else first_from n' s target (i + 1)
  end.

Lemma first_from_add n1 n2 s (target : bool) i :
  first_from (n1 + n2) s target i =
    match first_from n1 s target i with
    | Some p => Some p
    | None => first_from n2 s target (i + Z.of_nat n1)
    end.
Proof.
  revert i. induction n1 as [|n1 IH]; intros i; cbn [first_from Nat.add]; [by rewrite Z.add_0_r|].
  destruct (Bool.eqb _ _); [done|]. rewrite IH. by replace (i + 1 + Z.of_nat n1) with (i + Z.of_nat (S n1)) by lia.
Qed.

(** The scan of one byte by its leading zeros. *)
Lemma first_in_byte s (target : bool) p : p mod 8 = 0 ->
  let b := bz (byte_at s (p / 8)) in
  let candidate := if target then b else Z.lxor b 255 in
  first_from 8 s target p = if candidate =? 0 then None else Some (p + leading_zeros candidate).
Proof.
  intros Hp b candidate.
  assert (Hbit : forall k, 0 <= k < 8 -> bit_at s (p + k) = Z.testbit b (7 - k)).
  { intros k Hk. unfold bit_at, b. replace ((p + k) / 8) with (p / 8).
    - replace ((p + k) mod 8) with k; [done|]. rewrite Z.add_mod, Hp, Z.add_0_l, Z.mod_mod by lia. by rewrite Z.mod_small.
    - pose proof (div_mod_8 p). apply Z.div_unique with k; lia. }
  cbn [first_from]. rewrite <- !Z.add_assoc. cbn [Z.add Pos.add].
  replace (bit_at s p) with (bit_at s (p + 0)) by (by rewrite Z.add_0_r).
  rewrite !Hbit by lia. unfold candidate, b. clear. generalize (byte_at s (p / 8)) as c. intros c.
  destruct target, c; cbn; rewrite ?Z.add_0_r; reflexivity.
Qed.

Lemma bit_matches s t p : t = 0 \/ t = 1 ->
  (bit_of (byte_at s (p / 8)) (7 - p mod 8) =? t) = Bool.eqb (bit_at s p) (t =? 1).
Proof. intros Ht. rewrite bit_of_at. destruct Ht as [-> | ->], (bit_at s p); done. Qed.

Lemma find_loop_first fuel s t : t = 0 \/ t = 1 -> forall p e, 0 <= p -> (Z.to_nat (e - p + 1) <= fuel)%nat ->
  find_loop fuel s t p e = first_from (Z.to_nat (e - p + 1)) s (t =? 1) p.
Proof.
  intros Ht. induction fuel as [|fuel IH]; intros p e Hp Hf; cbn [find_loop].
  { by replace (Z.to_nat (e - p + 1)) with O by lia. }
  destruct (Z.ltb_spec e p) as [Hlt|Hge]; [by replace (Z.to_nat (e - p + 1)) with O by lia|].
  rewrite bit_matches by done.
  destruct (Z.eqb_spec (p mod 8) 0) as [E|E], (Z.leb_spec 7 (e - p)); cbn [andb].
  2-4: replace (Z.to_nat (e - p + 1)) with (S (Z.to_nat (e - (p + 1) + 1))) by lia; cbn [first_from];
    destruct (Bool.eqb _ _); [done|]; apply IH; lia.
  replace (Z.to_nat (e - p + 1)) with (8 + Z.to_nat (e - (p + 8) + 1))%nat by lia.
  rewrite first_from_add, first_in_byte by done.
  destruct (t =? 1); destruct (_ =? 0); cbn [negb]; try done; change (Z.of_nat 8) with 8; apply IH; lia.
Qed.

Lemma first_from_some n s target i p : first_from n s target i = Some p ->
  i <= p < i + Z.of_nat n /\ bit_at s p = target /\ forall q, i <= q < p -> bit_at s q = negb target.
Proof.
  revert i. induction n as [|n IH]; intros i; cbn [first_from]; [done|].
  destruct (Bool.eqb_spec (bit_at s i) target) as [E|E].
  - intros [= <-]. split_and!; [lia..|done|intros; lia].
  - intros Hp. destruct (IH _ Hp) as (H1 & H2 & H3). split_and!; [lia..|done|]. intros q Hq.
    destruct (decide (q = i)) as [->|]; [by destruct (bit_at s i), target|apply H3; lia].
Qed.

Lemma first_from_none n s target i : first_from n s target i = None ->
  forall q, i <= q < i + Z.of_nat n -> bit_at s q = negb target.
Proof.
  revert i. induction n as [|n IH]; intros i; cbn [first_from]; [intros _ q Hq; lia|].
  destruct (Bool.eqb_spec (bit_at s i) target) as [E|E]; [done|]. intros Hp q Hq.
  destruct (decide (q = i)) as [->|]; [by destruct (bit_at s i), target|apply (IH _ Hp); lia].
Qed.

(** The search of BITPOS, which skips whole bytes by their leading zeros,
    finds the first position of the bit in the range, or none exactly if every
    bit of the range is the other one. *)
Theorem find_first_bit_first (s : bytes) (t start_bit end_bit : Z) :
  t = 0 \/ t = 1 -> 0 <= start_bit <= end_bit ->
  match find_first_bit s t start_bit end_bit with
  | Some p =>
      start_bit <= p <= end_bit /\ bit_at s p = (t =? 1) /\
      forall q, start_bit <= q < p -> bit_at s q = negb (t =? 1)
  | None => forall q, start_bit <= q <= end_bit -> bit_at s q = negb (t =? 1)
  end.
Proof.
  intros Ht Hr. unfold find_first_bit. rewrite find_loop_first by (done || lia).
  destruct (first_from _ s (t =? 1) start_bit) as [p|] eqn:E.
  - apply first_from_some in E as (H1 & H2 & H3). split_and!; [lia..|done|done].
  - intros q Hq. apply (first_from_none _ _ _ _ E). lia.
Qed.

Lemma find_first_bit_first_witness :
  find_first_bit (zb <$> [255; 255; 240]) 0 3 23 = Some 20 /\
  match find_first_bit (zb <$> [255; 255; 240]) 0 3 23 with
  | Some p => forall q, 3 <= q < p -> bit_at (zb <$> [255; 255; 240]) q = true
  | None => False
  end.
Proof.
  pose proof (find_first_bit_first (zb <$> [255; 255; 240]) 0 3 23 ltac:(by left) ltac:(lia)) as H.
  split; [by vm_compute|].
  assert (E : find_first_bit (zb <$> [255; 255; 240]) 0 3 23 = Some 20) by (by vm_compute).
  rewrite E in *. apply H.
Defined.

(** ** Population count *)

(** The number of ones among [n] bits from [i] on. *)
Definition ones_in (s : bytes) (i : Z) (n : nat) : Z :=
  Z.of_nat (length (filter (fun j => bit_at s j = true) (seqZ i (Z.of_nat n)))).

Lemma count_sum_acc s : forall acc, foldl (fun sum b => sum + count_ones b) acc s = acc + count_sum s.
Proof.
  unfold count_sum. induction s as [|b s IH]; intros acc; cbn [foldl]; [lia|]. rewrite (IH (acc + _)), (IH (0 + _)). lia.
Qed.

Lemma ones_in_add s i n m : ones_in s i (n + m) = ones_in s i n + ones_in s (i + Z.of_nat n) m.
Proof.
  unfold ones_in. rewrite Nat2Z.inj_add, seqZ_app by lia. rewrite filter_app, length_app. lia.
Qed.

Lemma ones_in_1 s i : ones_in s i 1 = Z.b2z (bit_at s i).
Proof.
  unfold ones_in. rewrite seqZ_cons, filter_cons by done. cbn [Z.of_nat Z.pred Z.add].
  by destruct (bit_at s i).
Qed.

Lemma ones_in_ext s s' i n d : (forall j, i <= j < i + Z.of_nat n -> bit_at s j = bit_at s' (j + d)) ->
  ones_in s i n = ones_in s' (i + d) n.
Proof.
  revert i. induction n as [|n IH]; intros i Hb; [done|].
  change (S n) with (1 + n)%nat. rewrite !ones_in_add.
  replace (i + d + Z.of_nat 1) with (i + Z.of_nat 1 + d) by lia. rewrite IH by (intros; apply Hb; lia). f_equal.
  by rewrite !ones_in_1, Hb by lia.
Qed.

Lemma ones_in_byte b s : ones_in (b :: s) 0 8 = count_ones b.
Proof. unfold ones_in, count_ones. cbn. unfold bit_at, byte_at. cbn. clear. destruct b; reflexivity. Qed.

Lemma bit_at_cons b s j : 8 <= j -> bit_at (b :: s) j = bit_at s (j - 8).
Proof.
  intros Hj. unfold bit_at, byte_at. replace (j - 8) with (j + (-1) * 8) by lia.
  rewrite Z.div_add, Z.mod_add by lia. f_equal. f_equal. f_equal.
  replace (Z.to_nat (j / 8)) with (S (Z.to_nat (j / 8 + -1))); [done|]. pose proof (div_mod_8 j). lia.
Qed.

(** The count of a string is the number of its ones. *)
Lemma count_sum_ones s : count_sum s = ones_in s 0 (8 * length s).
Proof.
  induction s as [|b s IH]; [done|]. unfold count_sum. cbn [foldl]. rewrite count_sum_acc, IH.
  replace (8 * length (b :: s))%nat with (8 + 8 * length s)%nat by (cbn; lia).
  rewrite ones_in_add, ones_in_byte, Z.add_0_l. f_equal.
  rewrite (ones_in_ext (b :: s) s (0 + Z.of_nat 8) (8 * length s) (-8)); [done|].
  intros j Hj. rewrite bit_at_cons by lia. f_equal.
Qed.
