(* ===== verification/Hll.v ===== *)
(** * Hll: the HyperLogLog string value.

    Models src/cache_cat/src/raft/types/core/mocha/hll.rs: the Redis string
    format of a HyperLogLog (a 16-byte header, then 16384 registers in a
    run-length "sparse" or a 6-bit "dense" encoding), the hash that selects a
    register, adding an element, merging, and the cardinality estimate.

    The estimate ([hll_sigma], [hll_tau], [hll_count]) is executable on the
    [SpecFloat] numbers; nothing is claimed about how close it is. *)

From S2P Require Import Prelude Text F64 Bits.
From Stdlib Require Import Strings.Byte SpecFloat.

(** ** Constants *)

Definition HLL_P : Z := 14.
Definition HLL_Q : Z := 64 - HLL_P.
Definition HLL_REGISTERS : Z := Z.shiftl 1 HLL_P.
Definition HLL_BITS : Z := 6.
Definition HLL_HDR_SIZE : Z := 16.
Definition HLL_DENSE_BYTES : Z := (HLL_REGISTERS * HLL_BITS + 7) / 8.
Definition HLL_DENSE_SIZE : Z := HLL_HDR_SIZE + HLL_DENSE_BYTES.
Definition HLL_DENSE : byte := x00.
Definition HLL_SPARSE : byte := x01.
Definition HLL_SPARSE_MAX_BYTES : Z := 3000.
Definition HLL_SPARSE_VAL_MAX : Z := 32.
Definition HLL_SPARSE_VAL_MAX_LEN : Z := 4.
Definition HLL_SPARSE_ZERO_MAX_LEN : Z := 64.
Definition HLL_SPARSE_XZERO_MAX_LEN : Z := 16384.
Definition HLL_HASH_SEED : Z := 0xadc83b19.

Inductive HllDecodeError := NotHll | Corrupted.

Record RedisHll := mkRedisHll {
  registers : bytes;
  reserved : bytes;
  card : bytes;
  prefer_dense : bool
}.

Definition hll_new : RedisHll :=
  mkRedisHll (replicate (Z.to_nat HLL_REGISTERS) x00) (replicate 3 x00) (replicate 8 x00) false.

(** [raw[a..b]]. *)
Definition slice (raw : bytes) (a b : nat) : bytes := take (b - a) (drop a raw).

Definition validate_header (raw : bytes) : result unit HllDecodeError :=
  if blen raw <? HLL_HDR_SIZE then Err NotHll
  else if negb (bool_decide (slice raw 0 4 = str "HYLL")) then Err NotHll
  else
    let encoding := byte_at raw 4 in
    if 1 <? bz encoding then Err NotHll
    else if (bool_decide (encoding = HLL_DENSE) && negb (blen raw =? HLL_DENSE_SIZE))%bool then Err NotHll
    else Ok tt.

(** ** Dense registers: 6 bits each, the low bits first *)

Definition dense_get_register (raw : bytes) (index : Z) : byte :=
  let bit := index * HLL_BITS in
  let byte_index := HLL_HDR_SIZE + bit / 8 in
  let shift := Z.land bit 7 in
  let word := bz (byte_at raw byte_index) in
  let word := if 8 <? shift + HLL_BITS then Z.lor word (Z.shiftl (bz (byte_at raw (byte_index + 1))) 8) else word in
  zb (Z.land (Z.shiftr word shift) 0x3f).

Definition dense_set_register (raw : bytes) (index : Z) (v : byte) : bytes :=
  let bit := index * HLL_BITS in
  let byte_index := HLL_HDR_SIZE + bit / 8 in
  let shift := Z.land bit 7 in
  let spans_two_bytes := 8 <? shift + HLL_BITS in
  let word := bz (byte_at raw byte_index) in
  let word := if spans_two_bytes then Z.lor word (Z.shiftl (bz (byte_at raw (byte_index + 1))) 8) else word in
  let mask := Z.shiftl 0x3f shift in
  let word := Z.lor (Z.land word (Z.lxor mask 0xffff)) (Z.shiftl (bz v) shift) in
  let raw := <[Z.to_nat byte_index := zb word]> raw in
  if spans_two_bytes then <[Z.to_nat (byte_index + 1) := zb (Z.shiftr word 8)]> raw else raw.

Definition decode_dense (raw : bytes) : result bytes HllDecodeError :=
  if negb (blen raw =? HLL_DENSE_SIZE) then Err NotHll
  else Ok ((fun i => dense_get_register raw i) <$> seqZ 0 HLL_REGISTERS).

(** ** Sparse opcodes *)

(** [for index in reg..reg + run { registers[index] = value }]. *)
Definition write_run (regs : bytes) (reg run : Z) (v : byte) : bytes :=
  foldl (fun regs i => <[i := v]> regs) regs (seq (Z.to_nat reg) (Z.to_nat run)).

(** The [while] loop over the body. *)
Fixpoint sparse_loop (body : bytes) (reg : Z) (regs : bytes) : result bytes HllDecodeError :=
  match body with
  | [] => if reg =? HLL_REGISTERS then Ok regs else Err Corrupted
  | opcode :: body' =>
      let op := bz opcode in
      if Z.land op 0xc0 =? 0 then
        let run := Z.land op 0x3f + 1 in
        if HLL_REGISTERS <? reg + run then Err Corrupted else sparse_loop body' (reg + run) regs
      else if Z.land op 0xc0 =? 0x40 then
        match body' with
        | [] => Err Corrupted
        | second :: body'' =>
            let run := Z.lor (Z.shiftl (Z.land op 0x3f) 8) (bz second) + 1 in
            if HLL_REGISTERS <? reg + run then Err Corrupted else sparse_loop body'' (reg + run) regs
        end
      else
        let v := Z.land (Z.shiftr op 2) 0x1f + 1 in
        let run := Z.land op 0x03 + 1 in
        if HLL_REGISTERS <? reg + run then Err Corrupted
        else sparse_loop body' (reg + run) (write_run regs reg run (zb v))
  end.

Definition decode_sparse (raw : bytes) : result bytes HllDecodeError :=
  sparse_loop (drop (Z.to_nat HLL_HDR_SIZE) raw) 0 (registers hll_new).

Definition hll_decode (raw : bytes) : result RedisHll HllDecodeError :=
  let? _ := validate_header raw in
  let res := slice raw 5 8 in
  let crd := slice raw 8 16 in
  if bool_decide (byte_at raw 4 = HLL_DENSE) then
    let? regs := decode_dense raw in Ok (mkRedisHll regs res crd true)
  else if bool_decide (byte_at raw 4 = HLL_SPARSE) then
    let? regs := decode_sparse raw in Ok (mkRedisHll regs res crd false)
  else Err NotHll.

(** ** Encoding *)

(** [write_header], on the zeroed header. *)
Definition write_header (hll : RedisHll) (encoding : byte) : bytes :=
  str "HYLL" ++ [encoding] ++ reserved hll ++ card hll.

(** The body of the loop over the registers and their indices. *)
Definition dense_step (out : bytes) (p : Z * byte) : bytes :=
  if bz p.2 =? 0 then out else dense_set_register out p.1 p.2.

Definition encode_dense (hll : RedisHll) : bytes :=
  let out := write_header hll HLL_DENSE ++ replicate (Z.to_nat HLL_DENSE_BYTES) x00 in
  foldl dense_step out (zip (seqZ 0 HLL_REGISTERS) (registers hll)).

Definition push_zero (len : Z) : bytes := [zb (len - 1)].

Definition push_xzero (len : Z) : bytes :=
  let v := len - 1 in
  [zb (Z.lor 0x40 (Z.land (Z.shiftr v 8) 0x3f)); zb (Z.land v 0xff)].

Definition push_val (v : byte) (len : Z) : bytes :=
  [zb (Z.lor (Z.lor 0x80 (Z.shiftl (bz v - 1) 2)) (len - 1))].

Definition too_big (body : bytes) : bool := HLL_SPARSE_MAX_BYTES <? HLL_HDR_SIZE + blen body.

(** The inner [while remaining != 0]. Every turn takes at least one register
    off, so [remaining] turns are enough. *)
Fixpoint zeros_loop (fuel : nat) (remaining : Z) (body : bytes) : option bytes :=
  if remaining =? 0 then Some body
  else match fuel with
  | O => None
  | S fuel' =>
      let '(body, run) :=
        if HLL_SPARSE_ZERO_MAX_LEN <? remaining then
          let run := Z.min remaining HLL_SPARSE_XZERO_MAX_LEN in (body ++ push_xzero run, run)
        else
          let run := Z.min remaining HLL_SPARSE_ZERO_MAX_LEN in (body ++ push_zero run, run) in
      if too_big body then None else zeros_loop fuel' (remaining - run) body
  end.

(** The number of leading elements equal to [v], at most [max]. *)
Fixpoint lead (v : byte) (max : nat) (l : bytes) : nat :=
  match max, l with
  | S max', x :: l' => if bool_decide (x = v) then S (lead v max' l') else O
  | _, _ => O
  end.

(** The outer loop, on the registers from [index] on. Every turn consumes at
    least one register. *)
Fixpoint encode_loop (fuel : nat) (regs : bytes) (body : bytes) : option bytes :=
  match fuel, regs with
  | _, [] => Some body
  | O, _ => None
  | S fuel', v :: rest =>
      if bz v =? 0 then
        let remaining := S (lead x00 (length rest) rest) in
        let* body := zeros_loop remaining (Z.of_nat remaining) body in
        encode_loop fuel' (drop remaining regs) body
      else if HLL_SPARSE_VAL_MAX <? bz v then None
      else
        let run := S (lead v (Z.to_nat HLL_SPARSE_VAL_MAX_LEN - 1) rest) in
        let body := body ++ push_val v (Z.of_nat run) in
        if too_big body then None else encode_loop fuel' (drop run regs) body
  end.

Definition encode_sparse (hll : RedisHll) : option bytes :=
  let* body := encode_loop (length (registers hll)) (registers hll) [] in
  Some (write_header hll HLL_SPARSE ++ body).

Definition into_bytes (hll : RedisHll) : bytes :=
  match (if prefer_dense hll then None else encode_sparse hll) with
  | Some sparse => sparse
  | None => encode_dense hll
  end.

(** ** The hash and the registers *)

Definition from_le_bytes (b : bytes) : Z := foldr (fun x acc => bz x + 256 * acc) 0 b.

Definition murmur_m : Z := 0xc6a4a7935bd1e995.

(** The loop over blocks of eight bytes; each turn drops eight. *)
Fixpoint murmur_blocks (fuel : nat) (hash : Z) (data : bytes) : Z * bytes :=
  match fuel with
  | O => (hash, data)
  | S fuel' =>
      if 8 <=? blen data then
        let v := from_le_bytes (take 8 data) in
        let v := wrap_u64 (v * murmur_m) in
        let v := Z.lxor v (Z.shiftr v 47) in
        let v := wrap_u64 (v * murmur_m) in
        let hash := Z.lxor hash v in
        let hash := wrap_u64 (hash * murmur_m) in
        murmur_blocks fuel' hash (drop 8 data)
      else (hash, data)
  end.

Definition murmur_hash64a (data : bytes) : Z :=
  let hash := Z.lxor HLL_HASH_SEED (wrap_u64 (blen data * murmur_m)) in
  let '(hash, tail) := murmur_blocks (length data) hash data in
  let hash :=
    match tail with
    | [] => hash
    | _ =>
        let hash := foldl (fun hash '(i, b) => Z.lxor hash (Z.shiftl (bz b) (i * 8))) hash
          (zip (seqZ 0 (blen tail)) tail) in
        wrap_u64 (hash * murmur_m)
    end in
  let hash := Z.lxor hash (Z.shiftr hash 47) in
  let hash := wrap_u64 (hash * murmur_m) in
  Z.lxor hash (Z.shiftr hash 47).

Fixpoint pos_trailing_zeros (p : positive) : Z :=
  match p with
  | xO p' => 1 + pos_trailing_zeros p'
  | _ => 0
  end.

(** [u64::trailing_zeros]. *)
Definition trailing_zeros (z : Z) : Z :=
  match z with
  | Z.pos p => pos_trailing_zeros p
  | _ => 64
  end.

Definition hll_pattern (element : bytes) : Z * byte :=
  let hash := murmur_hash64a element in
  let index := Z.land hash (Z.shiftl 1 HLL_P - 1) in
  let hash := Z.shiftr hash HLL_P in
  let hash := Z.lor hash (Z.shiftl 1 HLL_Q) in
  (index, zb (trailing_zeros hash + 1)).

Definition hll_add (hll : RedisHll) (element : bytes) : RedisHll * bool :=
  let '(index, count) := hll_pattern element in
  let old := byte_at (registers hll) index in
  if bz count <=? bz old then (hll, false)
  else (mkRedisHll (<[Z.to_nat index := count]> (registers hll)) (reserved hll) (card hll) (prefer_dense hll), true).

Definition invalidate_cache (hll : RedisHll) : RedisHll :=
  mkRedisHll (registers hll) (reserved hll)
    (<[7%nat := zb (Z.lor (bz (byte_at (card hll) 7)) 0x80)]> (card hll)) (prefer_dense hll).

Definition cached_cardinality (raw : bytes) : result (option Z) HllDecodeError :=
  let? _ := validate_header raw in
  if negb (Z.land (bz (byte_at raw 15)) 0x80 =? 0) then Ok None
  else Ok (Some (from_le_bytes (slice raw 8 16))).

(** [if *src > *dst { *dst = *src }], register by register. *)
Definition hll_merge (hll other : RedisHll) : RedisHll :=
  mkRedisHll (zip_with (fun dst src => if bz dst <? bz src then src else dst) (registers hll) (registers other))
    (reserved hll) (card hll) (prefer_dense hll).

(** ** The estimate *)

Definition fmul (a b : f64) : f64 := SFmul 53 1024 a b.
Definition fsub (a b : f64) : f64 := SFsub 53 1024 a b.
Definition fdiv (a b : f64) : f64 := SFdiv 53 1024 a b.
Definition fsqrt (a : f64) : f64 := SFsqrt 53 1024 a.
Definition f_half : f64 := S754_finite false 4503599627370496 (-53).
Definition f_one : f64 := f64_of_Z 1.

(** The loops stop when the sum no longer changes, which on the arguments
    [n / 16384] of [hll_count] takes a few dozen turns; the model gives them
    2200, which Series proves to be enough. *)
Fixpoint sigma_loop (fuel : nat) (x y z : f64) : f64 :=
  match fuel with
  | O => z
  | S fuel' =>
      let x := fmul x x in
      let z_prime := z in
      let z := f64_add z (fmul x y) in
      let y := f64_add y y in
      if f64_eq z_prime z then z else sigma_loop fuel' x y z
  end.

Definition hll_sigma (x : f64) : f64 :=
  if f64_eq x f_one then S754_infinity false else sigma_loop 2200 x f_one x.

Fixpoint tau_loop (fuel : nat) (x y z : f64) : f64 :=
  match fuel with
  | O => z
  | S fuel' =>
      let x := fsqrt x in
      let z_prime := z in
      let y := fmul y f_half in
      let d := fsub f_one x in
      let z := fsub z (fmul (fmul d d) y) in
      if f64_eq z_prime z then z else tau_loop fuel' x y z
  end.

Definition hll_tau (x : f64) : f64 :=
  if (f64_eq x f64_zero || f64_eq x f_one)%bool then f64_zero
  else fdiv (tau_loop 2200 x f_one (fsub f_one x)) (f64_of_Z 3).

(** [histogram[j]]. *)
Definition histogram (regs : bytes) (j : Z) : Z := Z.of_nat (length (filter (fun r => bz r = j) regs)).

(** [0.721347520444481703680], as the literal is rounded. *)
Definition HLL_ALPHA_INF : f64 := S754_finite false 6497320848556798 (-53).

(** [f64::round], half away from zero, and the saturating [as u64]. *)
Definition round_u64 (x : f64) : Z :=
  match x with
  | S754_finite false m e =>
      if 0 <=? e then Z.min (Z.shiftl (Z.pos m) e) u64_max
      else Z.shiftr (Z.pos m + Z.shiftl 1 (- e - 1)) (- e)
  | S754_infinity false => u64_max
  | _ => 0
  end.

(** [hll_count] after the histogram has been filled, with the values of the two
    series. *)
Definition estimate_from (tau sigma : f64) (histogram : Z -> Z) : Z :=
  let m := f64_of_Z HLL_REGISTERS in
  let z := fmul m tau in
  let z := foldl (fun z j => fmul (f64_add z (f64_of_Z (histogram j))) f_half) z (reverse (seqZ 1 HLL_Q)) in
  let z := f64_add z (fmul m sigma) in
  round_u64 (fdiv (fmul (fmul HLL_ALPHA_INF m) m) z).

Definition tau_arg (histogram : Z -> Z) : f64 :=
  fdiv (fsub (f64_of_Z HLL_REGISTERS) (f64_of_Z (histogram (HLL_Q + 1)))) (f64_of_Z HLL_REGISTERS).
Definition sigma_arg (histogram : Z -> Z) : f64 := fdiv (f64_of_Z (histogram 0)) (f64_of_Z HLL_REGISTERS).

Definition estimate (histogram : Z -> Z) : Z := estimate_from (hll_tau (tau_arg histogram)) (hll_sigma (sigma_arg histogram)) histogram.

Definition hll_count (regs : bytes) : Z := estimate (histogram regs).

Definition cardinality (hll : RedisHll) : Z := hll_count (registers hll).

(** ** The sparse encoding *)

Lemma ok_inj {A E} (a b : A) : @Ok A E a = Ok b -> a = b.
Proof. by intros [= ->]. Qed.

(** The registers a body of opcodes stands for. *)
Fixpoint expand (body : bytes) : option bytes :=
  match body with
  | [] => Some []
  | opcode :: body' =>
      let op := bz opcode in
      if Z.land op 0xc0 =? 0 then
        let* l := expand body' in Some (replicate (Z.to_nat (Z.land op 0x3f + 1)) x00 ++ l)
      else if Z.land op 0xc0 =? 0x40 then
        match body' with
        | [] => None
        | second :: body'' =>
            let* l := expand body'' in
            Some (replicate (Z.to_nat (Z.lor (Z.shiftl (Z.land op 0x3f) 8) (bz second) + 1)) x00 ++ l)
        end
      else
        let* l := expand body' in
        Some (replicate (Z.to_nat (Z.land op 0x03 + 1)) (zb (Z.land (Z.shiftr op 2) 0x1f + 1)) ++ l)
  end.

Lemma write_run_replicate (pre : bytes) (run k : nat) (v : byte) : (run <= k)%nat ->
  write_run (pre ++ replicate k x00) (Z.of_nat (length pre)) (Z.of_nat run) v
  = (pre ++ replicate run v) ++ replicate (k - run) x00.
Proof.
  unfold write_run. rewrite !Nat2Z.id. revert pre k. induction run as [|run IH]; intros pre k Hk.
  - cbn. by rewrite app_nil_r, Nat.sub_0_r.
  - destruct k as [|k]; [lia|]. cbn [seq foldl].
    rewrite insert_app_r_alt, Nat.sub_diag by lia. change (<[0%nat:=v]> (replicate (S k) x00)) with (v :: replicate k x00).
    replace (pre ++ v :: replicate k x00) with ((pre ++ [v]) ++ replicate k x00) by by rewrite <- app_assoc.
    replace (S (length pre)) with (length (pre ++ [v])) by (rewrite length_app; cbn; lia).
    rewrite IH by lia. by rewrite <- !app_assoc.
Qed.

(** Reading one run of [run] registers, then the rest. *)
Lemma run_step (next : Z -> bytes -> result bytes HllDecodeError) (l : option bytes) pre k run v regs' :
  Z.of_nat (length pre + k) = HLL_REGISTERS ->
  ((run <= k)%nat -> regs' = (pre ++ replicate run v) ++ replicate (k - run) x00) ->
  ((run <= k)%nat -> next (Z.of_nat (length (pre ++ replicate run v))) ((pre ++ replicate run v) ++ replicate (k - run) x00)
    = match l with
      | Some l => if bool_decide (length l = k - run)%nat then Ok ((pre ++ replicate run v) ++ l) else Err Corrupted
      | None => Err Corrupted
      end) ->
  (if HLL_REGISTERS <? Z.of_nat (length pre) + Z.of_nat run then Err Corrupted
   else next (Z.of_nat (length pre) + Z.of_nat run) regs')
  = match (let* l := l in Some (replicate run v ++ l)) with
    | Some l => if bool_decide (length l = k) then Ok (pre ++ l) else Err Corrupted
    | None => Err Corrupted
    end.
Proof.
  intros Hk Hregs Hnext. destruct (Z.ltb_spec HLL_REGISTERS (Z.of_nat (length pre) + Z.of_nat run)).
  - destruct l as [l|]; [|done]. rewrite bool_decide_false; [done|]. rewrite length_app, length_replicate. lia.
  - rewrite Hregs by lia. replace (Z.of_nat (length pre) + Z.of_nat run) with (Z.of_nat (length (pre ++ replicate run v)))
      by (rewrite length_app, length_replicate; lia).
    rewrite Hnext by lia. destruct l as [l|]; [|done]. rewrite length_app, length_replicate, <- app_assoc.
    by repeat case_bool_decide; try lia.
Qed.

Lemma to_nat_run z : 0 <= z -> z + 1 = Z.of_nat (Z.to_nat (z + 1)).
Proof. lia. Qed.

Lemma sparse_loop_expand n : forall body pre k, (length body <= n)%nat ->
  Z.of_nat (length pre + k) = HLL_REGISTERS ->
  sparse_loop body (Z.of_nat (length pre)) (pre ++ replicate k x00)
  = match expand body with
    | Some l => if bool_decide (length l = k) then Ok (pre ++ l) else Err Corrupted
    | None => Err Corrupted
    end.
Proof.
  induction n as [|n IH]; intros [|op body] pre k Hn Hk; cbn [length] in Hn; try lia; cbn [sparse_loop expand length].
  1, 2: destruct k as [|k]; [rewrite Nat.add_0_r in Hk; by rewrite Hk, Z.eqb_refl, !app_nil_r|];
    destruct (Z.eqb_spec (Z.of_nat (length pre)) HLL_REGISTERS); [lia|]; by rewrite bool_decide_false by lia.
  pose proof (bz_range op). assert (forall m, 0 <= m -> 0 <= Z.land (bz op) m) as Hl by (intros; apply Z.land_nonneg; lia).
  case (Z.land (bz op) 192 =? 0).
  { rewrite (to_nat_run (Z.land (bz op) 63)) by by apply Hl. rewrite Nat2Z.id. apply (run_step (sparse_loop body)); [done| |].
    - intros. rewrite <- app_assoc, <- replicate_add. do 2 f_equal. lia.
    - intros. apply IH; [lia|]. rewrite length_app, length_replicate. lia. }
  case (Z.land (bz op) 192 =? 64).
  { destruct body as [|op2 body]; [done|]. cbn [length] in Hn.
    assert (0 <= Z.lor (Z.shiftl (Z.land (bz op) 63) 8) (bz op2)).
    { apply Z.lor_nonneg. split; [apply Z.shiftl_nonneg; by apply Hl|]. apply bz_range. }
    rewrite (to_nat_run (Z.lor _ _)) by done. rewrite Nat2Z.id. apply (run_step (sparse_loop body)); [done| |].
    - intros. rewrite <- app_assoc, <- replicate_add. do 2 f_equal. lia.
    - intros. apply IH; [lia|]. rewrite length_app, length_replicate. lia. }
  rewrite (to_nat_run (Z.land (bz op) 3)) by by apply Hl. rewrite Nat2Z.id.
  apply (run_step (sparse_loop body)); [done| |].
  - intros. by apply write_run_replicate.
  - intros. apply IH; [lia|]. rewrite length_app, length_replicate. lia.
Qed.

Lemma expand_app_aux n : forall a b la, (length a <= n)%nat -> expand a = Some la ->
  expand (a ++ b) = let* lb := expand b in Some (la ++ lb).
Proof.
  induction n as [|n IH]; intros [|op a] b la Hn; cbn [length] in Hn; try lia; cbn [expand app].
  1, 2: intros [= <-]; by destruct (expand b).
  case (Z.land (bz op) 192 =? 0).
  { destruct (expand a) as [l|] eqn:E; [|done]. intros [= <-]. rewrite (IH a b l) by (done || lia).
    destruct (expand b); [|done]. by rewrite app_assoc. }
  case (Z.land (bz op) 192 =? 64).
  { destruct a as [|op2 a]; [done|]. cbn [app length] in *. destruct (expand a) as [l|] eqn:E; [|done]. intros [= <-].
    rewrite (IH a b l) by (done || lia). destruct (expand b); [|done]. by rewrite app_assoc. }
  destruct (expand a) as [l|] eqn:E; [|done]. intros [= <-]. rewrite (IH a b l) by (done || lia).
  destruct (expand b); [|done]. by rewrite app_assoc.
Qed.

Lemma expand_app a b la lb : expand a = Some la -> expand b = Some lb -> expand (a ++ b) = Some (la ++ lb).
Proof. intros Ha Hb. by rewrite (expand_app_aux (length a) a b la), Hb. Qed.

Lemma expand_push_zero len : 1 <= len <= 64 -> expand (push_zero len) = Some (replicate (Z.to_nat len) x00).
Proof.
  intros H. assert (forallb (fun n => bool_decide (expand (push_zero n) = Some (replicate (Z.to_nat n) x00))) (seqZ 1 64) = true)
    as Hall by by vm_compute.
  rewrite forallb_forall in Hall. specialize (Hall len). apply bool_decide_eq_true in Hall; [done|].
  apply list_elem_of_In, elem_of_seqZ. lia.
Qed.

Lemma expand_push_val v len : 1 <= bz v <= 32 -> 1 <= len <= 4 ->
  expand (push_val v len) = Some (replicate (Z.to_nat len) v).
Proof.
  intros Hv Hl. assert (forallb (fun z => forallb (fun n =>
    bool_decide (expand (push_val (zb z) n) = Some (replicate (Z.to_nat n) (zb z)))) (seqZ 1 4)) (seqZ 1 32) = true)
    as Hall by by vm_compute.
  rewrite forallb_forall in Hall. specialize (Hall (bz v)). rewrite zb_bz, forallb_forall in Hall.
  specialize (Hall ltac:(apply list_elem_of_In, elem_of_seqZ; lia) len).
  apply bool_decide_eq_true in Hall; [done|]. apply list_elem_of_In, elem_of_seqZ. lia.
Qed.

Lemma xzero_first h : 0 <= h < 64 -> let op := bz (zb (Z.lor 0x40 h)) in Z.land op 0xc0 = 0x40 /\ Z.land op 0x3f = h.
Proof.
  intros H. assert (forallb (fun h => let op := bz (zb (Z.lor 0x40 h)) in
    (Z.land op 0xc0 =? 0x40) && (Z.land op 0x3f =? h))%bool (seqZ 0 64) = true) as Hall by by vm_compute.
  rewrite forallb_forall in Hall. specialize (Hall h). cbn zeta in *.
  rewrite andb_true_iff, !Z.eqb_eq in Hall. apply Hall. apply list_elem_of_In, elem_of_seqZ. lia.
Qed.

Lemma expand_push_xzero len : 1 <= len <= 16384 -> expand (push_xzero len) = Some (replicate (Z.to_nat len) x00).
Proof.
  intros H. unfold push_xzero. cbn zeta. cbn [expand].
  set (h := Z.land (Z.shiftr (len - 1) 8) 63). set (b := Z.land (len - 1) 255).
  assert (h = (len - 1) / 256) as Hh.
  { unfold h. rewrite Z.shiftr_div_pow2 by lia. change (2 ^ 8) with 256. change 63 with (Z.ones 6).
    rewrite Z.land_ones by lia. change (2 ^ 6) with 64. apply Z.mod_small. zdm. }
  assert (b = (len - 1) mod 256) as Hb by (unfold b; change 255 with (Z.ones 8); by rewrite Z.land_ones).
  destruct (xzero_first h) as [-> ->]; [zdm|]. cbn [Z.eqb]. change (64 =? 0) with false. change (64 =? 64) with true. cbn iota.
  rewrite bz_zb, (Z.mod_small b) by zdm. rewrite app_nil_r. do 2 f_equal. f_equal.
  replace (Z.lor (Z.shiftl h 8) b) with (256 * h + b); [zdm|].
  apply Z.bits_inj'. intros k Hk. rewrite Z.lor_spec, Z.shiftl_spec by done.
  replace (256 * h + b) with (b + h * 2 ^ 8) by lia. destruct (Z.ltb_spec k 8).
  - rewrite <- (Z.mod_pow2_bits_low (b + h * 2 ^ 8) 8) by lia. rewrite Z.mod_add by lia.
    rewrite Z.mod_pow2_bits_low by lia. by rewrite (Z.testbit_neg_r h) by lia.
  - replace k with (k - 8 + 8) at 1 by lia. rewrite <- Z.div_pow2_bits by lia. rewrite Z.div_add by lia.
    rewrite (Z.div_small b) by (change (2 ^ 8) with 256; zdm).
    rewrite (Z.bits_above_log2 b k); [by rewrite orb_false_r| zdm |].
    destruct (decide (b = 0)) as [->|]; [cbn; lia|]. apply Z.log2_lt_pow2; [zdm|].
    apply Z.lt_le_trans with (2 ^ 8); [change (2 ^ 8) with 256; zdm|]. apply Z.pow_le_mono_r; lia.
Qed.

Lemma zeros_loop_spec fuel : forall remaining body body', 0 <= remaining <= 16384 -> (Z.to_nat remaining <= fuel)%nat ->
  zeros_loop fuel remaining body = Some body' ->
  exists z, body' = body ++ z /\ expand z = Some (replicate (Z.to_nat remaining) x00).
Proof.
  induction fuel as [|fuel IH]; intros remaining body body' Hr Hf; cbn [zeros_loop].
  all: destruct (Z.eqb_spec remaining 0) as [->|]; [intros [= <-]; exists []; by rewrite app_nil_r|]; try lia.
  unfold HLL_SPARSE_ZERO_MAX_LEN, HLL_SPARSE_XZERO_MAX_LEN.
  assert (exists z run, 1 <= run <= remaining /\ expand z = Some (replicate (Z.to_nat run) x00)
    /\ (if 64 <? remaining then (body ++ push_xzero (Z.min remaining 16384), Z.min remaining 16384)
        else (body ++ push_zero (Z.min remaining 64), Z.min remaining 64)) = (body ++ z, run)) as (z & run & Hrun & Hz & ->).
  { destruct (Z.ltb_spec 64 remaining); [exists (push_xzero (Z.min remaining 16384))|exists (push_zero (Z.min remaining 64))];
      eexists; (split; [|split; [|done]]); [lia|apply expand_push_xzero; lia|lia|apply expand_push_zero; lia]. }
  destruct (too_big _); [done|]. intros (z' & -> & Hz')%IH; [|lia..].
  exists (z ++ z'). rewrite app_assoc. split; [done|].
  rewrite (expand_app _ _ _ _ Hz Hz'), <- replicate_add. do 2 f_equal. lia.
Qed.

Lemma lead_spec v max l : (lead v max l <= max)%nat /\ (lead v max l <= length l)%nat /\
  l = replicate (lead v max l) v ++ drop (lead v max l) l.
Proof.
  revert l. induction max as [|max IH]; intros [|x l]; cbn [lead]; try (cbn; split_and!; [lia|lia|done]).
  case_bool_decide as E; [|cbn; split_and!; [lia|lia|done]]. subst x.
  destruct (IH l) as (H1 & H2 & H3). cbn [replicate drop length app]. split_and!; [lia|lia|]. by rewrite <- H3.
Qed.

Lemma encode_loop_spec fuel : forall regs body body', (length regs <= fuel)%nat -> Z.of_nat (length regs) <= 16384 ->
  encode_loop fuel regs body = Some body' -> exists b, body' = body ++ b /\ expand b = Some regs.
Proof.
  induction fuel as [|fuel IH]; intros [|v rest] body body' Hf Hl; cbn [encode_loop length] in *; try lia;
    try (intros [= <-]; exists []; by rewrite app_nil_r).
  destruct (Z.eqb_spec (bz v) 0) as [Hv|Hv].
  - assert (v = x00) as -> by (by rewrite <- (zb_bz v), Hv).
    destruct (lead_spec x00 (length rest) rest) as (_ & Hn & Hrest). set (n := lead x00 (length rest) rest) in *.
    destruct (zeros_loop _ _ _) as [b1|] eqn:E; [|done].
    apply zeros_loop_spec in E as (z & -> & Hz); [|lia..]. cbn [drop].
    intros (b & -> & Hb)%IH; [|rewrite length_drop; lia..]. exists (z ++ b). rewrite app_assoc. split; [done|].
    rewrite (expand_app _ _ _ _ Hz Hb), Nat2Z.id. cbn [replicate app]. by rewrite <- Hrest.
  - unfold HLL_SPARSE_VAL_MAX, HLL_SPARSE_VAL_MAX_LEN. destruct (Z.ltb_spec 32 (bz v)); [done|].
    destruct (lead_spec v (Z.to_nat 4 - 1) rest) as (Hm & Hn & Hrest). set (n := lead v _ rest) in *.
    pose proof (bz_range v). assert (expand (push_val v (Z.of_nat (S n))) = Some (replicate (S n) v)) as Hz
      by (rewrite expand_push_val by lia; by rewrite Nat2Z.id).
    destruct (too_big _); [done|]. cbn [drop]. intros (b & -> & Hb)%IH; [|rewrite length_drop; lia..].
    exists (push_val v (Z.of_nat (S n)) ++ b). rewrite app_assoc. split; [done|].
    rewrite (expand_app _ _ _ _ Hz Hb). cbn [replicate app]. by rewrite <- Hrest.
Qed.

(** ** The dense encoding

    Bit [j] of a string, counting from the low bit of the first byte. *)
Definition le_bit (s : bytes) (j : Z) : bool := Z.testbit (bz (byte_at s (j / 8))) (j mod 8).

Lemma le_bit_byte s i q : 0 <= q < 8 -> le_bit s (8 * i + q) = Z.testbit (bz (byte_at s i)) q.
Proof.
  intros. unfold le_bit. assert ((8 * i + q) / 8 = i) as -> by zdm. by assert ((8 * i + q) mod 8 = q) as -> by zdm.
Qed.

Lemma bz_high b q : 8 <= q -> Z.testbit (bz b) q = false.
Proof.
  intros. pose proof (bz_range b). destruct (decide (bz b = 0)) as [->|]; [by rewrite Z.testbit_0_l|].
  apply Z.bits_above_log2; [lia|]. apply Z.log2_lt_pow2; [lia|]. apply Z.lt_le_trans with (2 ^ 8); [change (2 ^ 8) with 256; lia|].
  apply Z.pow_le_mono_r; lia.
Qed.

(** The one or two bytes a register lies in. *)
Definition dense_word (s : bytes) (i : Z) (spans : bool) : Z :=
  if spans then Z.lor (bz (byte_at s i)) (Z.shiftl (bz (byte_at s (i + 1))) 8) else bz (byte_at s i).

Lemma dense_word_bit s i (spans : bool) q : 0 <= q < 16 -> q < 8 \/ spans = true ->
  Z.testbit (dense_word s i spans) q = le_bit s (8 * i + q).
Proof.
  intros Hq Hs. unfold dense_word. destruct (Z.ltb_spec q 8).
  - rewrite le_bit_byte by lia. destruct spans; [|done].
    by rewrite Z.lor_spec, Z.shiftl_spec, (Z.testbit_neg_r _ (q - 8)), orb_false_r by lia.
  - destruct Hs as [Hs|Hs]; [lia|subst spans]. rewrite Z.lor_spec, Z.shiftl_spec, bz_high by lia.
    by replace (8 * i + q) with (8 * (i + 1) + (q - 8)) by lia; rewrite le_bit_byte by lia.
Qed.

(** Where register [index] starts. *)
Definition reg_bit (index : Z) : Z := 8 * HLL_HDR_SIZE + index * HLL_BITS.

Lemma reg_bit_split index : reg_bit index = 8 * (HLL_HDR_SIZE + index * HLL_BITS / 8) + Z.land (index * HLL_BITS) 7.
Proof. unfold reg_bit. rewrite land_7. unfold HLL_HDR_SIZE. zdm. Qed.

Lemma shift_range z : 0 <= Z.land z 7 < 8.
Proof. rewrite land_7. zdm. Qed.

Lemma testbit_3f k : 0 <= k -> Z.testbit 0x3f k = (k <? 6).
Proof.
  intros. change 0x3f with (Z.ones 6). destruct (Z.ltb_spec k 6); [by apply Z.ones_spec_low|apply Z.ones_spec_high; lia].
Qed.

Lemma land_3f_range x : 0 <= Z.land x 0x3f < 64.
Proof. change 0x3f with (Z.ones 6). rewrite Z.land_ones by lia. apply Z.mod_pos_bound. lia. Qed.

Lemma dense_get_range s index : 0 <= bz (dense_get_register s index) < 64.
Proof.
  unfold dense_get_register. cbn zeta. match goal with |- context [zb (Z.land ?x _)] => pose proof (land_3f_range x) end.
  rewrite bz_zb, Z.mod_small; lia.
Qed.

Lemma dense_get_bit s index k : 0 <= k < 6 ->
  Z.testbit (bz (dense_get_register s index)) k = le_bit s (reg_bit index + k).
Proof.
  intros Hk. unfold dense_get_register. cbn zeta. pose proof (shift_range (index * HLL_BITS)) as Hs.
  fold (dense_word s (HLL_HDR_SIZE + index * HLL_BITS / 8) (8 <? Z.land (index * HLL_BITS) 7 + HLL_BITS)).
  rewrite bz_zb_bit, Z.land_spec, testbit_3f, Z.shiftr_spec by lia.
  rewrite reg_bit_split, <- Z.add_assoc, (Z.add_comm k), <- (dense_word_bit _ _ (8 <? Z.land (index * HLL_BITS) 7 + HLL_BITS)).
  - destruct (Z.ltb_spec k 6); [|lia]. by rewrite andb_true_r.
  - lia.
  - unfold HLL_BITS in *. destruct (Z.ltb_spec 8 (Z.land (index * 6) 7 + 6)); [by right|left; lia].
Qed.

Lemma byte_at_insert s i b j : 0 <= i < blen s -> 0 <= j ->
  byte_at (<[Z.to_nat i := b]> s) j = if i =? j then b else byte_at s j.
Proof.
  unfold byte_at, blen. intros. destruct (Z.eqb_spec i j) as [->|].
  - by rewrite list_lookup_insert_eq by lia.
  - by rewrite list_lookup_insert_ne by lia.
Qed.

Lemma dense_new_bit word v shift q : 0 <= bz v < 64 -> 0 <= shift < 8 -> 0 <= q < 16 ->
  Z.testbit (Z.lor (Z.land word (Z.lxor (Z.shiftl 0x3f shift) 0xffff)) (Z.shiftl (bz v) shift)) q
  = if ((shift <=? q) && (q <? shift + 6))%bool then Z.testbit (bz v) (q - shift) else Z.testbit word q.
Proof.
  intros Hv Hs Hq. rewrite Z.lor_spec, Z.land_spec, Z.lxor_spec, !Z.shiftl_spec by lia.
  change 0xffff with (Z.ones 16). rewrite Z.ones_spec_low by lia.
  destruct (Z.leb_spec shift q); cbn [andb].
  - rewrite testbit_3f by lia. destruct (Z.ltb_spec (q - shift) 6), (Z.ltb_spec q (shift + 6)); try lia; cbn [xorb].
    + by rewrite andb_false_r.
    + rewrite andb_true_r. replace (Z.testbit (bz v) (q - shift)) with false; [by rewrite orb_false_r|].
      symmetry. destruct (decide (bz v = 0)) as [->|]; [by rewrite Z.testbit_0_l|].
      apply Z.bits_above_log2; [lia|]. apply Z.lt_le_trans with 6; [|lia]. apply Z.log2_lt_pow2; lia.
  - by rewrite !(Z.testbit_neg_r _ (q - shift)), andb_true_r, orb_false_r by lia.
Qed.

Lemma dense_set_length s index v : length (dense_set_register s index v) = length s.
Proof. unfold dense_set_register. cbn zeta. dmatch; by rewrite ?length_insert. Qed.

Lemma reg_byte_range s index : blen s = HLL_DENSE_SIZE -> 0 <= index < HLL_REGISTERS ->
  0 <= HLL_HDR_SIZE + index * HLL_BITS / 8 < blen s /\
  (8 < Z.land (index * HLL_BITS) 7 + HLL_BITS -> HLL_HDR_SIZE + index * HLL_BITS / 8 + 1 < blen s).
Proof.
  intros -> H. change HLL_DENSE_SIZE with 12304. change HLL_REGISTERS with 16384 in H. rewrite land_7.
  unfold HLL_BITS, HLL_HDR_SIZE. split; [zdm|]. intros. zdm.
Qed.

Lemma dense_set_bit s index v j : blen s = HLL_DENSE_SIZE -> 0 <= index < HLL_REGISTERS -> 0 <= bz v < 64 -> 0 <= j ->
  le_bit (dense_set_register s index v) j
  = if ((reg_bit index <=? j) && (j <? reg_bit index + 6))%bool then Z.testbit (bz v) (j - reg_bit index) else le_bit s j.
Proof.
  intros Hs Hi Hv Hj. destruct (reg_byte_range s index Hs Hi) as [Hb Hb'].
  unfold dense_set_register. cbn zeta. rewrite (reg_bit_split index).
  pose proof (shift_range (index * HLL_BITS)) as Hsh.
  set (i := HLL_HDR_SIZE + index * HLL_BITS / 8) in *. set (shift := Z.land (index * HLL_BITS) 7) in *.
  fold (dense_word s i (8 <? shift + HLL_BITS)). set (w := Z.lor _ _).
  assert (forall q, 0 <= q < 16 -> q < 8 \/ 8 < shift + HLL_BITS -> Z.testbit w q
    = if ((shift <=? q) && (q <? shift + 6))%bool then Z.testbit (bz v) (q - shift) else le_bit s (8 * i + q)) as Hw.
  { intros q Hq Hq'. unfold w. rewrite dense_new_bit by lia. rewrite dense_word_bit; [done..|].
    destruct Hq' as [|Hq']; [by left|right; lia]. }
  unfold HLL_BITS in Hw |- *. pose proof (div_mod_8 j) as [Ej Hj8].
  assert (0 <= j / 8) by (apply Z.div_pos; lia).
  assert (forall c q d, 0 <= q < 16 -> q < 8 \/ 8 < shift + 6 -> j = 8 * i + q -> c = Z.testbit w q -> d = le_bit s j ->
    c = if ((8 * i + shift <=? j) && (j <? 8 * i + shift + 6))%bool then Z.testbit (bz v) (j - (8 * i + shift)) else d) as Hgo.
  { intros c q d Hq Hq' -> -> ->. rewrite Hw by done. replace (8 * i + q - (8 * i + shift)) with (q - shift) by lia.
    by destruct (Z.leb_spec shift q), (Z.leb_spec (8 * i + shift) (8 * i + q)), (Z.ltb_spec q (shift + 6)),
      (Z.ltb_spec (8 * i + q) (8 * i + shift + 6)); try lia. }
  destruct (Z.ltb_spec 8 (shift + 6)) as [Hsp|Hsp].
  - unfold le_bit at 1. rewrite byte_at_insert by (unfold blen in *; rewrite ?length_insert; unfold HLL_BITS in Hb'; lia).
    destruct (Z.eqb_spec (i + 1) (j / 8)) as [E|E].
    + apply (Hgo _ (j mod 8 + 8)); [lia|by right|lia| |done]. rewrite bz_zb_bit, Z.shiftr_spec by lia. done.
    + rewrite byte_at_insert by lia. destruct (Z.eqb_spec i (j / 8)).
      * apply (Hgo _ (j mod 8)); [lia|by right|lia| |done]. by rewrite bz_zb_bit by lia.
      * fold (le_bit s j). destruct (Z.leb_spec (8 * i + shift) j), (Z.ltb_spec j (8 * i + shift + 6)); try done; lia.
  - unfold le_bit at 1. rewrite byte_at_insert by lia. destruct (Z.eqb_spec i (j / 8)).
    + apply (Hgo _ (j mod 8)); [lia|left; lia|lia| |done]. by rewrite bz_zb_bit by lia.
    + fold (le_bit s j). destruct (Z.leb_spec (8 * i + shift) j), (Z.ltb_spec j (8 * i + shift + 6)); try done; lia.
Qed.

Lemma byte_eq_6 a b : 0 <= bz a < 64 -> 0 <= bz b < 64 ->
  (forall k, 0 <= k < 6 -> Z.testbit (bz a) k = Z.testbit (bz b) k) -> a = b.
Proof.
  intros Ha Hb H. rewrite <- (zb_bz a), <- (zb_bz b). f_equal. apply Z.bits_inj'. intros k Hk.
  destruct (Z.ltb_spec k 6); [by apply H|].
  assert (forall x, 0 <= x < 64 -> Z.testbit x k = false) as Hx; [|by rewrite !Hx].
  intros x Hx. destruct (decide (x = 0)) as [->|]; [by rewrite Z.testbit_0_l|].
  apply Z.bits_above_log2; [lia|]. apply Z.lt_le_trans with 6; [|lia]. apply Z.log2_lt_pow2; lia.
Qed.

(** Registers are independent cells of the packed string. *)
Lemma dense_get_set s i v j : blen s = HLL_DENSE_SIZE -> 0 <= i < HLL_REGISTERS -> 0 <= j -> 0 <= bz v < 64 ->
  dense_get_register (dense_set_register s i v) j = if i =? j then v else dense_get_register s j.
Proof.
  intros Hs Hi Hj Hv. apply byte_eq_6; [apply dense_get_range|destruct (i =? j); [done|apply dense_get_range]|].
  intros k Hk. assert (reg_bit i = 128 + 6 * i /\ reg_bit j = 128 + 6 * j) as [Ei Ej]
    by (unfold reg_bit, HLL_HDR_SIZE, HLL_BITS; lia).
  rewrite dense_get_bit, dense_set_bit by lia. rewrite Ei, Ej. destruct (Z.eqb_spec i j) as [->|].
  - destruct (Z.leb_spec (128 + 6 * j) (128 + 6 * j + k)), (Z.ltb_spec (128 + 6 * j + k) (128 + 6 * j + 6)); try lia.
    cbn [andb]. f_equal. lia.
  - rewrite dense_get_bit, Ej by lia.
    by destruct (Z.leb_spec (128 + 6 * i) (128 + 6 * j + k)), (Z.ltb_spec (128 + 6 * j + k) (128 + 6 * i + 6)); try lia.
Qed.

Lemma dense_set_head s i v n : 0 <= i -> (n <= 16)%nat -> take n (dense_set_register s i v) = take n s.
Proof.
  intros Hi Hn. unfold dense_set_register, HLL_HDR_SIZE, HLL_BITS. cbn zeta.
  assert (0 <= i * 6 / 8) by (apply Z.div_pos; lia). dmatch; by rewrite ?take_insert_ge by lia.
Qed.

Lemma dense_step_length out p : length (dense_step out p) = length out.
Proof. unfold dense_step. dmatch; [done|apply dense_set_length]. Qed.

Lemma dense_fold_spec regs : forall i out, 0 <= i -> i + blen regs <= HLL_REGISTERS -> blen out = HLL_DENSE_SIZE ->
  Forall (fun v => bz v < 64) regs -> (forall j, i <= j -> dense_get_register out j = x00) ->
  let res := foldl dense_step out (zip (seqZ i (blen regs)) regs) in
  length res = length out /\ take 16 res = take 16 out /\
  (forall j, 0 <= j < i -> dense_get_register res j = dense_get_register out j) /\
  (forall j, i <= j < i + blen regs -> dense_get_register res j = byte_at regs (j - i)).
Proof.
  induction regs as [|v regs IH]; intros i out Hi Hr Hout Hf Hz.
  - cbn. split_and!; [done..|]. unfold blen. cbn. lia.
  - assert (blen (v :: regs) = Z.succ (blen regs)) as El by (unfold blen; cbn; lia).
    assert (0 <= blen regs) by (unfold blen; lia). rewrite El in Hr.
    rewrite El, seqZ_cons by (unfold blen; lia). rewrite Z.pred_succ. cbn [zip zip_with foldl]. cbn zeta.
    inversion_clear Hf as [|? ? Hv Hf']. pose proof (bz_range v).
    assert (forall j, 0 <= j -> dense_get_register (dense_step out (i, v)) j = if i =? j then v else dense_get_register out j) as Hg.
    { intros j Hj. unfold dense_step. cbn [fst snd]. destruct (Z.eqb_spec (bz v) 0) as [Ev|].
      - destruct (Z.eqb_spec i j) as [<-|]; [|done]. rewrite Hz by lia. by rewrite <- (zb_bz v), Ev.
      - apply dense_get_set; [done|lia..]. }
    destruct (IH (Z.succ i) (dense_step out (i, v))) as (H1 & H2 & H3 & H4); [lia|lia| |done| |].
    { unfold blen in *. by rewrite dense_step_length. }
    { intros j Hj. rewrite Hg by lia. destruct (Z.eqb_spec i j); [lia|]. apply Hz. lia. }
    rewrite H1, dense_step_length, H2. split_and!; [done| | |].
    + unfold dense_step. cbn [fst snd]. destruct (_ =? _); [done|]. apply dense_set_head; [lia|done].
    + intros j Hj. rewrite H3, Hg by lia. destruct (Z.eqb_spec i j); [lia|done].
    + intros j Hj. destruct (decide (j = i)) as [->|].
      * rewrite H3, Hg, Z.eqb_refl, Z.sub_diag by lia. done.
      * rewrite H4 by lia. unfold byte_at. replace (Z.to_nat (j - i)) with (S (Z.to_nat (j - Z.succ i))) by lia. done.
Qed.

(** ** Well-formed values *)

Definition hll_wf (h : RedisHll) : Prop :=
  blen (registers h) = HLL_REGISTERS /\ Forall (fun v => bz v < 64) (registers h) /\
  length (reserved h) = 3%nat /\ length (card h) = 8%nat.

Lemma length_header h e : hll_wf h -> length (write_header h e) = 16%nat.
Proof. intros (_ & _ & H3 & H8). unfold write_header. rewrite !length_app, H3, H8. done. Qed.

Lemma dense_get_zero s j : (forall i, 16 <= i -> byte_at s i = x00) -> 0 <= j -> dense_get_register s j = x00.
Proof.
  intros Hs Hj. apply byte_eq_6; [apply dense_get_range|cbn; lia|]. intros k Hk. rewrite dense_get_bit by done.
  unfold le_bit. rewrite Hs; [by rewrite !Z.testbit_0_l|].
  unfold reg_bit, HLL_HDR_SIZE, HLL_BITS. apply Z.div_le_lower_bound; lia.
Qed.

Lemma encode_dense_spec h : hll_wf h ->
  blen (encode_dense h) = HLL_DENSE_SIZE /\ take 16 (encode_dense h) = write_header h HLL_DENSE /\
  (forall j, 0 <= j < HLL_REGISTERS -> dense_get_register (encode_dense h) j = byte_at (registers h) j).
Proof.
  intros Hwf. pose proof (length_header h HLL_DENSE Hwf) as Hh. destruct Hwf as (Hr & Hf & _).
  set (out := write_header h HLL_DENSE ++ replicate (Z.to_nat HLL_DENSE_BYTES) x00).
  assert (blen out = HLL_DENSE_SIZE) as Ho by (unfold blen, out; rewrite length_app, length_replicate, Hh, Nat2Z.inj_add, Z2Nat.id by done; done).
  assert (encode_dense h = foldl dense_step out (zip (seqZ 0 (blen (registers h))) (registers h))) as ->.
  { unfold encode_dense. by rewrite Hr. }
  destruct (dense_fold_spec (registers h) 0 out) as (H1 & H2 & _ & H4); [done|lia|done|done| |].
  { intros j Hj. apply dense_get_zero; [|done]. intros i Hi. unfold byte_at, out.
    rewrite lookup_app_r by lia. destruct (_ !! _) as [b|] eqn:E; [|done]. by apply lookup_replicate in E as [-> _]. }
  split_and!.
  - unfold blen in *. by rewrite H1.
  - rewrite H2. unfold out. by rewrite take_app_length' by lia.
  - intros j Hj. rewrite H4, Z.sub_0_r by lia. done.
Qed.

Lemma fmap_byte_at (l : bytes) (f : Z -> byte) n : blen l = n -> (forall j, 0 <= j < n -> f j = byte_at l j) ->
  f <$> seqZ 0 n = l.
Proof.
  intros Hn Hf. unfold blen in Hn. apply list_eq. intros i. rewrite list_lookup_fmap.
  destruct (decide (i < length l)%nat) as [Hi|Hi].
  - rewrite lookup_seqZ_lt by lia. cbn [fmap option_fmap option_map]. rewrite Hf by lia. unfold byte_at.
    replace (Z.to_nat (0 + Z.of_nat i)) with i by lia. by destruct (lookup_lt_is_Some_2 l i Hi) as [? ->].
  - by rewrite lookup_seqZ_ge, lookup_ge_None_2 by lia.
Qed.

Lemma decode_encode_dense h : hll_wf h -> decode_dense (encode_dense h) = Ok (registers h).
Proof.
  intros Hwf. destruct (encode_dense_spec h Hwf) as (Hl & _ & Hg). unfold decode_dense. rewrite Hl, Z.eqb_refl.
  cbn [negb]. f_equal. apply fmap_byte_at; [apply Hwf|done].
Qed.

Lemma decode_encode_sparse h s : hll_wf h -> encode_sparse h = Some s -> decode_sparse s = Ok (registers h).
Proof.
  intros Hwf. unfold encode_sparse, decode_sparse. destruct (encode_loop _ _ _) as [body|] eqn:E; [|done].
  intros <-%(inj Some). apply encode_loop_spec in E as (b & -> & Hb); [|done|]; cycle 1.
  { destruct Hwf as [Hr _]. unfold blen in Hr. by rewrite Hr. }
  rewrite drop_app_length' by (by rewrite (length_header h)). cbn [app].
  assert (Z.of_nat (length (@nil byte) + Z.to_nat HLL_REGISTERS) = HLL_REGISTERS) as HR by (cbn [length Nat.add]; by rewrite Z2Nat.id).
  pose proof (sparse_loop_expand (length b) b [] (Z.to_nat HLL_REGISTERS) ltac:(done) HR) as Hs.
  cbn [length app] in Hs. change (Z.of_nat 0) with 0 in Hs. change (registers hll_new) with (replicate (Z.to_nat HLL_REGISTERS) x00). rewrite Hs, Hb.
  destruct Hwf as [Hr _]. rewrite bool_decide_true; [done|]. unfold blen in Hr. lia.
Qed.

(** The header fields of a string that starts with a header. *)
Lemma header_fields s h e : hll_wf h -> take 16 s = write_header h e ->
  16 <= blen s /\ slice s 0 4 = str "HYLL" /\ byte_at s 4 = e /\ slice s 5 8 = reserved h /\ slice s 8 16 = card h
  /\ byte_at s 15 = byte_at (card h) 7.
Proof.
  intros Hwf Hs. pose proof (length_header h e Hwf) as Hl. destruct Hwf as (_ & _ & H3 & H8).
  destruct (reserved h) as [|r1 [|r2 [|r3 [|? ?]]]] eqn:Er; try discriminate H3.
  destruct (card h) as [|c1 [|c2 [|c3 [|c4 [|c5 [|c6 [|c7 [|c8 [|? ?]]]]]]]]] eqn:Ec; try discriminate H8.
  rewrite <- (take_drop 16 s), Hs. unfold write_header. rewrite Er, Ec. cbn [app].
  split; [|done]. unfold blen. rewrite length_app. cbn. lia.
Qed.

Definition hll_dense (h : RedisHll) : bool :=
  (prefer_dense h || bool_decide (encode_sparse h = None))%bool.

Lemma decode_into_bytes h : hll_wf h ->
  hll_decode (into_bytes h) = Ok (mkRedisHll (registers h) (reserved h) (card h) (hll_dense h)).
Proof.
  intros Hwf. unfold into_bytes, hll_dense.
  destruct (if prefer_dense h then None else encode_sparse h) as [s|] eqn:E.
  - destruct (prefer_dense h) eqn:Ep; [done|]. rewrite bool_decide_false by by rewrite E. cbn [orb].
    pose proof (decode_encode_sparse h s Hwf E) as Hd.
    assert (take 16 s = write_header h HLL_SPARSE) as Ht.
    { unfold encode_sparse in E. destruct (encode_loop _ _ _); [|done]. apply (inj Some) in E as <-.
      by rewrite take_app_length' by (by rewrite length_header). }
    destruct (header_fields s h _ Hwf Ht) as (H1 & H2 & H3 & H4 & H5 & _).
    unfold hll_decode, validate_header. destruct (Z.ltb_spec (blen s) HLL_HDR_SIZE) as [Hlt|_];
      [unfold HLL_HDR_SIZE in Hlt; lia|]. by rewrite H2, H3, H4, H5, Hd.
  - assert ((prefer_dense h || bool_decide (encode_sparse h = None))%bool = true) as ->.
    { destruct (prefer_dense h); [done|]. by rewrite bool_decide_true. }
    destruct (encode_dense_spec h Hwf) as (Hl & Ht & _). pose proof (decode_encode_dense h Hwf) as Hd.
    destruct (header_fields _ h _ Hwf Ht) as (H1 & H2 & H3 & H4 & H5 & _).
    unfold hll_decode, validate_header. destruct (Z.ltb_spec (blen (encode_dense h)) HLL_HDR_SIZE) as [Hlt|_];
      [unfold HLL_HDR_SIZE in Hlt; lia|]. by rewrite H2, H3, H4, H5, Hd, Hl.
Qed.

(** ** Adding and merging *)

Lemma hll_new_wf : hll_wf hll_new.
Proof.
  split_and!; [|by apply Forall_replicate|done..].
  unfold blen, hll_new, registers. by rewrite length_replicate, Z2Nat.id.
Qed.

Lemma pattern_index e : 0 <= (hll_pattern e).1 < HLL_REGISTERS.
Proof.
  unfold hll_pattern. cbn [fst]. change (Z.shiftl 1 HLL_P - 1) with (Z.ones HLL_P). rewrite Z.land_ones by done.
  by apply Z.mod_pos_bound.
Qed.

Lemma trailing_zeros_le x k : 0 <= x -> Z.testbit x k = true -> 0 <= trailing_zeros x <= k.
Proof.
  destruct x as [|p|p]; [by rewrite Z.testbit_0_l| |lia]. intros _. cbn [trailing_zeros].
  revert k. induction p as [p IH|p IH|]; intros k Hb; cbn [pos_trailing_zeros].
  1, 3: split; [lia|]; destruct (Z.ltb_spec k 0); [by rewrite Z.testbit_neg_r in Hb|lia].
  destruct (Z.ltb_spec k 0); [by rewrite Z.testbit_neg_r in Hb|].
  destruct (decide (k = 0)) as [->|]; [done|].
  replace k with (Z.succ (k - 1)) in Hb by lia.
  change (Z.pos p~0) with (2 * Z.pos p) in Hb. rewrite Z.testbit_even_succ in Hb by lia. specialize (IH _ Hb). lia.
Qed.

(** The loop over the blocks ends with less than a block left. *)
Lemma murmur_blocks_tail fuel : forall hash data, (length data <= fuel)%nat -> blen (murmur_blocks fuel hash data).2 < 8.
Proof.
  induction fuel as [|fuel IH]; intros hash data Hf; cbn [murmur_blocks]; unfold blen in *; [cbn; lia|].
  destruct (Z.leb_spec 8 (Z.of_nat (length data))); [|done]. apply IH. rewrite length_drop. lia.
Qed.

Lemma murmur_nonneg e : 0 <= murmur_hash64a e.
Proof.
  unfold murmur_hash64a. cbn zeta. destruct (murmur_blocks _ _ _) as [h t].
  apply Z.lxor_nonneg. split; intros; [apply Z.shiftr_nonneg|]; apply wrap_u64_range.
Qed.

(** The rank stored in a register is between 1 and 51. *)
Lemma pattern_count e : 1 <= bz (hll_pattern e).2 <= HLL_Q + 1.
Proof.
  unfold hll_pattern. cbn [snd]. set (x := Z.lor _ _).
  assert (0 <= trailing_zeros x <= HLL_Q) as Ht.
  { apply trailing_zeros_le.
    - apply Z.lor_nonneg. split; [apply Z.shiftr_nonneg, murmur_nonneg|done].
    - unfold x. rewrite Z.lor_spec. change (Z.testbit (Z.shiftl 1 HLL_Q) HLL_Q) with true. by rewrite orb_true_r. }
  change HLL_Q with 50 in *. rewrite bz_zb, Z.mod_small; lia.
Qed.

Definition hll_adds (h : RedisHll) (l : list bytes) : RedisHll := foldl (fun h e => (hll_add h e).1) h l.

Lemma hll_add_wf h e : hll_wf h -> hll_wf (hll_add h e).1.
Proof.
  intros (Hr & Hf & H3 & H8). unfold hll_add. pose proof (pattern_count e) as Hc. change HLL_Q with 50 in Hc.
  destruct (hll_pattern e) as [index count]. cbn [snd] in Hc. dmatch; [by split_and!|].
  cbn [fst]. split_and!; cbn [registers reserved card]; [|apply Forall_insert; [done|lia]|done|done].
  unfold blen in *. by rewrite length_insert.
Qed.

(** Adding raises one register to the rank of the element, or leaves it. *)
Lemma hll_add_at h e i : hll_wf h -> 0 <= i ->
  bz (byte_at (registers (hll_add h e).1) i)
  = Z.max (bz (byte_at (registers h) i)) (if (hll_pattern e).1 =? i then bz (hll_pattern e).2 else 0).
Proof.
  intros (Hr & _) Hi. pose proof (pattern_index e) as Hx. unfold hll_add. destruct (hll_pattern e) as [index count].
  cbn [fst snd] in *. pose proof (bz_range (byte_at (registers h) i)). destruct (Z.leb_spec (bz count) (bz (byte_at (registers h) index))).
  - cbn [fst]. destruct (Z.eqb_spec index i) as [->|]; lia.
  - cbn [fst registers]. rewrite byte_at_insert by lia. destruct (Z.eqb_spec index i) as [->|]; lia.
Qed.

(** The highest rank among the elements of [l] that select register [i]. *)
Definition rank (l : list bytes) (i : Z) : Z :=
  foldr (fun e r => Z.max (if (hll_pattern e).1 =? i then bz (hll_pattern e).2 else 0) r) 0 l.

Lemma rank_elem l e i : e ∈ l -> (if (hll_pattern e).1 =? i then bz (hll_pattern e).2 else 0) <= rank l i.
Proof. induction 1; cbn [rank foldr]; fold (rank l i); lia. Qed.

Lemma rank_lub l i b : 0 <= b -> (forall e, e ∈ l -> (if (hll_pattern e).1 =? i then bz (hll_pattern e).2 else 0) <= b) ->
  rank l i <= b.
Proof.
  induction l as [|e l IH]; intros Hb H; [done|]. cbn [rank foldr]. fold (rank l i).
  pose proof (H e ltac:(left)). assert (rank l i <= b) by (apply IH; [done|]; intros; apply H; by right). lia.
Qed.

Lemma rank_nonneg l i : 0 <= rank l i.
Proof. induction l; cbn [rank foldr]; [done|]. fold (rank l i). lia. Qed.

Lemma rank_subset l l' i : (forall e, e ∈ l -> e ∈ l') -> rank l i <= rank l' i.
Proof. intros H. apply rank_lub; [apply rank_nonneg|]. intros e He. apply rank_elem. by apply H. Qed.

Lemma hll_adds_spec l : forall h, hll_wf h ->
  hll_wf (hll_adds h l) /\ reserved (hll_adds h l) = reserved h /\ card (hll_adds h l) = card h /\
  prefer_dense (hll_adds h l) = prefer_dense h /\
  forall i, 0 <= i -> bz (byte_at (registers (hll_adds h l)) i) = Z.max (bz (byte_at (registers h) i)) (rank l i).
Proof.
  induction l as [|e l IH]; intros h Hwf.
  - split_and!; [done..|]. intros i Hi. cbn. pose proof (bz_range (byte_at (registers h) i)). lia.
  - destruct (IH (hll_add h e).1 (hll_add_wf h e Hwf)) as (H1 & H2 & H3 & H4 & H5).
    cbn [hll_adds foldl]. fold (hll_adds (hll_add h e).1 l). rewrite H2, H3, H4.
    assert (reserved (hll_add h e).1 = reserved h /\ card (hll_add h e).1 = card h /\
      prefer_dense (hll_add h e).1 = prefer_dense h) as (-> & -> & ->).
    { unfold hll_add. destruct (hll_pattern e). by dmatch. }
    split_and!; [done..|]. intros i Hi. rewrite H5, hll_add_at by done. cbn [rank foldr]. fold (rank l i). lia.
Qed.

Lemma registers_ext (r r' : bytes) : blen r = HLL_REGISTERS -> blen r' = HLL_REGISTERS ->
  (forall i, 0 <= i -> bz (byte_at r i) = bz (byte_at r' i)) -> r = r'.
Proof.
  intros H H' He. rewrite <- (fmap_byte_at r (byte_at r) HLL_REGISTERS), <- (fmap_byte_at r' (byte_at r') HLL_REGISTERS) by done.
  apply list_fmap_ext. intros i j Hj. apply lookup_seqZ in Hj as [-> ?].
  by rewrite <- (zb_bz (byte_at r _)), He, zb_bz by lia.
Qed.

Lemma hll_new_at i : byte_at (registers hll_new) i = x00.
Proof.
  unfold byte_at, hll_new, registers. destruct (_ !! _) as [b|] eqn:E; [|done]. by apply lookup_replicate in E as [-> _].
Qed.

Lemma merge_at h h' i : hll_wf h -> hll_wf h' -> 0 <= i ->
  bz (byte_at (registers (hll_merge h h')) i) = Z.max (bz (byte_at (registers h) i)) (bz (byte_at (registers h') i)).
Proof.
  intros (Hr & _) (Hr' & _) Hi. unfold hll_merge, byte_at, blen in *. cbn [registers]. rewrite lookup_zip_with.
  destruct (decide (i < HLL_REGISTERS)).
  - destruct (lookup_lt_is_Some_2 (registers h) (Z.to_nat i) ltac:(lia)) as [a ->].
    destruct (lookup_lt_is_Some_2 (registers h') (Z.to_nat i) ltac:(lia)) as [b ->]. cbn.
    destruct (Z.ltb_spec (bz a) (bz b)); lia.
  - by rewrite !lookup_ge_None_2 by lia.
Qed.

Lemma merge_wf h h' : hll_wf h -> hll_wf h' -> hll_wf (hll_merge h h').
Proof.
  intros (Hr & Hf & H3 & H8) (Hr' & Hf' & _). unfold hll_merge, blen in *. split_and!; cbn [registers reserved card]; [|..|done|done].
  - unfold blen. rewrite length_zip_with. lia.
  - clear -Hf Hf'. revert Hf Hf'. generalize (registers h') as r'. induction (registers h) as [|x r IH]; intros [|y r'] Hf Hf'; cbn; try done.
    inversion_clear Hf. inversion_clear Hf'. constructor; [|by apply IH]. by dmatch.
Qed.

Lemma zeros_loop_small fuel : forall rem b b', too_big b = false -> zeros_loop fuel rem b = Some b' -> too_big b' = false.
Proof.
  induction fuel as [|n IH]; intros rem b b' Hb; cbn [zeros_loop]; destruct (rem =? 0); try congruence.
  destruct (HLL_SPARSE_ZERO_MAX_LEN <? rem);
    match goal with |- context [too_big ?x] => destruct (too_big x) eqn:Et; [done|by apply IH] end.
Qed.

Lemma encode_loop_small fuel : forall regs b b', too_big b = false -> encode_loop fuel regs b = Some b' -> too_big b' = false.
Proof.
  induction fuel as [|n IH]; intros [|v rest] b b' Hb; cbn [encode_loop]; try congruence. destruct (bz v =? 0).
  - destruct (zeros_loop _ _ _) as [b1|] eqn:Ez; [|done]. apply IH. by apply zeros_loop_small in Ez.
  - destruct (HLL_SPARSE_VAL_MAX <? bz v); [done|].
    match goal with |- context [too_big ?x] => destruct (too_big x) eqn:Et; [done|by apply IH] end.
Qed.

Lemma into_bytes_small h : hll_wf h -> blen (into_bytes h) <= HLL_DENSE_SIZE.
Proof.
  intros Hwf. unfold into_bytes. destruct (if prefer_dense h then None else encode_sparse h) as [s|] eqn:E.
  2: { by destruct (encode_dense_spec h Hwf) as [-> _]. }
  destruct (prefer_dense h); [done|]. unfold encode_sparse in E. destruct (encode_loop _ _ _) as [body|] eqn:El; [|done].
  apply (inj Some) in E as <-. apply encode_loop_small in El as Hb; [|done].
  unfold too_big in Hb. apply Z.ltb_ge in Hb. unfold blen in *. rewrite length_app, length_header by done.
  change HLL_SPARSE_MAX_BYTES with 3000 in Hb. change HLL_HDR_SIZE with 16 in Hb. change HLL_DENSE_SIZE with 12304. lia.
Qed.

Lemma expand_range n : forall body l, (length body <= n)%nat -> expand body = Some l -> Forall (fun v => bz v < 64) l.
Proof.
  assert (forall k v (l : bytes), bz v < 64 -> Forall (fun v => bz v < 64) l -> Forall (fun v => bz v < 64) (replicate k v ++ l)) as Hr.
  { intros k v l Hv Hl. apply Forall_app. split; [by apply Forall_replicate|done]. }
  induction n as [|n IH]; intros [|op body] l Hn; cbn [length expand] in *; try lia; try (intros [= <-]; constructor).
  destruct (Z.land (bz op) 192 =? 0).
  { destruct (expand body) eqn:E; [|done]. intros [= <-]. apply Hr; [done|]. apply (IH body); [lia|done]. }
  destruct (Z.land (bz op) 192 =? 64).
  { destruct body as [|op2 body]; [done|]. cbn [length] in Hn. destruct (expand body) eqn:E; [|done]. intros [= <-].
    apply Hr; [done|]. apply (IH body); [lia|done]. }
  destruct (expand body) eqn:E; [|done]. intros [= <-]. apply Hr; [|apply (IH body); [lia|done]].
  assert (0 <= Z.land (Z.shiftr (bz op) 2) 31 < 32).
  { change 31 with (Z.ones 5). rewrite Z.land_ones by lia. by apply Z.mod_pos_bound. }
  rewrite bz_zb, Z.mod_small; lia.
Qed.

Lemma decode_sparse_wf s regs : decode_sparse s = Ok regs -> blen regs = HLL_REGISTERS /\ Forall (fun v => bz v < 64) regs.
Proof.
  unfold decode_sparse. set (b := drop _ s).
  assert (Z.of_nat (length (@nil byte) + Z.to_nat HLL_REGISTERS) = HLL_REGISTERS) as HR by (cbn [length Nat.add]; by rewrite Z2Nat.id).
  pose proof (sparse_loop_expand (length b) b [] (Z.to_nat HLL_REGISTERS) ltac:(done) HR) as Hs.
  cbn [length app] in Hs. change (Z.of_nat 0) with 0 in Hs.
  change (registers hll_new) with (replicate (Z.to_nat HLL_REGISTERS) x00). rewrite Hs.
  destruct (expand b) as [l|] eqn:E; [|done]. case_bool_decide as Hl; [|done]. intros [= <-].
  split; [unfold blen; by rewrite Hl, Z2Nat.id|by apply (expand_range (length b) b)].
Qed.

Lemma length_slice s a b : (b <= length s)%nat -> length (slice s a b) = (b - a)%nat.
Proof. intros. unfold slice. rewrite length_take, length_drop. lia. Qed.

Lemma merge_adds l1 l2 l : (forall e, e ∈ l <-> e ∈ l1 \/ e ∈ l2) ->
  registers (hll_merge (hll_adds hll_new l1) (hll_adds hll_new l2)) = registers (hll_adds hll_new l).
Proof.
  intros Hl. destruct (hll_adds_spec l1 _ hll_new_wf) as (W1 & _ & _ & _ & E1).
  destruct (hll_adds_spec l2 _ hll_new_wf) as (W2 & _ & _ & _ & E2).
  destruct (hll_adds_spec l _ hll_new_wf) as (W & _ & _ & _ & E).
  apply registers_ext; [by apply merge_wf|apply W|]. intros i Hi.
  rewrite merge_at, E1, E2, E, hll_new_at by done. change (bz x00) with 0.
  assert (rank l i = Z.max (rank l1 i) (rank l2 i)); [|lia]. apply Z.le_antisymm.
  - apply rank_lub; [pose proof (rank_nonneg l1 i); lia|]. intros e [H|H]%Hl; apply (rank_elem _ _ i) in H; lia.
  - apply Z.max_lub; apply rank_subset; intros e He; apply Hl; [by left|by right].
Qed.

(** ** The empty value counts 0 *)

Lemma histogram_new j : histogram (registers hll_new) j = if j =? 0 then HLL_REGISTERS else 0.
Proof.
  unfold histogram, hll_new, registers. destruct (Z.eqb_spec j 0) as [->|].
  - rewrite list_filter_all by (by apply Forall_replicate). by rewrite length_replicate, Z2Nat.id.
  - rewrite list_filter_none; [done|]. apply Forall_replicate. change (bz x00) with 0. lia.
Qed.

Lemma estimate_ext h h' : (forall j, h j = h' j) -> estimate h = estimate h'.
Proof.
  intros Hh. unfold estimate, estimate_from, tau_arg, sigma_arg. rewrite !Hh. do 3 f_equal. generalize (fmul (f64_of_Z HLL_REGISTERS)
    (hll_tau (fdiv (fsub (f64_of_Z HLL_REGISTERS) (f64_of_Z (h' (HLL_Q + 1)))) (f64_of_Z HLL_REGISTERS)))).
  induction (reverse (seqZ 1 HLL_Q)) as [|j l IH]; intros z; [done|]. cbn [foldl]. by rewrite Hh, IH.
Qed.

Lemma hll_count_new : hll_count (registers hll_new) = 0.
Proof. unfold hll_count. rewrite (estimate_ext _ _ histogram_new). by vm_compute. Qed.

(** ** Properties *)

(** C23: storing a HyperLogLog and reading the string back gives the same
    registers, reserved bytes and cached cardinality; only the encoding flag
    changes, and only to dense when the sparse form does not fit. The string
    is never longer than the dense form. *)
Theorem hll_decode_encode h : hll_wf h ->
  hll_decode (into_bytes h) = Ok (mkRedisHll (registers h) (reserved h) (card h) (hll_dense h)) /\
  blen (into_bytes h) <= HLL_DENSE_SIZE.
Proof. intros Hwf. split; [by apply decode_into_bytes|by apply into_bytes_small]. Qed.

Lemma hll_decode_encode_witness :
  hll_decode (into_bytes (hll_add hll_new (str "a")).1)
  = Ok (mkRedisHll (registers (hll_add hll_new (str "a")).1) (replicate 3 x00) (replicate 8 x00)
          (hll_dense (hll_add hll_new (str "a")).1)).
Proof.
  destruct (hll_decode_encode (hll_add hll_new (str "a")).1 (hll_add_wf _ _ hll_new_wf)) as [-> _].
  unfold hll_add. by destruct (hll_pattern (str "a")); dmatch.
Defined.

(** The value built from a collection of elements depends only on which
    elements are in it, and merging two values is the value of the union:
    the count over several keys does not depend on how the elements were
    spread over the keys, on their order or on repetitions. *)
Theorem hll_merge_union l1 l2 l : (forall e, e ∈ l <-> e ∈ l1 \/ e ∈ l2) ->
  registers (hll_merge (hll_adds hll_new l1) (hll_adds hll_new l2)) = registers (hll_adds hll_new l) /\
  hll_adds hll_new l = hll_adds hll_new (l1 ++ l2).
Proof.
  intros Hl. assert (registers (hll_adds hll_new l) = registers (hll_adds hll_new (l1 ++ l2))) as E.
  { rewrite <- (merge_adds l1 l2 l), <- (merge_adds l1 l2 (l1 ++ l2)) by (done || (intros; apply elem_of_app)). done. }
  split; [by apply merge_adds|]. destruct (hll_adds_spec l _ hll_new_wf) as (_ & R1 & C1 & P1 & _).
  destruct (hll_adds_spec (l1 ++ l2) _ hll_new_wf) as (_ & R2 & C2 & P2 & _).
  destruct (hll_adds hll_new l), (hll_adds hll_new (l1 ++ l2)). cbn in *. congruence.
Qed.

Lemma hll_merge_union_witness :
  registers (hll_merge (hll_adds hll_new [str "a"; str "b"]) (hll_adds hll_new [str "b"]))
  = registers (hll_adds hll_new [str "b"; str "a"]).
Proof. apply hll_merge_union. intros e. rewrite !elem_of_cons. rewrite elem_of_nil. tauto. Defined.

(** Whatever string is under the key, decoding it either fails or gives
    16384 registers that are all below 64, so the estimate's table of 64
    counters is indexed within its bounds. *)
Theorem hll_decode_bounds raw h : hll_decode raw = Ok h ->
  hll_wf h /\ HLL_HDR_SIZE <= blen raw /\ forall v, v ∈ registers h -> bz v < 64.
Proof.
  intros Hd. assert (hll_wf h /\ HLL_HDR_SIZE <= blen raw) as [Hwf Hlen].
  2: { split_and!; [done|done|]. intros v Hv. destruct Hwf as (_ & Hf & _). by rewrite Forall_forall in Hf; apply Hf. }
  unfold hll_decode in Hd. destruct (validate_header raw) as [[]|] eqn:Ev; cbn [result_bind] in Hd; [|done].
  assert (HLL_HDR_SIZE <= blen raw) as Hlen.
  { unfold validate_header in Ev. by destruct (Z.ltb_spec (blen raw) HLL_HDR_SIZE). }
  split; [|done]. unfold blen, HLL_HDR_SIZE in Hlen.
  case_bool_decide; [|case_bool_decide; [|done]].
  - unfold decode_dense in Hd. destruct (negb _); [done|]. cbn [result_bind] in Hd. apply ok_inj in Hd as <-.
    split_and!; cbn [registers reserved card]; [| |by apply length_slice; lia..].
    + unfold blen. rewrite length_fmap, length_seqZ. by rewrite Z2Nat.id.
    + apply Forall_fmap, Forall_forall. intros i _. apply dense_get_range.
  - destruct (decode_sparse raw) as [regs|] eqn:E; cbn [result_bind] in Hd; [|done]. apply ok_inj in Hd as <-.
    apply decode_sparse_wf in E as [H1 H2]. split_and!; cbn [registers reserved card]; [done..|by apply length_slice; lia|by apply length_slice; lia].
Qed.

Lemma hll_decode_bounds_witness : hll_wf (mkRedisHll (registers hll_new) (replicate 3 x00) (replicate 8 x00) (hll_dense hll_new)).
Proof. apply (hll_decode_bounds (into_bytes hll_new)). apply decode_into_bytes, hll_new_wf. Defined.

(** The hash vectors of the test suite. *)
Example murmur_hash64a_a : murmur_hash64a (str "a") = 0x53d2470a9b43b1a7.
Proof. reflexivity. Qed.

Example hll_pattern_a_b : hll_pattern (str "a") = (12711, zb 2) /\ hll_pattern (str "b") = (15780, zb 1).
Proof. by vm_compute. Qed.
