(* ===== verification/BitmapCmd.v ===== *)
(** * BitmapCmd: the bitmap commands.

    Models the parsers and commands of src/cache_cat/src/protocol/bitmap
    (SETBIT, GETBIT, BITCOUNT, BITPOS, BITFIELD). The bits are in Bits.v; here
    are the arguments, the error replies and the effect on the store. A
    [ValueObject::Int] counts as the string of its decimal digits. *)

From S2P Require Import Prelude Text F64 Reply Args SortedSet Mocha Ops Store Refine StringCmd Bits.
From Stdlib Require Import Strings.Byte.

(** ** Parsers *)

Definition not_an_int : ProtocolError := Custom (str "ERR value is not an integer or out of range").
Definition bad_offset : ProtocolError := Custom (str "ERR bit offset is not an integer or out of range").
Definition bad_type : ProtocolError :=
  Custom (str "ERR Invalid bitfield type. Use something like i16 u8. Note that u64 is not supported but i64 is.").
Definition syntax : ProtocolError := Custom (str "ERR syntax error").

Definition bitcount_operation (items : list Value) : parsed ReadOperation :=
  if ((argc items <? 2) || (4 <? argc items))%bool then Err (WrongArgCount (str "bitcount"))
  else
    let? key := string_item items 1 (str "bitcount") in
    let? start := (if 3 <=? argc items
      then let? z := ok_or (value_parse_i64 (item items 2)) not_an_int in Ok (Some z) else Ok None) in
    let? end_ := (if argc items =? 4
      then let? z := ok_or (value_parse_i64 (item items 3)) not_an_int in Ok (Some z) else Ok None) in
    Ok (RBitCount (mkBitCountParams key start end_)).

Definition getbit_operation (items : list Value) : parsed ReadOperation :=
  if negb (argc items =? 3) then Err (WrongArgCount (str "getbit"))
  else
    let? key := string_item items 1 (str "getbit") in
    let? offset := ok_or (value_parse_u64 (item items 2)) bad_offset in
    Ok (RGetBit (mkGetBitParams key offset)).

Definition setbit_request (items : list Value) : parsed Operation :=
  if negb (argc items =? 4) then Err (WrongArgCount (str "setbit"))
  else
    let? key := string_item items 1 (str "setbit") in
    let? offset := ok_or (value_parse_u64 (item items 2)) bad_offset in
    let? v := ok_or (value_parse_bool_u8 (item items 3)) (Custom (str "ERR bit is not an integer or out of range")) in
    Ok (Base (SetBit (mkSetBitReq key offset v))).

(** The digits of [parse_redis_i64_bytes], with the checked arithmetic of
    [u64]. *)
Fixpoint magnitude_loop (magnitude : Z) (digits : bytes) : option Z :=
  match digits with
  | [] => Some magnitude
  | digit :: digits' =>
      if negb (is_digit digit) then None
      else
        let m10 := magnitude * 10 in
        if u64_max <? m10 then None
        else
          let m := m10 + (bz digit - 48) in
          if u64_max <? m then None else magnitude_loop m digits'
  end.

Definition parse_redis_i64_bytes (s : bytes) : option Z :=
  if bool_decide (s = [x30]) then Some 0
  else
    match s with
    | [] => None
    | first :: rest =>
        let '(negative, digits) := if bool_decide (first = x2d) then (true, rest) else (false, s) in
        match digits with
        | [] => None
        | d :: _ =>
            if negb ((49 <=? bz d) && (bz d <=? 57))%bool then None
            else
              let* magnitude := magnitude_loop 0 digits in
              if (negative : bool) then
                let min_magnitude := i64_max + 1 in
                if min_magnitude <? magnitude then None
                else if magnitude =? min_magnitude then Some i64_min
                else Some (- magnitude)
              else if i64_max <? magnitude then None
              else Some magnitude
        end
    end.

Definition parse_redis_i64 (v : Value) : option Z :=
  let* s := string_bytes_clone v in parse_redis_i64_bytes s.

Definition parse_unit (v : Value) : parsed BitPosUnit :=
  let? s := ok_or (string_bytes_clone v) syntax in
  if eq_ignore_ascii_case s (str "BYTE") then Ok BPByte
  else if eq_ignore_ascii_case s (str "BIT") then Ok BPBit
  else Err syntax.

Definition bitpos_operation (items : list Value) : parsed ReadOperation :=
  if negb ((3 <=? argc items) && (argc items <=? 6))%bool then Err (WrongArgCount (str "bitpos"))
  else
    let? unit := (if argc items =? 6 then parse_unit (item items 5) else Ok BPByte) in
    let? key := string_item items 1 (str "bitpos") in
    let? bit := ok_or (parse_redis_i64 (item items 2)) not_an_int in
    if (negb (bit =? 0) && negb (bit =? 1))%bool then Err (Custom (str "ERR The bit argument must be 1 or 0"))
    else
      let? start := (if 4 <=? argc items
        then let? z := ok_or (parse_redis_i64 (item items 3)) not_an_int in Ok (Some z) else Ok None) in
      let? end_ := (if 5 <=? argc items
        then let? z := ok_or (parse_redis_i64 (item items 4)) not_an_int in Ok (Some z) else Ok None) in
      Ok (RBitPos (mkBitPosParams key bit start end_ unit)).

(** The largest string BITFIELD addresses. *)
Definition MAX_BITFIELD_STRING_BYTES : Z := 512 * 1024 * 1024.

Definition parse_upper_token (v : Value) : parsed bytes :=
  let? b := ok_or (string_bytes_clone v) (InvalidArgument (str "bitfield")) in
  let? string := ok_or (from_utf8 b) syntax in
  Ok (ascii_upper <$> concat string).

Definition parse_encoding (v : Value) : parsed BitFieldEncoding :=
  let? b := ok_or (string_bytes_clone v) bad_type in
  match b with
  | c :: (_ :: _) as rest =>
      let? signed := (if bool_decide (c = x69) then Ok true else if bool_decide (c = x75) then Ok false
        else Err bad_type) in
      let? width_string := ok_or (from_utf8 rest) bad_type in
      let? bits := ok_or (parse_u8_str (concat width_string)) bad_type in
      let valid := if (signed : bool) then ((1 <=? bits) && (bits <=? 64))%bool else ((1 <=? bits) && (bits <=? 63))%bool in
      if negb valid then Err bad_type else Ok (mkBitFieldEncoding signed bits)
  | _ => Err bad_type
  end.

(** [checked_mul] and [checked_add] of [u64]. *)
Definition checked (z : Z) : option Z := if z <=? u64_max then Some z else None.

Definition parse_offset (v : Value) (encoding : BitFieldEncoding) : parsed Z :=
  let? b := ok_or (string_bytes_clone v) bad_offset in
  let '(multiply_by_width, number_bytes) := match b with x23 :: rest => (true, rest) | _ => (false, b) end in
  match number_bytes with
  | [] => Err bad_offset
  | _ =>
      let? number_string := ok_or (from_utf8 number_bytes) bad_offset in
      let? base_offset := ok_or (parse_u64_str (concat number_string)) bad_offset in
      let? offset := (if (multiply_by_width : bool) then ok_or (checked (base_offset * width encoding)) bad_offset
        else Ok base_offset) in
      let? end_bit := ok_or (checked (offset + (width encoding - 1))) bad_offset in
      let? required_bytes := ok_or (checked (Z.shiftr end_bit 3 + 1)) bad_offset in
      if MAX_BITFIELD_STRING_BYTES <? required_bytes then Err bad_offset else Ok offset
  end.

Definition parse_i64_argument (v : Value) : parsed Z :=
  let? b := ok_or (string_bytes_clone v) not_an_int in
  let? string := ok_or (from_utf8 b) not_an_int in
  ok_or (parse_i64_str (concat string)) not_an_int.

Definition parse_overflow (v : Value) : parsed BitFieldOverflow :=
  let? token := parse_upper_token v in
  if is_word token "WRAP" then Ok Wrap
  else if is_word token "SAT" then Ok Sat
  else if is_word token "FAIL" then Ok BFFail
  else Err (Custom (str "ERR Invalid OVERFLOW type specified")).

(** The [while] loop over the subcommands; OVERFLOW holds for those after it. *)
Fixpoint bitfield_subcommands (overflow : BitFieldOverflow) (items : list Value)
    : parsed (list BitFieldSubCommand) :=
  match items with
  | [] => Ok []
  | c :: rest =>
      let? subcommand := parse_upper_token c in
      if is_word subcommand "GET" then
        match rest with
        | e :: o :: rest' =>
            let? encoding := parse_encoding e in
            let? offset := parse_offset o encoding in
            let? ops := bitfield_subcommands overflow rest' in
            Ok (BfGet encoding offset :: ops)
        | _ => Err syntax
        end
      else if is_word subcommand "SET" then
        match rest with
        | e :: o :: v :: rest' =>
            let? encoding := parse_encoding e in
            let? offset := parse_offset o encoding in
            let? val := parse_i64_argument v in
            let? ops := bitfield_subcommands overflow rest' in
            Ok (BfSet encoding offset val overflow :: ops)
        | _ => Err syntax
        end
      else if is_word subcommand "INCRBY" then
        match rest with
        | e :: o :: v :: rest' =>
            let? encoding := parse_encoding e in
            let? offset := parse_offset o encoding in
            let? increment := parse_i64_argument v in
            let? ops := bitfield_subcommands overflow rest' in
            Ok (BfIncrBy encoding offset increment overflow :: ops)
        | _ => Err syntax
        end
      else if is_word subcommand "OVERFLOW" then
        match rest with
        | o :: rest' => let? overflow' := parse_overflow o in bitfield_subcommands overflow' rest'
        | [] => Err syntax
        end
      else Err syntax
  end.

Definition bitfield_request (items : list Value) : parsed Operation :=
  if argc items <? 2 then Err (WrongArgCount (str "bitfield"))
  else
    let? key := string_item items 1 (str "bitfield") in
    let? operations := bitfield_subcommands Wrap (drop 2 items) in
    Ok (Base (BitField (mkBitFieldReq key operations))).

(** ** SETBIT and BITFIELD *)

Definition setbit_mutate (cmd : SetBitReq) (entry : EntrySnapshot MyValue) (write_clock : Z) (h : Heap) : mutation :=
  match value_bytes (data (value entry)) with
  | None => (h, (MAbort, wrong_type))
  | Some s =>
      let '(s', old_bit) := set_bit s (setbit_offset cmd) (setbit_value cmd) in
      (h, (MInsert (my_value_new (VString s')) (get_expire_policy entry), Integer old_bit))
  end.

(** A new key: zero bytes and the one that holds the bit. *)
Definition setbit_init (cmd : SetBitReq) (h : Heap) : mutation :=
  let bit_value := Z.land (setbit_value cmd) 1 in
  let byte_index := setbit_offset cmd / 8 in
  let bit_position := 7 - setbit_offset cmd mod 8 in
  let s := replicate (Z.to_nat (byte_index + 1)) x00 in
  let s := <[Z.to_nat byte_index := if bit_value =? 1 then zb (Z.shiftl 1 bit_position) else x00]> s in
  (h, (MInsert (my_value_new (VString s)) Persistent, Integer 0)).

#[global] Instance setbit_compute : ComputeCommand SetBitReq := {
  key := setbit_key;
  into_base_op := SetBit;
  mutate := setbit_mutate;
  init := setbit_init
}.

(** One subcommand: the string and the reply. *)
Definition execute_operation (s : bytes) (op : BitFieldSubCommand) : bytes * Value :=
  match op with
  | BfGet e offset => (s, Integer (read_bitfield s e offset))
  | BfSet e offset v overflow =>
      let old_value := read_bitfield s e offset in
      match normalize e v overflow with
      | Some new_value => (write_bitfield s e offset new_value, Integer old_value)
      | None => (s, Array None)
      end
  | BfIncrBy e offset increment overflow =>
      let old_value := read_bitfield s e offset in
      match normalize e (old_value + increment) overflow with
      | Some new_value => (write_bitfield s e offset new_value, Integer new_value)
      | None => (s, Array None)
      end
  end.

Definition execute_operations (ops : list BitFieldSubCommand) (s : bytes) : bytes * list Value :=
  foldl (fun '(s, replies) op => let '(s', r) := execute_operation s op in (s', replies ++ [r]))
    (prepare_write_buffer ops s, []) ops.

Definition bitfield_mutate (cmd : BitFieldReq) (entry : EntrySnapshot MyValue) (write_clock : Z) (h : Heap)
    : mutation :=
  match value_bytes (data (value entry)) with
  | None => (h, (MAbort, wrong_type))
  | Some source =>
      let '(s, replies) := execute_operations (bf_operations cmd) source in
      (h, (if has_write_operation (bf_operations cmd)
           then MInsert (my_value_new (VString s)) (get_expire_policy entry) else MAbort,
           Array (Some replies)))
  end.

Definition bitfield_init (cmd : BitFieldReq) (h : Heap) : mutation :=
  let '(s, replies) := execute_operations (bf_operations cmd) [] in
  (h, (if has_write_operation (bf_operations cmd) then MInsert (my_value_new (VString s)) Persistent else MAbort,
       Array (Some replies))).

#[global] Instance bitfield_compute : ComputeCommand BitFieldReq := {
  key := bf_key;
  into_base_op := BitField;
  mutate := bitfield_mutate;
  init := bitfield_init
}.

(** ** Reads *)

Definition getbit_execute (cmd : GetBitParams) (h : Heap) (v : option (EntrySnapshot MyValue)) : Value :=
  match v with
  | None => Integer 0
  | Some e =>
      match value_bytes (data (value e)) with
      | Some s => Integer (get_bit s (getbit_offset cmd))
      | None => protocol_error WrongType
      end
  end.

#[global] Instance getbit_read : ReadCommand GetBitParams := { rkey := getbit_key; execute := getbit_execute }.

Definition bitcount_bytes (cmd : BitCountParams) (s : bytes) : Z :=
  let len := blen s in
  if len =? 0 then 0
  else
    match bc_start cmd, bc_end cmd with
    | None, None => count_sum s
    | _, _ =>
        let start := default 0 (bc_start cmd) in
        let end_ := default (-1) (bc_end cmd) in
        let start := if start <? 0 then start + len else start in
        let end_ := if end_ <? 0 then end_ + len else end_ in
        let start := Z.min (Z.max start 0) (len - 1) in
        let end_ := Z.min (Z.max end_ 0) (len - 1) in
        if end_ <? start then 0
        else count_sum (take (Z.to_nat (end_ - start + 1)) (drop (Z.to_nat start) s))
    end.

Definition bitcount_execute (cmd : BitCountParams) (h : Heap) (v : option (EntrySnapshot MyValue)) : Value :=
  match v with
  | None => Integer 0
  | Some e =>
      match value_bytes (data (value e)) with
      | Some s => Integer (bitcount_bytes cmd s)
      | None => protocol_error WrongType
      end
  end.

#[global] Instance bitcount_read : ReadCommand BitCountParams := { rkey := bc_key; execute := bitcount_execute }.

Definition pos_out_of_range : Value := protocol_error (Custom (str "ERR bit position is out of range")).

Definition usize_to_integer_value (z : Z) : Value :=
  if z <=? i64_max then Integer z else pos_out_of_range.

Definition execute_bytes (cmd : BitPosParams) (s : bytes) : Value :=
  if blen s =? 0 then Integer (if bp_bit cmd =? 0 then 0 else -1)
  else
    match (match bp_unit cmd with BPByte => Some (blen s) | BPBit => checked (blen s * 8) end) with
    | None => protocol_error (Custom (str "ERR string exceeds maximum allowed size"))
    | Some unit_len =>
        match normalize_range unit_len (bp_start cmd) (bp_end cmd) with
        | None => Integer (-1)
        | Some (start_unit, end_unit) =>
            let bits :=
              match bp_unit cmd with
              | BPByte =>
                  let* start_bit := checked (start_unit * 8) in
                  let* e8 := checked (end_unit * 8) in
                  let* end_bit := checked (e8 + 7) in
                  Some (start_bit, end_bit)
              | BPBit => Some (start_unit, end_unit)
              end in
            match bits with
            | None => pos_out_of_range
            | Some (start_bit, end_bit) =>
                match find_first_bit s (bp_bit cmd) start_bit end_bit with
                | Some position => usize_to_integer_value position
                | None =>
                    if ((bp_bit cmd =? 0) && bool_decide (bp_end cmd = None))%bool then
                      match checked (blen s * 8) with
                      | Some position => usize_to_integer_value position
                      | None => pos_out_of_range
                      end
                    else Integer (-1)
                end
            end
        end
    end.

Definition bitpos_execute (cmd : BitPosParams) (h : Heap) (v : option (EntrySnapshot MyValue)) : Value :=
  match v with
  | None => execute_bytes cmd []
  | Some e =>
      match value_bytes (data (value e)) with
      | Some s => execute_bytes cmd s
      | None => protocol_error WrongType
      end
  end.

#[global] Instance bitpos_read : ReadCommand BitPosParams := { rkey := bp_key; execute := bitpos_execute }.

(** ** The cache methods *)

Definition cache_set_bit (c : MyCache) (param : SetBitReq) (u : Update) := execute_compute c param u.
Definition cache_bit_field (c : MyCache) (param : BitFieldReq) (u : Update) := execute_compute c param u.

(** ** The commands on plain strings *)

Definition on_bytes (e : EntrySnapshot PValue)
    (f : bytes -> MochaOperation PValue * Value) : MochaOperation PValue * Value :=
  match pbytes (pdata (value e)) with
  | Some s => f s
  | None => (MAbort, wrong_type)
  end.

(** SETBIT on a missing key is SETBIT on the empty string. *)
#[global] Instance setbit_pure : PureCommand SetBitReq := {
  pmutate cmd e _ := on_bytes e (fun s =>
    let '(s', old) := set_bit s (setbit_offset cmd) (setbit_value cmd) in
    (MInsert (pvalue_new (PString s')) (get_expire_policy e), Integer old));
  pinit cmd :=
    let '(s', old) := set_bit [] (setbit_offset cmd) (setbit_value cmd) in
    (MInsert (pvalue_new (PString s')) Persistent, Integer old)
}.

Definition pbitfield (cmd : BitFieldReq) (s : bytes) (p : ExpirePolicy) : MochaOperation PValue * Value :=
  let '(s', replies) := execute_operations (bf_operations cmd) s in
  (if has_write_operation (bf_operations cmd) then MInsert (pvalue_new (PString s')) p else MAbort,
   Array (Some replies)).

#[global] Instance bitfield_pure : PureCommand BitFieldReq := {
  pmutate cmd e _ := on_bytes e (fun s => pbitfield cmd s (get_expire_policy e));
  pinit cmd := pbitfield cmd [] Persistent
}.

Definition pread_bytes {C} (missing : C -> Value) (f : C -> bytes -> Value)
    (cmd : C) (e : option (EntrySnapshot PValue)) (r : Value) : Prop :=
  r = match e with
      | None => missing cmd
      | Some e => match pbytes (pdata (value e)) with Some s => f cmd s | None => protocol_error WrongType end
      end.

#[global] Instance getbit_pure : PureRead GetBitParams := {
  pread := pread_bytes (fun _ => Integer 0) (fun cmd s => Integer (get_bit s (getbit_offset cmd)))
}.
#[global] Instance bitcount_pure : PureRead BitCountParams := {
  pread := pread_bytes (fun _ => Integer 0) (fun cmd s => Integer (bitcount_bytes cmd s))
}.
#[global] Instance bitpos_pure : PureRead BitPosParams := {
  pread := pread_bytes (fun cmd => execute_bytes cmd []) execute_bytes
}.

(** ** The laws *)

Lemma value_bytes_abs h v pv : abs_value h v = Some pv -> value_bytes (data v) = pbytes (pdata pv).
Proof. intros Hpv. shape_cases Hpv; by subst. Qed.

Lemma setbit_fresh cmd h : 0 <= setbit_offset cmd ->
  setbit_init cmd h =
    let '(s', old) := set_bit [] (setbit_offset cmd) (setbit_value cmd) in
    (h, (MInsert (my_value_new (VString s')) Persistent, Integer old)).
Proof.
  intros Ho. unfold setbit_init, set_bit, put_bit. set (i := setbit_offset cmd / 8).
  assert (Hi : 0 <= i) by (apply Z.div_pos; lia).
  replace (blen [] <=? i) with true by (symmetry; by apply Z.leb_le).
  unfold grow. cbn [length app]. rewrite Nat.sub_0_r. set (n := Z.to_nat (i + 1)).
  assert (E : byte_at (replicate n x00) i = x00).
  { unfold byte_at. by rewrite lookup_replicate_2 by lia. }
  rewrite E. change (bz x00) with 0. rewrite Z.lor_0_l, Z.land_0_l. unfold bit_of. change (bz x00) with 0.
  rewrite Z.shiftr_0_l, Z.land_0_l. do 4 f_equal. by destruct (_ =? 1).
Qed.

#[global] Instance setbit_laws : ComputeLaws SetBitReq.
Proof.
  apply (compute_laws (fun cmd => 0 <= setbit_offset cmd)).
  - intros cmd e pv wc h Hh _ _ He Hpv. cbn [mutate pmutate setbit_compute setbit_pure]. unfold setbit_mutate, on_bytes. cbn [value].
    rewrite (value_bytes_abs _ _ _ Hpv). destruct (pbytes (pdata pv)) as [s|]; [|by apply refuse_ok].
    destruct (set_bit s _ _) as [s' old]. apply scalar_ok; try done. by apply policy_of_entry.
  - intros cmd h Hh Ho. cbn [init pinit setbit_compute setbit_pure]. rewrite setbit_fresh by done. destruct (set_bit [] _ _) as [s' old].
    by apply init_scalar_ok.
Defined.

#[global] Instance bitfield_laws : ComputeLaws BitFieldReq.
Proof.
  apply (compute_laws (fun _ => True)).
  - intros cmd e pv wc h Hh _ _ He Hpv. cbn [mutate pmutate bitfield_compute bitfield_pure]. unfold bitfield_mutate, on_bytes, pbitfield. cbn [value].
    rewrite (value_bytes_abs _ _ _ Hpv). destruct (pbytes (pdata pv)) as [s|]; [|by apply refuse_ok].
    destruct (execute_operations _ s) as [s' replies]. destruct (has_write_operation _); [|by apply refuse_ok].
    apply scalar_ok; try done. by apply policy_of_entry.
  - intros cmd h Hh _. cbn [init pinit bitfield_compute bitfield_pure]. unfold bitfield_init, pbitfield. destruct (execute_operations _ []) as [s' replies].
    destruct (has_write_operation _); [by apply init_scalar_ok|by apply init_refuse_ok].
Defined.

Lemma bytes_read {C} (missing : C -> Value) (f : C -> bytes -> Value) cmd h r pr : abs_read h r pr ->
  pread_bytes missing f cmd pr
    (match r with
     | None => missing cmd
     | Some e => match value_bytes (data (value e)) with Some s => f cmd s | None => protocol_error WrongType end
     end).
Proof.
  intros Hr. unfold pread_bytes. destruct r as [e|], pr as [pe|]; cbn in Hr; try done.
  unfold abs_snapshot in Hr. destruct (abs_value h (value e)) as [pv|] eqn:Hpv; [|done].
  injection Hr as <-. cbn [value]. by rewrite (value_bytes_abs _ _ _ Hpv).
Qed.

#[global] Instance getbit_laws : ReadLaws GetBitParams.
Proof. constructor. intros cmd h r pr Hh Hr.
  exact (bytes_read (fun _ => Integer 0) (fun cmd s => Integer (get_bit s (getbit_offset cmd))) cmd h r pr Hr). Qed.
#[global] Instance bitcount_laws : ReadLaws BitCountParams.
Proof. constructor. intros cmd h r pr Hh Hr.
  exact (bytes_read (fun _ => Integer 0) (fun cmd s => Integer (bitcount_bytes cmd s)) cmd h r pr Hr). Qed.
#[global] Instance bitpos_laws : ReadLaws BitPosParams.
Proof. constructor. intros cmd h r pr Hh Hr.
  exact (bytes_read (fun cmd => execute_bytes cmd []) execute_bytes cmd h r pr Hr). Qed.

(** ** Properties *)

Lemma bit_at_slice s a n j : 0 <= j < 8 * Z.of_nat n ->
  bit_at (take n (drop a s)) j = bit_at s (j + 8 * Z.of_nat a).
Proof.
  intros Hj. unfold bit_at, byte_at. replace (j + 8 * Z.of_nat a) with (j + Z.of_nat a * 8) by lia.
  rewrite Z.div_add, Z.mod_add by lia. pose proof (div_mod_8 j). do 3 f_equal.
  rewrite lookup_take_lt, lookup_drop by lia. f_equal. lia.
Qed.

Lemma count_slice s a n : (a + n <= length s)%nat ->
  count_sum (take n (drop a s)) = ones_in s (8 * Z.of_nat a) (8 * n).
Proof.
  intros Hn. rewrite count_sum_ones, length_take, length_drop.
  replace (n `min` (length s - a))%nat with n by lia.
  rewrite (ones_in_ext _ s 0 (8 * n) (8 * Z.of_nat a)); [done|]. intros j Hj. apply bit_at_slice. lia.
Qed.

(** BITCOUNT counts the ones of the bytes between its bounds; negative
    bounds count from the end, and both are clamped into the string. *)
Theorem bitcount_counts (s : bytes) (cmd : BitCountParams) : s <> [] ->
  let len := blen s in
  let from_end z := if z <? 0 then z + len else z in
  let clamp z := Z.min (Z.max z 0) (len - 1) in
  let lo := clamp (from_end (default 0 (bc_start cmd))) in
  let hi := clamp (from_end (default (-1) (bc_end cmd))) in
  bitcount_bytes cmd s = ones_in s (8 * lo) (8 * Z.to_nat (hi - lo + 1)).
Proof.
  intros Hs len from_end clamp lo hi. unfold bitcount_bytes.
  assert (Hlen : 0 < blen s) by (unfold blen; destruct s; [done|cbn; lia]).
  destruct (Z.eqb_spec (blen s) 0) as [|_]; [lia|].
  assert (Hlo : 0 <= lo <= len - 1) by (unfold lo, clamp, len; lia).
  assert (Hhi : 0 <= hi <= len - 1) by (unfold hi, clamp, len; lia).
  assert (Hmain : (if hi <? lo then 0 else count_sum (take (Z.to_nat (hi - lo + 1)) (drop (Z.to_nat lo) s))) =
    ones_in s (8 * lo) (8 * Z.to_nat (hi - lo + 1))).
  { destruct (Z.ltb_spec hi lo); [by replace (Z.to_nat (hi - lo + 1)) with O by lia|].
    rewrite count_slice by (unfold len, blen in *; lia). by rewrite Z2Nat.id by lia. }
  destruct (bc_start cmd) as [a|] eqn:Ea, (bc_end cmd) as [b|] eqn:Eb; try exact Hmain.
  assert (lo = 0 /\ hi = len - 1) as [El Eh].
  { unfold lo, hi, clamp, from_end, len in *. cbn [default from_option id]. cbn [Z.ltb Z.compare].
    destruct (Z.ltb_spec (-1) 0); lia. }
  rewrite El, Eh. replace (Z.to_nat (len - 1 - 0 + 1)) with (length s) by (unfold len, blen; lia).
  apply count_sum_ones.
Qed.

Lemma bitcount_counts_witness :
  bitcount_bytes (mkBitCountParams [] (Some 1) (Some (-1))) (str "foobar") =
    ones_in (str "foobar") 8 40.
Proof. apply (bitcount_counts (str "foobar") (mkBitCountParams [] (Some 1) (Some (-1)))). discriminate. Defined.

(** A range that starts past the end of the string is not empty: the start
    is clamped to the last byte, whose ones are counted. *)
Theorem bitcount_start_past_end (s : bytes) (b : byte) (start : Z) : blen s + 1 <= start ->
  bitcount_bytes (mkBitCountParams [] (Some start) None) (s ++ [b]) = count_ones b.
Proof.
  intros Hs. unfold bitcount_bytes. cbn [bc_start bc_end default from_option id].
  assert (Hl : blen (s ++ [b]) = blen s + 1) by (unfold blen; rewrite length_app; cbn; lia).
  assert (0 <= blen s) by (unfold blen; lia). rewrite Hl. destruct (Z.eqb_spec (blen s + 1) 0); [lia|].
  destruct (Z.ltb_spec start 0); [lia|]. cbn [Z.ltb Z.compare]. 
  replace (Z.min (Z.max start 0) (blen s + 1 - 1)) with (blen s) by lia.
  replace (Z.min (Z.max (-1 + (blen s + 1)) 0) (blen s + 1 - 1)) with (blen s) by lia.
  rewrite Z.ltb_irrefl. replace (Z.to_nat (blen s - blen s + 1)) with 1%nat by lia.
  unfold blen at 1. rewrite Nat2Z.id, drop_app_length. cbn. unfold count_sum. cbn. lia.
Qed.

Lemma bitcount_start_past_end_witness :
  bitcount_bytes (mkBitCountParams [] (Some 100) None) (str "fo" ++ [x6f]) = 6.
Proof. apply (bitcount_start_past_end (str "fo") x6f 100). by vm_compute. Defined.

(** The checked loop computes the value, and fails exactly when it leaves the
    range of [u64]. *)
Lemma magnitude_loop_spec ds : forall m, 0 <= m <= u64_max ->
  magnitude_loop m ds = (let* z := digits_val m ds in if z <=? u64_max then Some z else None).
Proof.
  induction ds as [|d ds IH]; intros m Hm; cbn [magnitude_loop digits_val].
  { by destruct (Z.leb_spec m u64_max); [|lia]. }
  destruct (is_digit d) eqn:Hd; [|done]. cbn [negb].
  assert (Hv : 0 <= digit_val d) by (unfold is_digit, byte_in, digit_val in *; zbool; lia).
  replace (m * 10 + (bz d - 48)) with (10 * m + digit_val d) by (unfold digit_val; lia).
  assert (Hbig : u64_max < 10 * m + digit_val d ->
    None = (let* z := digits_val (10 * m + digit_val d) ds in if z <=? u64_max then Some z else None)).
  { intros Hb. destruct (digits_val _ ds) as [z|] eqn:Ez; [|done]. apply digits_val_ge in Ez; [|lia].
    by destruct (Z.leb_spec z u64_max); [lia|]. }
  destruct (Z.ltb_spec u64_max (m * 10)); [apply Hbig; lia|].
  destruct (Z.ltb_spec u64_max (10 * m + digit_val d)); [by apply Hbig|apply IH; lia].
Qed.

Lemma nonzero_digit_test d : ((49 <=? bz d) && (bz d <=? 57))%bool = is_nonzero_digit d.
Proof. done. Qed.

(** What the checks after the digits decide. *)
Lemma redis_i64_digits b s : is_nonzero_digit b = true ->
  magnitude_loop 0 (b :: s) =
    match digits_val 0 (b :: s) with
    | Some z => if z <=? u64_max then Some z else None
    | None => None
    end.
Proof. intros _. rewrite magnitude_loop_spec by (unfold u64_max; lia). by destruct (digits_val 0 (b :: s)). Qed.

Lemma nat_digits n b s : nat_to_string n = b :: s -> 0 <= n -> digits_val 0 (b :: s) = Some n.
Proof. intros E Hn. pose proof (parse_nat_to_string n Hn) as Hp. by rewrite E in Hp. Qed.

Lemma parse_redis_printed z : is_i64 z -> parse_redis_i64_bytes (i64_to_string z) = Some z.
Proof.
  intros Hz. unfold is_i64, i64_min, i64_max in Hz. unfold parse_redis_i64_bytes.
  destruct (Z.eq_dec z 0) as [->|Hn0]; [done|].
  destruct (nat_to_string_head (Z.abs z)) as (b & s & E & Hb); [lia|].
  pose proof (nat_digits _ b s E ltac:(lia)) as Hv.
  assert (Hx : b <> x2d /\ b <> x30) by (split; intros ->; vm_compute in Hb; done).
  assert (Es : i64_to_string z = if z <? 0 then x2d :: b :: s else b :: s).
  { unfold i64_to_string. rewrite <- E. destruct (Z.ltb_spec z 0); repeat f_equal; lia. }
  rewrite Es. destruct (Z.ltb_spec z 0).
  - rewrite bool_decide_false, bool_decide_true by done. rewrite nonzero_digit_test, Hb. cbn [negb].
    rewrite redis_i64_digits, Hv by done. unfold u64_max. destruct (Z.leb_spec (Z.abs z) (2 ^ 64 - 1)); [|lia].
    unfold i64_max. destruct (Z.ltb_spec (2 ^ 63 - 1 + 1) (Z.abs z)); [lia|].
    destruct (Z.eqb_spec (Z.abs z) (2 ^ 63 - 1 + 1)); f_equal; unfold i64_min; lia.
  - rewrite !bool_decide_false by naive_solver. rewrite nonzero_digit_test, Hb. cbn [negb].
    rewrite redis_i64_digits, Hv by done. unfold u64_max. destruct (Z.leb_spec (Z.abs z) (2 ^ 64 - 1)); [|lia].
    unfold i64_max. destruct (Z.ltb_spec (2 ^ 63 - 1) (Z.abs z)); [lia|]. f_equal. lia.
Qed.

Lemma parse_redis_canonical s z : parse_redis_i64_bytes s = Some z -> is_i64 z /\ s = i64_to_string z.
Proof.
  unfold parse_redis_i64_bytes, is_i64. case_bool_decide as E0.
  { intros [= <-]. by rewrite E0. }
  destruct s as [|c s]; [done|]. case_bool_decide as Ec.
  - destruct s as [|b s]; [done|]. rewrite nonzero_digit_test. destruct (is_nonzero_digit b) eqn:Hb; [|done].
    cbn [negb]. rewrite redis_i64_digits by done. destruct (digits_val 0 (b :: s)) as [m|] eqn:Hm; [|done].
    apply digits_canonical in Hm as [Hpos Hm]; [|done]. destruct (m <=? u64_max); [|done].
    unfold i64_max, i64_min. destruct (Z.ltb_spec (2 ^ 63 - 1 + 1) m); [done|].
    destruct (Z.eqb_spec m (2 ^ 63 - 1 + 1)) as [E|E]; intros [= <-]; (split; [lia|]); unfold i64_to_string.
    + change (- 2 ^ 63 <? 0) with true. replace (- - 2 ^ 63) with m by lia. by rewrite Hm, Ec.
    + destruct (Z.ltb_spec (- m) 0); [|lia]. by rewrite Z.opp_involutive, Hm, Ec.
  - rewrite nonzero_digit_test. destruct (is_nonzero_digit c) eqn:Hb; [|done].
    cbn [negb]. rewrite redis_i64_digits by done. destruct (digits_val 0 (c :: s)) as [m|] eqn:Hm; [|done].
    apply digits_canonical in Hm as [Hpos Hm]; [|done]. destruct (m <=? u64_max); [|done].
    unfold i64_max, i64_min. destruct (Z.ltb_spec (2 ^ 63 - 1) m); [done|]. intros [= <-].
    split; [lia|]. unfold i64_to_string. by destruct (Z.ltb_spec m 0); [lia|].
Qed.

(** The integer parser of BITPOS accepts exactly the canonical decimal
    strings of the 64-bit integers, and reads the number they print. *)
Theorem parse_redis_i64_roundtrip (s : bytes) (z : Z) :
  parse_redis_i64_bytes s = Some z <-> is_i64 z /\ s = i64_to_string z.
Proof.
  split; [apply parse_redis_canonical|]. intros [Hz ->]. by apply parse_redis_printed.
Qed.

(** ** The buffer of BITFIELD *)

Definition op_span (op : BitFieldSubCommand) : Z * BitFieldEncoding :=
  match op with
  | BfGet e o => (o, e)
  | BfSet e o _ _ => (o, e)
  | BfIncrBy e o _ _ => (o, e)
  end.

(** What the parser guarantees of a subcommand. *)
Definition op_ok (op : BitFieldSubCommand) : Prop :=
  let '(o, e) := op_span op in
  0 <= o /\ enc_ok e /\ (o + (width e - 1)) / 8 + 1 <= MAX_BITFIELD_STRING_BYTES.

Lemma op_ok_end op : op_ok op -> end_bit op = Some ((op_span op).1 + (width (op_span op).2 - 1)).
Proof.
  intros Hop. unfold op_ok in Hop. unfold end_bit. destruct op as [e o|e o v w|e o v w]; cbn in *;
    destruct (Z.leb_spec (o + (width e - 1)) u64_max) as [|Hgt]; try done;
    exfalso; unfold MAX_BITFIELD_STRING_BYTES, u64_max in *; pose proof (div_mod_8 (o + (width e - 1))); lia.
Qed.

Lemma highest_covers ops : Forall op_ok ops -> forall m0,
  exists r, foldl (fun m op =>
    match (if is_write op then end_bit op else None), m with
    | Some z, Some m => Some (Z.max m z)
    | Some z, None => Some z
    | None, m => m
    end) m0 ops = r /\
  (forall z, m0 = Some z -> exists z', r = Some z' /\ z <= z') /\
  (forall op, op ∈ ops -> is_write op = true ->
     exists z', r = Some z' /\ (op_span op).1 + (width (op_span op).2 - 1) <= z').
Proof.
  induction 1 as [|op ops Hop Hops IH]; intros m0; cbn [foldl].
  { eexists. split; [done|]. split; [eauto with lia|]. intros op Hin. by apply not_elem_of_nil in Hin. }
  destruct (IH (match (if is_write op then end_bit op else None), m0 with
    | Some z, Some m => Some (Z.max m z) | Some z, None => Some z | None, m => m end)) as (r & -> & Hm & Hw).
  exists r. split; [done|]. rewrite op_ok_end in Hm by done. destruct (is_write op) eqn:Ew.
  - split.
    + intros z ->. destruct (Hm _ eq_refl) as (z' & -> & ?). eexists. split; [done|lia].
    + intros op' [->|Hin]%elem_of_cons Hw'; [|by apply Hw].
      destruct m0 as [z0|]; destruct (Hm _ eq_refl) as (z' & -> & ?); eexists; (split; [done|lia]).
  - split; [intros z ->; by apply Hm|]. intros op' [->|Hin]%elem_of_cons Hw'; [congruence|by apply Hw].
Qed.

Lemma blen_prepare ops s : blen s <= blen (prepare_write_buffer ops s).
Proof.
  unfold prepare_write_buffer. destruct (highest_write_end_bit ops) as [z|]; [|lia].
  destruct (Z.ltb_spec (blen s) (Z.shiftr z 3 + 1)); [|lia]. rewrite blen_grow by lia. lia.
Qed.

(** Before the first subcommand runs, BITFIELD has grown the string so that
    every field it will write lies inside, and growing changes no bit: no write
    indexes past the end of the buffer. *)
Theorem bitfield_writes_in_bounds (ops : list BitFieldSubCommand) (s : bytes) : Forall op_ok ops ->
  (forall op, op ∈ ops -> is_write op = true ->
     0 <= (op_span op).1 /\ (op_span op).1 + width (op_span op).2 <= 8 * blen (prepare_write_buffer ops s)) /\
  forall i, bit_at (prepare_write_buffer ops s) i = bit_at s i.
Proof.
  intros Hok. destruct (highest_covers ops Hok None) as (r & Hr & _ & Hw). fold (highest_write_end_bit ops) in Hr.
  unfold prepare_write_buffer. rewrite Hr. split.
  - intros op Hin Hwr. destruct (Hw op Hin Hwr) as (z & -> & Hz).
    pose proof (proj1 (Forall_forall _ _) Hok op Hin) as Hop. unfold op_ok in Hop.
    destruct (op_span op) as [o e]. cbn in *. split; [lia|]. rewrite shiftr_3.
    pose proof (div_mod_8 z). destruct (Z.ltb_spec (blen s) (z / 8 + 1)); [rewrite blen_grow by lia|]; lia.
  - intros i. destruct r as [z|]; [|done]. destruct (_ <? _); [apply bit_at_grow|done].
Qed.

Lemma bitfield_writes_in_bounds_witness :
  16 + 8 <= 8 * blen (prepare_write_buffer [BfIncrBy (mkBitFieldEncoding true 8) 16 1 Wrap] []).
Proof.
  apply (proj1 (bitfield_writes_in_bounds [BfIncrBy (mkBitFieldEncoding true 8) 16 1 Wrap] []
    ltac:(repeat constructor; by vm_compute)) (BfIncrBy (mkBitFieldEncoding true 8) 16 1 Wrap)); [by left|done].
Defined.
