(* ===== verification/HllCmd.v ===== *)
(** * HllCmd: PFADD and PFCOUNT.

    Models src/cache_cat/src/protocol/string/fadd.rs and pfcount.rs. A
    HyperLogLog is a string value in the format of Hll.v. *)

From S2P Require Import Prelude Text F64 Reply Args SortedSet Mocha Ops Store Refine StringCmd Bits Hll.
From Stdlib Require Import Strings.Byte.

Definition WRONG_HLL_TYPE : bytes := str "WRONGTYPE Key is not a valid HyperLogLog string value.".
Definition CORRUPTED_HLL : bytes := str "INVALIDOBJ Corrupted HLL object detected".
Definition WRONG_VALUE_TYPE : bytes := str "WRONGTYPE Operation against a key holding the wrong kind of value".

(** ** Parsers *)

Definition pfadd_request (items : list Value) : parsed Operation :=
  if argc items <? 2 then Err (WrongArgCount (str "PFADD"))
  else
    let? key := string_item items 1 (str "key") in
    let? elements := strings_from items 2 (InvalidArgument (str "element")) in
    Ok (Base (PfAdd (mkPfAddReq key elements))).

Definition pfcount_operation (items : list Value) : parsed ReadOperation :=
  if argc items <? 2 then Err (WrongArgCount (str "PFCOUNT"))
  else
    let? keys := strings_from items 1 (InvalidArgument (str "key")) in
    Ok (RPFCount (mkPfcountParams keys)).

(** ** PFADD *)

Definition invalid_hll : Value := Error WRONG_HLL_TYPE.
Definition corrupted_hll : Value := Error CORRUPTED_HLL.

Definition hll_error (e : HllDecodeError) : Value :=
  match e with NotHll => invalid_hll | Corrupted => corrupted_hll end.

(** The loop over the elements. *)
Definition pfadd_loop (hll : RedisHll) (elements : list bytes) : RedisHll * bool :=
  foldl (fun '(hll, updated) element =>
    let '(hll, raised) := hll_add hll element in (hll, (updated || raised)%bool)) (hll, false) elements.

(** The string arm of [mutate]: the new string, if it changes, and the reply. *)
Definition pfadd_string (raw : bytes) (elements : list bytes) : option bytes * Value :=
  match validate_header raw with
  | Err _ => (None, invalid_hll)
  | Ok _ =>
      match elements with
      | [] => (None, Integer 0)
      | _ =>
          match hll_decode raw with
          | Err e => (None, hll_error e)
          | Ok hll =>
              let '(hll, updated) := pfadd_loop hll elements in
              if negb updated then (None, Integer 0)
              else (Some (into_bytes (invalidate_cache hll)), Integer 1)
          end
      end
  end.

Definition pfadd_mutate (cmd : PfAddReq) (entry : EntrySnapshot MyValue) (write_clock : Z) (h : Heap) : mutation :=
  match data (value entry) with
  | VString raw =>
      match pfadd_string raw (pfadd_elements cmd) with
      | (None, r) => (h, (MAbort, r))
      | (Some s, r) => (h, (MInsert (my_value_new (VString s)) (get_expire_policy entry), r))
      end
  | VInt _ => (h, (MAbort, invalid_hll))
  | _ => (h, (MAbort, Error WRONG_VALUE_TYPE))
  end.

Definition pfadd_fresh (elements : list bytes) : bytes :=
  into_bytes (invalidate_cache (hll_adds hll_new elements)).

Definition pfadd_init (cmd : PfAddReq) (h : Heap) : mutation :=
  (h, (MInsert (my_value_new (VString (pfadd_fresh (pfadd_elements cmd)))) Persistent, Integer 1)).

#[global] Instance pfadd_compute : ComputeCommand PfAddReq := {
  key := pfadd_key;
  into_base_op := PfAdd;
  mutate := pfadd_mutate;
  init := pfadd_init
}.

Definition p_f_add (c : MyCache) (param : PfAddReq) (u : Update) := execute_compute c param u.

(** ** PFCOUNT *)

Definition pfcount_string (raw : bytes) : Value :=
  match cached_cardinality raw with
  | Err e => hll_error e
  | Ok (Some n) => Integer (u64_as_i64 n)
  | Ok None =>
      match hll_decode raw with
      | Err e => hll_error e
      | Ok hll => Integer (u64_as_i64 (cardinality hll))
      end
  end.

Definition pfcount_single (v : option (EntrySnapshot MyValue)) : Value :=
  match v with
  | None => Integer 0
  | Some e =>
      match data (value e) with
      | VString raw => pfcount_string raw
      | VInt _ => invalid_hll
      | _ => protocol_error WrongType
      end
  end.

(** The loop over the keys; [Err] is an early return. *)
Fixpoint pfcount_loop (union : RedisHll) (vs : list (option (EntrySnapshot MyValue))) : result RedisHll Value :=
  match vs with
  | [] => Ok union
  | None :: vs' => pfcount_loop union vs'
  | Some e :: vs' =>
      match data (value e) with
      | VString raw =>
          match hll_decode raw with
          | Err e => Err (hll_error e)
          | Ok hll => pfcount_loop (hll_merge union hll) vs'
          end
      | VInt _ => Err invalid_hll
      | _ => Err (protocol_error WrongType)
      end
  end.

Definition pfcount_execute (cmd : PfcountParams) (h : Heap) (vs : list (option (EntrySnapshot MyValue))) : Value :=
  if (length (pfcount_keys cmd) =? 1)%nat then pfcount_single (default None (head vs))
  else
    match pfcount_loop hll_new vs with
    | Err r => r
    | Ok union => Integer (u64_as_i64 (cardinality union))
    end.

#[global] Instance pfcount_read : MultiReadCommand PfcountParams := {
  rkeys := pfcount_keys; multi_execute := pfcount_execute
}.

(** ** The commands on plain values *)

#[global] Instance pfadd_pure : PureCommand PfAddReq := {
  pmutate cmd e _ :=
    match pdata (value e) with
    | PString raw =>
        match pfadd_string raw (pfadd_elements cmd) with
        | (None, r) => (MAbort, r)
        | (Some s, r) => (MInsert (pvalue_new (PString s)) (get_expire_policy e), r)
        end
    | PInt _ => (MAbort, invalid_hll)
    | _ => (MAbort, Error WRONG_VALUE_TYPE)
    end;
  pinit cmd := (MInsert (pvalue_new (PString (pfadd_fresh (pfadd_elements cmd)))) Persistent, Integer 1)
}.

(** The string of a plain entry, where there must be one. *)
Definition phll (e : EntrySnapshot PValue) : result bytes Value :=
  match pdata (value e) with
  | PString raw => Ok raw
  | PInt _ => Err invalid_hll
  | _ => Err (protocol_error WrongType)
  end.

Fixpoint pcount_loop (union : RedisHll) (es : list (option (EntrySnapshot PValue))) : result RedisHll Value :=
  match es with
  | [] => Ok union
  | None :: es' => pcount_loop union es'
  | Some e :: es' =>
      let? raw := phll e in
      match hll_decode raw with
      | Err e => Err (hll_error e)
      | Ok hll => pcount_loop (hll_merge union hll) es'
      end
  end.

Definition pcount (es : list (option (EntrySnapshot PValue))) : Value :=
  match es with
  | [None] => Integer 0
  | [Some e] => match phll e with Err r => r | Ok raw => pfcount_string raw end
  | _ =>
      match pcount_loop hll_new es with
      | Err r => r
      | Ok union => Integer (u64_as_i64 (cardinality union))
      end
  end.

#[global] Instance pfcount_pure : PureMultiRead PfcountParams := {
  pmulti_read cmd es r := length es = length (pfcount_keys cmd) -> r = pcount es
}.

#[global] Instance pfadd_laws : ComputeLaws PfAddReq.
Proof.
  apply (compute_laws (fun _ => True)).
  - intros cmd e pv wc h Hh _ _ He Hpv. cbn [mutate pmutate pfadd_compute pfadd_pure]. unfold pfadd_mutate. cbn [value].
    shape_cases Hpv; try (by apply refuse_ok); subst. destruct (pfadd_string _ _) as [[s'|] r]; [|by apply refuse_ok].
    apply scalar_ok; try done. by apply policy_of_entry.
  - intros cmd h Hh _. cbn [init pinit pfadd_compute pfadd_pure]. by apply init_scalar_ok.
Defined.

Lemma pfcount_loop_abs h rs prs : Forall2 (abs_read h) rs prs -> forall u, pfcount_loop u rs = pcount_loop u prs.
Proof.
  induction 1 as [|r pr rs prs Hr Hrs IH]; intros u; [done|]. cbn [pfcount_loop pcount_loop]. unfold phll.
  read_law Hr; subst; cbn [result_bind]; try done. destruct (hll_decode _); [|done]. apply IH.
Qed.

#[global] Instance pfcount_laws : MultiReadLaws PfcountParams.
Proof.
  constructor. intros cmd h rs prs Hh Hr Hl. cbn [multi_execute pfcount_read]. unfold pfcount_execute.
  rewrite <- Hl. destruct Hr as [|r pr rs prs Hr Hrs]; [done|]. destruct Hrs as [|r2 pr2 rs prs Hr2 Hrs].
  - cbn [length Nat.eqb head default pcount from_option id]. unfold pfcount_single, phll. read_law Hr; by subst.
  - cbn [length Nat.eqb]. unfold pcount. rewrite (pfcount_loop_abs h (r :: r2 :: rs) (pr :: pr2 :: prs)) by by repeat constructor.
    by destruct pr.
Qed.

(** ** What PFCOUNT counts *)

Lemma pfadd_loop_adds l : forall hll u,
  foldl (fun '(hll, updated) element =>
    let '(hll, raised) := hll_add hll element in (hll, (updated || raised)%bool)) (hll, u) l
  = (hll_adds hll l, (u || (pfadd_loop hll l).2)%bool).
Proof.
  assert (forall hll u u' l, foldl (fun '(hll, updated) element =>
    let '(hll, raised) := hll_add hll element in (hll, (updated || raised)%bool)) (hll, (u || u')%bool) l
    = let '(x, b) := foldl (fun '(hll, updated) element =>
    let '(hll, raised) := hll_add hll element in (hll, (updated || raised)%bool)) (hll, u') l in (x, (u || b)%bool)) as Hu.
  { intros hll u u' l'. revert hll u'. induction l' as [|e l' IH]; intros hll u'; [done|]. cbn [foldl].
    destruct (hll_add hll e) as [h' b]. by rewrite <- orb_assoc, IH. }
  induction l as [|e l IH]; intros hll u; [cbn; by rewrite orb_false_r|].
  unfold pfadd_loop. cbn [foldl hll_adds]. fold (hll_adds (hll_add hll e).1 l).
  destruct (hll_add hll e) as [h' b] eqn:E. cbn [fst]. rewrite !IH. cbn [snd]. by rewrite orb_assoc.
Qed.

Lemma hll_add_same h e : (hll_add h e).2 = false -> (hll_add h e).1 = h.
Proof. unfold hll_add. destruct (hll_pattern e). by dmatch. Qed.

Lemma pfadd_loop_same l : forall h, (pfadd_loop h l).2 = false -> hll_adds h l = h.
Proof.
  induction l as [|e l IH]; intros h; [done|]. unfold pfadd_loop. cbn [foldl hll_adds]. fold (hll_adds (hll_add h e).1 l).
  destruct (hll_add h e) as [h' b] eqn:E. rewrite pfadd_loop_adds. cbn [snd orb fst].
  intros [Hb Hl]%orb_false_iff. rewrite IH by done. pose proof (hll_add_same h e) as Hs. rewrite E in Hs. by apply Hs.
Qed.

Lemma hll_adds_app h l1 l2 : hll_adds h (l1 ++ l2) = hll_adds (hll_adds h l1) l2.
Proof. apply foldl_app. Qed.

(** The string [raw] holds the registers of [h] and no cached count. *)
Definition holds (raw : bytes) (l : list bytes) : Prop :=
  exists h, hll_decode raw = Ok h /\ hll_wf h /\ registers h = registers (hll_adds hll_new l) /\
    validate_header raw = Ok tt /\ cached_cardinality raw = Ok None.

Lemma hll_decode_header raw h : hll_decode raw = Ok h -> validate_header raw = Ok tt.
Proof. unfold hll_decode. by destruct (validate_header raw) as [[]|]. Qed.

Lemma invalidate_wf h : hll_wf h -> hll_wf (invalidate_cache h).
Proof. intros (? & ? & ? & ?). split_and!; try done. cbn [card invalidate_cache]. by rewrite length_insert. Qed.

Lemma into_bytes_header h : hll_wf h -> exists e, take 16 (into_bytes h) = write_header h e.
Proof.
  intros Hwf. unfold into_bytes. destruct (if prefer_dense h then None else encode_sparse h) as [s|] eqn:E.
  - destruct (prefer_dense h); [done|]. unfold encode_sparse in E. destruct (encode_loop _ _ _); [|done].
    apply (inj Some) in E as <-. exists HLL_SPARSE. by rewrite take_app_length' by (by rewrite length_header).
  - exists HLL_DENSE. by destruct (encode_dense_spec h Hwf) as (_ & -> & _).
Qed.

Lemma holds_stored h l : hll_wf h -> registers h = registers (hll_adds hll_new l) ->
  holds (into_bytes (invalidate_cache h)) l.
Proof.
  intros Hwf Hr. pose proof (invalidate_wf h Hwf) as Hi. pose proof (decode_into_bytes _ Hi) as Hd.
  eexists. split; [done|]. pose proof (hll_decode_header _ _ Hd) as Hv.
  split_and!; [by destruct Hi as (? & ? & ? & ?)|done|done|].
  unfold cached_cardinality. rewrite Hv. cbn [result_bind].
  destruct (into_bytes_header _ Hi) as [e He]. destruct (header_fields _ _ e Hi He) as (_ & _ & _ & _ & _ & ->).
  cbn [card invalidate_cache]. destruct Hwf as (_ & _ & _ & H8). unfold byte_at at 1.
  rewrite list_lookup_insert_eq by (rewrite H8; cbn; lia). cbn [default from_option id].
  replace (Z.land (bz (zb (Z.lor (bz (byte_at (card h) 7)) 128))) 128 =? 0) with false; [done|].
  symmetry. apply Z.eqb_neq. intros E. apply (f_equal (fun z => Z.testbit z 7)) in E. revert E.
  rewrite Z.land_spec, bz_zb_bit, Z.lor_spec by lia. change (Z.testbit 128 7) with true.
  by rewrite orb_true_r.
Qed.

(** [registers] of a run of additions depend only on the registers before. *)
Lemma hll_adds_registers l : forall h h', registers h = registers h' -> registers (hll_adds h l) = registers (hll_adds h' l).
Proof.
  induction l as [|e l IH]; intros h h' Hr; [done|]. cbn [hll_adds foldl]. apply IH. unfold hll_add.
  destruct (hll_pattern e). rewrite Hr. by dmatch.
Qed.

Lemma holds_adds l l' : hll_adds (hll_adds hll_new l) l' = hll_adds hll_new (l ++ l').
Proof. by rewrite hll_adds_app. Qed.

(** One PFADD on the string of a key, [None] being an absent key. *)
Definition pf_step (raw : option bytes) (elements : list bytes) : option bytes :=
  match raw with
  | None => Some (pfadd_fresh elements)
  | Some s => match (pfadd_string s elements).1 with Some s' => Some s' | None => Some s end
  end.

Definition pf_run (batches : list (list bytes)) : option bytes := foldl pf_step None batches.

Lemma pf_step_holds s l l' : holds s l -> exists s', pf_step (Some s) l' = Some s' /\ holds s' (l ++ l').
Proof.
  intros (h & Hd & Hwf & Hr & Hv & Hc). unfold pf_step, pfadd_string. rewrite Hv. destruct l' as [|e l']; [|set (es := e :: l')].
  { exists s. rewrite app_nil_r. split; [done|]. by exists h. }
  rewrite Hd. pose proof (pfadd_loop_adds es h false) as Ha. fold (pfadd_loop h es) in Ha. rewrite Ha. cbn [orb].
  assert (registers (hll_adds h es) = registers (hll_adds hll_new (l ++ es))) as He
    by (rewrite <- holds_adds; by apply hll_adds_registers).
  destruct (pfadd_loop h es).2 eqn:Eu; cbn [negb fst].
  - eexists. split; [done|]. apply holds_stored; [by apply hll_adds_spec|done].
  - exists s. split; [done|]. rewrite (pfadd_loop_same es h Eu) in He. exists h. split_and!; try done.
Qed.

Lemma pf_run_holds batches : match pf_run batches with
  | None => batches = []
  | Some s => holds s (concat batches)
  end.
Proof.
  induction batches as [|b batches IH] using rev_ind; [done|]. unfold pf_run. rewrite foldl_app. fold (pf_run batches).
  cbn [foldl]. rewrite concat_app. cbn [concat]. rewrite app_nil_r. destruct (pf_run batches) as [s|].
  - destruct (pf_step_holds s _ b IH) as (s' & -> & Hs). done.
  - subst batches. apply holds_stored; [apply hll_adds_spec, hll_new_wf|done].
Qed.

Lemma merge_registers u u' h h' : registers u = registers u' -> registers h = registers h' ->
  registers (hll_merge u h) = registers (hll_merge u' h').
Proof. unfold hll_merge. by intros -> ->. Qed.

(** The entries of keys that were filled by PFADD only. *)
Definition pf_entry (batches : list (list bytes)) : option (EntrySnapshot MyValue) :=
  (fun s => mkEntrySnapshot (my_value_new (VString s)) None) <$> pf_run batches.

Lemma pfcount_loop_adds runs : forall u acc, hll_wf u -> registers u = registers (hll_adds hll_new acc) ->
  exists u', pfcount_loop u (pf_entry <$> runs) = Ok u' /\
    registers u' = registers (hll_adds hll_new (acc ++ concat (concat runs))).
Proof.
  induction runs as [|run runs IH]; intros u acc Hu Hr.
  - exists u. cbn. by rewrite app_nil_r.
  - rewrite fmap_cons. cbn [pfcount_loop concat]. rewrite concat_app. unfold pf_entry at 1. pose proof (pf_run_holds run) as Hrun.
    destruct (pf_run run) as [s|]; cbn [fmap option_fmap option_map].
    + destruct Hrun as (h & Hd & Hwf & Hh & _). cbn [data value my_value_new]. rewrite Hd, app_assoc.
      apply IH; [by apply merge_wf|]. rewrite (merge_registers _ _ _ _ Hr Hh). apply merge_adds. intros; apply elem_of_app.
    + subst run. cbn [concat app]. by apply IH.
Qed.

Lemma pfcount_string_holds s l : holds s l -> pfcount_string s = Integer (u64_as_i64 (hll_count (registers (hll_adds hll_new l)))).
Proof. intros (h & Hd & _ & Hr & _ & Hc). unfold pfcount_string. rewrite Hc, Hd. unfold cardinality. by rewrite Hr. Qed.

(** C24: PFCOUNT over keys that were filled by any number of PFADD calls
    replies the estimate of one value that got all elements of all calls: it
    does not matter how the elements were split over calls and keys, whether a
    string was stored in the sparse or the dense form in between, or whether a
    call was skipped because it raised no register. *)
Theorem pfcount_of_pfadd keys h runs : length keys = length runs ->
  pfcount_execute (mkPfcountParams keys) h (pf_entry <$> runs)
  = Integer (u64_as_i64 (hll_count (registers (hll_adds hll_new (concat (concat runs)))))).
Proof.
  intros Hl. unfold pfcount_execute. cbn [pfcount_keys]. rewrite Hl. destruct runs as [|run [|run2 runs]].
  - cbn [length Nat.eqb fmap list_fmap pfcount_loop]. done.
  - cbn [length Nat.eqb]. rewrite fmap_cons. cbn [head default from_option id concat]. rewrite !app_nil_r. unfold pf_entry.
    pose proof (pf_run_holds run) as Hrun. destruct (pf_run run) as [s|]; cbn [fmap option_fmap option_map pfcount_single].
    + cbn [data value my_value_new]. by apply pfcount_string_holds.
    + subst run. cbn [concat hll_adds foldl]. by rewrite hll_count_new.
  - cbn [length Nat.eqb]. destruct (pfcount_loop_adds (run :: run2 :: runs) hll_new [] hll_new_wf eq_refl) as (u & -> & Hu).
    unfold cardinality. by rewrite Hu.
Qed.

Lemma pfcount_of_pfadd_witness :
  pfcount_execute (mkPfcountParams [str "k1"; str "k2"]) heap_empty (pf_entry <$> [[[str "a"]; [str "b"; str "a"]]; [[str "b"]]])
  = Integer (u64_as_i64 (hll_count (registers (hll_adds hll_new [str "a"; str "b"; str "a"; str "b"])))).
Proof. apply (pfcount_of_pfadd [str "k1"; str "k2"] heap_empty [[[str "a"]; [str "b"; str "a"]]; [[str "b"]]]). reflexivity. Defined.
