(* ===== verification/Memory.v ===== *)
(** * Memory: MEMORY USAGE.

    Models src/cache_cat/src/protocol/server/memory/usage.rs, the estimates of
    src/cache_cat/src/raft/types/core/size_estimate.rs and value_object.rs, and
    [SortedSet::estimated_heap_usage]. The sizes of Rust types and the
    capacities of the collections are decided by the compiler and the
    allocator, so they are parameters. *)

From S2P Require Import Prelude Text F64 Reply Args SortedSet Mocha Ops Store Refine.

(** [size_of::<T>()] for the types the estimates mention, and the capacities. *)
Class MemEnv := {
  size_usize : Z;
  size_bytes : Z;
  size_my_value : Z;
  size_list_cell : Z;
  size_set_cell : Z;
  size_hash_cell : Z;
  size_zset_cell : Z;
  size_hash_slot : Z;
  size_score_slot : Z;
  size_tree_entry : Z;
  list_capacity : loc -> Z;
  set_capacity : loc -> Z;
  hash_capacity : loc -> Z;
  zset_capacity : loc -> Z
}.

Definition usize_max : Z := u64_max.
Definition sat_add (a b : Z) : Z := Z.min (a + b) usize_max.
Definition sat_mul (a b : Z) : Z := Z.min (a * b) usize_max.

(** ** Sampling *)

(** The [for] loop: the sum and the number of the sizes taken. *)
Definition sample_sum (sizes : list Z) : Z := foldl sat_add 0 sizes.

Definition sampled_total (sizes : list Z) (total_elements samples : Z) : Z :=
  if total_elements =? 0 then 0
  else
    let target_samples := if samples =? 0 then total_elements else Z.min samples total_elements in
    if target_samples =? 0 then 0
    else
      let taken := take (Z.to_nat target_samples) sizes in
      let sampled_bytes := sample_sum taken in
      let actual_samples := Z.of_nat (length taken) in
      if actual_samples =? 0 then 0
      else if total_elements <=? actual_samples then sampled_bytes
      else Z.min (Z.min (sampled_bytes * total_elements) (2 ^ 128 - 1) / actual_samples) usize_max.

Definition bytes_size (s : bytes) : Z := Z.of_nat (length s).

Section Estimates.
Context `{MemEnv} `{Env}.

(** Two counters and the value. *)
Definition estimate_arc_allocation (size : Z) : Z := sat_add (sat_mul size_usize 2) size.

Definition estimate_list_usage (h : Heap) (l : loc) (samples : Z) : Z :=
  let list := list_at h l in
  let deque_buffer := sat_mul (list_capacity l) size_bytes in
  let payload := sampled_total (bytes_size <$> list) (Z.of_nat (length list)) samples in
  sat_add (sat_add (estimate_arc_allocation size_list_cell) deque_buffer) payload.

Definition estimate_set_usage (h : Heap) (l : loc) (samples : Z) : Z :=
  let s := set_at h l in
  let hash_table := sat_mul (set_capacity l) (sat_add size_bytes 1) in
  let payload := sampled_total (bytes_size <$> set_iter l s) (Z.of_nat (size s)) samples in
  sat_add (sat_add (estimate_arc_allocation size_set_cell) hash_table) payload.

Definition estimated_hash_value_heap_usage (v : HashValue) : Z := 0.

Definition estimate_hash_usage (h : Heap) (l : loc) (samples : Z) : Z :=
  let m := hash_at h l in
  let hash_table := sat_mul (hash_capacity l) (sat_add size_hash_slot 1) in
  let payload := sampled_total
    ((fun p => sat_add (bytes_size p.1) (estimated_hash_value_heap_usage p.2)) <$> map_iter l m) (Z.of_nat (size m)) samples in
  sat_add (sat_add (estimate_arc_allocation size_hash_cell) hash_table) payload.

(** [SortedSet::estimated_heap_usage], which samples in its own way. *)
Definition zset_heap_usage (l : loc) (z : SortedSet) (samples : Z) : Z :=
  let len := zset_len z in
  let hash_memory := sat_mul (zset_capacity l) (sat_add size_score_slot 1) in
  if len =? 0 then hash_memory
  else
    let tree_memory := sat_mul len (sat_add size_tree_entry (sat_mul size_usize 2)) in
    let sample_count := if samples =? 0 then len else Z.min samples len in
    let member_payload :=
      if sample_count =? 0 then 0
      else
        let sampled_bytes := sample_sum ((fun p => bytes_size p.2) <$> take (Z.to_nat sample_count) (tree z)) in
        if len <=? sample_count then sampled_bytes
        else Z.min (Z.min (sampled_bytes * len) (2 ^ 128 - 1) / sample_count) usize_max in
    sat_add (sat_add hash_memory tree_memory) member_payload.

Definition estimate_zset_usage (h : Heap) (l : loc) (samples : Z) : Z :=
  sat_add (estimate_arc_allocation size_zset_cell) (zset_heap_usage l (zset_at h l) samples).

Definition estimated_heap_usage (h : Heap) (v : ValueObject) (samples : Z) : Z :=
  match v with
  | VInt _ => 0
  | VString s => bytes_size s
  | VList l => estimate_list_usage h l samples
  | VHash l => estimate_hash_usage h l samples
  | VZSet l => estimate_zset_usage h l samples
  | VSet l => estimate_set_usage h l samples
  end.

(** ** The command *)

Definition DEFAULT_SAMPLES : Z := 5.

Definition memory_usage_operation (items : list Value) : parsed ReadOperation :=
  if (negb (argc items =? 3) && negb (argc items =? 5))%bool then Err (WrongArgCount (str "MEMORY USAGE"))
  else
    let? memory := string_item items 0 (str "command") in
    if negb (eq_ignore_ascii_case memory (str "MEMORY")) then Err (InvalidArgument (str "command"))
    else
      let? usage := string_item items 1 (str "subcommand") in
      if negb (eq_ignore_ascii_case usage (str "USAGE")) then Err (InvalidArgument (str "subcommand"))
      else
        let? key := string_item items 2 (str "key") in
        if argc items =? 3 then Ok (RMemoryUsage (mkMemoryUsageParams key DEFAULT_SAMPLES))
        else
          let? keyword := string_item items 3 (str "samples") in
          if negb (eq_ignore_ascii_case keyword (str "SAMPLES")) then Err (InvalidArgument (str "samples"))
          else
            let? text := string_item items 4 (str "samples") in
            if negb (bool_decide (is_Some (from_utf8 text))) then Err (InvalidArgument (str "samples"))
            else
              let? samples := ok_or (parse_u64_str text) (InvalidArgument (str "samples")) in
              Ok (RMemoryUsage (mkMemoryUsageParams key samples)).

Definition memory_usage_execute (cmd : MemoryUsageParams) (h : Heap) (v : option (EntrySnapshot MyValue)) : Value :=
  match v with
  | None => BulkString None
  | Some snapshot =>
      let size := sat_add (sat_add (sat_add size_my_value size_bytes) (bytes_size (mu_key cmd)))
        (estimated_heap_usage h (data (value snapshot)) (mu_samples cmd)) in
      Integer (if i64_max <? size then i64_max else size)
  end.

#[global] Instance memory_usage_read : ReadCommand MemoryUsageParams := {
  rkey := mu_key; execute := memory_usage_execute
}.
End Estimates.

(** The estimate itself is not specified, only its range. *)
#[global] Instance memory_usage_pure : PureRead MemoryUsageParams := {
  pread cmd e r :=
    match e with
    | None => r = BulkString None
    | Some _ => exists n, r = Integer n /\ n <= i64_max
    end
}.

#[global] Instance memory_usage_laws `{MemEnv} `{Env} : ReadLaws MemoryUsageParams.
Proof.
  constructor. intros cmd h r pr Hh Hr. cbn [pread memory_usage_pure execute memory_usage_read]. unfold memory_usage_execute.
  destruct r as [e|], pr as [pe|]; cbn in Hr; try done.
  eexists. split; [done|]. destruct (Z.ltb_spec i64_max (sat_add (sat_add (sat_add size_my_value size_bytes) (bytes_size (mu_key cmd)))
    (estimated_heap_usage h (data (value e)) (mu_samples cmd)))); lia.
Qed.

(** ** How good the sampling is *)

Definition zsum (l : list Z) : Z := foldr Z.add 0 l.

Lemma zsum_app a b : zsum (a ++ b) = zsum a + zsum b.
Proof. induction a as [|x a IH]; cbn; [done|]. fold (zsum (a ++ b)) (zsum a). lia. Qed.

Lemma zsum_range l lo hi : Forall (fun x => lo <= x <= hi) l ->
  lo * Z.of_nat (length l) <= zsum l <= hi * Z.of_nat (length l).
Proof. induction 1 as [|x l Hx Hl IH]; cbn [length zsum foldr]; [lia|]. fold (zsum l). lia. Qed.

Lemma sample_sum_exact l : forall acc, 0 <= acc -> Forall (fun x => 0 <= x) l -> acc + zsum l <= usize_max ->
  foldl sat_add acc l = acc + zsum l.
Proof.
  induction l as [|x l IH]; intros acc Ha Hf Hm; cbn [foldl zsum foldr] in *; [lia|]. fold (zsum l) in *.
  inversion_clear Hf as [|? ? Hx Hl]. assert (0 <= zsum l) by (clear -Hl; induction Hl; cbn; [done|]; fold (zsum l); lia).
  rewrite IH; unfold sat_add; try done; rewrite ?Z.min_l by lia; lia.
Qed.

(** The sampled estimate of a collection. When all elements are scanned
    ([SAMPLES 0], or at least as many samples as elements) it is the exact sum
    of the sizes; otherwise it still lies between the number of elements times
    the smallest and times the largest size, so it is exact when all elements
    have the same size. *)
Theorem sampled_total_bounds sizes samples lo hi : 0 <= samples -> 0 <= lo ->
  Forall (fun x => lo <= x <= hi) sizes -> hi * Z.of_nat (length sizes) <= usize_max ->
  let n := Z.of_nat (length sizes) in
  (samples = 0 \/ n <= samples -> sampled_total sizes n samples = zsum sizes) /\
  lo * n <= sampled_total sizes n samples <= hi * n.
Proof.
  intros Hs Hlo Hf Hmax n. subst n. pose proof (zsum_range sizes lo hi Hf) as Hsum.
  assert (forall k, sample_sum (take k sizes) = zsum (take k sizes)) as Hex.
  { intros k. unfold sample_sum. pose proof (zsum_range _ lo hi (Forall_take _ k _ Hf)) as Hk.
    rewrite sample_sum_exact; [done|lia| |].
    - eapply Forall_impl; [apply Forall_take, Hf|]. cbn. lia.
    - rewrite length_take in Hk. assert (0 <= hi \/ length sizes = 0%nat) by (destruct Hf; cbn; lia). nia. }
  unfold sampled_total. destruct (Z.eqb_spec (Z.of_nat (length sizes)) 0) as [E|E].
  { destruct sizes; [cbn; lia|cbn in E; lia]. }
  set (target := if samples =? 0 then _ else _).
  assert (0 < target <= Z.of_nat (length sizes)) as Ht by (unfold target; destruct (Z.eqb_spec samples 0); lia).
  destruct (Z.eqb_spec target 0) as [|_]; [lia|]. rewrite Hex. set (taken := take (Z.to_nat target) sizes).
  assert (Z.of_nat (length taken) = target) as Hl by (unfold taken; rewrite length_take; lia). rewrite Hl.
  destruct (Z.eqb_spec target 0) as [|_]; [lia|].
  pose proof (zsum_range taken lo hi (Forall_take _ _ _ Hf)) as Hk. rewrite Hl in Hk.
  destruct (Z.leb_spec (Z.of_nat (length sizes)) target).
  - unfold taken. rewrite take_ge by lia. split; [done|lia].
  - split.
    { intros Hall. unfold target in *. destruct (Z.eqb_spec samples 0); lia. }
    assert (0 <= zsum taken * Z.of_nat (length sizes) <= 2 ^ 128 - 1).
    { assert (usize_max * usize_max <= 2 ^ 128 - 1) by done. assert (Z.of_nat (length sizes) <= usize_max \/ hi = 0) by nia. nia. }
    rewrite (Z.min_l (zsum taken * _)) by lia. split.
    + apply Z.min_glb; [|nia]. apply Z.div_le_lower_bound; [lia|]. nia.
    + etrans; [apply Z.le_min_l|]. apply Z.div_le_upper_bound; [lia|]. nia.
Qed.

Lemma sampled_total_bounds_witness :
  sampled_total [3; 5; 4] 3 0 = 12 /\ 3 * 3 <= sampled_total [3; 5; 4] 3 2 <= 5 * 3.
Proof.
  split.
  - apply (proj1 (sampled_total_bounds [3; 5; 4] 0 3 5 ltac:(lia) ltac:(lia) ltac:(repeat constructor; lia) ltac:(done))). by left.
  - apply (sampled_total_bounds [3; 5; 4] 2 3 5); [lia|lia|repeat constructor; lia|done].
Defined.
