(* ===== verification/Reports.v ===== *)
(** * Reports: the MEMORY subcommands that report on the allocator.

    Models src/cache_cat/src/protocol/server/memory/doctor.rs, stats.rs,
    malloc_stats.rs, purge.rs and help.rs. What mimalloc reports is a parameter,
    as is the reading of its JSON by serde_json; the numbers are printed with the
    formatting of floats that Rust uses for a fixed number of digits. *)

From S2P Require Import Prelude Text F64 Reply Errors Args.
From Stdlib Require Import Strings.Byte SpecFloat.

(** ** Printing floats with a fixed number of digits *)

Definition f64_div (a b : f64) : f64 := SFdiv 53 1024 a b.

(** [m * 2^e] rounded to an integer, ties to even. *)
Definition round_half_even (m e : Z) : Z :=
  if 0 <=? e then m * 2 ^ e
  else
    let d := 2 ^ (- e) in
    let q := m / d in
    let r := m mod d in
    if (d <? 2 * r) || ((2 * r =? d) && Z.odd q) then q + 1 else q.

(** [n] with at least [w] digits. *)
Definition pad_left (w : nat) (n : Z) : bytes := let s := nat_to_string n in replicate (w - length s) x30 ++ s.

(** [format!("{:.p$}", x)]. *)
Definition format_fixed (p : nat) (x : f64) : bytes :=
  let text (n : Z) : bytes :=
    let scale := 10 ^ Z.of_nat p in
    nat_to_string (n / scale) ++ match p with O => [] | _ => x2e :: pad_left p (n mod scale) end in
  match x with
  | S754_zero s => (if s then [x2d] else []) ++ text 0
  | S754_infinity s => (if s then [x2d] else []) ++ str "inf"
  | S754_nan => str "NaN"
  | S754_finite s m e => (if s then [x2d] else []) ++ text (round_half_even (Z.pos m * 10 ^ Z.of_nat p) e)
  end.

(** ** What mimalloc reports *)

Record MiStatCount := mkMiStatCount { mi_total : Z; mi_peak : Z; mi_current : Z }.

Record MiProcessStats := mkMiProcessStats {
  rss_current : Z; rss_peak : Z; commit_current : Z; commit_peak : Z; mi_page_faults : Z
}.

Record MiMallocStats := mkMiMallocStats {
  mi_process : MiProcessStats;
  mi_reserved : MiStatCount;
  mi_committed : MiStatCount;
  mi_mmap_calls : Z;
  mi_commit_calls : Z;
  mi_purge_calls : Z;
  mi_purged : Z
}.

(** The JSON, how MEMORY STATS and MEMORY DOCTOR read it (they differ in the
    fields that may be missing), and the pieces of the printed report, each of them a
    C string or a null pointer. *)
Class Allocator := {
  stats_json : option bytes;
  stats_from_slice : bytes -> option MiMallocStats;
  doctor_from_slice : bytes -> option MiMallocStats;
  stats_print_out : list (option bytes)
}.

Definition non_negative (v : Z) : Z := if v <? 0 then 0 else v.

(** [parse] of the five commands: two words, MEMORY and the name. *)
Definition memory_parse (name : bytes) (items : list Value) : parsed unit :=
  if negb (argc items =? 2) then Err (WrongArgCount (str "MEMORY " ++ name))
  else
    let? memory := string_item items 0 (str "command") in
    if negb (eq_ignore_ascii_case memory (str "MEMORY")) then Err (InvalidArgument (str "command"))
    else
      let? sub := string_item items 1 (str "subcommand") in
      if negb (eq_ignore_ascii_case sub name) then Err (InvalidArgument (str "subcommand")) else Ok tt.

Definition stats_parse := memory_parse (str "STATS").
Definition doctor_parse := memory_parse (str "DOCTOR").
Definition malloc_stats_parse := memory_parse (str "MALLOC-STATS").
Definition purge_parse := memory_parse (str "PURGE").
Definition help_parse := memory_parse (str "HELP").

(** ** MEMORY STATS *)

Record MemoryStats := mkMemoryStats {
  st_process_rss : Z; st_process_peak_rss : Z; st_process_commit : Z; st_process_peak_commit : Z;
  st_reserved : Z; st_committed : Z; st_page_faults : Z;
  st_mmap_calls : Z; st_commit_calls : Z; st_purge_calls : Z; st_purged_bytes : Z
}.

Section Reports.
Context `{AL : Allocator}.

Definition stats_collect : option MemoryStats :=
  let* json := stats_json in
  let* raw := stats_from_slice json in
  let p := mi_process raw in
  Some (mkMemoryStats (rss_current p) (rss_peak p) (commit_current p) (commit_peak p)
          (non_negative (mi_current (mi_reserved raw))) (non_negative (mi_current (mi_committed raw))) (mi_page_faults p)
          (non_negative (mi_mmap_calls raw)) (non_negative (mi_commit_calls raw)) (non_negative (mi_purge_calls raw)) (non_negative (mi_purged raw))).

(** [push_integer]: a key and a value that saturates at the largest integer. *)
Definition push_integer (key : String.string) (v : Z) : list Value :=
  [BulkString (Some (str key)); Integer (Z.min v (2 ^ 63 - 1))].

Definition stats_value (s : MemoryStats) : Value :=
  Array (Some (
    push_integer "process.rss" (st_process_rss s) ++ push_integer "process.peak-rss" (st_process_peak_rss s) ++
    push_integer "process.commit" (st_process_commit s) ++ push_integer "process.peak-commit" (st_process_peak_commit s) ++
    push_integer "process.page-faults" (st_page_faults s) ++
    push_integer "mimalloc.reserved" (st_reserved s) ++ push_integer "mimalloc.committed" (st_committed s) ++
    push_integer "mimalloc.mmap-calls" (st_mmap_calls s) ++ push_integer "mimalloc.commit-calls" (st_commit_calls s) ++
    push_integer "mimalloc.purge-calls" (st_purge_calls s) ++ push_integer "mimalloc.purged-bytes" (st_purged_bytes s))).

Definition memory_stats_execute (items : list Value) : parsed Value :=
  let? _ := stats_parse items in
  let? s := ok_or stats_collect (InvalidArgument (str "mimalloc stats")) in
  Ok (stats_value s).

(** ** MEMORY DOCTOR *)

Definition MIB : Z := 1024 * 1024.
Definition MIN_MEMORY_FOR_DIAGNOSIS : Z := 5 * MIB.

(** 1.5 *)
Definition HIGH_PEAK_RATIO : f64 := f64_div (f64_of_Z 3) (f64_of_Z 2).

Record MemoryDoctorStats := mkDoctorStats {
  process_rss : Z; process_peak_rss : Z; process_commit : Z; process_peak_commit : Z;
  allocator_committed : Z; allocator_peak_committed : Z; purge_calls : Z; purged_bytes : Z
}.

Definition doctor_collect : option MemoryDoctorStats :=
  let* json := stats_json in
  let* raw := doctor_from_slice json in
  let p := mi_process raw in
  Some (mkDoctorStats (rss_current p) (rss_peak p) (commit_current p) (commit_peak p)
          (non_negative (mi_current (mi_committed raw))) (non_negative (mi_peak (mi_committed raw)))
          (non_negative (mi_purge_calls raw)) (non_negative (mi_purged raw))).

Definition current_memory_footprint (s : MemoryDoctorStats) : Z :=
  Z.max (Z.max (process_rss s) (process_commit s)) (allocator_committed s).

Definition ratio (numerator denominator : Z) : f64 :=
  if denominator =? 0 then f64_zero else f64_div (f64_of_Z numerator) (f64_of_Z denominator).

Definition high_peak (peak current : Z) : bool :=
  if (current =? 0) || (peak =? 0) || (peak <=? current) then false
  else f64_lt HIGH_PEAK_RATIO (ratio peak current).

Inductive MemoryIssue :=
| HighProcessRssPeak (current peak : Z)
| HighProcessCommitPeak (current peak : Z)
| HighAllocatorCommitPeak (current peak : Z).

Inductive MemoryDoctorReport :=
| TooLittleMemory (footprint : Z)
| Healthy (stats : MemoryDoctorStats)
| Issues (stats : MemoryDoctorStats) (issues : list MemoryIssue).

Definition diagnose (s : MemoryDoctorStats) : MemoryDoctorReport :=
  let footprint := current_memory_footprint s in
  if footprint <? MIN_MEMORY_FOR_DIAGNOSIS then TooLittleMemory footprint
  else
    let issues :=
      (if high_peak (process_peak_rss s) (process_rss s) then [HighProcessRssPeak (process_rss s) (process_peak_rss s)] else []) ++
      (if high_peak (process_peak_commit s) (process_commit s) then [HighProcessCommitPeak (process_commit s) (process_peak_commit s)] else []) ++
      (if high_peak (allocator_peak_committed s) (allocator_committed s)
       then [HighAllocatorCommitPeak (allocator_committed s) (allocator_peak_committed s)] else []) in
    match issues with [] => Healthy s | _ => Issues s issues end.

Definition human_bytes (n : Z) : bytes :=
  let scaled (unit_ : Z) (name : bytes) := format_fixed 1 (f64_div (f64_of_Z n) (f64_of_Z unit_)) ++ name in
  if 2 ^ 40 <=? n then scaled (2 ^ 40) (str " TiB")
  else if 2 ^ 30 <=? n then scaled (2 ^ 30) (str " GiB")
  else if 2 ^ 20 <=? n then scaled (2 ^ 20) (str " MiB")
  else if 2 ^ 10 <=? n then scaled (2 ^ 10) (str " KiB")
  else nat_to_string n ++ str " B".

Definition newline : bytes := [x0a].

(** [write_report]. *)
Definition issue_report (i : MemoryIssue) : bytes :=
  let body (head : bytes) (metric : bytes) (current peak : Z) :=
    head ++ newline ++ str "   Current " ++ metric ++ str ": " ++ human_bytes current ++ newline ++
    str "   Peak " ++ metric ++ str ": " ++ human_bytes peak ++ newline ++
    str "   Peak/current ratio: " ++ format_fixed 2 (ratio peak current) ++ newline ++ newline in
  match i with
  | HighProcessRssPeak current peak =>
      body (str " * Peak process RSS: the process previously used substantially more resident memory than it uses now.") (str "RSS") current peak
  | HighProcessCommitPeak current peak =>
      body (str " * Peak process commit: the process previously had substantially more committed memory than it has now.") (str "commit") current peak
  | HighAllocatorCommitPeak current peak =>
      body (str " * Peak allocator commit: mimalloc previously had substantially more committed memory than it has now.") (str "committed") current peak
  end.

Definition write_summary (s : MemoryDoctorStats) : bytes :=
  str "Process RSS: " ++ human_bytes (process_rss s) ++
  newline ++ str "Peak process RSS: " ++ human_bytes (process_peak_rss s) ++
  newline ++ str "Process commit: " ++ human_bytes (process_commit s) ++
  newline ++ str "Peak process commit: " ++ human_bytes (process_peak_commit s) ++
  newline ++ str "Allocator committed: " ++ human_bytes (allocator_committed s) ++
  newline ++ str "Peak allocator committed: " ++ human_bytes (allocator_peak_committed s) ++
  newline ++ str "Allocator purge calls: " ++ nat_to_string (purge_calls s) ++
  newline ++ str "Allocator purged bytes: " ++ human_bytes (purged_bytes s) ++ newline.

Definition render (r : MemoryDoctorReport) : bytes :=
  match r with
  | TooLittleMemory footprint =>
      str "This instance is using very little memory, so MEMORY DOCTOR does not have enough data to perform meaningful diagnostics." ++
      newline ++ newline ++ str "Observed memory footprint: " ++ human_bytes footprint ++ str "." ++ newline
  | Healthy stats =>
      str "Hi Sam, I can't find any obvious memory issue in this instance." ++ newline ++ newline ++ write_summary stats ++
      newline ++ str "The available mimalloc and process statistics do not indicate a significant historical memory peak." ++ newline
  | Issues stats issues =>
      str "MEMORY DOCTOR detected possible memory issues in this instance:" ++ newline ++ newline ++
      concat (issue_report <$> issues) ++ str "Memory summary:" ++ newline ++ write_summary stats ++
      newline ++ str "If the memory peak was temporary, MEMORY PURGE may help mimalloc return unused committed pages to the operating system." ++ newline
  end.

Definition doctor_value (r : MemoryDoctorReport) : Value := VerbatimString (str "txt") (render r).

Definition memory_doctor_execute (items : list Value) : parsed Value :=
  let? _ := doctor_parse items in
  let? s := ok_or doctor_collect (InvalidArgument (str "mimalloc stats")) in
  Ok (doctor_value (diagnose s)).

(** ** MEMORY MALLOC-STATS, PURGE and HELP *)

(** [output_callback], and the report it collects. *)
Definition output_callback (output : bytes) (msg : option bytes) : bytes :=
  match msg with None => output | Some m => output ++ m end.
Definition malloc_collect : bytes := foldl output_callback [] stats_print_out.

Definition malloc_stats_execute (items : list Value) : parsed Value :=
  let? _ := malloc_stats_parse items in
  Ok (VerbatimString (str "txt") malloc_collect).

(** [mi_collect(true)] frees memory and changes nothing else. *)
Definition memory_purge_execute (items : list Value) : parsed Value :=
  let? _ := purge_parse items in Ok value_ok.

Definition help_line (line : String.string) : Value := BulkString (Some (str line)).

Definition memory_help : Value :=
  Array (Some [
    help_line "MEMORY <subcommand> [<arg> [value] [opt] ...]. Subcommands are:";
    help_line "DOCTOR";
    help_line "    Return memory problems reports.";
    help_line "MALLOC-STATS";
    help_line "    Return internal statistics report from the memory allocator.";
    help_line "PURGE";
    help_line "    Attempt to purge dirty pages for reclamation by the allocator.";
    help_line "STATS";
    help_line "    Return information about the memory usage of the server.";
    help_line "USAGE <key> [SAMPLES <count>]";
    help_line "    Return memory in bytes used by <key> and its value. Nested values are";
    help_line "    sampled up to <count> times (default: 5, 0 means sample all).";
    help_line "HELP";
    help_line "    Prints this help."]).

Definition memory_help_execute (items : list Value) : parsed Value :=
  let? _ := help_parse items in Ok memory_help.
End Reports.

(** ** The printed sizes

    A float whose mantissa has 53 bits is exact, and so is its quotient by a power
    of two; the only rounding is that of the last digit printed. *)

Lemma digits2_53 p : 2 ^ 52 <= Z.pos p < 2 ^ 53 -> digits2_pos p = 53%positive.
Proof. intros H. apply Pos2Z.inj. rewrite digits2_log2, (Z.log2_unique _ 52) by lia. done. Qed.

Lemma shr_53 p e : 2 ^ 52 <= Z.pos p < 2 ^ 53 -> -1074 <= e ->
  shr_fexp 53 1024 (Z.pos p) e loc_Exact = (Build_shr_record (Z.pos p) false false, e).
Proof.
  intros Hp He. unfold shr_fexp, Zdigits2, fexp. rewrite digits2_53 by done.
  replace (Z.max (53 + e - 53) (emin 53 1024) - e) with 0 by (unfold emin; lia). done.
Qed.

(** A mantissa of 53 bits is not rounded. *)
Lemma round_aux_53 s p e : 2 ^ 52 <= Z.pos p < 2 ^ 53 -> -1074 <= e <= 971 ->
  binary_round_aux 53 1024 s (Z.pos p) e loc_Exact = S754_finite s p e.
Proof.
  intros Hp He. unfold binary_round_aux. rewrite shr_53 by (done || lia). cbn [loc_of_shr_record shr_m shr_r shr_s round_nearest_even].
  rewrite shr_53 by (done || lia). cbn [shr_m]. destruct (Z.leb_spec e (1024 - 53)); [done|lia].
Qed.

Lemma f64_of_Z_exact n : 0 < n < 2 ^ 53 ->
  exists a p, 0 <= a <= 52 /\ Z.pos p = n * 2 ^ a /\ 2 ^ 52 <= Z.pos p < 2 ^ 53 /\ f64_of_Z n = S754_finite false p (- a).
Proof.
  intros Hn. destruct n as [|n|]; [lia| |lia].
  pose proof (Z.log2_spec (Z.pos n) ltac:(lia)) as Hl. pose proof (Z.log2_nonneg (Z.pos n)).
  pose proof (Z.log2_lt_pow2 (Z.pos n) 53 ltac:(lia)) as [Hlt _]. specialize (Hlt ltac:(lia)).
  set (l := Z.log2 (Z.pos n)) in *.
  exists (52 - l). 
  assert (2 ^ 52 <= Z.pos n * 2 ^ (52 - l) < 2 ^ 53) as Hb.
  { replace (2 ^ 52) with (2 ^ l * 2 ^ (52 - l)) at 1 by (rewrite <- Z.pow_add_r by lia; f_equal; lia).
    replace (2 ^ 53) with (2 ^ Z.succ l * 2 ^ (52 - l)) by (rewrite <- Z.pow_add_r by lia; f_equal; lia).
    split; [apply Z.mul_le_mono_nonneg_r|apply Z.mul_lt_mono_pos_r]; try lia. }
  unfold f64_of_Z, binary_normalize, binary_round, fexp. rewrite digits2_log2. fold l.
  replace (Z.max (l + 1 + 0 - 53) (emin 53 1024)) with (l - 52) by (unfold emin; lia).
  unfold shl_align. destruct (l - 52 - 0) as [|d|d] eqn:Ed; [|lia|].
  - exists n. replace (52 - l) with 0 in * by lia. split; [lia|]. split; [lia|]. split; [lia|]. apply round_aux_53; lia.
  - assert (Z.pos (Pos.iter xO n d) = Z.pos n * 2 ^ (52 - l)) as Hs.
    { rewrite iter_xO. do 2 f_equal. lia. }
    exists (Pos.iter xO n d). split; [lia|]. split; [done|]. split; [by rewrite Hs|].
    replace (l - 52) with (- (52 - l)) by lia. apply round_aux_53; [by rewrite Hs|lia].
Qed.

(** Dividing by a power of two is exact. *)
Lemma f64_div_pow2 n k : 0 < n < 2 ^ 53 -> 0 <= k <= 52 ->
  exists a p, 0 <= a /\ Z.pos p = n * 2 ^ a /\ f64_div (f64_of_Z n) (f64_of_Z (2 ^ k)) = S754_finite false p (- (a + k)).
Proof.
  intros Hn Hk. destruct (f64_of_Z_exact n Hn) as (a & p & Ha & Hp & Hb & ->).
  assert (0 < 2 ^ k < 2 ^ 53) as Hk2 by (split; [apply Z.pow_pos_nonneg|apply Z.pow_lt_mono_r]; lia).
  destruct (f64_of_Z_exact _ Hk2) as (b & q & Hb0 & Hq & Hqb & ->).
  exists a, p. split; [lia|]. split; [done|].
  assert (k + b = 52 /\ Z.pos q = 2 ^ 52) as [Hkb Hq52].
  { rewrite <- Z.pow_add_r in Hq by lia. rewrite Hq in Hqb. destruct Hqb as [H1 H2].
    apply Z.pow_le_mono_r_iff in H1; [|lia..]. apply Z.pow_lt_mono_r_iff in H2; [|lia..].
    assert (k + b = 52) as E by lia. by rewrite Hq, E. }
  unfold f64_div, SFdiv, SFdiv_core_binary, Zdigits2, fexp. rewrite !digits2_53 by done.
  replace (Z.min (Z.max (53 + - a - (53 + - b) - 53) (emin 53 1024)) (- a - - b)) with (b - a - 53) by (unfold emin; lia).
  replace (- a - - b - (b - a - 53)) with 53 by lia. rewrite Hq52.
  replace (Z.div_eucl (Z.shiftl (Z.pos p) 53) (2 ^ 52)) with (Z.pos p~0, 0); cycle 1.
  { rewrite Z.shiftl_mul_pow2 by lia. apply injective_projections; cbn [fst snd].
    - change (Z.div_eucl _ _).1 with (Z.pos p * 2 ^ 53 / 2 ^ 52). Z.div_mod_to_equations. lia.
    - change (Z.div_eucl _ _).2 with (Z.pos p * 2 ^ 53 mod 2 ^ 52). Z.div_mod_to_equations. lia. }
  cbn [xorb]. change (new_location (2 ^ 52) 0) with loc_Exact.
  unfold binary_round_aux.
  replace (shr_fexp 53 1024 (Z.pos p~0) (b - a - 53) loc_Exact) with (Build_shr_record (Z.pos p) false false, b - a - 52); cycle 1.
  { unfold shr_fexp, Zdigits2, fexp. cbn [digits2_pos]. rewrite digits2_53 by done.
    replace (Z.max _ (emin 53 1024) - _) with 1 by (unfold emin; lia). cbn. f_equal. lia. }
  cbn [loc_of_shr_record shr_m shr_r shr_s round_nearest_even]. rewrite shr_53 by (done || lia). cbn [shr_m].
  destruct (Z.leb_spec (b - a - 52) (1024 - 53)); [|lia]. f_equal. lia.
Qed.

Lemma ltb_scale x y c : 0 < c -> (x * c <? y * c) = (x <? y).
Proof. intros Hc. apply eq_true_iff_eq. rewrite !Z.ltb_lt. symmetry. by apply Z.mul_lt_mono_pos_r. Qed.

Lemma eqb_scale x y c : 0 < c -> (x * c =? y * c) = (x =? y).
Proof. intros Hc. apply eq_true_iff_eq. rewrite !Z.eqb_eq. apply Z.mul_cancel_r. lia. Qed.

Lemma round_half_even_scale m e a : 0 <= e -> 0 <= a -> round_half_even (m * 2 ^ a) (- (a + e)) = round_half_even m (- e).
Proof.
  intros He Ha. pose proof (Z.pow_pos_nonneg 2 a ltac:(lia) Ha) as Hp. unfold round_half_even.
  destruct (Z.leb_spec 0 (- (a + e))) as [H0|H0].
  { assert (a = 0) as -> by lia. assert (e = 0) as -> by lia. change (- (0 + 0)) with 0. change (- 0) with 0. cbn [Z.leb Z.compare]. rewrite !Z.pow_0_r. lia. }
  rewrite !Z.opp_involutive, Z.pow_add_r, (Z.mul_comm (2 ^ a)) by lia. pose proof (Z.pow_pos_nonneg 2 e ltac:(lia) He).
  rewrite Z.div_mul_cancel_r, Z.mul_mod_distr_r, (Z.mul_assoc 2), ltb_scale, eqb_scale by lia.
  destruct (Z.leb_spec 0 (- e)) as [H1|H1]; [|done]. assert (e = 0) as -> by lia. by rewrite Z.div_1_r, Z.mod_1_r, Z.mul_1_r.
Qed.

(** Rounding is off by half a unit at most. *)
Lemma round_half_even_close m e : 0 <= e -> 2 * Z.abs (round_half_even m (- e) * 2 ^ e - m) <= 2 ^ e.
Proof.
  intros He. unfold round_half_even. pose proof (Z.pow_pos_nonneg 2 e ltac:(lia) He) as Hp.
  destruct (Z.leb_spec 0 (- e)) as [H1|H1]. { assert (e = 0) as -> by lia. cbn -[Z.mul Z.sub]. lia. }
  rewrite Z.opp_involutive. pose proof (Z.div_mod m (2 ^ e) ltac:(lia)) as Hd. pose proof (Z.mod_pos_bound m (2 ^ e) Hp).
  destruct (Z.ltb_spec (2 ^ e) (2 * (m mod 2 ^ e))); [cbn [orb]; nia|].
  destruct (Z.eqb_spec (2 * (m mod 2 ^ e)) (2 ^ e)); cbn [orb andb]; [destruct (Z.odd _)|]; nia.
Qed.

Lemma pad_left_digit d : 0 <= d -> pad_left 1 d = nat_to_string d.
Proof.
  intros Hd. unfold pad_left. pose proof (parse_nat_to_string d Hd). by destruct (nat_to_string d).
Qed.

Lemma format_scaled n k : 0 < n < 2 ^ 53 -> 0 <= k <= 52 ->
  let N := round_half_even (n * 10) (- k) in
  format_fixed 1 (f64_div (f64_of_Z n) (f64_of_Z (2 ^ k))) = nat_to_string (N / 10) ++ [x2e] ++ nat_to_string (N mod 10).
Proof.
  intros Hn Hk. destruct (f64_div_pow2 n k Hn Hk) as (a & p & Ha & Hp & ->). unfold format_fixed. change (10 ^ Z.of_nat 1) with 10.
  rewrite pad_left_digit by (apply Z.mod_pos_bound; lia). rewrite Hp.
  replace (n * 2 ^ a * 10) with (n * 10 * 2 ^ a) by lia. rewrite round_half_even_scale by lia. done.
Qed.

(** The units of [human_bytes]: their exponents and names. *)
Definition byte_units : list (Z * bytes) := [(40, str " TiB"); (30, str " GiB"); (20, str " MiB"); (10, str " KiB")].

(** The sizes that MEMORY DOCTOR prints. Below a kibibyte the number of bytes
    is exact. From there the size is given in the largest unit that is not above
    it, with one digit after the point, and what is printed is off by half of that
    digit at most: the divisions in floating point add no error of their own. *)
Theorem human_bytes_accurate (n : Z) : 0 <= n < 2 ^ 53 ->
  (n < 2 ^ 10 /\ human_bytes n = nat_to_string n ++ str " B") \/
  exists k name N, (k, name) ∈ byte_units /\ 2 ^ k <= n /\ (k < 40 -> n < 2 ^ (k + 10)) /\
    human_bytes n = nat_to_string (N / 10) ++ [x2e] ++ nat_to_string (N mod 10) ++ name /\
    2 * Z.abs (N * 2 ^ k - 10 * n) <= 2 ^ k.
Proof.
  intros Hn. unfold human_bytes.
  assert (forall k name, (k, name) ∈ byte_units -> 0 <= k <= 52 -> 2 ^ k <= n -> (k < 40 -> n < 2 ^ (k + 10)) ->
    exists k' name' N, (k', name') ∈ byte_units /\ 2 ^ k' <= n /\ (k' < 40 -> n < 2 ^ (k' + 10)) /\
      format_fixed 1 (f64_div (f64_of_Z n) (f64_of_Z (2 ^ k))) ++ name = nat_to_string (N / 10) ++ [x2e] ++ nat_to_string (N mod 10) ++ name' /\
      2 * Z.abs (N * 2 ^ k' - 10 * n) <= 2 ^ k') as Hu.
  { intros k name Hin Hk Hle Hlt. exists k, name, (round_half_even (n * 10) (- k)). do 3 (split; [done|]). split.
    - rewrite format_scaled by lia. by rewrite <- !app_assoc.
    - pose proof (round_half_even_close (n * 10) k ltac:(lia)). by rewrite (Z.mul_comm 10). }
  destruct (Z.leb_spec (2 ^ 40) n); [right; apply (Hu 40); [repeat constructor|lia..]|].
  destruct (Z.leb_spec (2 ^ 30) n); [right; apply (Hu 30); [repeat constructor|lia..]|].
  destruct (Z.leb_spec (2 ^ 20) n); [right; apply (Hu 20); [repeat constructor|lia..]|].
  destruct (Z.leb_spec (2 ^ 10) n); [right; apply (Hu 10); [repeat constructor|lia..]|]. left. by split; [lia|].
Qed.

Lemma human_bytes_accurate_witness :
  exists k name N, (k, name) ∈ byte_units /\ 2 ^ k <= 1600000 /\
    human_bytes 1600000 = nat_to_string (N / 10) ++ [x2e] ++ nat_to_string (N mod 10) ++ name /\
    2 * Z.abs (N * 2 ^ k - 10 * 1600000) <= 2 ^ k.
Proof.
  destruct (human_bytes_accurate 1600000) as [[H _]|(k & name & N & H1 & H2 & _ & H3 & H4)]; [lia|lia|].
  exists k, name, N. auto.
Defined.

Example human_bytes_mib : human_bytes 1600000 = str "1.5 MiB".
Proof. vm_compute. reflexivity. Qed.

(** One byte short of a unit is printed as a thousand and twenty-four of the
    smaller one. *)
Example human_bytes_carry : human_bytes (2 ^ 20 - 1) = str "1024.0 KiB".
Proof. vm_compute. reflexivity. Qed.

(** A process that has shrunk from 30 to 10 mebibytes. *)
Definition shrunk : MemoryDoctorStats := mkDoctorStats (10 * MIB) (30 * MIB) (10 * MIB) (15 * MIB) MIB MIB 0 0.

Example doctor_shrunk : diagnose shrunk = Issues shrunk [HighProcessRssPeak (10 * MIB) (30 * MIB)].
Proof. vm_compute. reflexivity. Qed.

Example doctor_ratio : format_fixed 2 (ratio (30 * MIB) (7 * MIB)) = str "4.29".
Proof. vm_compute. reflexivity. Qed.
