(* ===== verification/Series.v ===== *)
(** * Series: the estimate of a HyperLogLog is computed by loops that stop.

    [hll_sigma] and [hll_tau] of src/cache_cat/src/raft/types/core/mocha/hll.rs
    sum a series until the sum no longer changes. Hll gives the loops fuel; here
    they are shown to stop within it on the arguments that [hll_count] passes.
    The sums are bounded through every rounding: what is at most a double [t]
    is rounded to at most [t]. The terms of the first series vanish because the
    powers of an argument below one underflow within a few dozen turns, those
    of the second one because the weights do, after 1075 halvings. *)

From S2P Require Import Prelude Text F64 Bits Hll Reports.
From Stdlib Require Import SpecFloat.

(** ** Rounding *)

(** What is left of [m0] after [k] bits have been dropped, and the last of
    them; [u] is the least integer that is not below the number. *)
Definition dropped (m0 u k : Z) (x : shr_record) : Prop :=
  0 <= shr_m x /\ shr_m x * 2 ^ k <= m0 /\ (shr_r x = true -> shr_m x * 2 ^ k < u /\ (0 < k -> (2 * shr_m x + 1) * 2 ^ k <= 2 * m0)).

Lemma dropped_step m0 u k x : m0 <= u -> 0 <= k -> dropped m0 u k x -> dropped m0 u (k + 1) (shr_1 x).
Proof.
  intros Hu Hk (H0 & H1 & _). destruct x as [m r s]. cbn [shr_m shr_r] in *. rewrite Z.add_1_r in *. pose proof (Z.pow_pos_nonneg 2 k ltac:(lia) Hk) as Hp.
  unfold dropped. rewrite Z.pow_succ_r by done. destruct m as [|[p|p|]|p]; cbn [shr_1 shr_m shr_r]; try lia; split_and!; try lia; intros; try done; split; nia.
Qed.

Definition up (m : Z) (l : location) : Z := match l with loc_Exact => m | _ => m + 1 end.

Lemma shr_fexp_dropped m e l : 0 <= m -> let k := Z.max 0 (fexp 53 1024 (Zdigits2 m + e) - e) in
  exists x, shr_fexp 53 1024 m e l = (x, e + k) /\ dropped m (up m l) k x.
Proof.
  intros Hm k. unfold shr_fexp. set (n := fexp 53 1024 (Zdigits2 m + e) - e) in *.
  assert (dropped m (up m l) 0 (shr_record_of_loc m l)) as H0.
  { unfold dropped. rewrite Z.pow_0_r. destruct l as [|[]]; cbn [shr_record_of_loc shr_m shr_r up]; split_and!; try lia; intros; try done; lia. }
  assert (m <= up m l) as Hu by (destruct l; cbn; lia).
  destruct n as [|p|p] eqn:En; cbn [shr].
  - exists (shr_record_of_loc m l). split; [f_equal; lia|exact H0].
  - exists (iter_pos shr_1 p (shr_record_of_loc m l)). split; [f_equal; lia|]. replace k with (0 + Z.pos p) by lia.
    apply (shr_1_ind (dropped m (up m l))); [|done..]. intros j x Hj. by apply dropped_step.
  - exists (shr_record_of_loc m l). split; [f_equal; lia|]. replace k with 0 by lia. exact H0.
Qed.

(** Rounding to nearest goes up only when something was dropped. *)
Lemma round_up m0 u k x t : dropped m0 u k x -> m0 <= u -> 0 <= k -> u <= t * 2 ^ k ->
  0 <= round_nearest_even (shr_m x) (loc_of_shr_record x) <= t.
Proof.
  intros (H0 & H1 & H2) Hu Hk Ht. pose proof (Z.pow_pos_nonneg 2 k ltac:(lia) Hk) as Hp. destruct x as [m [|] s]; cbn [shr_m shr_r] in *.
  - destruct (H2 eq_refl) as [H3 _]. destruct s; cbn [loc_of_shr_record round_nearest_even]; [|destruct (Z.even m)]; split; nia.
  - destruct s; cbn [loc_of_shr_record round_nearest_even]; split; nia.
Qed.

Lemma digits_bound m e t q b : 0 < m -> 0 < t < 2 ^ 53 -> b <= e -> b <= q -> m * 2 ^ (e - b) <= t * 2 ^ (q - b) -> Zdigits2 m + e <= 53 + q.
Proof.
  intros Hm Ht He Hq Hle. destruct m as [|p|p]; [lia| |lia]. cbn [Zdigits2]. rewrite digits2_log2.
  pose proof (Z.log2_spec (Z.pos p) ltac:(lia)) as [Hl _]. pose proof (Z.log2_nonneg (Z.pos p)).
  assert (2 ^ (Z.log2 (Z.pos p) + (e - b)) < 2 ^ (53 + (q - b))) as Hlt.
  { rewrite !Z.pow_add_r by lia. pose proof (Z.pow_pos_nonneg 2 (e - b) ltac:(lia) ltac:(lia)). pose proof (Z.pow_pos_nonneg 2 (q - b) ltac:(lia) ltac:(lia)). nia. }
  apply Z.pow_lt_mono_r_iff in Hlt; lia.
Qed.

Lemma fexp_le d q : -1074 <= q -> d <= 53 + q -> -1074 <= fexp 53 1024 d <= q.
Proof. unfold fexp, emin. lia. Qed.

Lemma grid_split b e k : b <= e -> 0 <= k -> 2 ^ (e + k - b) = 2 ^ k * 2 ^ (e - b).
Proof. intros. rewrite <- Z.pow_add_r by lia. f_equal. lia. Qed.

(** A number that is at most the double [t * 2 ^ q] is rounded to at most it. *)
Lemma round_aux_le s m e l t q b : 0 <= m -> 0 < up m l -> 0 < t < 2 ^ 53 -> -1074 <= q <= 971 -> b <= e <= 971 -> b <= q ->
  up m l * 2 ^ (e - b) <= t * 2 ^ (q - b) ->
  match binary_round_aux 53 1024 s m e l with
  | S754_zero s' => s' = s
  | S754_finite s' m' e' => s' = s /\ -1074 <= e' /\ b <= e' /\ Z.pos m' * 2 ^ (e' - b) <= t * 2 ^ (q - b)
  | _ => False
  end.
Proof.
  intros Hm Hup Ht Hq Hbe Hbq Hle. unfold binary_round_aux. pose proof (Z.pow_pos_nonneg 2 (e - b) ltac:(lia) ltac:(lia)) as Hpe.
  assert (m <= up m l) as Hmu by (destruct l; cbn; lia).
  assert (fexp 53 1024 (Zdigits2 m + e) <= q) as Hf.
  { apply fexp_le; [lia|]. destruct (Z.eq_dec m 0) as [->|]; [|eapply (digits_bound m e t q b); try lia; nia].
    cbn [Zdigits2]. assert (Zdigits2 1 + e <= 53 + q) as H1 by (eapply (digits_bound 1 e t q b); try lia; nia). cbn in H1. lia. }
  destruct (shr_fexp_dropped m e l Hm) as (x & -> & Hx). set (k := Z.max 0 (fexp 53 1024 (Zdigits2 m + e) - e)) in *.
  assert (0 <= k) as Hk by lia. pose proof (Z.pow_pos_nonneg 2 k ltac:(lia) Hk) as Hpk.
  assert (0 <= round_nearest_even (shr_m x) (loc_of_shr_record x) /\
    round_nearest_even (shr_m x) (loc_of_shr_record x) * 2 ^ (e + k - b) <= t * 2 ^ (q - b)) as [HR0 HR].
  { rewrite grid_split by lia. destruct (Z_le_gt_dec (e + k) q) as [Hle'|Hgt].
    - assert (2 ^ (q - b) = 2 ^ (q - e - k) * 2 ^ k * 2 ^ (e - b)) as Eq by (rewrite <- !Z.pow_add_r by lia; f_equal; lia).
      rewrite Eq in *. assert (up m l <= t * 2 ^ (q - e - k) * 2 ^ k) as Hu by nia.
      pose proof (round_up _ _ k x _ Hx Hmu Hk Hu). nia.
    - assert (k = 0) as -> by lia. rewrite Z.pow_0_r in *. pose proof (round_up _ _ 0 x (up m l) Hx Hmu ltac:(lia) ltac:(lia)). nia. }
  set (R := round_nearest_even _ _) in *. destruct (shr_fexp_dropped R (e + k) loc_Exact HR0) as (y & -> & Hy0 & Hy & _).
  set (k2 := Z.max 0 (fexp 53 1024 (Zdigits2 R + (e + k)) - (e + k))) in *. pose proof (Z.pow_pos_nonneg 2 k2 ltac:(lia) ltac:(lia)) as Hpk2.
  destruct (shr_m y) as [|m'|m']; [done| |lia]. assert (0 < R) as HR1 by nia.
  assert (-1074 <= fexp 53 1024 (Zdigits2 R + (e + k)) <= q) as Hf2 by (apply fexp_le; [lia|]; apply (digits_bound R (e + k) t q b); lia).
  assert (-1074 <= fexp 53 1024 (Zdigits2 m + e)) by (unfold fexp, emin; lia).
  destruct (Z.leb_spec (e + k + k2) (1024 - 53)); [|lia]. split_and!; [done|lia|lia|]. rewrite grid_split by lia.
  pose proof (Z.pow_pos_nonneg 2 (e + k - b) ltac:(lia) ltac:(lia)). nia.
Qed.

(** The result is never a NaN, and has the sign asked for. *)
Lemma round_aux_sign s m e l : 0 <= m ->
  match binary_round_aux 53 1024 s m e l with
  | S754_zero s' | S754_infinity s' | S754_finite s' _ _ => s' = s
  | S754_nan => False
  end.
Proof.
  intros Hm. unfold binary_round_aux. destruct (shr_fexp_dropped m e l Hm) as (x & -> & Hx).
  assert (0 <= round_nearest_even (shr_m x) (loc_of_shr_record x)) as HR.
  { destruct Hx as [Hx _], x as [m' [] []]; cbn [shr_m loc_of_shr_record round_nearest_even] in *; try lia. destruct (Z.even m'); lia. }
  destruct (shr_fexp_dropped _ (e + Z.max 0 (fexp 53 1024 (Zdigits2 m + e) - e)) loc_Exact HR) as (y & -> & Hy & _).
  destruct (shr_m y); [done| |lia]. by destruct (_ <=? _).
Qed.

(** A product below a quarter of the least double is rounded to zero. *)
Lemma round_aux_tiny s m e : 0 < m -> -5000 <= e <= 0 -> m * 2 ^ (e + 5000) <= 2 ^ (5000 - 1076) -> binary_round_aux 53 1024 s m e loc_Exact = S754_zero s.
Proof.
  intros Hm He Hle. unfold binary_round_aux. destruct (shr_fexp_dropped m e loc_Exact ltac:(lia)) as (x & -> & Hx).
  assert (Zdigits2 m + e <= 53 + -1076) as Hd.
  { apply (digits_bound m e 1 (-1076) (-5000)); try lia. replace (e - -5000) with (e + 5000) by lia. exact (eq_ind_r (fun z => _ <= z) Hle (Z.mul_1_l _)). }
  assert (e <= -1076) as He2.
  { pose proof (Z.pow_pos_nonneg 2 (e + 5000) ltac:(lia) ltac:(lia)). assert (2 ^ (e + 5000) <= 2 ^ (5000 - 1076)) as Hp by nia.
    apply Z.pow_le_mono_r_iff in Hp; lia. }
  set (k := Z.max 0 _) in *. assert (e + k = -1074 /\ 2 <= k) as [Hek Hk].
  { unfold k, fexp, emin. destruct m as [|p|p]; [lia| |lia]. cbn [Zdigits2] in *. rewrite digits2_log2 in *. pose proof (Z.log2_nonneg (Z.pos p)). lia. }
  assert (4 * m <= 2 ^ k) as Hm4.
  { assert (2 ^ (5000 - 1076) = 2 ^ (k - 2) * 2 ^ (e + 5000)) as Eq by (rewrite <- Z.pow_add_r by lia; f_equal; lia).
    rewrite Eq in Hle. pose proof (Z.pow_pos_nonneg 2 (e + 5000) ltac:(lia) ltac:(lia)). replace k with (2 + (k - 2)) by lia. rewrite Z.pow_add_r by lia. nia. }
  destruct Hx as (H0 & H1 & H2), x as [m' r s']. cbn [shr_m shr_r] in *. assert (m' = 0) as -> by nia.
  assert (r = false) as ->. { destruct r; [|done]. destruct (H2 eq_refl) as [_ H3]. specialize (H3 ltac:(lia)). lia. }
  rewrite Hek. by destruct s'.
Qed.

(** ** Doubles that are not too large *)

(** At most [t * 2 ^ q] in absolute value. *)
Definition at_most (t q : Z) (v : f64) : Prop :=
  match v with
  | S754_zero _ => True
  | S754_finite _ m e => -1074 <= e <= 100 /\ Z.pos m * 2 ^ (e + 1074) <= t * 2 ^ (q + 1074)
  | _ => False
  end.

Definition nonneg (v : f64) : Prop :=
  match v with
  | S754_zero _ | S754_finite false _ _ | S754_infinity false => True
  | _ => False
  end.

Lemma round_at_most s m e l t q b : 0 <= m -> 0 < up m l -> 0 < t < 2 ^ 53 -> -1074 <= q <= 40 -> b <= e <= 971 -> b <= -1074 ->
  up m l * 2 ^ (e - b) <= t * 2 ^ (q - b) -> at_most t q (binary_round_aux 53 1024 s m e l).
Proof.
  intros Hm Hup Ht Hq He Hb Hle. pose proof (round_aux_le s m e l t q b Hm Hup Ht ltac:(lia) He ltac:(lia) Hle) as H.
  destruct (binary_round_aux _ _ _ _ _ _) as [|?| |s' m' e']; [done..|]. destruct H as (_ & H1 & H2 & H3). cbn [at_most].
  assert (Z.pos m' * 2 ^ (e' - -1074) <= t * 2 ^ (q - -1074)) as H4.
  { assert (2 ^ (e' - b) = 2 ^ (-1074 - b) * 2 ^ (e' - -1074)) as E1 by (rewrite <- Z.pow_add_r by lia; f_equal; lia).
    assert (2 ^ (q - b) = 2 ^ (-1074 - b) * 2 ^ (q - -1074)) as E2 by (rewrite <- Z.pow_add_r by lia; f_equal; lia).
    pose proof (Z.pow_pos_nonneg 2 (-1074 - b) ltac:(lia) ltac:(lia)). rewrite E1, E2 in H3. nia. }
  pose proof (digits_bound (Z.pos m') e' t q (-1074) ltac:(lia) Ht ltac:(lia) ltac:(lia) H4) as Hd. cbn [Zdigits2] in Hd.
  split; [lia|]. replace (e' + 1074) with (e' - -1074) by lia. replace (q + 1074) with (q - -1074) by lia. exact H4.
Qed.

Lemma round_nonneg m e l : 0 <= m -> nonneg (binary_round_aux 53 1024 false m e l).
Proof. intros Hm. pose proof (round_aux_sign false m e l Hm) as H. destruct (binary_round_aux _ _ _ _ _ _); cbn; by subst. Qed.

Lemma mul_at_most x y t1 q1 t2 q2 t q : at_most t1 q1 x -> at_most t2 q2 y -> 0 < t < 2 ^ 53 -> -1074 <= q <= 40 ->
  -1074 <= q1 -> -1074 <= q2 -> 0 <= t1 -> t1 * t2 * 2 ^ (q1 + q2 + 2148) <= t * 2 ^ (q + 2148) -> at_most t q (fmul x y).
Proof.
  destruct x as [sx|sx| |sx mx ex], y as [sy|sy| |sy my ey]; try done. cbn [at_most]. intros [H1 H2] [H3 H4] Ht Hq Hq1 Hq2 Ht1 Hle.
  apply (round_at_most _ _ _ _ t q (-2148)); cbn [up]; try lia.
  replace (ex + ey - -2148) with (ex + 1074 + (ey + 1074)) by lia. replace (q - -2148) with (q + 2148) by lia. etransitivity; [|exact Hle].
  replace (q1 + q2 + 2148) with (q1 + 1074 + (q2 + 1074)) by lia. rewrite Pos2Z.inj_mul.
  rewrite (Z.pow_add_r 2 (ex + 1074) (ey + 1074)), (Z.pow_add_r 2 (q1 + 1074) (q2 + 1074)) by lia.
  pose proof (Z.pow_pos_nonneg 2 (ex + 1074) ltac:(lia) ltac:(lia)). pose proof (Z.pow_pos_nonneg 2 (ey + 1074) ltac:(lia) ltac:(lia)).
  transitivity ((Z.pos mx * 2 ^ (ex + 1074)) * (Z.pos my * 2 ^ (ey + 1074))); [lia|].
  transitivity ((t1 * 2 ^ (q1 + 1074)) * (t2 * 2 ^ (q2 + 1074))); [apply Z.mul_le_mono_nonneg; nia|lia].
Qed.

Lemma mul_nonneg x y t q u r : at_most t q x -> at_most u r y -> nonneg x -> nonneg y -> nonneg (fmul x y).
Proof.
  destruct x as [sx|sx| |[] mx ex], y as [sy|sy| |[] my ey]; try done. intros _ _ _ _. by apply round_nonneg.
Qed.

Lemma align_value m e e' : Z.pos (shl_align m e e').1 * 2 ^ ((shl_align m e e').2 + 1074) = Z.pos m * 2 ^ (e + 1074) \/ e' < -1074 \/ e < -1074.
Proof.
  unfold shl_align. destruct (e' - e) as [|d|d] eqn:Ed; cbn [fst snd]; [by left..|].
  destruct (Z_lt_ge_dec e' (-1074)); [auto|]. destruct (Z_lt_ge_dec e (-1074)); [auto|]. left. rewrite iter_xO, <- Z.mul_assoc, <- Z.pow_add_r by lia. do 2 f_equal. lia.
Qed.

Lemma align_range m e e' : -1074 <= e <= 100 -> -1074 <= e' -> -1074 <= (shl_align m e e').2 <= 100.
Proof. unfold shl_align. intros. destruct (e' - e) eqn:Ed; cbn [snd]; lia. Qed.

Lemma normalize_at_most d e z t q : -1074 <= e <= 100 -> 0 < t < 2 ^ 53 -> -1074 <= q <= 40 -> Z.abs d * 2 ^ (e + 1074) <= t * 2 ^ (q + 1074) ->
  at_most t q (binary_normalize 53 1024 d e z).
Proof.
  intros He Ht Hq Hle. assert (forall s p, Z.pos p * 2 ^ (e + 1074) <= t * 2 ^ (q + 1074) -> at_most t q (binary_round 53 1024 s p e)) as Hr.
  { intros s p Hp. unfold binary_round. set (e' := fexp 53 1024 _). assert (-1074 <= e') as He' by (unfold e', fexp, emin; lia).
    pose proof (align_range p e e' He He') as Hr. pose proof (align_value p e e') as Hv. destruct (shl_align p e e') as [m ez]. cbn [fst snd] in *.
    apply (round_at_most _ _ _ _ t q (-1074)); cbn [up]; try lia.
    replace (ez - -1074) with (ez + 1074) by lia. replace (q - -1074) with (q + 1074) by lia. destruct Hv as [->|]; [done|lia]. }
  destruct d as [|p|p]; cbn [binary_normalize]; [done|apply Hr..]; exact Hle.
Qed.

Lemma normalize_nonneg d e z : 0 <= d -> nonneg (binary_normalize 53 1024 d e z).
Proof.
  intros Hd. destruct d as [|p|p]; [done| |lia]. cbn [binary_normalize]. unfold binary_round. destruct (shl_align p e _). by apply round_nonneg.
Qed.

Lemma normalize_number d e z : binary_normalize 53 1024 d e z <> S754_nan.
Proof.
  assert (forall s p, binary_round 53 1024 s p e <> S754_nan) as Hr.
  { intros s p. unfold binary_round. destruct (shl_align p e _) as [m ez]. pose proof (round_aux_sign s (Z.pos m) ez loc_Exact ltac:(lia)).
    by destruct (binary_round_aux _ _ _ _ _ _). }
  destruct d; cbn [binary_normalize]; [done|apply Hr..].
Qed.

(** The difference of two numbers on their common grid. *)
Lemma sub_value mx ex my ey : -1074 <= ex -> -1074 <= ey -> let ez := Z.min ex ey in
  Z.pos (shl_align mx ex ez).1 * 2 ^ (ez + 1074) = Z.pos mx * 2 ^ (ex + 1074) /\
  Z.pos (shl_align my ey ez).1 * 2 ^ (ez + 1074) = Z.pos my * 2 ^ (ey + 1074).
Proof.
  intros Hx Hy ez. assert (forall m e, ez <= e -> -1074 <= e -> (shl_align m e ez).2 = ez) as H2.
  { intros m e He _. unfold shl_align. destruct (ez - e) eqn:Ed; cbn [snd]; lia. }
  pose proof (align_value mx ex ez) as H3. pose proof (align_value my ey ez) as H4. rewrite H2 in H3, H4 by lia.
  split; [destruct H3 as [|[]]|destruct H4 as [|[]]]; (done || lia).
Qed.

Lemma sub_at_most x y t q : nonneg x -> nonneg y -> at_most t q x -> at_most t q y -> 0 < t < 2 ^ 53 -> -1074 <= q <= 40 -> at_most t q (fsub x y).
Proof.
  intros Hx Hy. destruct x as [sx|sx| |[] mx ex], y as [sy|sy| |[] my ey]; try done; cbn [at_most]; intros H1 H2 Ht Hq.
  - by destruct sx, sy.
  - destruct H1 as [H1 H3], H2 as [H2 H4]. destruct (sub_value mx ex my ey ltac:(lia) ltac:(lia)) as [E1 E2]. cbn [fsub SFsub cond_Zopp] in *.
    apply normalize_at_most; [lia|done..|]. set (a := Z.pos (shl_align mx _ _).1) in *. set (b := Z.pos (shl_align my _ _).1) in *.
    pose proof (Z.pow_pos_nonneg 2 (Z.min ex ey + 1074) ltac:(lia) ltac:(lia)). destruct (Z.abs_spec (a - b)) as [[_ ->]|[_ ->]]; nia.
Qed.

Lemma sub_number z w t q : z <> S754_nan -> at_most t q w -> fsub z w <> S754_nan.
Proof.
  destruct z as [sx|sx| |sx mx ex], w as [sy|sy| |sy my ey]; try done; cbn [fsub SFsub]; intros; try done; [by destruct sx, sy|apply normalize_number].
Qed.

Lemma add_nonneg z w : nonneg z -> nonneg w -> nonneg (f64_add z w).
Proof.
  destruct z as [sx|[]| |[] mx ex], w as [sy|[]| |[] my ey]; try done; cbn [f64_add SFadd cond_Zopp]; intros _ _; [by destruct sx, sy|].
  by apply normalize_nonneg.
Qed.

Lemma f64_eq_refl z : z <> S754_nan -> f64_eq z z = true.
Proof.
  unfold f64_eq, SFeqb. destruct z as [s|[]| |[] m e]; try done; cbn; intros _; rewrite Z.compare_refl; unfold Pos.compare_cont; by rewrite Pos.compare_cont_refl.
Qed.

Lemma at_most_one_exp m e : -1074 <= e -> Z.pos m * 2 ^ (e + 1074) <= 1 * 2 ^ (0 + 1074) -> e <= 0.
Proof.
  intros He H. pose proof (Z.pow_pos_nonneg 2 (e + 1074) ltac:(lia) ltac:(lia)). assert (2 ^ (e + 1074) <= 2 ^ 1074) as Hp by (change (0 + 1074) with 1074 in H; nia).
  apply Z.pow_le_mono_r_iff in Hp; lia.
Qed.

Lemma sqrt_at_most x : nonneg x -> at_most 1 0 x -> nonneg (fsqrt x) /\ at_most 1 0 (fsqrt x).
Proof.
  destruct x as [s|s| |[] m e]; try done. intros _ [He Hle]. pose proof (at_most_one_exp m e ltac:(lia) Hle) as He0.
  unfold fsqrt, SFsqrt, SFsqrt_core_binary. set (e' := Z.min _ _).
  assert (-1074 <= e' <= 0 /\ 2 * e' <= e) as [He' H2].
  { unfold e', fexp, emin. pose proof (Zdiv2_odd_eqn e). destruct (Z.odd e); lia. }
  replace (match e - 2 * e' with Z0 => Z.pos m | Z.pos _ => Z.shiftl (Z.pos m) (e - 2 * e') | Z.neg _ => 0 end) with (Z.pos m * 2 ^ (e - 2 * e')).
  2: { destruct (e - 2 * e') eqn:Es; [cbn; lia|by rewrite Z.shiftl_mul_pow2|lia]. }
  set (m' := Z.pos m * 2 ^ (e - 2 * e')). pose proof (Z.pow_pos_nonneg 2 (e - 2 * e') ltac:(lia) ltac:(lia)) as Hp.
  assert (0 < m') as Hm' by (unfold m'; nia). pose proof (Z.sqrtrem_spec m' ltac:(lia)) as Hs. destruct (Z.sqrtrem m') as [q r]. destruct Hs as [Hq Hr].
  assert (m' <= 2 ^ (- e') * 2 ^ (- e')) as Hb.
  { unfold m'. rewrite <- Z.pow_add_r by lia.
    apply (Z.mul_le_mono_pos_r _ _ (2 ^ (2148 + 2 * e'))); [apply Z.pow_pos_nonneg; lia|].
    rewrite <- Z.mul_assoc, <- !Z.pow_add_r by lia. replace (e - 2 * e' + (2148 + 2 * e')) with (e + 1074 + 1074) by lia.
    replace (- e' + - e' + (2148 + 2 * e')) with (1074 + 1074) by lia. rewrite (Z.pow_add_r 2 (e + 1074)), (Z.pow_add_r 2 1074 1074), Z.mul_assoc by lia.
    apply Z.mul_le_mono_nonneg_r; [apply Z.pow_nonneg; lia|]. by rewrite Z.mul_1_l in Hle. }
  pose proof (Z.pow_pos_nonneg 2 (- e') ltac:(lia) ltac:(lia)) as Hpe.
  assert (0 <= q) as Hq0 by lia. split; [by apply round_nonneg|]. set (l := if r =? 0 then _ else _).
  assert (0 < up q l <= 2 ^ (- e')) as [Hu1 Hu2].
  { unfold l. destruct (Z.eqb_spec r 0) as [->|Hr0]; cbn [up]; split; nia. }
  apply (round_at_most _ _ _ _ 1 0 (-1074)); try lia.
  replace (0 - -1074) with (- e' + (e' - -1074)) by lia. rewrite Z.mul_1_l, Z.pow_add_r by lia.
  apply Z.mul_le_mono_nonneg_r; [apply Z.pow_nonneg; lia|done].
Qed.

(** Dividing by the number of registers. *)
Lemma registers_f64 : f64_of_Z HLL_REGISTERS = S754_finite false (2 ^ 52) (-38).
Proof. vm_compute. reflexivity. Qed.

Lemma div_registers x t q : nonneg x -> at_most t (q + 14) x -> 0 < t < 2 ^ 53 -> -1000 <= q <= 20 ->
  nonneg (fdiv x (f64_of_Z HLL_REGISTERS)) /\ at_most t q (fdiv x (f64_of_Z HLL_REGISTERS)).
Proof.
  rewrite registers_f64. destruct x as [s|s| |[] m e]; try done. intros _ [He Hle] Ht Hq.
  unfold fdiv, SFdiv, SFdiv_core_binary. change (Zdigits2 (Z.pos (2 ^ 52))) with 53. set (e' := Z.min _ _).
  assert (Zdigits2 (Z.pos m) + e <= 53 + (q + 14)) as Hd.
  { apply (digits_bound _ e t (q + 14) (-1074)); try lia. by replace (e - -1074) with (e + 1074) by lia; replace (q + 14 - -1074) with (q + 14 + 1074) by lia. }
  assert (-1074 <= e' <= q /\ e' <= e + 38 /\ e' <= 971) as (He' & H2 & H3) by (unfold e', fexp, emin; lia).
  replace (match e - -38 - e' with Z0 => Z.pos m | Z.pos _ => Z.shiftl (Z.pos m) (e - -38 - e') | Z.neg _ => 0 end) with (Z.pos m * 2 ^ (e + 38 - e')).
  2: { replace (e - -38 - e') with (e + 38 - e') by lia. destruct (e + 38 - e') eqn:Es; [cbn; lia|by rewrite Z.shiftl_mul_pow2|lia]. }
  set (m' := Z.pos m * 2 ^ (e + 38 - e')). pose proof (Z.pow_pos_nonneg 2 (e + 38 - e') ltac:(lia) ltac:(lia)) as Hp.
  assert (0 < m') as Hm' by (unfold m'; nia). pose proof (Z.div_mod m' (2 ^ 52) ltac:(lia)) as Hdm. pose proof (Z.mod_pos_bound m' (2 ^ 52) ltac:(lia)) as Hmod.
  replace (Z.div_eucl m' (Z.pos (2 ^ 52))) with (m' / 2 ^ 52, m' mod 2 ^ 52) by (change (2 ^ 52) with (Z.pos (2 ^ 52)); unfold Z.div, Z.modulo; by destruct (Z.div_eucl _ _)).
  set (k := m' / 2 ^ 52) in *. set (r := m' mod 2 ^ 52) in *.
  assert (0 <= k) as Hk by (apply Z.div_pos; lia). cbn [xorb]. split; [by apply round_nonneg|].
  assert (m' <= t * 2 ^ (q - e') * 2 ^ 52) as Hb.
  { unfold m'. apply (Z.mul_le_mono_pos_r _ _ (2 ^ (1036 + e' + 38))); [apply Z.pow_pos_nonneg; lia|].
    rewrite <- !Z.mul_assoc, <- !Z.pow_add_r by lia. replace (e + 38 - e' + (1036 + e' + 38)) with (e + 1074 + 38) by lia.
    replace (q - e' + (52 + (1036 + e' + 38))) with (q + 14 + 1074 + 38) by lia. rewrite (Z.pow_add_r 2 (e + 1074)), (Z.pow_add_r 2 (q + 14 + 1074)), !Z.mul_assoc by lia.
    apply Z.mul_le_mono_nonneg_r; [lia|done]. }
  pose proof (Z.pow_pos_nonneg 2 (q - e') ltac:(lia) ltac:(lia)) as Hpq.
  assert (0 < up k (new_location (Z.pos (2 ^ 52)) r) <= t * 2 ^ (q - e')) as [Hu1 Hu2].
  { unfold new_location. change (Z.even (Z.pos (2 ^ 52))) with true. unfold new_location_even. destruct (Z.eqb_spec r 0) as [E0|E0]; cbn [up]; split; nia. }
  apply (round_at_most _ _ _ _ t q (-1074)); try lia.
  replace (q - -1074) with (q - e' + (e' - -1074)) by lia. rewrite Z.pow_add_r, Z.mul_assoc by lia.
  apply Z.mul_le_mono_nonneg_r; [apply Z.pow_nonneg; lia|done].
Qed.

Lemma of_Z_at_most n t : 0 <= n <= t -> 0 < t < 2 ^ 53 -> nonneg (f64_of_Z n) /\ at_most t 0 (f64_of_Z n).
Proof.
  intros Hn Ht. destruct (Z.eq_dec n 0) as [->|]; [done|]. destruct (f64_of_Z_exact n ltac:(lia)) as (a & p & Ha & Hp & _ & ->).
  split; [done|]. split; [lia|]. rewrite Hp, <- Z.mul_assoc, <- Z.pow_add_r by lia. replace (a + (- a + 1074)) with 1074 by lia.
  apply Z.mul_le_mono_nonneg_r; lia.
Qed.

Lemma sub_nonneg mx ex y t q : -1074 <= ex -> nonneg y -> at_most t q y -> t * 2 ^ (q + 1074) <= Z.pos mx * 2 ^ (ex + 1074) ->
  nonneg (fsub (S754_finite false mx ex) y).
Proof.
  intros Hex Hy. destruct y as [sy|sy| |[] my ey]; try done. intros [He Hle] Hx. destruct (sub_value mx ex my ey ltac:(lia) ltac:(lia)) as [E1 E2].
  cbn [fsub SFsub cond_Zopp]. apply normalize_nonneg. pose proof (Z.pow_pos_nonneg 2 (Z.min ex ey + 1074) ltac:(lia) ltac:(lia)). nia.
Qed.

(** ** The loops *)

(** What [loop { .. if z_prime == z { break; } }] computes: a turn changes [x], [y] and [z]. *)
Abbreviation turn_state := (f64 * f64 * f64)%type.
Inductive loop_returns (turn : turn_state -> turn_state) : turn_state -> f64 -> Prop :=
| loop_break s : f64_eq s.2 (turn s).2 = true -> loop_returns turn s (turn s).2
| loop_again s r : f64_eq s.2 (turn s).2 = false -> loop_returns turn (turn s) r -> loop_returns turn s r.

Definition sigma_turn (s : turn_state) : turn_state :=
  let '(x, y, z) := s in let x := fmul x x in (x, f64_add y y, f64_add z (fmul x y)).

Definition tau_turn (s : turn_state) : turn_state :=
  let '(x, y, z) := s in
  let x := fsqrt x in
  let y := fmul y f_half in
  let d := fsub f_one x in
  (x, y, fsub z (fmul (fmul d d) y)).

(** What the two functions return, without a bound on the turns. *)
Definition sigma_returns (x r : f64) : Prop :=
  if f64_eq x f_one then r = S754_infinity false else loop_returns sigma_turn (x, f_one, x) r.

Definition tau_returns (x r : f64) : Prop :=
  if (f64_eq x f64_zero || f64_eq x f_one)%bool then r = f64_zero
  else exists z, loop_returns tau_turn (x, f_one, fsub f_one x) z /\ r = fdiv z (f64_of_Z 3).

Lemma one_ok : nonneg f_one /\ at_most 1 0 f_one.
Proof. split; [exact I|]. split; [split; apply Z.leb_le; reflexivity|]. apply Z.leb_le. vm_compute. reflexivity. Qed.

Lemma half_ok : at_most 1 0 f_half.
Proof. split; [split; apply Z.leb_le; reflexivity|]. apply Z.leb_le. vm_compute. reflexivity. Qed.

Lemma mul_unit x y : at_most 1 0 x -> at_most 1 0 y -> at_most 1 0 (fmul x y).
Proof. intros Hx Hy. apply (mul_at_most x y 1 0 1 0); try done; lia. Qed.

Lemma sub_zero z s : z <> S754_nan -> f64_eq z (fsub z (S754_zero s)) = true.
Proof. destruct z as [s'| | |]; [by destruct s', s| |done|]; intros H; by apply f64_eq_refl. Qed.

(** A term without weight changes nothing. *)
Lemma weightless x s z : at_most 1 0 x -> z <> S754_nan -> f64_eq z (fsub z (fmul x (S754_zero s))) = true.
Proof. destruct x; try done; intros _; apply sub_zero. Qed.

Lemma tau_stops k : forall fuel x y z, (k < fuel)%nat -> nonneg x -> at_most 1 0 x -> at_most 1 0 y -> z <> S754_nan ->
  Nat.iter k (fun y => fmul y f_half) y = S754_zero false -> loop_returns tau_turn (x, y, z) (tau_loop fuel x y z).
Proof.
  induction k as [|k IH]; intros fuel x y z Hf Hx Hx1 Hy Hz Hk; (destruct fuel as [|fuel]; [lia|]);
    destruct (sqrt_at_most x Hx Hx1) as [Hx' Hx1'], one_ok as [Ho Ho1];
    pose proof (sub_at_most f_one (fsqrt x) 1 0 Ho Hx' Ho1 Hx1' ltac:(lia) ltac:(lia)) as Hd; pose proof (mul_unit _ _ Hd Hd) as Hdd.
  - cbn in Hk. subst y. cbn [tau_loop]. set (z' := fsub z _). assert (f64_eq z z' = true) as He by (by apply weightless).
    rewrite He. exact (loop_break tau_turn (x, S754_zero false, z) He).
  - rewrite Nat.iter_succ_r in Hk. pose proof (mul_unit y f_half Hy half_ok) as Hy'. cbn [tau_loop].
    destruct (f64_eq z _) eqn:He; [exact (loop_break tau_turn (x, y, z) He)|]. apply loop_again; [exact He|].
    apply IH; [lia|done..| |done]. apply (sub_number _ _ 1 0); [done|]. by apply mul_unit.
Qed.

Lemma halvings : Nat.iter 1075 (fun y => fmul y f_half) f_one = S754_zero false.
Proof. vm_compute. reflexivity. Qed.

(** A bound for the square. *)
Definition next_bound (t q : Z) : Z * Z := let s := Z.max 0 (Z.log2 (t * t) - 30) in (t * t / 2 ^ s + 1, 2 * q + s).

(** After [k] squarings of what is at most [t * 2 ^ q] one more underflows. *)
Fixpoint underflows (k : nat) (t q : Z) : bool :=
  ((0 <? t) && (-1074 <=? q) && (t * 2 ^ (q + 1074) <=? 2 ^ 1074) &&
   match k with
   | O => t * t * 2 ^ (2 * q + 2148) <=? 2 ^ (2148 - 1076)
   | S k' =>
       let '(t', q') := next_bound t q in
       (t' <? 2 ^ 53) && (q' <=? 40) && (t * t * 2 ^ (q + q + 2148) <=? t' * 2 ^ (q' + 2148)) && underflows k' t' q'
   end)%bool.

(** [k] doublings of [y] stay finite. *)
Fixpoint doubles (k : nat) (y : f64) : bool :=
  match y with
  | S754_finite false _ _ => match k with O => true | S k' => doubles k' (f64_add y y) end
  | _ => false
  end.

Lemma add_zero z s : nonneg z -> f64_eq z (f64_add z (S754_zero s)) = true.
Proof. destruct z as [s'|[]| |[]]; try done; [by destruct s', s|]; intros _; by apply f64_eq_refl. Qed.

Lemma square_underflows x t q : nonneg x -> at_most t q x -> underflows 0 t q = true -> exists s, fmul x x = S754_zero s.
Proof.
  destruct x as [s|s| |[] m e]; try done; [by eexists|]. intros _ [He Hle] Hu. cbn [underflows] in Hu.
  apply andb_true_iff in Hu as [[[Ht Hq]%andb_true_iff Hone]%andb_true_iff Htiny]. zbool.
  assert (e <= 0) as He0 by (apply (at_most_one_exp m e); lia). exists false. apply round_aux_tiny; [lia..|].
  replace (e + e + 5000) with (e + 1074 + (e + 1074) + 2852) by lia. rewrite !Z.pow_add_r by lia.
  replace (2 ^ (5000 - 1076)) with (2 ^ (2148 - 1076) * 2 ^ 2852) by (rewrite <- Z.pow_add_r by lia; f_equal).
  rewrite Z.mul_assoc. apply Z.mul_le_mono_nonneg_r; [apply Z.pow_nonneg; lia|]. etransitivity; [|exact Htiny].
  replace (2 * q + 2148) with (q + 1074 + (q + 1074)) by lia. rewrite !(Z.pow_add_r 2 (q + 1074)), Pos2Z.inj_mul by lia.
  pose proof (Z.pow_pos_nonneg 2 (e + 1074) ltac:(lia) ltac:(lia)).
  transitivity ((Z.pos m * 2 ^ (e + 1074)) * (Z.pos m * 2 ^ (e + 1074))); [lia|].
  transitivity ((t * 2 ^ (q + 1074)) * (t * 2 ^ (q + 1074))); [apply Z.mul_le_mono_nonneg; nia|lia].
Qed.

Lemma sigma_stops k : forall fuel x y z t q, (k < fuel)%nat -> nonneg x -> at_most t q x -> nonneg z -> doubles k y = true ->
  underflows k t q = true -> loop_returns sigma_turn (x, y, z) (sigma_loop fuel x y z).
Proof.
  induction k as [|k IH]; intros fuel x y z t q Hf Hx Hxt Hz Hy Hu; (destruct fuel as [|fuel]; [lia|]); cbn [sigma_loop].
  - destruct (square_underflows x t q Hx Hxt Hu) as [s Hs]. destruct y as [| | |[] my ey]; try done.
    assert (f64_eq z (f64_add z (fmul (fmul x x) (S754_finite false my ey))) = true) as He by (rewrite Hs; by apply add_zero).
    rewrite He. exact (loop_break sigma_turn (x, S754_finite false my ey, z) He).
  - destruct (f64_eq z _) eqn:He; [exact (loop_break sigma_turn (x, y, z) He)|]. apply loop_again; [exact He|].
    destruct y as [| | |[] my ey]; try done. cbn [doubles] in Hy. cbn [underflows] in Hu.
    apply andb_true_iff in Hu as [[[Ht Hq]%andb_true_iff _]%andb_true_iff Hu]. destruct (next_bound t q) as [t' q'].
    apply andb_true_iff in Hu as [[[Ht' Hq']%andb_true_iff Hsq]%andb_true_iff Hu].
    assert (0 < t' /\ -1074 <= q') as [Ht0 Hq0].
    { destruct k; cbn [underflows] in Hu; apply andb_true_iff in Hu as [[[? ?]%andb_true_iff _]%andb_true_iff _]; zbool; lia. }
    zbool. pose proof (mul_at_most x x t q t q t' q' Hxt Hxt ltac:(lia) ltac:(lia) ltac:(lia) ltac:(lia) ltac:(lia) Hsq) as Hxx.
    pose proof (mul_nonneg x x t q t q Hxt Hxt Hx Hx) as Hxx0. apply (IH fuel _ _ _ t' q'); [lia|done|done| |done|done].
    apply add_nonneg; [done|]. destruct (fmul x x) as [s|s| |[] m e]; try done. by apply round_nonneg.
Qed.

Lemma sigma_returns_bound x : nonneg x -> at_most 16383 (-14) x -> sigma_returns x (hll_sigma x).
Proof.
  intros Hx Hle. unfold sigma_returns, hll_sigma. destruct (f64_eq x f_one); [done|].
  apply (sigma_stops 23 _ _ _ _ 16383 (-14)); [lia|done..| |]; vm_compute; reflexivity.
Qed.

Lemma tau_returns_bound x : nonneg x -> at_most 1 0 x -> tau_returns x (hll_tau x).
Proof.
  intros Hx Hle. unfold tau_returns, hll_tau. destruct (_ || _)%bool; [done|]. eexists. split; [|reflexivity]. destruct one_ok as [Ho Ho1].
  apply (tau_stops 1075); [lia|done|done|done| |exact halvings]. apply (sub_number _ _ 1 0); done.
Qed.

Lemma histogram_range h j : hll_wf h -> 0 <= histogram (registers h) j <= HLL_REGISTERS.
Proof.
  intros [Hl _]. unfold histogram, blen in *. split; [lia|]. rewrite <- Hl. apply Nat2Z.inj_le, sublist_length, sublist_filter.
Qed.

Lemma sigma_arg_returns h : 0 <= h 0 <= HLL_REGISTERS -> sigma_returns (sigma_arg h) (hll_sigma (sigma_arg h)).
Proof.
  intros Hh. unfold sigma_arg. destruct (Z.eq_dec (h 0) HLL_REGISTERS) as [->|Hne]; [vm_compute; reflexivity|].
  change HLL_REGISTERS with 16384 in Hh, Hne. destruct (of_Z_at_most (h 0) 16383 ltac:(lia) ltac:(lia)) as [H1 H2].
  destruct (div_registers _ 16383 (-14) H1 H2 ltac:(lia) ltac:(lia)). by apply sigma_returns_bound.
Qed.

Lemma tau_arg_returns h : 0 <= h (HLL_Q + 1) <= HLL_REGISTERS -> tau_returns (tau_arg h) (hll_tau (tau_arg h)).
Proof.
  intros Hh. unfold tau_arg. set (n := h (HLL_Q + 1)) in *. change HLL_REGISTERS with 16384 in Hh.
  destruct (of_Z_at_most n 16384 ltac:(lia) ltac:(lia)) as [H1 H2]. destruct (of_Z_at_most 16384 16384 ltac:(lia) ltac:(lia)) as [H3 H4].
  pose proof (sub_at_most (f64_of_Z HLL_REGISTERS) (f64_of_Z n) 16384 0 H3 H1 H4 H2 ltac:(lia) ltac:(lia)) as H5.
  assert (nonneg (fsub (f64_of_Z HLL_REGISTERS) (f64_of_Z n))) as H6.
  { rewrite registers_f64. apply (sub_nonneg _ _ _ 16384 0); [lia|done|done|]. apply Z.leb_le. vm_compute. reflexivity. }
  destruct (div_registers _ 16384 (-14) H6 H5 ltac:(lia) ltac:(lia)) as [H7 H8]. apply tau_returns_bound; [done|].
  revert H8. destruct (fdiv _ _) as [| | |s m e]; [done..|]. intros [He Hle]. split; [done|]. etransitivity; [exact Hle|]. apply Z.leb_le. vm_compute. reflexivity.
Qed.

(** What [hll_count] returns when its loops may take any number of turns. *)
Definition count_returns (regs : bytes) (n : Z) : Prop :=
  exists tau sigma, tau_returns (tau_arg (histogram regs)) tau /\ sigma_returns (sigma_arg (histogram regs)) sigma /\
    n = estimate_from tau sigma (histogram regs).

(** The loops have one result. *)
Lemma loop_returns_unique turn s r r' : loop_returns turn s r -> loop_returns turn s r' -> r = r'.
Proof. induction 1 as [s E|s r E _ IH]; inversion 1; subst; (congruence || auto). Qed.

Lemma count_returns_unique regs n n' : count_returns regs n -> count_returns regs n' -> n = n'.
Proof.
  intros (t & s & Ht & Hs & ->) (t' & s' & Ht' & Hs' & ->). f_equal.
  - revert Ht Ht'. unfold tau_returns. destruct (_ || _)%bool; [by intros -> ->|]. intros (z & Hz & ->) (z' & Hz' & ->).
    by rewrite (loop_returns_unique _ _ _ _ Hz Hz').
  - revert Hs Hs'. unfold sigma_returns. destruct (f64_eq _ _); [by intros -> ->|]. apply loop_returns_unique.
Qed.

(** C21: counting ends. The two loops by which [hll_count] sums its series stop
    on every well-formed value, whatever its registers are, and the cardinality
    of the model, which gives them a bounded number of turns, is the one result
    that the loops without a bound return. *)
Theorem hll_count_terminates h : hll_wf h -> count_returns (registers h) (cardinality h) /\ forall n, count_returns (registers h) n -> n = cardinality h.
Proof.
  intros Hh. assert (count_returns (registers h) (cardinality h)) as Hc.
  { eexists _, _. split_and!; [apply tau_arg_returns, histogram_range, Hh|apply sigma_arg_returns, histogram_range, Hh|reflexivity]. }
  split; [exact Hc|]. intros n Hn. exact (count_returns_unique _ _ _ Hn Hc).
Qed.

Lemma hll_count_terminates_witness :
  hll_wf (hll_add hll_new (str "a")).1 /\ count_returns (registers (hll_add hll_new (str "a")).1) (cardinality (hll_add hll_new (str "a")).1).
Proof.
  assert (hll_wf (hll_add hll_new (str "a")).1) as H by apply hll_add_wf, hll_new_wf. split; [exact H|].
  exact (proj1 (hll_count_terminates (hll_add hll_new (str "a")).1 H)).
Defined.
