(* ===== verification/Handler.v ===== *)
(** * Handler: from an operation to its effect on the cache.

    Models src/cache_cat/src/raft/types/core/mocha/request_handler.rs:
    [read_request], [base_request] and [do_request], which every replica runs
    on each entry of the Raft log. The specification gives, for an operation on
    the plain store, the next store (a function) and the replies that are
    allowed (a predicate, because the iteration order of a hash table, the
    local clock and the random generator show in the replies of reads).

    The [external] flag only decides whether the exclusive lock is taken and
    has no counterpart here. A Lua script is run by a parameter, [exec_lua]. *)

From S2P Require Import Prelude Text F64 Reply Args SortedSet Glob TimeWheel Mocha Ops Store Refine.
From S2P Require Import ListCmd StringCmd KeyCmd HashCmd SetCmd Spop ZSetCmd Bits BitmapCmd Hll HllCmd Memory.

Class LuaEnv := {
  exec_lua : MyCache -> EvalParams -> Update -> outcome (MyCache * Update * result Value ProtocolError)
}.

Section Handler.
Context `{E : Env} `{OF : OrderedFloat} `{ME : MemEnv} `{LE : LuaEnv}.

(** KEYS has a value that cannot be computed when its pattern panics the
    matcher; all other reads return. *)
Definition read_request (c : MyCache) (op : ReadOperation) (n : Z) (rc : option Z) : outcome (MyCache * Value) :=
  match op with
  | RExists p => Ret (execute_multi_read c p n rc)
  | RGet p => Ret (execute_read c p n rc)
  | RLRange p => Ret (execute_read c p n rc)
  | RMGet p => Ret (execute_multi_read c p n rc)
  | RZRange p => Ret (execute_read c p n rc)
  | RHGet p => Ret (execute_read c p n rc)
  | RSMembers p => Ret (execute_read c p n rc)
  | RHMGet p => Ret (execute_read c p n rc)
  | RGetBit p => Ret (execute_read c p n rc)
  | RZRangeByScore p => Ret (execute_read c p n rc)
  | RStrLen p => Ret (execute_read c p n rc)
  | RHGetAll p => Ret (execute_read c p n rc)
  | RHKeys p => Ret (execute_read c p n rc)
  | RHVals p => Ret (execute_read c p n rc)
  | RLLen p => Ret (execute_read c p n rc)
  | RType p => Ret (execute_read c p n rc)
  | RLIndex p => Ret (execute_read c p n rc)
  | RSIsMember p => Ret (execute_read c p n rc)
  | RHExists p => Ret (execute_read c p n rc)
  | RPTtl p => Ret (execute_read c p n rc)
  | RTtl p => Ret (execute_read c p n rc)
  | RHLen p => Ret (execute_read c p n rc)
  | RBitCount p => Ret (execute_read c p n rc)
  | RBitPos p => Ret (execute_read c p n rc)
  | RSCard p => Ret (execute_read c p n rc)
  | RSRandMember p => Ret (execute_read c p n rc)
  | RSInter p => Ret (execute_multi_read c p n rc)
  | RSUnion p => Ret (execute_multi_read c p n rc)
  | RSDiff p => Ret (execute_multi_read c p n rc)
  | RKeys p =>
      match cache_keys c p n rc with
      | Ret v => Ret (c, v)
      | Panic => Panic
      | OutOfFuel => OutOfFuel
      end
  | RZScore p => Ret (execute_read c p n rc)
  | RZCard p => Ret (execute_read c p n rc)
  | RZCount p => Ret (execute_read c p n rc)
  | RZRank p => Ret (execute_read c p n rc)
  | RZRevRank p => Ret (execute_read c p n rc)
  | RDbSize _ => Ret (c, dbsize c n)
  | RMemoryUsage p => Ret (execute_read c p n rc)
  | RPFCount p => Ret (execute_multi_read c p n rc)
  end.

(** [for db in &my_cache.databases { db.mocha.active_expire_cycle_blocking() }]. *)
Definition expire_all (c : MyCache) : MyCache :=
  mkMyCache (active_expire_cycle_blocking (write_logic_clock c) <$> databases c)
    (read_logic_clock c) (write_logic_clock c) (heap c).

Definition base_request (c : MyCache) (op : BaseOperation) (u : Update) : MyCache * Update * Value :=
  match op with
  | Ops.Empty => (expire_all c, u, value_ok)
  | Set_op p => set c p u
  | Expire p => expire c p u
  | PExpire p => p_expire c p u
  | LPush p => l_push c p u
  | Del p => del c p u
  | Incr p => incr c p u
  | IncrBy p => incr_by c p u
  | Append p => append c p u
  | HSet p => h_set c p u
  | HIncr p => h_incr c p u
  | ZAdd p => z_add c p u
  | SAdd p => s_add c p u
  | Persist p => persist c p u
  | Insert p => insert_req c p u
  | HDel p => h_del c p u
  | SRem p => s_rem c p u
  | SetBit p => cache_set_bit c p u
  | LPop p => l_pop c p u
  | RPush p => r_push c p u
  | RPop p => r_pop c p u
  | LRem p => l_rem c p u
  | LSet p => l_set c p u
  | DecrBy p => decr_by c p u
  | HSetNx p => h_set_nx c p u
  | Decr p => decr c p u
  | ZRem p => z_rem c p u
  | LTrim p => l_trim c p u
  | FlushDB p => flush_db c p u
  | FlushAll p => flush_all c p u
  | BitField p => cache_bit_field c p u
  | SPop p => s_pop c p u
  | ZPopMin p => z_pop_min c p u
  | Unlink p => unlink_method c p u
  | ZIncrBy p => z_incr_by c p u
  | HMSet p => h_mset c p u
  | PfAdd p => p_f_add c p u
  | SInterStore p => s_inter_store c p u
  end.
(** [exec_lua(..).unwrap_or_else(|err| err.into())]. *)
Definition eval_request (c : MyCache) (p : EvalParams) (u : Update) : outcome (MyCache * Update * Value) :=
  match exec_lua c p u with
  | Ret (c', u', r) => Ret (c', u', match r with Ok v => v | Err e => protocol_error e end)
  | Panic => Panic
  | OutOfFuel => OutOfFuel
  end.

Fixpoint do_request (c : MyCache) (op : Operation) (u : Update) {struct op} : outcome (MyCache * Update * Value) :=
  match op with
  | Read r =>
      match read_request c r (db_number u) None with
      | Ret (c', v) => Ret (c', u, v)
      | Panic => Panic
      | OutOfFuel => OutOfFuel
      end
  | Base b => Ret (base_request c b u)
  | Redis r => redis_request c r u
  end
with redis_request (c : MyCache) (op : RedisOperation) (u : Update) {struct op} : outcome (MyCache * Update * Value) :=
  match op with
  | RedisDel p => Ret (redis_del c p u)
  | RedisSet p => Ret (redis_set c p u)
  | RedisSetNx p => Ret (redis_setnx c p u)
  | RedisSetEx p => Ret (redis_setex c p u)
  | RedisPSetEx p => Ret (redis_psetex c p u)
  | RedisGetSet p => Ret (redis_get_set c p u)
  | RedisMset p => Ret (redis_mset c p u)
  | RedisRename p => Ret (redis_rename c p u)
  | RedisRenameNx p => Ret (redis_rename_nx c p u)
  | RedisEval p => eval_request c p u
  | RedisExec ops =>
      (fix exec_loop (c : MyCache) (ops : list Operation) (u : Update) (vec : list Value) : outcome (MyCache * Update * Value) :=
         match ops with
         | [] => Ret (c, u, Array (Some vec))
         | op :: ops' =>
             match do_request c op u with
             | Ret (c', u', v) => exec_loop c' ops' u' (vec ++ [v])
             | Panic => Panic
             | OutOfFuel => OutOfFuel
             end
         end) c ops u []
  | RedisSUnionStore p => Ret (redis_sunionstore c p u)
  | RedisSDiffStore p => Ret (redis_sdiffstore c p u)
  | RedisUnlink p => Ret (redis_unlink c p u)
  end.

(** The loop of EXEC, named. *)
Definition exec_loop :=
  fix exec_loop (c : MyCache) (ops : list Operation) (u : Update) (vec : list Value) : outcome (MyCache * Update * Value) :=
    match ops with
    | [] => Ret (c, u, Array (Some vec))
    | op :: ops' =>
        match do_request c op u with
        | Ret (c', u', v) => exec_loop c' ops' u' (vec ++ [v])
        | Panic => Panic
        | OutOfFuel => OutOfFuel
        end
    end.

(** ** The specification *)

Section Spec.
Context (now wc n : Z).

Definition read_one {C} `{ReadCommand C, PureRead C} (rc : option Z) (s : PStore) (p : C) (r : Value) : Prop :=
  match s !! Z.to_nat n with
  | None => r = key_not_found
  | Some m => pread p (seen rc m (rkey p)) r
  end.

Definition read_many {C} `{MultiReadCommand C, PureMultiRead C} (rc : option Z) (s : PStore) (p : C) (r : Value) : Prop :=
  match s !! Z.to_nat n with
  | None => r = key_not_found
  | Some m => pmulti_read p (seen rc m <$> rkeys p) r
  end.

(** KEYS lists, in any order and once each, the visible keys in the pattern's
    language. *)
Definition lists_keys (rc : option Z) (s : PStore) (p : KeysParams) (r : Value) : Prop :=
  match s !! Z.to_nat n with
  | None => r = protocol_error DbNotExist
  | Some m => exists ts ks, glob_tokens (keys_pattern p) = Some ts /\ r = Array (Some (bulk <$> ks)) /\ NoDup ks /\
      forall k, k ∈ ks <-> denotes ts k /\ is_Some (seen rc m k)
  end.

(** DBSIZE may count entries that have expired. *)
Definition counts_keys (s : PStore) (r : Value) : Prop :=
  match s !! Z.to_nat n with
  | None => r = protocol_error DbNotExist
  | Some m => exists k, r = Integer k /\ Z.of_nat (size m) <= k
  end.

Definition allowed (op : ReadOperation) (rc : option Z) (s : PStore) : Value -> Prop :=
  match op with
  | RExists p => read_many rc s p
  | RGet p => read_one rc s p
  | RLRange p => read_one rc s p
  | RMGet p => read_many rc s p
  | RZRange p => read_one rc s p
  | RHGet p => read_one rc s p
  | RSMembers p => read_one rc s p
  | RHMGet p => read_one rc s p
  | RGetBit p => read_one rc s p
  | RZRangeByScore p => read_one rc s p
  | RStrLen p => read_one rc s p
  | RHGetAll p => read_one rc s p
  | RHKeys p => read_one rc s p
  | RHVals p => read_one rc s p
  | RLLen p => read_one rc s p
  | RType p => read_one rc s p
  | RLIndex p => read_one rc s p
  | RSIsMember p => read_one rc s p
  | RHExists p => read_one rc s p
  | RPTtl p => read_one rc s p
  | RTtl p => read_one rc s p
  | RHLen p => read_one rc s p
  | RBitCount p => read_one rc s p
  | RBitPos p => read_one rc s p
  | RSCard p => read_one rc s p
  | RSRandMember p => read_one rc s p
  | RSInter p => read_many rc s p
  | RSUnion p => read_many rc s p
  | RSDiff p => read_many rc s p
  | RKeys p => lists_keys rc s p
  | RZScore p => read_one rc s p
  | RZCard p => read_one rc s p
  | RZCount p => read_one rc s p
  | RZRank p => read_one rc s p
  | RZRevRank p => read_one rc s p
  | RDbSize _ => counts_keys s
  | RMemoryUsage p => read_one rc s p
  | RPFCount p => read_many rc s p
  end.

Abbreviation compute s p := (spec_compute now wc n s p).

Definition spec_base (op : BaseOperation) (s : PStore) : PStore * Value :=
  match op with
  | Ops.Empty => (s, value_ok)
  | Set_op p => compute s p
  | Expire p => compute s p
  | PExpire p => compute s p
  | LPush p => compute s p
  | Del p => spec_del n s (del_key p)
  | Incr p => compute s p
  | IncrBy p => compute s p
  | Append p => compute s p
  | HSet p => compute s p
  | HIncr p => compute s p
  | ZAdd p => compute s p
  | SAdd p => compute s p
  | Persist p => compute s p
  | Insert p => (s, value_ok)
  | HDel p => compute s p
  | SRem p => compute s p
  | SetBit p => compute s p
  | LPop p => compute s p
  | RPush p => compute s p
  | RPop p => compute s p
  | LRem p => compute s p
  | LSet p => compute s p
  | DecrBy p => compute s p
  | HSetNx p => compute s p
  | Decr p => compute s p
  | ZRem p => compute s p
  | LTrim p => compute s p
  | FlushDB p => spec_flush_db n s
  | FlushAll p => spec_flush_all s
  | BitField p => compute s p
  | SPop p => compute s p
  | ZPopMin p => compute s p
  | Unlink p => spec_del n s (unlink_key p)
  | ZIncrBy p => compute s p
  | HMSet p => compute s p
  | PfAdd p => compute s p
  | SInterStore p => spec_multi_compute now wc n s p
  end.

(** Next store and allowed replies. *)
Abbreviation step := (PStore * (Value -> Prop))%type.

Definition certain (p : PStore * Value) : step := (p.1, fun r => r = p.2).

Fixpoint spec_request (op : Operation) (s : PStore) {struct op} : step :=
  match op with
  | Read r => (s, allowed r None s)
  | Base b => certain (spec_base b s)
  | Redis r => spec_redis r s
  end
with spec_redis (op : RedisOperation) (s : PStore) {struct op} : step :=
  match op with
  | RedisDel p => certain (spec_del_many n s (dp_keys p))
  | RedisSet p => certain (spec_redis_set now wc n s p)
  | RedisSetNx p => certain (spec_redis_setnx now wc n s p)
  | RedisSetEx p => certain (spec_redis_setex now wc n s p)
  | RedisPSetEx p => certain (spec_redis_psetex now wc n s p)
  | RedisGetSet p => certain (spec_redis_get_set now wc n s p)
  | RedisMset p => certain (spec_redis_mset now wc n s p)
  | RedisRename p => certain (spec_rename n s (rn_key p) (rn_new_key p))
  | RedisRenameNx p => certain (spec_rename_nx n s (rnx_key p) (rnx_new_key p))
  | RedisEval p => (s, fun _ => False)
  | RedisExec ops =>
      let '(s', p) :=
        (fix spec_exec (ops : list Operation) (s : PStore) : PStore * (list Value -> Prop) :=
           match ops with
           | [] => (s, fun rs => rs = [])
           | op :: ops' =>
               let '(s1, p1) := spec_request op s in
               let '(s2, p2) := spec_exec ops' s1 in
               (s2, fun rs => exists r rs', rs = r :: rs' /\ p1 r /\ p2 rs')
           end) ops s in
      (s', fun r => exists rs, r = Array (Some rs) /\ p rs)
  | RedisSUnionStore p => certain (spec_sunionstore n s p)
  | RedisSDiffStore p => certain (spec_sdiffstore n s p)
  | RedisUnlink p => certain (spec_del_many n s (up_keys p))
  end.

Definition spec_exec :=
  fix spec_exec (ops : list Operation) (s : PStore) : PStore * (list Value -> Prop) :=
    match ops with
    | [] => (s, fun rs => rs = [])
    | op :: ops' =>
        let '(s1, p1) := spec_request op s in
        let '(s2, p2) := spec_exec ops' s1 in
        (s2, fun rs => exists r rs', rs = r :: rs' /\ p1 r /\ p2 rs')
    end.
End Spec.

(** ** What the theorems ask of an operation

    Numbers within their machine types, patterns that do not panic, no script.
    [Insert] is only made by the snapshot queue and RENAME, never by a client. *)

Definition base_ok (op : BaseOperation) : Prop :=
  match op with
  | Set_op p => is_u64 (set_ex_time p)
  | SetBit p => 0 <= setbit_offset p
  | IncrBy p => is_i64 (increment p)
  | HIncr p => is_i64 (hincr_value p)
  | LRem p => is_i64 (lrem_count p)
  | Insert _ => False
  | _ => True
  end.

Definition read_ok (op : ReadOperation) : Prop :=
  match op with
  | RKeys p => is_Some (glob_tokens (keys_pattern p))
  | _ => True
  end.

Fixpoint op_ok (op : Operation) : Prop :=
  match op with
  | Read r => read_ok r
  | Base b => base_ok b
  | Redis r => redis_ok r
  end
with redis_ok (op : RedisOperation) : Prop :=
  match op with
  | RedisDel p => Z.of_nat (length (dp_keys p)) <= i64_max
  | RedisUnlink p => Z.of_nat (length (up_keys p)) <= i64_max
  | RedisSet p => forall t, sp_expiration p = Some (PxAt t) -> is_u64 t
  | RedisEval _ => False
  | RedisExec ops => (fix all (ops : list Operation) : Prop := match ops with [] => True | op :: ops' => op_ok op /\ all ops' end) ops
  | _ => True
  end.

Definition all_ok :=
  fix all (ops : list Operation) : Prop := match ops with [] => True | op :: ops' => op_ok op /\ all ops' end.
End Handler.

(** ** Refinement *)

Section Refinement.
Context `{E : Env} `{!EnvOk E} `{OF : OrderedFloat} `{ME : MemEnv} `{LE : LuaEnv}.

Lemma read_ret c (res : MyCache * Value) P : reads c res P ->
  exists c' v, Ret res = Ret (c', v) /\ reads c (c', v) P.
Proof. destruct res as [c' v]. eauto. Qed.

Lemma cache_keys_refines c p n rc : CacheInv c -> is_Some (glob_tokens (keys_pattern p)) ->
  exists v, cache_keys c p n rc = Ret v /\ lists_keys n rc (abs c) p v.
Proof.
  intros Hc [ts Hts]. unfold cache_keys, lists_keys.
  destruct (get_cache_spec c n) as [(db & -> & Hdb & Hab)|[-> Hab]]; rewrite Hab; [|by eexists].
  destruct (keys_spec (write_logic_clock c) db (db_iter (map_ db)) (keys_pattern p) ts rc) as (ks & -> & Hnd & Hks);
    [apply db_iter_perm|done|].
  eexists. split; [done|]. exists ts, ks. split_and!; [done..|]. intros k. rewrite Hks. apply and_iff_compat_l.
  pose proof (seen_abs c n db rc k Hc Hdb) as Hs. split.
  - intros (e & He & Hv). unfold seen at 1 in Hs. rewrite He, Hv in Hs. destruct (seen rc (abs_db _ _ db) k); [eauto|done].
  - intros [e He]. rewrite He in Hs. unfold seen in Hs. destruct (live _ _ !! k) as [x|]; [|done].
    destruct (visible rc x) eqn:Ev; [by exists x|done].
Qed.

Lemma dbsize_refines c n : CacheInv c -> counts_keys n (abs c) (dbsize c n).
Proof.
  intros Hc. unfold dbsize, counts_keys. destruct (get_cache_spec c n) as [(db & -> & Hdb & Hab)|[-> Hab]]; rewrite Hab; [|done].
  eexists. split; [done|]. unfold len. apply Nat2Z.inj_le. rewrite <- !size_dom. apply subseteq_size.
  intros k [e He]%elem_of_dom. apply elem_of_dom. rewrite abs_db_lookup, live_lookup in He.
  destruct (map_ db !! k); [eauto|done].
Qed.

Lemma read_request_refines c op n rc : CacheInv c -> read_ok op ->
  exists c' v, read_request c op n rc = Ret (c', v) /\ reads c (c', v) (allowed n op rc (abs c)).
Proof.
  intros Hc Hop. destruct op; cbn [read_request allowed];
    try exact (read_ret c _ _ (execute_read_refines c _ n rc Hc)); try exact (read_ret c _ _ (execute_multi_read_refines c _ n rc Hc)).
  - destruct (cache_keys_refines c p n rc Hc Hop) as (v & -> & Hv). exists c, v. split; [done|]. by split_and!.
  - exists c, (dbsize c n). split; [done|]. split_and!; try done. by apply dbsize_refines.
Qed.

Lemma expire_all_refines c u : CacheInv c -> refines c u (expire_all c, u, value_ok) (abs c, value_ok).
Proof.
  intros Hc. assert (forall i db, databases c !! i = Some db ->
    map_ (active_expire_cycle_blocking (write_logic_clock c) db) = live (write_logic_clock c) (map_ db) /\
    MochaInv (write_logic_clock c) (active_expire_cycle_blocking (write_logic_clock c) db)) as Hdb.
  { intros i db Hi. apply expire_cycle_spec. exact (inv_mocha c Hc _ _ Hi). }
  split_and!; [| |done|done|apply same_update_refl].
  - apply shrink_inv; [done|]. rewrite <- (list_fmap_id (databases c)) at 1.
    apply Forall2_fmap_2, Forall_Forall2_diag, Forall_lookup. intros i db Hi. destruct (Hdb i db Hi) as [H1 H2].
    split; [done|]. rewrite H1. by rewrite live_mono.
  - unfold abs, expire_all. cbn. rewrite <- list_fmap_compose. apply list_fmap_ext. intros i db Hi.
    destruct (Hdb i db Hi) as [H1 H2]. cbn. unfold abs_db. by rewrite H1, live_mono.
Qed.

Lemma base_request_refines c op u : CacheInv c -> base_ok op -> is_u64 (write_clock u) -> applies (update_type u) ->
  refines c u (base_request c op u) (spec_base (write_logic_clock c) (write_clock u) (db_number u) op (abs c)).
Proof.
  intros Hc Hop Hwc Hu. destruct op; cbn [base_request spec_base base_ok] in *;
    try (by apply execute_compute_refines); try done.
  - by apply expire_all_refines.
  - by apply del_refines.
  - by apply flush_db_refines.
  - by apply flush_all_refines.
  - by apply unlink_refines.
  - by apply execute_multi_read_compute_refines.
Qed.

(** A request's outcome against the specification. *)
Definition request_refines (c : MyCache) (u : Update) (res : outcome (MyCache * Update * Value)) (spec : PStore * (Value -> Prop)) : Prop :=
  exists c' u' v, res = Ret (c', u', v) /\
    CacheInv c' /\ abs c' = spec.1 /\ spec.2 v /\ write_logic_clock c' = write_logic_clock c /\ same_update u u'.

Lemma certain_refines c u res p : refines c u res p -> request_refines c u (Ret res) (certain p).
Proof. destruct res as [[c' u'] v]. intros (? & ? & ? & ? & ?). by exists c', u', v. Qed.

Lemma same_update_db u u' : same_update u u' -> db_number u' = db_number u /\ write_clock u' = write_clock u.
Proof. intros H. unfold same_update in H. naive_solver. Qed.

(** One operation keeps what the next one needs. *)
Lemma exec_step c u op ops vec now wc n :
  now = write_logic_clock c -> wc = write_clock u -> n = db_number u ->
  request_refines c u (do_request c op u) (spec_request now wc n op (abs c)) ->
  (forall c' u' vec', CacheInv c' -> now = write_logic_clock c' -> wc = write_clock u' -> n = db_number u' -> same_update u u' ->
    request_refines c' u' (exec_loop c' ops u' vec') ((spec_exec now wc n ops (abs c')).1,
      fun r => exists rs, r = Array (Some (vec' ++ rs)) /\ (spec_exec now wc n ops (abs c')).2 rs)) ->
  request_refines c u (exec_loop c (op :: ops) u vec) ((spec_exec now wc n (op :: ops) (abs c)).1,
    fun r => exists rs, r = Array (Some (vec ++ rs)) /\ (spec_exec now wc n (op :: ops) (abs c)).2 rs).
Proof.
  intros -> -> -> (c1 & u1 & v1 & E1 & Hc1 & Ha1 & Hv1 & Hk1 & Hu1) Hrest. cbn [exec_loop spec_exec]. rewrite E1.
  destruct (spec_request _ _ _ op (abs c)) as [s1 p1]. cbn [fst snd] in *. subst s1.
  destruct (same_update_db u u1 Hu1) as [Hd Hw].
  destruct (Hrest c1 u1 (vec ++ [v1]) Hc1 (eq_sym Hk1) (eq_sym Hw) (eq_sym Hd) Hu1) as (c2 & u2 & v2 & E2 & Hc2 & Ha2 & Hv2 & Hk2 & Hu2).
  exists c2, u2, v2. destruct (spec_exec _ _ _ ops (abs c1)) as [s2 p2]. cbn [fst snd] in *.
  destruct Hv2 as (rs & -> & Hrs). split_and!; [done..| |congruence|by eapply same_update_trans].
  exists (v1 :: rs). split; [by rewrite <- app_assoc|eauto].
Qed.

Fixpoint do_request_refines_aux (op : Operation) : forall c u, CacheInv c -> op_ok op -> is_u64 (write_clock u) -> applies (update_type u) ->
  request_refines c u (do_request c op u) (spec_request (write_logic_clock c) (write_clock u) (db_number u) op (abs c))
with redis_request_refines_aux (op : RedisOperation) : forall c u, CacheInv c -> redis_ok op -> is_u64 (write_clock u) -> applies (update_type u) ->
  request_refines c u (redis_request c op u) (spec_redis (write_logic_clock c) (write_clock u) (db_number u) op (abs c)).
Proof.
  - destruct op; intros c u Hc Hop Hwc Hu; cbn [do_request spec_request op_ok] in *.
    + apply certain_refines. by apply base_request_refines.
    + destruct (read_request_refines c op (db_number u) None Hc Hop) as (c' & v & -> & ? & ? & ? & ? & ?).
      exists c', u, v. split_and!; try done. apply same_update_refl.
    + by apply redis_request_refines_aux.
  - destruct op as [p|p|p|p|p|p|p|p|p|p|ops|p|p|p]; intros c u Hc Hop Hwc Hu.
    11: { change (all_ok ops) in Hop. change (redis_request c (RedisExec ops) u) with (exec_loop c ops u []).
      change (spec_redis (write_logic_clock c) (write_clock u) (db_number u) (RedisExec ops) (abs c)) with
        (let '(s', p) := spec_exec (write_logic_clock c) (write_clock u) (db_number u) ops (abs c) in
         (s', fun r => exists rs, r = Array (Some rs) /\ p rs)).
      assert (forall now wc n c u vec, CacheInv c -> is_u64 (write_clock u) -> applies (update_type u) ->
        now = write_logic_clock c -> wc = write_clock u -> n = db_number u ->
        request_refines c u (exec_loop c ops u vec) ((spec_exec now wc n ops (abs c)).1,
          fun r => exists rs, r = Array (Some (vec ++ rs)) /\ (spec_exec now wc n ops (abs c)).2 rs)) as Hgo.
      { clear c u Hc Hwc Hu. induction ops as [|op ops IH]; intros now wc n c u vec Hc Hwc Hu -> -> ->.
        - exists c, u, (Array (Some vec)). split_and!; try done; [|apply same_update_refl].
          exists []. by rewrite app_nil_r.
        - destruct Hop as [Ho Hops]. apply exec_step; [done..|by apply do_request_refines_aux|].
          intros c' u' vec' Hc' Hk Hw Hd Hsu. apply IH; try done; [by rewrite <- Hw|by eapply same_update_applies]. }
      specialize (Hgo _ _ _ c u [] Hc Hwc Hu eq_refl eq_refl eq_refl). destruct (spec_exec _ _ _ _ _). exact Hgo. }
    all: cbn [redis_request spec_redis redis_ok] in *; try done; apply certain_refines.
    + by apply redis_set_refines.
    + by apply redis_setnx_refines.
    + by apply redis_setex_refines.
    + by apply redis_psetex_refines.
    + by apply redis_get_set_refines.
    + by apply redis_mset_refines.
    + by apply redis_del_refines.
    + by apply redis_rename_refines.
    + by apply redis_rename_nx_refines.
    + by apply redis_sunionstore_refines.
    + by apply redis_sdiffstore_refines.
    + by apply redis_unlink_refines.
Qed.

End Refinement.

Lemma cache_new_inv n : CacheInv (my_cache_new n).
Proof.
  assert (forall i db, databases (my_cache_new n) !! i = Some db -> db = mocha_new 0) as Hdb.
  { intros i db Hi. by apply lookup_replicate in Hi as [-> _]. }
  assert (forall i k e, ~ entry_at (my_cache_new n) i k e) as Hnone.
  { intros i k e (db & Hi & He). rewrite (Hdb i db Hi) in He. cbn in He. by rewrite live_empty in He. }
  constructor; cbn [write_logic_clock my_cache_new heap].
  - unfold is_u64. lia.
  - intros i db Hi. rewrite (Hdb i db Hi). apply mocha_new_inv. unfold is_u64. lia.
  - intros v d l Hv Hl. destruct v; cbn in Hv; try done.
  - intros i k e He. by destruct (Hnone i k e).
  - intros i k e a He. by destruct (Hnone i k e).
  - intros i k e i' k' e' l He. by destruct (Hnone i k e).
Qed.

(** A script environment that runs nothing and sizes that are all 0. *)
Definition no_lua : LuaEnv := {| exec_lua c p u := Ret (c, u, Err (Custom (str "ERR scripts are disabled"))) |}.
Definition no_mem : MemEnv := {|
  size_usize := 8; size_bytes := 32; size_my_value := 48; size_list_cell := 40; size_set_cell := 56; size_hash_cell := 56;
  size_zset_cell := 80; size_hash_slot := 72; size_score_slot := 40; size_tree_entry := 40;
  list_capacity _ := 4; set_capacity _ := 4; hash_capacity _ := 4; zset_capacity _ := 4
|}.

