(* ===== verification/Answers.v ===== *)
(** * Answers: the specification of an operation with scripts in it.

    Handler specifies the operations that clients send one at a time. Here an
    operation may also run a script, alone or inside a transaction: what a script
    does to the plain store is a relation [evals], so the specification [answers]
    of an operation is a relation too. [ScriptSpec] is the interface between a Lua
    environment and the replicated state: the scripts it can run, what they do,
    and that [exec_lua] does it. *)

From S2P Require Import Prelude Reply SortedSet F64 Mocha Ops Store Refine Memory Handler.

#[local] Set Warnings "-register-all".

(** An operation that is neither a script nor a transaction. *)
Definition single (op : Operation) : bool :=
  match op with
  | Redis (RedisEval _) | Redis (RedisExec _) => false
  | _ => true
  end.

Lemma operation_ind (P : Operation -> Prop) :
  (forall op, single op = true -> P op) -> (forall p, P (Redis (RedisEval p))) ->
  (forall ops, Forall P ops -> P (Redis (RedisExec ops))) -> forall op, P op.
Proof.
  intros Hs He Hx. fix IH 1. intros [op|op|[p|p|p|p|p|p|p|p|p|p|ops|p|p|p]]; try (apply Hs; reflexivity).
  - apply He.
  - apply Hx. induction ops as [|op ops IHl]; constructor; [apply IH|apply IHl].
Qed.

(** The single operations have [Q], the scripts [nested]. *)
Fixpoint with_scripts (Q : Operation -> Prop) (nested : EvalParams -> Prop) (op : Operation) : Prop :=
  match op with
  | Redis (RedisEval p) => nested p
  | Redis (RedisExec ops) =>
      (fix all (ops : list Operation) : Prop :=
         match ops with [] => True | op :: ops' => with_scripts Q nested op /\ all ops' end) ops
  | _ => Q op
  end.

Lemma with_scripts_single Q nested op : single op = true -> with_scripts Q nested op <-> Q op.
Proof. by destruct op as [op|op|[]]. Qed.

Lemma with_scripts_exec Q nested ops :
  with_scripts Q nested (Redis (RedisExec ops)) <-> Forall (with_scripts Q nested) ops.
Proof.
  cbn [with_scripts]. induction ops as [|op ops IH]; [by split; [constructor|]|]. by rewrite Forall_cons, IH.
Qed.

Lemma with_scripts_mono (Q Q' : Operation -> Prop) (N N' : EvalParams -> Prop) op :
  (forall op, Q op -> Q' op) -> (forall p, N p -> N' p) -> with_scripts Q N op -> with_scripts Q' N' op.
Proof.
  intros HQ HN. induction op as [op Hop|p|ops IH] using operation_ind.
  - rewrite !with_scripts_single by done. apply HQ.
  - apply HN.
  - rewrite !with_scripts_exec. induction IH; rewrite ?Forall_cons; [done|]. naive_solver.
Qed.

(** An operation without scripts is fine whatever scripts are. *)
Lemma op_ok_scripts nested op : op_ok op -> with_scripts op_ok nested op.
Proof.
  induction op as [op Hop|p|ops IH] using operation_ind.
  - by rewrite with_scripts_single.
  - done.
  - intros Hops. apply with_scripts_exec. change (all_ok ops) in Hops. induction IH as [|op ops Hop _ IHl]; [constructor|].
    destruct Hops as [H1 H2]. constructor; auto.
Qed.

(** A list of operations, one after the other. *)
Inductive in_order (R : Operation -> PStore -> PStore -> Value -> Prop) : list Operation -> PStore -> PStore -> list Value -> Prop :=
| in_order_nil s : in_order R [] s s []
| in_order_cons op ops s s1 s' v vs : R op s s1 v -> in_order R ops s1 s' vs -> in_order R (op :: ops) s s' (v :: vs).

Section Spec.
Context `{E : Env} `{OF : OrderedFloat} `{ME : MemEnv} (now wc n : Z) (evals : EvalParams -> PStore -> PStore -> Value -> Prop).

Inductive answers : Operation -> PStore -> PStore -> Value -> Prop :=
| answers_single op s v :
    single op = true -> (spec_request now wc n op s).2 v -> answers op s (spec_request now wc n op s).1 v
| answers_eval p s s' v : evals p s s' v -> answers (Redis (RedisEval p)) s s' v
| answers_exec ops s s' vs : in_order answers ops s s' vs -> answers (Redis (RedisExec ops)) s s' (Array (Some vs)).

Abbreviation answers_all := (in_order answers).

Lemma answers_single_inv op s s' v : single op = true -> answers op s s' v ->
  s' = (spec_request now wc n op s).1 /\ (spec_request now wc n op s).2 v.
Proof. intros Hop H. inversion H; subst; done. Qed.

Lemma answers_exec_inv ops s s' v : answers (Redis (RedisExec ops)) s s' v -> exists vs, v = Array (Some vs) /\ answers_all ops s s' vs.
Proof. intros H. inversion H; subst; [done|eauto]. Qed.

Lemma answers_eval_inv p s s' v : answers (Redis (RedisEval p)) s s' v -> evals p s s' v.
Proof. intros H. inversion H; subst; done. Qed.
End Spec.

(** ** What a step has to show *)

(** It returns, and the result is one the specification allows. *)
Definition step_refines {A} (c : MyCache) (u : Update) (res : outcome (MyCache * Update * A)) (spec : PStore -> A -> Prop) : Prop :=
  exists c' u' a, res = Ret (c', u', a) /\ CacheInv c' /\ spec (abs c') a /\ write_logic_clock c' = write_logic_clock c /\ same_update u u'.

Definition ready (now wc n : Z) (c : MyCache) (u : Update) : Prop :=
  CacheInv c /\ is_u64 wc /\ applies (update_type u) /\ now = write_logic_clock c /\ wc = write_clock u /\ n = db_number u.

Lemma ready_next now wc n c u c' u' : ready now wc n c u -> CacheInv c' -> write_logic_clock c' = write_logic_clock c ->
  same_update u u' -> ready now wc n c' u'.
Proof.
  intros (? & ? & ? & -> & -> & ->) Hc' Hk Hu. destruct (same_update_db u u' Hu) as [Hd Hw].
  unfold ready. rewrite Hk, Hd, Hw. split_and!; try done. by eapply same_update_applies.
Qed.

Lemma step_weaken {A} (c : MyCache) (u : Update) (res : outcome (MyCache * Update * A)) (P Q : PStore -> A -> Prop) :
  step_refines c u res P -> (forall s a, P s a -> Q s a) -> step_refines c u res Q.
Proof. intros (c' & u' & a & ? & ? & ? & ? & ?) Himp. exists c', u', a. split_and!; auto. Qed.

(** A step with what follows it. *)
Lemma step_then {A B} (now wc n : Z) (c : MyCache) (u : Update) (first : outcome (MyCache * Update * A))
    (rest : MyCache -> Update -> A -> outcome (MyCache * Update * B)) (P : PStore -> A -> Prop) (Q : PStore -> PStore -> A -> B -> Prop) :
  ready now wc n c u -> step_refines c u first P ->
  (forall c' u' a, ready now wc n c' u' -> P (abs c') a -> step_refines c' u' (rest c' u' a) (fun s' b => Q (abs c') s' a b)) ->
  step_refines c u (match first with Ret (c', u', a) => rest c' u' a | Panic => Panic | OutOfFuel => OutOfFuel end)
    (fun s' b => exists s1 a, P s1 a /\ Q s1 s' a b).
Proof.
  intros Hr (c1 & u1 & a & -> & Hc1 & Ha & Hk & Hs) Hrest.
  destruct (Hrest c1 u1 a (ready_next _ _ _ _ _ _ _ Hr Hc1 Hk Hs) Ha) as (c2 & u2 & b & E2 & Hc2 & Hb & Hk2 & Hs2).
  exists c2, u2, b. split_and!; [done..| |congruence|by eapply same_update_trans]. by exists (abs c1), a.
Qed.

Section Refinement.
Context `{E : Env} `{!EnvOk E} `{OF : OrderedFloat} `{ME : MemEnv} `{LE : LuaEnv}.
Context (now wc n : Z) (nested : EvalParams -> Prop) (evals : EvalParams -> PStore -> PStore -> Value -> Prop).
Hypothesis nested_refines : forall p c u, ready now wc n c u -> nested p ->
  step_refines c u (do_request c (Redis (RedisEval p)) u) (evals p (abs c)).

Lemma exec_answers ops : Forall (fun op => forall c u, ready now wc n c u ->
    step_refines c u (do_request c op u) (answers now wc n evals op (abs c))) ops ->
  forall c u vec, ready now wc n c u ->
  step_refines c u (exec_loop c ops u vec) (fun s' v => exists vs, v = Array (Some (vec ++ vs)) /\ in_order (answers now wc n evals) ops (abs c) s' vs).
Proof.
  induction 1 as [|op ops Hop _ IH]; intros c u vec Hr; cbn [exec_loop].
  - exists c, u, (Array (Some vec)). split_and!; [done|apply Hr| |done|apply same_update_refl]. exists []. by rewrite app_nil_r; split; [|constructor].
  - eapply step_weaken; [apply (step_then now wc n c u _ _ _ (fun s1 s' v r => exists vs, r = Array (Some ((vec ++ [v]) ++ vs)) /\
      in_order (answers now wc n evals) ops s1 s' vs) Hr (Hop c u Hr))|].
    + intros c' u' v Hr' _. by apply IH.
    + intros s' r (s1 & v & H1 & vs & -> & H2). exists (v :: vs). split; [by rewrite <- app_assoc|by econstructor].
Qed.

Lemma request_answers op : with_scripts op_ok nested op -> forall c u, ready now wc n c u ->
  step_refines c u (do_request c op u) (answers now wc n evals op (abs c)).
Proof.
  induction op as [op Hop|p|ops IH] using operation_ind; intros Hok c u Hr.
  - apply with_scripts_single in Hok; [|done]. destruct Hr as (Hc & Hwc & Hu & -> & -> & ->).
    destruct (do_request_refines_aux op c u Hc Hok Hwc Hu) as (c' & u' & v & E1 & Hc' & Ha & Hv & Hk & Hs).
    exists c', u', v. split_and!; try done. rewrite Ha. by constructor.
  - eapply step_weaken; [by apply nested_refines|]. intros. by constructor.
  - apply with_scripts_exec in Hok. change (do_request c (Redis (RedisExec ops)) u) with (exec_loop c ops u []).
    eapply step_weaken; [apply exec_answers; [|done]|].
    + apply Forall_forall. intros op Hin. apply (proj1 (Forall_forall _ _) IH op Hin). by apply (proj1 (Forall_forall _ _) Hok).
    + intros s' v (vs & -> & Hvs). by constructor.
Qed.
End Refinement.

(** ** The interface of scripts *)

Class ScriptSpec `{E : Env} `{OF : OrderedFloat} `{ME : MemEnv} (LE : LuaEnv) := {
  script_fits : EvalParams -> Prop;
  script_evals : Z -> Z -> Z -> EvalParams -> PStore -> PStore -> Value -> Prop;
  script_evals_refines now wc n p c u : ready now wc n c u -> script_fits p ->
    step_refines c u (do_request c (Redis (RedisEval p)) u) (script_evals now wc n p (abs c))
}.

(** The operations that a replica can apply, and what they do. *)
Definition op_fits `{ScriptSpec} : Operation -> Prop := with_scripts op_ok script_fits.
Definition op_answers `{ScriptSpec} (now wc n : Z) : Operation -> PStore -> PStore -> Value -> Prop :=
  answers now wc n (script_evals now wc n).

Lemma request_op_answers `{E : Env} `{!EnvOk E} `{OF : OrderedFloat} `{ME : MemEnv} (LE : LuaEnv) `{SS : !ScriptSpec LE} now wc n op c u :
  ready now wc n c u -> op_fits op -> step_refines c u (do_request c op u) (op_answers now wc n op (abs c)).
Proof. intros Hr Hop. apply (request_answers now wc n script_fits); [|done..]. intros. by apply script_evals_refines. Qed.

(** No script is expected. *)
Program Definition no_scripts `{E : Env} `{OF : OrderedFloat} `{ME : MemEnv} (LE : LuaEnv) : ScriptSpec LE := {|
  script_fits _ := False;
  script_evals _ _ _ _ _ _ _ := False
|}.
Next Obligation. done. Qed.
