(* ===== verification/Requests.v ===== *)
(** * Requests: what the parsers produce.

    The refinement of the request handler is stated for operations whose
    numbers fit their machine types. Here every parser of a data command is
    shown to produce only such operations from arguments as the RESP parser makes
    them: its integers are 64-bit integers ([decoded_items_ok] in Safety). KEYS is the exception: its pattern may be one the matcher panics on. *)

From S2P Require Import Prelude Text F64 Reply Args Glob SortedSet Mocha Ops Store Refine ListCmd StringCmd KeyCmd HashCmd SetCmd Spop ZSetCmd BitmapCmd HllCmd Memory Handler.

Create HintDb requests.

(** Arguments as they come from a connection. *)
Definition items_ok (items : list Value) : Prop :=
  Forall (fun v => forall n, v = Integer n -> is_i64 n) items /\ argc items <= i64_max.

Definition request_ok (f : list Value -> parsed Operation) : Prop :=
  forall items op, items_ok items -> f items = Ok op -> op_ok op.

Definition operation_ok (f : list Value -> parsed ReadOperation) : Prop :=
  forall items op, items_ok items -> f items = Ok op -> read_ok op.

(** ** Numbers *)

Lemma parse_u64_str_range s z : parse_u64_str s = Some z -> is_u64 z.
Proof.
  unfold parse_u64_str, is_u64, u64_max. case_match eqn:Em; [|done]. destruct (Z.leb_spec z0 (2 ^ 64 - 1)); [|done].
  intros [= <-]. split; [|lia]. assert (forall l, parse_digits l = Some z0 -> 0 <= z0) as Hd.
  { intros [|b l]; [done|]. apply digits_val_nonneg. lia. }
  revert Em. repeat case_match; apply Hd.
Qed.

Lemma item_integer items i n : items_ok items -> item items i = Integer n -> is_i64 n.
Proof.
  intros [Hall _]. unfold item. destruct (items !! i) as [v|] eqn:E; [|done]. cbn. intros ->.
  exact (proj1 (Forall_forall _ _) Hall (Integer n) (list_elem_of_lookup_2 _ _ _ E) n eq_refl).
Qed.

Lemma value_parse_i64_range items i z : items_ok items -> value_parse_i64 (item items i) = Some z -> is_i64 z.
Proof.
  intros Hi. destruct (item items i) as [| |n|[d|]| | | | | | | | | | | |] eqn:E; cbn; try done; try apply parse_i64_str_range.
  intros [= <-]. by apply (item_integer items i).
Qed.

Lemma value_parse_u64_range v z : (forall n, v = Integer n -> is_i64 n) -> value_parse_u64 v = Some z -> is_u64 z.
Proof.
  intros Hi. destruct v as [| |n|[d|]| | | | | | | | | | | |]; cbn; try done; try apply parse_u64_str_range.
  destruct (Z.leb_spec 0 n); [|done]. intros [= <-]. specialize (Hi n eq_refl). unfold is_i64, is_u64, i64_min, i64_max, u64_max in *. lia.
Qed.

Lemma strings_from_length items n e l : strings_from items n e = Ok l -> Z.of_nat (length l) <= argc items.
Proof.
  unfold strings_from, argc. case_match; [done|]. intros [= <-].
  pose proof (map_while_length (drop n items)). rewrite length_drop in *. lia.
Qed.

(** ** Parsers *)

Lemma ok_or_ok {A X} (o : option A) (e : X) a : ok_or o e = Ok a -> o = Some a.
Proof. destruct o; cbn; congruence. Qed.

(** Runs through the checks of a parser that has succeeded. *)
Ltac parsed H :=
  repeat match type of H with
  | result_bind ?m _ = Ok _ => let E := fresh "E" in destruct m eqn:E; cbn [result_bind] in H; [|discriminate H]
  | (if ?b then _ else _) = Ok _ => let E := fresh "E" in destruct b eqn:E; [try discriminate H|try discriminate H]
  | (match ?x with _ => _ end) = Ok _ => let E := fresh "E" in destruct x eqn:E; try discriminate H
  end;
  try (injection H as <-);
  repeat match goal with E : ok_or _ _ = Ok _ |- _ => apply ok_or_ok in E end.

(** A parser whose operation carries no bounded number. *)
Ltac request_trivial f := intros ? ? _ H; unfold f in H; parsed H; exact I.

Lemma lrem_request_ok : request_ok lrem_request.
Proof. intros items op Hi H. unfold lrem_request in H. parsed H. cbn. by eapply value_parse_i64_range. Qed.

Lemma incrby_request_ok : request_ok incrby_request.
Proof. intros items op Hi H. unfold incrby_request in H. parsed H. cbn. by eapply value_parse_i64_range. Qed.

Lemma hincrby_request_ok : request_ok hincrby_request.
Proof.
  intros items op Hi H. unfold hincrby_request, try_parse_i64 in H. parsed H. cbn. by eapply value_parse_i64_range.
Qed.

Lemma setbit_request_ok : request_ok setbit_request.
Proof.
  intros items op Hi H. unfold setbit_request in H. parsed H. cbn.
  refine (proj1 (value_parse_u64_range (item items 2) _ _ ltac:(eassumption))). intros n. by apply item_integer.
Qed.

Lemma del_request_ok : request_ok del_request.
Proof.
  intros items op [_ Hl] H. unfold del_request in H. parsed H.
  match goal with E : strings_from _ _ _ = _ |- _ => apply strings_from_length in E end.
  repeat case_match; cbn; try done; cbn in *; lia.
Qed.

Lemma unlink_request_ok : request_ok unlink_request.
Proof.
  intros items op [_ Hl] H. unfold unlink_request in H. parsed H.
  match goal with E : strings_from _ _ _ = _ |- _ => apply strings_from_length in E end.
  repeat case_match; cbn; try done; cbn in *; lia.
Qed.

Lemma set_options_ok items : forall p p', Forall (fun v => forall n, v = Integer n -> is_i64 n) items ->
  (forall t, sp_expiration p = Some (PxAt t) -> is_u64 t) -> set_options p items = Ok p' ->
  forall t, sp_expiration p' = Some (PxAt t) -> is_u64 t.
Proof.
  induction items as [items IH] using (induction_ltof1 _ (@length Value)). unfold ltof in IH.
  destruct items as [|it rest]; intros p p' Hall Hp H; [by injection H as <-|].
  apply Forall_cons in Hall as [_ Hrest]. cbn [set_options] in H. cbn [length] in IH.
  assert (forall mk, match sp_expiration p, rest with
     | None, n :: rest' => let? t := try_parse_u64 n in
         set_options (mkSetParams (sp_key p) (sp_value p) (sp_mode p) (sp_get p) (Some (mk t))) rest'
     | _, _ => Err SyntaxError end = Ok p' -> (forall t t', mk t = PxAt t' -> t = t') ->
     forall t, sp_expiration p' = Some (PxAt t) -> is_u64 t) as Htimed.
  { intros mk Ht Hmk. destruct (sp_expiration p); [done|]. destruct rest as [|n rest']; [done|].
    apply Forall_cons in Hrest as [Hn Hrest]. unfold try_parse_u64 in Ht. destruct (ok_or _ _) as [z|] eqn:Ez in Ht; [|done].
    apply ok_or_ok in Ez. cbn [length result_bind] in *. refine (IH rest' ltac:(lia) _ _ Hrest _ Ht).
    cbn. intros t [= <-%Hmk]. by apply (value_parse_u64_range n). }
  destruct (ok_or (upper_flag it) SyntaxError) as [arg|]; [|done]. cbn [result_bind] in H.
  repeat (match type of H with (if ?b then _ else _) = _ => destruct b end); try done;
    try (refine (Htimed _ H _); congruence); try (destruct (sp_mode p); [done|]); try (destruct (sp_expiration p) eqn:Ee; [done|]);
    (refine (IH rest ltac:(lia) _ _ Hrest _ H); cbn; congruence || exact Hp || (rewrite Ee; exact Hp)).
Qed.

Lemma set_request_ok : request_ok set_request.
Proof.
  intros items op [Hall _] H. unfold set_request in H. destruct (set_parse items) as [p|] eqn:Hp; [|done].
  injection H as <-. unfold set_parse in Hp. parsed Hp. refine (set_options_ok _ _ _ _ _ Hp); [by apply Forall_drop|done].
Qed.

(** The parsers whose operations carry no bounded number. *)
Lemma plain_requests_ok : Forall request_ok [
  lpush_request; rpush_request; lpop_request; rpop_request; lset_request; ltrim_request; hdel_request;
   hset_request; hsetnx_request; expire_request; flushall_request; flushdb_request; persist_request;
   pexpire_request; rename_request; renamenx_request; sadd_request; sinterstore_request; srem_request;
   append_request; decr_request; decrby_request; incr_request; mset_request; zincrby_request; spop_request;
   sdiffstore_request; sunionstore_request; pfadd_request; setnx_request; getset_request; setex_request;
   psetex_request; zadd_request; zpopmin_request; zrem_request; bitfield_request].
Proof.
  repeat apply Forall_cons_2; try exact (Forall_nil_2 _).
  all: match goal with |- request_ok ?f => request_trivial f end.
Qed.

Lemma plain_operations_ok : Forall operation_ok [
  hgetall_operation; hvals_operation; hget_operation; hkeys_operation; hmget_operation; hexists_operation;
   hlen_operation; llen_operation; lrange_operation; lindex_operation; smembers_operation;
   sismember_operation; scard_operation; srandmember_operation; get_operation; strlen_operation;
   exists_operation; sdiff_operation; sinter_operation; sunion_operation; mget_operation; dbsize_operation;
   pfcount_operation; memory_usage_operation; pttl_operation; ttl_operation; type_operation; zcard_operation;
   zrange_operation; zrangebyscore_operation; zrank_operation; zrevrank_operation; zscore_operation;
   getbit_operation; bitcount_operation; bitpos_operation].
Proof.
  repeat apply Forall_cons_2; try exact (Forall_nil_2 _).
  all: match goal with |- operation_ok ?f => request_trivial f end.
Qed.

#[export] Hint Resolve lrem_request_ok incrby_request_ok hincrby_request_ok setbit_request_ok
  del_request_ok unlink_request_ok set_request_ok : requests.
#[export] Hint Extern 2 (request_ok _) => apply (proj1 (Forall_forall _ _) plain_requests_ok); repeat (apply list_elem_of_here || apply list_elem_of_further) : requests.
#[export] Hint Extern 2 (operation_ok _) => apply (proj1 (Forall_forall _ _) plain_operations_ok); repeat (apply list_elem_of_here || apply list_elem_of_further) : requests.
