(* ===== verification/Script.v ===== *)
(** * Script: Lua scripts and the commands they call.

    Models src/cache_cat/src/protocol/lua_env.rs ([exec_lua] with the functions of
    the [redis] table, [get_or_compile_script]), the command table of scripts in
    src/cache_cat/src/protocol/raft_command.rs ([init_lua], [parse_request]), the
    parameters of EVAL (protocol/lua/eval.rs) and the conversion of Lua errors
    (error.rs).

    The Lua interpreter is a parameter: it turns the text of a script into a
    [Script], the tree of what the script does with the host for every answer it can
    get. A tree is finite along every path, so it stands for a script that ends or
    is stopped. What a script leaves in Lua's global variables is not modelled. *)

From S2P Require Import Prelude Text F64 Reply Args Glob SortedSet TimeWheel Mocha Ops Store Refine.
From S2P Require Import ListCmd StringCmd KeyCmd HashCmd SetCmd Spop ZSetCmd BitmapCmd HllCmd Memory Handler Answers Requests Lua.
From Stdlib Require Import Strings.Byte.

(** ** The parameters of EVAL *)

Definition eval_arg (v : Value) : option bytes :=
  match v with
  | BulkString (Some data) => Some data
  | SimpleString s => Some s
  | Integer i => Some (i64_to_string i)
  | _ => None
  end.

(** [map_while] over the arguments of a script. *)
Fixpoint eval_args_of (items : list Value) : list bytes :=
  match items with
  | [] => []
  | v :: items' => match eval_arg v with Some s => s :: eval_args_of items' | None => [] end
  end.

(** What EVAL and EVALSHA share: the script or its hash, and its parameters. *)
Definition eval_parse (cmd what : String.string) (items : list Value) : parsed (bytes * Z * list bytes * list bytes) :=
  if argc items <? 3 then Err (WrongArgCount (str cmd))
  else
    let? script := ok_or (as_str_lossy (item items 1)) (InvalidArgument (str what)) in
    let? numkeys := try_parse_usize (item items 2) in
    if argc items - 3 <? numkeys then Err (InvalidArgument (str "not enough keys specified"))
    else
      let keys := map_while_string (take (Z.to_nat numkeys) (drop 3 items)) in
      if Z.of_nat (length keys) <? numkeys then Err (InvalidArgument (str "key"))
      else
        let start := (3 + Z.to_nat numkeys)%nat in
        let args := eval_args_of (drop start items) in
        if Z.of_nat (length args) <? argc items - Z.of_nat start then Err (InvalidArgument (str "argument"))
        else Ok (concat script, numkeys, keys, args).

(** EVAL: the protocol is 2 until the command sets the client's. *)
Definition eval_raft_request (items : list Value) : parsed Operation :=
  let? p := eval_parse "eval" "script" items in
  let '(script, numkeys, keys, args) := p in
  Ok (Redis (RedisEval (mkEvalParams script numkeys keys args 2))).

(** ** The commands of scripts *)

(** [to_uppercase] of a command or option word. *)
Definition word_of (v : Value) : option bytes :=
  match v with
  | BulkString (Some data) => Some (to_uppercase (lossy_chars data))
  | SimpleString s => Some (to_uppercase (lossy_chars s))
  | _ => None
  end.

(** [RaftCommand] for a [ReadRaftCommand]. *)
Definition read_raft (read_operation : list Value -> parsed ReadOperation) (items : list Value) : parsed Operation :=
  let? op := read_operation items in Ok (Read op).

Definition init_lua : list (String.string * (list Value -> parsed Operation)) := [
   ("GET", read_raft get_operation); ("SET", set_request); ("DEL", del_request); ("INCR", incr_request);
   ("INCRBY", incrby_request); ("MSET", mset_request); ("MGET", read_raft mget_operation); ("LPUSH", lpush_request);
   ("LRANGE", read_raft lrange_operation); ("EXPIRE", expire_request); ("PEXPIRE", pexpire_request);
   ("APPEND", append_request); ("HSET", hset_request); ("HGET", read_raft hget_operation);
   ("HGETALL", read_raft hgetall_operation); ("HKEYS", read_raft hkeys_operation); ("ZADD", zadd_request);
   ("ZRANGE", read_raft zrange_operation); ("ZRANGEBYSCORE", read_raft zrangebyscore_operation);
   ("SADD", sadd_request); ("HINCRBY", hincrby_request); ("EXISTS", read_raft exists_operation);
   ("PERSIST", persist_request); ("RENAME", rename_request); ("RENAMENX", renamenx_request);
   ("SMEMBERS", read_raft smembers_operation); ("HMGET", read_raft hmget_operation); ("EVAL", eval_raft_request);
   ("SREM", srem_request); ("SETBIT", setbit_request); ("GETBIT", read_raft getbit_operation); ("LPOP", lpop_request);
   ("RPOP", rpop_request); ("PSETEX", psetex_request); ("SETEX", setex_request); ("SETNX", setnx_request);
   ("STRLEN", read_raft strlen_operation); ("HVALS", read_raft hvals_operation); ("LLEN", read_raft llen_operation);
   ("RPUSH", rpush_request); ("TYPE", read_raft type_operation); ("LINDEX", read_raft lindex_operation);
   ("LREM", lrem_request); ("LSET", lset_request); ("SISMEMBER", read_raft sismember_operation);
   ("HEXISTS", read_raft hexists_operation); ("DECRBY", decrby_request); ("PTTL", read_raft pttl_operation);
   ("TTL", read_raft ttl_operation); ("HLEN", read_raft hlen_operation); ("HSETNX", hsetnx_request);
   ("DECR", decr_request); ("GETSET", getset_request); ("ZREM", zrem_request); ("LTRIM", ltrim_request);
   ("FLUSHDB", flushdb_request); ("BITCOUNT", read_raft bitcount_operation); ("BITPOS", read_raft bitpos_operation);
   ("SCARD", read_raft scard_operation); ("BITFIELD", bitfield_request); ("SPOP", spop_request);
   ("SRANDMEMBER", read_raft srandmember_operation); ("SINTER", read_raft sinter_operation);
   ("SUNION", read_raft sunion_operation); ("SDIFF", read_raft sdiff_operation); ("SINTERSTORE", sinterstore_request);
   ("SUNIONSTORE", sunionstore_request); ("SDIFFSTORE", sdiffstore_request); ("KEYS", read_raft keys_operation);
   ("ZSCORE", read_raft zscore_operation); ("ZCARD", read_raft zcard_operation);
   ("ZSCORE", read_raft zscore_operation); ("ZRANK", read_raft zrank_operation); ("ZPOPMIN", zpopmin_request);
   ("UNLINK", unlink_request); ("ZREVRANK", read_raft zrevrank_operation); ("ZINCRBY", zincrby_request);
   ("DBSIZE", read_raft dbsize_operation); ("PFCOUNT", read_raft pfcount_operation); ("PFADD", pfadd_request)]%string.

(** [items[0]] panics without items. *)
Definition parse_request (items : list Value) : outcome (parsed Operation) :=
  match items with
  | [] => Panic
  | name :: _ =>
      Ret (match word_of name with
           | None => Err (InvalidArgument (str "command"))
           | Some cmd_name =>
               match find (fun p => is_word cmd_name p.1) init_lua with
               | Some (_, raft_request) => raft_request items
               | None => Err (UnknownCommand cmd_name)
               end
           end)
  end.

(** ** Scripts *)

(** The kinds of [LuaError] that [From<LuaError> for ProtocolError] tells apart. *)
Inductive Raised :=
| LuaSyntaxError (message : bytes)
| LuaRuntimeError (message : bytes)
| LuaMemoryError (message : bytes)
| LuaOtherError (text : bytes).

Definition no_newlines (s : bytes) : bytes := (fun b => if Byte.eqb b x0a then x20 else b) <$> s.

Definition script_error (e : Raised) : ProtocolError :=
  match e with
  | LuaSyntaxError message => ScriptCompileError message
  | LuaRuntimeError message => ScriptError (str "f_script") message
  | LuaMemoryError message => ScriptError (str "unknown") message
  | LuaOtherError text => ScriptError (str "unknown") (no_newlines text)
  end.

(** What a script does next: it ends with a value or an error, it has run another
    1000 instructions, or it calls a function of [redis]. [killed] says whether
    SCRIPT KILL has been received since the hook ran last. The arguments of the
    calls have been converted to [String]s. *)
Inductive Script :=
| SReturn (v : LuaValue)
| SRaise (e : Raised)
| SHook (killed : bool) (k : result unit LuaError -> Script)
| SCall (args : list bytes) (k : result LuaValue LuaError -> Script)
| SPCall (args : list bytes) (k : result LuaValue LuaError -> Script)
| SSetresp (ver : Z) (k : result unit LuaError -> Script)
| SErrorReply (msg : bytes) (k : LuaValue -> Script)
| SStatusReply (msg : bytes) (k : LuaValue -> Script).

(** [lua.load(script).into_function()], and the function with KEYS and ARGV. *)
Class Interp := { load : bytes -> result (list bytes -> list bytes -> Script) bytes }.

(** [msg.split(' ').next()]. *)
Fixpoint first_word (msg : bytes) : bytes :=
  match msg with
  | [] => []
  | b :: msg' => if Byte.eqb b x20 then [] else b :: first_word msg'
  end.

(** [redis.error_reply] adds ERR to a message that does not start with an error code. *)
Definition has_error_code (msg : bytes) : bool :=
  existsb (Byte.eqb x20) msg && negb (bool_decide (first_word msg = [])) && forallb (byte_in 65 90) (first_word msg).
Definition error_reply (msg : bytes) : LuaValue :=
  field_table "err" (LString (if has_error_code msg then msg else str "ERR " ++ msg)).
Definition status_reply (msg : bytes) : LuaValue := field_table "ok" (LString msg).

Example error_reply_code :
  error_reply (str "WRONGTYPE no") = field_table "err" (LString (str "WRONGTYPE no")) /\
  error_reply (str "my error") = field_table "err" (LString (str "ERR my error")) /\
  error_reply (str "OOPS") = field_table "err" (LString (str "ERR OOPS")).
Proof. vm_compute. split_and!; reflexivity. Qed.

Section Run.
Context `{E : Env} `{OF : OrderedFloat} `{ME : MemEnv} `{IP : Interp}.

Section Host.
Context `{LE : LuaEnv}.

(** What [redis.call] makes of the reply: an error is thrown. *)
Definition call_answer (resp : Z) (v : Value) : result LuaValue LuaError :=
  match v with
  | Error e => Err (External e)
  | _ => into_lua_value resp v
  end.

(** The interrupt flag after an operation: a script that is run inside a script
    clears it when it starts and sets it when it ends. *)
Definition flag_after (op : Operation) (flag : bool) : bool :=
  match op with
  | Redis (RedisEval p) => match load (eval_script p) with Ok _ => true | Err _ => false end
  | _ => flag
  end.

(** Runs a script against the cache: [resp] is the protocol that [redis.setresp]
    has selected, [flag] the interrupt flag. *)
Fixpoint run_script (t : Script) (c : MyCache) (u : Update) (resp : Z) (flag : bool) :
    outcome (MyCache * Update * result LuaValue Raised) :=
  match t with
  | SReturn v => Ret (c, u, Ok v)
  | SRaise e => Ret (c, u, Err e)
  | SHook killed k =>
      if (flag || killed)%bool then run_script (k (Err (External (str "script interrupted by host")))) c u resp true
      else run_script (k (Ok tt)) c u resp flag
  | SCall args k =>
      match args with
      | [] => run_script (k (Err (External (str "redis.call requires at least one argument")))) c u resp flag
      | _ =>
          match parse_request (SimpleString <$> args) with
          | Ret (Ok op) =>
              match do_request c op u with
              | Ret (c', u', v) => run_script (k (call_answer resp v)) c' u' resp (flag_after op flag)
              | Panic => Panic
              | OutOfFuel => OutOfFuel
              end
          | Ret (Err e) => run_script (k (Err (External (error_text e)))) c u resp flag
          | Panic => Panic
          | OutOfFuel => OutOfFuel
          end
      end
  | SPCall args k =>
      match args with
      | [] => run_script (k (Err (External (str "redis.pcall requires at least one argument")))) c u resp flag
      | _ =>
          match parse_request (SimpleString <$> args) with
          | Ret (Ok op) =>
              match do_request c op u with
              | Ret (c', u', v) => run_script (k (into_lua_value resp v)) c' u' resp (flag_after op flag)
              | Panic => Panic
              | OutOfFuel => OutOfFuel
              end
          | Ret (Err e) => run_script (k (Ok (field_table "err" (LString (error_text e))))) c u resp flag
          | Panic => Panic
          | OutOfFuel => OutOfFuel
          end
      end
  | SSetresp ver k =>
      if (negb (ver =? 2) && negb (ver =? 3))%bool
      then run_script (k (Err (External (str "RESP version must be 2 or 3")))) c u resp flag
      else run_script (k (Ok tt)) c u ver flag
  | SErrorReply msg k => run_script (k (error_reply msg)) c u resp flag
  | SStatusReply msg k => run_script (k (status_reply msg)) c u resp flag
  end.

Definition script_result (proto : Z) (r : result LuaValue Raised) : result Value ProtocolError :=
  match r with
  | Ok v => Ok (from_lua proto v)
  | Err e => Err (script_error e)
  end.

(** [LuaEnv::exec_lua]. The flag is cleared, the protocol is 2. *)
Definition exec_script (c : MyCache) (p : EvalParams) (u : Update) : outcome (MyCache * Update * result Value ProtocolError) :=
  match load (eval_script p) with
  | Err message => Ret (c, u, Err (ScriptCompileError message))
  | Ok func =>
      match run_script (func (eval_keys p) (eval_args p)) c u 2 false with
      | Ret (c', u', r) => Ret (c', u', script_result (eval_proto p) r)
      | Panic => Panic
      | OutOfFuel => OutOfFuel
      end
  end.
End Host.

(** Scripts can run scripts by calling EVAL; [depth] bounds how deep. *)
Fixpoint script_env (depth : nat) : LuaEnv :=
  match depth with
  | O => {| exec_lua _ _ _ := OutOfFuel |}
  | S depth' => {| exec_lua := exec_script (LE := script_env depth') |}
  end.
End Run.

(** ** The cache of compiled scripts

    [LruCache] of the lru crate: [get] finds what was put last under the key, unless
    it has been evicted, and [put] may evict other keys. *)

Class Lru := {
  LruCache : Type;
  cached : LruCache -> gmap bytes (list bytes -> list bytes -> Script);
  lru_get : LruCache -> bytes -> LruCache * option (list bytes -> list bytes -> Script);
  lru_put : LruCache -> bytes -> (list bytes -> list bytes -> Script) -> LruCache;
  lru_get_found c k : (lru_get c k).2 = cached c !! k;
  lru_get_keeps c k : cached (lru_get c k).1 = cached c;
  lru_put_from c k f : cached (lru_put c k f) ⊆ <[k := f]> (cached c)
}.

Section Compiled.
Context `{IP : Interp} `{LC : Lru}.

Definition get_or_compile_script (c : LruCache) (script : bytes) :
    LruCache * result (list bytes -> list bytes -> Script) ProtocolError :=
  match lru_get c script with
  | (c', Some func) => (c', Ok func)
  | (c', None) =>
      match load script with
      | Err message => (c', Err (ScriptCompileError message))
      | Ok func => (lru_put c' script func, Ok func)
      end
  end.

(** What is cached under a text is what the text compiles to. *)
Definition cache_ok (c : LruCache) : Prop := forall k f, cached c !! k = Some f -> load k = Ok f.

(** The cache cannot be seen: a script that is found compiled is the one that
    compiling would give, whatever has been evicted. *)
Lemma compiled_transparent c script : cache_ok c ->
  (get_or_compile_script c script).2 = (match load script with Ok f => Ok f | Err m => Err (ScriptCompileError m) end) /\
  cache_ok (get_or_compile_script c script).1.
Proof.
  intros Hc. unfold get_or_compile_script. pose proof (lru_get_found c script) as Hf. pose proof (lru_get_keeps c script) as Hk.
  destruct (lru_get c script) as [c' [f|]]; cbn in Hf, Hk.
  - rewrite (Hc script f (eq_sym Hf)). split; [done|]. intros k g. cbn. rewrite Hk. apply Hc.
  - destruct (load script) as [f|m] eqn:El; cbn; (split; [done|]); intros k g; [|rewrite Hk; apply Hc].
    intros Hg. pose proof (lookup_weaken _ _ _ _ Hg (lru_put_from c' script f)) as Hi.
    apply lookup_insert_Some in Hi as [[<- <-]|[_ Hi]]; [done|]. apply Hc. by rewrite <- Hk.
Qed.
End Compiled.

(** ** The commands that scripts can call are well formed *)

Lemma script_items_ok args : Z.of_nat (length args) <= i64_max -> items_ok (SimpleString <$> args).
Proof.
  intros H. split; [|unfold argc; by rewrite length_fmap]. apply Forall_fmap, Forall_forall. intros x _ n. cbn. done.
Qed.

Lemma read_raft_ok f : operation_ok f -> request_ok (read_raft f).
Proof. intros Hf items op Hi H. unfold read_raft in H. parsed H. cbn. eauto. Qed.

Lemma init_lua_ok : Forall (fun p : String.string * (list Value -> parsed Operation) =>
  p.1 <> "EVAL"%string -> p.1 <> "KEYS"%string -> request_ok p.2) init_lua.
Proof.
  unfold init_lua. repeat apply Forall_cons_2; try apply Forall_nil_2; cbn [fst snd]; intros H1 H2; try done.
  all: first [apply read_raft_ok; solve [auto with requests] | solve [auto with requests]].
Qed.

Lemma parse_request_ok name args op : Z.of_nat (length (name :: args)) <= i64_max ->
  word_of (SimpleString name) <> Some (str "EVAL") -> word_of (SimpleString name) <> Some (str "KEYS") ->
  parse_request (SimpleString <$> name :: args) = Ret (Ok op) -> op_ok op.
Proof.
  intros Hn He Hk H. unfold parse_request in H. cbn [fmap list_fmap] in H.
  destruct (word_of (SimpleString name)) as [w|]; [|done]. destruct (find _ init_lua) as [[n f]|] eqn:Ef; [|done].
  apply find_some in Ef as [Hin Hw]. apply list_elem_of_In in Hin. apply bool_decide_eq_true in Hw. cbn in Hw. subst w.
  injection H as H. refine (proj1 (Forall_forall _ _) init_lua_ok (n, f) Hin _ _ _ _ (script_items_ok _ Hn) H);
    intros Heq; cbn [fst] in Heq; subst n; [by apply He|by apply Hk].
Qed.

(** ** The specification of a script

    A script on the plain store, as a big-step relation: it takes a store to a
    store, and its result is one of those that the replies of its commands allow. *)

Section Spec.
Context `{E : Env} `{OF : OrderedFloat} `{ME : MemEnv} `{IP : Interp} (now wc n : Z).

Inductive runs : Script -> Z -> bool -> PStore -> PStore -> result LuaValue Raised -> Prop :=
| runs_return v resp flag s : runs (SReturn v) resp flag s s (Ok v)
| runs_raise e resp flag s : runs (SRaise e) resp flag s s (Err e)
| runs_hook killed k resp (flag : bool) s s' r :
    (flag || killed)%bool = false -> runs (k (Ok tt)) resp flag s s' r -> runs (SHook killed k) resp flag s s' r
| runs_interrupted killed k resp (flag : bool) s s' r :
    (flag || killed)%bool = true ->
    runs (k (Err (External (str "script interrupted by host")))) resp true s s' r -> runs (SHook killed k) resp flag s s' r
| runs_call_nothing k resp flag s s' r :
    runs (k (Err (External (str "redis.call requires at least one argument")))) resp flag s s' r -> runs (SCall [] k) resp flag s s' r
| runs_pcall_nothing k resp flag s s' r :
    runs (k (Err (External (str "redis.pcall requires at least one argument")))) resp flag s s' r -> runs (SPCall [] k) resp flag s s' r
| runs_call_refused args k resp flag s s' r e :
    parse_request (SimpleString <$> args) = Ret (Err e) -> runs (k (Err (External (error_text e)))) resp flag s s' r ->
    runs (SCall args k) resp flag s s' r
| runs_pcall_refused args k resp flag s s' r e :
    parse_request (SimpleString <$> args) = Ret (Err e) -> runs (k (Ok (field_table "err" (LString (error_text e))))) resp flag s s' r ->
    runs (SPCall args k) resp flag s s' r
| runs_call args k resp flag s s1 s' r op v :
    parse_request (SimpleString <$> args) = Ret (Ok op) -> answers now wc n evaluates op s s1 v ->
    runs (k (call_answer resp v)) resp (flag_after op flag) s1 s' r -> runs (SCall args k) resp flag s s' r
| runs_pcall args k resp flag s s1 s' r op v :
    parse_request (SimpleString <$> args) = Ret (Ok op) -> answers now wc n evaluates op s s1 v ->
    runs (k (into_lua_value resp v)) resp (flag_after op flag) s1 s' r -> runs (SPCall args k) resp flag s s' r
| runs_setresp ver k resp flag s s' r :
    ver = 2 \/ ver = 3 -> runs (k (Ok tt)) ver flag s s' r -> runs (SSetresp ver k) resp flag s s' r
| runs_setresp_refused ver k resp flag s s' r :
    ver <> 2 -> ver <> 3 -> runs (k (Err (External (str "RESP version must be 2 or 3")))) resp flag s s' r ->
    runs (SSetresp ver k) resp flag s s' r
| runs_error_reply msg k resp flag s s' r : runs (k (error_reply msg)) resp flag s s' r -> runs (SErrorReply msg k) resp flag s s' r
| runs_status_reply msg k resp flag s s' r : runs (k (status_reply msg)) resp flag s s' r -> runs (SStatusReply msg k) resp flag s s' r
with evaluates : EvalParams -> PStore -> PStore -> Value -> Prop :=
| evaluates_not_compiled p s message :
    load (eval_script p) = Err message -> evaluates p s s (protocol_error (ScriptCompileError message))
| evaluates_run p s s' func r :
    load (eval_script p) = Ok func -> runs (func (eval_keys p) (eval_args p)) 2 false s s' r ->
    evaluates p s s' (match script_result (eval_proto p) r with Ok v => v | Err e => protocol_error e end).
End Spec.

(** ** Scripts that the refinement covers *)

Section Ok.
Context `{IP : Interp}.

(** Every operation that the script can ask for, whatever answers it gets, has the
    property [Q]. *)
Fixpoint calls (Q : Operation -> Prop) (t : Script) : Prop :=
  match t with
  | SReturn _ | SRaise _ => True
  | SHook _ k | SSetresp _ k => forall r, calls Q (k r)
  | SCall args k | SPCall args k =>
      (forall op, parse_request (SimpleString <$> args) = Ret (Ok op) -> Q op) /\ forall r, calls Q (k r)
  | SErrorReply _ k | SStatusReply _ k => forall v, calls Q (k v)
  end.

(** The same for a script and the scripts that it runs, at most [depth] deep. *)
Fixpoint eval_calls (Q : Operation -> Prop) (depth : nat) (p : EvalParams) : Prop :=
  match depth with
  | O => False
  | S depth' =>
      match load (eval_script p) with
      | Err _ => True
      | Ok func =>
          calls (with_scripts Q (eval_calls Q depth')) (func (eval_keys p) (eval_args p))
      end
  end.

Lemma calls_mono (P Q : Operation -> Prop) t : (forall op, P op -> Q op) -> calls P t -> calls Q t.
Proof. intros HPQ. induction t; cbn [calls]; naive_solver. Qed.

Lemma eval_calls_mono (P Q : Operation -> Prop) depth : (forall op, P op -> Q op) -> forall p, eval_calls P depth p -> eval_calls Q depth p.
Proof.
  intros HPQ. induction depth as [|depth IH]; intros p; cbn [eval_calls]; [done|]. destruct (load _) as [func|]; [|done].
  apply calls_mono. intros op. by apply with_scripts_mono.
Qed.
End Ok.

Section Refinement.
Context `{E : Env} `{!EnvOk E} `{OF : OrderedFloat} `{ME : MemEnv} `{IP : Interp}.

Section Host.
Context `{LE : LuaEnv} (nested : EvalParams -> Prop) (now wc n : Z).
Hypothesis nested_refines : forall p c u, ready now wc n c u -> nested p ->
  step_refines c u (do_request c (Redis (RedisEval p)) u) (evaluates now wc n p (abs c)).

Lemma parse_request_ret x l : exists r, parse_request (SimpleString <$> x :: l) = Ret r.
Proof. by eexists. Qed.

Lemma run_refines t : calls (with_scripts op_ok nested) t -> forall c u resp flag, ready now wc n c u ->
  step_refines c u (run_script t c u resp flag) (fun s' r => runs now wc n t resp flag (abs c) s' r).
Proof.
  induction t as [v|e|killed k IH|args k IH|args k IH|ver k IH|msg k IH|msg k IH]; intros Hok c u resp flag Hr; cbn [run_script calls] in *.
  - exists c, u, (Ok v). destruct Hr as (? & _). split_and!; try done; [constructor|apply same_update_refl].
  - exists c, u, (Err e). destruct Hr as (? & _). split_and!; try done; [constructor|apply same_update_refl].
  - destruct (flag || killed)%bool eqn:Ef; (eapply step_weaken; [by apply IH|]); intros s r Hs;
      [by apply runs_interrupted|by apply runs_hook].
  - destruct Hok as [Hargs Hk]. destruct args as [|x l]; [eapply step_weaken; [by apply IH|]; intros; by constructor|].
    destruct (parse_request_ret x l) as [[op|e] Hop]; rewrite Hop.
    + eapply step_weaken; [apply (step_then now wc n c u _ _ _ (fun s1 s' v r => runs now wc n (k (call_answer resp v)) resp (flag_after op flag) s1 s' r) Hr
        (request_answers now wc n nested _ nested_refines op (Hargs op Hop) c u Hr))|];
        [by intros; apply IH|]. intros s' r (s1 & v & H1 & H2). by eapply runs_call.
    + eapply step_weaken; [by apply IH|]. intros s' r Hs. by eapply runs_call_refused.
  - destruct Hok as [Hargs Hk]. destruct args as [|x l]; [eapply step_weaken; [by apply IH|]; intros; by constructor|].
    destruct (parse_request_ret x l) as [[op|e] Hop]; rewrite Hop.
    + eapply step_weaken; [apply (step_then now wc n c u _ _ _ (fun s1 s' v r => runs now wc n (k (into_lua_value resp v)) resp (flag_after op flag) s1 s' r) Hr
        (request_answers now wc n nested _ nested_refines op (Hargs op Hop) c u Hr))|];
        [by intros; apply IH|]. intros s' r (s1 & v & H1 & H2). by eapply runs_pcall.
    + eapply step_weaken; [by apply IH|]. intros s' r Hs. by eapply runs_pcall_refused.
  - destruct (Z.eqb_spec ver 2), (Z.eqb_spec ver 3); cbn; (eapply step_weaken; [by apply IH|]); intros s' r Hs;
      (apply runs_setresp; auto; done) || by apply runs_setresp_refused.
  - eapply step_weaken; [by apply IH|]. intros. by constructor.
  - eapply step_weaken; [by apply IH|]. intros. by constructor.
Qed.
End Host.

Lemma eval_refines_aux depth now wc n : forall p c u, ready now wc n c u -> eval_calls op_ok depth p ->
  step_refines c u (do_request (LE := script_env depth) c (Redis (RedisEval p)) u) (evaluates now wc n p (abs c)).
Proof.
  induction depth as [|depth IH]; [done|]. intros p c u Hr Hok. cbn [do_request redis_request].
  unfold eval_request. cbn [exec_lua script_env]. unfold exec_script. cbn [eval_calls] in Hok.
  destruct (load (eval_script p)) as [func|message] eqn:El.
  - destruct (run_refines (LE := script_env depth) (eval_calls op_ok depth) now wc n IH _ Hok c u 2 false Hr) as (c' & u' & r & -> & Hc' & Hs & Hk & Hu).
    eexists c', u', _. split; [done|]. split_and!; try done. by eapply evaluates_run.
  - eexists c, u, _. split; [done|]. destruct Hr as (? & _). split_and!; try done; [by constructor|apply same_update_refl].
Qed.
End Refinement.

(** ** Scripts whose replies are certain

    The replies that depend on the replica are those that show the iteration order
    of a hash table, a random choice, the local clock or the sizes in memory. *)

Definition certain_read (op : ReadOperation) : bool :=
  match op with
  | RSMembers _ | RHGetAll _ | RHKeys _ | RHVals _ | RSInter _ | RSUnion _ | RSDiff _ | RKeys _ => false
  | RSRandMember _ | RTtl _ | RPTtl _ | RDbSize _ | RMemoryUsage _ => false
  | _ => true
  end.

Definition certain_op (op : Operation) : bool :=
  match op with
  | Read r => certain_read r
  | Base _ => true
  | Redis (RedisEval _) | Redis (RedisExec _) => false
  | Redis _ => true
  end.

Section Agree.
Context (E1 E2 : Env) (M1 M2 : MemEnv) `{OF : OrderedFloat} `{IP : Interp}.

Lemma certain_read_agree n op rc s v1 v2 : certain_read op = true ->
  allowed (E := E1) (ME := M1) n op rc s v1 -> allowed (E := E2) (ME := M2) n op rc s v2 -> v1 = v2.
Proof.
  destruct op; intros Hop; try discriminate Hop; cbn [allowed]; unfold read_one, read_many; destruct (s !! Z.to_nat n);
    try congruence; cbn; try (intros -> ->; reflexivity).
  1-6: unfold pread_hash, pread_set; repeat case_match; congruence.
  rewrite length_fmap. intros -> ->; done.
Qed.

Lemma certain_agree now wc n op s v1 v2 : certain_op op = true ->
  (spec_request (E := E1) (ME := M1) now wc n op s).2 v1 -> (spec_request (E := E2) (ME := M2) now wc n op s).2 v2 ->
  v1 = v2 /\ (spec_request (E := E1) (ME := M1) now wc n op s).1 = (spec_request (E := E2) (ME := M2) now wc n op s).1.
Proof.
  destruct op as [op|op|op]; intros Hop; cbn [spec_request].
  - cbn. intros -> ->. by destruct op.
  - cbn. intros H1 H2. split; [by eapply certain_read_agree|done].
  - destruct op; try discriminate Hop; cbn; intros -> ->; done.
Qed.

Abbreviation runs1 := (runs (E := E1) (ME := M1)).
Abbreviation runs2 := (runs (E := E2) (ME := M2)).
Abbreviation evaluates1 := (evaluates (E := E1) (ME := M1)).
Abbreviation evaluates2 := (evaluates (E := E2) (ME := M2)).

Abbreviation answers1 now wc n := (answers (E := E1) (ME := M1) now wc n (evaluates1 now wc n)).
Abbreviation answers2 now wc n := (answers (E := E2) (ME := M2) now wc n (evaluates2 now wc n)).

Definition agreed (now wc n : Z) (op : Operation) : Prop := forall s s1 s2 v1 v2,
  answers1 now wc n op s s1 v1 -> answers2 now wc n op s s2 v2 -> s1 = s2 /\ v1 = v2.

Lemma in_order_agree now wc n ops : Forall (agreed now wc n) ops -> forall s s1 s2 v1 v2,
  in_order (answers1 now wc n) ops s s1 v1 -> in_order (answers2 now wc n) ops s s2 v2 -> s1 = s2 /\ v1 = v2.
Proof.
  induction 1 as [|op ops Hop _ IH]; intros s s1 s2 v1 v2 H1 H2; inversion H1; subst; inversion H2; subst; [done|].
  match goal with A : answers1 _ _ _ _ _ _ _, B : answers2 _ _ _ _ _ _ _ |- _ => destruct (Hop _ _ _ _ _ A B) as [-> ->] end.
  match goal with A : in_order _ _ _ _ _, B : in_order _ _ _ s2 _ |- _ => by destruct (IH _ _ _ _ _ A B) as [-> ->] end.
Qed.

(** Two replicas agree on an operation when its single operations are certain and
    they agree on its scripts. *)
Lemma certain_agreed now wc n (nested : EvalParams -> Prop) op :
  (forall p s s1 s2 v1 v2, nested p -> evaluates1 now wc n p s s1 v1 -> evaluates2 now wc n p s s2 v2 -> s1 = s2 /\ v1 = v2) ->
  with_scripts (fun op => certain_op op = true) nested op -> agreed now wc n op.
Proof.
  intros Hn. induction op as [op Hop|p|ops IH] using operation_ind; intros Hc s s1 s2 v1 v2 H1 H2.
  - apply with_scripts_single in Hc; [|done].
    apply answers_single_inv in H1 as [-> H1]; [|done]. apply answers_single_inv in H2 as [-> H2]; [|done].
    by destruct (certain_agree now wc n op s v1 v2 Hc H1 H2).
  - apply answers_eval_inv in H1, H2. by eapply Hn.
  - apply answers_exec_inv in H1 as (w1 & -> & H1), H2 as (w2 & -> & H2). apply with_scripts_exec in Hc.
    assert (Forall (agreed now wc n) ops) as Hall; [|by destruct (in_order_agree now wc n ops Hall _ _ _ _ _ H1 H2) as [-> ->]].
    apply Forall_forall. intros op Hin. apply (proj1 (Forall_forall _ _) IH op Hin). by apply (proj1 (Forall_forall _ _) Hc).
Qed.

(** Inverts a run of a script whose next action is known. *)
Ltac run_inv H := inversion H; subst; clear H;
  repeat match goal with
  | H1 : parse_request ?a = Ret ?x, H2 : parse_request ?a = Ret ?y |- _ =>
      rewrite H1 in H2; first [discriminate H2 | injection H2 as H2; subst]
  | H1 : ?b = true, H2 : ?b = false |- _ => congruence
  | H1 : parse_request (SimpleString <$> []) = Ret _ |- _ => discriminate H1
  end.

Lemma runs_agree now wc n t : calls (agreed now wc n) t -> forall resp flag s s1 s2 r1 r2,
  runs1 now wc n t resp flag s s1 r1 -> runs2 now wc n t resp flag s s2 r2 -> s1 = s2 /\ r1 = r2.
Proof.
  induction t as [v|e|killed k IH|args k IH|args k IH|ver k IH|msg k IH|msg k IH]; intros Hok resp flag s s1 s2 r1 r2 H1 H2;
    cbn [calls] in Hok; run_inv H1; run_inv H2; try done; try (by eapply IH); try (destruct Hok as [Hargs Hk]; by eapply IH).
  all: try (exfalso; naive_solver).
  all: destruct Hok as [Hargs Hk];
    match goal with
    | Hp : parse_request _ = Ret (Ok ?op), Ha : answers1 _ _ _ ?op _ ?x ?v, Hb : answers2 _ _ _ ?op _ ?y ?w |- _ =>
        destruct (Hargs op Hp _ _ _ _ _ Ha Hb) as [-> ->]; by eapply IH
    end.
Qed.

Lemma evaluates_agree depth now wc n : forall p, eval_calls (fun op => certain_op op = true) depth p -> forall s s1 s2 v1 v2,
  evaluates1 now wc n p s s1 v1 -> evaluates2 now wc n p s s2 v2 -> s1 = s2 /\ v1 = v2.
Proof.
  induction depth as [|depth IH]; [done|]. intros p Hp s s1 s2 v1 v2 H1 H2. cbn [eval_calls] in Hp.
  inversion H1 as [? ? m1 L1|? ? ? f1 r1 L1 R1]; inversion H2 as [? ? m2 L2|? ? ? f2 r2 L2 R2]; subst; rewrite L1 in L2;
    try discriminate L2; injection L2 as L2; subst; [done|].
  rewrite L1 in Hp. assert (calls (agreed now wc n) (f2 (eval_keys p) (eval_args p))) as Hc.
  { revert Hp. apply calls_mono. intros op. apply certain_agreed. intros p' t t1 t2 w1 w2 Hp'. by apply IH. }
  destruct (runs_agree now wc n _ Hc _ _ _ _ _ _ _ R1 R2) as [-> ->]. done.
Qed.

(** ** The next store *)

Lemma single_env now wc n op s : single op = true ->
  (spec_request (E := E1) (ME := M1) now wc n op s).1 = (spec_request (E := E2) (ME := M2) now wc n op s).1.
Proof. destruct op as [[]|op|[]]; done. Qed.

Definition same_store (now wc n : Z) (op : Operation) : Prop := forall s s1 s2 v1 v2,
  answers1 now wc n op s s1 v1 -> answers2 now wc n op s s2 v2 -> s1 = s2.

Lemma in_order_same_store now wc n ops : Forall (same_store now wc n) ops -> forall s s1 s2 v1 v2,
  in_order (answers1 now wc n) ops s s1 v1 -> in_order (answers2 now wc n) ops s s2 v2 -> s1 = s2.
Proof.
  induction 1 as [|op ops Hop _ IH]; intros s s1 s2 v1 v2 H1 H2; inversion H1; subst; inversion H2; subst; [done|].
  match goal with A : answers1 _ _ _ _ _ _ _, B : answers2 _ _ _ _ _ _ _ |- _ => destruct (Hop _ _ _ _ _ A B) end.
  by eapply IH.
Qed.

(** Whatever the single operations reply, two replicas have the same store after an
    operation whose scripts are certain. *)
Lemma stores_agree depth now wc n op :
  with_scripts (fun _ => True) (eval_calls (fun op => certain_op op = true) depth) op -> same_store now wc n op.
Proof.
  induction op as [op Hop|p|ops IH] using operation_ind; intros Hc s s1 s2 v1 v2 H1 H2.
  - apply answers_single_inv in H1 as [-> _]; [|done]. apply answers_single_inv in H2 as [-> _]; [|done]. by apply single_env.
  - apply answers_eval_inv in H1, H2. by eapply (proj1 (evaluates_agree depth now wc n p Hc _ _ _ _ _ H1 H2)).
  - apply answers_exec_inv in H1 as (w1 & _ & H1), H2 as (w2 & _ & H2). apply with_scripts_exec in Hc.
    refine (in_order_same_store now wc n ops _ _ _ _ _ _ H1 H2).
    apply Forall_forall. intros op Hin. apply (proj1 (Forall_forall _ _) IH op Hin). by apply (proj1 (Forall_forall _ _) Hc).
Qed.
End Agree.

(** ** Scripts as the replicated state sees them *)

(** The interpreter with scripts at most [depth] deep implements the interface. *)
#[export] Program Instance script_spec `{E : Env} `{!EnvOk E} `{OF : OrderedFloat} `{ME : MemEnv} `{IP : Interp} (depth : nat) :
    ScriptSpec (script_env depth) := {|
  script_fits := eval_calls op_ok depth;
  script_evals := evaluates
|}.
Next Obligation. intros. by apply eval_refines_aux. Qed.

(** ** Scripts on a replica *)


(** ** Example scripts *)

Definition copy_text : bytes := str "return redis.call('SET', KEYS[2], redis.call('SMEMBERS', KEYS[1])[1])".
Definition count_text : bytes := str "return redis.call('INCRBY', KEYS[1], ARGV[1])".
Definition nested_text : bytes := str "redis.call('EVAL', 'return redis.call(\'INCRBY\', KEYS[1], ARGV[1])', '1', 'n', '5') while true do end".

Definition script_end (r : result LuaValue LuaError) : Script :=
  match r with
  | Ok v => SReturn v
  | Err (External msg) => SRaise (LuaRuntimeError msg)
  | Err IndexIsNil => SRaise (LuaRuntimeError (str "index is nil"))
  end.

(** An interpreter that knows three scripts. *)
Definition sample_interp : Interp := {|
  load text :=
    if bool_decide (text = count_text) then Ok (fun keys args => SCall [str "INCRBY"; nth 0 keys []; nth 0 args []] script_end)
    else if bool_decide (text = copy_text) then
      Ok (fun keys args => SCall [str "SMEMBERS"; nth 0 keys []] (fun r =>
        match r with
        | Ok (LTable ((_, LString m) :: _)) => SCall [str "SET"; nth 1 keys []; m] script_end
        | _ => SRaise (LuaRuntimeError (str "bad argument"))
        end))
    else if bool_decide (text = nested_text) then
      Ok (fun _ _ => SCall [str "EVAL"; count_text; str "1"; str "n"; str "5"] (fun _ =>
        SHook false (fun r => match r with Ok _ => SReturn LNil | Err e => script_end (Err e) end)))
    else Err (str "syntax error")
|}.

Definition count_params : EvalParams := mkEvalParams count_text 1 [str "n"] [str "5"] 2.
Definition copy_params : EvalParams := mkEvalParams copy_text 2 [str "s"; str "k"] [] 2.
Definition nested_params : EvalParams := mkEvalParams nested_text 0 [] [] 2.

Lemma parse_incrby op : parse_request (SimpleString <$> [str "INCRBY"; str "n"; str "5"]) = Ret (Ok op) ->
  with_scripts (fun op => op_ok op /\ certain_op op = true) (fun _ => False) op.
Proof.
  assert (parse_request (SimpleString <$> [str "INCRBY"; str "n"; str "5"]) = Ret (Ok (Base (IncrBy (mkIncrByReq (str "n") 5))))) as ->
    by (vm_compute; reflexivity).
  intros [= <-]. split; [|done]. cbn. unfold is_i64, i64_min, i64_max. lia.
Qed.

(** The reply of a request. *)
Definition reply_of (r : outcome (MyCache * Update * Value)) : option Value := match r with Ret (_, _, v) => Some v | _ => None end.

Lemma count_calls proto : eval_calls (IP := sample_interp) (fun op => op_ok op /\ certain_op op = true) 1
  (mkEvalParams count_text 1 [str "n"] [str "5"] proto).
Proof.
  change (calls (with_scripts (fun op => op_ok op /\ certain_op op = true) (fun _ => False)) (SCall [str "INCRBY"; str "n"; str "5"] script_end)).
  split; [apply parse_incrby|]. intros [v|[|msg]]; exact I.
Qed.


(** A cache with a set of two members. *)
Definition pair_cache : MyCache :=
  (base_request (E := first_env) (OF := ordered_float) (my_cache_new 1) (SAdd (mkSAddReq (str "s") [str "a"; str "b"])) (mkUpdate 0 7 UNone)).1.1.

Lemma pair_cache_inv : CacheInv pair_cache.
Proof.
  pose proof (base_request_refines (E := first_env) (EnvOk0 := first_env_ok) (OF := ordered_float) (my_cache_new 1)
    (SAdd (mkSAddReq (str "s") [str "a"; str "b"])) (mkUpdate 0 7 UNone) (cache_new_inv 1) I) as H.
  unfold pair_cache. destruct (base_request _ _ _) as [[c u] v]. apply H; [|exact I]. unfold is_u64, u64_max. cbn. lia.
Qed.

(** What a replica finds under a key. *)
Definition value_of (k : bytes) (s : PStore) : option PData := (fun e => pdata (e_value e)) <$> (s !! 0%nat ≫= (.!! k)).
Definition found_after (k : bytes) (r : outcome (MyCache * Update * Value)) : option PData :=
  match r with Ret (c, _, _) => value_of k (abs c) | _ => None end.

Abbreviation copy_on E := (do_request (E := E) (OF := ordered_float) (ME := no_mem)
  (LE := script_env (E := E) (OF := ordered_float) (ME := no_mem) (IP := sample_interp) 1)
  pair_cache (Redis (RedisEval copy_params)) (mkUpdate 0 8 UNone)).


(** A script that runs a script is interrupted at its next hook, although nobody
    has asked for it. *)
Example nested_script_interrupted :
  reply_of (do_request (E := first_env) (OF := ordered_float) (ME := no_mem)
    (LE := script_env (E := first_env) (OF := ordered_float) (ME := no_mem) (IP := sample_interp) 2)
    (my_cache_new 1) (Redis (RedisEval nested_params)) (mkUpdate 0 7 UNone)) =
  Some (Error (str "ERR Error running script (call to f_script): script interrupted by host")).
Proof. vm_compute. reflexivity. Qed.
