(* ===== verification/Typed.v ===== *)
(** * Typed: what kind of values the store can hold.

    A value that got into the store through operations is well typed: an
    integer is an [i64], a version is a [u32], the integer fields of a hash are
    [i64]s, and the tree and the map of a sorted set describe the same sorted
    set (the invariant of src/cache_cat/src/raft/types/core/sorted_set.rs, on
    which its reads rely). The theorem is about all operations of
    request_handler.rs at once. *)

From S2P Require Import Prelude Text F64 Reply Args SortedSet Glob TimeWheel Mocha Ops Store Refine.
From S2P Require Import ListCmd StringCmd KeyCmd HashCmd SetCmd Spop ZSetCmd Bits BitmapCmd Hll HllCmd Memory Handler Answers Requests Lua Script.

Definition is_u32 (z : Z) : Prop := 0 <= z < 2 ^ 32.

Definition field_ok (v : HashValue) : Prop := match v with HInt i => is_i64 i | HStr _ => True end.

Section Typed.
Context `{OF : OrderedFloat}.

Definition data_ok (d : PData) : Prop :=
  match d with
  | PInt i => is_i64 i
  | PHash m => map_Forall (fun _ v => field_ok v) m
  | PZSet z => WF z
  | _ => True
  end.

Definition value_typed (v : PValue) : Prop := is_u32 (pversion v) /\ data_ok (pdata v).

Definition db_typed (m : gmap bytes (Entry PValue)) : Prop := map_Forall (fun _ e => value_typed (e_value e)) m.

Definition store_typed (s : PStore) : Prop := Forall db_typed s.

Definition result_typed (op : MochaOperation PValue) : Prop :=
  match op with MInsert v _ => value_typed v | _ => True end.

(** What a command does to a typed value. *)
Class Keeps (C : Type) `{PureCommand C} (cmd : C) : Prop := {
  keeps_mutate e wc : value_typed (value e) -> result_typed (pmutate cmd e wc).1;
  keeps_init : result_typed (pinit cmd).1
}.

Lemma u32_1 : is_u32 1.
Proof. done. Qed.

Lemma wrap_u32_range z : is_u32 (wrap_u32 z).
Proof. apply Z.mod_pos_bound. done. Qed.

Lemma new_typed d : data_ok d -> value_typed (pvalue_new d).
Proof. done. Qed.

Lemma write_back_typed e d : value_typed (value e) -> data_ok d -> result_typed (pwrite_back e d).
Proof. intros [Hv _] Hd. by split. Qed.

Lemma hash_value_ok v : field_ok (hash_value v).
Proof. unfold hash_value. destruct (parse_i64 v) eqn:E; [by apply parse_i64_range in E|done]. Qed.

Lemma pencode_ok s : data_ok (pencode s).
Proof. unfold pencode. destruct (parse_i64 s) eqn:E; [by apply parse_i64_range in E|done]. Qed.

Lemma hset_all_ok els m : map_Forall (fun _ v => field_ok v) m -> map_Forall (fun _ v => field_ok v) (hset_all els m).
Proof.
  intros Hm. unfold hset_all. intros k v Hk. apply lookup_union_Some_raw in Hk as [Hk|[_ Hk]]; [|by apply (Hm k)].
  apply elem_of_list_to_map_2, elem_of_reverse, list_elem_of_fmap in Hk as ([k' v'] & [= -> ->] & _). apply hash_value_ok.
Qed.

Lemma hmset_all_ok els m : map_Forall (fun _ v => field_ok v) m -> map_Forall (fun _ v => field_ok v) (hmset_all els m).
Proof.
  intros Hm. unfold hmset_all. intros k v Hk. apply lookup_union_Some_raw in Hk as [Hk|[_ Hk]]; [|by apply (Hm k)].
  by apply elem_of_list_to_map_2, elem_of_reverse, list_elem_of_fmap in Hk as ([k' v'] & [= -> ->] & _).
Qed.

Lemma filter_typed {A} (P : A -> Prop) (Q : bytes * A -> Prop) `{forall x, Decision (Q x)} (m : gmap bytes A) :
  map_Forall (fun _ v => P v) m -> map_Forall (fun _ v => P v) (filter Q m).
Proof. intros Hm k v [Hk _]%map_lookup_filter_Some. by apply (Hm k). Qed.

(** Most commands build a fresh value or write one of the same kind back. *)
Ltac keeps :=
  constructor; cbn; [intros e wc Hv|]; unfold on_list, on_hash, on_set, on_zset, on_bytes, pset_deadline, pbitfield;
  repeat (case_match; cbn; try done); try (by apply write_back_typed); try (by apply new_typed); try done.

#[global] Instance set_keeps (cmd : SetReq) : Keeps SetReq cmd.
Proof. constructor; cbn; [intros e wc _|]; (split; [apply wrap_u32_range || done|apply pencode_ok]). Qed.

Lemma padd_keeps delta e : result_typed (padd delta e).1.
Proof. unfold padd. repeat (case_match; cbn; try done); split; try done; apply wrap_i64_range. Qed.

#[global] Instance incr_keeps (cmd : IncrReq) : Keeps IncrReq cmd.
Proof. constructor; [intros; apply padd_keeps|]. by split. Qed.
#[global] Instance decr_keeps (cmd : DecrReq) : Keeps DecrReq cmd.
Proof. constructor; [intros; apply padd_keeps|]. by split. Qed.
Lemma incrby_keeps (cmd : IncrByReq) : is_i64 (increment cmd) -> Keeps IncrByReq cmd.
Proof. intros. constructor; [intros; apply padd_keeps|]. by split. Qed.
#[global] Instance decrby_keeps (cmd : DecrByReq) : Keeps DecrByReq cmd.
Proof. constructor; [intros; apply padd_keeps|]. split; [done|]. apply wrap_i64_range. Qed.
#[global] Instance append_keeps (cmd : AppendReq) : Keeps AppendReq cmd.
Proof. keeps. Qed.
#[global] Instance pfadd_keeps (cmd : PfAddReq) : Keeps PfAddReq cmd.
Proof. keeps. Qed.
#[global] Instance setbit_keeps (cmd : SetBitReq) : Keeps SetBitReq cmd.
Proof. keeps. Qed.
#[global] Instance bitfield_keeps (cmd : BitFieldReq) : Keeps BitFieldReq cmd.
Proof. keeps. Qed.
#[global] Instance expire_keeps (cmd : ExpireReq) : Keeps ExpireReq cmd.
Proof. keeps. Qed.
#[global] Instance pexpire_keeps (cmd : PExpireReq) : Keeps PExpireReq cmd.
Proof. keeps. Qed.
#[global] Instance persist_keeps (cmd : PersistReq) : Keeps PersistReq cmd.
Proof. keeps. Qed.
#[global] Instance lpush_keeps (cmd : LPushReq) : Keeps LPushReq cmd.
Proof. keeps. Qed.
#[global] Instance rpush_keeps (cmd : RPushReq) : Keeps RPushReq cmd.
Proof. keeps. Qed.
#[global] Instance lpop_keeps (cmd : LPopReq) : Keeps LPopReq cmd.
Proof. keeps. Qed.
#[global] Instance rpop_keeps (cmd : RPopReq) : Keeps RPopReq cmd.
Proof. keeps. Qed.
#[global] Instance lrem_keeps (cmd : LRemReq) : Keeps LRemReq cmd.
Proof. keeps. Qed.
#[global] Instance lset_keeps (cmd : LSetReq) : Keeps LSetReq cmd.
Proof. keeps. Qed.
#[global] Instance ltrim_keeps (cmd : LTrimReq) : Keeps LTrimReq cmd.
Proof. keeps. Qed.
#[global] Instance sadd_keeps (cmd : SAddReq) : Keeps SAddReq cmd.
Proof. keeps. Qed.
#[global] Instance srem_keeps (cmd : SRemReq) : Keeps SRemReq cmd.
Proof. keeps. Qed.
#[global] Instance spop_keeps (cmd : SPopReq) : Keeps SPopReq cmd.
Proof. keeps. Qed.

(** The content of a typed hash or sorted set. *)
Lemma typed_hash e m : value_typed (value e) -> pdata (value e) = PHash m -> map_Forall (fun _ v => field_ok v) m.
Proof. intros [_ H] E. by rewrite E in H. Qed.
Lemma typed_zset e z : value_typed (value e) -> pdata (value e) = PZSet z -> WF z.
Proof. intros [_ H] E. by rewrite E in H. Qed.

Ltac on_value :=
  constructor; cbn; [intros e wc Hv; unfold on_hash, on_zset; destruct (pdata (value e)) as [| | |m|z|] eqn:Ed; try done;
    try (pose proof (typed_hash e _ Hv Ed)); try (pose proof (typed_zset e _ Hv Ed))|].

#[global] Instance hset_keeps (cmd : HSetReq) : Keeps HSetReq cmd.
Proof. on_value; [apply write_back_typed; [done|]; by apply hset_all_ok|]. split; [done|]. by apply hset_all_ok. Qed.
#[global] Instance hmset_keeps (cmd : HMSetReq) : Keeps HMSetReq cmd.
Proof. on_value; [apply write_back_typed; [done|]; by apply hmset_all_ok|]. split; [done|]. by apply hmset_all_ok. Qed.
#[global] Instance hsetnx_keeps (cmd : HSetNxReq) : Keeps HSetNxReq cmd.
Proof.
  on_value.
  - case_match; [done|]. apply write_back_typed; [done|]. apply map_Forall_insert_2; [apply hash_value_ok|done].
  - split; [done|]. apply map_Forall_singleton, hash_value_ok.
Qed.
Lemma hincr_keeps (cmd : HIncrReq) : is_i64 (hincr_value cmd) -> Keeps HIncrReq cmd.
Proof.
  intros Hi. on_value.
  - repeat (case_match; try done); apply write_back_typed; try done; (apply map_Forall_insert_2; [apply wrap_i64_range|done]).
  - split; [done|]. by apply map_Forall_singleton.
Qed.
#[global] Instance hdel_keeps (cmd : HDelReq) : Keeps HDelReq cmd.
Proof.
  on_value; [|done]. case_decide; [done|]. apply write_back_typed; [done|]. by apply filter_typed.
Qed.
#[global] Instance zadd_keeps (cmd : ZAddReq) : Keeps ZAddReq cmd.
Proof. on_value; [apply write_back_typed; [done|]; by apply zadd_wf|]. split; [done|]. apply zadd_wf, zset_new_wf. Qed.
#[global] Instance zrem_keeps (cmd : ZRemReq) : Keeps ZRemReq cmd.
Proof.
  on_value; [|done]. destruct (zrem z (zrem_members cmd)) as [z' n] eqn:E. cbn. case_match; [done|].
  apply write_back_typed; [done|]. cbn. change z' with (z', n).1. rewrite <- E. by apply zrem_wf.
Qed.
#[global] Instance zpopmin_keeps (cmd : ZPopMinReq) : Keeps ZPopMinReq cmd.
Proof.
  on_value; [|done]. destruct (zpop_min z (zpop_count cmd)) as [z' l] eqn:E. cbn.
  apply write_back_typed; [done|]. cbn. change z' with (z', l).1. rewrite <- E. by apply zpop_min_wf.
Qed.
#[global] Instance zincrby_keeps (cmd : ZIncrByReq) : Keeps ZIncrByReq cmd.
Proof.
  on_value.
  - destruct (zincrby z _ _) as [z' [x|]] eqn:E; [|done]. apply write_back_typed; [done|]. cbn.
    change z' with (z', Some x).1. rewrite <- E. by apply zincrby_wf.
  - destruct (zincrby zset_new _ _) as [z' [x|]] eqn:E; [|done]. split; [done|]. cbn.
    change z' with (z', Some x).1. rewrite <- E. apply zincrby_wf, zset_new_wf.
Qed.

(** ** The store *)

Lemma db_typed_at s n m : store_typed s -> s !! Z.to_nat n = Some m -> db_typed m.
Proof. intros Hs Hm. by apply (Forall_lookup_1 _ _ _ _ Hs Hm). Qed.

Lemma store_typed_insert s n m : store_typed s -> db_typed m -> store_typed (<[Z.to_nat n := m]> s).
Proof. intros. by apply Forall_insert. Qed.

Lemma papply_typed now k op m : db_typed m -> result_typed op -> db_typed (papply now k op m).
Proof.
  intros Hm Hop. destruct op as [v p| |]; cbn; [|by apply map_Forall_delete|done].
  unfold put. case_match; [by apply map_Forall_delete|by apply map_Forall_insert_2].
Qed.

Lemma spec_compute_typed {C} `{ComputeCommand C, PureCommand C} now wc n s (cmd : C) `{!Keeps C cmd} :
  store_typed s -> store_typed (spec_compute now wc n s cmd).1.
Proof.
  intros Hs. unfold spec_compute. destruct (s !! Z.to_nat n) as [m|] eqn:Hm; [|done].
  pose proof (db_typed_at s n m Hs Hm) as Hdb. destruct (m !! key cmd) as [e|] eqn:He.
  - pose proof (keeps_mutate (cmd := cmd) (snapshot e) wc (Hdb _ _ He)) as Hk. destruct (pmutate _ _ _) as [op r].
    apply store_typed_insert; [done|]. by apply papply_typed.
  - pose proof (keeps_init (cmd := cmd)) as Hk. destruct (pinit cmd) as [op r]. cbn in Hk.
    destruct op; [| |done]; (apply store_typed_insert; [done|]; by apply papply_typed).
Qed.

Lemma spec_set_typed now wc n s k v ex : store_typed s -> store_typed (spec_set now wc n s k v ex).
Proof. intros Hs. by apply spec_compute_typed; [apply set_keeps|]. Qed.

Context `{E : Env} `{ME : MemEnv}.

Lemma spec_base_typed now wc n op s : base_ok op -> store_typed s -> store_typed (spec_base now wc n op s).1.
Proof.
  intros Hop Hs. destruct op; cbn [spec_base base_ok] in *;
    try (apply spec_compute_typed; [typeclasses eauto|done]); try done.
  - unfold spec_del. destruct (s !! _) as [m|] eqn:Hm; [|done]. apply store_typed_insert; [done|].
    apply map_Forall_delete. by apply (db_typed_at s n).
  - unfold spec_flush_db. destruct (s !! _) as [m|] eqn:Hm; [|done]. apply store_typed_insert; [done|]. apply map_Forall_empty.
  - cbn. apply Forall_fmap, Forall_forall. intros m _. apply map_Forall_empty.
  - apply spec_compute_typed; [by apply incrby_keeps|done].
  - apply spec_compute_typed; [by apply hincr_keeps|done].
  - unfold spec_del. destruct (s !! _) as [m|] eqn:Hm; [|done]. apply store_typed_insert; [done|].
    apply map_Forall_delete. by apply (db_typed_at s n).
  - unfold spec_multi_compute. destruct (s !! _) as [m|] eqn:Hm; [|done].
    destruct (pmulti_mutate _ _ _) as [mop rep] eqn:E1. apply store_typed_insert; [done|].
    apply papply_typed; [by apply (db_typed_at s n)|]. change mop with (mop, rep).1. rewrite <- E1. cbn.
    repeat (case_match; try done).
Qed.

Lemma spec_del_many_typed n s ks : store_typed s -> store_typed (spec_del_many n s ks).1.
Proof.
  intros Hs. unfold spec_del_many. destruct (s !! _) as [m|] eqn:Hm, ks; try done. cbn. apply store_typed_insert; [done|].
  apply (filter_typed (fun e => value_typed (e_value e))). by apply (db_typed_at s n).
Qed.

Lemma spec_move_typed m old new e : db_typed m -> m !! old = Some e -> db_typed (spec_move m old new e).
Proof.
  intros Hm He. unfold spec_move. apply map_Forall_insert_2; [|by apply map_Forall_delete].
  destruct (Hm _ _ He) as [_ Hd]. split; [|done]. cbn. case_match; [apply wrap_u32_range|done].
Qed.

Lemma spec_store_typed n s k f ks : store_typed s -> store_typed (spec_store n s k f ks).1.
Proof.
  intros Hs. unfold spec_store. destruct (s !! _) as [m|] eqn:Hm; [|done]. destruct (set_args _ _); [|done].
  apply store_typed_insert; [done|]. apply map_Forall_insert_2; [done|]. by apply (db_typed_at s n).
Qed.

Fixpoint spec_request_typed now wc n (op : Operation) : forall s, op_ok op -> store_typed s ->
  store_typed (spec_request now wc n op s).1
with spec_redis_typed now wc n (op : RedisOperation) : forall s, redis_ok op -> store_typed s ->
  store_typed (spec_redis now wc n op s).1.
Proof.
  - destruct op; intros s Hop Hs; cbn [spec_request op_ok] in *; [by apply spec_base_typed|done|by apply spec_redis_typed].
  - destruct op as [p|p|p|p|p|p|p|p|p|p|ops|p|p|p]; intros s Hop Hs.
    11: { change (all_ok ops) in Hop. enough (forall s, store_typed s -> store_typed (spec_exec now wc n ops s).1) as Hgo.
      { specialize (Hgo s Hs). change (spec_redis now wc n (RedisExec ops) s) with
          (let '(s', p) := spec_exec now wc n ops s in (s', fun r => exists rs, r = Array (Some rs) /\ p rs)).
        by destruct (spec_exec now wc n ops s). }
      clear s Hs. induction ops as [|op ops IH]; intros s Hs; [done|]. destruct Hop as [Ho Hops]. cbn [spec_exec].
      pose proof (spec_request_typed now wc n op s Ho Hs) as H1. destruct (spec_request now wc n op s) as [s1 p1].
      specialize (IH Hops s1 H1). by destruct (spec_exec now wc n ops s1). }
    all: cbn [spec_redis]; try done; unfold certain; cbn [fst];
      try (by apply spec_set_typed); try (by apply spec_del_many_typed); try (by apply spec_store_typed).
    + unfold spec_redis_set. repeat (case_match; try done); by apply spec_set_typed.
    + unfold spec_redis_setnx. repeat (case_match; try done); by apply spec_set_typed.
    + unfold spec_redis_get_set. repeat (case_match; try done); by apply spec_set_typed.
    + cbn. generalize (mset_pairs p) as l. intros l. revert s Hs. induction l as [|kv l IH]; intros s Hs; [done|].
      cbn. apply IH. by apply spec_set_typed.
    + unfold spec_rename. destruct (s !! _) as [m|] eqn:Hm; [|done]. destruct (m !! _) as [e|] eqn:He; [|done].
      apply store_typed_insert; [done|]. apply spec_move_typed; [by apply (db_typed_at s n)|done].
    + unfold spec_rename_nx. destruct (s !! _) as [m|] eqn:Hm; [|done]. destruct (m !! rnx_new_key p); [done|].
      destruct (m !! _) as [e|] eqn:He; [|done].
      apply store_typed_insert; [done|]. apply spec_move_typed; [by apply (db_typed_at s n)|done].
    + unfold spec_sdiffstore. repeat (case_match; try done); by apply spec_store_typed.
Qed.
End Typed.

(** ** Scripts keep the store well typed *)

Lemma answers_typed `{E : Env} `{OF : OrderedFloat} `{ME : MemEnv} now wc n (nested : EvalParams -> Prop) evals op :
  (forall p s s' v, nested p -> evals p s s' v -> store_typed s -> store_typed s') ->
  with_scripts op_ok nested op -> forall s s' v, answers now wc n evals op s s' v -> store_typed s -> store_typed s'.
Proof.
  intros Hn. induction op as [op Hop|p|ops IH] using operation_ind; intros Hc s s' v H Hs.
  - apply with_scripts_single in Hc; [|done]. apply answers_single_inv in H as [-> _]; [|done]. by apply spec_request_typed.
  - apply answers_eval_inv in H. by eapply Hn.
  - apply answers_exec_inv in H as (vs & _ & H). apply with_scripts_exec in Hc.
    induction H as [s|op ops s s1 s' x vs Hx _ IHl]; [done|]. apply Forall_cons in IH as [IH1 IH2], Hc as [Hc1 Hc2]. eauto.
Qed.

Lemma runs_typed `{E : Env} `{OF : OrderedFloat} `{ME : MemEnv} `{IP : Interp} now wc n (nested : EvalParams -> Prop) t :
  (forall p s s' v, nested p -> evaluates now wc n p s s' v -> store_typed s -> store_typed s') ->
  calls (with_scripts op_ok nested) t -> forall resp flag s s' r, runs now wc n t resp flag s s' r -> store_typed s -> store_typed s'.
Proof.
  intros Hn. induction t as [v|e|killed k IH|args k IH|args k IH|ver k IH|msg k IH|msg k IH]; intros Hc resp flag s s' r H Hs;
    cbn [calls] in Hc; inversion H; subst; try done; try (destruct Hc as [Hargs Hc]); try (by eapply IH).
  all: eapply IH; [apply Hc|eassumption|]; eapply answers_typed; [exact Hn|by apply Hargs|eassumption|done].
Qed.

Lemma evaluates_typed `{E : Env} `{OF : OrderedFloat} `{ME : MemEnv} `{IP : Interp} depth now wc n : forall p, eval_calls op_ok depth p ->
  forall s s' v, evaluates now wc n p s s' v -> store_typed s -> store_typed s'.
Proof.
  induction depth as [|depth IH]; [done|]. intros p Hp s s' v H Hs. cbn [eval_calls] in Hp.
  inversion H as [? ? m L|? ? ? f r L R]; subst; [done|]. rewrite L in Hp.
  refine (runs_typed now wc n (eval_calls op_ok depth) _ _ Hp _ _ _ _ _ R Hs). intros. by eapply IH.
Qed.

(** A Lua environment whose scripts keep the store well typed. *)
Class ScriptTyped `{SS : ScriptSpec} : Prop :=
  script_evals_typed now wc n p s s' v : script_fits p -> script_evals now wc n p s s' v -> store_typed s -> store_typed s'.

#[export] Instance script_typed `{E : Env} `{!EnvOk E} `{OF : OrderedFloat} `{ME : MemEnv} `{IP : Interp} (depth : nat) :
  ScriptTyped (SS := script_spec depth).
Proof. intros now wc n p s s' v Hp Hev. exact (evaluates_typed depth now wc n p Hp s s' v Hev). Qed.

Lemma op_answers_typed `{ScriptTyped} now wc n op s s' v : op_fits op -> op_answers now wc n op s s' v -> store_typed s -> store_typed s'.
Proof. intros Hop. apply (answers_typed now wc n script_fits); [|done]. intros. by eapply script_evals_typed. Qed.
