(* ===== verification/StateMachine.v ===== *)
(** * StateMachine: applying the Raft log.

    Models src/cache_cat/src/raft/store/statemachine.rs: the state machine's
    data, [apply] over a batch of committed entries, the replay loop of
    [install_snapshot] and the meta data. Raft itself (the openraft crate) is
    not modelled: it hands every replica the same entries in the same order,
    cut into batches in its own way, and its log ids and memberships are
    abstract types here. *)

From S2P Require Import Prelude Text F64 Reply SortedSet TimeWheel Mocha Ops Store Refine Spop StringCmd KeyCmd SetCmd Memory Handler Answers Script Typed.

Inductive SnapshotState := End_ | Start | Tail.

#[global] Instance snapshot_state_eq_dec : EqDecision SnapshotState.
Proof. solve_decision. Defined.

Section Machine.
Context {LogId Membership : Type}.

(** [StoredMembership]: the entry that set the membership, and the membership. *)
Record StoredMembership := mkStoredMembership { sm_log_id : option LogId; sm_membership : option Membership }.

Record RaftMetaData := mkRaftMetaData {
  snapshot_state : SnapshotState;
  last_applied_log_id : option LogId;
  last_membership : StoredMembership
}.

(** [kvs] is the cache, [queue] the [incremental_operation_queue]. *)
Record StateMachineData := mkStateMachineData {
  kvs : MyCache;
  incremental_operation_queue : list AtomicRequest;
  raft_meta_data : RaftMetaData
}.

Inductive EntryPayload :=
| Blank
| Normal (req : Request)
| MembershipChange (mem : Membership).

Record LogEntry := mkLogEntry { log_id : LogId; payload : EntryPayload }.

Record SnapshotMeta := mkSnapshotMeta { meta_last_log_id : option LogId; meta_last_membership : StoredMembership }.

(** [StateMachineStore::new] without a snapshot file. *)
Definition state_machine_new (db_number : Z) : StateMachineData :=
  mkStateMachineData (my_cache_new db_number) [] (mkRaftMetaData End_ None (mkStoredMembership None None)).

Definition update_meta_data (sm : StateMachineData) (meta : SnapshotMeta) : StateMachineData :=
  mkStateMachineData (kvs sm) (incremental_operation_queue sm)
    (mkRaftMetaData (snapshot_state (raft_meta_data sm)) (meta_last_log_id meta) (meta_last_membership meta)).

Section Apply.
Context `{E : Env} `{OF : OrderedFloat} `{ME : MemEnv} `{LE : LuaEnv}.

(** One turn of the [while] loop. *)
Definition apply_entry (c : MyCache) (meta : RaftMetaData) (u : Update) (e : LogEntry)
    : outcome (MyCache * RaftMetaData * Update * Value) :=
  let meta := mkRaftMetaData (snapshot_state meta) (Some (log_id e)) (last_membership meta) in
  match payload e with
  | Blank => Ret (c, meta, u, value_ok)
  | Normal req =>
      let '(time, db_number) := split_u64 req in
      let '(c1, write_clock) := set_write_clock c time in
      match do_request c1 (operation req) (mkUpdate db_number write_clock (update_type u)) with
      | Ret (c', u', v) => Ret (c', meta, u', v)
      | Panic => Panic
      | OutOfFuel => OutOfFuel
      end
  | MembershipChange mem =>
      Ret (c, mkRaftMetaData (snapshot_state meta) (last_applied_log_id meta)
                (mkStoredMembership (Some (log_id e)) (Some mem)), u, value_ok)
  end.

(** The loop; an [Err] of the stream ends it early. *)
Fixpoint apply_loop (c : MyCache) (meta : RaftMetaData) (u : Update) (entries : list (result LogEntry bytes))
    : outcome (MyCache * RaftMetaData * Update * list Value * result unit bytes) :=
  match entries with
  | [] => Ret (c, meta, u, [], Ok tt)
  | Err err :: _ => Ret (c, meta, u, [], Err err)
  | Ok e :: entries' =>
      match apply_entry c meta u e with
      | Ret (c1, meta1, u1, v) =>
          match apply_loop c1 meta1 u1 entries' with
          | Ret (c2, meta2, u2, vs, r) => Ret (c2, meta2, u2, v :: vs, r)
          | Panic => Panic
          | OutOfFuel => OutOfFuel
          end
      | Panic => Panic
      | OutOfFuel => OutOfFuel
      end
  end.

(** [apply]: while a snapshot is being written the updates go into the queue. *)
Definition apply (sm : StateMachineData) (entries : list (result LogEntry bytes))
    : outcome (StateMachineData * list Value * result unit bytes) :=
  let meta := raft_meta_data sm in
  let update_type :=
    if decide (snapshot_state meta = Start) then Snapshot (incremental_operation_queue sm) else UNone in
  match apply_loop (kvs sm) meta (mkUpdate 0 0 update_type) entries with
  | Ret (c', meta', u', vs, r) =>
      let queue := match Store.update_type u' with Snapshot q => q | _ => incremental_operation_queue sm end in
      Ret (mkStateMachineData c' queue meta', vs, r)
  | Panic => Panic
  | OutOfFuel => OutOfFuel
  end.

(** The replay of the snapshot's queue in [install_snapshot]: every request on
    database 0, under the version it was queued with. *)
Definition replay (c : MyCache) (queue : list AtomicRequest) : MyCache :=
  foldl (fun c r => (base_request c (ar_request r) (mkUpdate 0 (ar_write_clock r) (CAS (ar_version r)))).1.1) c queue.
End Apply.

(** ** The specification of the log *)

(** The clock and the live contents. *)
Abbreviation SpecState := (Z * PStore)%type.

Section Spec.
Context `{E : Env} `{OF : OrderedFloat} `{ME : MemEnv} `{LE : LuaEnv} `{SS : !ScriptSpec LE}.

(** An entry moves the clock to the one it carries, unless that is in the past, and
    its operation is applied to what is live then. *)
Definition entry_runs (st : SpecState) (e : LogEntry) (st' : SpecState) : Prop :=
  match payload e with
  | Normal req =>
      let '(time, n) := split_u64 req in
      let now := Z.max st.1 time in
      st'.1 = now /\ exists v, op_answers now now n (operation req) (live now <$> st.2) st'.2 v
  | _ => st' = st
  end.

Inductive log_runs : SpecState -> list LogEntry -> SpecState -> Prop :=
| log_runs_nil st : log_runs st [] st
| log_runs_cons st st1 st' e entries : entry_runs st e st1 -> log_runs st1 entries st' -> log_runs st (e :: entries) st'.

Lemma log_runs_app st st1 st' l1 l2 : log_runs st l1 st1 -> log_runs st1 l2 st' -> log_runs st (l1 ++ l2) st'.
Proof. induction 1; [done|]. intros. econstructor; eauto. Qed.
End Spec.

(** What an entry does to the meta data: the last id and the last membership. *)
Definition spec_meta (meta : option LogId * StoredMembership) (e : LogEntry) : option LogId * StoredMembership :=
  (Some (log_id e),
   match payload e with
   | MembershipChange mem => mkStoredMembership (Some (log_id e)) (Some mem)
   | _ => meta.2
   end).

Definition meta_view (meta : RaftMetaData) : option LogId * StoredMembership :=
  (last_applied_log_id meta, last_membership meta).

(** An entry as Raft hands it over, with scripts that have the property [fits]. *)
Definition entry_ok (fits : EvalParams -> Prop) (e : LogEntry) : Prop :=
  match payload e with
  | Normal req => is_u64 (number req) /\ with_scripts op_ok fits (operation req)
  | _ => True
  end.

Lemma entry_ok_mono (P Q : EvalParams -> Prop) e : (forall p, P p -> Q p) -> entry_ok P e -> entry_ok Q e.
Proof.
  intros HPQ. unfold entry_ok. destruct (payload e); [done| |done]. intros [H1 H2]. split; [done|]. by eapply with_scripts_mono.
Qed.

(** ** Advancing the clock *)

Lemma abs_db_advance now now' h (db : Mocha MyValue) : now <= now' -> abs_db now' h db = live now' (abs_db now h db).
Proof.
  intros Hle. apply map_eq. intros k. rewrite live_lookup, !abs_db_lookup, <- (live_mono now now') by done.
  rewrite live_lookup. destruct (live now (map_ db) !! k) as [e|]; [|done]. cbn. unfold abs_entry.
  destruct (is_expired now' e) eqn:Ee; cbn; destruct (abs_value h (e_value e)); cbn; try done.
  - by change (is_expired now' (mkEntry p (e_expire_at e))) with (is_expired now' e); rewrite Ee.
  - by change (is_expired now' (mkEntry p (e_expire_at e))) with (is_expired now' e); rewrite Ee.
Qed.

Lemma set_write_clock_refines c t : CacheInv c -> is_u64 t ->
  let '(c', now) := set_write_clock c t in
  now = Z.max (write_logic_clock c) t /\ write_logic_clock c' = now /\ is_u64 now /\ CacheInv c' /\ abs c' = live now <$> abs c.
Proof.
  intros Hc Ht. unfold set_write_clock. set (now := Z.max _ _). pose proof (Refine.inv_clock c Hc) as Hcl.
  assert (is_u64 now) as Hnow by (unfold is_u64 in *; lia). set (c' := mkMyCache _ _ _ _).
  assert (forall i k e, entry_at c' i k e -> entry_at c i k e) as Hsub.
  { intros i k e (db & Hi & He). exists db. split; [done|]. cbn in He. rewrite live_lookup in *.
    destruct (map_ db !! k) as [x|]; [|done]. destruct (is_expired now x) eqn:Ex; [done|]. injection He as ->.
    destruct (is_expired (write_logic_clock c) e) eqn:E0; [|done].
    by rewrite (is_expired_mono (write_logic_clock c) now e ltac:(lia) E0) in Ex. }
  split_and!; [done..| |].
  - constructor; cbn [write_logic_clock c' heap]; [done| |apply Hc| | |].
    + intros i db Hi. apply (Mocha.inv_clock (write_logic_clock c)); [unfold is_u64 in *; lia|]. exact (inv_mocha c Hc i db Hi).
    + intros i k e He. apply Hsub in He. exact (inv_bound c Hc i k e He).
    + intros i k e a He. apply Hsub in He. exact (inv_deadline c Hc i k e a He).
    + intros i k e i' k' e' l He He'. apply Hsub in He, He'. exact (inv_sep c Hc _ _ _ _ _ _ l He He').
  - unfold abs. cbn. rewrite <- list_fmap_compose. apply list_fmap_ext. intros i db _. cbn. apply abs_db_advance. lia.
Qed.

Lemma split_u64_range req : is_u64 (number req) -> is_u64 (split_u64 req).1.
Proof.
  unfold split_u64, is_u64. cbn. intros H. rewrite Z.shiftr_div_pow2 by lia. split; [apply Z.div_pos; lia|].
  apply Z.div_lt_upper_bound; lia.
Qed.

(** ** [apply] implements the log *)

Section ApplyRefines.
Context `{E : Env} `{!EnvOk E} `{OF : OrderedFloat} `{ME : MemEnv} `{LE : LuaEnv} `{SS : !ScriptSpec LE}.

Definition view (c : MyCache) : SpecState := (write_logic_clock c, abs c).

Lemma apply_entry_refines c meta u e : CacheInv c -> entry_ok script_fits e -> applies (update_type u) ->
  exists c' meta' u' v, apply_entry c meta u e = Ret (c', meta', u', v) /\
    CacheInv c' /\ entry_runs (view c) e (view c') /\ applies (update_type u') /\
    snapshot_state meta' = snapshot_state meta /\ meta_view meta' = spec_meta (meta_view meta) e.
Proof.
  intros Hc He Hu. unfold apply_entry, entry_runs, spec_meta, entry_ok in *. destruct (payload e) as [|req|mem].
  - eexists _, _, _, _. split; [done|]. by split_and!.
  - destruct He as [Hn Hop]. pose proof (split_u64_range req Hn) as Ht. destruct (split_u64 req) as [time n]. cbn [fst] in Ht.
    pose proof (set_write_clock_refines c time Hc Ht) as Hs. destruct (set_write_clock c time) as [c1 now].
    destruct Hs as (-> & Hk & Hnow & Hc1 & Ha1). unfold view at 2. cbn [fst snd].
    destruct (request_op_answers LE (Z.max (write_logic_clock c) time) (Z.max (write_logic_clock c) time) n (operation req) c1
      (mkUpdate n (Z.max (write_logic_clock c) time) (update_type u))) as (c' & u' & v & -> & Hc' & Ha' & Hk' & Hu'); [by split_and!|done|].
    exists c', (mkRaftMetaData (snapshot_state meta) (Some (log_id e)) (last_membership meta)), u', v.
    rewrite Ha1 in Ha'. split_and!; try done; [by rewrite <- Hk, <- Hk'|by eexists|by eapply same_update_applies].
  - eexists _, _, _, _. split; [done|]. by split_and!.
Qed.

Lemma apply_loop_refines entries : forall c meta u, CacheInv c -> Forall (entry_ok script_fits) entries -> applies (update_type u) ->
  exists c' meta' u' vs, apply_loop c meta u (Ok <$> entries) = Ret (c', meta', u', vs, Ok tt) /\
    CacheInv c' /\ log_runs (view c) entries (view c') /\ snapshot_state meta' = snapshot_state meta /\
    meta_view meta' = foldl spec_meta (meta_view meta) entries /\ applies (update_type u').
Proof.
  induction entries as [|e entries IH]; intros c meta u Hc Hok Hu.
  - exists c, meta, u, []. split_and!; try done. constructor.
  - inversion_clear Hok as [|? ? He Hes]. rewrite fmap_cons. cbn [apply_loop].
    destruct (apply_entry_refines c meta u e Hc He Hu) as (c1 & meta1 & u1 & v & -> & Hc1 & Hv1 & Hu1 & Hs1 & Hl1).
    destruct (IH c1 meta1 u1 Hc1 Hes Hu1) as (c2 & meta2 & u2 & vs & -> & Hc2 & Hv2 & Hs2 & Hl2 & Hu2).
    exists c2, meta2, u2, (v :: vs). split_and!; [done|done| |congruence| |done].
    + by econstructor.
    + cbn [foldl]. by rewrite <- Hl1.
Qed.

Lemma apply_refines sm entries : CacheInv (kvs sm) -> Forall (entry_ok script_fits) entries ->
  exists sm' vs, apply sm (Ok <$> entries) = Ret (sm', vs, Ok tt) /\
    CacheInv (kvs sm') /\ log_runs (view (kvs sm)) entries (view (kvs sm')) /\
    snapshot_state (raft_meta_data sm') = snapshot_state (raft_meta_data sm) /\
    meta_view (raft_meta_data sm') = foldl spec_meta (meta_view (raft_meta_data sm)) entries.
Proof.
  intros Hc Hok. unfold apply.
  destruct (apply_loop_refines entries (kvs sm) (raft_meta_data sm)
    (mkUpdate 0 0 (if decide (snapshot_state (raft_meta_data sm) = Start) then Snapshot (incremental_operation_queue sm) else UNone)))
    as (c' & meta' & u' & vs & -> & ? & ? & ? & ? & _); [done|done|cbn; by case_decide|].
  by eexists _, vs.
Qed.
End ApplyRefines.

(** ** The next store does not depend on the environment *)

(** Scripts without replies that depend on the replica. *)
Definition certain_scripts `{IP : Interp} (depth : nat) : EvalParams -> Prop :=
  eval_calls (fun op => op_ok op /\ certain_op op = true) depth.

Lemma certain_scripts_fit `{IP : Interp} depth p : certain_scripts depth p -> eval_calls op_ok depth p.
Proof. apply eval_calls_mono. naive_solver. Qed.

Section OneStep.
Context (E1 E2 : Env) `{Ok1 : !EnvOk E1} `{Ok2 : !EnvOk E2} (M1 M2 : MemEnv) `{OF : OrderedFloat} `{IP : Interp} (depth : nat).

Lemma entry_runs_agree st e st1 st2 : entry_ok (certain_scripts depth) e ->
  entry_runs (E := E1) (ME := M1) (SS := script_spec depth) st e st1 ->
  entry_runs (E := E2) (ME := M2) (SS := script_spec depth) st e st2 -> st1 = st2.
Proof.
  unfold entry_ok, entry_runs. destruct (payload e) as [|req|mem]; [by intros _ -> ->| |by intros _ -> ->].
  intros [_ Hop]. destruct (split_u64 req) as [time n], st1 as [k1 s1], st2 as [k2 s2]. cbn [fst snd].
  intros [-> [v1 H1]] [-> [v2 H2]]. f_equal. refine (stores_agree E1 E2 M1 M2 depth _ _ n _ _ _ _ _ _ _ H1 H2).
  revert Hop. apply with_scripts_mono; [done|]. intros p. apply eval_calls_mono. naive_solver.
Qed.

Lemma log_runs_agree entries : forall st st1 st2, Forall (entry_ok (certain_scripts depth)) entries ->
  log_runs (E := E1) (ME := M1) (SS := script_spec depth) st entries st1 ->
  log_runs (E := E2) (ME := M2) (SS := script_spec depth) st entries st2 -> st1 = st2.
Proof.
  induction entries as [|e entries IH]; intros st st1 st2 Hok H1 H2; inversion H1; subst; inversion H2; subst; [done|].
  apply Forall_cons in Hok as [He Hok].
  match goal with A : entry_runs (E := E1) _ _ ?x, B : entry_runs (E := E2) _ _ ?y |- _ => assert (x = y) as -> by exact (entry_runs_agree _ _ _ _ He A B) end.
  by eapply IH.
Qed.
End OneStep.

(** ** What happens on a replica

    Batches of the log are applied; a snapshot starts, reaches its tail and
    ends; a client reads from this replica; the expire worker of a database
    takes a turn. *)

Inductive event :=
| EvApply (batch : list LogEntry)
| EvSnapshot (st : SnapshotState)
| EvRead (op : ReadOperation) (n : Z) (rc : option Z)
| EvWorker (i : nat).

Definition with_kvs (sm : StateMachineData) (c : MyCache) : StateMachineData :=
  mkStateMachineData c (incremental_operation_queue sm) (raft_meta_data sm).

Definition set_snapshot_state (sm : StateMachineData) (st : SnapshotState) : StateMachineData :=
  mkStateMachineData (kvs sm) (incremental_operation_queue sm)
    (mkRaftMetaData st (last_applied_log_id (raft_meta_data sm)) (last_membership (raft_meta_data sm))).

Definition worker_turn (c : MyCache) (i : nat) : MyCache :=
  mkMyCache (alter (fun db => (worker_step (write_logic_clock c) db).1) i (databases c))
    (read_logic_clock c) (write_logic_clock c) (heap c).

Definition log_of (evs : list event) : list LogEntry :=
  concat ((fun ev => match ev with EvApply batch => batch | _ => [] end) <$> evs).

Definition event_ok (fits : EvalParams -> Prop) (ev : event) : Prop :=
  match ev with
  | EvApply batch => Forall (entry_ok fits) batch
  | EvRead op _ _ => read_ok op
  | _ => True
  end.

Lemma log_of_ok fits evs : Forall (event_ok fits) evs -> Forall (entry_ok fits) (log_of evs).
Proof.
  intros Hok. apply Forall_concat, Forall_fmap. eapply Forall_impl; [exact Hok|].
  intros [batch|st|op n rc|i]; cbn; intros; [done|constructor..].
Qed.

Lemma event_ok_mono (P Q : EvalParams -> Prop) ev : (forall p, P p -> Q p) -> event_ok P ev -> event_ok Q ev.
Proof. intros HPQ. destruct ev; cbn; try done. intros Hb. eapply Forall_impl; [exact Hb|]. intros e. by apply entry_ok_mono. Qed.

Section Runs.
Context `{E : Env} `{OF : OrderedFloat} `{ME : MemEnv} `{LE : LuaEnv}.

Definition run_event (sm : StateMachineData) (ev : event) : outcome StateMachineData :=
  match ev with
  | EvApply batch =>
      match apply sm (Ok <$> batch) with
      | Ret (sm', _, _) => Ret sm'
      | Panic => Panic
      | OutOfFuel => OutOfFuel
      end
  | EvSnapshot st => Ret (set_snapshot_state sm st)
  | EvRead op n rc =>
      match read_request (kvs sm) op n rc with
      | Ret (c', _) => Ret (with_kvs sm c')
      | Panic => Panic
      | OutOfFuel => OutOfFuel
      end
  | EvWorker i => Ret (with_kvs sm (worker_turn (kvs sm) i))
  end.

Fixpoint run_events (sm : StateMachineData) (evs : list event) : outcome StateMachineData :=
  match evs with
  | [] => Ret sm
  | ev :: evs' =>
      match run_event sm ev with
      | Ret sm' => run_events sm' evs'
      | Panic => Panic
      | OutOfFuel => OutOfFuel
      end
  end.

Lemma worker_turn_refines c i : CacheInv c -> CacheInv (worker_turn c i) /\ view (worker_turn c i) = view c.
Proof.
  intros Hc. assert (forall j db, databases c !! j = Some db ->
    let db' := (worker_step (write_logic_clock c) db).1 in
    MochaInv (write_logic_clock c) db' /\ live (write_logic_clock c) (map_ db') = live (write_logic_clock c) (map_ db)) as Hw.
  { intros j db Hj. destruct (worker_step_spec _ db (inv_mocha c Hc j db Hj)) as (H1 & _ & H2). split; [done|]. apply H2. lia. }
  split.
  - apply shrink_inv; [done|]. apply Forall2_same_length_lookup_2; [by rewrite length_alter|].
    intros j db db' Hj Hj'. destruct (decide (i = j)) as [->|Hne].
    + rewrite list_lookup_alter_eq, Hj in Hj'. injection Hj' as <-. destruct (Hw j db Hj) as [? ->]. done.
    + rewrite list_lookup_alter_ne, Hj in Hj' by done. injection Hj' as ->. split; [|done]. exact (inv_mocha c Hc j _ Hj).
  - unfold view, abs, worker_turn. cbn. f_equal. apply list_eq. intros j. rewrite !list_lookup_fmap.
    destruct (decide (i = j)) as [->|Hne]; [|by rewrite list_lookup_alter_ne].
    rewrite list_lookup_alter_eq. destruct (databases c !! j) as [db|] eqn:Hj; [|done]. cbn. f_equal. unfold abs_db.
    by destruct (Hw j db Hj) as [_ ->].
Qed.

Lemma run_event_refines `{!EnvOk E} `{SS : !ScriptSpec LE} sm ev : CacheInv (kvs sm) -> event_ok script_fits ev ->
  exists sm', run_event sm ev = Ret sm' /\ CacheInv (kvs sm') /\
    log_runs (view (kvs sm)) (log_of [ev]) (view (kvs sm')) /\
    meta_view (raft_meta_data sm') = foldl spec_meta (meta_view (raft_meta_data sm)) (log_of [ev]).
Proof.
  intros Hc Hok. unfold log_of. destruct ev as [batch|st|op n rc|i]; cbn [run_event fmap list_fmap concat event_ok] in *; rewrite ?app_nil_r.
  - destruct (apply_refines sm batch Hc Hok) as (sm' & vs & -> & ? & ? & ? & ?). by exists sm'.
  - eexists. split; [done|]. split_and!; [done|constructor|done].
  - destruct (read_request_refines (kvs sm) op n rc Hc Hok) as (c' & v & -> & ? & Ha & _ & Hk & _).
    eexists. split; [done|]. split_and!; [done| |done]. unfold view. cbn [kvs with_kvs]. rewrite Ha, Hk. constructor.
  - destruct (worker_turn_refines (kvs sm) i Hc) as [? Hv]. eexists. split; [done|]. split_and!; [done| |done].
    cbn [kvs with_kvs]. rewrite Hv. constructor.
Qed.

Lemma run_events_refines `{!EnvOk E} `{SS : !ScriptSpec LE} evs : forall sm, CacheInv (kvs sm) -> Forall (event_ok script_fits) evs ->
  exists sm', run_events sm evs = Ret sm' /\ CacheInv (kvs sm') /\
    log_runs (view (kvs sm)) (log_of evs) (view (kvs sm')) /\
    meta_view (raft_meta_data sm') = foldl spec_meta (meta_view (raft_meta_data sm)) (log_of evs).
Proof.
  induction evs as [|ev evs IH]; intros sm Hc Hok; [exists sm; split_and!; try done; constructor|]. inversion_clear Hok as [|? ? He Hes].
  destruct (run_event_refines sm ev Hc He) as (sm1 & E1 & Hc1 & Hv1 & Hm1). cbn [run_events]. rewrite E1.
  destruct (IH sm1 Hc1 Hes) as (sm2 & -> & Hc2 & Hv2 & Hm2). exists sm2.
  assert (log_of (ev :: evs) = log_of [ev] ++ log_of evs) as -> by (unfold log_of; cbn; by rewrite app_nil_r).
  split_and!; [done|done| |].
  - by eapply log_runs_app.
  - by rewrite foldl_app, <- Hm1.
Qed.
End Runs.


(** ** The stored values are well typed *)

Section TypedLog.
Context `{E : Env} `{OF : OrderedFloat} `{ME : MemEnv} `{LE : LuaEnv} `{SS : !ScriptSpec LE} `{ST : !ScriptTyped}.

Lemma live_typed now m : db_typed m -> db_typed (live now m).
Proof. intros Hm. apply (filter_typed (fun e => value_typed (e_value e))). exact Hm. Qed.

Lemma log_runs_typed st entries st' : log_runs st entries st' -> Forall (entry_ok script_fits) entries -> store_typed st.2 -> store_typed st'.2.
Proof.
  induction 1 as [|st st1 st' e entries He _ IH]; [done|]. intros [Hok Hes]%Forall_cons Hs. apply IH; [done|].
  unfold entry_runs, entry_ok in *. destruct (payload e) as [|req|mem]; [by rewrite He| |by rewrite He].
  destruct (split_u64 req) as [t n]. destruct He as [_ [v Hv]]. apply (op_answers_typed _ _ _ _ _ _ _ (proj2 Hok) Hv).
  apply Forall_fmap. eapply Forall_impl; [exact Hs|]. intros m. apply live_typed.
Qed.
End TypedLog.

(** C16: every value a replica holds after any events is well typed: integers
    are [i64], versions [u32], and every sorted set satisfies the invariant of
    its two indexes, so the reads that rely on it are correct. *)
Theorem reachable_typed (E : Env) (Eok : EnvOk E) `{OF : OrderedFloat} (M : MemEnv) (L : LuaEnv) (S : ScriptSpec L) (T : ScriptTyped)
    db_number evs :
  Forall (event_ok script_fits) evs ->
  exists sm, run_events (E := E) (ME := M) (LE := L) (state_machine_new db_number) evs = Ret sm /\
    CacheInv (kvs sm) /\ store_typed (abs (kvs sm)).
Proof.
  intros Hok. destruct (run_events_refines (E := E) (ME := M) (LE := L) evs (state_machine_new db_number))
    as (sm & E' & Hc & Hv & _); [apply cache_new_inv|done|].
  exists sm. split_and!; [done..|]. apply (log_runs_typed _ _ _ Hv); [by apply log_of_ok|].
  apply Forall_fmap, Forall_forall. intros db Hdb.
  apply list_elem_of_lookup in Hdb as (i & Hi). apply lookup_replicate in Hi as [-> _]. cbn.
  unfold abs_db. cbn. rewrite live_empty, omap_empty. apply map_Forall_empty.
Qed.
End Machine.

(** ** Witnesses *)

Definition sample_entry (i : nat) (clock : Z) (op : Operation) : LogEntry (LogId := nat) (Membership := unit) :=
  mkLogEntry i (Normal (request_new clock 0 op)).

(** SADD, a change of members, SPOP, and a transaction with a script in it. *)
Definition sample_log : list (LogEntry (LogId := nat) (Membership := unit)) :=
  [sample_entry 1 10 (Base (SAdd (mkSAddReq (str "s") [str "a"; str "b"; str "c"])));
   mkLogEntry 2%nat (MembershipChange tt);
   sample_entry 3 12 (Base (SPop (mkSPopReq (str "s") (Some 2))));
   sample_entry 4 13 (Redis (RedisExec [Read (RSCard (mkSCardParams (str "s"))); Redis (RedisEval count_params)]))].

Definition sample_events : list (event (LogId := nat) (Membership := unit)) :=
  [EvApply (take 1 sample_log); EvSnapshot Start; EvRead (RSCard (mkSCardParams (str "s"))) 0 (Some 11);
   EvApply (drop 1 sample_log); EvWorker 0].

Lemma sample_log_ok : Forall (entry_ok (certain_scripts (IP := sample_interp) 1)) sample_log.
Proof.
  unfold sample_log. rewrite !Forall_cons. split_and!; [| | | |by apply Forall_nil]; try exact I.
  1-3: split; [split; (apply Z.leb_le || apply Z.ltb_lt); reflexivity|]; try exact I.
  split; [exact I|]. split; [exact (count_calls 2)|exact I].
Qed.

Lemma sample_events_ok : Forall (event_ok (certain_scripts (IP := sample_interp) 1)) sample_events.
Proof.
  unfold sample_events. rewrite !Forall_cons. split_and!; [|done|done| |done|by apply Forall_nil].
  - apply (Forall_take _ 1), sample_log_ok.
  - apply (Forall_drop _ 1), sample_log_ok.
Qed.

Abbreviation sample_lua E := (script_env (E := E) (OF := ordered_float) (ME := no_mem) (IP := sample_interp) 1).


Lemma reachable_typed_witness :
  exists sm, run_events (E := first_env) (OF := ordered_float) (ME := no_mem) (LE := sample_lua first_env) (state_machine_new 1) sample_events = Ret sm /\
    store_typed (abs (kvs sm)).
Proof.
  destruct (reachable_typed first_env first_env_ok no_mem (sample_lua first_env) (script_spec (EnvOk0 := first_env_ok) (IP := sample_interp) 1)
    (script_typed (EnvOk0 := first_env_ok) (IP := sample_interp) 1) 1 sample_events) as (sm & H1 & _ & H2).
  - eapply Forall_impl; [exact sample_events_ok|]. intros ev. apply event_ok_mono. intros p. apply certain_scripts_fit.
  - exists sm. split; [exact H1|exact H2].
Defined.
