(* ===== verification/Snapshot.v ===== *)
(** * Snapshot: writing, loading and installing snapshots.

    Models src/cache_cat/src/raft/store/snapshot/snapshot_handler.rs, the
    streams of src/cache_cat/src/raft/types/core/mocha/snapshot.rs and
    [dump_snapshots_to_writer] of src/cache_cat/src/mocha/mod.rs,
    [load_meta_from_path] of src/cache_cat/src/raft/types/file_operator.rs, and
    [build_snapshot] and [install_snapshot] of
    src/cache_cat/src/raft/store/statemachine.rs.

    A snapshot file is the list of its bytes. The bincode2 crate is a
    parameter. The dump here is taken of a machine at rest; Dumping interleaves
    it with what the machine does meanwhile. *)

From S2P Require Import Prelude Text F64 Reply SortedSet TimeWheel Mocha Ops Store Refine Spop StringCmd KeyCmd Memory Handler Answers Typed StateMachine.
From Stdlib Require Import Strings.Byte.

(** ** Big-endian integers *)

Definition write_u64 (z : Z) : bytes := be 8 z.
Definition write_u32 (z : Z) : bytes := be 4 z.

Definition len_u64 (b : bytes) : bytes := write_u64 (Z.of_nat (length b)).

(** ** Reading *)

Inductive IoError := UnexpectedEof | InvalidData | Other (msg : bytes).

Definition read_exact (n : Z) (s : bytes) : result (bytes * bytes) IoError :=
  if n <=? Z.of_nat (length s) then Ok (ztake n s, zdrop n s) else Err UnexpectedEof.

Definition read_be (n : Z) (s : bytes) : result (Z * bytes) IoError :=
  let? p := read_exact n s in let '(b, s') := p in Ok (from_be b, s').

Definition read_u64 (s : bytes) : result (Z * bytes) IoError := read_be 8 s.

(** ** The format *)

Definition CACHE_MAGIC_NUM : bytes := str "MCDC".
Definition VERSION : byte := x01.
Definition PLACEHOLDER_LENGTH : Z := 300.

Section Codec.
Context {LogId Membership : Type}.

(** [bincode2::serialize] and [deserialize] at the types of the file; a
    failed call is [None]. [de_plain_meta] reads the same bytes as [de_meta] at
    the type [SnapshotMeta]. A value is serialized through its locks, so the
    entries are plain values here. Reading a request can allocate collections. *)
Class Bincode := {
  ser_key : bytes -> option bytes;
  de_key : bytes -> option bytes;
  ser_entry : EntrySnapshot PValue -> option bytes;
  de_entry : bytes -> option (EntrySnapshot PValue);
  ser_request : Heap -> AtomicRequest -> option bytes;
  de_request : Heap -> bytes -> option (Heap * AtomicRequest);
  ser_meta : SnapshotMeta (LogId := LogId) (Membership := Membership) * Z -> option bytes;
  de_meta : bytes -> option (SnapshotMeta (LogId := LogId) (Membership := Membership) * Z);
  de_plain_meta : bytes -> option (SnapshotMeta (LogId := LogId) (Membership := Membership))
}.

(** A request that carries no collection. *)
Definition plain_request (r : AtomicRequest) : Prop :=
  match ar_request r with
  | Insert req => value_loc (ins_value req) = None
  | _ => True
  end.

(** What was serialized is read back; a request is never empty. *)
Class BincodeOk (B : Bincode) : Prop := {
  key_roundtrip k b : ser_key k = Some b -> de_key b = Some k;
  entry_roundtrip e b : ser_entry e = Some b -> de_entry b = Some e;
  request_roundtrip h h' r b : plain_request r -> ser_request h r = Some b -> de_request h' b = Some (h', r);
  request_nonempty h r b : ser_request h r = Some b -> b <> [];
  meta_roundtrip m b : ser_meta m = Some b -> de_meta b = Some m
}.

Context `{B : Bincode} `{E : Env}.
Abbreviation SnapshotMeta := (SnapshotMeta (LogId := LogId) (Membership := Membership)).
Abbreviation StateMachineData := (StateMachineData (LogId := LogId) (Membership := Membership)).

(** ** Dumping *)

(** Reading an entry through its lock. *)
Definition abs_snapshot (h : Heap) (s : EntrySnapshot MyValue) : option (EntrySnapshot PValue) :=
  let* pv := abs_value h (value s) in Some (mkEntrySnapshot pv (expire_at s)).

Definition dump_entry (h : Heap) (ke : bytes * Entry MyValue) : option bytes :=
  let* key_bytes := ser_key ke.1 in
  let* s := abs_snapshot h (snapshot ke.2) in
  let* val_bytes := ser_entry s in
  Some (len_u64 key_bytes ++ key_bytes ++ len_u64 val_bytes ++ val_bytes).

(** The count is written once the entries are known, in the place kept for it. *)
Definition dump_snapshots_to_writer (now : Z) (h : Heap) (db : Mocha MyValue) : option bytes :=
  let* es := mapM (dump_entry h) (filter (fun ke => is_expired now ke.2 = false) (db_iter (map_ db))) in
  Some (write_u64 (Z.of_nat (length es)) ++ concat es).

Definition dump_cache_to_writer (c : MyCache) : option bytes :=
  let* dbs := mapM (dump_snapshots_to_writer (write_logic_clock c) (heap c)) (databases c) in
  Some (write_u64 (Z.of_nat (length (databases c))) ++ concat dbs).

Definition dump_request (h : Heap) (r : AtomicRequest) : option bytes :=
  let* b := ser_request h r in Some (len_u64 b ++ b).

Definition dump_operation_queue_to_writer (h : Heap) (queue : list AtomicRequest) : option bytes :=
  let* rs := mapM (dump_request h) queue in Some (concat rs ++ write_u64 0).

(** Seeking to [off] and writing [b] over what is there. *)
Definition overwrite (off : nat) (b file : bytes) : bytes :=
  take off file ++ b ++ drop (off + length b) file.

(** The contents of the file [dump_cache_to_path] moves into place. *)
Definition dump_cache_to_path (c : MyCache) (meta : SnapshotMeta) (queue : list AtomicRequest) : option bytes :=
  let* body := dump_cache_to_writer c in
  let* ops := dump_operation_queue_to_writer (heap c) queue in
  let* result := ser_meta (meta, write_logic_clock c) in
  let file := CACHE_MAGIC_NUM ++ [VERSION] ++ replicate (Z.to_nat PLACEHOLDER_LENGTH) x00 ++ body ++ ops in
  Some (overwrite 5 (write_u32 (wrap_u32 (Z.of_nat (length result))) ++ result) file).

(** ** Loading *)

Definition read_block (s : bytes) : result (bytes * bytes) IoError :=
  let? p := read_u64 s in let '(len, s) := p in read_exact len s.

Definition read_entry (s : bytes) : result (bytes * EntrySnapshot PValue * bytes) IoError :=
  let? p := read_block s in let '(key_buf, s) := p in
  let? p := read_block s in let '(val_buf, s) := p in
  let? key := ok_or (de_key key_buf) InvalidData in
  let? v := ok_or (de_entry val_buf) InvalidData in
  Ok (key, v, s).

(** [insert_snapshot] of a deserialized entry, whose collection is new. *)
Definition load_entry (c : MyCache) (shard_idx : Z) (key : bytes) (v : EntrySnapshot PValue) : MyCache :=
  match get_db c shard_idx with
  | None => c
  | Some db =>
      let d := pdata (value v) in
      let l := next (heap c) in
      let s := mkEntrySnapshot (mkMyValue (pversion (value v)) (ptr l d)) (expire_at v) in
      put_db c shard_idx (insert_snapshot (write_logic_clock c) db key s).1 (bump (heap_put (heap c) l d))
  end.

(** The loop over the entries of a shard; every turn reads at least 16 bytes. *)
Fixpoint load_entries (fuel : nat) (c : MyCache) (shard_idx entry_count : Z) (s : bytes)
    : outcome (MyCache * result bytes IoError) :=
  if entry_count <=? 0 then Ret (c, Ok s)
  else
    match fuel with
    | O => OutOfFuel
    | S fuel' =>
        match read_entry s with
        | Err e => Ret (c, Err e)
        | Ok (key, v, s') => load_entries fuel' (load_entry c shard_idx key v) shard_idx (entry_count - 1) s'
        end
    end.

(** The loop over the shards [shard_idx], [shard_idx + 1], ... *)
Fixpoint load_shards (count : nat) (c : MyCache) (shard_idx : Z) (s : bytes) : outcome (MyCache * result bytes IoError) :=
  match count with
  | O => Ret (c, Ok s)
  | S count' =>
      match read_u64 s with
      | Err e => Ret (c, Err e)
      | Ok (entry_count, s') =>
          match load_entries (S (length s')) c shard_idx entry_count s' with
          | Ret (c', Ok s'') => load_shards count' c' (shard_idx + 1) s''
          | r => r
          end
      end
  end.

Definition load_cache_from_reader (c : MyCache) (s : bytes) : outcome (MyCache * result bytes IoError) :=
  match read_u64 s with
  | Err e => Ret (c, Err e)
  | Ok (shard_count, s') =>
      if Z.of_nat (length (databases c)) <? shard_count then Ret (c, Err InvalidData)
      else load_shards (Z.to_nat shard_count) c 0 s'
  end.

(** The end of the file also ends the queue. *)
Fixpoint load_operations (fuel : nat) (h : Heap) (s : bytes) : outcome (Heap * result (list AtomicRequest) IoError) :=
  match read_u64 s with
  | Err _ => Ret (h, Ok [])
  | Ok (opt_len, s') =>
      if opt_len =? 0 then Ret (h, Ok [])
      else
        match fuel with
        | O => OutOfFuel
        | S fuel' =>
            match read_exact opt_len s' with
            | Err e => Ret (h, Err e)
            | Ok (opt_buf, s'') =>
                match de_request h opt_buf with
                | None => Ret (h, Err InvalidData)
                | Some (h', request) =>
                    match load_operations fuel' h' s'' with
                    | Ret (h'', Ok list) => Ret (h'', Ok (request :: list))
                    | r => r
                    end
                end
            end
        end
  end.

Definition load_operation_queue_from_reader (h : Heap) (s : bytes) : outcome (Heap * result (list AtomicRequest) IoError) :=
  load_operations (S (length s)) h s.

Definition with_heap (c : MyCache) (h : Heap) : MyCache :=
  mkMyCache (databases c) (read_logic_clock c) (write_logic_clock c) h.

(** The magic number, the version and the meta data, as
    [load_cache_from_path] and [load_meta_from_path] read them. *)
Definition read_header (file : bytes) : result bytes IoError :=
  let? p := read_exact 4 file in let '(magic, s) := p in
  if negb (bool_decide (magic = CACHE_MAGIC_NUM)) then Err (Other (str "invalid file magic")) else
  let? p := read_exact 1 s in let '(version, s) := p in
  if negb (bool_decide (version = [VERSION])) then Err (Other (str "unsupported version")) else
  let? p := read_be 4 s in let '(meta_len, s) := p in
  let? p := read_exact meta_len s in Ok p.1.

(** The position after the relative seek; the subtraction wraps, and so does
    the conversion to [i64]. *)
Definition body_offset (meta_len : Z) : Z :=
  9 + meta_len + wrap_i64 (wrap_u64 (PLACEHOLDER_LENGTH - (4 + meta_len))).

(** [load_cache_from_path] once the file is open. *)
Definition load_cache_from_path (c : MyCache) (file : option bytes)
    : outcome (MyCache * result (option (SnapshotMeta * list AtomicRequest)) IoError) :=
  let c := invalidate_all c in
  match file with
  | None => Ret (c, Ok None)
  | Some file =>
      match read_header file with
      | Err e => Ret (c, Err e)
      | Ok meta_buf =>
          match load_cache_from_reader c (zdrop (body_offset (Z.of_nat (length meta_buf))) file) with
          | Panic => Panic
          | OutOfFuel => OutOfFuel
          | Ret (c, Err e) => Ret (c, Err e)
          | Ret (c, Ok s) =>
              match load_operation_queue_from_reader (heap c) s with
              | Panic => Panic
              | OutOfFuel => OutOfFuel
              | Ret (h, Err e) => Ret (with_heap c h, Err e)
              | Ret (h, Ok queue) =>
                  match de_meta meta_buf with
                  | None => Ret (with_heap c h, Err InvalidData)
                  | Some (meta, clock) => Ret ((set_write_clock (with_heap c h) clock).1, Ok (Some (meta, queue)))
                  end
              end
          end
      end
  end.

(** ** Building and installing *)

Context `{OF : OrderedFloat} `{ME : MemEnv} `{LE : LuaEnv}.

Definition snapshot_meta (meta : RaftMetaData) : SnapshotMeta :=
  mkSnapshotMeta (last_applied_log_id meta) (last_membership meta).

(** Where a dump that fails leaves the snapshot state: it becomes [Tail] only
    once the cache and the queue are written. *)
Definition failed_state (sm : StateMachineData) : SnapshotState :=
  match dump_cache_to_writer (kvs sm), dump_operation_queue_to_writer (heap (kvs sm)) (incremental_operation_queue sm) with
  | Some _, Some _ => Tail
  | _, _ => Start
  end.

(** [load_meta_from_path] once the file is open. *)
Definition load_meta_from_path (file : bytes) : result SnapshotMeta IoError :=
  let? meta_buf := read_header file in ok_or (de_plain_meta meta_buf) InvalidData.

(** [build_snapshot]; the queue is kept. *)
Definition build_snapshot (sm : StateMachineData) : StateMachineData * result (SnapshotMeta * bytes) IoError :=
  match dump_cache_to_path (kvs sm) (snapshot_meta (raft_meta_data sm)) (incremental_operation_queue sm) with
  | Some file => (set_snapshot_state sm End_, let? meta := load_meta_from_path file in Ok (meta, file))
  | None => (set_snapshot_state sm (failed_state sm), Err InvalidData)
  end.

Definition install_snapshot (sm : StateMachineData) (file : option bytes) : outcome (StateMachineData * result unit IoError) :=
  match load_cache_from_path (kvs sm) file with
  | Panic => Panic
  | OutOfFuel => OutOfFuel
  | Ret (c, Err e) => Ret (with_kvs sm c, Err e)
  | Ret (c, Ok None) => Ret (with_kvs sm c, Err (Other (str "meta data is empty")))
  | Ret (c, Ok (Some (meta, queue))) => Ret (update_meta_data (with_kvs sm (replay c queue)) meta, Ok tt)
  end.

(** [StateMachineStore::new]: the queue of the file is dropped. *)
Definition state_machine_store_new (db_number : Z) (file : option bytes) : outcome (StateMachineData * result unit IoError) :=
  let sm := state_machine_new db_number in
  match load_cache_from_path (kvs sm) file with
  | Panic => Panic
  | OutOfFuel => OutOfFuel
  | Ret (c, Err e) => Ret (with_kvs sm c, Err e)
  | Ret (c, Ok None) => Ret (with_kvs sm c, Ok tt)
  | Ret (c, Ok (Some (meta, _))) => Ret (update_meta_data (with_kvs sm c) meta, Ok tt)
  end.
End Codec.

(** ** Integers and blocks are read back *)

Lemma read_exact_app b s : read_exact (Z.of_nat (length b)) (b ++ s) = Ok (b, s).
Proof.
  unfold read_exact. rewrite length_app, (proj2 (Z.leb_le _ _)) by lia.
  by rewrite ztake_take, zdrop_drop, Nat2Z.id, take_app_length, drop_app_length.
Qed.

Lemma read_u64_app z s : is_u64 z -> read_u64 (write_u64 z ++ s) = Ok (z, s).
Proof.
  intros Hz. unfold read_u64, read_be, write_u64. change 8 with (Z.of_nat 8) at 1.
  rewrite <- (be_length 8 z) at 1. rewrite read_exact_app. cbn [result_bind]. rewrite from_be_be.
  by rewrite Z.mod_small by exact Hz.
Qed.

Lemma read_block_app b s : Z.of_nat (length b) < 2 ^ 64 -> read_block ((len_u64 b ++ b) ++ s) = Ok (b, s).
Proof.
  intros Hb. unfold read_block, len_u64. rewrite <- app_assoc, read_u64_app by (unfold is_u64; lia).
  cbn [result_bind]. apply read_exact_app.
Qed.

Lemma read_exact_inv n s b s' : read_exact n s = Ok (b, s') -> (length s' <= length s)%nat.
Proof. unfold read_exact. case_match; [|done]. intros [= _ <-]. rewrite zdrop_drop, length_drop. lia. Qed.

Lemma read_u64_inv s z s' : read_u64 s = Ok (z, s') -> (length s' < length s)%nat.
Proof.
  unfold read_u64, read_be, read_exact. destruct (Z.leb_spec 8 (Z.of_nat (length s))); [|done].
  cbn [result_bind]. intros [= _ <-]. rewrite zdrop_drop, length_drop. lia.
Qed.

Lemma read_block_inv s b s' : read_block s = Ok (b, s') -> (length s' < length s)%nat.
Proof.
  unfold read_block. destruct (read_u64 s) as [[n s1]|] eqn:E1; [|done]. apply read_u64_inv in E1.
  cbn [result_bind]. intros E2%read_exact_inv. lia.
Qed.

Lemma mapM_concat_length {A} (f : A -> option bytes) l : (forall x b, f x = Some b -> b <> []) ->
  forall bs, mapM f l = Some bs -> (length l <= length (concat bs))%nat.
Proof.
  intros Hf. induction l as [|x l IH]; intros bs Hm; [injection Hm as <-; cbn; lia|]. cbn in Hm.
  destruct (f x) as [b|] eqn:Eb; [|done]. cbn in Hm. destruct (mapM f l) as [bs'|]; [|done].
  injection Hm as <-. specialize (IH bs' eq_refl). cbn [concat length]. rewrite length_app.
  specialize (Hf x b Eb). destruct b; [done|cbn; lia].
Qed.

Section LoadCorrect.
Context {LogId Membership : Type} `{B : !Bincode (LogId := LogId) (Membership := Membership)} `{E : Env}.

(** ** Loading returns on every file *)

Lemma read_entry_inv s k v s' : read_entry s = Ok (k, v, s') -> (length s' < length s)%nat.
Proof.
  unfold read_entry. destruct (read_block s) as [[kb s1]|] eqn:E1; [|done]. cbn [result_bind].
  destruct (read_block s1) as [[vb s2]|] eqn:E2; [|done]. cbn [result_bind].
  apply read_block_inv in E1, E2. destruct (de_key kb), (de_entry vb); cbn; try done. intros [= _ _ <-]. lia.
Qed.

Lemma load_entries_returns fuel : forall c i n s, (length s < fuel)%nat -> exists r, load_entries fuel c i n s = Ret r.
Proof.
  induction fuel as [|fuel IH]; intros c i n s Hf; [lia|]. cbn [load_entries]. case_match; [by eexists|].
  destruct (read_entry s) as [[[k v] s']|] eqn:Es; [|by eexists]. apply IH. apply read_entry_inv in Es. lia.
Qed.

Lemma load_shards_returns n : forall c i s, exists r, load_shards n c i s = Ret r.
Proof.
  induction n as [|n IH]; intros c i s; cbn [load_shards]; [by eexists|].
  destruct (read_u64 s) as [[m s']|]; [|by eexists].
  destruct (load_entries_returns (S (length s')) c i m s') as [[c' [s''|e]] ->]; [lia|apply IH|by eexists].
Qed.

Lemma load_operations_returns fuel : forall h s, (length s < fuel)%nat -> exists r, load_operations fuel h s = Ret r.
Proof.
  induction fuel as [|fuel IH]; intros h s Hf; [lia|]. cbn [load_operations].
  destruct (read_u64 s) as [[n s1]|] eqn:E1; [|by eexists]. apply read_u64_inv in E1. case_match; [by eexists|].
  destruct (read_exact n s1) as [[b s2]|] eqn:E2; [|by eexists]. apply read_exact_inv in E2.
  destruct (de_request h b) as [[h' r]|]; [|by eexists].
  destruct (IH h' s2) as [[h'' [l|e]] ->]; [lia|by eexists..].
Qed.

Lemma load_returns c file : exists r, load_cache_from_path c file = Ret r.
Proof.
  unfold load_cache_from_path. destruct file as [file|]; [|by eexists]. destruct (read_header file) as [mb|]; [|by eexists].
  unfold load_cache_from_reader. destruct (read_u64 _) as [[n s]|]; [|by eexists].
  assert (exists r, (if Z.of_nat (length (databases (invalidate_all c))) <? n then Ret (invalidate_all c, Err InvalidData)
    else load_shards (Z.to_nat n) (invalidate_all c) 0 s) = Ret r) as [[c1 [s1|e]] ->]; [|..|by eexists].
  { case_match; [by eexists|apply load_shards_returns]. }
  destruct (load_operations_returns (S (length s1)) (heap c1) s1) as [[h [q|e]] Hq]; [lia|..];
    unfold load_operation_queue_from_reader; rewrite Hq; [|by eexists].
  destruct (de_meta mb) as [[m clk]|]; by eexists.
Qed.

(** ** What was dumped is loaded *)

Context `{!BincodeOk B} `{!EnvOk E}.

(** The entry with its collection read. *)
Definition plain (ps : EntrySnapshot PValue) : Entry PValue := mkEntry (value ps) (expire_at ps).

(** The bytes of an entry in the file. *)
Definition encodes (b : bytes) (kv : bytes * EntrySnapshot PValue) : Prop :=
  exists kb vb, ser_key kv.1 = Some kb /\ ser_entry kv.2 = Some vb /\ b = len_u64 kb ++ kb ++ len_u64 vb ++ vb.

Lemma dump_entry_encodes h k e b : dump_entry h (k, e) = Some b ->
  exists ps, encodes b (k, ps) /\ abs_entry h e = Some (plain ps).
Proof.
  unfold dump_entry. cbn [fst snd]. destruct (ser_key k) as [kb|] eqn:Ek; [|done].
  unfold abs_snapshot, abs_entry. change (value (snapshot e)) with (e_value e).
  destruct (abs_value h (e_value e)) as [pv|]; [|done]. destruct (ser_entry _) as [vb|] eqn:Ev; [|done].
  intros <-%(inj Some). eexists. split; [by exists kb, vb|]. by destruct e.
Qed.

Lemma read_encoded b k ps s : encodes b (k, ps) -> Z.of_nat (length b) < 2 ^ 64 -> read_entry (b ++ s) = Ok (k, ps, s).
Proof.
  intros (kb & vb & Ek & Ev & ->) Hlen. cbn [fst snd] in *. rewrite !length_app in Hlen. unfold read_entry.
  replace ((len_u64 kb ++ kb ++ len_u64 vb ++ vb) ++ s) with ((len_u64 kb ++ kb) ++ (len_u64 vb ++ vb) ++ s) by (by rewrite <- !app_assoc).
  rewrite read_block_app by lia. cbn [result_bind]. rewrite read_block_app by lia. cbn [result_bind].
  by rewrite (key_roundtrip _ _ Ek), (entry_roundtrip _ _ Ev).
Qed.

Lemma encodes_nonempty b kv : encodes b kv -> b <> [].
Proof. by intros (kb & vb & _ & _ & ->). Qed.

(** Loading entries one after the other. *)
Definition load_all (c : MyCache) (i : Z) (l : list (bytes * EntrySnapshot PValue)) : MyCache :=
  foldl (fun c kv => load_entry c i kv.1 kv.2) c l.

Lemma load_encoded_entries bs l : Forall2 encodes bs l -> forall fuel c i s,
  Z.of_nat (length (concat bs)) < 2 ^ 64 -> (length bs < fuel)%nat ->
  load_entries fuel c i (Z.of_nat (length bs)) (concat bs ++ s) = Ret (load_all c i l, Ok s).
Proof.
  induction 1 as [|b [k ps] bs l Hb _ IH]; intros fuel c i s Hlen Hf; [by destruct fuel|].
  cbn [concat] in *. rewrite length_app in Hlen. destruct fuel as [|fuel]; [cbn in Hf; lia|]. cbn [length] in *.
  cbn [load_entries]. rewrite (proj2 (Z.leb_gt _ _)) by lia. rewrite <- app_assoc, (read_encoded b k ps) by (done || lia).
  replace (Z.of_nat (S (length bs)) - 1) with (Z.of_nat (length bs)) by lia. apply IH; lia.
Qed.

Lemma dumped_entries_encode h es bs : mapM (dump_entry h) es = Some bs ->
  exists l, Forall2 encodes bs l /\ Forall2 (fun ke kv => kv.1 = ke.1 /\ abs_entry h ke.2 = Some (plain kv.2)) es l.
Proof.
  intros Hm%mapM_Some. induction Hm as [|[k e] b es bs Hb _ (l & H1 & H2)]; [by exists []|].
  destruct (dump_entry_encodes h k e b Hb) as (ps & He & Ha). exists ((k, ps) :: l). by split; constructor.
Qed.

Lemma dump_request_nonempty h r b : dump_request h r = Some b -> b <> [].
Proof. unfold dump_request. by case_match; intros [= <-]. Qed.

(** A live entry whose deadline fits a [u64]. *)
Definition loadable (now : Z) (e : Entry PValue) : Prop :=
  is_expired now e = false /\ forall a, e_expire_at e = Some a -> is_u64 a.

Lemma load_entry_refines c i k ps m : CacheInv c -> abs c !! Z.to_nat i = Some m -> loadable (write_logic_clock c) (plain ps) ->
  let c' := load_entry c i k ps in
  CacheInv c' /\ write_logic_clock c' = write_logic_clock c /\ abs c' = <[Z.to_nat i := <[k := plain ps]> m]> (abs c).
Proof.
  intros Hc Hi [Hlive Hu]. unfold load_entry. destruct (get_db c i) as [db|] eqn:Hdb.
  2: { rewrite abs_lookup in Hi. unfold get_db in Hdb. by rewrite Hdb in Hi. }
  rewrite (get_db_abs _ _ _ Hdb) in Hi. injection Hi as <-. set (now := write_logic_clock c) in *.
  set (d := pdata (value ps)). set (v := mkMyValue (pversion (value ps)) (ptr (next (heap c)) d)).
  set (p := match expire_at ps with None => Persistent | Some a => Absolute a end).
  assert (policy_ok p) as Hp. { unfold p, plain in *. cbn in Hu. destruct (expire_at ps); cbn; auto. }
  assert (forall V (x : V), make_entry now x p = mkEntry x (expire_at ps)) as Hmk.
  { intros V x. unfold make_entry, p. by destruct (expire_at ps). }
  cbv zeta. change (insert_snapshot now db k (mkEntrySnapshot v (expire_at ps))) with (insert_entry now db k v p).
  destruct (apply_changed_spec now db k (MInsert v p) (inv_mocha c Hc _ _ Hdb)) as [Hm' Hl']; [by intros ? ? [= _ <-]|].
  destruct (insert_key c i db _ (bump (heap_put (heap c) (next (heap c)) d)) k None v (mkPValue (pversion (value ps)) d) p Hc Hdb Hm' Hl')
    as [Hc' Ha']; [apply owner_none|apply frame_alloc, Hc|done| |by eapply fresh_private; [..|apply (fresh_alloc None)]; [|apply owner_none]|].
  { unfold abs_value. cbn. by rewrite abs_alloc. }
  split_and!; [exact Hc'|done|]. etransitivity; [exact Ha'|]. fold now. rewrite Hmk. f_equal.
  assert (mkEntry (mkPValue (pversion (value ps)) d) (expire_at ps) = plain ps) as ->.
  { unfold plain, d. by destruct ps as [[] ?]. }
  unfold put. by rewrite Hlive.
Qed.

Lemma load_all_refines l : forall c i m, CacheInv c -> abs c !! Z.to_nat i = Some m ->
  Forall (fun kv => loadable (write_logic_clock c) (plain kv.2)) l ->
  let c' := load_all c i l in
  CacheInv c' /\ write_logic_clock c' = write_logic_clock c /\
  abs c' = <[Z.to_nat i := foldl (fun m kv => <[kv.1 := plain kv.2]> m) m l]> (abs c).
Proof.
  induction l as [|[k ps] l IH]; intros c i m Hc Hi Hl; cbn [load_all foldl]; cbv zeta.
  - split_and!; [done..|]. by rewrite list_insert_id.
  - inversion_clear Hl as [|? ? Hk Hl']. cbn [fst snd] in *.
    destruct (load_entry_refines c i k ps m Hc Hi Hk) as (Hc1 & Hn1 & Ha1).
    destruct (IH (load_entry c i k ps) i (<[k := plain ps]> m) Hc1) as (Hc2 & Hn2 & Ha2).
    + rewrite Ha1, list_lookup_insert_eq; [done|]. by eapply lookup_lt_Some.
    + by rewrite Hn1.
    + split_and!; [done|by etransitivity|]. etransitivity; [exact Ha2|]. by rewrite Ha1, list_insert_insert_eq.
Qed.

Lemma insert_all_contents (l : list (bytes * EntrySnapshot PValue)) : NoDup l.*1 ->
  foldl (fun m kv => <[kv.1 := plain kv.2]> m) ∅ l = (list_to_map (prod_map id plain <$> l) : gmap bytes (Entry PValue)).
Proof.
  intros Hnd. transitivity (list_to_map (reverse (prod_map id plain <$> l)) : gmap bytes (Entry PValue)).
  - clear Hnd. induction l as [|[k x] l IH] using rev_ind; [done|].
    rewrite foldl_app, fmap_app, reverse_app, IH. done.
  - apply list_to_map_proper; [|by rewrite reverse_Permutation].
    rewrite <- fmap_reverse, <- list_fmap_compose, (list_fmap_ext _ fst) by done. by rewrite fmap_reverse, reverse_Permutation.
Qed.

(** The entries of a database, visited in any order, make its contents. *)
Lemma visited_contents now h (db : Mocha MyValue) es l :
  es = filter (fun ke => is_expired now ke.2 = false) (db_iter (map_ db)) ->
  Forall2 (fun (ke : bytes * Entry MyValue) kv => kv.1 = ke.1 /\ abs_entry h ke.2 = Some (plain kv.2)) es l ->
  foldl (fun m kv => <[kv.1 := plain kv.2]> m) ∅ l = abs_db now h db.
Proof.
  intros -> HF. set (es := filter _ _) in HF.
  assert (forall k e, (k, e) ∈ es <-> live now (map_ db) !! k = Some e) as Hes.
  { intros k e. unfold es. rewrite list_elem_of_filter, db_iter_perm, elem_of_map_to_list, live_lookup. cbn.
    split; [by intros [? ->]; case_match|]. destruct (map_ db !! k) as [x|]; [|done]. destruct (is_expired now x) eqn:?; [done|].
    by intros [= ->]. }
  assert (NoDup l.*1) as Hnd.
  { replace (l.*1) with (es.*1). 2: { clear Hes. revert HF. clear. induction 1 as [|? ? ? ? [? _]]; [done|]. cbn. congruence. }
    unfold es. eapply sublist_NoDup; [|apply fmap_sublist, sublist_filter]. rewrite db_iter_perm. apply NoDup_fst_map_to_list. }
  rewrite insert_all_contents by done.
  apply map_eq. intros k. rewrite abs_db_lookup. apply option_eq. intros pe.
  rewrite <- elem_of_list_to_map by (rewrite <- list_fmap_compose; by rewrite (list_fmap_ext _ fst)).
  rewrite list_elem_of_fmap. split.
  - intros ([k' ps] & [= -> ->] & Hin). apply list_elem_of_lookup in Hin as [j Hj].
    destruct (Forall2_lookup_r _ _ _ _ _ HF Hj) as ([k'' e] & Hj' & Hk & He). cbn in *. subst. apply list_elem_of_lookup_2 in Hj' as Hin'.
    apply Hes in Hin'. by rewrite Hin'.
  - destruct (live now (map_ db) !! k) as [e|] eqn:Ee; [|done]. cbn. intros He. apply Hes in Ee.
    apply list_elem_of_lookup in Ee as [j Hj]. destruct (Forall2_lookup_l _ _ _ _ _ HF Hj) as ([k' ps] & Hj' & Hk & He'). cbn in *.
    exists (k', ps). split; [|by eapply list_elem_of_lookup_2].
    cbn. congruence.
Qed.

(** The deadlines of the live entries fit a [u64]. *)
Definition deadlines_fit (now : Z) (db : Mocha MyValue) : Prop :=
  forall k e a, live now (map_ db) !! k = Some e -> e_expire_at e = Some a -> is_u64 a.

Lemma visited_loadable now now0 h db l : deadlines_fit now db -> now0 <= now ->
  Forall2 (fun (ke : bytes * Entry MyValue) kv => kv.1 = ke.1 /\ abs_entry h ke.2 = Some (plain kv.2))
    (filter (fun ke => is_expired now ke.2 = false) (db_iter (map_ db))) l ->
  Forall (fun kv => loadable now0 (plain kv.2)) l.
Proof.
  intros Hd Hle HF. apply Forall_lookup. intros j [k ps] Hj.
  destruct (Forall2_lookup_r _ _ _ _ _ HF Hj) as ([k' e] & Hj' & _ & He). cbn [snd] in *.
  apply list_elem_of_lookup_2 in Hj'. rewrite list_elem_of_filter, db_iter_perm, elem_of_map_to_list in Hj'.
  destruct Hj' as [Hlive Hk]. cbn in Hlive. unfold abs_entry in He. destruct (abs_value h (e_value e)) as [pv|]; [|done].
  apply (inj Some) in He. assert (e_expire_at (plain ps) = e_expire_at e) as Hx by (by rewrite <- He). split.
  - destruct (is_expired now0 (plain ps)) eqn:Ex; [|done]. apply (is_expired_mono now0 now) in Ex; [|done].
    unfold is_expired in *. by rewrite Hx, Hlive in Ex.
  - rewrite Hx. intros a. apply (Hd k' e). by rewrite live_lookup, Hk, Hlive.
Qed.

(** The bytes of a database in the file, and what loading them gives. *)
Definition encodes_shard (b : bytes) (l : list (bytes * EntrySnapshot PValue)) : Prop :=
  exists bs, Forall2 encodes bs l /\ b = write_u64 (Z.of_nat (length bs)) ++ concat bs.

Definition contents (l : list (bytes * EntrySnapshot PValue)) : gmap bytes (Entry PValue) :=
  foldl (fun m kv => <[kv.1 := plain kv.2]> m) ∅ l.

Lemma encodes_length bs l : Forall2 encodes bs l -> (length bs <= length (concat bs))%nat.
Proof.
  induction 1 as [|b kv bs l Hb _ IH]; [done|]. cbn. rewrite length_app. apply encodes_nonempty in Hb. destruct b; [done|]. cbn. lia.
Qed.

Lemma load_encoded_shards body ls : Forall2 encodes_shard body ls -> forall c pre m s,
  Z.of_nat (length (concat body)) < 2 ^ 64 -> Forall (Forall (fun kv => loadable (write_logic_clock c) (plain kv.2))) ls -> CacheInv c ->
  abs c = pre ++ replicate (length ls + m) ∅ ->
  exists c', load_shards (length ls) c (Z.of_nat (length pre)) (concat body ++ s) = Ret (c', Ok s) /\ CacheInv c' /\
    write_logic_clock c' = write_logic_clock c /\ abs c' = (pre ++ (contents <$> ls)) ++ replicate m ∅.
Proof.
  induction 1 as [|b l body ls (bs & Hbs & ->) _ IH]; intros c pre m s Hlen Hld Hc Ha.
  - exists c. split_and!; [done..|]. by rewrite app_nil_r.
  - inversion_clear Hld as [|? ? Hl Hls]. cbn [concat] in *. rewrite !length_app in Hlen.
    cbn [length load_shards]. rewrite <- !app_assoc. pose proof (encodes_length bs l Hbs) as Hcount.
    rewrite read_u64_app by (unfold is_u64; lia).
    rewrite (load_encoded_entries bs l Hbs) by (rewrite ?length_app; lia).
    destruct (load_all_refines l c (Z.of_nat (length pre)) ∅ Hc) as (Hc1 & Hn1 & Ha1); [|done|].
    { rewrite Ha, Nat2Z.id, lookup_app_r, Nat.sub_diag by done. done. }
    rewrite Nat2Z.id in Ha1. fold (contents l) in Ha1.
    destruct (IH (load_all c (Z.of_nat (length pre)) l) (pre ++ [contents l]) m s ltac:(lia)) as (c' & Hr & ? & Hn & Hab).
    + by rewrite Hn1.
    + done.
    + rewrite Ha1, Ha, insert_app_r_alt, Nat.sub_diag by done. cbn. by rewrite <- app_assoc.
    + rewrite length_app in Hr. cbn [length] in Hr. rewrite Nat2Z.inj_add in Hr. exists c'. split_and!; [exact Hr|done|congruence|].
      rewrite Hab. cbn. by rewrite <- !app_assoc.
Qed.

Lemma dumped_shards_encode now now0 h dbs : forall body, mapM (dump_snapshots_to_writer now h) dbs = Some body ->
  Forall (deadlines_fit now) dbs -> now0 <= now ->
  exists ls, Forall2 encodes_shard body ls /\ Forall (Forall (fun kv => loadable now0 (plain kv.2))) ls /\ contents <$> ls = abs_db now h <$> dbs.
Proof.
  induction dbs as [|db dbs IH]; intros body Hm Hd Hle; [injection Hm as <-; exists []; by split_and!|].
  inversion_clear Hd as [|? ? Hdb Hdbs]. cbn in Hm. destruct (dump_snapshots_to_writer now h db) as [b|] eqn:Eb; [|done].
  cbn in Hm. destruct (mapM (dump_snapshots_to_writer now h) dbs) as [bs'|] eqn:Ebs; [|done]. injection Hm as <-.
  destruct (IH bs' eq_refl Hdbs Hle) as (ls & H1 & H2 & H3). unfold dump_snapshots_to_writer in Eb.
  destruct (mapM (dump_entry h) _) as [es|] eqn:Ees; [|done]. apply (inj Some) in Eb as <-.
  destruct (dumped_entries_encode h _ es Ees) as (l & Hl & HF). exists (l :: ls). split_and!.
  - constructor; [by exists es|done].
  - constructor; [by eapply visited_loadable|done].
  - cbn. f_equal; [|done]. by eapply visited_contents.
Qed.

Lemma load_dumped_queue h queue : forall rs fuel h', mapM (dump_request h) queue = Some rs ->
  Z.of_nat (length (concat rs)) < 2 ^ 64 -> Forall plain_request queue -> (length queue < fuel)%nat ->
  load_operations fuel h' (concat rs ++ write_u64 0) = Ret (h', Ok queue).
Proof.
  induction queue as [|r queue IH]; intros rs fuel h' Hm Hlen Hp Hf; destruct fuel as [|fuel]; try (cbn in Hf; lia).
  - injection Hm as <-. done.
  - inversion_clear Hp as [|? ? Hr Hrs]. cbn in Hm. destruct (dump_request h r) as [b0|] eqn:Eb0; [|done].
    cbn in Hm. destruct (mapM (dump_request h) queue) as [rs'|] eqn:Ers; [|done]. injection Hm as <-.
    unfold dump_request in Eb0. destruct (ser_request h r) as [b|] eqn:Eb; [|done]. apply (inj Some) in Eb0 as <-.
    cbn [concat] in *. rewrite !length_app in Hlen. cbn [load_operations length] in *. unfold len_u64. rewrite <- !app_assoc.
    rewrite read_u64_app by (unfold is_u64; lia). destruct (Z.eqb_spec (Z.of_nat (length b)) 0) as [E0|_].
    { by destruct b; [destruct (request_nonempty _ _ _ Eb)|]. }
    rewrite read_exact_app, (request_roundtrip h h' r b Hr Eb), (IH rs' fuel h' eq_refl); [done|lia|done|lia].
Qed.

(** The placeholder holds a meta of up to 296 bytes. *)
Lemma overwrite_placeholder meta rest : (length meta <= 296)%nat ->
  overwrite 5 (write_u32 (wrap_u32 (Z.of_nat (length meta))) ++ meta)
    (CACHE_MAGIC_NUM ++ [VERSION] ++ replicate (Z.to_nat PLACEHOLDER_LENGTH) x00 ++ rest) =
  CACHE_MAGIC_NUM ++ [VERSION] ++ write_u32 (Z.of_nat (length meta)) ++ meta ++ replicate (296 - length meta) x00 ++ rest.
Proof.
  intros Hlen. unfold overwrite, wrap_u32, write_u32. rewrite Z.mod_small by lia. rewrite length_app, be_length.
  rewrite (app_assoc CACHE_MAGIC_NUM [VERSION]), take_app_length'; [|done].
  rewrite drop_app_add' by done. rewrite <- !app_assoc. do 4 f_equal.
  rewrite drop_app_le, drop_replicate by (rewrite length_replicate; change (Z.to_nat PLACEHOLDER_LENGTH) with 300%nat; lia). done.
Qed.

Lemma read_header_app meta rest : (length meta <= 296)%nat ->
  read_header (CACHE_MAGIC_NUM ++ [VERSION] ++ write_u32 (Z.of_nat (length meta)) ++ meta ++ rest) = Ok meta.
Proof.
  intros Hlen. unfold read_header. change 4 with (Z.of_nat (length CACHE_MAGIC_NUM)) at 1. rewrite read_exact_app. cbn [result_bind].
  rewrite bool_decide_eq_true_2 by done. cbn [negb]. change 1 with (Z.of_nat (length [VERSION])). rewrite read_exact_app. cbn [result_bind].
  rewrite bool_decide_eq_true_2 by done. cbn [negb]. unfold read_be, write_u32.
  change 4 with (Z.of_nat 4). rewrite <- (be_length 4 (Z.of_nat (length meta))) at 1. rewrite read_exact_app. cbn [result_bind].
  rewrite from_be_be, Z.mod_small by (cbn; lia). by rewrite read_exact_app.
Qed.

Lemma body_offset_app meta rest : (length meta <= 296)%nat ->
  zdrop (body_offset (Z.of_nat (length meta)))
    (CACHE_MAGIC_NUM ++ [VERSION] ++ write_u32 (Z.of_nat (length meta)) ++ meta ++ replicate (296 - length meta) x00 ++ rest) = rest.
Proof.
  intros Hlen. unfold body_offset, PLACEHOLDER_LENGTH. rewrite zdrop_drop.
  replace (Z.to_nat _) with (length (CACHE_MAGIC_NUM ++ [VERSION] ++ write_u32 (Z.of_nat (length meta)) ++ meta ++ replicate (296 - length meta) x00)).
  - by rewrite !app_assoc, drop_app_length.
  - unfold write_u32. rewrite !length_app, be_length, length_replicate. change (length CACHE_MAGIC_NUM) with 4%nat. change (length [VERSION]) with 1%nat.
    rewrite wrap_u64_small, wrap_i64_small by (unfold is_u64, is_i64, i64_min, i64_max; lia). lia.
Qed.

Lemma invalidate_all_refines c : CacheInv c ->
  CacheInv (invalidate_all c) /\ abs (invalidate_all c) = replicate (length (databases c)) ∅.
Proof.
  intros Hc. split.
  - apply shrink_inv; [done|]. rewrite <- (list_fmap_id (databases c)) at 1.
    apply Forall2_fmap_2, Forall_Forall2_diag, Forall_lookup. intros i db Hi.
    split; [apply clear_inv; exact (inv_mocha c Hc _ _ Hi)|apply live_clear].
  - unfold abs, invalidate_all. cbn. rewrite <- list_fmap_compose. apply list_eq. intros i. rewrite list_lookup_fmap.
    destruct (databases c !! i) as [db|] eqn:Ei; cbn.
    + rewrite abs_clear, lookup_replicate_2; [done|by eapply lookup_lt_Some].
    + apply lookup_ge_None in Ei. symmetry. by apply lookup_replicate_None.
Qed.

(** What [c0] becomes when it loads the file of the databases [ls] and of
    [queue], written with the clock [clock]. *)
Lemma load_file c0 body ls h queue ops meta clock mb file : CacheInv c0 -> Forall2 encodes_shard body ls ->
  Forall (Forall (fun kv => loadable (write_logic_clock c0) (plain kv.2))) ls ->
  dump_operation_queue_to_writer h queue = Some ops -> Forall plain_request queue ->
  (length ls <= length (databases c0))%nat -> write_logic_clock c0 <= clock -> is_u64 clock ->
  ser_meta (meta, clock) = Some mb -> (length mb <= 296)%nat ->
  file = overwrite 5 (write_u32 (wrap_u32 (Z.of_nat (length mb))) ++ mb)
    (CACHE_MAGIC_NUM ++ [VERSION] ++ replicate (Z.to_nat PLACEHOLDER_LENGTH) x00 ++ (write_u64 (Z.of_nat (length ls)) ++ concat body) ++ ops) ->
  Z.of_nat (length file) < 2 ^ 64 ->
  exists c', load_cache_from_path c0 (Some file) = Ret (c', Ok (Some (meta, queue))) /\ CacheInv c' /\
    write_logic_clock c' = clock /\
    abs c' = (live clock <$> (contents <$> ls)) ++ replicate (length (databases c0) - length ls) ∅.
Proof.
  intros Hc0 Hbody Hld Hops Hq Hdbs Hclk Hu Em Hmeta -> Hlen. unfold dump_operation_queue_to_writer in Hops.
  destruct (mapM (dump_request _) queue) as [rs|] eqn:Ers; [|done]. apply (inj Some) in Hops as <-.
  rewrite overwrite_placeholder in * by done. rewrite !length_app in Hlen.
  pose proof (mapM_concat_length _ _ (dump_request_nonempty _) _ Ers) as Hrl.
  destruct (invalidate_all_refines c0 Hc0) as [Hi Hia]. unfold load_cache_from_path. rewrite read_header_app, body_offset_app by done.
  unfold load_cache_from_reader. rewrite <- app_assoc, read_u64_app; cycle 1.
  { assert (length ls <= length (concat body))%nat; [|unfold is_u64; lia]. clear -Hbody. induction Hbody as [|b l body ls (bs & _ & ->) _ IH]; [done|].
    cbn [concat length]. rewrite !length_app. unfold write_u64. rewrite be_length. lia. }
  assert (length (databases (invalidate_all c0)) = length (databases c0)) as Hl0 by apply length_fmap.
  rewrite Hl0, (proj2 (Z.ltb_ge _ _)), Nat2Z.id by lia.
  destruct (load_encoded_shards body ls Hbody (invalidate_all c0) [] (length (databases c0) - length ls) (concat rs ++ write_u64 0) ltac:(lia))
    as (c1 & Hr & Hc1 & Hn1 & Ha1); [done..| |].
  { rewrite Hia. cbn. f_equal. lia. }
  change (Z.of_nat (length [])) with 0 in Hr. rewrite Hr. unfold load_operation_queue_from_reader.
  rewrite (load_dumped_queue h queue rs) by (done || (rewrite ?length_app; lia)). rewrite (meta_roundtrip _ _ Em).
  replace (with_heap c1 (heap c1)) with c1 by (by destruct c1).
  pose proof (set_write_clock_refines c1 clock Hc1 Hu) as Hs.
  destruct (set_write_clock c1 clock) as [c2 now]. destruct Hs as (-> & Hn2 & _ & Hc2 & Ha2).
  assert (Z.max (write_logic_clock c1) clock = clock) as Hmax by (rewrite Hn1; cbn; lia).
  exists c2. rewrite Hmax in *. split_and!; [done..|]. rewrite Ha2, Ha1, fmap_app. cbn [app]. f_equal.
  rewrite fmap_replicate. by rewrite live_empty.
Qed.

(** The state [c0] becomes when it loads a dump of [c]. *)
Lemma load_dump c c0 meta queue file : CacheInv c -> CacheInv c0 -> Forall plain_request queue ->
  (length (databases c) <= length (databases c0))%nat -> write_logic_clock c0 <= write_logic_clock c ->
  (forall b, ser_meta (meta, write_logic_clock c) = Some b -> (length b <= 296)%nat) ->
  dump_cache_to_path c meta queue = Some file -> Z.of_nat (length file) < 2 ^ 64 ->
  exists c', load_cache_from_path c0 (Some file) = Ret (c', Ok (Some (meta, queue))) /\ CacheInv c' /\
    write_logic_clock c' = write_logic_clock c /\
    abs c' = abs c ++ replicate (length (databases c0) - length (databases c)) ∅.
Proof.
  intros Hc Hc0 Hq Hdbs Hclk Hmeta Hdump Hlen. unfold dump_cache_to_path, dump_cache_to_writer in Hdump.
  destruct (mapM (dump_snapshots_to_writer _ _) _) as [bs|] eqn:Ebs; [|done]. destruct (dump_operation_queue_to_writer _ _) as [ops|] eqn:Eo; [|done].
  destruct (ser_meta _) as [mb|] eqn:Em; [|done]. specialize (Hmeta mb eq_refl). apply (inj Some) in Hdump.
  destruct (dumped_shards_encode (write_logic_clock c) (write_logic_clock c0) (heap c) (databases c) bs Ebs) as (ls & H1 & H2 & H3); [|done|].
  { apply Forall_lookup. intros i db Hi' k e a He. apply (inv_deadline c Hc i k). by exists db. }
  assert (length ls = length (databases c)) as Hls by (by rewrite <- (length_fmap contents ls), H3, length_fmap).
  destruct (load_file c0 bs ls (heap c) queue ops meta (write_logic_clock c) mb file) as (c' & Hl & Hc' & Hk & Ha); try done.
  - by rewrite Hls.
  - apply Hc.
  - by rewrite Hls.
  - exists c'. split_and!; [done..|]. rewrite Ha, H3, Hls. f_equal. unfold abs. rewrite <- list_fmap_compose.
    apply list_fmap_ext. intros i db _. cbn. symmetry. apply abs_db_advance. lia.
Qed.

End LoadCorrect.

(** What [build_snapshot] writes, [install_snapshot] reads. *)
Lemma built_snapshot_installs {LogId Membership} (B : Bincode (LogId := LogId) (Membership := Membership)) (Bok : BincodeOk B)
    (E : Env) (Eok : EnvOk E) `{OF : OrderedFloat} (M : MemEnv) sm sm' sm0 meta file :
  CacheInv (kvs sm) -> CacheInv (kvs sm0) -> incremental_operation_queue sm = [] ->
  (length (databases (kvs sm)) <= length (databases (kvs sm0)))%nat ->
  write_logic_clock (kvs sm0) <= write_logic_clock (kvs sm) ->
  (forall b, ser_meta (snapshot_meta (raft_meta_data sm), write_logic_clock (kvs sm)) = Some b -> (length b <= 296)%nat) ->
  build_snapshot sm = (sm', Ok (meta, file)) -> Z.of_nat (length file) < 2 ^ 64 ->
  exists sm1, install_snapshot sm0 (Some file) = Ret (sm1, Ok tt) /\
    CacheInv (kvs sm1) /\ write_logic_clock (kvs sm1) = write_logic_clock (kvs sm) /\
    abs (kvs sm1) = abs (kvs sm) ++ replicate (length (databases (kvs sm0)) - length (databases (kvs sm))) ∅ /\
    meta_view (raft_meta_data sm1) = meta_view (raft_meta_data sm).
Proof.
  intros Hc Hc0 Hq Hdbs Hclk Hmeta Hb Hlen. unfold build_snapshot in Hb. rewrite Hq in Hb.
  destruct (dump_cache_to_path _ _ []) as [f|] eqn:Ed; [|done]. injection Hb as _ Hb.
  assert (f = file) as ->. { destruct (load_meta_from_path f); [|done]. by injection Hb. }
  destruct (load_dump (kvs sm) (kvs sm0) _ [] file Hc Hc0 (Forall_nil_2 _) Hdbs Hclk Hmeta Ed Hlen) as (c' & Hl & Hc' & Hn & Ha).
  unfold install_snapshot. rewrite Hl. eexists. split_and!; [done..|]. by destruct (raft_meta_data sm).
Qed.

(** A snapshot carries the state to another replica. The snapshot a state
    machine builds while its queue of incremental operations is empty, and
    whose meta data fits the placeholder, is installed on any state machine with
    enough databases and a clock that is not ahead: afterwards that one has the
    same keys, values, versions and deadlines, the same clock, and the same last
    applied id and membership. Whatever it held before is gone. *)
Theorem snapshot_transfer {LogId Membership} (B : Bincode (LogId := LogId) (Membership := Membership)) (Bok : BincodeOk B)
    (E : Env) (Eok : EnvOk E) `{OF : OrderedFloat} (M : MemEnv) sm sm' sm0 meta file :
  CacheInv (kvs sm) -> CacheInv (kvs sm0) -> incremental_operation_queue sm = [] ->
  (length (databases (kvs sm)) <= length (databases (kvs sm0)))%nat ->
  write_logic_clock (kvs sm0) <= write_logic_clock (kvs sm) ->
  (forall b, ser_meta (snapshot_meta (raft_meta_data sm), write_logic_clock (kvs sm)) = Some b -> (length b <= 296)%nat) ->
  build_snapshot sm = (sm', Ok (meta, file)) -> Z.of_nat (length file) < 2 ^ 64 ->
  exists sm1, install_snapshot sm0 (Some file) = Ret (sm1, Ok tt) /\
    CacheInv (kvs sm1) /\ write_logic_clock (kvs sm1) = write_logic_clock (kvs sm) /\
    abs (kvs sm1) = abs (kvs sm) ++ replicate (length (databases (kvs sm0)) - length (databases (kvs sm))) ∅ /\
    meta_view (raft_meta_data sm1) = meta_view (raft_meta_data sm).
Proof. apply built_snapshot_installs; done. Qed.

(** Loading a snapshot file returns, with the state or with an error,
    whatever the bytes of the file are: the loops over the entries and over the
    queue end. *)
Theorem load_total {LogId Membership} (B : Bincode (LogId := LogId) (Membership := Membership)) c file :
  exists r, load_cache_from_path c file = Ret r.
Proof. apply load_returns. Qed.

(** ** A codec, and what goes wrong

    A small codec for strings, integers and INCR requests, with raw bytes as
    memberships. It serializes a value only when it reads it back. *)

Module Sample.

Definition enc_opt (o : option Z) : bytes := be 8 (default 0 o).
Definition dec_opt (b : bytes) : option Z := let z := from_be b in if z =? 0 then None else Some z.

Abbreviation flat_entry := (Z * option Z * (Z + bytes))%type.
Definition enc_entry (t : flat_entry) : bytes :=
  let '(ver, exp, d) := t in
  be 4 ver ++ enc_opt exp ++ match d with inl i => x00 :: be 8 (wrap_u64 i) | inr s => x01 :: s end.
Definition dec_entry (b : bytes) : option flat_entry :=
  let rest := drop 12 b in
  let* d := match rest with
            | x00 :: r => Some (inl (wrap_i64 (from_be r)))
            | x01 :: r => Some (inr r)
            | _ => None
            end in
  Some (from_be (take 4 b), dec_opt (take 8 (drop 4 b)), d).

Definition flatten (ps : EntrySnapshot PValue) : option flat_entry :=
  match pdata (value ps) with
  | PInt i => Some (pversion (value ps), expire_at ps, inl i)
  | PString s => Some (pversion (value ps), expire_at ps, inr s)
  | _ => None
  end.
Definition unflatten (t : flat_entry) : EntrySnapshot PValue :=
  let '(ver, exp, d) := t in
  mkEntrySnapshot (mkPValue ver match d with inl i => PInt i | inr s => PString s end) exp.

Abbreviation flat_meta := (option Z * option Z * option bytes * Z)%type.
Definition enc_meta (t : flat_meta) : bytes :=
  let '(id, mid, mem, clock) := t in
  enc_opt id ++ enc_opt mid ++ be 8 clock ++ match mem with None => [] | Some m => x01 :: m end.
Definition dec_meta (b : bytes) : option flat_meta :=
  Some (dec_opt (take 8 b), dec_opt (take 8 (drop 8 b)),
        match drop 24 b with [] => None | _ :: m => Some m end, from_be (take 8 (drop 16 b))).

Definition flatten_meta (m : SnapshotMeta (LogId := Z) (Membership := bytes) * Z) : flat_meta :=
  (meta_last_log_id m.1, sm_log_id (meta_last_membership m.1), sm_membership (meta_last_membership m.1), m.2).
Definition unflatten_meta (t : flat_meta) : SnapshotMeta (LogId := Z) (Membership := bytes) * Z :=
  let '(id, mid, mem, clock) := t in (mkSnapshotMeta id (mkStoredMembership mid mem), clock).

Definition enc_incr (t : Z * Z * bytes) : bytes := let '(ver, clock, k) := t in be 4 ver ++ be 8 clock ++ k.
Definition dec_incr (b : bytes) : Z * Z * bytes := (from_be (take 4 b), from_be (take 8 (drop 4 b)), drop 12 b).

(** [enc t] when it is read back. *)
Definition checked_enc {T} `{EqDecision T} (enc : T -> bytes) (dec : bytes -> option T) (t : T) : option bytes :=
  if decide (dec (enc t) = Some t) then Some (enc t) else None.

Lemma checked_enc_dec {T} `{EqDecision T} enc dec (t : T) b : checked_enc enc dec t = Some b -> dec b = Some t.
Proof. unfold checked_enc. case_decide; [|done]. by intros [= <-]. Qed.

Definition sample_codec : Bincode (LogId := Z) (Membership := bytes) := {|
  ser_key k := Some k;
  de_key b := Some b;
  ser_entry e := let* t := flatten e in checked_enc enc_entry dec_entry t;
  de_entry b := unflatten <$> dec_entry b;
  ser_request _ r :=
    match ar_request r with
    | Incr q => checked_enc enc_incr (fun b => Some (dec_incr b)) (ar_version r, ar_write_clock r, incr_key q)
    | _ => None
    end;
  de_request h b := let '(ver, clock, k) := dec_incr b in Some (h, mkAtomicRequest (Incr (mkIncrReq k)) ver clock);
  ser_meta m := checked_enc enc_meta dec_meta (flatten_meta m);
  de_meta b := unflatten_meta <$> dec_meta b;
  de_plain_meta b := fst ∘ unflatten_meta <$> dec_meta b
|}.

Lemma sample_codec_ok : BincodeOk sample_codec.
Proof.
  constructor; cbn [ser_key de_key ser_entry de_entry ser_request de_request ser_meta de_meta sample_codec].
  - congruence.
  - intros e b He. destruct (flatten e) as [t|] eqn:Et; [|done]. apply checked_enc_dec in He. rewrite He. cbn.
    destruct e as [[ver d] exp]. unfold flatten in Et. cbn in Et. destruct d; by simplify_eq.
  - intros h h' r b _ Hr. destruct r as [req ver clk]. cbn in Hr. destruct req; try done. apply checked_enc_dec in Hr.
    injection Hr as ? ? ?. destruct r. cbn in *. congruence.
  - intros h r b Hr. destruct (ar_request r); try done. unfold checked_enc in Hr. case_decide; [|done]. by injection Hr as <-.
  - intros [[id [mid mem]] clk] b Hm. apply checked_enc_dec in Hm. rewrite Hm. done.
Qed.

Abbreviation machine := (StateMachineData (LogId := Z) (Membership := bytes)).
#[export] Existing Instances first_env no_mem no_lua sample_codec.

Definition entry_of (i : Z) (op : BaseOperation) : LogEntry (LogId := Z) (Membership := bytes) :=
  mkLogEntry i (Normal (request_new i 0 (Base op))).
Definition incr_k : BaseOperation := Incr (mkIncrReq (str "k")).
Definition set_k (s : bytes) : BaseOperation := Set_op (mkSetReq (str "k") s 0).

(** The machine after [evs]. *)
Definition after (evs : list (event (LogId := Z) (Membership := bytes))) : machine :=
  match run_events (state_machine_new 1) evs with Ret sm => sm | _ => state_machine_new 1 end.

(** The value of the key [k] of database 0. *)
Definition value_of (c : MyCache) : option PData :=
  let* m := abs c !! 0%nat in let* e := m !! str "k" in Some (pdata (e_value e)).

(** Build a snapshot on one machine and install it on an empty one. *)
Definition transfer (sm : machine) : option machine :=
  match (build_snapshot sm).2 with
  | Ok (_, file) => match install_snapshot (state_machine_new 1) (Some file) with Ret (sm1, Ok _) => Some sm1 | _ => None end
  | Err _ => None
  end.
End Sample.

Import Sample.

Definition sample_evs : list (event (LogId := Z) (Membership := bytes)) :=
  [EvApply [entry_of 1 incr_k; entry_of 2 (set_k (str "v")); entry_of 3 (Expire (mkExpireReq (str "k") 5 None))]].

Lemma sample_after_inv evs : Forall (event_ok (fun _ => False)) evs -> CacheInv (kvs (after evs)).
Proof.
  intros Hok. destruct (run_events_refines (E := first_env) (EnvOk0 := first_env_ok) (ME := no_mem) (SS := no_scripts no_lua) evs (state_machine_new 1)) as (sm & Hr & Hc & _);
    [apply cache_new_inv|done|]. unfold after. by rewrite Hr.
Qed.

Lemma sample_evs_ok : Forall (event_ok (fun _ => False)) sample_evs.
Proof.
  unfold sample_evs. rewrite !Forall_cons. split; [|by apply Forall_nil]. cbn [event_ok]. rewrite !Forall_cons.
  split_and!; [..|by apply Forall_nil]; cbn; unfold is_u64; try done; split; try done; lia.
Qed.

Lemma snapshot_transfer_witness : exists sm1, install_snapshot (state_machine_new 2)
    (match (build_snapshot (after sample_evs)).2 with Ok (_, file) => Some file | Err _ => None end) = Ret (sm1, Ok tt) /\
  abs (kvs sm1) = abs (kvs (after sample_evs)) ++ [∅].
Proof.
  destruct (build_snapshot (after sample_evs)) as [sm' [[meta file]|e]] eqn:Eb; [|exfalso; vm_compute in Eb; discriminate Eb].
  destruct (snapshot_transfer sample_codec sample_codec_ok first_env first_env_ok no_mem (after sample_evs) sm' (state_machine_new 2) meta file)
    as (sm1 & H1 & _ & _ & H2 & _).
  - apply sample_after_inv, sample_evs_ok.
  - apply cache_new_inv.
  - vm_compute. reflexivity.
  - apply Nat.leb_le. vm_compute. reflexivity.
  - apply Z.leb_le. vm_compute. reflexivity.
  - intros b Hb. apply Nat.leb_le. vm_compute in Hb. injection Hb as <-. vm_compute. reflexivity.
  - exact Eb.
  - apply Z.ltb_lt. replace file with (match (build_snapshot (after sample_evs)).2 with Ok (_, f) => f | Err _ => [] end) by (by rewrite Eb).
    vm_compute. reflexivity.
  - exists sm1. split; [exact H1|]. exact H2.
Defined.


(** A membership that makes the meta longer than 296 bytes is written over the
    dump, which then cannot be read. *)
Definition long_membership : list (event (LogId := Z) (Membership := bytes)) :=
  [EvApply [entry_of 1 incr_k; mkLogEntry 2 (MembershipChange (replicate 300 x41))]].

(** A membership of a few nodes makes a snapshot unreadable. The meta data
    of 325 bytes does not fit the 300 bytes kept for it and overwrites the
    number of databases; the build reports success and the installation fails,
    with the old contents of the machine gone. *)
Theorem long_meta_unreadable :
  value_of (kvs (after sample_evs)) = Some (PString (str "v")) /\
  match (build_snapshot (after long_membership)).2 with
  | Ok (_, file) =>
      match install_snapshot (after sample_evs) (Some file) with
      | Ret (sm1, r) => value_of (kvs sm1) = None /\ r = Err InvalidData
      | _ => False
      end
  | Err _ => False
  end.
Proof. split; [vm_compute; reflexivity|]. vm_compute. split; reflexivity. Qed.
