(* ===== verification/Replay.v ===== *)
(** * Replay: what replaying the queue of a snapshot leaves alone.

    [install_snapshot] of src/cache_cat/src/raft/store/statemachine.rs runs the
    queued requests through [base_request] with [UpdateType::CAS]. Handler
    verifies the operations in the other two modes; here is what holds of them
    in this one: a replayed request keeps the invariant of the cache, and
    changes no key but the one it writes. *)

From S2P Require Import Prelude Text F64 Reply SortedSet TimeWheel Mocha Ops Store Refine Spop ListCmd StringCmd KeyCmd HashCmd SetCmd ZSetCmd BitmapCmd HllCmd Memory Handler Answers Typed StateMachine.
From Stdlib Require Import Strings.Byte.

(** The entry of key [k] of database [i]. *)
Definition entry_of_key (s : PStore) (i : nat) (k : bytes) : option (Entry PValue) := let* m := s !! i in m !! k.

(** [c'] is like [c] but for what [touched] holds of. *)
Definition leaves (touched : nat -> bytes -> Prop) (c c' : MyCache) : Prop :=
  CacheInv c' /\ write_logic_clock c' = write_logic_clock c /\
  forall i k, ~ touched i k -> entry_of_key (abs c') i k = entry_of_key (abs c) i k.

Definition only (n : Z) (k : bytes) (i : nat) (k' : bytes) : Prop := i = Z.to_nat n /\ k' = k.

Lemma leaves_refl touched c c' : CacheInv c' -> write_logic_clock c' = write_logic_clock c -> abs c' = abs c -> leaves touched c c'.
Proof. intros ? ? Ha. split_and!; [done..|]. intros i k _. by rewrite Ha. Qed.

(** Changing one key of one database. *)
Lemma leaves_key c c' n k m m' : CacheInv c' -> write_logic_clock c' = write_logic_clock c -> abs c !! Z.to_nat n = Some m ->
  abs c' = <[Z.to_nat n := m']> (abs c) -> (forall k', k' <> k -> m' !! k' = m !! k') -> leaves (only n k) c c'.
Proof.
  intros Hc Hk Hn Ha Hm. split_and!; [done..|]. intros i k' Hne. unfold entry_of_key, only in *. rewrite Ha.
  destruct (decide (i = Z.to_nat n)) as [->|Hi]; [|by rewrite list_lookup_insert_ne].
  rewrite list_lookup_insert_eq, Hn by (by eapply lookup_lt_Some). cbn. apply Hm. naive_solver.
Qed.

Lemma papply_ne now k op m k' : k' <> k -> papply now k op m !! k' = m !! k'.
Proof.
  intros Hne. destruct op; cbn [papply]; [|by rewrite lookup_delete_ne|done].
  unfold put. case_match; [by rewrite lookup_delete_ne|by rewrite lookup_insert_ne].
Qed.

(** The version of what is written plays no part in the invariant. *)
Definition pbump (op : MochaOperation PValue) : MochaOperation PValue :=
  match op with
  | MInsert v e => MInsert (mkPValue (wrap_u32 (pversion v + 1)) (pdata v)) e
  | op => op
  end.

Lemma op_rel_bump own h h' op pop : op_rel own h h' op pop -> op_rel own h h' (bump_version op) (pbump pop).
Proof.
  destruct op as [v p| |], pop as [pv p'| |]; try done. cbn. intros (<- & Hp & Hv & Hf). split_and!; try done.
  revert Hv. unfold abs_value. cbn. destruct (abs_data h' (data v)); [|done]. by intros [= <-].
Qed.

Lemma bump_abort op : bump_version op = MAbort -> op = MAbort.
Proof. by destruct op. Qed.

Section Replay.
Context (c : MyCache) (u : Update) (ver : Z).
Hypothesis Hc : CacheInv c.
Hypothesis Hwc : is_u64 (write_clock u).
Hypothesis Hcas : update_type u = CAS ver.
Let now := write_logic_clock c.
Let n := db_number u.

Lemma replay_compute {C} `{ComputeLaws C} (cmd : C) : cmd_ok cmd -> leaves (only n (key cmd)) c (execute_compute c cmd u).1.1.
Proof.
  intros Hcmd. unfold execute_compute. fold n. destruct (get_db c n) as [db|] eqn:Hdb; [|by apply leaves_refl].
  fold now. pose proof (get_entry_spec now db (key cmd) (inv_mocha c Hc _ _ Hdb)) as Hg.
  destruct (get_entry now db (key cmd)) as [db1 r0]. destruct Hg as (-> & Hlive & Hm1).
  destruct (live now (map_ db) !! key cmd) as [e|] eqn:Ee; cbn [fmap option_fmap option_map].
  - rewrite Hcas. destruct (touch_db c n db db1 Hc Hdb Hm1 Hlive) as [Ht1 Ht2]. case_match; [|by apply leaves_refl].
    destruct (live_abs c _ db _ _ Hc Hdb Ee) as (pv & Hpv & _).
    assert (Hat : entry_at c (Z.to_nat n) (key cmd) e) by (by exists db).
    pose proof (mutate_refines cmd (snapshot e) pv (write_clock u) (heap c) (inv_heap c Hc) Hcmd Hwc
      (fun a Ha => inv_deadline c Hc _ _ _ _ Hat Ha) Hpv) as Hmut. cbv zeta in Hmut.
    destruct (mutate cmd (snapshot e) (write_clock u) (heap c)) as [h' [op r]].
    destruct (pmutate cmd _ (write_clock u)) as [pop pr]. destruct Hmut as (_ & Hfr & Hop & Hab). cbn [fst].
    destruct (change_key c n db db1 h' (key cmd) _ (bump_version op) (pbump pop) Hc Hdb Hm1 Hlive
      (owner_self c _ db _ e Hdb Ee) Hfr (op_rel_bump _ _ _ _ _ Hop)) as [Hinv Ha].
    { intros Eop%bump_abort e' Ee'. fold now in Ee'. rewrite Ee in Ee'. injection Ee' as <-. specialize (Hab Eop).
      cbn [snapshot value] in Hab. unfold abs_entry. by rewrite Hab, Hpv. }
    eapply leaves_key; [exact Hinv|done|by apply get_db_abs|exact Ha|]. intros. by apply papply_ne.
  - pose proof (init_refines cmd (heap c) (inv_heap c Hc) Hcmd) as Hin.
    destruct (init cmd (heap c)) as [h' [op r]]. destruct (pinit cmd) as [pop pr]. destruct Hin as (_ & Hfr & Hop).
    destruct (change_key c n db db1 h' (key cmd) None op pop Hc Hdb Hm1 Hlive
      (owner_none _ _ _) Hfr Hop) as [Hinv Ha]; [intros _ e' Ee'; fold now in Ee'; congruence|].
    assert (leaves (only n (key cmd)) c (put_db c n (apply_changed now db1 (key cmd) op) h')).
    { eapply leaves_key; [exact Hinv|done|by apply get_db_abs|exact Ha|]. intros. by apply papply_ne. }
    by destruct op.
Qed.

Lemma replay_multi {C} `{MultiLaws C} (cmd : C) : leaves (only n (write_key cmd)) c (execute_multi_read_compute c cmd u).1.1.
Proof.
  unfold execute_multi_read_compute. fold n. destruct (get_db c n) as [db|] eqn:Hdb; [|by apply leaves_refl].
  fold now. rewrite Hcas. pose proof (get_entries_spec now db (read_keys cmd) (inv_mocha c Hc _ _ Hdb)) as Hg.
  destruct (get_entries now db (read_keys cmd)) as [db1 rs]. destruct Hg as (-> & Hl1 & Hm1).
  pose proof (get_entry_spec now db1 (write_key cmd) Hm1) as Hg.
  destruct (get_entry now db1 (write_key cmd)) as [db2 r0]. destruct Hg as (-> & Hl2 & Hm2). rewrite Hl1 in *.
  destruct (touch_db c n db db2 Hc Hdb Hm2 Hl2) as [Ht1 Ht2].
  destruct (live now (map_ db) !! write_key cmd) as [e0|] eqn:Ee0; cbn [fmap option_fmap option_map]; [|by apply leaves_refl].
  case_match; [|by apply leaves_refl].
  assert (Hrs : Forall2 (abs_read (heap c)) ((fun k => snapshot <$> live now (map_ db) !! k) <$> read_keys cmd)
    ((fun k => snapshot <$> abs_db now (heap c) db !! k) <$> read_keys cmd)).
  { apply Forall2_fmap_2, Forall_Forall2_diag, Forall_forall. intros k _. by eapply abs_read_live. }
  pose proof (multi_mutate_refines cmd _ _ (write_clock u) (heap c) (inv_heap c Hc) Hwc Hrs) as Hmut.
  destruct (multi_mutate cmd _ (write_clock u) (heap c)) as [h' [op r]].
  destruct (pmulti_mutate cmd _ (write_clock u)) as [pop pr]. destruct Hmut as (_ & Hfr & Hop). cbn [fst].
  destruct (change_key c n db db2 h' (write_key cmd) None (bump_version op) (pbump pop) Hc Hdb Hm2 Hl2
    (owner_none _ _ _) Hfr (op_rel_bump _ _ _ _ _ Hop)) as [Hinv Ha].
  { intros _ e Ee. assert (Hat : entry_at c (Z.to_nat n) (write_key cmd) e) by (by exists db).
    destruct (inv_bound c Hc _ _ _ Hat) as [d Hd]. unfold abs_entry, abs_value.
    rewrite Hd, (proj2 (proj2 Hfr) _ _ Hd); [done|]. destruct (value_loc _); auto. }
  eapply leaves_key; [exact Hinv|done|by apply get_db_abs|exact Ha|]. intros. by apply papply_ne.
Qed.

(** DEL and UNLINK: the key is removed or kept. *)
Lemma replay_remove db k : get_db c n = Some db ->
  (let '(db0, r) := get now db k in
   leaves (only n k) c (put_db c n db0 (heap c)) /\ leaves (only n k) c (put_db c n (remove now db0 k).1 (heap c))).
Proof.
  intros Hdb. pose proof (get_spec now db k (inv_mocha c Hc _ _ Hdb)) as Hg. destruct (get now db k) as [db0 r].
  destruct Hg as [Hm0 Hl0]. destruct (touch_db c n db db0 Hc Hdb Hm0 Hl0). split; [by apply leaves_refl|].
  pose proof (remove_spec now db0 k Hm0) as Hr. destruct (remove now db0 k) as [db1 r1]. destruct Hr as (Hm1 & Hl1 & _).
  rewrite Hl0 in Hl1. destruct (delete_key c n db db1 k Hc Hdb Hm1 Hl1) as [Hinv Ha].
  eapply leaves_key; [exact Hinv|done|by apply get_db_abs|exact Ha|]. intros. by rewrite lookup_delete_ne.
Qed.

Lemma replay_del req : leaves (only n (del_key req)) c (del c req u).1.1.
Proof.
  unfold del, get_cache. fold n. destruct (get_db c n) as [db|] eqn:Hdb; [|by apply leaves_refl]. cbn [ok_or]. rewrite Hcas.
  pose proof (replay_remove db (del_key req) Hdb) as Hr. fold now. destruct (get now db (del_key req)) as [db0 [v|]]; [|apply Hr].
  case_match; apply Hr.
Qed.

Lemma replay_unlink req : leaves (only n (unlink_key req)) c (unlink_method c req u).1.1.
Proof.
  unfold unlink_method, get_cache. fold n. destruct (get_db c n) as [db|] eqn:Hdb; [|by apply leaves_refl]. cbn [ok_or]. rewrite Hcas.
  pose proof (replay_remove db (unlink_key req) Hdb) as Hr. fold now. destruct (get now db (unlink_key req)) as [db0 [v|]]; [|apply Hr].
  case_match; apply Hr.
Qed.

Lemma replay_flush_db req : leaves (fun i _ => i = Z.to_nat n) c (flush_db c req u).1.1.
Proof.
  pose proof (flush_db_refines c (with_type u UNone) Hc I req) as Hr. unfold flush_db in *. cbn [with_type db_number] in Hr. fold n in Hr |- *.
  destruct (get_cache c n); [|by apply leaves_refl]. destruct Hr as (Hinv & Ha & _ & Hk & _). cbn [fst].
  split_and!; [done..|]. intros i k Hi. unfold entry_of_key. rewrite Ha. unfold spec_flush_db.
  destruct (abs c !! _); [|done]. cbn [fst]. by rewrite list_lookup_insert_ne by congruence.
Qed.

Lemma replay_flush_all req : leaves (fun _ _ => True) c (flush_all c req u).1.1.
Proof.
  destruct (flush_all_refines c (with_type u UNone) Hc I req) as (Hinv & _ & _ & Hk & _). cbn [fst]. split_and!; [exact Hinv|exact Hk|done].
Qed.
End Replay.

(** RENAME queues the value it moves; here one without a collection. *)
#[global] Instance insert_pure : PureCommand InsertReq := {
  pmutate cmd e _ := (MInsert (mkPValue (wrap_u32 (pversion (value e) + 1)) (default (PInt 0) (abs_data heap_empty (ins_value cmd)))) (ins_expire cmd), value_ok);
  pinit cmd := (MInsert (mkPValue 1 (default (PInt 0) (abs_data heap_empty (ins_value cmd)))) (ins_expire cmd), value_ok)
}.

Lemma abs_plain h v : value_loc v = None -> abs_data h v = Some (default (PInt 0) (abs_data heap_empty v)).
Proof. by destruct v. Qed.

#[global] Program Instance insert_laws : ComputeLaws InsertReq := {
  cmd_ok cmd := value_loc (ins_value cmd) = None /\ is_u64 (ins_expires_at cmd)
}.
Next Obligation.
  cbn. intros cmd e pv wc h Hh [Hv Hex] _ _ Hpv. destruct (value_shape _ _ _ Hpv) as [Hver _]. rewrite Hver.
  split_and!; [done|by apply frame_refl|done| | | |done].
  - unfold ins_expire. by case_match.
  - unfold abs_value. cbn. by rewrite abs_plain.
  - unfold fresh_or. by rewrite Hv.
Qed.
Next Obligation.
  cbn. intros cmd h Hh [Hv Hex]. split_and!; [done|by apply frame_refl|done| | |].
  - unfold ins_expire. by case_match.
  - unfold abs_value. cbn. by rewrite abs_plain.
  - unfold fresh_or. by rewrite Hv.
Qed.

(** The key a request of one key writes. *)
Definition base_key (op : BaseOperation) : option bytes :=
  match op with
  | Ops.Empty | FlushDB _ | FlushAll _ => None
  | Set_op p => Some (key p) | Expire p => Some (key p) | PExpire p => Some (key p) | LPush p => Some (key p)
  | Del p => Some (del_key p) | Incr p => Some (key p) | IncrBy p => Some (key p) | Append p => Some (key p)
  | HSet p => Some (key p) | HIncr p => Some (key p) | ZAdd p => Some (key p) | SAdd p => Some (key p)
  | Persist p => Some (key p) | Insert p => Some (key p) | HDel p => Some (key p) | SRem p => Some (key p)
  | SetBit p => Some (key p) | LPop p => Some (key p) | RPush p => Some (key p) | RPop p => Some (key p)
  | LRem p => Some (key p) | LSet p => Some (key p) | DecrBy p => Some (key p) | HSetNx p => Some (key p)
  | Decr p => Some (key p) | ZRem p => Some (key p) | LTrim p => Some (key p) | BitField p => Some (key p)
  | SPop p => Some (spop_key p) | ZPopMin p => Some (key p) | Unlink p => Some (unlink_key p) | ZIncrBy p => Some (key p)
  | HMSet p => Some (key p) | PfAdd p => Some (key p) | SInterStore p => Some (write_key p)
  end.

(** What a request changes when it runs on database [n]. *)
Definition touches (n : Z) (op : BaseOperation) (i : nat) (k : bytes) : Prop :=
  match op with
  | FlushAll _ => True
  | FlushDB _ => i = Z.to_nat n
  | op => i = Z.to_nat n /\ base_key op = Some k
  end.

(** A request the queue of a snapshot may hold. *)
Definition replays (op : BaseOperation) : Prop :=
  match op with
  | Insert p => value_loc (ins_value p) = None /\ is_u64 (ins_expires_at p)
  | op => base_ok op
  end.
Definition queue_ok (r : AtomicRequest) : Prop := is_u64 (ar_write_clock r) /\ replays (ar_request r).

Lemma leaves_weaken (P Q : nat -> bytes -> Prop) c c' : (forall i k, P i k -> Q i k) -> leaves P c c' -> leaves Q c c'.
Proof. intros HPQ (? & ? & H). split_and!; [done..|]. intros i k Hq. apply H. auto. Qed.

Section ReplayQueue.
Context `{E : Env} `{!EnvOk E} `{OF : OrderedFloat} `{ME : MemEnv}.

Lemma replay_base c u ver op : CacheInv c -> is_u64 (write_clock u) -> update_type u = CAS ver -> replays op ->
  leaves (touches (db_number u) op) c (base_request c op u).1.1.
Proof.
  intros Hc Hwc Hcas Hop. assert (forall k c', base_key op = Some k -> leaves (only (db_number u) k) c c' -> leaves (touches (db_number u) op) c c') as Hone.
  { intros k c' Hk. apply leaves_weaken. intros i k' [-> ->]. by destruct op. }
  destruct op; cbn [base_request base_ok replays] in *;
    try (eapply Hone; [reflexivity|]; by eapply replay_compute).
  - destruct (expire_all_refines c u Hc) as (? & ? & _ & ? & _). by apply leaves_refl.
  - eapply Hone; [reflexivity|]. by eapply replay_del.
  - by apply replay_flush_db.
  - by apply replay_flush_all.
  - eapply Hone; [reflexivity|]. by eapply replay_unlink.
  - eapply Hone; [reflexivity|]. exact (replay_multi c u ver Hc Hwc Hcas r).
Qed.

Lemma replay_leaves queue : forall c, CacheInv c -> Forall queue_ok queue ->
  leaves (fun i k => exists r, r ∈ queue /\ touches 0 (ar_request r) i k) c (replay c queue).
Proof.
  induction queue as [|r queue IH]; intros c Hc Hq; [by apply leaves_refl|]. inversion_clear Hq as [|? ? [Hw Hr] Hqs].
  destruct (replay_base c (mkUpdate 0 (ar_write_clock r) (CAS (ar_version r))) (ar_version r) (ar_request r) Hc Hw eq_refl Hr) as (Hc1 & Hk1 & Ha1).
  destruct (IH _ Hc1 Hqs) as (Hc2 & Hk2 & Ha2). split_and!; [exact Hc2|by etransitivity|]. intros i k Hn.
  etransitivity; [apply Ha2|apply Ha1].
  - intros (r' & Hin & Ht). apply Hn. exists r'. split; [by right|done].
  - intros Ht. apply Hn. exists r. split; [by left|done].
Qed.
End ReplayQueue.
