(* ===== verification/Dumping.v ===== *)
(** * Dumping: a snapshot that is written while the log is applied.

    Models how [build_snapshot] of
    src/cache_cat/src/raft/store/statemachine.rs and [dump_cache_to_path] of
    src/cache_cat/src/raft/store/snapshot/snapshot_handler.rs interleave with
    [apply], the reads and the expire workers, down to the single entry that
    [dump_snapshots_to_writer] of src/cache_cat/src/mocha/mod.rs visits, and
    what [install_snapshot] makes of such a file. Snapshot has the dump of a
    machine at rest.

    The map is iterated while it changes. The iterator of the papaya crate
    promises that it yields an entry at most once, and every entry that stays
    in the map from its creation to its end: [owed] are the keys of which the
    second still holds, and an iteration ends only when nothing is owed. A
    visited entry is read and serialized in one step. *)

From S2P Require Import Prelude Text F64 Reply SortedSet TimeWheel Mocha Ops Store Refine Spop ListCmd StringCmd KeyCmd HashCmd SetCmd ZSetCmd BitmapCmd HllCmd Memory Handler Answers Typed StateMachine Snapshot Replay.
From Stdlib Require Import Strings.Byte.

(** ** The dump as a thread of its own *)

Section Dump.
Context {LogId Membership : Type}.
Context `{B : Bincode (LogId := LogId) (Membership := Membership)} `{E : Env} `{OF : OrderedFloat} `{ME : MemEnv} `{LE : LuaEnv}.
Abbreviation StateMachineData := (StateMachineData (LogId := LogId) (Membership := Membership)).
Abbreviation event := (event (LogId := LogId) (Membership := Membership)).

(** Where the dump is: before database [i]; among its entries, with the clock
    read at its start, the keys still owed, the keys visited and the entries
    written; past the queue; past the meta data; done. *)
Inductive Stage :=
| AtShard (i : nat) (body : bytes)
| InShard (i : nat) (now : Z) (owed seen : list bytes) (es : list bytes) (body : bytes)
| QueueWritten (body : bytes)
| MetaTaken (file : bytes)
| Dumped (file : bytes)
| DumpFailed.

(** [d_count] is the number of databases, which is fixed. *)
Record Dump := mkDump { d_sm : StateMachineData; d_count : nat; d_stage : Stage }.

(** A step of the machine, in which the keys [gone] left the map of the
    database being visited if only for a moment, or one of the dump. *)
Inductive Act :=
| Machine (ev : event) (gone : list bytes)
| BeginShard
| Visit (k : bytes)
| EndShard
| WriteQueue
| TakeMeta
| Rename.

(** [build_snapshot] up to the first database. *)
Definition dump_start (sm : StateMachineData) : Dump :=
  mkDump (set_snapshot_state sm Start) (length (databases (kvs sm))) (AtShard 0 (write_u64 (Z.of_nat (length (databases (kvs sm)))))).

Definition db_keys (sm : StateMachineData) (i : nat) : list bytes :=
  match databases (kvs sm) !! i with
  | Some db => (db_iter (map_ db)).*1
  | None => []
  end.

(** The iterator promises nothing on keys that have left the map. *)
Definition still_owed (sm : StateMachineData) (gone : list bytes) (st : Stage) : Stage :=
  match st with
  | InShard i now owed seen es body => InShard i now (filter (fun k => k ∈ db_keys sm i /\ k ∉ gone) owed) seen es body
  | st => st
  end.

(** Only the dump itself moves the snapshot state. *)
Definition is_snapshot_event (ev : event) : bool := match ev with EvSnapshot _ => true | _ => false end.

(** One turn of the loop over the entries. *)
Definition visit (sm : StateMachineData) (i : nat) (now : Z) (owed seen : list bytes) (es : list bytes) (body : bytes) (k : bytes) : option Stage :=
  if bool_decide (k ∈ seen) then None else
  let* db := databases (kvs sm) !! i in
  let* e := map_ db !! k in
  let owed' := filter (fun k' => k' <> k) owed in
  if is_expired now e then Some (InShard i now owed' (k :: seen) es body)
  else
    Some match dump_entry (heap (kvs sm)) (k, e) with
         | Some b => InShard i now owed' (k :: seen) (es ++ [b]) body
         | None => DumpFailed
         end.

(** The file, once the place kept for the meta data is filled. *)
Definition with_meta (mb body : bytes) : bytes :=
  overwrite 5 (write_u32 (wrap_u32 (Z.of_nat (length mb))) ++ mb)
    (CACHE_MAGIC_NUM ++ [VERSION] ++ replicate (Z.to_nat PLACEHOLDER_LENGTH) x00 ++ body).

(** The next state; [None] when the step cannot be taken now. *)
Definition dump_step (d : Dump) (a : Act) : outcome (option Dump) :=
  let sm := d_sm d in
  let count := d_count d in
  match a, d_stage d with
  | Machine ev gone, st =>
      if is_snapshot_event ev then Ret None
      else
        match run_event sm ev with
        | Ret sm' => Ret (Some (mkDump sm' count (still_owed sm' gone st)))
        | Panic => Panic
        | OutOfFuel => OutOfFuel
        end
  | BeginShard, AtShard i body =>
      Ret (if (i <? count)%nat
           then Some (mkDump sm count (InShard i (write_logic_clock (kvs sm)) (db_keys sm i) [] [] body))
           else None)
  | Visit k, InShard i now owed seen es body => Ret (mkDump sm count <$> visit sm i now owed seen es body k)
  | EndShard, InShard i now owed seen es body =>
      Ret (match owed with
           | [] => Some (mkDump sm count (AtShard (S i) (body ++ write_u64 (Z.of_nat (length es)) ++ concat es)))
           | _ => None
           end)
  | WriteQueue, AtShard i body =>
      Ret (if (i <? count)%nat then None
           else Some (mkDump sm count match dump_operation_queue_to_writer (heap (kvs sm)) (incremental_operation_queue sm) with
                                | Some ops => QueueWritten (body ++ ops)
                                | None => DumpFailed
                                end))
  | TakeMeta, QueueWritten body =>
      Ret (Some (mkDump (set_snapshot_state sm Tail) count
                   match ser_meta (snapshot_meta (raft_meta_data sm), write_logic_clock (kvs sm)) with
                   | Some mb => MetaTaken (with_meta mb body)
                   | None => DumpFailed
                   end))
  | Rename, MetaTaken file => Ret (Some (mkDump (set_snapshot_state sm End_) count (Dumped file)))
  | _, _ => Ret None
  end.

Fixpoint dump_run (d : Dump) (acts : list Act) : outcome (option Dump) :=
  match acts with
  | [] => Ret (Some d)
  | a :: acts' =>
      match dump_step d a with
      | Ret (Some d') => dump_run d' acts'
      | r => r
      end
  end.

Lemma dump_run_app acts acts' : forall d d', dump_run d acts = Ret (Some d') -> dump_run d (acts ++ acts') = dump_run d' acts'.
Proof.
  induction acts as [|a acts IH]; intros d d'; [by intros [= ->]|]. cbn. destruct (dump_step d a) as [[d1|]| |]; [|done..]. apply IH.
Qed.

(** *** Alone, the dump writes what [dump_cache_to_path] writes *)

Definition shard_acts (db : Mocha MyValue) : list Act := BeginShard :: (Visit <$> (db_iter (map_ db)).*1) ++ [EndShard].
Definition alone (c : MyCache) : list Act := concat (shard_acts <$> databases c) ++ [WriteQueue; TakeMeta; Rename].

Lemma filter_ne_head (k : bytes) ks : k ∉ ks -> filter (fun k' => k' <> k) (k :: ks) = ks.
Proof.
  intros Hk. rewrite filter_cons_False by naive_solver. induction ks as [|k' ks IH]; [done|].
  apply not_elem_of_cons in Hk as [? ?]. rewrite filter_cons_True by done. by rewrite IH.
Qed.

Lemma visits_alone sm n i db now body l : databases (kvs sm) !! i = Some db -> (forall ke, ke ∈ l -> map_ db !! ke.1 = Some ke.2) ->
  NoDup l.*1 -> forall seen es bs, (forall k, k ∈ l.*1 -> k ∉ seen) ->
  mapM (dump_entry (heap (kvs sm))) (filter (fun ke => is_expired now ke.2 = false) l) = Some bs ->
  dump_run (mkDump sm n (InShard i now l.*1 seen es body)) (Visit <$> l.*1) =
    Ret (Some (mkDump sm n (InShard i now [] (reverse l.*1 ++ seen) (es ++ bs) body))).
Proof.
  intros Hi. induction l as [|[k e] l IH]; intros Hl Hnd seen es bs Hseen Hm.
  - injection Hm as <-. by rewrite app_nil_r.
  - cbn [fmap list_fmap fst] in *. inversion_clear Hnd as [|? ? Hk Hnd']. cbn [dump_run dump_step d_sm d_count d_stage]. unfold visit.
    rewrite bool_decide_eq_false_2, Hi by (apply Hseen; left). cbn [mbind option_bind].
    rewrite (Hl (k, e) ltac:(by left) : map_ db !! k = Some e). cbn [mbind option_bind]. rewrite filter_ne_head, reverse_cons, <- app_assoc by done. cbn [app].
    assert (forall k', k' ∈ l.*1 -> k' ∉ k :: seen) as Hseen'.
    { intros k' Hin [->|Hs]%elem_of_cons; [done|]. apply (Hseen k'); [by right|done]. }
    assert (forall ke, ke ∈ l -> map_ db !! ke.1 = Some ke.2) as Hl' by (intros; apply Hl; by right).
    destruct (is_expired now e) eqn:Ex.
    + rewrite filter_cons_False in Hm by (cbn; congruence). cbn [fmap option_fmap option_map]. by apply IH.
    + rewrite filter_cons_True in Hm by done. cbn in Hm. destruct (dump_entry _ (k, e)) as [b|]; [|done]. cbn in Hm.
      destruct (mapM _ _) as [bs'|] eqn:Ebs; [|done]. injection Hm as <-. cbn [fmap option_fmap option_map].
      replace (es ++ b :: bs') with ((es ++ [b]) ++ bs') by (by rewrite <- app_assoc). by apply IH.
Qed.

Lemma shards_alone `{!EnvOk E} sm n : forall dbs pre bs body, databases (kvs sm) = pre ++ dbs -> n = length (databases (kvs sm)) ->
  mapM (dump_snapshots_to_writer (write_logic_clock (kvs sm)) (heap (kvs sm))) dbs = Some bs ->
  dump_run (mkDump sm n (AtShard (length pre) body)) (concat (shard_acts <$> dbs)) = Ret (Some (mkDump sm n (AtShard n (body ++ concat bs)))).
Proof.
  induction dbs as [|db dbs IH]; intros pre bs body Hdbs Hn Hm.
  - injection Hm as <-. rewrite Hdbs, app_nil_r in Hn. cbn. by rewrite app_nil_r, Hn.
  - cbn in Hm. destruct (dump_snapshots_to_writer _ _ db) as [b|] eqn:Eb; [|done]. cbn in Hm.
    destruct (mapM (dump_snapshots_to_writer _ _) dbs) as [bs'|] eqn:Ebs; [|done]. injection Hm as <-.
    unfold dump_snapshots_to_writer in Eb. destruct (mapM (dump_entry _) _) as [es|] eqn:Ees; [|done]. apply (inj Some) in Eb as <-.
    assert (databases (kvs sm) !! length pre = Some db) as Hi by (by rewrite Hdbs, list_lookup_middle).
    cbn [fmap list_fmap concat]. rewrite (dump_run_app _ _ _ (mkDump sm n (AtShard (S (length pre)) (body ++ write_u64 (Z.of_nat (length es)) ++ concat es)))).
    2: { unfold shard_acts. cbn [dump_run dump_step d_sm d_count d_stage]. rewrite (proj2 (Nat.ltb_lt _ _)) by (subst n; by eapply lookup_lt_Some).
         unfold db_keys. rewrite Hi. erewrite dump_run_app; cycle 1.
         - eapply visits_alone; [exact Hi| | | |exact Ees].
           + intros [k e]. rewrite db_iter_perm. by intros ?%elem_of_map_to_list.
           + rewrite db_iter_perm. apply NoDup_fst_map_to_list.
           + intros k _. apply not_elem_of_nil.
         - done. }
    replace (S (length pre)) with (length (pre ++ [db])) by (rewrite length_app; cbn; lia).
    rewrite (IH _ bs' _); [cbn [concat]; by rewrite <- !app_assoc|by rewrite Hdbs, <- app_assoc|done|done].
Qed.

Lemma dump_alone `{!EnvOk E} sm file :
  dump_cache_to_path (kvs sm) (snapshot_meta (raft_meta_data sm)) (incremental_operation_queue sm) = Some file ->
  dump_run (dump_start sm) (alone (kvs sm)) =
    Ret (Some (mkDump (build_snapshot sm).1 (length (databases (kvs sm))) (Dumped file))).
Proof.
  intros Hd. unfold build_snapshot. rewrite Hd. unfold dump_cache_to_path, dump_cache_to_writer in Hd.
  destruct (mapM (dump_snapshots_to_writer _ _) _) as [bs|] eqn:Ebs; [|done]. destruct (dump_operation_queue_to_writer _ _) as [ops|] eqn:Eo; [|done].
  destruct (ser_meta _) as [mb|] eqn:Em; [|done]. apply (inj Some) in Hd.
  unfold alone, dump_start. erewrite dump_run_app; [|by apply (shards_alone (set_snapshot_state sm Start) _ (databases (kvs sm)) [] bs)].
  cbn [dump_run dump_step d_sm d_count d_stage kvs incremental_operation_queue raft_meta_data set_snapshot_state].
  rewrite Nat.ltb_irrefl, Eo. unfold snapshot_meta in *. cbn [last_applied_log_id last_membership] in *.
  cbn [dump_run dump_step d_sm d_count d_stage kvs raft_meta_data set_snapshot_state last_applied_log_id last_membership].
  rewrite Em. cbn [fst]. unfold with_meta. rewrite <- Hd. cbn in Hd. by rewrite <- !app_assoc.
Qed.

(** *** Keys at rest

    A key that nothing changes while the dump is being written is in the file,
    or not in it, as it is in the cache, and the replay of the queue leaves it
    alone. *)

(** A request of the queue that does not write key [k] of database [i]. *)
Definition harmless (i : nat) (k : bytes) (r : AtomicRequest) : Prop :=
  plain_request r /\ queue_ok r /\ ~ touches 0 (ar_request r) i k.

Section Rest.
Context (fits : EvalParams -> Prop) (i0 : nat) (k0 : bytes) (o : option (Entry PValue)).

(** What a step must satisfy: the events are ones a replica may see, the key
    stays in the map, the queue does not write it, and the meta data fits its
    place. *)
Definition act_ok (sm : StateMachineData) (a : Act) : Prop :=
  match a with
  | Machine ev gone => event_ok fits ev /\ k0 ∉ gone
  | WriteQueue => Forall (harmless i0 k0) (incremental_operation_queue sm)
  | TakeMeta => forall mb, ser_meta (snapshot_meta (raft_meta_data sm), write_logic_clock (kvs sm)) = Some mb -> (length mb <= 296)%nat
  | _ => True
  end.

(** At every moment of the dump, key [k0] of database [i0] has the entry [o]. *)
Fixpoint rests (d : Dump) (acts : list Act) : Prop :=
  entry_of_key (abs (kvs (d_sm d))) i0 k0 = o /\
  match acts with
  | [] => True
  | a :: acts' =>
      act_ok (d_sm d) a /\
      match dump_step d a with
      | Ret (Some d') => rests d' acts'
      | _ => True
      end
  end.

Context `{!BincodeOk B} `{!EnvOk E} `{SS : !ScriptSpec LE}.
Context (now0 : Z).
Hypothesis now0_u64 : 0 <= now0.

Abbreviation kvs_list := (list (bytes * EntrySnapshot PValue)).
Abbreviation all_loadable := (Forall (fun kv : bytes * EntrySnapshot PValue => loadable now0 (plain kv.2))).

(** What [l] gives for the key at the clock [clock]. *)
Definition carries (clock : Z) (l : kvs_list) : Prop := live clock (contents l) !! k0 = o.

(** The databases before number [i] are in [body]. *)
Definition shards_in (n : nat) (clock : Z) (i : nat) (body : bytes) (ls : list kvs_list) : Prop :=
  length ls = i /\ (exists bodies, body = write_u64 (Z.of_nat n) ++ concat bodies /\ Forall2 encodes_shard bodies ls) /\
  Forall all_loadable ls /\ forall l, ls !! i0 = Some l -> carries clock l.

(** The entries of a database that have been visited. *)
Definition visited (clock : Z) (i : nat) (owed seen es : list bytes) (l : kvs_list) : Prop :=
  Forall2 encodes es l /\ l.*1 ⊆ seen /\ all_loadable l /\
  (i = i0 -> if decide (k0 ∈ seen) then carries clock l else is_Some o -> k0 ∈ owed).

(** The finished file. *)
Definition complete (n : nat) (file : bytes) : Prop :=
  exists clock body ls h queue ops meta mb,
    shards_in n clock n body ls /\ dump_operation_queue_to_writer h queue = Some ops /\ Forall (harmless i0 k0) queue /\
    ser_meta (meta, clock) = Some mb /\ (length mb <= 296)%nat /\ file = with_meta mb (body ++ ops) /\ now0 <= clock /\ is_u64 clock.

Definition stage_inv (sm : StateMachineData) (n : nat) (st : Stage) : Prop :=
  let clock := write_logic_clock (kvs sm) in
  match st with
  | AtShard i body => (i <= n)%nat /\ exists ls, shards_in n clock i body ls
  | InShard i now owed seen es body =>
      (i < n)%nat /\ now0 <= now <= clock /\ (exists ls, shards_in n clock i body ls) /\ exists l, visited clock i owed seen es l
  | QueueWritten body =>
      exists body' ls h queue ops, body = body' ++ ops /\ shards_in n clock n body' ls /\
        dump_operation_queue_to_writer h queue = Some ops /\ Forall (harmless i0 k0) queue
  | MetaTaken file | Dumped file => complete n file
  | DumpFailed => True
  end.

Definition dump_inv (d : Dump) : Prop :=
  CacheInv (kvs (d_sm d)) /\ now0 <= write_logic_clock (kvs (d_sm d)) /\ stage_inv (d_sm d) (d_count d) (d_stage d).

Lemma entry_of_key_db c : entry_of_key (abs c) i0 k0 =
  let* db := databases c !! i0 in live (write_logic_clock c) (map_ db) !! k0 ≫= abs_entry (heap c).
Proof. unfold entry_of_key. rewrite abs_lookup. destruct (databases c !! i0) as [db|]; [|done]. cbn. apply abs_db_lookup. Qed.

(** An entry at rest is live, and in the map. *)
Lemma rest_entry c pe : entry_of_key (abs c) i0 k0 = Some pe ->
  exists db e, databases c !! i0 = Some db /\ map_ db !! k0 = Some e /\ is_expired (write_logic_clock c) e = false /\ abs_entry (heap c) e = Some pe.
Proof.
  rewrite entry_of_key_db. destruct (databases c !! i0) as [db|]; [|done]. cbn [mbind option_bind]. rewrite live_lookup.
  destruct (map_ db !! k0) as [e|] eqn:Ee; [|done]. cbn. destruct (is_expired _ e) eqn:Ex; [done|]. cbn. by exists db, e.
Qed.

Lemma abs_entry_deadline h e pe : abs_entry h e = Some pe -> e_expire_at pe = e_expire_at e.
Proof. unfold abs_entry. destruct (abs_value _ _); [|done]. by intros [= <-]. Qed.

Lemma same_expired {V W} now (x : Entry V) (y : Entry W) : e_expire_at x = e_expire_at y -> is_expired now x = is_expired now y.
Proof. unfold is_expired. by intros ->. Qed.

Lemma rest_live c pe : entry_of_key (abs c) i0 k0 = Some pe -> is_expired (write_logic_clock c) pe = false.
Proof. intros (db & e & _ & _ & Hx & He)%rest_entry. by rewrite (same_expired _ pe e) by (by eapply abs_entry_deadline). Qed.

(** What the file carries it still carries later. *)
Lemma carries_later c clock l : clock <= write_logic_clock c -> entry_of_key (abs c) i0 k0 = o ->
  carries clock l -> carries (write_logic_clock c) l.
Proof.
  unfold carries. intros Hle Ho Hl. rewrite <- (live_mono clock (write_logic_clock c)), live_lookup, Hl by done.
  destruct o as [pe|]; [|done]. cbn. by rewrite (rest_live c pe Ho).
Qed.

Lemma shards_later c n clock i body ls : clock <= write_logic_clock c -> entry_of_key (abs c) i0 k0 = o ->
  shards_in n clock i body ls -> shards_in n (write_logic_clock c) i body ls.
Proof. intros Hle Ho (? & ? & ? & Hl). split_and!; try done. intros l Hi. eapply carries_later; eauto. Qed.

Lemma rest_owed sm : is_Some o -> entry_of_key (abs (kvs sm)) i0 k0 = o -> k0 ∈ db_keys sm i0.
Proof.
  intros [pe Hpe] Ho. rewrite Hpe in Ho. apply rest_entry in Ho as (db & e & Hi & He & _). unfold db_keys. rewrite Hi.
  apply list_elem_of_fmap. exists (k0, e). split; [done|]. rewrite db_iter_perm. by apply elem_of_map_to_list.
Qed.

(** Events of the machine. *)
Lemma machine_inv sm sm' n gone st : write_logic_clock (kvs sm) <= write_logic_clock (kvs sm') -> k0 ∉ gone ->
  entry_of_key (abs (kvs sm')) i0 k0 = o -> stage_inv sm n st -> stage_inv sm' n (still_owed sm' gone st).
Proof.
  intros Hle Hg Ho. destruct st as [i body|i now owed seen es body|body|file|file|]; cbn [stage_inv still_owed]; try done.
  - intros (? & ls & ?). split; [done|]. exists ls. by eapply shards_later.
  - intros (? & ? & (ls & ?) & l & Hes & Hs & Hl & Hk). split_and!; [done|lia|lia|exists ls; by eapply shards_later|].
    exists l. split_and!; try done. intros ->. specialize (Hk eq_refl). case_decide; [by eapply carries_later|].
    intros Hsome. apply list_elem_of_filter. split_and!; [by apply rest_owed|done|by apply Hk].
  - intros (body' & ls & h & queue & ops & ? & ? & ? & ?). exists body', ls, h, queue, ops. split_and!; try done. by eapply shards_later.
Qed.

Lemma contents_snoc l k ps : contents (l ++ [(k, ps)]) = <[k := plain ps]> (contents l).
Proof. unfold contents. by rewrite foldl_app. Qed.

Lemma contents_absent l k : k ∉ l.*1 -> contents l !! k = None.
Proof.
  induction l as [|[k' ps] l IH] using rev_ind; [done|]. rewrite fmap_app, not_elem_of_app, contents_snoc. cbn.
  intros [? ?%not_elem_of_cons]. rewrite lookup_insert_ne by naive_solver. by apply IH.
Qed.

(** The entries the dump reads can be loaded, even when they expire meanwhile. *)
Lemma visited_entry_loadable c i db k e ps now : CacheInv c -> databases c !! i = Some db -> map_ db !! k = Some e ->
  is_expired now e = false -> now0 <= now -> abs_entry (heap c) e = Some (plain ps) -> loadable now0 (plain ps).
Proof.
  intros Hc Hi He Hx Hle Ha. pose proof (abs_entry_deadline _ _ _ Ha) as Hd. split.
  - rewrite (same_expired _ _ _ Hd). destruct (is_expired now0 e) eqn:E0; [|done]. by rewrite (is_expired_mono _ _ _ Hle E0) in Hx.
  - rewrite Hd. intros a Hae. destruct (is_expired (write_logic_clock c) e) eqn:Ec.
    + unfold is_expired in *. rewrite Hae in *. apply Z.leb_le in Ec. apply Z.leb_gt in Hx. pose proof (Refine.inv_clock c Hc) as Hu.
      unfold is_u64 in *. lia.
    + apply (inv_deadline c Hc i k e a); [|done]. exists db. split; [done|]. rewrite live_lookup, He. cbn. by rewrite Ec.
Qed.

(** What is read of the key at rest is what it holds. *)
Lemma visited_entry_carried c db e ps l : entry_of_key (abs c) i0 k0 = o -> databases c !! i0 = Some db -> map_ db !! k0 = Some e ->
  abs_entry (heap c) e = Some (plain ps) -> carries (write_logic_clock c) (l ++ [(k0, ps)]).
Proof.
  unfold carries. intros Ho Hi He Ha. rewrite contents_snoc, live_lookup, lookup_insert_eq. cbn.
  rewrite (same_expired _ (plain ps) e) by (by eapply abs_entry_deadline). rewrite <- Ho, entry_of_key_db, Hi. cbn.
  rewrite live_lookup, He. cbn. by destruct (is_expired _ e).
Qed.

Lemma visit_inv sm n i now owed seen es body k st : CacheInv (kvs sm) -> entry_of_key (abs (kvs sm)) i0 k0 = o ->
  stage_inv sm n (InShard i now owed seen es body) -> visit sm i now owed seen es body k = Some st -> stage_inv sm n st.
Proof.
  intros Hc Ho (Hn & Hnow & Hsh & l & Hes & Hs & Hl & Hk). unfold visit. case_bool_decide as Hseen; [done|].
  destruct (databases (kvs sm) !! i) as [db|] eqn:Hi; [|done]. cbn [mbind option_bind].
  destruct (map_ db !! k) as [e|] eqn:He; [|done]. cbn [mbind option_bind].
  destruct (is_expired now e) eqn:Ex; [intros [= <-]|destruct (dump_entry _ _) as [b|] eqn:Eb; intros [= <-]; [|done]].
  - split_and!; [done|lia|lia|done|]. exists l. split_and!; [done|set_solver|done|]. intros ->. specialize (Hk eq_refl).
    destruct (decide (k = k0)) as [->|Hne].
    + rewrite decide_True by set_solver. unfold carries. rewrite live_lookup, contents_absent by set_solver. cbn.
      rewrite <- Ho, entry_of_key_db, Hi. cbn. rewrite live_lookup, He. cbn.
      by rewrite (is_expired_mono now (write_logic_clock (kvs sm)) e) by (done || lia).
    + case_decide as Hin; case_decide as Hin'; [done|set_solver|set_solver|]. intros ?. apply list_elem_of_filter. split; [done|by apply Hk].
  - destruct (dump_entry_encodes _ k e b Eb) as (ps & Henc & Ha).
    split_and!; [done|lia|lia|done|]. exists (l ++ [(k, ps)]). split_and!.
    + apply Forall2_app; [done|]. by constructor.
    + rewrite fmap_app. set_solver.
    + apply Forall_app. split; [done|]. constructor; [|constructor]. exact (visited_entry_loadable (kvs sm) i db k e ps now Hc Hi He Ex ltac:(lia) Ha).
    + intros ->. specialize (Hk eq_refl). destruct (decide (k = k0)) as [->|Hne].
      * rewrite decide_True by set_solver. by eapply visited_entry_carried.
      * case_decide as Hin; case_decide as Hin'; [|set_solver|set_solver|].
        -- unfold carries. rewrite contents_snoc, live_lookup, lookup_insert_ne, <- live_lookup by done. exact Hk.
        -- intros ?. apply list_elem_of_filter. split; [done|by apply Hk].
Qed.

Lemma end_shard_inv sm n i now seen es body : stage_inv sm n (InShard i now [] seen es body) ->
  stage_inv sm n (AtShard (S i) (body ++ write_u64 (Z.of_nat (length es)) ++ concat es)).
Proof.
  intros (Hn & _ & (ls & Hlen & (bodies & -> & Hb) & Hld & Hc) & l & Hes & Hs & Hl & Hk). split; [lia|]. exists (ls ++ [l]). split_and!.
  - rewrite length_app. cbn. lia.
  - exists (bodies ++ [write_u64 (Z.of_nat (length es)) ++ concat es]). rewrite concat_app. cbn [concat].
    rewrite app_nil_r, <- !app_assoc. split; [done|]. apply Forall2_app; [done|]. constructor; [by exists es|constructor].
  - apply Forall_app. split; [done|]. by constructor.
  - intros l' [Hi|[Hi Hx]]%lookup_app_Some; [by apply Hc|]. apply list_lookup_singleton_Some in Hx as [Hx <-].
    specialize (Hk ltac:(lia)). case_decide as Hin; [done|]. unfold carries. rewrite live_lookup, contents_absent by set_solver.
    destruct o; [|done]. exfalso. apply (not_elem_of_nil k0). by apply Hk.
Qed.

Lemma log_runs_clock st entries st' : log_runs (LogId := LogId) (Membership := Membership) st entries st' -> st.1 <= st'.1.
Proof.
  induction 1 as [|st st1 st' e entries He _ IH]; [done|]. etransitivity; [|exact IH]. unfold entry_runs in He.
  destruct (payload e) as [|req|mem]; [by rewrite He| |by rewrite He]. destruct (split_u64 req). destruct He as [-> _]. lia.
Qed.

Lemma dump_step_inv d a d' : dump_inv d -> entry_of_key (abs (kvs (d_sm d))) i0 k0 = o -> (forall p, fits p -> script_fits p) ->
  act_ok (d_sm d) a -> dump_step d a = Ret (Some d') -> entry_of_key (abs (kvs (d_sm d'))) i0 k0 = o -> dump_inv d' /\ d_count d' = d_count d.
Proof.
  destruct d as [sm n st]. intros (Hc & Hle & Hst) Ho Hfits Hok Hstep Ho'. unfold dump_inv in *. cbn [d_sm d_count d_stage] in *.
  unfold dump_step in Hstep. cbn [d_sm d_count d_stage] in Hstep. destruct a as [ev gone| |k| | | |].
  { destruct (is_snapshot_event ev); [done|]. destruct Hok as [Hev Hg].
    destruct (run_event_refines sm ev Hc (event_ok_mono _ _ ev Hfits Hev)) as (sm' & Er & Hc' & Hlog & _). rewrite Er in Hstep. injection Hstep as <-.
    apply log_runs_clock in Hlog. cbn [fst view] in Hlog. cbn [d_sm d_count d_stage] in *.
    split_and!; [done|lia| |done]. by eapply machine_inv. }
  all: destruct st as [i body|i now owed seen es body|body|file|file|]; try done.
  - destruct (Nat.ltb_spec i n) as [Hlt|]; [|done]. injection Hstep as <-. cbn [d_sm d_count d_stage] in *. destruct Hst as (? & Hls).
    split_and!; [done..| |done]. cbn [stage_inv]. split_and!; [done..|lia|done|]. exists []. split_and!; [constructor|done|constructor|]. intros ->. rewrite decide_False by apply not_elem_of_nil.
    intros Hsome. by apply rest_owed.
  - destruct (visit sm i now owed seen es body k) as [st|] eqn:Ev; [|done]. injection Hstep as <-. cbn [d_sm d_count d_stage] in *.
    split_and!; [done..| |done]. by eapply visit_inv.
  - destruct owed; [|done]. injection Hstep as <-. cbn [d_sm d_count d_stage] in *. split_and!; [done..| |done]. by eapply end_shard_inv.
  - destruct (Nat.ltb_spec i n) as [|Hge]; [done|]. injection Hstep as <-. cbn [d_sm d_count d_stage] in *. split_and!; [done..| |done].
    destruct Hst as (? & ls & Hls). replace i with n in Hls by lia.
    destruct (dump_operation_queue_to_writer _ _) as [ops|] eqn:Eo; [|done]. by exists body, ls, (heap (kvs sm)), (incremental_operation_queue sm), ops.
  - injection Hstep as <-. cbn [d_sm d_count d_stage] in *. split_and!; [done..| |done].
    destruct Hst as (body' & ls & h & queue & ops & -> & Hls & Eo & Hq). destruct (ser_meta _) as [mb|] eqn:Em; [|done].
    exists (write_logic_clock (kvs sm)), body', ls, h, queue, ops, (snapshot_meta (raft_meta_data sm)), mb. split_and!; try done; [by apply Hok|apply Hc].
  - injection Hstep as <-. cbn [d_sm d_count d_stage] in *. by split_and!.
Qed.

Lemma rests_now d acts : rests d acts -> entry_of_key (abs (kvs (d_sm d))) i0 k0 = o.
Proof. by destruct acts; intros []. Qed.

Lemma dump_run_inv acts : forall d d', dump_inv d -> (forall p, fits p -> script_fits p) -> rests d acts ->
  dump_run d acts = Ret (Some d') -> dump_inv d' /\ d_count d' = d_count d.
Proof.
  induction acts as [|a acts IH]; intros d d' Hd Hfits Hr Hrun; [by injection Hrun as <-|]. destruct Hr as (Ho & Hok & Hr). cbn [dump_run] in Hrun.
  destruct (dump_step d a) as [[d1|]| |] eqn:Es; [|done..]. pose proof (rests_now d1 acts Hr) as Ho1.
  destruct (dump_step_inv d a d1 Hd Ho Hfits Hok Es Ho1) as [Hd1 Hn1]. rewrite <- Hn1. by apply IH.
Qed.

(** A complete file is installed, and gives the key what it held. *)
Lemma complete_installs n file sm0 : complete n file -> CacheInv (kvs sm0) -> (n <= length (databases (kvs sm0)))%nat ->
  write_logic_clock (kvs sm0) <= now0 -> Z.of_nat (length file) < 2 ^ 64 -> ((n <= i0)%nat -> o = None) ->
  exists sm1, install_snapshot sm0 (Some file) = Ret (sm1, Ok tt) /\ CacheInv (kvs sm1) /\ entry_of_key (abs (kvs sm1)) i0 k0 = o.
Proof.
  intros (clock & body & ls & h & queue & ops & meta & mb & (Hlen & (bodies & -> & Hb) & Hld & Hcar) & Eo & Hq & Em & Hmb & -> & Hclk & Hu) Hc0 Hn Hle Hlf Hout.
  assert (Forall (Forall (fun kv => loadable (write_logic_clock (kvs sm0)) (plain kv.2))) ls) as Hld'.
  { eapply Forall_impl; [exact Hld|]. intros l Hl. eapply Forall_impl; [exact Hl|]. intros kv [Hx Hd]. split; [|done].
    destruct (is_expired (write_logic_clock (kvs sm0)) (plain kv.2)) eqn:E0; [|done]. by rewrite (is_expired_mono _ _ _ Hle E0) in Hx. }
  subst n. destruct (load_file (kvs sm0) bodies ls h queue ops meta clock mb (with_meta mb ((write_u64 (Z.of_nat (length ls)) ++ concat bodies) ++ ops)) Hc0 Hb Hld' Eo) as (c' & Hl & Hc' & Hk & Ha); [|done|lia|done|exact Em|done|reflexivity|exact Hlf|].
  { eapply Forall_impl; [exact Hq|]. by intros r [? _]. }
  destruct (replay_leaves queue c' Hc') as (Hc1 & _ & Hlv); [eapply Forall_impl; [exact Hq|]; by intros r (_ & ? & _)|].
  unfold install_snapshot. rewrite Hl. eexists. split_and!; [reflexivity|exact Hc1|]. cbn [kvs with_kvs update_meta_data].
  rewrite Hlv. 2: { intros (r & Hin & Ht). rewrite Forall_forall in Hq. by destruct (Hq r Hin) as (_ & _ & []). }
  unfold entry_of_key. rewrite Ha. destruct (ls !! i0) as [l|] eqn:Ei.
  - rewrite lookup_app_l by (rewrite !length_fmap; by eapply lookup_lt_Some). rewrite !list_lookup_fmap, Ei. cbn. by apply Hcar.
  - apply lookup_ge_None in Ei. rewrite lookup_app_r, !length_fmap by (by rewrite !length_fmap). rewrite Hout by done.
    destruct (replicate _ _ !! _) as [m|] eqn:Er; [|done]. apply lookup_replicate in Er as [-> _]. done.
Qed.
End Rest.

(** A key at rest, the whole way from the cache to the other replica. *)
Lemma dump_carries `{!BincodeOk B} `{!EnvOk E} `{SS : !ScriptSpec LE} sm acts sm' n file sm0 i k o :
  CacheInv (kvs sm) -> rests script_fits i k o (dump_start sm) acts ->
  dump_run (dump_start sm) acts = Ret (Some (mkDump sm' n (Dumped file))) ->
  CacheInv (kvs sm0) -> (length (databases (kvs sm)) <= length (databases (kvs sm0)))%nat ->
  write_logic_clock (kvs sm0) <= write_logic_clock (kvs sm) -> Z.of_nat (length file) < 2 ^ 64 ->
  exists sm1, install_snapshot sm0 (Some file) = Ret (sm1, Ok tt) /\ CacheInv (kvs sm1) /\ entry_of_key (abs (kvs sm1)) i k = o.
Proof.
  intros Hc Hr Hrun Hc0 Hn Hle Hlf. pose proof (Refine.inv_clock _ Hc) as Hu.
  destruct (dump_run_inv script_fits i k o (write_logic_clock (kvs sm)) (proj1 Hu) acts (dump_start sm) (mkDump sm' n (Dumped file))) as [(_ & _ & Hcomp) Hcount]; [|done|exact Hr|exact Hrun|].
  { split_and!; [done|cbn; lia|]. cbn. split; [lia|]. exists []. split_and!; try done. exists []. split; [by rewrite app_nil_r|constructor]. }
  cbn in Hcount. apply (complete_installs i k o (write_logic_clock (kvs sm)) n file sm0 Hcomp); [done|by rewrite Hcount|done..|]. intros Hi. pose proof (rests_now _ _ _ _ _ _ Hr) as Ho.
  rewrite <- Ho. unfold entry_of_key. cbn in *. rewrite Hcount in Hi. rewrite abs_lookup, (lookup_ge_None_2 _ _ Hi). done.
Qed.
End Dump.


(** ** Witness and lost writes *)

Import Sample.

Definition incr_j : BaseOperation := Incr (mkIncrReq (str "j")).

(** [k] is at rest while [j] is counted up, before and after its visit. *)
Definition busy_acts : list (Act (LogId := Z) (Membership := bytes)) :=
  [BeginShard; Machine (EvApply [entry_of 3 incr_j]) []; Visit (str "k"); Visit (str "j"); Machine (EvApply [entry_of 4 incr_j]) [];
   Machine (EvWorker 0) []; EndShard; WriteQueue; TakeMeta; Rename].

Definition busy_machine : machine := after [EvApply [entry_of 1 incr_k; entry_of 2 incr_j]].

(** What [rests] looks at in a state: the entry of [k], the queue, the length of
    the meta data. *)
Abbreviation observation := (option (Entry PValue) * list AtomicRequest * option nat)%type.
Definition observe (sm : machine) : observation :=
  (entry_of_key (abs (kvs sm)) 0 (str "k"), incremental_operation_queue sm,
   length <$> ser_meta (snapshot_meta (raft_meta_data sm), write_logic_clock (kvs sm))).

Fixpoint observed (d : Dump (LogId := Z) (Membership := bytes)) (acts : list (Act (LogId := Z) (Membership := bytes))) : list observation :=
  observe (d_sm d) ::
  match acts with
  | [] => []
  | a :: acts' => match dump_step d a with Ret (Some d') => observed d' acts' | _ => [] end
  end.

Fixpoint calm (o : option (Entry PValue)) (obs : list observation) (acts : list (Act (LogId := Z) (Membership := bytes))) : Prop :=
  match obs, acts with
  | (e, queue, meta) :: obs', a :: acts' =>
      e = o /\
      match a with
      | Machine ev gone => event_ok (fun _ => False) ev /\ str "k" ∉ gone
      | WriteQueue => Forall (harmless 0 (str "k")) queue
      | TakeMeta => forall l, meta = Some l -> (l <= 296)%nat
      | _ => True
      end /\ calm o obs' acts'
  | (e, _, _) :: _, [] => e = o
  | [], _ => True
  end.

Lemma calm_rests o acts : forall d, calm o (observed d acts) acts -> rests (fun _ => False) 0 (str "k") o d acts.
Proof.
  induction acts as [|a acts IH]; intros d; [done|]. cbn [observed calm rests]. unfold observe at 1. intros (He & Ha & Hc).
  split_and!; [done| |].
  - unfold act_ok. destruct a; try done. intros mb Hmb. apply Ha. by rewrite Hmb.
  - destruct (dump_step d a) as [[d'|]| |]; [|done..]. by apply IH.
Qed.

Definition dumped (sm : machine) (acts : list (Act (LogId := Z) (Membership := bytes))) : option (machine * bytes) :=
  match dump_run (dump_start sm) acts with
  | Ret (Some (mkDump sm' _ (Dumped file))) => Some (sm', file)
  | _ => None
  end.

(** The values, and the last applied ids, of the machine that was dumped and of
    the one that installs its file. *)
Definition ship (sm : machine) (acts : list (Act (LogId := Z) (Membership := bytes)))
    : option (option PData * option Z * (option PData * option Z)) :=
  let* r := dumped sm acts in
  match install_snapshot (state_machine_new 1) (Some r.2) with
  | Ret (sm1, Ok _) =>
      Some ((value_of (kvs r.1), last_applied_log_id (raft_meta_data r.1)), (value_of (kvs sm1), last_applied_log_id (raft_meta_data sm1)))
  | _ => None
  end.


Lemma busy_machine_inv : CacheInv (kvs busy_machine).
Proof.
  apply sample_after_inv. constructor; [|constructor]. cbn [event_ok]. rewrite !Forall_cons.
  split_and!; [..|by apply Forall_nil]; cbn; unfold is_u64; try done; split; try done; lia.
Qed.


Lemma busy_acts_rest : rests (fun _ => False) 0 (str "k") (Some (mkEntry (mkPValue 1 (PInt 1)) None)) (dump_start busy_machine) busy_acts.
Proof.
  apply calm_rests. replace (observed (dump_start busy_machine) busy_acts) with
    (let e := Some (mkEntry (mkPValue 1 (PInt 1)) None) in let q3 := [mkAtomicRequest incr_j 2 3] in let q4 := q3 ++ [mkAtomicRequest incr_j 2 4] in
     replicate 2 (e, [], Some 24%nat) ++ replicate 3 (e, q3, Some 24%nat) ++ replicate 6 (e, q4, Some 24%nat)) by (vm_compute; reflexivity).
  assert (forall c, is_u64 c -> harmless 0 (str "k") (mkAtomicRequest incr_j 2 c)) as Hj by (intros c Hc; split_and!; [done..|by intros [_ [=]]]).
  assert (forall i, i = 3 \/ i = 4 -> event_ok (LogId := Z) (Membership := bytes) (fun _ => False) (EvApply [entry_of i incr_j])) as He.
  { intros i [-> | ->]; (constructor; [|constructor]); (split; [|done]); split; (apply Z.leb_le || apply Z.ltb_lt); vm_compute; reflexivity. }
  cbn [app replicate calm busy_acts]. split_and!; try done; try (apply not_elem_of_nil); try (apply He; lia).
  - apply Forall_cons. split; [apply Hj|apply Forall_singleton, Hj]; unfold is_u64; lia.
  - intros l [= <-]. lia.
Qed.

