(* ===== verification/PubSub.v ===== *)
(** * PubSub: channels, patterns and their subscribers.

    Models src/cache_cat/src/raft/application/pub_sub.rs. Channels and patterns
    are kept in the same way, once by name and once by client, so the functions
    for the two kinds are instances of one definition here. The operations hold
    the locks of the three tables one after the other; each is one step here.

    A subscriber listens on a [tokio::sync::watch] channel, which holds one
    value: what is sent before the subscriber looks replaces what was there. *)

From S2P Require Import Prelude Text Reply.
From Stdlib Require Import Strings.Byte.

(** ** The watch channel *)

(** Everything sent so far, and the number of receivers. *)
Record Watch := mkWatch { sent : list (option Value); receivers : nat }.

Definition watch_channel : Watch := mkWatch [] 0.

(** [Sender::subscribe]. *)
Definition watch_subscribe (w : Watch) : Watch := mkWatch (sent w) (S (receivers w)).

(** Dropping a receiver. *)
Definition watch_drop (w : Watch) : Watch := mkWatch (sent w) (pred (receivers w)).

(** [Sender::send], which fails when nobody listens. *)
Definition watch_send (w : Watch) (v : option Value) : Watch * bool :=
  if (receivers w =? 0)%nat then (w, false) else (mkWatch (sent w ++ [v]) (receivers w), true).

(** [Receiver::changed] followed by [borrow], for a receiver that has seen the
    first [seen] values: the newest value and the new position, or [None] while
    there is nothing new. *)
Definition watch_poll (w : Watch) (seen : nat) : option (option Value * nat) :=
  if (seen <? length (sent w))%nat then (fun v => (v, length (sent w))) <$> last (sent w) else None.

(** ** The tables *)

Record ClientState := mkClientState {
  sender : Watch;
  subscribed_channels : gset bytes;
  subscribed_patterns : gset bytes
}.

Record PubSub := mkPubSub {
  subs : gmap bytes (gset Z);
  patterns : gmap bytes (gset Z);
  clients : gmap Z ClientState
}.

Definition pubsub_new : PubSub := mkPubSub ∅ ∅ ∅.

(** The two kinds of subscription. *)
Inductive target := Channel | Pattern.

#[global] Instance target_eq_dec : EqDecision target.
Proof. solve_decision. Defined.

Definition registry (t : target) (ps : PubSub) : gmap bytes (gset Z) :=
  match t with Channel => subs ps | Pattern => patterns ps end.

Definition set_registry (t : target) (ps : PubSub) (r : gmap bytes (gset Z)) : PubSub :=
  match t with
  | Channel => mkPubSub r (patterns ps) (clients ps)
  | Pattern => mkPubSub (subs ps) r (clients ps)
  end.

Definition names (t : target) (st : ClientState) : gset bytes :=
  match t with Channel => subscribed_channels st | Pattern => subscribed_patterns st end.

Definition set_names (t : target) (st : ClientState) (s : gset bytes) : ClientState :=
  match t with
  | Channel => mkClientState (sender st) s (subscribed_patterns st)
  | Pattern => mkClientState (sender st) (subscribed_channels st) s
  end.

Definition with_clients (ps : PubSub) (c : gmap Z ClientState) : PubSub := mkPubSub (subs ps) (patterns ps) c.

Definition verb (t : target) (un : bool) : bytes :=
  match t, un with
  | Channel, false => str "subscribe"
  | Channel, true => str "unsubscribe"
  | Pattern, false => str "psubscribe"
  | Pattern, true => str "punsubscribe"
  end.

(** ** Operations *)

Definition get_or_create_client (ps : PubSub) (client_id : Z) : PubSub :=
  let state := default (mkClientState watch_channel ∅ ∅) (clients ps !! client_id) in
  with_clients ps (<[client_id := mkClientState (watch_subscribe (sender state)) (subscribed_channels state) (subscribed_patterns state)]> (clients ps)).

Definition push_frame (kind : bytes) (target : option bytes) (count : Z) : Value :=
  Push [BulkString (Some kind); BulkString target; Integer count].

Definition client_sub_total (state : ClientState) : Z :=
  Z.of_nat (size (subscribed_channels state) + size (subscribed_patterns state)).

(** [entry(name).or_default().insert(id)]. *)
Definition registry_insert (id : Z) (r : gmap bytes (gset Z)) (name : bytes) : gmap bytes (gset Z) :=
  <[name := {[id]} ∪ default ∅ (r !! name)]> r.

(** [set.remove(&id)], and the name goes with its last subscriber. *)
Definition registry_remove (id : Z) (r : gmap bytes (gset Z)) (name : bytes) : gmap bytes (gset Z) :=
  match r !! name with
  | None => r
  | Some set => let set' := set ∖ {[id]} in if decide (set' = ∅) then delete name r else <[name := set']> r
  end.

(** The loop that updates the client and builds one frame per name. *)
Fixpoint confirm (t : target) (un : bool) (state : ClientState) (l : list bytes) : ClientState * list Value :=
  match l with
  | [] => (state, [])
  | name :: l' =>
      let s := if un then names t state ∖ {[name]} else {[name]} ∪ names t state in
      let state := set_names t state s in
      let '(state', frames) := confirm t un state l' in
      (state', push_frame (verb t un) (Some name) (client_sub_total state) :: frames)
  end.

Definition subscribe_to (t : target) (ps : PubSub) (l : list bytes) (client_id : Z) : PubSub * Value :=
  let ps := get_or_create_client ps client_id in
  let ps := set_registry t ps (foldl (registry_insert client_id) (registry t ps) l) in
  match clients ps !! client_id with
  | Some state =>
      let '(state', frames) := confirm t false state l in
      (with_clients ps (<[client_id := state']> (clients ps)), Batch frames)
  | None => (ps, Batch [])
  end.

Definition cleanup_client_if_empty (c : gmap Z ClientState) (client_id : Z) : gmap Z ClientState :=
  match c !! client_id with
  | Some state =>
      if (bool_decide (subscribed_channels state = ∅) && bool_decide (subscribed_patterns state = ∅))%bool
      then delete client_id c else c
  | None => c
  end.

Definition unsubscribe_from (t : target) (ps : PubSub) (l : list bytes) (client_id : Z) : PubSub * Value :=
  let ps := set_registry t ps (foldl (registry_remove client_id) (registry t ps) l) in
  match clients ps !! client_id with
  | Some state =>
      let '(state', frames) := confirm t true state l in
      (with_clients ps (cleanup_client_if_empty (<[client_id := state']> (clients ps)) client_id), Batch frames)
  | None => (ps, Batch ((fun name => push_frame (verb t true) (Some name) 0) <$> l))
  end.

(** Simple patterns: [*] and [?]. The loop tries every suffix of the channel. *)
Fixpoint suffixes (l : bytes) : list bytes :=
  l :: match l with [] => [] | _ :: l' => suffixes l' end.

Fixpoint matches_pattern (channel pattern : bytes) {struct pattern} : bool :=
  match pattern with
  | [] => bool_decide (channel = [])
  | c :: pattern' =>
      if Byte.eqb c x2a then existsb (fun s => matches_pattern s pattern') (suffixes channel)
      else if Byte.eqb c x3f then
        match channel with [] => false | _ :: channel' => matches_pattern channel' pattern' end
      else
        match channel with
        | [] => false
        | x :: channel' => if Byte.eqb x c then matches_pattern channel' pattern' else false
        end
  end.

(** Sending one message to one client, who counts as reached if it listens. *)
Definition deliver (msg : Value) (acc : gmap Z ClientState * gset Z) (client_id : Z) : gmap Z ClientState * gset Z :=
  let '(c, delivered_clients) := acc in
  match c !! client_id with
  | Some state =>
      let '(w, ok) := watch_send (sender state) (Some msg) in
      if ok then (<[client_id := mkClientState w (subscribed_channels state) (subscribed_patterns state)]> c,
                  {[client_id]} ∪ delivered_clients)
      else acc
  | None => acc
  end.

Definition exact_message (channel content : bytes) : Value :=
  Push [BulkString (Some (str "message")); BulkString (Some channel); BulkString (Some content)].

Definition pattern_message (pattern channel content : bytes) : Value :=
  Push [BulkString (Some (str "pmessage")); BulkString (Some pattern); BulkString (Some channel); BulkString (Some content)].

Section Operations.
(** The iteration orders of the hash tables. *)
Context (name_iter : gset bytes -> list bytes) (id_iter : gset Z -> list Z)
  (registry_iter : gmap bytes (gset Z) -> list (bytes * gset Z)).

Definition unsubscribe_all (t : target) (ps : PubSub) (client_id : Z) : PubSub * Value :=
  let l := default [] ((fun state => name_iter (names t state)) <$> clients ps !! client_id) in
  let ps := set_registry t ps (foldl (registry_remove client_id) (registry t ps) l) in
  match clients ps !! client_id with
  | Some state =>
      let '(state', frames) := confirm t true state l in
      let frames := match frames with [] => [push_frame (verb t true) None (client_sub_total state')] | _ => frames end in
      (with_clients ps (cleanup_client_if_empty (<[client_id := state']> (clients ps)) client_id), Batch frames)
  | None => (ps, Batch [push_frame (verb t true) None 0])
  end.

Definition publish (ps : PubSub) (channel message_content : bytes) : PubSub * Value :=
  let exact_subs := default ∅ (subs ps !! channel) in
  let pattern_targets := filter (fun p : bytes * gset Z => matches_pattern channel p.1 = true) (registry_iter (patterns ps)) in
  let acc := foldl (deliver (exact_message channel message_content)) (clients ps, ∅) (id_iter exact_subs) in
  let '(c, delivered_clients) :=
    foldl (fun acc (p : bytes * gset Z) => foldl (deliver (pattern_message p.1 channel message_content)) acc (id_iter p.2)) acc pattern_targets in
  (with_clients ps c, Integer (Z.of_nat (size delivered_clients))).

Definition pubsub_channels (ps : PubSub) (pattern : option bytes) : Value :=
  Array (Some ((fun p : bytes * gset Z => BulkString (Some p.1)) <$>
    filter (fun p : bytes * gset Z => match pattern with Some pat => matches_pattern p.1 pat | None => true end = true)
      (registry_iter (subs ps)))).
End Operations.

Definition subscribe := subscribe_to Channel.
Definition psubscribe := subscribe_to Pattern.
Definition unsubscribe := unsubscribe_from Channel.
Definition punsubscribe := unsubscribe_from Pattern.
Definition unsubscribe_all_channels name_iter := unsubscribe_all name_iter Channel.
Definition punsubscribe_all_patterns name_iter := unsubscribe_all name_iter Pattern.

(** [retain]. *)
Definition registry_drop (id : Z) (r : gmap bytes (gset Z)) : gmap bytes (gset Z) :=
  filter (fun p : bytes * gset Z => p.2 <> ∅) ((fun set => set ∖ {[id]}) <$> r).

(** The client's listeners are told with an empty value before it goes. *)
Definition remove_client (ps : PubSub) (client_id : Z) : PubSub :=
  mkPubSub (registry_drop client_id (subs ps)) (registry_drop client_id (patterns ps)) (delete client_id (clients ps)).

Definition pubsub_numsub (ps : PubSub) (channels : list bytes) : Value :=
  Array (Some (concat ((fun ch =>
    [BulkString (Some ch); Integer (default 0 ((fun s => Z.of_nat (size s)) <$> subs ps !! ch))]) <$> channels))).

Definition pubsub_numpat (ps : PubSub) : Value := Integer (Z.of_nat (size (patterns ps))).

Definition client_subscription_count (ps : PubSub) (client_id : Z) : Z :=
  default 0 ((fun state => Z.of_nat (size (subscribed_channels state))) <$> clients ps !! client_id).

Definition client_pattern_count (ps : PubSub) (client_id : Z) : Z :=
  default 0 ((fun state => Z.of_nat (size (subscribed_patterns state))) <$> clients ps !! client_id).

(** ** The two views agree *)

Definition member (r : gmap bytes (gset Z)) (id : Z) (name : bytes) : Prop := exists set, r !! name = Some set /\ id ∈ set.

Definition registry_wf (r : gmap bytes (gset Z)) : Prop := forall name set, r !! name = Some set -> set <> ∅.

Definition names_of (t : target) (ps : PubSub) (id : Z) : gset bytes := default ∅ (names t <$> clients ps !! id).

Record PubSubInv (ps : PubSub) : Prop := {
  inv_agree t id name : member (registry t ps) id name <-> name ∈ names_of t ps id;
  inv_wf t : registry_wf (registry t ps)
}.

Lemma registry_insert_member id r name id' name' :
  member (registry_insert id r name) id' name' <-> member r id' name' \/ (id' = id /\ name' = name).
Proof.
  unfold member, registry_insert. destruct (decide (name' = name)) as [->|Hne].
  - rewrite lookup_insert_eq. split.
    + intros (set & [= <-] & Hin). apply elem_of_union in Hin as [->%elem_of_singleton|Hin]; [by right|].
      destruct (r !! name) as [s|] eqn:E; [|by apply not_elem_of_empty in Hin]. left. by exists s.
    + intros Hor. eexists. split; [done|]. destruct Hor as [(s & -> & Hin)|[-> _]]; [|set_solver]. cbn. set_solver.
  - rewrite lookup_insert_ne by done. naive_solver.
Qed.

Lemma registry_insert_wf id r name : registry_wf r -> registry_wf (registry_insert id r name).
Proof. unfold registry_insert. intros Hr n s [[-> <-]|[_ Hs]]%lookup_insert_Some; [set_solver|by eapply Hr]. Qed.

Lemma registry_remove_member id r name id' name' :
  member (registry_remove id r name) id' name' <-> member r id' name' /\ ~ (id' = id /\ name' = name).
Proof.
  unfold member, registry_remove. destruct (r !! name) as [s|] eqn:E.
  2: { split; [|naive_solver]. intros (set & Hs & Hin). split; [by exists set|]. intros [_ ->]. congruence. }
  destruct (decide (name' = name)) as [->|Hne].
  - case_decide as Hs.
    + rewrite lookup_delete_eq. split; [naive_solver|]. intros [(set & E' & Hin) Hn]. rewrite E in E'. injection E' as <-.
      exfalso. apply Hn. split; [|done]. set_solver.
    + rewrite lookup_insert_eq. split.
      * intros (set & [= <-] & Hin). apply elem_of_difference in Hin as [Hin Hne]. split; [by exists s|]. set_solver.
      * intros [(set & E' & Hin) Hn]. rewrite E in E'. injection E' as <-. eexists. split; [done|]. set_solver.
  - case_decide; [rewrite lookup_delete_ne by done|rewrite lookup_insert_ne by done]; naive_solver.
Qed.

Lemma registry_remove_wf id r name : registry_wf r -> registry_wf (registry_remove id r name).
Proof.
  intros Hr. unfold registry_remove. destruct (r !! name) as [s|]; [|done]. case_decide as Hs; intros n s'.
  - intros [_ E]%lookup_delete_Some. by eapply Hr.
  - intros [[-> <-]|[_ E]]%lookup_insert_Some; [done|by eapply Hr].
Qed.

Lemma insert_all_member id l : forall r id' name,
  member (foldl (registry_insert id) r l) id' name <-> member r id' name \/ (id' = id /\ name ∈ l).
Proof.
  induction l as [|x l IH]; intros r id' name; cbn [foldl]; [set_solver|].
  rewrite IH, registry_insert_member, elem_of_cons. naive_solver.
Qed.

Lemma remove_all_member id l : forall r id' name,
  member (foldl (registry_remove id) r l) id' name <-> member r id' name /\ ~ (id' = id /\ name ∈ l).
Proof.
  induction l as [|x l IH]; intros r id' name; cbn [foldl]; [set_solver|].
  rewrite IH, registry_remove_member, elem_of_cons. naive_solver.
Qed.

Lemma foldl_wf f (l : list bytes) : (forall r x, registry_wf r -> registry_wf (f r x)) ->
  forall r, registry_wf r -> registry_wf (foldl f r l).
Proof. intros Hf. induction l as [|x l IH]; intros r Hr; [done|]. cbn. apply IH. by apply Hf. Qed.

Lemma registry_drop_member id r id' name : member (registry_drop id r) id' name <-> member r id' name /\ id' <> id.
Proof.
  unfold member, registry_drop. split.
  - intros (set & Hs & Hin). apply map_lookup_filter_Some in Hs as [Hs _]. rewrite lookup_fmap in Hs.
    destruct (r !! name) as [s|]; [|done]. injection Hs as <-. apply elem_of_difference in Hin as [? ?]. split; [by exists s|set_solver].
  - intros [(s & Hs & Hin) Hne]. exists (s ∖ {[id]}). split; [|set_solver]. apply map_lookup_filter_Some.
    rewrite lookup_fmap, Hs. split; [done|]. cbn. set_solver.
Qed.

Lemma registry_drop_wf id r : registry_wf (registry_drop id r).
Proof. intros name s Hs. by apply map_lookup_filter_Some in Hs as [_ ?]. Qed.

(** *** What the client's side becomes *)

Lemma names_set_eq t st s : names t (set_names t st s) = s.
Proof. by destruct t. Qed.

Lemma names_set_ne t t' st s : t' <> t -> names t' (set_names t st s) = names t' st.
Proof. by destruct t, t'. Qed.

Lemma confirm_names t un l : forall st, let st' := (confirm t un st l).1 in
  names t st' = (if un then names t st ∖ list_to_set l else list_to_set l ∪ names t st) /\
  (forall t', t' <> t -> names t' st' = names t' st) /\ sender st' = sender st.
Proof.
  induction l as [|x l IH]; intros st; cbn [confirm].
  - split_and!; [|done|done]. destruct un; set_solver.
  - set (s := if un then _ else _). specialize (IH (set_names t st s)). destruct (confirm t un (set_names t st s) l) as [st' fs].
    destruct IH as (H1 & H2 & H3). cbn [fst] in *. split_and!.
    + rewrite H1, names_set_eq. unfold s. destruct un; set_solver.
    + intros t' Hne. by rewrite H2, names_set_ne.
    + rewrite H3. by destruct t.
Qed.

Lemma registry_set_eq t ps r : registry t (set_registry t ps r) = r.
Proof. by destruct t. Qed.

Lemma registry_set_ne t t' ps r : t' <> t -> registry t' (set_registry t ps r) = registry t' ps.
Proof. by destruct t, t'. Qed.

Lemma clients_set_registry t ps r : clients (set_registry t ps r) = clients ps.
Proof. by destruct t. Qed.

Lemma names_of_insert t ps c id st id' : names_of t (with_clients ps (<[id := st]> c)) id' =
  if decide (id' = id) then names t st else default ∅ (names t <$> c !! id').
Proof. unfold names_of. cbn. case_decide as E; [subst; by rewrite lookup_insert_eq|by rewrite lookup_insert_ne]. Qed.

Lemma names_of_cleanup t ps c id id' :
  names_of t (with_clients ps (cleanup_client_if_empty c id)) id' = names_of t (with_clients ps c) id'.
Proof.
  unfold cleanup_client_if_empty, names_of. cbn. destruct (c !! id) as [st|] eqn:E; [|done].
  destruct (bool_decide_reflect (subscribed_channels st = ∅)); [|done]. destruct (bool_decide_reflect (subscribed_patterns st = ∅)); [|done].
  cbn. destruct (decide (id' = id)) as [->|Hne]; [|by rewrite lookup_delete_ne]. rewrite lookup_delete_eq, E. cbn. by destruct t.
Qed.

Lemma create_names t ps id id' : names_of t (get_or_create_client ps id) id' = names_of t ps id'.
Proof.
  unfold get_or_create_client. rewrite names_of_insert. case_decide as E; [subst|done]. unfold names_of.
  destruct (clients ps !! id) as [[w a b]|]; by destruct t.
Qed.

Lemma registry_with_clients t ps c : registry t (with_clients ps c) = registry t ps.
Proof. by destruct t. Qed.

(** ** Histories *)

Inductive call :=
| CSubscribe (t : target) (l : list bytes) (id : Z)
| CUnsubscribe (t : target) (l : list bytes) (id : Z)
| CUnsubscribeAll (t : target) (id : Z)
| CPublish (channel content : bytes)
| CDisconnect (id : Z).

(** What each client is subscribed to, as a function of the calls alone. *)
Definition spec_names (f : target -> Z -> gset bytes) (c : call) (t : target) (id : Z) : gset bytes :=
  match c with
  | CSubscribe t' l id' => if decide (t = t' /\ id = id') then list_to_set l ∪ f t id else f t id
  | CUnsubscribe t' l id' => if decide (t = t' /\ id = id') then f t id ∖ list_to_set l else f t id
  | CUnsubscribeAll t' id' => if decide (t = t' /\ id = id') then ∅ else f t id
  | CPublish _ _ => f t id
  | CDisconnect id' => if decide (id = id') then ∅ else f t id
  end.

Definition spec_history (cs : list call) : target -> Z -> gset bytes := foldl spec_names (fun _ _ => ∅) cs.

(** A change of the registry and of the names of one client that go together. *)
Lemma change_inv (t : target) (id : Z) (ps ps' : PubSub) (f : gset bytes -> gset bytes) : PubSubInv ps ->
  (forall id' name, member (registry t ps') id' name <->
     if decide (id' = id) then name ∈ f (names_of t ps id) else member (registry t ps) id' name) ->
  registry_wf (registry t ps') ->
  (forall t', t' <> t -> registry t' ps' = registry t' ps) ->
  (forall t' id', names_of t' ps' id' = if decide (t' = t /\ id' = id) then f (names_of t ps id) else names_of t' ps id') ->
  PubSubInv ps'.
Proof.
  intros Hps Hm Hwf Hr Hn. constructor.
  - intros t' id' name. rewrite Hn. destruct (decide (t' = t)) as [->|Ht].
    + rewrite Hm. case_decide as Hid; [subst; by rewrite decide_True by done|]. rewrite decide_False by naive_solver. apply Hps.
    + rewrite decide_False by naive_solver. rewrite Hr by done. apply Hps.
  - intros t'. destruct (decide (t' = t)) as [->|Ht]; [done|]. rewrite Hr by done. apply Hps.
Qed.

(** ** Delivery *)

(** A client that listens gets the messages, in this order. *)
Definition pushed (msgs : list Value) (st : ClientState) : ClientState :=
  if (receivers (sender st) =? 0)%nat then st
  else mkClientState (mkWatch (sent (sender st) ++ (Some <$> msgs)) (receivers (sender st)))
         (subscribed_channels st) (subscribed_patterns st).

Definition listening (c : gmap Z ClientState) (id : Z) : Prop :=
  exists st, c !! id = Some st /\ receivers (sender st) <> 0%nat.

Lemma pushed_nil st : pushed [] st = st.
Proof. unfold pushed. case_match; [done|]. cbn. rewrite app_nil_r. by destruct st as [[? ?] ? ?]. Qed.

Lemma pushed_app a b st : pushed b (pushed a st) = pushed (a ++ b) st.
Proof.
  unfold pushed. destruct (receivers (sender st) =? 0)%nat eqn:E; [by rewrite E|]. cbn. rewrite E. by rewrite fmap_app, app_assoc.
Qed.

Lemma pushed_names t msgs st : names t (pushed msgs st) = names t st.
Proof. unfold pushed. case_match; by destruct t. Qed.

Lemma listening_pushed (f : Z -> list Value) c c' : (forall id, c' !! id = pushed (f id) <$> c !! id) ->
  forall id, listening c' id <-> listening c id.
Proof.
  intros Hc id. unfold listening. rewrite Hc. destruct (c !! id) as [st|]; cbn; [|naive_solver].
  assert (receivers (sender (pushed (f id) st)) = receivers (sender st)) as Hr by (unfold pushed; by case_match).
  split; intros (? & [= <-] & ?); eexists; (split; [done|]); congruence.
Qed.

(** What a loop of deliveries does: every client in turn gets [f id]. *)
Definition delivers (f : Z -> list Value) (acc acc' : gmap Z ClientState * gset Z) : Prop :=
  (forall id, acc'.1 !! id = pushed (f id) <$> acc.1 !! id) /\
  (forall id, id ∈ acc'.2 <-> id ∈ acc.2 \/ (f id <> [] /\ listening acc.1 id)).

Lemma delivers_nil acc : delivers (fun _ => []) acc acc.
Proof. split; [|naive_solver]. intros id. destruct (acc.1 !! id) as [st|]; [|done]. cbn. by rewrite pushed_nil. Qed.

Lemma delivers_trans f g a b c : delivers f a b -> delivers g b c -> delivers (fun id => f id ++ g id) a c.
Proof.
  intros [H1 H2] [H3 H4]. split; intros id.
  - rewrite H3, H1. destruct (a.1 !! id) as [st|]; [|done]. cbn. by rewrite pushed_app.
  - rewrite H4, H2, (listening_pushed f a.1 b.1 H1). destruct (f id), (g id); naive_solver.
Qed.

Lemma delivers_ext f g a b : (forall id, f id = g id) -> delivers f a b -> delivers g a b.
Proof. intros Hfg [H1 H2]. split; intros id; by rewrite <- Hfg. Qed.

Lemma deliver_one msg acc id : delivers (fun i => if decide (i = id) then [msg] else []) acc (deliver msg acc id).
Proof.
  destruct acc as [c d]. unfold deliver. split; intros i; cbn [fst snd].
  - destruct (decide (i = id)) as [->|Hne].
    + destruct (c !! id) as [st|] eqn:E; [|cbn; by rewrite ?E]. cbn. unfold watch_send, pushed.
      destruct (receivers (sender st) =? 0)%nat; cbn; [by rewrite E|]. by rewrite lookup_insert_eq.
    + transitivity (c !! i); [|destruct (c !! i); [cbn; by rewrite pushed_nil|done]].
      destruct (c !! id) as [st|]; [|done]. unfold watch_send. destruct (receivers (sender st) =? 0)%nat; [done|]. cbn. by rewrite lookup_insert_ne.
  - unfold listening. destruct (decide (i = id)) as [->|Hne].
    + destruct (c !! id) as [st|] eqn:E; [|naive_solver]. unfold watch_send. destruct (Nat.eqb_spec (receivers (sender st)) 0); cbn.
      * naive_solver.
      * rewrite elem_of_union, elem_of_singleton. split; [|auto]. intros _. right. split; [done|]. by exists st.
    + destruct (c !! id) as [st|]; [|naive_solver]. unfold watch_send. destruct (receivers (sender st) =? 0)%nat; cbn; [naive_solver|]. set_solver.
Qed.

Lemma deliver_all msg ids : NoDup ids -> forall acc,
  delivers (fun i => if decide (i ∈ ids) then [msg] else []) acc (foldl (deliver msg) acc ids).
Proof.
  induction 1 as [|id ids Hid Hnd IH]; intros acc; cbn [foldl].
  - eapply delivers_ext; [|apply delivers_nil]. intros i. by rewrite decide_False by set_solver.
  - eapply delivers_ext; [|eapply delivers_trans; [apply deliver_one|apply IH]]. intros i. cbn.
    destruct (decide (i = id)) as [->|Hne].
    + by rewrite decide_False, decide_True by set_solver.
    + cbn. destruct (decide (i ∈ ids)); [by rewrite decide_True by set_solver|by rewrite decide_False by set_solver].
Qed.

(** The messages for one client: the exact one, then one for each pattern. *)
Definition messages (ps : PubSub) (order : list bytes) (channel content : bytes) (id : Z) : list Value :=
  (if decide (channel ∈ names_of Channel ps id) then [exact_message channel content] else []) ++
  ((fun p => pattern_message p channel content) <$> filter (fun p => p ∈ names_of Pattern ps id) order).

Section Histories.
Context (name_iter : gset bytes -> list bytes) (id_iter : gset Z -> list Z)
  (registry_iter : gmap bytes (gset Z) -> list (bytes * gset Z)).
Hypothesis name_iter_perm : forall s, name_iter s ≡ₚ elements s.
Hypothesis id_iter_perm : forall s, id_iter s ≡ₚ elements s.
Hypothesis registry_iter_perm : forall r, registry_iter r ≡ₚ map_to_list r.

Definition run_call (ps : PubSub) (c : call) : PubSub * Value :=
  match c with
  | CSubscribe t l id => subscribe_to t ps l id
  | CUnsubscribe t l id => unsubscribe_from t ps l id
  | CUnsubscribeAll t id => unsubscribe_all name_iter t ps id
  | CPublish channel content => publish id_iter registry_iter ps channel content
  | CDisconnect id => (remove_client ps id, value_ok)
  end.

Definition run_calls (ps : PubSub) (cs : list call) : PubSub := foldl (fun ps c => (run_call ps c).1) ps cs.

(** [c] does to the names what the specification says and keeps the views in step. *)
Definition call_ok (ps : PubSub) (c : call) : Prop :=
  let ps' := (run_call ps c).1 in
  PubSubInv ps' /\ forall t id, names_of t ps' id = spec_names (fun t id => names_of t ps id) c t id.

Lemma subscribe_ok ps t l id : PubSubInv ps -> call_ok ps (CSubscribe t l id).
Proof.
  intros Hps. unfold call_ok. cbn [run_call spec_names]. unfold subscribe_to.
  set (ps1 := get_or_create_client ps id). assert (forall t, registry t ps1 = registry t ps) as Hr1 by (by intros []).
  set (ps2 := set_registry t ps1 _).
  assert (exists st, clients ps2 !! id = Some st /\ forall t', names t' st = names_of t' ps id) as (st & Hst & Hnm).
  { unfold ps2. rewrite clients_set_registry. unfold ps1, get_or_create_client. cbn. rewrite lookup_insert_eq. eexists. split; [done|].
    intros t'. unfold names_of. destruct (clients ps !! id); by destruct t'. }
  rewrite Hst. pose proof (confirm_names t false l st) as Hc. destruct (confirm t false st l) as [st' fs]. destruct Hc as (Hc1 & Hc2 & _).
  cbn [fst] in *.
  assert (forall t' id', names_of t' (with_clients ps2 (<[id:=st']> (clients ps2))) id' =
    if decide (t' = t /\ id' = id) then list_to_set l ∪ names_of t ps id else names_of t' ps id') as Hn.
  { intros t' id'. rewrite names_of_insert. destruct (decide (id' = id)) as [->|Hid].
    - destruct (decide (t' = t)) as [->|Ht]; [rewrite decide_True by done; by rewrite Hc1, Hnm|].
      rewrite decide_False by naive_solver. by rewrite Hc2, Hnm.
    - rewrite decide_False by naive_solver. rewrite <- (create_names t' ps id id'). fold ps1. unfold ps2. by rewrite clients_set_registry. }
  split; [|intros t' id'; rewrite Hn; case_decide as E; [destruct E as [-> ->]|]; done].
  apply (change_inv t id ps _ (fun s => list_to_set l ∪ s)); [done|..|done].
  - intros id' name. rewrite registry_with_clients. unfold ps2. rewrite registry_set_eq, insert_all_member, Hr1.
    case_decide as E; [subst|naive_solver]. rewrite elem_of_union, elem_of_list_to_set, <- (inv_agree ps Hps). naive_solver.
  - rewrite registry_with_clients. unfold ps2. rewrite registry_set_eq, Hr1. apply foldl_wf; [apply registry_insert_wf|apply Hps].
  - intros t' Ht. rewrite registry_with_clients. unfold ps2. by rewrite registry_set_ne, Hr1.
Qed.

(** The common part of the two ways to unsubscribe. *)
Lemma unsubscribe_state (ps : PubSub) t l id (ps' : PubSub) : PubSubInv ps ->
  (forall t', registry t' ps' = registry t' (set_registry t ps (foldl (registry_remove id) (registry t ps) l))) ->
  (forall t' id', names_of t' ps' id' = if decide (t' = t /\ id' = id) then names_of t ps id ∖ list_to_set l else names_of t' ps id') ->
  PubSubInv ps'.
Proof.
  intros Hps Hr Hn. apply (change_inv t id ps _ (fun s => s ∖ list_to_set l)); [done|..|done].
  - intros id' name. rewrite Hr, registry_set_eq, remove_all_member. case_decide as E; [subst|naive_solver].
    rewrite elem_of_difference, elem_of_list_to_set, (inv_agree ps Hps). naive_solver.
  - rewrite Hr, registry_set_eq. apply foldl_wf; [apply registry_remove_wf|apply Hps].
  - intros t' Ht. by rewrite Hr, registry_set_ne.
Qed.

Lemma unsubscribe_names ps t l id st : clients ps !! id = Some st ->
  let ps1 := set_registry t ps (foldl (registry_remove id) (registry t ps) l) in
  forall t' id',
    names_of t' (with_clients ps1 (cleanup_client_if_empty (<[id := (confirm t true st l).1]> (clients ps1)) id)) id' =
    if decide (t' = t /\ id' = id) then names_of t ps id ∖ list_to_set l else names_of t' ps id'.
Proof.
  intros Hst ps1 t' id'. rewrite names_of_cleanup, names_of_insert. destruct (confirm_names t true l st) as (Hc1 & Hc2 & _).
  assert (forall t', names_of t' ps id = names t' st) as Hnm by (intros ?; unfold names_of; by rewrite Hst).
  destruct (decide (id' = id)) as [->|Hid].
  - destruct (decide (t' = t)) as [->|Ht]; [rewrite decide_True by done; by rewrite Hc1, Hnm|].
    rewrite decide_False by naive_solver. by rewrite Hc2, Hnm.
  - rewrite decide_False by naive_solver. unfold ps1. by rewrite clients_set_registry.
Qed.

Lemma unsubscribe_absent ps t l id : PubSubInv ps -> clients ps !! id = None ->
  let ps1 := set_registry t ps (foldl (registry_remove id) (registry t ps) l) in
  PubSubInv ps1 /\ forall t' id', names_of t' ps1 id' = names_of t' ps id'.
Proof.
  intros Hps Hst ps1.
  assert (forall t' id', names_of t' ps1 id' = names_of t' ps id') as Hn by (intros; unfold names_of, ps1; by rewrite clients_set_registry).
  split; [|done]. apply (unsubscribe_state ps t l id); [done|done|]. intros t' id'. rewrite Hn. case_decide as E; [destruct E as [-> ->]|done].
  unfold names_of. rewrite Hst. cbn. set_solver.
Qed.

Lemma unsubscribe_ok ps t l id : PubSubInv ps -> call_ok ps (CUnsubscribe t l id).
Proof.
  intros Hps. unfold call_ok. cbn [run_call spec_names]. unfold unsubscribe_from. rewrite clients_set_registry.
  destruct (clients ps !! id) as [st|] eqn:Hst.
  - pose proof (unsubscribe_names ps t l id st Hst) as Hn. cbv zeta in Hn. rewrite clients_set_registry in Hn.
    destruct (confirm t true st l) as [st' fs]. cbn [fst] in *.
    split; [|intros t' id'; rewrite Hn; case_decide as E; [destruct E as [-> ->]|]; done].
    apply (unsubscribe_state ps t l id); [done| |done]. intros t'. apply registry_with_clients.
  - destruct (unsubscribe_absent ps t l id Hps Hst) as [Hi Hn]. split; [done|]. intros t' id'. cbn [fst]. rewrite Hn. case_decide as E; [|done].
    destruct E as [-> ->]. unfold names_of. rewrite Hst. cbn. set_solver.
Qed.

Lemma unsubscribe_all_ok ps t id : PubSubInv ps -> call_ok ps (CUnsubscribeAll t id).
Proof.
  intros Hps. unfold call_ok. cbn [run_call spec_names]. unfold unsubscribe_all. rewrite clients_set_registry.
  destruct (clients ps !! id) as [st|] eqn:Hst; cbn [fmap option_fmap option_map default from_option Datatypes.id].
  - set (l := name_iter (names t st)). assert (list_to_set l = names_of t ps id) as Hl.
    { unfold l, names_of. rewrite Hst, name_iter_perm. cbn. by rewrite list_to_set_elements_L. }
    pose proof (unsubscribe_names ps t l id st Hst) as Hn. cbv zeta in Hn. rewrite clients_set_registry in Hn.
    destruct (confirm t true st l) as [st' fs]. cbv zeta. cbn [fst] in *.
    split; [|intros t' id'; rewrite Hn, Hl; case_decide; [set_solver|done]].
    apply (unsubscribe_state ps t l id); [done| |done]. intros t'. apply registry_with_clients.
  - destruct (unsubscribe_absent ps t [] id Hps Hst) as [Hi Hn]. split; [done|]. intros t' id'. cbn [fst] in *. rewrite Hn. case_decide as E; [|done].
    destruct E as [-> ->]. unfold names_of. by rewrite Hst.
Qed.

Lemma disconnect_ok ps id : PubSubInv ps -> call_ok ps (CDisconnect id).
Proof.
  intros Hps. unfold call_ok. cbn [run_call spec_names fst].
  assert (forall t id', names_of t (remove_client ps id) id' = if decide (id' = id) then ∅ else names_of t ps id') as Hn.
  { intros t id'. unfold names_of, remove_client. cbn. case_decide as E; [subst; by rewrite lookup_delete_eq|by rewrite lookup_delete_ne]. }
  split; [|done]. constructor.
  - intros t id' name. rewrite Hn. transitivity (member (registry t ps) id' name /\ id' <> id); [destruct t; apply registry_drop_member|].
    rewrite (inv_agree ps Hps). case_decide; set_solver.
  - intros []; apply registry_drop_wf.
Qed.

Lemma publish_spec ps channel content : PubSubInv ps ->
  let order := filter (fun p => matches_pattern channel p = true) (registry_iter (patterns ps)).*1 in
  exists d, (publish id_iter registry_iter ps channel content).2 = Integer (Z.of_nat (size d)) /\
    delivers (messages ps order channel content) (clients ps, ∅) (clients (publish id_iter registry_iter ps channel content).1, d).
Proof using id_iter_perm registry_iter_perm.
  clear name_iter name_iter_perm. intros Hps order. unfold publish. set (acc := foldl _ (clients ps, ∅) _). set (targets := filter _ (registry_iter (patterns ps))).
  assert (order = targets.*1) as Ho.
  { unfold order, targets. clear. induction (registry_iter (patterns ps)) as [|[p s] l IH]; [done|].
    rewrite fmap_cons, !filter_cons. cbn [fst]. case_decide; cbn; by rewrite IH. }
  assert (Forall (fun p : bytes * gset Z => forall id, id ∈ p.2 <-> p.1 ∈ names_of Pattern ps id) targets) as Ht.
  { apply Forall_forall. intros [p s] Hin id. cbn. apply list_elem_of_filter in Hin as [_ Hin]. rewrite registry_iter_perm, elem_of_map_to_list in Hin.
    rewrite <- (inv_agree ps Hps Pattern id p). unfold member. cbn. rewrite Hin. naive_solver. }
  assert (forall acc, delivers (fun id => (fun p => pattern_message p channel content) <$> filter (fun p => p ∈ names_of Pattern ps id) targets.*1) acc
    (foldl (fun acc (p : bytes * gset Z) => foldl (deliver (pattern_message p.1 channel content)) acc (id_iter p.2)) acc targets)) as Hpat.
  { clear acc Ho order. induction Ht as [|[p s] l Hp _ IH]; intros acc; cbn [foldl]; [eapply delivers_ext, delivers_nil; done|].
    eapply delivers_ext; [|eapply delivers_trans; [|apply IH]]; [|apply deliver_all; rewrite id_iter_perm; apply NoDup_elements].
    intros id. rewrite fmap_cons, filter_cons. cbn [fst snd] in *.
    assert (id ∈ id_iter s <-> p ∈ names_of Pattern ps id) as Hiff by (rewrite id_iter_perm, elem_of_elements; apply Hp).
    destruct (decide (p ∈ names_of Pattern ps id)); [rewrite decide_True by tauto|rewrite decide_False by tauto]; done. }
  specialize (Hpat acc). destruct (foldl _ acc targets) as [c d]. exists d. split; [done|]. cbn [fst].
  eapply delivers_ext; [|eapply delivers_trans; [|exact Hpat]].
  2: { unfold acc. apply deliver_all. rewrite id_iter_perm. apply NoDup_elements. }
  intros id. unfold messages. rewrite Ho. f_equal.
  assert (id ∈ id_iter (default ∅ (subs ps !! channel)) <-> channel ∈ names_of Channel ps id) as Hiff.
  { rewrite id_iter_perm, elem_of_elements, <- (inv_agree ps Hps Channel). unfold member. cbn.
    destruct (subs ps !! channel) as [s|]; cbn; [naive_solver|]. split; [set_solver|naive_solver]. }
  destruct (decide (channel ∈ names_of Channel ps id)); [rewrite decide_True by tauto|rewrite decide_False by tauto]; done.
Qed.

Lemma publish_ok ps channel content : PubSubInv ps -> call_ok ps (CPublish channel content).
Proof.
  intros Hps. unfold call_ok. cbn [run_call spec_names]. destruct (publish_spec ps channel content Hps) as (d & _ & Hc & _). cbn [fst snd] in Hc.
  set (ps' := (publish id_iter registry_iter ps channel content).1) in *.
  assert (forall t id, names_of t ps' id = names_of t ps id) as Hn.
  { intros t id. unfold names_of. rewrite Hc. destruct (clients ps !! id); [|done]. cbn. apply pushed_names. }
  split; [|done].
  assert (forall t, registry t ps' = registry t ps) as Hr.
  { intros t. unfold ps', publish. destruct (foldl _ _ _) as [c d']. by destruct t. }
  constructor.
  - intros t id name. rewrite Hr, Hn. apply Hps.
  - intros t. rewrite Hr. apply Hps.
Qed.

Lemma run_call_ok ps c : PubSubInv ps -> call_ok ps c.
Proof.
  destruct c; intros; [by apply subscribe_ok|by apply unsubscribe_ok|by apply unsubscribe_all_ok|by apply publish_ok|by apply disconnect_ok].
Qed.

Lemma spec_names_ext f g c : (forall t id, f t id = g t id) -> forall t id, spec_names f c t id = spec_names g c t id.
Proof. intros H t id. destruct c; cbn; repeat case_decide; by rewrite ?H. Qed.

Lemma run_calls_ok cs : forall ps f, PubSubInv ps -> (forall t id, names_of t ps id = f t id) ->
  PubSubInv (run_calls ps cs) /\ forall t id, names_of t (run_calls ps cs) id = foldl spec_names f cs t id.
Proof.
  induction cs as [|c cs IH]; intros ps f Hps Hf; [done|]. unfold run_calls. cbn [foldl].
  destruct (run_call_ok ps c Hps) as [Hps' Hn]. apply IH; [done|]. intros t id. rewrite Hn. by apply spec_names_ext.
Qed.
End Histories.

Lemma pubsub_new_inv : PubSubInv pubsub_new.
Proof. constructor; [|by intros []]. intros [] id name; split; [intros (? & ? & ?)| |intros (? & ? & ?)|]; set_solver. Qed.

(** C26: the subscription tables are right after every history of subscribing,
    unsubscribing, publishing and disconnecting: a client's own sets hold
    exactly the channels and patterns its calls left it with; a channel's or
    pattern's set of clients holds exactly the clients that have it; and no
    name is kept without a subscriber. The iteration orders of the hash tables
    do not matter. *)
Theorem pubsub_history_consistent name_iter id_iter registry_iter cs :
  (forall s, name_iter s ≡ₚ elements s) -> (forall s, id_iter s ≡ₚ elements s) ->
  (forall r, registry_iter r ≡ₚ map_to_list r) ->
  let ps := run_calls name_iter id_iter registry_iter pubsub_new cs in
  (forall t id, names_of t ps id = spec_history cs t id) /\
  (forall t id name, member (registry t ps) id name <-> name ∈ spec_history cs t id) /\
  (forall t name set, registry t ps !! name = Some set -> set <> ∅).
Proof.
  intros H1 H2 H3 ps. destruct (run_calls_ok name_iter id_iter registry_iter H1 H2 H3 cs pubsub_new (fun _ _ => ∅) pubsub_new_inv)
    as [Hi Hn]; [done|]. subst ps. split_and!; [done| |].
  - intros t id name. rewrite (inv_agree _ Hi). by rewrite Hn.
  - intros t. apply (inv_wf _ Hi t).
Qed.

(** C27: PUBLISH reaches exactly the subscribers. Every client that listens gets
    the message once if it is subscribed to the channel, followed by one message
    for each of its patterns that match; nobody else gets anything; and the
    reply is the number of clients reached. *)
Theorem publish_delivers id_iter registry_iter ps channel content :
  (forall s, id_iter s ≡ₚ elements s) -> (forall r, registry_iter r ≡ₚ map_to_list r) -> PubSubInv ps ->
  exists (order : list bytes) (d : gset Z), order ≡ₚ filter (fun p => matches_pattern channel p = true) (map_to_list (patterns ps)).*1 /\
    let '(ps', reply) := publish id_iter registry_iter ps channel content in
    (forall id, clients ps' !! id = pushed (messages ps order channel content id) <$> clients ps !! id) /\
    reply = Integer (Z.of_nat (size d)) /\
    forall id, id ∈ d <-> listening (clients ps) id /\
      (channel ∈ names_of Channel ps id \/ exists p, p ∈ names_of Pattern ps id /\ matches_pattern channel p = true).
Proof.
  intros H2 H3 Hps. destruct (publish_spec id_iter registry_iter H2 H3 ps channel content Hps) as (d & Hr & Hc & Hd).
  set (order := filter _ _) in *. exists order, d.
  assert (order ≡ₚ filter (fun p => matches_pattern channel p = true) (map_to_list (patterns ps)).*1) as Ho by (unfold order; by rewrite H3).
  split; [done|]. destruct (publish id_iter registry_iter ps channel content) as [ps' reply]. cbn [fst snd] in *. split_and!; [done..|].
  intros id. rewrite Hd. unfold messages. split.
  - intros [?|[Hm Hl]]; [set_solver|]. split; [done|]. case_decide as Hch; [by left|]. right. cbn in Hm.
    destruct (filter (fun p => p ∈ names_of Pattern ps id) order) as [|p l] eqn:E; [done|]. exists p.
    assert (p ∈ filter (fun p => p ∈ names_of Pattern ps id) order) as Hin by (rewrite E; set_solver).
    apply list_elem_of_filter in Hin as [? Hin]. rewrite Ho in Hin. by apply list_elem_of_filter in Hin as [? _].
  - intros [Hl Hor]. right. split; [|done]. destruct Hor as [Hch|(p & Hp & Hm)]; [by rewrite decide_True|].
    assert (p ∈ filter (fun p => p ∈ names_of Pattern ps id) order) as Hin.
    { apply list_elem_of_filter. split; [done|]. rewrite Ho. apply list_elem_of_filter. split; [done|].
      apply (inv_agree ps Hps Pattern) in Hp as (s & Hs & _). apply list_elem_of_fmap. exists (p, s). split; [done|]. by apply elem_of_map_to_list. }
    destruct (filter _ order); [set_solver|]. by destruct (decide _).
Qed.

(** ** Patterns *)

Inductive pattern_denotes : bytes -> bytes -> Prop :=
| pd_nil : pattern_denotes [] []
| pd_star p a b : pattern_denotes p b -> pattern_denotes (x2a :: p) (a ++ b)
| pd_any p x b : pattern_denotes p b -> pattern_denotes (x3f :: p) (x :: b)
| pd_byte p c b : c <> x2a -> c <> x3f -> pattern_denotes p b -> pattern_denotes (c :: p) (c :: b).

Lemma in_suffixes l s : In s (suffixes l) <-> exists a, l = a ++ s.
Proof.
  revert s. induction l as [|x l IH]; intros s; cbn.
  - split; [intros [<-|[]]; by exists []|]. intros (a & Ha). destruct a; [|done]. by left.
  - rewrite IH. split.
    + intros [<-|(a & ->)]; [by exists []|by exists (x :: a)].
    + intros ([|y a] & Ha); [by left|]. right. exists a. by injection Ha.
Qed.

(** The matcher decides the language of the pattern. *)
Lemma matches_pattern_denotes p : forall s, matches_pattern s p = true <-> pattern_denotes p s.
Proof.
  induction p as [|c p IH]; intros s; cbn [matches_pattern].
  - rewrite bool_decide_eq_true. split; [intros ->; constructor|by inversion 1].
  - destruct (Byte.eqb c x2a) eqn:E1; [apply Byte.byte_dec_bl in E1 as ->|].
    { rewrite existsb_exists. setoid_rewrite in_suffixes. split.
      - intros (b & (a & ->) & Hb). constructor. by apply IH.
      - inversion 1; subst; [|done]. eexists. split; [by eexists|]. by apply IH. }
    assert (c <> x2a) as N1 by (intros ->; done).
    destruct (Byte.eqb c x3f) eqn:E2; [apply Byte.byte_dec_bl in E2 as ->|].
    { destruct s as [|x s]; [split; [done|inversion 1; done]|]. rewrite IH. split; [by constructor|]. by inversion 1. }
    assert (c <> x3f) as N2 by (intros ->; done).
    destruct s as [|x s]; [split; [done|inversion 1; done]|]. destruct (Byte.eqb x c) eqn:E3.
    + apply Byte.byte_dec_bl in E3 as ->. rewrite IH. split; [by constructor|]. by inversion 1.
    + split; [done|]. inversion 1; subst; try done. by rewrite (Byte.byte_dec_lb eq_refl) in E3.
Qed.

(** ** Witnesses, and a lost message *)

Definition sample_calls : list call :=
  [CSubscribe Channel [str "news"; str "sport"] 1; CSubscribe Pattern [str "n*"] 1; CSubscribe Pattern [str "n?ws"] 2;
   CUnsubscribe Channel [str "sport"] 1; CPublish (str "news") (str "hi"); CDisconnect 3].

Definition sample_pubsub : PubSub := run_calls elements elements map_to_list pubsub_new sample_calls.

Lemma pubsub_history_consistent_witness :
  names_of Channel sample_pubsub 1 = {[str "news"]} /\ member (patterns sample_pubsub) 2 (str "n?ws").
Proof.
  destruct (pubsub_history_consistent elements elements map_to_list sample_calls) as (H1 & H2 & _); [done..|]. split.
  - unfold sample_pubsub. rewrite H1. vm_compute. reflexivity.
  - apply (H2 Pattern 2 (str "n?ws")). apply (bool_decide_unpack (str "n?ws" ∈ spec_history sample_calls Pattern 2)). vm_compute. exact I.
Defined.

Lemma publish_delivers_witness : exists ps' n, publish elements map_to_list sample_pubsub (str "news") (str "hi") = (ps', Integer n).
Proof.
  destruct (publish_delivers elements map_to_list sample_pubsub (str "news") (str "hi")) as (order & d & _ & H); [done..| |].
  - apply (run_calls_ok elements elements map_to_list ltac:(done) ltac:(done) ltac:(done) sample_calls pubsub_new (fun _ _ => ∅) pubsub_new_inv).
    done.
  - destruct (publish elements map_to_list sample_pubsub (str "news") (str "hi")) as [ps' reply]. destruct H as (_ & -> & _).
    by eexists _, _.
Defined.

(** A message can be lost. A client subscribed to a channel and to a
    pattern that matches it is sent two messages by one PUBLISH and is counted
    as reached, but the watch channel keeps the last one only: the client, when
    it looks, sees the pattern message and never the exact one. *)
Theorem publish_overwrites_message :
  let ps := (subscribe_to Pattern (subscribe_to Channel pubsub_new [str "news"] 1).1 [str "n*"] 1).1 in
  let '(ps', reply) := publish elements map_to_list ps (str "news") (str "hi") in
  reply = Integer 1 /\
  match clients ps' !! 1 with
  | Some st =>
      sent (sender st) = [Some (exact_message (str "news") (str "hi")); Some (pattern_message (str "n*") (str "news") (str "hi"))] /\
      watch_poll (sender st) 0 = Some (Some (pattern_message (str "n*") (str "news") (str "hi")), 2%nat) /\
      watch_poll (sender st) 2 = None
  | None => False
  end.
Proof. vm_compute. split_and!; reflexivity. Qed.
