(* ===== verification/Rpc.v ===== *)
(** * Rpc: the connection two nodes talk over.

    Models src/cache_cat/src/raft/network/client.rs (the slot table, the calls,
    the tasks that write and read the socket, and the pool of connections),
    [rpc_mode] and [hand] of src/cache_cat/src/raft/network/rpc.rs, and the
    table of src/cache_cat/src/raft/network/external_handler.rs.

    Many calls share a connection. A call takes the next request id, claims the
    slot its low bits name, and waits there for the answer with its id. The
    state below has every such call at its next atomic action (an atomic
    load, store or swap, or a lock taken and released), and the step function
    runs one action of one task, so its runs are the interleavings. The length
    codec of tokio-util delivers frames whole and in order: a socket is the list
    of the frames in it. *)

From S2P Require Import Prelude Text.

(** ** Frames *)

Definition MAX_FRAME_LENGTH : Z := 256 * 1024 * 1024.

(** The longest frame the codec takes. *)
Definition fits_frame (f : bytes) : bool := Z.of_nat (length f) <=? MAX_FRAME_LENGTH.

Definition put_u32 (z : Z) : bytes := be 4 z.
Definition get_u32 (b : bytes) : Z := from_be (take 4 b).

(** ** The server's side *)

Inductive Method :=
| PrintTest | RpcWrite | RpcRead | RpcVote | AppendEntries | InstallFullSnapshot
| AddNode | BatchWrite | RpcPublish | SetNodesState.

Definition HANDLER_TABLE : list (Z * Method) :=
  [(1, PrintTest); (2, RpcWrite); (3, RpcRead); (6, RpcVote); (7, AppendEntries); (8, InstallFullSnapshot);
   (9, AddNode); (10, BatchWrite); (11, RpcPublish); (12, SetNodesState)].

Definition handler_of (func_id : Z) : option Method :=
  snd <$> List.find (fun e : Z * Method => e.1 =? func_id) HANDLER_TABLE.

(** [hand]: what it returns and the payload it sends, if any. [internal_call]
    is the handler's answer, [open] whether the writing task still listens. *)
Definition hand (internal_call : Method -> bytes -> result bytes bytes) (open : bool) (package : bytes)
    : result unit bytes * option bytes :=
  if Z.of_nat (length package) <? 8 then (Err (str "Insufficient package length"), None)
  else
    let request_id := get_u32 package in
    let func_id := get_u32 (drop 4 package) in
    match handler_of func_id with
    | None => (Err (str "Handler not found"), None)
    | Some handler =>
        match internal_call handler (drop 8 package) with
        | Err e => (Err e, None)
        | Ok response_data =>
            if open then (Ok tt, Some (put_u32 request_id ++ response_data))
            else (Err (str "Write task has ended"), None)
        end
    end.

(** ** The client's side *)

Definition MAX_PENDING : nat := Z.to_nat 65536.
Definition INDEX_MASK : Z := 65536 - 1.
Definition CHANNEL_SIZE : nat := Z.to_nat 4096.

(** [waker] is the call that is to be polled again. *)
Record Slot := mkSlot {
  slot_data : option bytes;
  slot_error : option bytes;
  slot_waker : option nat;
  occupied : bool;
  generation : Z
}.

Definition slot_default : Slot := mkSlot None None None false 0.
Definition slot_table_new : list Slot := replicate MAX_PENDING slot_default.

Definition set_slot_data (d : option bytes) (s : Slot) : Slot :=
  mkSlot d (slot_error s) (slot_waker s) (occupied s) (generation s).
Definition set_slot_error (e : option bytes) (s : Slot) : Slot :=
  mkSlot (slot_data s) e (slot_waker s) (occupied s) (generation s).
Definition set_slot_waker (w : option nat) (s : Slot) : Slot :=
  mkSlot (slot_data s) (slot_error s) w (occupied s) (generation s).
Definition set_occupied (o : bool) (s : Slot) : Slot :=
  mkSlot (slot_data s) (slot_error s) (slot_waker s) o (generation s).
Definition set_generation (g : Z) (s : Slot) : Slot :=
  mkSlot (slot_data s) (slot_error s) (slot_waker s) (occupied s) g.

Definition slot_index (request_id : Z) : nat := Z.to_nat (Z.land request_id INDEX_MASK).

(** The answer to a call: the bytes of the response, or the text of a network
    error. *)
Abbreviation Answer := (result bytes bytes).

(** The next action of a call of [call_serialized] and of the future it awaits;
    [again] tells the second check of [poll], after the waker is registered,
    from the first. *)
Inductive Pc :=
| Claim | StoreGeneration | ClearData | ClearError | Send
| PollData (again : bool) | PollError (again : bool) | RegisterWaker | Suspended
| Dropping (r : Answer) | Done (r : Answer) | Cancelled.

Record Call := mkCall {
  call_id : Z;
  call_func : Z;
  call_body : bytes;
  call_pc : Pc;
  notified : bool
}.

Definition set_pc (p : Pc) (c : Call) : Call := mkCall (call_id c) (call_func c) (call_body c) p (notified c).
Definition set_notified (n : bool) (c : Call) : Call := mkCall (call_id c) (call_func c) (call_body c) (call_pc c) n.

Definition request_frame (c : Call) : bytes := put_u32 (call_id c) ++ put_u32 (call_func c) ++ call_body c.

(** [fail_all_pending] visits the slots in order; at each, the swap, the two
    stores and the wake are separate actions. *)
Inductive Sweep := SweepSwap (i : nat) | SweepData (i : nat) | SweepError (i : nat) | SweepWake (i : nat).

Inductive WriterTask := WriterRunning | WriterSweep (s : Sweep) | WriterEnded.

(** The reading task, with the response it has in hand. *)
Inductive ReaderTask :=
| Listening | ResetError (request_id : Z) (body : bytes) | WriteData (request_id : Z) (body : bytes)
| WakeCall (request_id : Z) | ReaderSweep (s : Sweep) | ReaderEnded.

(** A connection with its two ends. [wire_out] and [wire_in] are the frames in
    the socket, [tasks] the packages the server has spawned a task for,
    [replies] its channel to the writing task. [served] and [refused] record
    what became of each package. *)
Record Rpc := mkRpc {
  slots : list Slot;
  next_request_id : Z;
  calls : list Call;
  tx_writer : list bytes;
  writer : WriterTask;
  reader : ReaderTask;
  wire_out : list bytes;
  tasks : list bytes;
  replies : list bytes;
  server_open : bool;
  wire_in : list bytes;
  served : list (bytes * bytes);
  refused : list bytes
}.

Definition rpc_new : Rpc := mkRpc slot_table_new 1 [] [] WriterRunning Listening [] [] [] true [] [] [].

Definition with_table (st : Rpc) (sl : list Slot) (cs : list Call) : Rpc :=
  mkRpc sl (next_request_id st) cs (tx_writer st) (writer st) (reader st) (wire_out st) (tasks st) (replies st)
    (server_open st) (wire_in st) (served st) (refused st).
Definition with_tx_writer (st : Rpc) (q : list bytes) : Rpc :=
  mkRpc (slots st) (next_request_id st) (calls st) q (writer st) (reader st) (wire_out st) (tasks st) (replies st)
    (server_open st) (wire_in st) (served st) (refused st).
Definition with_writer (st : Rpc) (q : list bytes) (w : WriterTask) (out : list bytes) : Rpc :=
  mkRpc (slots st) (next_request_id st) (calls st) q w (reader st) out (tasks st) (replies st)
    (server_open st) (wire_in st) (served st) (refused st).
Definition with_reader (st : Rpc) (r : ReaderTask) (inp : list bytes) : Rpc :=
  mkRpc (slots st) (next_request_id st) (calls st) (tx_writer st) (writer st) r (wire_out st) (tasks st) (replies st)
    (server_open st) inp (served st) (refused st).
Definition with_server (st : Rpc) (out ts rs : list bytes) (o : bool) (inp : list bytes) : Rpc :=
  mkRpc (slots st) (next_request_id st) (calls st) (tx_writer st) (writer st) (reader st) out ts rs
    o inp (served st) (refused st).
Definition with_record (st : Rpc) (sv : list (bytes * bytes)) (rf : list bytes) : Rpc :=
  mkRpc (slots st) (next_request_id st) (calls st) (tx_writer st) (writer st) (reader st) (wire_out st) (tasks st)
    (replies st) (server_open st) (wire_in st) sv rf.

(** ** Calls *)

(** [fetch_add] of [call_serialized]. *)
Definition begin_call (st : Rpc) (func_id : Z) (body : bytes) : Rpc :=
  let request_id := next_request_id st in
  mkRpc (slots st) (wrap_u32 (request_id + 1)) (calls st ++ [mkCall request_id func_id body Claim false])
    (tx_writer st) (writer st) (reader st) (wire_out st) (tasks st) (replies st)
    (server_open st) (wire_in st) (served st) (refused st).

Definition too_many_requests : bytes := str "too many requests".
Definition channel_closed : bytes := str "channel closed".

(** The next action of call [k], which is [c], on its slot [s]: the call, the
    slot and what it sends. [None] while it has to wait. *)
Definition call_action (k : nat) (c : Call) (s : Slot) (open : bool) (room : bool) : option (Call * Slot * list bytes) :=
  match call_pc c with
  | Claim =>
      if occupied s then Some (set_pc (Done (Err too_many_requests)) c, s, [])
      else Some (set_pc StoreGeneration c, set_occupied true s, [])
  | StoreGeneration => Some (set_pc ClearData c, set_generation (call_id c) s, [])
  | ClearData => Some (set_pc ClearError c, set_slot_data None s, [])
  | ClearError => Some (set_pc Send c, set_slot_error None s, [])
  | Send =>
      if open then if room then Some (set_pc (PollData false) c, s, [request_frame c]) else None
      else Some (set_pc (Done (Err channel_closed)) c, set_occupied false s, [])
  | PollData again =>
      match slot_data s with
      | Some data => Some (set_pc (Dropping (Ok data)) c, set_slot_data None s, [])
      | None => Some (set_pc (PollError again) c, s, [])
      end
  | PollError again =>
      match slot_error s with
      | Some err => Some (set_pc (Dropping (Err err)) c, set_slot_error None s, [])
      | None => Some (set_pc (if again then Suspended else RegisterWaker) c, s, [])
      end
  | RegisterWaker => Some (set_pc (PollData true) c, set_slot_waker (Some k) s, [])
  | Suspended => if notified c then Some (set_notified false (set_pc (PollData false) c), s, []) else None
  | Dropping r => Some (set_pc (Done r) c, set_occupied false s, [])
  | Done _ | Cancelled => None
  end.

Definition writer_ended (st : Rpc) : bool := match writer st with WriterEnded => true | _ => false end.

Definition has_room (st : Rpc) : bool := (length (tx_writer st) <? CHANNEL_SIZE)%nat.

Definition call_step (st : Rpc) (k : nat) : option Rpc :=
  let* c := calls st !! k in
  let i := slot_index (call_id c) in
  let* s := slots st !! i in
  let* a := call_action k c s (negb (writer_ended st)) (has_room st) in
  let '(c', s', sent) := a in
  Some (with_tx_writer (with_table st (<[i := s']> (slots st)) (<[k := c']> (calls st))) (tx_writer st ++ sent)).

(** A timeout drops the call at an await point: while the channel is full, or
    while it waits for the response. Only the second has a [ResponseFuture],
    whose drop frees the slot. *)
Definition cancel (st : Rpc) (k : nat) : option Rpc :=
  let* c := calls st !! k in
  let i := slot_index (call_id c) in
  match call_pc c with
  | Send => if has_room st then None else Some (with_table st (slots st) (<[k := set_pc Cancelled c]> (calls st)))
  | Suspended => Some (with_table st (alter (set_occupied false) i (slots st)) (<[k := set_pc Cancelled c]> (calls st)))
  | _ => None
  end.

(** ** The tasks of the connection *)

(** [AtomicWaker::wake]: the registered call is to be polled once more. *)
Definition wake (st : Rpc) (i : nat) : Rpc :=
  match slots st !! i with
  | Some s =>
      match slot_waker s with
      | Some k => with_table st (<[i := set_slot_waker None s]> (slots st)) (alter (set_notified true) k (calls st))
      | None => st
      end
  | None => st
  end.

(** One action of [fail_all_pending]; [None] once every slot is visited. *)
Definition sweep_step (st : Rpc) (reason : bytes) (sw : Sweep) : Rpc * option Sweep :=
  match sw with
  | SweepSwap i =>
      match slots st !! i with
      | None => (st, None)
      | Some s =>
          if occupied s then (with_table st (<[i := set_occupied false s]> (slots st)) (calls st), Some (SweepData i))
          else (st, Some (SweepSwap (S i)))
      end
  | SweepData i => (with_table st (alter (set_slot_data None) i (slots st)) (calls st), Some (SweepError i))
  | SweepError i => (with_table st (alter (set_slot_error (Some reason)) i (slots st)) (calls st), Some (SweepWake i))
  | SweepWake i => (wake st i, Some (SweepSwap (S i)))
  end.

(** The writing task; [sent] is whether the socket takes the frame. Its end of
    the channel is dropped when it returns, with the frames still in it. *)
Definition writer_step (st : Rpc) (sent : bool) : option Rpc :=
  match writer st with
  | WriterRunning =>
      match tx_writer st with
      | [] => None
      | req :: q =>
          Some (if sent && fits_frame req then with_writer st q WriterRunning (wire_out st ++ [req])
                else with_writer st q (WriterSweep (SweepSwap 0)) (wire_out st))
      end
  | WriterSweep sw =>
      Some (match sweep_step st (str "connection closed while writing") sw with
            | (st', Some sw') => with_writer st' (tx_writer st') (WriterSweep sw') (wire_out st')
            | (st', None) => with_writer st' [] WriterEnded (wire_out st')
            end)
  | WriterEnded => None
  end.

(** The reading task. *)
Definition reader_step (st : Rpc) : option Rpc :=
  match reader st with
  | Listening =>
      match wire_in st with
      | [] => None
      | frame :: inp =>
          Some (if (length frame <? 4)%nat then with_reader st Listening inp
                else
                  let request_id := get_u32 frame in
                  match slots st !! slot_index request_id with
                  | Some s =>
                      if generation s =? request_id then with_reader st (ResetError request_id (drop 4 frame)) inp
                      else with_reader st Listening inp
                  | None => with_reader st Listening inp
                  end)
      end
  | ResetError r body =>
      Some (with_reader (with_table st (alter (set_slot_error None) (slot_index r) (slots st)) (calls st))
              (WriteData r body) (wire_in st))
  | WriteData r body =>
      Some (with_reader (with_table st (alter (set_slot_data (Some body)) (slot_index r) (slots st)) (calls st))
              (WakeCall r) (wire_in st))
  | WakeCall r => let st' := wake st (slot_index r) in Some (with_reader st' Listening (wire_in st'))
  | ReaderSweep sw =>
      Some (match sweep_step st (str "connection closed while reading") sw with
            | (st', Some sw') => with_reader st' (ReaderSweep sw') (wire_in st')
            | (st', None) => with_reader st' ReaderEnded (wire_in st')
            end)
  | ReaderEnded => None
  end.

(** The stream ends or fails. *)
Definition reader_close (st : Rpc) : option Rpc :=
  match reader st with
  | Listening => Some (with_reader st (ReaderSweep (SweepSwap 0)) (wire_in st))
  | _ => None
  end.

(** ** The tasks of the server *)

Definition server_read (st : Rpc) : option Rpc :=
  match wire_out st with
  | [] => None
  | f :: out => Some (with_server st out (tasks st ++ [f]) (replies st) (server_open st) (wire_in st))
  end.

(** Task [j] ends, its handler having answered [answer]. *)
Definition server_hand (st : Rpc) (j : nat) (answer : result bytes bytes) : option Rpc :=
  let* package := tasks st !! j in
  let ts := delete j (tasks st) in
  Some (match (hand (fun _ _ => answer) (server_open st) package).2, answer with
        | Some payload, Ok data =>
            with_record (with_server st (wire_out st) ts (replies st ++ [payload]) (server_open st) (wire_in st))
              (served st ++ [(package, data)]) (refused st)
        | _, _ =>
            with_record (with_server st (wire_out st) ts (replies st) (server_open st) (wire_in st))
              (served st) (refused st ++ [package])
        end).

(** The server's writing task stops at the first frame it cannot send. *)
Definition server_write (st : Rpc) (sent : bool) : option Rpc :=
  if server_open st then
    match replies st with
    | [] => None
    | p :: rs =>
        Some (if sent && fits_frame p
              then with_server st (wire_out st) (tasks st) rs true (wire_in st ++ [p])
              else with_server st (wire_out st) (tasks st) [] false (wire_in st))
    end
  else None.

(** ** Steps and runs *)

Inductive Action :=
| Begin (func_id : Z) (body : bytes)
| CallStep (k : nat)
| Cancel (k : nat)
| WriterStep (sent : bool)
| ReaderStep
| ReaderClose
| ServerRead
| ServerHand (j : nat) (answer : result bytes bytes)
| ServerWrite (sent : bool).

Definition rpc_step (st : Rpc) (a : Action) : option Rpc :=
  match a with
  | Begin func_id body => Some (begin_call st func_id body)
  | CallStep k => call_step st k
  | Cancel k => cancel st k
  | WriterStep sent => writer_step st sent
  | ReaderStep => reader_step st
  | ReaderClose => reader_close st
  | ServerRead => server_read st
  | ServerHand j answer => server_hand st j answer
  | ServerWrite sent => server_write st sent
  end.

(** The states that actions allowed by [ok] lead to, and a run. *)
Inductive reached (ok : Rpc -> Action -> bool) : Rpc -> Prop :=
| reached_new : reached ok rpc_new
| reached_step st a st' : reached ok st -> ok st a = true -> rpc_step st a = Some st' -> reached ok st'.

Fixpoint rpc_run (ok : Rpc -> Action -> bool) (st : Rpc) (acts : list Action) : option Rpc :=
  match acts with
  | [] => Some st
  | a :: acts' => if ok st a then let* st' := rpc_step st a in rpc_run ok st' acts' else None
  end.

Lemma rpc_run_reached ok acts : forall st st', reached ok st -> rpc_run ok st acts = Some st' -> reached ok st'.
Proof.
  induction acts as [|a acts IH]; intros st st' Hst H; cbn in H; [by injection H as <-|].
  destruct (ok st a) eqn:Ea; [|done]. destruct (rpc_step st a) as [st1|] eqn:Es; [|done].
  eapply IH; [|done]. by eapply reached_step.
Qed.

(** ** Conditions on runs *)

(** The id of the response the reading task is about to store. *)
Definition in_window (r : ReaderTask) : option Z :=
  match r with ResetError id _ | WriteData id _ => Some id | _ => None end.

Definition storing (p : Pc) : bool := match p with StoreGeneration => true | _ => false end.

(** The ids have not wrapped around, and no call takes over the slot of a
    response between the check of its generation and the store of its data. *)
Definition undisturbed (st : Rpc) (a : Action) : bool :=
  match a with
  | Begin _ _ => 1 + Z.of_nat (length (calls st)) <? 2 ^ 32 - 1
  | CallStep k =>
      match calls st !! k, in_window (reader st) with
      | Some c, Some r => negb (storing (call_pc c) && (slot_index (call_id c) =? slot_index r)%nat)
      | _, _ => true
      end
  | _ => true
  end.

(** The connection stays up and no call times out. *)
Definition healthy (st : Rpc) (a : Action) : bool :=
  match a with
  | Begin func_id body =>
      (1 + Z.of_nat (length (calls st)) <? 2 ^ 32 - 1) && (8 + Z.of_nat (length body) <=? MAX_FRAME_LENGTH)
  | Cancel _ | ReaderClose => false
  | WriterStep sent | ServerWrite sent => sent
  | ServerHand _ (Ok data) => 4 + Z.of_nat (length data) <=? MAX_FRAME_LENGTH
  | _ => true
  end.
