(* ===== verification/RpcSafe.v ===== *)
(** * RpcSafe: every answer on a connection is the caller's own.

    The invariants of the connection of Rpc: what is in flight ([Traffic]), who
    holds a slot ([Slots]) and what a slot holds ([Matched]); and, for a
    connection that stays up ([Healthy]), that nothing is lost. *)

From S2P Require Import Prelude Text Rpc.

#[local] Arguments request_frame : simpl never.
#[local] Arguments get_u32 : simpl never.
#[local] Arguments put_u32 : simpl never.
#[local] Arguments slot_index : simpl never.

(** ** Frames *)

Lemma get_put_u32 z b : 0 <= z < 2 ^ 32 -> get_u32 (put_u32 z ++ b) = z.
Proof.
  intros Hz. unfold get_u32, put_u32. rewrite take_app_le by by rewrite be_length.
  rewrite take_ge by by rewrite be_length. rewrite from_be_be. by apply Z.mod_small.
Qed.

Lemma drop_put_u32 z b : drop 4 (put_u32 z ++ b) = b.
Proof. unfold put_u32. rewrite drop_app_ge by by rewrite be_length. by rewrite be_length. Qed.

Lemma put_u32_length z b : length (put_u32 z ++ b) = (4 + length b)%nat.
Proof. unfold put_u32. by rewrite length_app, be_length. Qed.

Lemma slot_index_lt r : (slot_index r < MAX_PENDING)%nat.
Proof.
  unfold slot_index, MAX_PENDING. change INDEX_MASK with (Z.ones 16). rewrite Z.land_ones by lia.
  pose proof (Z.mod_pos_bound r (2 ^ 16)). lia.
Qed.

(** ** Lists *)

Lemma submseteq_NoDup {A} (l k : list A) : l ⊆+ k -> NoDup k -> NoDup l.
Proof. intros [k' ->]%submseteq_Permutation [H _]%NoDup_app. done. Qed.

Lemma submseteq_Forall {A} (P : A -> Prop) (l k : list A) : l ⊆+ k -> Forall P k -> Forall P l.
Proof. intros H. rewrite !Forall_forall. intros HP x Hx. apply HP. by eapply elem_of_submseteq. Qed.

Lemma alter_insert {A} (f : A -> A) (l : list A) i x : l !! i = Some x -> alter f i l = <[i := f x]> l.
Proof.
  intros Hx. apply list_eq. intros j. rewrite list_lookup_alter. case_decide as E.
  - subst j. rewrite list_lookup_insert_eq by (by eapply lookup_lt_Some). by rewrite Hx.
  - by rewrite list_lookup_insert_ne.
Qed.

Lemma alter_out {A} (f : A -> A) (l : list A) i : l !! i = None -> alter f i l = l.
Proof.
  intros Hx. apply list_eq. intros j. rewrite list_lookup_alter. case_decide as E; [subst j; by rewrite Hx|done].
Qed.

(** ** Where a call is *)

(** Before its request is sent. *)
Definition early (p : Pc) : bool :=
  match p with Claim | StoreGeneration | ClearData | ClearError | Send => true | _ => false end.

(** Between the claim of the slot and its release. *)
Definition holding (p : Pc) : bool :=
  match p with Claim | Done _ | Cancelled => false | _ => true end.

(** Its id is in the slot. *)
Definition armed (p : Pc) : bool :=
  match p with StoreGeneration => false | _ => holding p end.

(** What is in the slot will be taken for its answer. *)
Definition taking (p : Pc) : bool :=
  match p with ClearData | Dropping _ => false | _ => armed p end.

Definition same_request (c c' : Call) : Prop :=
  call_id c = call_id c' /\ call_func c = call_func c' /\ call_body c = call_body c'.

Lemma same_request_frame c c' : same_request c c' -> request_frame c' = request_frame c.
Proof. intros (Hi & Hf & Hb). unfold request_frame. by rewrite Hi, Hf, Hb. Qed.

Definition evolves (cs cs' : list Call) : Prop :=
  forall k c, cs !! k = Some c ->
    exists c', cs' !! k = Some c' /\ same_request c c' /\ (early (call_pc c) = false -> early (call_pc c') = false).

Lemma evolves_refl cs : evolves cs cs.
Proof. intros k c H. by exists c. Qed.

Lemma evolves_insert cs k c c' :
  cs !! k = Some c -> same_request c c' -> (early (call_pc c) = false -> early (call_pc c') = false) ->
  evolves cs (<[k := c']> cs).
Proof.
  intros Hk Hs He k1 c1 H1. destruct (decide (k = k1)) as [<-|Hne].
  - assert (c1 = c) as -> by congruence. exists c'. split; [|done].
    apply list_lookup_insert_eq. by eapply lookup_lt_Some.
  - exists c1. by rewrite list_lookup_insert_ne by done.
Qed.

Lemma evolves_notify cs k : evolves cs (alter (set_notified true) k cs).
Proof.
  intros k1 c1 H1. rewrite list_lookup_alter. case_decide as H; [subst|by exists c1].
  rewrite H1. by exists (set_notified true c1).
Qed.

Lemma evolves_begin cs c : evolves cs (cs ++ [c]).
Proof. intros k c1 H1. exists c1. split; [|done]. by apply lookup_app_l_Some. Qed.

(** ** What is in flight *)

(** The response in the hands of the reading task. *)
Definition window (r : ReaderTask) : list bytes :=
  match r with ResetError id b | WriteData id b => [put_u32 id ++ b] | _ => [] end.

Definition requests (st : Rpc) : list bytes := tx_writer st ++ wire_out st ++ tasks st.
Definition answers (st : Rpc) : list bytes := replies st ++ wire_in st ++ window (reader st).

Definition sent_call (cs : list Call) (f : bytes) : Prop :=
  exists k c, cs !! k = Some c /\ f = request_frame c /\ early (call_pc c) = false.

Record Traffic (cs : list Call) (rq : list bytes) (sv : list (bytes * bytes)) (an : list bytes) : Prop := {
  tr_ids k c : cs !! k = Some c -> call_id c = 1 + Z.of_nat k;
  tr_count : 1 + Z.of_nat (length cs) < 2 ^ 32;
  tr_requests : Forall (sent_call cs) rq;
  tr_served : Forall (fun e : bytes * bytes => sent_call cs e.1) sv;
  tr_answers : Forall (fun p => exists k c b,
    cs !! k = Some c /\ early (call_pc c) = false /\ p = put_u32 (call_id c) ++ b /\ (request_frame c, b) ∈ sv) an;
  tr_once : NoDup ((get_u32 ∘ fst <$> sv) ++ (get_u32 <$> rq));
  tr_one_answer : NoDup (get_u32 <$> an)
}.

Lemma traffic_id_range cs rq sv an k c :
  Traffic cs rq sv an -> cs !! k = Some c -> 0 <= call_id c < 2 ^ 32.
Proof. intros HT Hk. rewrite (tr_ids _ _ _ _ HT _ _ Hk). pose proof (tr_count _ _ _ _ HT). apply lookup_lt_Some in Hk. lia. Qed.

Lemma traffic_inj cs rq sv an k c k' c' :
  Traffic cs rq sv an -> cs !! k = Some c -> cs !! k' = Some c' -> call_id c = call_id c' -> k = k' /\ c = c'.
Proof.
  intros HT Hk Hk' E. rewrite (tr_ids _ _ _ _ HT _ _ Hk), (tr_ids _ _ _ _ HT _ _ Hk') in E.
  assert (k = k') as -> by lia. split; congruence.
Qed.

Lemma traffic_frame_id cs rq sv an k c :
  Traffic cs rq sv an -> cs !! k = Some c -> get_u32 (request_frame c) = call_id c.
Proof. intros HT Hk. unfold request_frame. apply get_put_u32. exact (traffic_id_range _ _ _ _ _ _ HT Hk). Qed.

Lemma sent_call_evolves cs cs' f : evolves cs cs' -> sent_call cs f -> sent_call cs' f.
Proof.
  intros He (k & c & Hk & -> & Hc). destruct (He k c Hk) as (c' & Hk' & Hs & Hi).
  exists k, c'. rewrite (same_request_frame _ _ Hs). auto.
Qed.

Lemma traffic_evolves cs cs' rq sv an :
  evolves cs cs' -> length cs' = length cs -> Traffic cs rq sv an -> Traffic cs' rq sv an.
Proof.
  intros He Hl HT. constructor.
  - intros k c Hk. apply lookup_lt_Some in Hk as Hlt. rewrite Hl in Hlt. apply lookup_lt_is_Some in Hlt as [c0 H0].
    destruct (He k c0 H0) as (c' & Hk' & (Hs & _) & _). assert (c' = c) as -> by congruence.
    rewrite <- Hs. by eapply tr_ids.
  - rewrite Hl. by eapply tr_count.
  - eapply Forall_impl; [by eapply tr_requests|]. intros f. by apply sent_call_evolves.
  - eapply Forall_impl; [by eapply tr_served|]. intros f. by apply sent_call_evolves.
  - eapply Forall_impl; [by eapply tr_answers|]. intros p (k & c & b & Hk & Hc & -> & Hin).
    destruct (He k c Hk) as (c' & Hk' & Hs & Hi). exists k, c', b.
    rewrite (same_request_frame _ _ Hs). destruct Hs as (<- & _). auto.
  - by eapply tr_once.
  - by eapply tr_one_answer.
Qed.

Lemma traffic_begin cs c rq sv an :
  1 + Z.of_nat (length cs) < 2 ^ 32 - 1 -> call_id c = 1 + Z.of_nat (length cs) ->
  Traffic cs rq sv an -> Traffic (cs ++ [c]) rq sv an.
Proof.
  intros Hlt Hc HT. pose proof (evolves_begin cs c) as He. constructor.
  - intros k c0 [Hk|[Hk Hk0]]%lookup_app_Some; [by eapply tr_ids|].
    apply list_lookup_singleton_Some in Hk0 as [Hz <-]. rewrite Hc. f_equal. lia.
  - rewrite length_app. cbn. lia.
  - eapply Forall_impl; [by eapply tr_requests|]. intros f. by apply sent_call_evolves.
  - eapply Forall_impl; [by eapply tr_served|]. intros f. by apply sent_call_evolves.
  - eapply Forall_impl; [by eapply tr_answers|]. intros p (k & c0 & b & Hk & Hr). exists k, c0, b.
    split; [by apply lookup_app_l_Some|done].
  - by eapply tr_once.
  - by eapply tr_one_answer.
Qed.

(** Frames move from one queue to the next, or are lost. *)
Lemma traffic_move cs rq rq' sv an an' :
  rq' ⊆+ rq -> an' ⊆+ an -> Traffic cs rq sv an -> Traffic cs rq' sv an'.
Proof.
  intros Hq Ha [H1 H2 H3 H4 H5 H6 H7]. constructor; try done.
  - by eapply submseteq_Forall.
  - by eapply submseteq_Forall.
  - eapply submseteq_NoDup; [|exact H6]. apply submseteq_skips_l. by apply fmap_submseteq.
  - eapply submseteq_NoDup; [|exact H7]. by apply fmap_submseteq.
Qed.

(** The ids of sent requests belong to calls that are not early any more. *)
Lemma traffic_fresh cs rq sv an k c :
  Traffic cs rq sv an -> cs !! k = Some c -> early (call_pc c) = true ->
  call_id c ∉ (get_u32 ∘ fst <$> sv) ++ (get_u32 <$> rq).
Proof.
  intros HT Hk Hc. rewrite elem_of_app, !list_elem_of_fmap.
  assert (Hcase : forall f, sent_call cs f -> call_id c = get_u32 f -> False).
  { intros f (k' & c' & Hk' & -> & Hc') E. rewrite (traffic_frame_id _ _ _ _ _ _ HT Hk') in E.
    destruct (traffic_inj _ _ _ _ _ _ _ _ HT Hk Hk' E) as [_ ->]. congruence. }
  intros [([f d] & E & Hin)|(f & E & Hin)]; cbn in E; (eapply (Hcase f); [|done]).
  - by eapply (Forall_forall _ _) in Hin; [|by eapply tr_served].
  - by eapply (Forall_forall _ _) in Hin; [|by eapply tr_requests].
Qed.

Lemma traffic_send cs rq sv an k c :
  Traffic (<[k := set_pc (PollData false) c]> cs) rq sv an -> cs !! k = Some c ->
  call_id c ∉ (get_u32 ∘ fst <$> sv) ++ (get_u32 <$> rq) ->
  Traffic (<[k := set_pc (PollData false) c]> cs) (request_frame c :: rq) sv an.
Proof.
  intros HT Hk Hf. assert (Hk' : <[k := set_pc (PollData false) c]> cs !! k = Some (set_pc (PollData false) c)).
  { apply list_lookup_insert_eq. by eapply lookup_lt_Some. }
  pose proof (traffic_frame_id _ _ _ _ _ _ HT Hk') as Hid.
  destruct HT as [H1 H2 H3 H4 H5 H6 H7]. constructor; try done.
  - constructor; [|done]. by exists k, (set_pc (PollData false) c).
  - rewrite fmap_cons, <- Permutation_middle. constructor; [|done].
    change (request_frame c) with (request_frame (set_pc (PollData false) c)). by rewrite Hid.
Qed.

Lemma traffic_serve cs rq sv an f d :
  Traffic cs (f :: rq) sv an -> Traffic cs rq (sv ++ [(f, d)]) ((put_u32 (get_u32 f) ++ d) :: an).
Proof.
  intros HT. pose proof (tr_requests _ _ _ _ HT) as (k & c & Hk & Hf & Hc)%Forall_inv.
  pose proof (traffic_frame_id _ _ _ _ _ _ HT Hk) as Hid. pose proof (traffic_id_range _ _ _ _ _ _ HT Hk) as Hr.
  assert (Hnew : get_u32 f ∉ get_u32 <$> an).
  { intros (p & E & Hin)%list_elem_of_fmap.
    pose proof (proj1 (Forall_forall _ _) (tr_answers _ _ _ _ HT) _ Hin) as (k' & c' & b & Hk' & _ & -> & Hs).
    pose proof (traffic_id_range _ _ _ _ _ _ HT Hk') as Hr'. rewrite (get_put_u32 _ _ Hr') in E.
    pose proof (tr_once _ _ _ _ HT) as (_ & Hno & _)%NoDup_app.
    apply (Hno (get_u32 f)); [|rewrite fmap_cons; left].
    apply list_elem_of_fmap. exists (request_frame c', b). split; [|done]. change (get_u32 f = get_u32 (request_frame c')).
    by rewrite (traffic_frame_id _ _ _ _ _ _ HT Hk'). }
  destruct HT as [H1 H2 H3 H4 H5 H6 H7]. constructor; try done.
  - by apply Forall_inv_tail in H3.
  - apply Forall_app. split; [done|]. constructor; [|done]. by exists k, c.
  - constructor.
    + exists k, c, d. rewrite Hf, Hid. split_and!; [done..|]. apply elem_of_app. right. by left.
    + eapply Forall_impl; [done|]. intros p (k' & c' & b & Hk' & Hc' & -> & Hs). exists k', c', b.
      split_and!; [done..|]. apply elem_of_app. by left.
  - rewrite fmap_app, <- app_assoc. cbn. by rewrite fmap_cons in H6.
  - rewrite fmap_cons. constructor; [|done]. rewrite get_put_u32; [done|]. by rewrite Hf, Hid.
Qed.

(** ** Slots *)

Definition slot_at (l : list Slot) (i : nat) : Slot := default slot_default (l !! i).

Lemma slot_at_insert l i s j :
  (i < length l)%nat -> slot_at (<[i := s]> l) j = if decide (i = j) then s else slot_at l j.
Proof.
  intros Hi. unfold slot_at. case_decide as H; [subst; by rewrite list_lookup_insert_eq|].
  by rewrite list_lookup_insert_ne.
Qed.

Lemma slot_at_alter l i f j :
  (i < length l)%nat -> slot_at (alter f i l) j = if decide (i = j) then f (slot_at l i) else slot_at l j.
Proof.
  intros [s Hs]%lookup_lt_is_Some. unfold slot_at. rewrite list_lookup_alter.
  case_decide as H; [subst|done]. by rewrite Hs.
Qed.

(** What an update of a slot leaves as it is. *)
Lemma slot_at_alter_field (R : Slot -> Slot -> Prop) `{!Reflexive R} l i f j :
  (forall s, R (f s) s) -> R (slot_at (alter f i l) j) (slot_at l j).
Proof.
  intros Hf. unfold slot_at. rewrite list_lookup_alter. case_decide as H; [subst|reflexivity].
  destruct (l !! j); cbn; [apply Hf|reflexivity].
Qed.

Lemma slot_at_insert_field (R : Slot -> Slot -> Prop) `{!Reflexive R} l i s j :
  R s (slot_at l i) -> R (slot_at (<[i := s]> l) j) (slot_at l j).
Proof.
  intros Hf. unfold slot_at. destruct (decide (i = j)) as [<-|Hne]; [|by rewrite list_lookup_insert_ne].
  destruct (decide (i < length l)%nat) as [Hi|Hi]; [by rewrite list_lookup_insert_eq|].
  by rewrite list_insert_ge by lia.
Qed.

Abbreviation ix c := (slot_index (call_id c)).

(** The sweep has taken slot [i] from its holder. *)
Definition passed (sw : Sweep) (i : nat) : Prop :=
  match sw with
  | SweepSwap j => (i < j)%nat
  | SweepData j | SweepError j | SweepWake j => (i <= j)%nat
  end.

Definition swept (w : WriterTask) (r : ReaderTask) (i : nat) : Prop :=
  match w with WriterRunning => False | WriterSweep sw => passed sw i | WriterEnded => True end \/
  match r with ReaderSweep sw => passed sw i | ReaderEnded => True | _ => False end.

Record Slots (sl : list Slot) (cs : list Call) (w : WriterTask) (r : ReaderTask) : Prop := {
  sl_length : length sl = MAX_PENDING;
  sl_occupied k c : cs !! k = Some c -> holding (call_pc c) = true -> ~ swept w r (ix c) ->
    occupied (slot_at sl (ix c)) = true;
  sl_unique k c k' c' : cs !! k = Some c -> cs !! k' = Some c' ->
    holding (call_pc c) = true -> holding (call_pc c') = true -> ix c = ix c' -> ~ swept w r (ix c) -> k = k';
  sl_generation k c : cs !! k = Some c -> armed (call_pc c) = true -> ~ swept w r (ix c) ->
    generation (slot_at sl (ix c)) = call_id c
}.

Lemma armed_holding p : armed p = true -> holding p = true.
Proof. by destruct p. Qed.

Lemma taking_armed p : taking p = true -> armed p = true.
Proof. by destruct p. Qed.

(** A step that makes no new holder, and changes the slots of no holder. *)
Lemma slots_mono sl cs w r sl' cs' w' r' :
  Slots sl cs w r -> length sl' = length sl ->
  (forall i, swept w r i -> swept w' r' i) ->
  (forall k c', cs' !! k = Some c' -> holding (call_pc c') = true ->
    exists c, cs !! k = Some c /\ call_id c = call_id c' /\ holding (call_pc c) = true /\
      (armed (call_pc c') = true -> armed (call_pc c) = true)) ->
  (forall k c', cs' !! k = Some c' -> holding (call_pc c') = true -> ~ swept w' r' (ix c') ->
    occupied (slot_at sl' (ix c')) = occupied (slot_at sl (ix c')) /\
    generation (slot_at sl' (ix c')) = generation (slot_at sl (ix c'))) ->
  Slots sl' cs' w' r'.
Proof.
  intros [H1 H2 H3 H4] Hl Hsw Hc Hs. constructor.
  - by rewrite Hl.
  - intros k c' Hk Hh Hn. destruct (Hs k c' Hk Hh Hn) as [-> _].
    destruct (Hc k c' Hk Hh) as (c & Hkc & Hid & Hh' & _). rewrite <- Hid in *. apply (H2 k c); auto.
  - intros k c' k2 c2' Hk Hk2 Hh Hh2 Hi Hn.
    destruct (Hc _ _ Hk Hh) as (c & Hkc & Hid & Hhc & _). destruct (Hc _ _ Hk2 Hh2) as (c2 & Hkc2 & Hid2 & Hhc2 & _).
    rewrite <- Hid, <- Hid2 in *. apply (H3 k c k2 c2); auto.
  - intros k c' Hk Ha Hn. pose proof (armed_holding _ Ha) as Hh. destruct (Hs k c' Hk Hh Hn) as [_ ->].
    destruct (Hc k c' Hk Hh) as (c & Hkc & Hid & Hh' & Har). rewrite <- Hid in *. apply (H4 k c); auto.
Qed.

(** ** The next action of a call *)

Lemma call_step_inv st k st' :
  call_step st k = Some st' ->
  exists c c' s' sent, calls st !! k = Some c /\ (ix c < length (slots st))%nat /\
    call_action k c (slot_at (slots st) (ix c)) (negb (writer_ended st)) (has_room st) = Some (c', s', sent) /\
    st' = with_tx_writer (with_table st (<[ix c := s']> (slots st)) (<[k := c']> (calls st))) (tx_writer st ++ sent).
Proof.
  unfold call_step. intros H. destruct (calls st !! k) as [c|] eqn:Hk; [|done].
  destruct (slots st !! ix c) as [s|] eqn:Hs; [|done].
  destruct (call_action k c s _ _) as [[[c' s'] sent]|] eqn:Ha; [|done]. injection H as <-.
  exists c, c', s', sent. unfold slot_at. rewrite Hs. split_and!; try done. by eapply lookup_lt_Some.
Qed.

Ltac call_cases H :=
  unfold call_action in H;
  repeat (dmatch_in H; try discriminate H);
  injection H as <- <- <-.

Lemma call_action_same k c s open room c' s' sent :
  call_action k c s open room = Some (c', s', sent) ->
  same_request c c' /\ (early (call_pc c) = false -> early (call_pc c') = false).
Proof. intros H. call_cases H; (split; [done|]); cbn; congruence. Qed.

Lemma call_action_sent k c s open room c' s' sent :
  call_action k c s open room = Some (c', s', sent) ->
  sent = [] \/ (call_pc c = Send /\ open = true /\ c' = set_pc (PollData false) c /\ sent = [request_frame c]).
Proof. intros H. call_cases H; auto. Qed.

Lemma release_slots sl cs w r k c p :
  Slots sl cs w r -> cs !! k = Some c -> holding (call_pc c) = true -> holding p = false ->
  Slots (<[ix c := set_occupied false (slot_at sl (ix c))]> sl) (<[k := set_pc p c]> cs) w r.
Proof.
  intros HS Hk Hh Hp. eapply slots_mono; [exact HS|by rewrite length_insert|done|..].
  - intros k' c' [(<- & <- & _)|(Hne & Hk')]%list_lookup_insert_Some Hh'; [cbn in Hh'; congruence|]. by exists c'.
  - intros k' c' [(<- & <- & _)|(Hne & Hk')]%list_lookup_insert_Some Hh' Hn; [cbn in Hh'; congruence|].
    destruct (decide (ix c = ix c')) as [E|E].
    + destruct Hne. eapply (sl_unique _ _ _ _ HS); eauto. by rewrite E.
    + unfold slot_at. by rewrite !list_lookup_insert_ne by done.
Qed.

Lemma slots_plain sl cs w r k c c' s' :
  Slots sl cs w r -> cs !! k = Some c -> call_id c' = call_id c ->
  (holding (call_pc c') = true -> holding (call_pc c) = true) ->
  (armed (call_pc c') = true -> armed (call_pc c) = true) ->
  occupied s' = occupied (slot_at sl (ix c)) -> generation s' = generation (slot_at sl (ix c)) ->
  Slots (<[ix c := s']> sl) (<[k := c']> cs) w r.
Proof.
  intros HS Hk Hid Hh Ha Ho Hg. eapply slots_mono; [exact HS|by rewrite length_insert|done|..].
  - intros k' c1 [(<- & <- & _)|(Hne & Hk')]%list_lookup_insert_Some Hh'; [exists c; auto|by exists c1].
  - intros k' c1 _ _ _. pose proof (slot_index_lt (call_id c)) as Hlt. rewrite <- (sl_length _ _ _ _ HS) in Hlt.
    rewrite slot_at_insert by done. case_decide as E; [by rewrite <- E|done].
Qed.

Lemma slots_claim sl cs w r k c :
  Slots sl cs w r -> cs !! k = Some c -> call_pc c = Claim -> occupied (slot_at sl (ix c)) = false ->
  Slots (<[ix c := set_occupied true (slot_at sl (ix c))]> sl) (<[k := set_pc StoreGeneration c]> cs) w r.
Proof.
  intros HS Hk Hpc Ho. pose proof (slot_index_lt (call_id c)) as Hlt. rewrite <- (sl_length _ _ _ _ HS) in Hlt.
  assert (Hno : forall k' c', cs !! k' = Some c' -> holding (call_pc c') = true -> ~ swept w r (ix c') -> ix c <> ix c').
  { intros k' c' Hk' Hh Hn E. pose proof (sl_occupied _ _ _ _ HS _ _ Hk' Hh Hn). rewrite <- E in *. congruence. }
  constructor.
  - rewrite length_insert. by apply HS.
  - intros k' c' [(<- & <- & _)|(Hne & Hk')]%list_lookup_insert_Some Hh Hn; rewrite slot_at_insert by done.
    + by rewrite decide_True.
    + rewrite decide_False by eauto. eapply sl_occupied; eauto.
  - intros k1 c1 k2 c2 [(<- & <- & _)|(Hne & Hk1)]%list_lookup_insert_Some
      [(<- & <- & _)|(Hne2 & Hk2)]%list_lookup_insert_Some Hh1 Hh2 E Hn; [done|..].
    + cbn in E, Hn. rewrite E in Hn. by destruct (Hno _ _ Hk2 Hh2 Hn).
    + cbn in E. by destruct (Hno _ _ Hk1 Hh1 Hn).
    + by eapply (sl_unique _ _ _ _ HS).
  - intros k' c' [(<- & <- & _)|(Hne & Hk')]%list_lookup_insert_Some Ha Hn; [done|].
    pose proof (armed_holding _ Ha) as Hh. rewrite slot_at_insert, decide_False by eauto. by eapply sl_generation.
Qed.

Lemma slots_store sl cs w r k c :
  Slots sl cs w r -> cs !! k = Some c -> call_pc c = StoreGeneration ->
  Slots (<[ix c := set_generation (call_id c) (slot_at sl (ix c))]> sl) (<[k := set_pc ClearData c]> cs) w r.
Proof.
  intros HS Hk Hpc. pose proof (slot_index_lt (call_id c)) as Hlt. rewrite <- (sl_length _ _ _ _ HS) in Hlt.
  assert (Hh : holding (call_pc c) = true) by by rewrite Hpc.
  constructor.
  - rewrite length_insert. by apply HS.
  - intros k' c' [(<- & <- & _)|(Hne & Hk')]%list_lookup_insert_Some Hh' Hn; rewrite slot_at_insert by done.
    + rewrite decide_True by done. by eapply (sl_occupied _ _ _ _ HS).
    + pose proof (sl_occupied _ _ _ _ HS _ _ Hk' Hh' Hn). case_decide as E; [by rewrite <- E in *|done].
  - intros k1 c1 k2 c2 [(<- & <- & _)|(Hne & Hk1)]%list_lookup_insert_Some
      [(<- & <- & _)|(Hne2 & Hk2)]%list_lookup_insert_Some Hh1 Hh2 E Hn; [done|..]; cbn in *;
      by eapply (sl_unique _ _ _ _ HS).
  - intros k' c' [(<- & <- & _)|(Hne & Hk')]%list_lookup_insert_Some Ha Hn; rewrite slot_at_insert by done;
      [by rewrite decide_True|].
    rewrite decide_False; [by eapply sl_generation|]. intros E. apply Hne.
    eapply (sl_unique _ _ _ _ HS); [done|done|done|by apply armed_holding|done|by rewrite E].
Qed.

Lemma slots_call sl cs w r k c open room c' s' sent :
  Slots sl cs w r -> cs !! k = Some c ->
  call_action k c (slot_at sl (ix c)) open room = Some (c', s', sent) ->
  Slots (<[ix c := s']> sl) (<[k := c']> cs) w r.
Proof.
  intros HS Hk Ha. call_cases Ha;
    first [ by apply slots_claim | by apply slots_store
          | apply release_slots; [done|done|by match goal with E : call_pc c = _ |- _ => rewrite E end|done]
          | apply slots_plain; try done; cbn; by match goal with E : call_pc c = _ |- _ => rewrite E end ].
Qed.

Lemma insert_same_slot sl i : (i < length sl)%nat -> <[i := slot_at sl i]> sl = sl.
Proof. intros [s Hs]%lookup_lt_is_Some. unfold slot_at. rewrite Hs. by apply list_insert_id. Qed.

Lemma alter_insert_slot sl i f : (i < length sl)%nat -> alter f i sl = <[i := f (slot_at sl i)]> sl.
Proof. intros [s Hs]%lookup_lt_is_Some. rewrite (alter_insert _ _ _ _ Hs). unfold slot_at. by rewrite Hs. Qed.

(** ** Waking a call, and the sweep *)

Definition same_calls (cs cs' : list Call) : Prop :=
  length cs' = length cs /\
  forall k c', cs' !! k = Some c' -> exists c, cs !! k = Some c /\ same_request c c' /\ call_pc c = call_pc c'.

Lemma same_calls_refl cs : same_calls cs cs.
Proof. split; [done|]. intros k c H. by exists c. Qed.

Lemma same_calls_notify cs k : same_calls cs (alter (set_notified true) k cs).
Proof.
  split; [by rewrite length_alter|]. intros k' c'. rewrite list_lookup_alter. case_decide as E; [|by exists c'].
  subst. destruct (cs !! k') as [c|]; [|done]. intros [= <-]. by exists c.
Qed.

Lemma same_calls_evolves cs cs' : same_calls cs cs' -> evolves cs cs'.
Proof.
  intros [Hl H] k c Hk. apply lookup_lt_Some in Hk as Hlt. rewrite <- Hl in Hlt.
  apply lookup_lt_is_Some in Hlt as [c' Hc']. exists c'. destruct (H k c' Hc') as (c0 & H0 & Hs & Hp).
  assert (c0 = c) as -> by congruence. by rewrite Hp.
Qed.

(** What a wake or an action of a sweep leaves of a slot. *)
Definition fades (s' s : Slot) : Prop :=
  generation s' = generation s /\ (forall b, slot_data s' = Some b -> slot_data s = Some b).

#[global] Instance fades_refl : Reflexive fades.
Proof. by intros s. Qed.

Definition same_occupied (s' s : Slot) : Prop := occupied s' = occupied s.

#[global] Instance same_occupied_refl : Reflexive same_occupied.
Proof. by intros s. Qed.

Record Faded (st st' : Rpc) : Prop := {
  fa_calls : same_calls (calls st) (calls st');
  fa_slots i : fades (slot_at (slots st') i) (slot_at (slots st) i);
  fa_length : length (slots st') = length (slots st);
  fa_rest : exists sl cs, st' = with_table st sl cs
}.

Lemma faded_refl st : Faded st st.
Proof. constructor; [apply same_calls_refl|done|done|]. exists (slots st), (calls st). by destruct st. Qed.

Lemma wake_faded st i : Faded st (wake st i) /\ forall j, occupied (slot_at (slots (wake st i)) j) = occupied (slot_at (slots st) j).
Proof.
  unfold wake. destruct (slots st !! i) as [s|] eqn:Hi; [|split; [apply faded_refl|done]].
  destruct (slot_waker s) as [k|]; [|split; [apply faded_refl|done]].
  assert (Hs : slot_at (slots st) i = s) by (unfold slot_at; by rewrite Hi).
  split; [constructor|]; cbn.
  - apply same_calls_notify.
  - intros j. apply (slot_at_insert_field fades). by rewrite Hs.
  - by rewrite length_insert.
  - by eexists _, _.
  - intros j. apply (slot_at_insert_field same_occupied). by rewrite Hs.
Qed.

Lemma sweep_faded st reason sw :
  Faded st (sweep_step st reason sw).1 /\
  (forall j, match (sweep_step st reason sw).2 with Some sw' => ~ passed sw' j | None => (j < length (slots st))%nat /\ ~ passed sw j end ->
     occupied (slot_at (slots (sweep_step st reason sw).1) j) = occupied (slot_at (slots st) j)) /\
  (forall j sw', (sweep_step st reason sw).2 = Some sw' -> passed sw j -> passed sw' j).
Proof.
  assert (Halt : forall f i, (forall s, fades (f s) s) -> Faded st (with_table st (alter f i (slots st)) (calls st))).
  { intros f i Hf. constructor; cbn; [apply same_calls_refl| |by rewrite length_alter|by eexists _, _].
    intros j. by apply (slot_at_alter_field fades). }
  destruct sw as [i|i|i|i]; cbn.
  - destruct (slots st !! i) as [s|] eqn:Hi; [|split; [apply faded_refl|done]].
    assert (Hs : slot_at (slots st) i = s) by (unfold slot_at; by rewrite Hi).
    destruct (occupied s) eqn:Ho; cbn.
    + split; [constructor|split]; cbn.
      * apply same_calls_refl.
      * intros j. apply (slot_at_insert_field fades). by rewrite Hs.
      * by rewrite length_insert.
      * by eexists _, _.
      * intros j Hj. unfold slot_at. by rewrite list_lookup_insert_ne by lia.
      * intros j sw' [= <-]. cbn. lia.
    + split; [apply faded_refl|]. split; [done|]. intros j sw' [= <-]. cbn. lia.
  - split; [by apply Halt|]. split; [|by intros j sw' [= <-]].
    intros j _. by apply (slot_at_alter_field same_occupied).
  - split; [by apply Halt|]. split; [|by intros j sw' [= <-]].
    intros j _. by apply (slot_at_alter_field same_occupied).
  - destruct (wake_faded st i) as [Hf Ho]. split; [done|]. split; [auto|]. intros j sw' [= <-]. cbn. lia.
Qed.

(** ** What a slot holds *)

Definition posted (st : Rpc) : list bytes := wire_out st ++ tasks st ++ answers st.

Definition alive (r : ReaderTask) : bool := match r with ReaderSweep _ | ReaderEnded => false | _ => true end.

Definition answered (b : bytes) (p : Pc) : Prop := p = Dropping (Ok b) \/ p = Done (Ok b).

Record Matched (st : Rpc) : Prop := {
  ma_posted r k c : alive (reader st) = true -> r ∈ get_u32 <$> posted st -> calls st !! k = Some c ->
    armed (call_pc c) = true -> ix c = slot_index r -> generation (slot_at (slots st) (slot_index r)) = r -> call_id c = r;
  ma_window r k c : in_window (reader st) = Some r -> calls st !! k = Some c ->
    armed (call_pc c) = true -> ix c = slot_index r -> call_id c = r;
  ma_data k c b : calls st !! k = Some c -> taking (call_pc c) = true ->
    slot_data (slot_at (slots st) (ix c)) = Some b -> (request_frame c, b) ∈ served st;
  ma_answered k c b : calls st !! k = Some c -> answered b (call_pc c) -> (request_frame c, b) ∈ served st
}.

(** A step that arms no call, stores no data and posts nothing. *)
Lemma matched_mono st st' :
  Matched st ->
  (alive (reader st') = true -> alive (reader st) = true) ->
  (forall r, r ∈ get_u32 <$> posted st' -> r ∈ get_u32 <$> posted st) ->
  (forall r, in_window (reader st') = Some r -> in_window (reader st) = Some r) ->
  (forall e, e ∈ served st -> e ∈ served st') ->
  (forall k c', calls st' !! k = Some c' -> armed (call_pc c') = true \/ (exists b, answered b (call_pc c')) ->
    exists c, calls st !! k = Some c /\ same_request c c' /\ (armed (call_pc c') = true -> armed (call_pc c) = true) /\
      (taking (call_pc c') = true -> taking (call_pc c) = true) /\
      (forall b, answered b (call_pc c') -> answered b (call_pc c))) ->
  (forall i, fades (slot_at (slots st') i) (slot_at (slots st) i)) ->
  Matched st'.
Proof.
  intros [H1 H2 H3 H4] Hal Hpo Hwi Hse Hc Hsl. constructor.
  - intros r k c' Hr Hp Hk Ha Hi Hg. destruct (Hc _ _ Hk ltac:(auto)) as (c & Hk0 & Hs & Har & _).
    pose proof Hs as [Hid _]. rewrite <- Hid in *. apply (H1 r k c); auto. by rewrite <- (proj1 (Hsl _)).
  - intros r k c' Hw Hk Ha Hi. destruct (Hc _ _ Hk ltac:(auto)) as (c & Hk0 & [Hid _] & Har & _).
    rewrite <- Hid in *. apply (H2 r k c); auto.
  - intros k c' b Hk Ht Hd. pose proof (taking_armed _ Ht) as Ha.
    destruct (Hc _ _ Hk ltac:(auto)) as (c & Hk0 & Hs & _ & Htk & _). rewrite (same_request_frame _ _ Hs).
    apply Hse, (H3 k c b); auto. destruct Hs as [<- _] in Hd |- *. by apply Hsl.
  - intros k c' b Hk Hb. destruct (Hc _ _ Hk ltac:(eauto)) as (c & Hk0 & Hs & _ & _ & Han).
    rewrite (same_request_frame _ _ Hs). apply Hse, (H4 k c b); auto.
Qed.

Lemma answered_neq p : (forall r, p <> Dropping r) -> (forall r, p <> Done r) -> forall b, ~ answered b p.
Proof. intros H1 H2 b [H|H]; naive_solver. Qed.

Lemma same_calls_mono cs cs' k c' :
  same_calls cs cs' -> cs' !! k = Some c' ->
  exists c, cs !! k = Some c /\ same_request c c' /\ (armed (call_pc c') = true -> armed (call_pc c) = true) /\
    (taking (call_pc c') = true -> taking (call_pc c) = true) /\
    (forall b, answered b (call_pc c') -> answered b (call_pc c)).
Proof. intros [_ H] Hk. destruct (H _ _ Hk) as (c & Hk' & Hs & Hp). exists c. by rewrite Hp. Qed.

(** The action of a call on its slot, the store of the generation apart. *)
Lemma matched_call st k c c' s' q :
  Matched st -> calls st !! k = Some c -> length (slots st) = MAX_PENDING -> same_request c c' ->
  generation s' = generation (slot_at (slots st) (ix c)) ->
  (armed (call_pc c') = true -> armed (call_pc c) = true) ->
  (forall b, slot_data s' = Some b -> slot_data (slot_at (slots st) (ix c)) = Some b /\
     (taking (call_pc c') = true -> taking (call_pc c) = true)) ->
  (forall b, answered b (call_pc c') -> answered b (call_pc c) \/
     (taking (call_pc c) = true /\ slot_data (slot_at (slots st) (ix c)) = Some b)) ->
  Matched (with_tx_writer (with_table st (<[ix c := s']> (slots st)) (<[k := c']> (calls st))) q).
Proof.
  intros [H1 H2 H3 H4] Hk Hlen Hs Hg Ha Hd Ho. pose proof (slot_index_lt (call_id c)) as Hlt. rewrite <- Hlen in Hlt.
  pose proof Hs as [Hid _].
  assert (Hgen : forall j, generation (slot_at (<[ix c := s']> (slots st)) j) = generation (slot_at (slots st) j)).
  { intros j. rewrite slot_at_insert by done. case_decide as E; [by subst|done]. }
  assert (Hdat : forall j b, slot_data (slot_at (<[ix c := s']> (slots st)) j) = Some b -> slot_data (slot_at (slots st) j) = Some b).
  { intros j b. rewrite slot_at_insert by done. case_decide as E; [subst; apply Hd|done]. }
  constructor; cbn.
  - intros r k1 c1 Hr Hp [(<- & <- & _)|(Hne & Hk1)]%list_lookup_insert_Some Har Hi Hge; rewrite Hgen in Hge.
    + rewrite <- Hid in *. by apply (H1 r k c); auto.
    + by apply (H1 r k1 c1).
  - intros r k1 c1 Hr [(<- & <- & _)|(Hne & Hk1)]%list_lookup_insert_Some Har Hi.
    + rewrite <- Hid in *. by apply (H2 r k c); auto.
    + by apply (H2 r k1 c1).
  - intros k1 c1 b [(<- & <- & _)|(Hne & Hk1)]%list_lookup_insert_Some Ht Hdb; [|by eapply H3; eauto].
    rewrite (same_request_frame _ _ Hs). rewrite <- Hid, slot_at_insert, decide_True in Hdb by done.
    destruct (Hd b Hdb) as [Hdc Htk]. by apply (H3 k c b); auto.
  - intros k1 c1 b [(<- & <- & _)|(Hne & Hk1)]%list_lookup_insert_Some Hb; [|by eapply H4; eauto].
    rewrite (same_request_frame _ _ Hs). destruct (Ho b Hb) as [Hb'|[Ht Hdb]]; [by eapply H4|by eapply H3].
Qed.

Abbreviation Flow st := (Traffic (calls st) (requests st) (served st) (answers st)).

Lemma posted_late st r :
  Flow st -> r ∈ get_u32 <$> posted st -> exists k c, calls st !! k = Some c /\ call_id c = r /\ early (call_pc c) = false.
Proof.
  intros HT (p & -> & Hp)%list_elem_of_fmap. unfold posted in Hp. rewrite app_assoc in Hp. apply elem_of_app in Hp as [Hp|Hp].
  - assert (Hr : p ∈ requests st) by (unfold requests; apply elem_of_app; by right).
    pose proof (proj1 (Forall_forall _ _) (tr_requests _ _ _ _ HT) _ Hr) as (k & c & Hk & -> & He).
    exists k, c. by rewrite (traffic_frame_id _ _ _ _ _ _ HT Hk).
  - pose proof (proj1 (Forall_forall _ _) (tr_answers _ _ _ _ HT) _ Hp) as (k & c & b & Hk & He & -> & _).
    exists k, c. by rewrite (get_put_u32 _ _ (traffic_id_range _ _ _ _ _ _ HT Hk)).
Qed.

Lemma matched_store st k c :
  Matched st -> Flow st -> length (slots st) = MAX_PENDING -> calls st !! k = Some c -> call_pc c = StoreGeneration ->
  (forall r, in_window (reader st) = Some r -> ix c <> slot_index r) ->
  Matched (with_tx_writer (with_table st (<[ix c := set_generation (call_id c) (slot_at (slots st) (ix c))]> (slots st))
    (<[k := set_pc ClearData c]> (calls st))) (tx_writer st ++ [])).
Proof.
  intros [H1 H2 H3 H4] HT Hlen Hk Hpc Hw. pose proof (slot_index_lt (call_id c)) as Hlt. rewrite <- Hlen in Hlt.
  constructor; cbn.
  - intros r k1 c1 Hr Hp Hk1 Har Hi Hge. rewrite slot_at_insert in Hge by done. case_decide as E.
    + cbn in Hge. subst r. exfalso. destruct (posted_late st _ HT Hp) as (k2 & c2 & Hk2 & Hid & He).
      destruct (traffic_inj _ _ _ _ _ _ _ _ HT Hk2 Hk Hid) as [_ ->]. by rewrite Hpc in He.
    + apply list_lookup_insert_Some in Hk1 as [(<- & <- & _)|(Hne & Hk1)]; [done|]. by apply (H1 r k1 c1).
  - intros r k1 c1 Hr [(<- & <- & _)|(Hne & Hk1)]%list_lookup_insert_Some Har Hi; [by destruct (Hw r Hr)|].
    by apply (H2 r k1 c1).
  - intros k1 c1 b [(<- & <- & _)|(Hne & Hk1)]%list_lookup_insert_Some Ht Hd; [done|].
    apply (H3 k1 c1 b); try done. rewrite slot_at_insert in Hd by done. case_decide as E; [by rewrite <- E|done].
  - intros k1 c1 b [(<- & <- & _)|(Hne & Hk1)]%list_lookup_insert_Some Hb; [by destruct Hb|]. by eapply H4.
Qed.

Lemma matched_call_step st k c c' s' sent open room :
  Matched st -> Flow st -> length (slots st) = MAX_PENDING -> calls st !! k = Some c ->
  undisturbed st (CallStep k) = true -> call_action k c (slot_at (slots st) (ix c)) open room = Some (c', s', sent) ->
  Matched (with_tx_writer (with_table st (<[ix c := s']> (slots st)) (<[k := c']> (calls st))) (tx_writer st ++ sent)).
Proof.
  intros HM HT Hlen Hk Hu Ha. pose proof (call_action_same _ _ _ _ _ _ _ _ Ha) as [Hs _].
  destruct (storing (call_pc c)) eqn:Hst.
  - assert (Hpc : call_pc c = StoreGeneration) by (by destruct (call_pc c)).
    unfold call_action in Ha. rewrite Hpc in Ha. injection Ha as <- <- <-. apply matched_store; try done.
    intros r Hr E. cbn in Hu. rewrite Hk, Hr, Hst, E, Nat.eqb_refl in Hu. done.
  - apply matched_call; try done; call_cases Ha; cbn;
      repeat match goal with E : call_pc c = _ |- _ => rewrite E in *; clear E end; try done;
      intros b; try (intros [|]; congruence); auto.
    + congruence.
    + intros [[= ->]|]; [by right|done].
    + intros [|[= ->]]; [done|]. by left; left.
Qed.

(** ** The invariant of a connection *)

Record Sound (st : Rpc) : Prop := {
  so_flow : Flow st;
  so_slots : Slots (slots st) (calls st) (writer st) (reader st);
  so_matched : Matched st;
  so_next : next_request_id st = 1 + Z.of_nat (length (calls st))
}.

Lemma sound_new : Sound rpc_new.
Proof.
  constructor; [constructor|constructor|constructor|]; cbn; try done; try constructor.
Qed.

(** A step that moves frames along or loses them, wakes calls or empties slots. *)
Lemma sound_fade st st2 :
  Sound st -> same_calls (calls st) (calls st2) -> (forall i, fades (slot_at (slots st2) i) (slot_at (slots st) i)) ->
  length (slots st2) = length (slots st) ->
  requests st2 ⊆+ requests st -> answers st2 ⊆+ answers st -> posted st2 ⊆+ posted st ->
  served st2 = served st -> next_request_id st2 = next_request_id st ->
  (alive (reader st2) = true -> alive (reader st) = true) ->
  (forall r, in_window (reader st2) = Some r -> in_window (reader st) = Some r) ->
  (forall i, swept (writer st) (reader st) i -> swept (writer st2) (reader st2) i) ->
  (forall i, (i < length (slots st))%nat -> ~ swept (writer st2) (reader st2) i ->
     occupied (slot_at (slots st2) i) = occupied (slot_at (slots st) i)) ->
  Sound st2.
Proof.
  intros [HT HS HM Hn] Hc Hf Hl Hrq Han Hpo Hsv Hnx Hal Hwi Hsw Hoc. constructor.
  - rewrite Hsv. eapply traffic_move; [done..|]. eapply traffic_evolves; [by apply same_calls_evolves|apply Hc|done].
  - eapply slots_mono; [exact HS|done|done|..].
    + intros k c' Hk Hh. destruct (proj2 Hc k c' Hk) as (c & Hk' & [Hid _] & Hp). exists c. by rewrite Hp.
    + intros k c' Hk Hh Hns. split; [|apply Hf]. apply Hoc; [|done]. rewrite (sl_length _ _ _ _ HS). apply slot_index_lt.
  - eapply matched_mono; [exact HM|done| |done|by rewrite Hsv| |done].
    + intros r Hr. eapply elem_of_submseteq; [exact Hr|]. by apply fmap_submseteq.
    + intros k c' Hk _. by eapply same_calls_mono.
  - rewrite Hnx, Hn. f_equal. by rewrite (proj1 Hc).
Qed.

Lemma sound_begin st func body :
  Sound st -> undisturbed st (Begin func body) = true -> Sound (begin_call st func body).
Proof.
  intros [HT HS HM Hn] Hu. cbn in Hu. apply Z.ltb_lt in Hu. constructor; cbn.
  - by apply traffic_begin.
  - eapply slots_mono; [exact HS|done|done| |done].
    intros k c' [Hk|[_ Hk]]%lookup_app_Some Hh; [by exists c'|]. apply list_lookup_singleton_Some in Hk as [_ <-]. done.
  - eapply matched_mono; [exact HM|done..| |done].
    intros k c' [Hk|[_ Hk]]%lookup_app_Some Hr; [by exists c'|]. apply list_lookup_singleton_Some in Hk as [_ <-].
    destruct Hr as [|[b []]]; done.
  - rewrite Hn, length_app. unfold wrap_u32. rewrite Z.mod_small by lia. cbn. lia.
Qed.

Lemma sound_call st k st' :
  Sound st -> undisturbed st (CallStep k) = true -> call_step st k = Some st' -> Sound st'.
Proof.
  intros [HT HS HM Hn] Hu (c & c' & s' & sent & Hk & Hlt & Ha & ->)%call_step_inv.
  pose proof (call_action_same _ _ _ _ _ _ _ _ Ha) as [Hs He]. constructor; cbn.
  - assert (HT' : Traffic (<[k := c']> (calls st)) (requests st) (served st) (answers st)).
    { eapply traffic_evolves; [by eapply evolves_insert|by rewrite length_insert|done]. }
    destruct (call_action_sent _ _ _ _ _ _ _ _ Ha) as [->|(Hpc & _ & -> & ->)].
    + unfold requests, answers in *. cbn. by rewrite app_nil_r.
    + eapply traffic_move; [|reflexivity|eapply traffic_send; [exact HT'|done|]].
      * unfold requests. cbn. solve_submseteq.
      * eapply traffic_fresh; [exact HT|done|by rewrite Hpc].
  - by eapply slots_call.
  - eapply matched_call_step; eauto. by apply HS.
  - by rewrite length_insert.
Qed.

Lemma sound_cancel st k st' : Sound st -> cancel st k = Some st' -> Sound st'.
Proof.
  intros [HT HS HM Hn] H. unfold cancel in H. destruct (calls st !! k) as [c|] eqn:Hk; [|done].
  assert (Hcase : forall sl, Slots sl (<[k := set_pc Cancelled c]> (calls st)) (writer st) (reader st) ->
    (forall i, fades (slot_at sl i) (slot_at (slots st) i)) ->
    Sound (with_table st sl (<[k := set_pc Cancelled c]> (calls st)))).
  { intros sl HS' Hf. constructor; cbn; [|done| |by rewrite length_insert].
    - eapply traffic_evolves; [by eapply evolves_insert|by rewrite length_insert|done].
    - eapply matched_mono; [exact HM|done..| |done].
      intros k' c' [(<- & <- & _)|(Hne & Hk')]%list_lookup_insert_Some Hr; [destruct Hr as [|[b []]]; done|by exists c']. }
  destruct (call_pc c) eqn:Hpc; try done.
  - destruct (has_room st); [done|]. injection H as <-. apply Hcase; [|done].
    rewrite <- (insert_same_slot (slots st) (ix c)); [|rewrite (sl_length _ _ _ _ HS); apply slot_index_lt].
    apply slots_plain; try done; cbn; by rewrite ?Hpc.
  - injection H as <-. apply Hcase.
    + assert (Hlt : (ix c < length (slots st))%nat) by (rewrite (sl_length _ _ _ _ HS); apply slot_index_lt).
      rewrite alter_insert_slot by done. apply release_slots; try done. by rewrite Hpc.
    + intros i. by apply (slot_at_alter_field fades).
Qed.

Lemma sound_post st q req :
  Sound st -> writer st = WriterRunning -> tx_writer st = req :: q ->
  Sound (with_writer st q WriterRunning (wire_out st ++ [req])).
Proof.
  intros [HT HS HM Hn] Hw Hq. constructor; cbn; [|by rewrite Hw in HS| |done].
  - eapply traffic_move; [|reflexivity|exact HT]. unfold requests. cbn. rewrite Hq. solve_submseteq.
  - destruct HM as [H1 H2 H3 H4]. constructor; cbn; [|done..].
    intros r k c Hr Hp Hk Ha Hi Hg. destruct (decide (r = get_u32 req)) as [->|Hne].
    + rewrite <- Hg, <- Hi. symmetry. eapply (sl_generation _ _ _ _ HS); [done..|].
      rewrite Hw. intros [[]|]. by destruct (reader st).
    + apply (H1 r k c); try done. unfold posted in *. cbn in Hp.
      rewrite <- app_assoc, fmap_app, elem_of_app, fmap_app, elem_of_app in Hp.
      rewrite fmap_app, elem_of_app. destruct Hp as [Hp|[Hp|Hp]]; [by left| |by right].
      apply list_elem_of_singleton in Hp. done.
Qed.

Lemma sound_writer st sent st' : Sound st -> writer_step st sent = Some st' -> Sound st'.
Proof.
  intros HS H. unfold writer_step in H. destruct (writer st) as [|sw|] eqn:Hw; [| |done].
  - destruct (tx_writer st) as [|req q] eqn:Hq; [done|]. injection H as <-. destruct (sent && _); [by apply sound_post|].
    eapply sound_fade; [exact HS|..]; cbn; try done.
    + apply same_calls_refl.
    + unfold requests. cbn. rewrite Hq. solve_submseteq.
    + intros i. rewrite Hw. intros [[]|]. by right.
  - injection H as <-. destruct (sweep_faded st (str "connection closed while writing") sw) as ([Hc Hf Hl (sl & cs & Hst)] & Ho & Hp).
    destruct (sweep_step st _ sw) as [st1 [sw'|]]; cbn in *; subst st1; (eapply sound_fade; [exact HS|..]; cbn in *; try done).
    + intros i. rewrite Hw. intros [Hi|Hi]; [left; by apply Hp|by right].
    + intros i _ Hi. apply Ho. intros Hpa. apply Hi. by left.
    + unfold requests. cbn. solve_submseteq.
    + intros i. by left.
    + intros i _ Hi. destruct Hi. by left.
Qed.

(** A response is looked at: either it finds its generation, or it is dropped. *)
Lemma sound_look st frame inp :
  Sound st -> reader st = Listening -> wire_in st = frame :: inp ->
  generation (slot_at (slots st) (slot_index (get_u32 frame))) = get_u32 frame ->
  Sound (with_reader st (ResetError (get_u32 frame) (drop 4 frame)) inp).
Proof.
  intros HSo Hr Hin Hg. pose proof HSo as [HT HS HM Hn].
  assert (Hf : put_u32 (get_u32 frame) ++ drop 4 frame = frame).
  { pose proof (tr_answers _ _ _ _ HT) as Ha. unfold answers in Ha. rewrite Hin in Ha.
    apply Forall_app in Ha as [_ (k & c & b & Hk & _ & -> & _)%Forall_inv].
    by rewrite (get_put_u32 _ _ (traffic_id_range _ _ _ _ _ _ HT Hk)), drop_put_u32. }
  assert (Hpost : get_u32 frame ∈ get_u32 <$> posted st).
  { apply list_elem_of_fmap_2. unfold posted, answers. rewrite Hin, !elem_of_app. right. right. right. left. by left. }
  constructor; cbn; [| | |done].
  - eapply traffic_move; [reflexivity| |exact HT]. unfold answers. cbn. rewrite Hin, Hf. solve_submseteq.
  - eapply slots_mono; [exact HS|done| |eauto|done]. intros i. rewrite Hr. intros [Hi|[]]. by left.
  - destruct HM as [H1 H2 H3 H4]. constructor; cbn; [| |done..].
    + intros r k c _ Hp Hk Ha Hi Hge. apply (H1 r k c); try done; [by rewrite Hr|].
      eapply elem_of_submseteq; [exact Hp|]. apply fmap_submseteq. unfold posted, answers. cbn. rewrite Hin, Hf. solve_submseteq.
    + intros r k c [= <-] Hk Ha Hi. apply (H1 _ k c); try done. by rewrite Hr.
Qed.

(** The response is stored: only its own call is there to take it. *)
Lemma sound_deliver st r body :
  Sound st -> reader st = WriteData r body ->
  Sound (with_reader (with_table st (alter (set_slot_data (Some body)) (slot_index r) (slots st)) (calls st))
    (WakeCall r) (wire_in st)).
Proof.
  intros [HT HS HM Hn] Hr. pose proof (slot_index_lt r) as Hlt. rewrite <- (sl_length _ _ _ _ HS) in Hlt.
  assert (Hother : forall f j, (forall s, f (set_slot_data (Some body) s) = f s) ->
    f (slot_at (alter (set_slot_data (Some body)) (slot_index r) (slots st)) j) = f (slot_at (slots st) j) :> Z).
  { intros f j Hf. rewrite slot_at_alter by done. case_decide as E; [by subst|done]. }
  constructor; cbn; [| | |done].
  - eapply traffic_move; [reflexivity| |exact HT]. unfold answers. cbn. rewrite app_nil_r. solve_submseteq.
  - eapply slots_mono; [exact HS|by rewrite length_alter| |eauto|].
    + intros i. rewrite Hr. intros [Hi|[]]. by left.
    + intros k c _ _ _. rewrite slot_at_alter by done. case_decide as E; [by rewrite <- E|done].
  - destruct HM as [H1 H2 H3 H4]. rewrite Hr in *. constructor; cbn; [| |intros k c b Hk Ht Hd|done]; [|done|].
    + intros r' k c _ Hp Hk Ha Hi Hge. rewrite (Hother generation) in Hge by done. apply (H1 r' k c); try done.
      eapply elem_of_submseteq; [exact Hp|]. apply fmap_submseteq. unfold posted, answers. cbn. rewrite app_nil_r. solve_submseteq.
    + rewrite slot_at_alter in Hd by done. case_decide as E; [|by eapply H3]. cbn in Hd. injection Hd as <-.
      assert (Hid : call_id c = r) by (by apply (H2 r k c); [|..|apply taking_armed|]).
      pose proof (tr_answers _ _ _ _ HT) as Ha. unfold answers in Ha. rewrite Hr in Ha.
      apply Forall_app in Ha as [_ Ha]. apply Forall_app in Ha as [_ (k' & c' & b & Hk' & _ & Hp & Hs)%Forall_inv].
      assert (Hid' : call_id c' = r).
      { apply (f_equal get_u32) in Hp. rewrite !get_put_u32 in Hp; [done|by eapply traffic_id_range|].
        rewrite <- Hid. by eapply traffic_id_range. }
      destruct (traffic_inj _ _ _ _ _ _ _ _ HT Hk Hk' ltac:(congruence)) as [_ <-].
      rewrite Hid' in Hp. apply app_inv_head in Hp as <-. done.
Qed.

Lemma swept_quiet w r r' :
  match r with ReaderSweep _ | ReaderEnded => False | _ => True end -> forall i, swept w r i -> swept w r' i.
Proof. intros Hr i [Hi|Hi]; [by left|]. by destruct r. Qed.

Lemma sound_reader st st' : Sound st -> reader_step st = Some st' -> Sound st'.
Proof.
  intros HSo H. pose proof (sl_length _ _ _ _ (so_slots _ HSo)) as Hlen. unfold reader_step in H.
  destruct (reader st) as [|r b|r b|r|sw|] eqn:Hr; [| | | | |done].
  - destruct (wire_in st) as [|frame inp] eqn:Hin; [done|].
    assert (Hskip : Sound (with_reader st Listening inp)).
    { eapply sound_fade; [exact HSo|..]; cbn; try done; unfold posted, answers; cbn; rewrite ?Hr, ?Hin; try done.
      - apply same_calls_refl.
      - solve_submseteq.
      - solve_submseteq. }
    destruct (length frame <? 4)%nat; [by injection H as <-|].
    destruct (slots st !! slot_index (get_u32 frame)) as [s|] eqn:Hs; [|by injection H as <-].
    destruct (Z.eqb_spec (generation s) (get_u32 frame)) as [E|E]; injection H as <-; [|done].
    apply sound_look; try done. unfold slot_at. by rewrite Hs.
  - injection H as <-. eapply sound_fade; [exact HSo|..]; cbn; try done; unfold posted, answers; cbn; rewrite ?Hr; try done.
    + apply same_calls_refl.
    + intros i. by apply (slot_at_alter_field fades).
    + by rewrite length_alter.
    + intros i _ _. by apply (slot_at_alter_field same_occupied).
  - injection H as <-. by apply sound_deliver.
  - injection H as <-. destruct (wake_faded st (slot_index r)) as [[Hc Hf Hl (sl & cs & Hst)] Ho]. rewrite Hst in *.
    eapply sound_fade; [exact HSo|..]; cbn in *; try done; unfold posted, answers; cbn; by rewrite ?Hr.
  - injection H as <-. destruct (sweep_faded st (str "connection closed while reading") sw) as ([Hc Hf Hl (sl & cs & Hst)] & Ho & Hp).
    destruct (sweep_step st _ sw) as [st1 [sw'|]]; cbn in *; subst st1; (eapply sound_fade; [exact HSo|..]; cbn in *; try done);
      unfold posted, answers; cbn; rewrite ?Hr; try done.
    + intros i [Hi|Hi]; [by left|right; by apply Hp].
    + intros i _ Hi. apply Ho. intros Hpa. apply Hi. by right.
    + intros i _. by right.
    + intros i _ Hi. destruct Hi. by right.
Qed.

Lemma sound_close st st' : Sound st -> reader_close st = Some st' -> Sound st'.
Proof.
  intros HSo H. unfold reader_close in H. destruct (reader st) eqn:Hr; try done. injection H as <-.
  eapply sound_fade; [exact HSo|..]; cbn; try done; unfold posted, answers; cbn; rewrite ?Hr; try done.
  - apply same_calls_refl.
  - by apply swept_quiet.
Qed.

Lemma sound_server_read st st' : Sound st -> server_read st = Some st' -> Sound st'.
Proof.
  intros HSo H. unfold server_read in H. destruct (wire_out st) as [|f out] eqn:Ho; [done|]. injection H as <-.
  eapply sound_fade; [exact HSo|..]; cbn; try done; unfold posted, requests, answers; cbn; rewrite ?Ho; try done.
  - apply same_calls_refl.
  - solve_submseteq.
  - solve_submseteq.
Qed.

Lemma sound_server_write st sent st' : Sound st -> server_write st sent = Some st' -> Sound st'.
Proof.
  intros HSo H. unfold server_write in H. destruct (server_open st); [|done]. destruct (replies st) as [|p rs] eqn:Hr; [done|].
  injection H as <-. destruct (sent && _);
    (eapply sound_fade; [exact HSo|..]; cbn; try done; unfold posted, requests, answers; cbn; rewrite ?Hr; try done;
     [apply same_calls_refl|solve_submseteq|solve_submseteq]).
Qed.

Lemma hand_payload f open answer payload :
  (hand (fun _ _ => answer) open f).2 = Some payload ->
  exists data, answer = Ok data /\ payload = put_u32 (get_u32 f) ++ data.
Proof.
  unfold hand. destruct (_ <? 8); [done|]. destruct (handler_of _); [|done]. destruct answer as [d|e]; [|done].
  destruct open; [|done]. cbn. intros [= <-]. by exists d.
Qed.

Lemma sound_server_hand st j answer st' : Sound st -> server_hand st j answer = Some st' -> Sound st'.
Proof.
  intros HSo H. unfold server_hand in H. destruct (tasks st !! j) as [f|] eqn:Hj; [|done]. injection H as <-.
  pose proof (delete_Permutation _ _ _ Hj) as Hperm.
  assert (Hrefuse : Sound (with_record (with_server st (wire_out st) (delete j (tasks st)) (replies st) (server_open st) (wire_in st))
    (served st) (refused st ++ [f]))).
  { eapply sound_fade; [exact HSo|..]; cbn; try done; unfold posted, requests, answers; cbn; try done.
    - apply same_calls_refl.
    - rewrite Hperm at 2. solve_submseteq.
    - rewrite Hperm at 2. solve_submseteq. }
  destruct (hand _ _ f).2 as [payload|] eqn:Hh; [|done].
  destruct (hand_payload _ _ _ _ Hh) as (d & -> & ->). destruct HSo as [HT HS HM Hn].
  assert (Hid : get_u32 (put_u32 (get_u32 f) ++ d) = get_u32 f).
  { assert (Hin : f ∈ requests st).
    { unfold requests. rewrite !elem_of_app. right. right. by eapply list_elem_of_lookup_2. }
    pose proof (proj1 (Forall_forall _ _) (tr_requests _ _ _ _ HT) _ Hin) as (k & c & Hk & -> & _).
    rewrite (traffic_frame_id _ _ _ _ _ _ HT Hk). apply get_put_u32. by eapply traffic_id_range. }
  constructor; cbn; [|done| |done].
  - eapply traffic_move; [reflexivity| |eapply traffic_serve; eapply traffic_move; [|reflexivity|exact HT]].
    + unfold answers. cbn. solve_submseteq.
    + unfold requests. cbn. rewrite Hperm at 2. solve_submseteq.
  - eapply matched_mono; [exact HM|done| |done| | |done]; cbn.
    + intros r Hr. unfold posted, answers in *. cbn in Hr. rewrite !fmap_app, !elem_of_app in *.
      assert (Ht : get_u32 <$> tasks st ≡ₚ get_u32 f :: (get_u32 <$> delete j (tasks st))) by (by rewrite Hperm at 1).
      rewrite Ht, elem_of_cons. cbn in Hr. rewrite list_elem_of_singleton, Hid in Hr. tauto.
    + intros e He. apply elem_of_app. by left.
    + intros k c' Hk _. by exists c'.
Qed.

Lemma sound_step st a st' : Sound st -> undisturbed st a = true -> rpc_step st a = Some st' -> Sound st'.
Proof.
  intros HS Hu H. destruct a; cbn [rpc_step] in H.
  - injection H as <-. by apply sound_begin.
  - by eapply sound_call.
  - by eapply sound_cancel.
  - by eapply sound_writer.
  - by eapply sound_reader.
  - by eapply sound_close.
  - by eapply sound_server_read.
  - by eapply sound_server_hand.
  - by eapply sound_server_write.
Qed.

Lemma reached_sound st : reached undisturbed st -> Sound st.
Proof. induction 1; [apply sound_new|by eapply sound_step]. Qed.
