(* ===== verification/RpcLive.v ===== *)
(** * RpcLive: on a connection that stays up every call is answered.

    The invariant [Health] of the connection of Rpc when no call times out and
    the socket does not fail, its consequence that no call takes the slot of a
    response on its way (so the condition of RpcSafe holds by itself), that no
    wake-up is lost, and that the connection comes to rest with every call
    answered. Then how each of these fails when a call is dropped or the
    connection breaks. *)

From S2P Require Import Prelude Text Rpc RpcSafe.

#[local] Arguments request_frame : simpl never.
#[local] Arguments get_u32 : simpl never.
#[local] Arguments put_u32 : simpl never.
#[local] Arguments slot_index : simpl never.

Abbreviation ix c := (slot_index (call_id c)).

(** ** The invariant *)

(** Waiting for its response. *)
Definition awaiting (p : Pc) : bool :=
  match p with PollData _ | PollError _ | RegisterWaker | Suspended => true | _ => false end.

(** Its waker is registered for the response. *)
Definition registered (p : Pc) : bool :=
  match p with PollData true | PollError true | Suspended => true | _ => false end.

(** It has seen no response since its waker was registered. *)
Definition missed (p : Pc) : bool := match p with PollError true | Suspended => true | _ => false end.

(** It has emptied the slot and not yet sent its request. *)
Definition cleared (p : Pc) : bool := match p with ClearError | Send => true | _ => false end.

(** It was not dropped, and failed only if its slot was taken. *)
Definition going (p : Pc) : bool :=
  match p with
  | Cancelled | Dropping (Err _) => false
  | Done (Err e) => bool_decide (e = too_many_requests)
  | _ => true
  end.

(** [fl] are the ids in flight, [rf] the refused requests, [wk] the slot whose
    call is about to be woken. *)
Record Health (cs : list Call) (sl : list Slot) (fl : list Z) (rf : list bytes) (wk : option nat) : Prop := {
  he_error i : slot_error (slot_at sl i) = None;
  he_going k c : cs !! k = Some c -> going (call_pc c) = true;
  he_flight k c : cs !! k = Some c -> call_id c ∈ fl ->
    awaiting (call_pc c) = true /\ slot_data (slot_at sl (ix c)) = None;
  he_cleared k c : cs !! k = Some c -> cleared (call_pc c) = true -> slot_data (slot_at sl (ix c)) = None;
  he_kept k c : cs !! k = Some c -> awaiting (call_pc c) = true ->
    call_id c ∈ fl \/ request_frame c ∈ rf \/ slot_data (slot_at sl (ix c)) <> None;
  he_waker k c : cs !! k = Some c -> registered (call_pc c) = true -> notified c = false ->
    slot_waker (slot_at sl (ix c)) = Some k;
  he_wake k c : cs !! k = Some c -> missed (call_pc c) = true -> notified c = false ->
    slot_data (slot_at sl (ix c)) <> None -> wk = Some (ix c)
}.

Definition flight (st : Rpc) : list Z := get_u32 <$> requests st ++ answers st.

Definition waking (r : ReaderTask) : option nat := match r with WakeCall id => Some (slot_index id) | _ => None end.

Record Healthy (st : Rpc) : Prop := {
  hy_sound : Sound st;
  hy_writer : writer st = WriterRunning;
  hy_reader : alive (reader st) = true;
  hy_server : server_open st = true;
  hy_window r : in_window (reader st) = Some r -> 0 <= r < 2 ^ 32;
  hy_calls : Forall (fun c => fits_frame (request_frame c) = true) (calls st);
  hy_out : Forall (fun f => fits_frame f = true) (tx_writer st ++ replies st);
  hy_health : Health (calls st) (slots st) (flight st) (refused st) (waking (reader st))
}.

Lemma awaiting_holding p : awaiting p = true -> holding p = true.
Proof. by destruct p. Qed.

Lemma awaiting_armed p : awaiting p = true -> armed p = true.
Proof. by destruct p. Qed.

Lemma health_flight cs sl fl fl' rf rf' wk :
  (forall r, r ∈ fl' -> r ∈ fl) -> (forall r, r ∈ fl -> r ∈ fl' \/ exists f, f ∈ rf' /\ get_u32 f = r /\
    forall k c, cs !! k = Some c -> call_id c = r -> f = request_frame c) ->
  (forall f, f ∈ rf -> f ∈ rf') -> Health cs sl fl rf wk -> Health cs sl fl' rf' wk.
Proof.
  intros H1 H2 H3 [He Hg Hf Hc Hk Hw Hm]. constructor; try done.
  - intros k c Hkc Hin. eauto.
  - intros k c Hkc Ha. destruct (Hk k c Hkc Ha) as [Hin|[Hin|Hd]]; [|auto..].
    destruct (H2 _ Hin) as [|(f & Hf' & _ & Heq)]; [auto|]. rewrite (Heq k c Hkc eq_refl) in Hf'. auto.
Qed.

Lemma health_new : Healthy rpc_new.
Proof.
  constructor; cbn; try done; [apply sound_new|]. constructor; cbn; try done.
  intros i. unfold slot_at, slot_table_new. destruct (replicate _ _ !! i) as [s|] eqn:E; [|done].
  by apply lookup_replicate in E as [-> _].
Qed.

(** No other call holds the slot. *)
Lemma healthy_alone st k c k' c' :
  Healthy st -> calls st !! k = Some c -> calls st !! k' = Some c' -> holding (call_pc c) = true ->
  holding (call_pc c') = true -> ix c = ix c' -> k = k'.
Proof.
  intros [HS Hw Hr _ _ _ _ _] Hk Hk' Hh Hh' Hi. eapply (sl_unique _ _ _ _ (so_slots _ HS)); eauto.
  rewrite Hw. intros [[]|]. by destruct (reader st).
Qed.

Lemma healthy_generation st k c :
  Healthy st -> calls st !! k = Some c -> armed (call_pc c) = true -> generation (slot_at (slots st) (ix c)) = call_id c.
Proof.
  intros [HS Hw Hr _ _ _ _ _] Hk Ha. eapply (sl_generation _ _ _ _ (so_slots _ HS)); eauto.
  rewrite Hw. intros [[]|]. by destruct (reader st).
Qed.

Lemma flight_call st r :
  Healthy st -> r ∈ flight st -> exists k c, calls st !! k = Some c /\ call_id c = r /\ awaiting (call_pc c) = true.
Proof.
  intros HH Hr. pose proof (hy_sound _ HH) as [HT _ _ _]. pose proof Hr as Hr'.
  assert (He : exists k c, calls st !! k = Some c /\ call_id c = r).
  { unfold flight in Hr. apply list_elem_of_fmap in Hr as (p & -> & [Hp|Hp]%elem_of_app).
    - pose proof (proj1 (Forall_forall _ _) (tr_requests _ _ _ _ HT) _ Hp) as (k & c & Hk & -> & _).
      exists k, c. by rewrite (traffic_frame_id _ _ _ _ _ _ HT Hk).
    - pose proof (proj1 (Forall_forall _ _) (tr_answers _ _ _ _ HT) _ Hp) as (k & c & b & Hk & _ & -> & _).
      exists k, c. by rewrite (get_put_u32 _ _ (traffic_id_range _ _ _ _ _ _ HT Hk)). }
  destruct He as (k & c & Hk & <-). exists k, c. split_and!; try done. by eapply (he_flight _ _ _ _ _ (hy_health _ HH)).
Qed.

(** The condition of the safety theorem holds. *)
Lemma healthy_undisturbed st a : Healthy st -> healthy st a = true -> undisturbed st a = true.
Proof.
  intros HH Ha. destruct a as [func body|k| | | | | | |]; try done.
  - cbn in *. by apply andb_prop in Ha as [-> _].
  - cbn. destruct (calls st !! k) as [c|] eqn:Hk; [|done]. destruct (in_window (reader st)) as [r|] eqn:Hw; [|done].
    apply negb_true_iff. destruct (storing (call_pc c)) eqn:Hst; [|done]. cbn. apply Nat.eqb_neq. intros Hi.
    assert (Hfl : r ∈ flight st).
    { unfold flight, answers. rewrite !fmap_app, !elem_of_app. right. right. right.
      pose proof (hy_window _ HH r Hw) as Hr. destruct (reader st) as [|r' b|r' b| | |]; try done; injection Hw as ->;
        cbn; rewrite get_put_u32 by done; by left. }
    destruct (flight_call st r HH Hfl) as (k' & c' & Hk' & Hid & Haw). subst r.
    assert (Hsame : k = k').
    { eapply (healthy_alone st k c k' c'); eauto; [by destruct (call_pc c)|by apply awaiting_holding]. }
    subst k'. assert (c' = c) as -> by congruence. by destruct (call_pc c).
Qed.

(** ** Calls *)

Lemma call_action_slot k c s open room c' s' sent :
  call_action k c s open room = Some (c', s', sent) -> slot_error s = None ->
  slot_error s' = None /\ (holding (call_pc c) = false -> slot_data s' = slot_data s /\ slot_waker s' = slot_waker s).
Proof. intros H He. call_cases H; split; try done; match goal with E : call_pc c = _ |- _ => rewrite E end; done. Qed.

(** What an action makes of the calls own fields. *)
Lemma call_action_health k c s room c' s' sent (fl : list Z) (rf : list bytes) wk :
  call_action k c s true room = Some (c', s', sent) -> slot_error s = None -> going (call_pc c) = true ->
  get_u32 (request_frame c) = call_id c ->
  (call_id c ∈ fl -> awaiting (call_pc c) = true /\ slot_data s = None) ->
  (cleared (call_pc c) = true -> slot_data s = None) ->
  (awaiting (call_pc c) = true -> call_id c ∈ fl \/ request_frame c ∈ rf \/ slot_data s <> None) ->
  (registered (call_pc c) = true -> notified c = false -> slot_waker s = Some k) ->
  (missed (call_pc c) = true -> notified c = false -> slot_data s <> None -> wk = Some (ix c)) ->
  let fl' := (get_u32 <$> sent) ++ fl in
  going (call_pc c') = true /\
  (call_id c ∈ fl' -> awaiting (call_pc c') = true /\ slot_data s' = None) /\
  (cleared (call_pc c') = true -> slot_data s' = None) /\
  (awaiting (call_pc c') = true -> call_id c ∈ fl' \/ request_frame c ∈ rf \/ slot_data s' <> None) /\
  (registered (call_pc c') = true -> notified c' = false -> slot_waker s' = Some k) /\
  (missed (call_pc c') = true -> notified c' = false -> slot_data s' <> None -> wk = Some (ix c)).
Proof.
  intros H He Hg Hid Hf Hc Hk Hw Hm. cbn zeta.
  call_cases H; rewrite ?fmap_nil, ?app_nil_l; unfold going in *; cbn in *;
    repeat match goal with E : call_pc c = _ |- _ => rewrite E in *; clear E | b : bool |- _ => destruct b end; cbn in *;
    split_and!; try done; try tauto; try congruence; try (intros Hin; destruct (Hf Hin); congruence).
  - intros _. left. rewrite Hid. by left.
  - by destruct r.
  - by destruct r.
Qed.

Lemma health_call st k c c' s' sent room :
  Healthy st -> calls st !! k = Some c ->
  call_action k c (slot_at (slots st) (ix c)) true room = Some (c', s', sent) ->
  Health (<[k := c']> (calls st)) (<[ix c := s']> (slots st)) ((get_u32 <$> sent) ++ flight st) (refused st) (waking (reader st)).
Proof.
  intros HH Hk Ha. pose proof (hy_sound _ HH) as HSo. pose proof (hy_health _ HH) as [He Hg Hf Hc Hke Hw Hm].
  pose proof (slot_index_lt (call_id c)) as Hlt. rewrite <- (sl_length _ _ _ _ (so_slots _ HSo)) in Hlt.
  pose proof (call_action_same _ _ _ _ _ _ _ _ Ha) as [Hs _]. pose proof Hs as [Hid _].
  pose proof (traffic_frame_id _ _ _ _ _ _ (so_flow _ HSo) Hk) as Hfr.
  destruct (call_action_slot _ _ _ _ _ _ _ _ Ha (He _)) as [He' Hfree].
  destruct (call_action_health _ _ _ _ _ _ _ (flight st) (refused st) (waking (reader st)) Ha (He _) (Hg _ _ Hk) Hfr (Hf _ _ Hk) (Hc _ _ Hk)
    (Hke _ _ Hk) (Hw _ _ Hk) (Hm _ _ Hk)) as (Hg' & Hf' & Hc' & Hk' & Hw' & Hm').
  assert (Hown : slot_at (<[ix c := s']> (slots st)) (ix c') = s').
  { rewrite <- Hid, slot_at_insert by done. by rewrite decide_True. }
  assert (Hoth : forall k1 c1, k <> k1 -> calls st !! k1 = Some c1 -> holding (call_pc c1) = true ->
    slot_data (slot_at (<[ix c := s']> (slots st)) (ix c1)) = slot_data (slot_at (slots st) (ix c1)) /\
    slot_waker (slot_at (<[ix c := s']> (slots st)) (ix c1)) = slot_waker (slot_at (slots st) (ix c1))).
  { intros k1 c1 Hne Hk1 Hh1. rewrite slot_at_insert by done. case_decide as E; [|done]. rewrite <- E. apply Hfree.
    destruct (holding (call_pc c)) eqn:Hh; [|done]. destruct Hne. by eapply (healthy_alone st). }
  assert (Hin : forall k1 c1, k <> k1 -> calls st !! k1 = Some c1 -> call_id c1 ∈ (get_u32 <$> sent) ++ flight st -> call_id c1 ∈ flight st).
  { intros k1 c1 Hne Hk1 [Hin|Hin]%elem_of_app; [|done].
    destruct (call_action_sent _ _ _ _ _ _ _ _ Ha) as [->|(_ & _ & _ & ->)]; [by apply not_elem_of_nil in Hin|].
    apply list_elem_of_singleton in Hin. rewrite Hfr in Hin.
    by destruct (traffic_inj _ _ _ _ _ _ _ _ (so_flow _ HSo) Hk Hk1 (eq_sym Hin)). }
  constructor.
  - intros i. rewrite slot_at_insert by done. by case_decide.
  - intros k1 c1 [(<- & <- & _)|(Hne & Hk1)]%list_lookup_insert_Some; [done|by eapply Hg].
  - intros k1 c1 [(<- & <- & _)|(Hne & Hk1)]%list_lookup_insert_Some Hi; [rewrite <- Hid, Hown in *; auto|].
    destruct (Hf k1 c1 Hk1 (Hin _ _ Hne Hk1 Hi)) as [Haw Hd]. split; [done|].
    by rewrite (proj1 (Hoth _ _ Hne Hk1 (awaiting_holding _ Haw))).
  - intros k1 c1 [(<- & <- & _)|(Hne & Hk1)]%list_lookup_insert_Some Hcl; [rewrite Hown; auto|].
    rewrite (proj1 (Hoth _ _ Hne Hk1 ltac:(by destruct (call_pc c1)))). eauto.
  - intros k1 c1 [(<- & <- & _)|(Hne & Hk1)]%list_lookup_insert_Some Haw.
    + rewrite (same_request_frame _ _ Hs), Hown, <- Hid. auto.
    + rewrite (proj1 (Hoth _ _ Hne Hk1 (awaiting_holding _ Haw))), elem_of_app. destruct (Hke k1 c1 Hk1 Haw); auto.
  - intros k1 c1 [(<- & <- & _)|(Hne & Hk1)]%list_lookup_insert_Some Hr Hno; [rewrite Hown; auto|].
    rewrite (proj2 (Hoth _ _ Hne Hk1 ltac:(by destruct (call_pc c1)))). eauto.
  - intros k1 c1 [(<- & <- & _)|(Hne & Hk1)]%list_lookup_insert_Some Hmi Hno; [rewrite Hown, <- Hid; auto|].
    rewrite (proj1 (Hoth _ _ Hne Hk1 ltac:(by destruct (call_pc c1)))). eauto.
Qed.

(** ** The steps of a healthy connection *)

Lemma flight_perm st st' : requests st' ++ answers st' ≡ₚ requests st ++ answers st ->
  forall r, r ∈ flight st' <-> r ∈ flight st.
Proof. intros Hp r. unfold flight. by rewrite Hp. Qed.

(** A frame moves along. *)
Lemma healthy_move st st' :
  Healthy st -> Sound st' -> calls st' = calls st -> slots st' = slots st -> refused st' = refused st ->
  writer st' = writer st -> server_open st' = server_open st -> alive (reader st') = true ->
  (forall r, in_window (reader st') = Some r -> 0 <= r < 2 ^ 32) -> waking (reader st') = waking (reader st) ->
  tx_writer st' ++ replies st' ⊆+ tx_writer st ++ replies st ->
  requests st' ++ answers st' ≡ₚ requests st ++ answers st -> Healthy st'.
Proof.
  intros [HS H1 H2 H3 H4 H5 H6 H7] HS' Hc Hs Hr Hw Ho Ha Hwi Hwk Hq Hp. constructor; try done; try congruence.
  - by eapply submseteq_Forall.
  - rewrite Hc, Hs, Hr, Hwk. pose proof (flight_perm st st' Hp) as Hfl.
    eapply health_flight; [| | |exact H7]; [apply Hfl| |done]. intros r Hin. left. by apply Hfl.
Qed.

Lemma healthy_begin st func body :
  Healthy st -> healthy st (Begin func body) = true -> Healthy (begin_call st func body).
Proof.
  intros HH Ha. pose proof (sound_begin st func body (hy_sound _ HH) (healthy_undisturbed _ _ HH Ha)) as HS.
  pose proof (so_flow _ (hy_sound _ HH)) as HT. pose proof (so_next _ (hy_sound _ HH)) as Hn.
  destruct HH as [HS0 H1 H2 H3 H4 H5 H6 H7].
  cbn in Ha. apply andb_prop in Ha as [Hlt Hfit]. constructor; cbn; try done.
  - apply Forall_app. split; [done|]. constructor; [|done]. unfold fits_frame, request_frame. cbn.
    rewrite put_u32_length, put_u32_length. apply Z.leb_le in Hfit. apply Z.leb_le. lia.
  - destruct H7 as [He Hg Hf Hc Hk Hw Hm].
    assert (Hcase : forall k c, (calls st ++ [mkCall (next_request_id st) func body Claim false]) !! k = Some c ->
      calls st !! k = Some c \/ (c = mkCall (next_request_id st) func body Claim false)).
    { intros k c [?|[_ Hl]]%lookup_app_Some; [by left|]. apply list_lookup_singleton_Some in Hl as [_ <-]. by right. }
    constructor; try done.
    + intros k c [?| ->]%Hcase; [eauto|done].
    + intros k c [?| ->]%Hcase Hin; [eauto|]. exfalso. cbn in Hin.
      assert (Hr : exists k' c', calls st !! k' = Some c' /\ call_id c' = next_request_id st).
      { unfold flight in Hin. apply list_elem_of_fmap in Hin as (p & Hp & [Hin|Hin]%elem_of_app).
        - pose proof (proj1 (Forall_forall _ _) (tr_requests _ _ _ _ HT) _ Hin) as (k' & c' & Hk' & -> & _).
          exists k', c'. by rewrite Hp, (traffic_frame_id _ _ _ _ _ _ HT Hk').
        - pose proof (proj1 (Forall_forall _ _) (tr_answers _ _ _ _ HT) _ Hin) as (k' & c' & b & Hk' & _ & -> & _).
          exists k', c'. by rewrite Hp, (get_put_u32 _ _ (traffic_id_range _ _ _ _ _ _ HT Hk')). }
      destruct Hr as (k' & c' & Hk' & Hid). rewrite (tr_ids _ _ _ _ HT _ _ Hk'), Hn in Hid.
      apply lookup_lt_Some in Hk'. lia.
    + intros k c [?| ->]%Hcase Hcl; [eauto|done].
    + intros k c [?| ->]%Hcase Hcl; [eauto|done].
    + intros k c [?| ->]%Hcase Hcl; [eauto|done].
    + intros k c [?| ->]%Hcase Hcl; [eauto|done].
Qed.

Lemma healthy_call st k st' : Healthy st -> call_step st k = Some st' -> Healthy st'.
Proof.
  intros HH H. pose proof (sound_call st k st' (hy_sound _ HH) (healthy_undisturbed st (CallStep k) HH eq_refl) H) as HS.
  apply call_step_inv in H as (c & c' & s' & sent & Hk & Hlt & Ha & ->). unfold writer_ended in Ha.
  rewrite (hy_writer _ HH) in Ha. cbn in Ha. pose proof (health_call st k c c' s' sent _ HH Hk Ha) as Hhe.
  pose proof (call_action_same _ _ _ _ _ _ _ _ Ha) as [Hs _].
  destruct HH as [HS0 H1 H2 H3 H4 H5 H6 H7]. constructor; cbn; try done.
  - apply Forall_insert; [done|]. rewrite (same_request_frame _ _ Hs). by eapply Forall_lookup_1 in H5.
  - rewrite <- app_assoc. apply Forall_app in H6 as [Hq Hr]. rewrite !Forall_app. split_and!; try done.
    destruct (call_action_sent _ _ _ _ _ _ _ _ Ha) as [->|(_ & _ & _ & ->)]; constructor; [|done].
    by eapply Forall_lookup_1 in H5.
  - eapply health_flight; [| | |exact Hhe]; [| |done].
    + intros r. unfold flight, requests, answers. cbn. rewrite !fmap_app, !elem_of_app. tauto.
    + intros r Hr. left. revert Hr. unfold flight, requests, answers. cbn. rewrite !fmap_app, !elem_of_app. tauto.
Qed.

Lemma healthy_writer st st' : Healthy st -> writer_step st true = Some st' -> Healthy st'.
Proof.
  intros HH H. pose proof (sound_writer st true st' (hy_sound _ HH) H) as HS. unfold writer_step in H.
  rewrite (hy_writer _ HH) in H. destruct (tx_writer st) as [|req q] eqn:Hq; [done|].
  pose proof (hy_out _ HH) as Hf. rewrite Hq in Hf. apply Forall_inv in Hf as Hreq. rewrite Hreq in H. injection H as <-.
  eapply healthy_move; try exact HH; try done; cbn.
  - by rewrite (hy_writer _ HH).
  - by apply (hy_reader _ HH).
  - by apply (hy_window _ HH).
  - rewrite Hq. solve_submseteq.
  - unfold requests, answers. cbn. rewrite Hq. solve_Permutation.
Qed.

Lemma healthy_server_read st st' : Healthy st -> server_read st = Some st' -> Healthy st'.
Proof.
  intros HH H. pose proof (sound_server_read st st' (hy_sound _ HH) H) as HS. unfold server_read in H.
  destruct (wire_out st) as [|f out] eqn:Ho; [done|]. injection H as <-.
  eapply healthy_move; try exact HH; try done; cbn.
  - by apply (hy_reader _ HH).
  - by apply (hy_window _ HH).
  - unfold requests, answers. cbn. rewrite Ho. solve_Permutation.
Qed.

Lemma healthy_server_write st st' : Healthy st -> server_write st true = Some st' -> Healthy st'.
Proof.
  intros HH H. pose proof (sound_server_write st true st' (hy_sound _ HH) H) as HS. unfold server_write in H.
  rewrite (hy_server _ HH) in H. destruct (replies st) as [|p rs] eqn:Hr; [done|].
  pose proof (hy_out _ HH) as Hf. rewrite Hr in Hf. apply Forall_app in Hf as [_ Hp%Forall_inv]. rewrite Hp in H. injection H as <-.
  eapply healthy_move; try exact HH; try done; cbn.
  - by rewrite (hy_server _ HH).
  - by apply (hy_reader _ HH).
  - by apply (hy_window _ HH).
  - rewrite Hr. solve_submseteq.
  - unfold requests, answers. cbn. rewrite Hr. solve_Permutation.
Qed.

Lemma healthy_server_hand st j answer st' :
  Healthy st -> healthy st (ServerHand j answer) = true -> server_hand st j answer = Some st' -> Healthy st'.
Proof.
  intros HH Ha H. pose proof (sound_server_hand st j answer st' (hy_sound _ HH) H) as HS. unfold server_hand in H.
  destruct (tasks st !! j) as [f|] eqn:Hj; [|done]. injection H as <-.
  pose proof (delete_Permutation _ _ _ Hj) as Hperm.
  assert (Hin : f ∈ requests st).
  { unfold requests. rewrite !elem_of_app. right. right. by eapply list_elem_of_lookup_2. }
  pose proof (so_flow _ (hy_sound _ HH)) as HT.
  pose proof (proj1 (Forall_forall _ _) (tr_requests _ _ _ _ HT) _ Hin) as (k & c & Hk & Hf & _).
  pose proof (traffic_frame_id _ _ _ _ _ _ HT Hk) as Hid. pose proof (traffic_id_range _ _ _ _ _ _ HT Hk) as Hrg.
  assert (Ht : get_u32 <$> tasks st ≡ₚ get_u32 f :: (get_u32 <$> delete j (tasks st))) by (by rewrite Hperm at 1).
  destruct HH as [HS0 H1 H2 H3 H4 H5 H6 H7].
  destruct ((hand _ _ f).2) as [payload|] eqn:Hh.
  - destruct (hand_payload _ _ _ _ Hh) as (d & -> & ->). constructor; cbn; try done.
    + rewrite app_assoc. apply Forall_app. split; [done|]. constructor; [|done]. unfold fits_frame. rewrite put_u32_length.
      cbn in Ha. apply Z.leb_le in Ha. apply Z.leb_le. lia.
    + eapply health_flight; [| | |exact H7]; [| |done].
      * intros r. unfold flight, requests, answers. cbn. rewrite !fmap_app, !elem_of_app, Ht, elem_of_cons. cbn.
        rewrite list_elem_of_singleton, Hf, Hid, get_put_u32 by done. tauto.
      * intros r Hr. left. revert Hr. unfold flight, requests, answers. cbn. rewrite !fmap_app, !elem_of_app, Ht, elem_of_cons.
        cbn. rewrite list_elem_of_singleton, Hf, Hid, get_put_u32 by done. tauto.
  - constructor; cbn; try done.
    eapply health_flight; [| | |exact H7].
    + intros r. unfold flight, requests, answers. cbn. rewrite !fmap_app, !elem_of_app, Ht, elem_of_cons. tauto.
    + intros r Hr. destruct (decide (r = get_u32 f)) as [->|Hne].
      * right. exists f. split_and!; [by apply elem_of_app; right; left|done|].
        intros k' c' Hk' E. rewrite Hf, Hid in E. destruct (traffic_inj _ _ _ _ _ _ _ _ HT Hk Hk' (eq_sym E)) as [_ <-]. done.
      * left. revert Hr. unfold flight, requests, answers. cbn. rewrite !fmap_app, !elem_of_app, Ht, elem_of_cons. tauto.
    + intros g Hg. apply elem_of_app. by left.
Qed.

Lemma from_be_range b : 0 <= from_be b < 256 ^ Z.of_nat (length b).
Proof.
  induction b as [|x b IH] using rev_ind; [cbn; lia|]. rewrite from_be_app, length_app, Nat2Z.inj_add, Z.pow_add_r by lia.
  pose proof (bz_range x). cbn in *. lia.
Qed.

Lemma get_u32_range b : 0 <= get_u32 b < 2 ^ 32.
Proof.
  unfold get_u32. pose proof (from_be_range (take 4 b)) as H. split; [lia|].
  eapply Z.lt_le_trans; [apply H|]. change (2 ^ 32) with (256 ^ 4). apply Z.pow_le_mono_r; [lia|].
  rewrite length_take. lia.
Qed.

(** A response always finds its call. *)
Lemma healthy_look st frame inp :
  Healthy st -> wire_in st = frame :: inp ->
  (4 <= length frame)%nat /\ generation (slot_at (slots st) (slot_index (get_u32 frame))) = get_u32 frame /\
  put_u32 (get_u32 frame) ++ drop 4 frame = frame.
Proof.
  intros HH Hin. pose proof (so_flow _ (hy_sound _ HH)) as HT.
  assert (Ha : frame ∈ answers st) by (unfold answers; rewrite Hin, !elem_of_app; right; left; by left).
  pose proof (proj1 (Forall_forall _ _) (tr_answers _ _ _ _ HT) _ Ha) as (k & c & b & Hk & _ & -> & _).
  pose proof (traffic_id_range _ _ _ _ _ _ HT Hk) as Hrg. rewrite (get_put_u32 _ _ Hrg), drop_put_u32, put_u32_length.
  split_and!; [lia| |done]. eapply (healthy_generation st); [done..|]. apply awaiting_armed.
  eapply (he_flight _ _ _ _ _ (hy_health _ HH)); [done|]. unfold flight. apply list_elem_of_fmap. exists (put_u32 (call_id c) ++ b).
  split; [by rewrite get_put_u32|]. apply elem_of_app. by right.
Qed.

Lemma window_flight st r b :
  Healthy st -> window (reader st) = [put_u32 r ++ b] -> in_window (reader st) = Some r ->
  r ∈ flight st /\ ~ (r ∈ get_u32 <$> replies st ++ wire_in st) /\ ~ (r ∈ get_u32 <$> requests st).
Proof.
  intros HH Hw Hi. pose proof (hy_window _ HH r Hi) as Hr. pose proof (so_flow _ (hy_sound _ HH)) as HT.
  assert (Hin : put_u32 r ++ b ∈ answers st) by (unfold answers; rewrite Hw, !elem_of_app; right; right; by left).
  split_and!.
  - unfold flight. apply list_elem_of_fmap. exists (put_u32 r ++ b). split; [by rewrite get_put_u32|]. apply elem_of_app. by right.
  - pose proof (tr_one_answer _ _ _ _ HT) as Hnd. unfold answers in Hnd. rewrite Hw, app_assoc, fmap_app in Hnd.
    apply NoDup_app in Hnd as (_ & Hno & _). intros Hx. apply (Hno _ Hx). cbn. rewrite get_put_u32 by done. by left.
  - pose proof (proj1 (Forall_forall _ _) (tr_answers _ _ _ _ HT) _ Hin) as (k & c & b' & Hk & _ & E & Hs).
    apply (f_equal get_u32) in E. rewrite (get_put_u32 r) in E by done.
    rewrite (get_put_u32 _ _ (traffic_id_range _ _ _ _ _ _ HT Hk)) in E. subst r.
    pose proof (tr_once _ _ _ _ HT) as (_ & Hno & _)%NoDup_app. apply Hno. apply list_elem_of_fmap.
    exists (request_frame c, b'). split; [|done]. change (call_id c = get_u32 (request_frame c)).
    by rewrite (traffic_frame_id _ _ _ _ _ _ HT Hk).
Qed.

(** Same data and waker, no error. *)
Definition keeps (s' s : Slot) : Prop :=
  slot_data s' = slot_data s /\ slot_waker s' = slot_waker s /\ (slot_error s = None -> slot_error s' = None).

#[global] Instance keeps_refl : Reflexive keeps.
Proof. by intros s. Qed.

Lemma health_keeps cs sl sl' fl rf wk :
  (forall i, keeps (slot_at sl' i) (slot_at sl i)) -> Health cs sl fl rf wk -> Health cs sl' fl rf wk.
Proof.
  intros Hk [He Hg Hf Hc Hke Hw Hm]. assert (Hd : forall i, slot_data (slot_at sl' i) = slot_data (slot_at sl i)) by (intros i; apply Hk).
  assert (Hwk : forall i, slot_waker (slot_at sl' i) = slot_waker (slot_at sl i)) by (intros i; apply Hk).
  constructor; intros; rewrite ?Hd, ?Hwk in *; eauto. by apply Hk.
Qed.

(** The response is stored: its call, alone in the slot, is about to be woken. *)
Lemma health_deliver st r body :
  Healthy st -> reader st = WriteData r body ->
  Health (calls st) (alter (set_slot_data (Some body)) (slot_index r) (slots st))
    (get_u32 <$> requests st ++ replies st ++ wire_in st) (refused st) (Some (slot_index r)).
Proof.
  intros HH Hr. pose proof (slot_index_lt r) as Hlt. rewrite <- (sl_length _ _ _ _ (so_slots _ (hy_sound _ HH))) in Hlt.
  destruct (window_flight st r body HH) as (Hfl & Hno1 & Hno2); [by rewrite Hr|by rewrite Hr|].
  destruct (flight_call st r HH Hfl) as (k0 & c0 & Hk0 & Hid0 & Haw0).
  pose proof (hy_health _ HH) as [He Hg Hf Hc Hke Hw Hm]. rewrite Hr in Hm. cbn in Hm.
  assert (Hsub : forall x, x ∈ get_u32 <$> requests st ++ replies st ++ wire_in st -> x ∈ flight st /\ x <> r).
  { intros x Hx. split.
    - revert Hx. unfold flight, answers. rewrite !fmap_app, !elem_of_app. tauto.
    - intros ->. revert Hx. rewrite fmap_app, elem_of_app. tauto. }
  assert (Hsup : forall x, x ∈ flight st -> x <> r -> x ∈ get_u32 <$> requests st ++ replies st ++ wire_in st).
  { intros x Hx Hne. revert Hx. unfold flight, answers. rewrite Hr, !fmap_app, !elem_of_app. cbn.
    rewrite get_put_u32, list_elem_of_singleton; [tauto|]. apply (hy_window _ HH). by rewrite Hr. }
  assert (Hown : forall k c, calls st !! k = Some c -> holding (call_pc c) = true -> slot_index r = ix c -> c = c0).
  { intros k c Hk Hh Hi. rewrite <- Hid0 in Hi. pose proof (awaiting_holding _ Haw0) as Hh0.
    pose proof (healthy_alone st _ _ _ _ HH Hk0 Hk Hh0 Hh Hi) as E. subst k0. congruence. }
  constructor.
  - intros i. rewrite slot_at_alter by done. case_decide as E; [apply (He (slot_index r))|apply He].
  - done.
  - intros k c Hk [Hin Hne]%Hsub. destruct (Hf k c Hk Hin) as [Haw Hd]. split; [done|]. rewrite slot_at_alter by done.
    case_decide as E; [|done]. pose proof (Hown k c Hk (awaiting_holding _ Haw) E). congruence.
  - intros k c Hk Hcl. rewrite slot_at_alter by done. case_decide as E; [|eauto].
    pose proof (Hown k c Hk ltac:(by destruct (call_pc c)) E) as ->. by destruct (call_pc c0).
  - intros k c Hk Haw. rewrite slot_at_alter by done. case_decide as E; [by right; right|].
    destruct (Hke k c Hk Haw) as [Hin|]; [|by right]. left. apply Hsup; [done|]. congruence.
  - intros k c Hk Hreg Hn. rewrite slot_at_alter by done. case_decide as E; [rewrite E; by eapply Hw|by eapply Hw].
  - intros k c Hk Hmi Hn Hd. rewrite slot_at_alter in Hd by done. case_decide as E; [by f_equal|]. by specialize (Hm k c Hk Hmi Hn Hd).
Qed.

Lemma wake_lookup st i k' c' :
  calls (wake st i) !! k' = Some c' ->
  exists c, calls st !! k' = Some c /\ same_request c c' /\ call_pc c' = call_pc c /\
    (c' = c /\ slot_waker (slot_at (slots st) i) <> Some k' \/ notified c' = true).
Proof.
  unfold wake, slot_at. destruct (slots st !! i) as [s|] eqn:Hi; [|intros H; exists c'; split_and!; try done; by left].
  cbn. destruct (slot_waker s) as [k|]; [|intros H; exists c'; split_and!; try done; by left]. cbn.
  rewrite list_lookup_alter. case_decide as E.
  - subst. destruct (calls st !! k') as [c|]; [|done]. intros [= <-]. exists c. split_and!; try done. by right.
  - intros H. exists c'. split_and!; try done. left. split; congruence.
Qed.

Lemma wake_slots st i j :
  slot_data (slot_at (slots (wake st i)) j) = slot_data (slot_at (slots st) j) /\
  slot_error (slot_at (slots (wake st i)) j) = slot_error (slot_at (slots st) j) /\
  (i <> j -> slot_waker (slot_at (slots (wake st i)) j) = slot_waker (slot_at (slots st) j)).
Proof.
  unfold wake. destruct (slots st !! i) as [s|] eqn:Hi; [|done]. destruct (slot_waker s) as [k|]; [|done]. cbn.
  rewrite slot_at_insert by by eapply lookup_lt_Some. case_decide as E; [subst|done]. unfold slot_at. by rewrite Hi.
Qed.

(** Waking finds the call that missed the response. *)
Lemma health_wake st i fl rf :
  Health (calls st) (slots st) fl rf (Some i) -> Health (calls (wake st i)) (slots (wake st i)) fl rf None.
Proof.
  intros [He Hg Hf Hc Hke Hw Hm]. assert (Hd : forall j, slot_data (slot_at (slots (wake st i)) j) = slot_data (slot_at (slots st) j))
    by (intros j; apply wake_slots).
  constructor.
  - intros j. rewrite (proj1 (proj2 (wake_slots st i j))). apply He.
  - intros k c' (c & Hk & _ & -> & _)%wake_lookup. eauto.
  - intros k c' (c & Hk & (<- & _) & -> & _)%wake_lookup. rewrite Hd. eauto.
  - intros k c' (c & Hk & (<- & _) & -> & _)%wake_lookup. rewrite Hd. eauto.
  - intros k c' (c & Hk & Hs & -> & _)%wake_lookup. rewrite Hd, (same_request_frame _ _ Hs). destruct Hs as (<- & _). eauto.
  - intros k c' (c & Hk & Hs & Hp & [[-> Hne]|Hn])%wake_lookup Hr Hno; [|congruence].
    pose proof (Hw k c Hk Hr Hno) as Hwk. rewrite (proj2 (proj2 (wake_slots st i _))); [done|congruence].
  - intros k c' (c & Hk & Hs & Hp & [[-> Hne]|Hn])%wake_lookup Hmi Hno; [|congruence]. rewrite Hd. intros Hda.
    pose proof (Hm k c Hk Hmi Hno Hda) as [= ->]. destruct Hne. apply Hw; [done| |done]. by destruct (call_pc c) as [| | | | |[]|[]| | | | |].
Qed.

Lemma healthy_reader st st' : Healthy st -> reader_step st = Some st' -> Healthy st'.
Proof.
  intros HH H. pose proof (sound_reader st st' (hy_sound _ HH) H) as HS. unfold reader_step in H.
  pose proof (hy_reader _ HH) as Hal. destruct (reader st) as [|r b|r b|r|sw|] eqn:Hr; [| | | |done..].
  - destruct (wire_in st) as [|frame inp] eqn:Hin; [done|]. destruct (healthy_look _ _ _ HH Hin) as (Hlen & Hgen & Hfr).
    rewrite (proj2 (Nat.ltb_ge _ _) Hlen) in H. unfold slot_at in Hgen.
    destruct (slots st !! slot_index (get_u32 frame)) as [s|] eqn:Hs.
    2: { apply lookup_ge_None in Hs. rewrite (sl_length _ _ _ _ (so_slots _ (hy_sound _ HH))) in Hs.
         pose proof (slot_index_lt (get_u32 frame)). lia. }
    cbn in Hgen. rewrite Hgen, Z.eqb_refl in H. injection H as <-.
    eapply healthy_move; try exact HH; try done; cbn.
    + intros r [= <-]. apply get_u32_range.
    + by rewrite Hr.
    + unfold requests, answers. cbn. rewrite Hin, Hr, Hfr. solve_Permutation.
  - injection H as <-. destruct HH as [HS0 H1 H2 H3 H4 H5 H6 H7]. rewrite Hr in *. constructor; cbn; try done.
    unfold flight, answers. cbn. unfold flight, answers in H7. rewrite Hr in H7.
    eapply health_keeps; [|exact H7]. intros i. by apply (slot_at_alter_field keeps).
  - injection H as <-. pose proof (health_deliver st r b HH Hr) as Hd. destruct HH as [HS0 H1 H2 H3 H4 H5 H6 H7].
    constructor; cbn; try done. unfold flight, answers. cbn. by rewrite app_nil_r.
  - injection H as <-. pose proof (hy_health _ HH) as Hhe. rewrite Hr in Hhe. apply health_wake in Hhe.
    destruct (wake_faded st (slot_index r)) as [[Hc _ _ (sl & cs & Hst)] _]. destruct HH as [HS0 H1 H2 H3 H4 H5 H6 H7].
    rewrite Hst in *. cbn in *. constructor; cbn; try done.
    + apply Forall_forall. intros c' [k Hk]%list_elem_of_lookup. destruct (proj2 Hc k c' Hk) as (c & Hk' & Hs & _).
      rewrite (same_request_frame _ _ Hs). by eapply Forall_lookup_1 in H5.
    + unfold flight, answers in *. cbn. by rewrite Hr in Hhe.
Qed.

Lemma healthy_step st a st' : Healthy st -> healthy st a = true -> rpc_step st a = Some st' -> Healthy st'.
Proof.
  intros HH Ha H. destruct a as [func body|k|k|sent| | | |j answer|sent]; cbn [rpc_step] in H; try done.
  - injection H as <-. by apply healthy_begin.
  - by eapply healthy_call.
  - cbn in Ha. subst sent. by eapply healthy_writer.
  - by eapply healthy_reader.
  - by eapply healthy_server_read.
  - by eapply healthy_server_hand.
  - cbn in Ha. subst sent. by eapply healthy_server_write.
Qed.

Lemma reached_healthy st : reached healthy st -> Healthy st.
Proof. induction 1; [apply health_new|by eapply healthy_step]. Qed.

(** ** Coming to rest *)

(** A step of the tasks, not the start of a call. *)
Definition internal (st : Rpc) (a : Action) : bool :=
  healthy st a && match a with Begin _ _ => false | _ => true end.

Definition idle (st : Rpc) : Prop := forall a, internal st a = true -> rpc_step st a = None.

Definition pc_weight (p : Pc) : nat :=
  match p with
  | Claim => 104 | StoreGeneration => 103 | ClearData => 102 | ClearError => 101 | Send => 100
  | PollData false => 7 | PollError false => 6 | RegisterWaker => 5 | PollData true => 4 | PollError true => 3
  | Suspended => 2 | Dropping _ => 1 | Done _ | Cancelled => 0
  end.

Definition call_weight (c : Call) : nat := pc_weight (call_pc c) + if notified c then 6 else 0.

Definition reader_weight (r : ReaderTask) : nat :=
  match r with ResetError _ _ => 20 | WriteData _ _ => 15 | WakeCall _ => 10 | _ => 0 end.

(** The work that is left: each call, and each frame on its way. *)
Definition rpc_work (st : Rpc) : nat :=
  (sum_list_with call_weight (calls st) + 60 * length (tx_writer st) + 50 * length (wire_out st) +
   40 * length (tasks st) + 30 * length (replies st) + 25 * length (wire_in st) + reader_weight (reader st))%nat.

Lemma weight_insert cs k c c' :
  cs !! k = Some c ->
  (sum_list_with call_weight (<[k := c']> cs) + call_weight c = sum_list_with call_weight cs + call_weight c')%nat.
Proof.
  intros Hk. assert (Hlt : (k < length cs)%nat) by (by eapply lookup_lt_Some).
  rewrite <- (take_drop_middle cs k c Hk) at 2. rewrite insert_take_drop by done.
  rewrite !sum_list_with_app. cbn. lia.
Qed.

Lemma weight_wake st i :
  (sum_list_with call_weight (calls (wake st i)) <= sum_list_with call_weight (calls st) + 6)%nat.
Proof.
  unfold wake. destruct (slots st !! i) as [s|]; [|lia]. destruct (slot_waker s) as [k|]; [|lia]. cbn.
  destruct (calls st !! k) as [c|] eqn:Hk.
  - rewrite (alter_insert _ _ _ _ Hk). pose proof (weight_insert _ _ _ (set_notified true c) Hk) as E.
    unfold call_weight in *. cbn in E. destruct (notified c); lia.
  - rewrite alter_out by done. lia.
Qed.

Lemma weight_action k c s room c' s' sent :
  call_action k c s true room = Some (c', s', sent) ->
  (call_weight c' + 60 * length sent < call_weight c)%nat.
Proof.
  intros H. unfold call_weight. call_cases H; cbn;
    repeat match goal with E : call_pc c = _ |- _ => rewrite E in *; clear E | E : notified c = _ |- _ => rewrite E in * end; cbn;
    repeat match goal with b : bool |- _ => destruct b end; destruct (notified c); cbn; lia.
Qed.

Lemma work_decreases st a st' :
  Healthy st -> internal st a = true -> rpc_step st a = Some st' -> (rpc_work st' < rpc_work st)%nat.
Proof.
  intros HH [Ha Hi]%andb_prop H. unfold rpc_work.
  destruct a as [func body|k|k|sent| | | |j answer|sent]; cbn [rpc_step] in H; try done.
  - apply call_step_inv in H as (c & c' & s' & sent & Hk & _ & Hact & ->). unfold writer_ended in Hact.
    rewrite (hy_writer _ HH) in Hact. cbn. rewrite length_app. apply weight_action in Hact.
    pose proof (weight_insert _ _ _ c' Hk). lia.
  - cbn in Ha. subst sent. unfold writer_step in H. rewrite (hy_writer _ HH) in H.
    destruct (tx_writer st) as [|req q] eqn:Hq; [done|].
    pose proof (hy_out _ HH) as Hf. rewrite Hq in Hf. apply Forall_inv in Hf. rewrite Hf in H. injection H as <-.
    cbn. rewrite length_app. cbn. lia.
  - unfold reader_step in H. pose proof (hy_reader _ HH) as Hal.
    destruct (reader st) as [|r b|r b|r|sw|] eqn:Hr; [| | | |done..].
    + destruct (wire_in st) as [|frame inp]; [done|]. injection H as <-.
      repeat case_match; cbn; lia.
    + injection H as <-. cbn. lia.
    + injection H as <-. cbn. lia.
    + injection H as <-. destruct (wake_faded st (slot_index r)) as [[_ _ _ (sl & cs & Hst)] _].
      pose proof (weight_wake st (slot_index r)) as Hw. rewrite Hst in *. cbn in *. lia.
  - unfold server_read in H. destruct (wire_out st) as [|f out]; [done|]. injection H as <-. cbn. rewrite length_app. cbn. lia.
  - unfold server_hand in H. destruct (tasks st !! j) as [f|] eqn:Hj; [|done]. injection H as <-.
    pose proof (delete_Permutation _ _ _ Hj) as Hp%Permutation_length. cbn in Hp.
    repeat case_match; cbn; rewrite ?length_app; cbn; lia.
  - cbn in Ha. subst sent. unfold server_write in H. rewrite (hy_server _ HH) in H. destruct (replies st) as [|p rs] eqn:Hr; [done|].
    pose proof (hy_out _ HH) as Hf. rewrite Hr in Hf. apply Forall_app in Hf as [_ Hp%Forall_inv]. rewrite Hp in H. injection H as <-.
    cbn. rewrite length_app. cbn. lia.
Qed.

Lemma work_bound acts : forall st st',
  Healthy st -> rpc_run internal st acts = Some st' -> (length acts + rpc_work st' <= rpc_work st)%nat /\ Healthy st'.
Proof.
  induction acts as [|a acts IH]; intros st st' HH H; cbn in H; [injection H as <-; cbn; split; [lia|done]|].
  destruct (internal st a) eqn:Ha; [|done]. destruct (rpc_step st a) as [st1|] eqn:Hs; [|done].
  pose proof (work_decreases _ _ _ HH Ha Hs). apply andb_prop in Ha as [Ha _].
  destruct (IH st1 st' (healthy_step _ _ _ HH Ha Hs) H) as [Hle HH']. split; [cbn; lia|done].
Qed.

Lemma idle_queues st :
  Healthy st -> idle st ->
  reader st = Listening /\ tx_writer st = [] /\ wire_out st = [] /\ tasks st = [] /\ replies st = [] /\ wire_in st = [].
Proof.
  intros HH Hid. pose proof (Hid ReaderStep eq_refl) as Hr. pose proof (Hid (WriterStep true) eq_refl) as Hw.
  pose proof (Hid ServerRead eq_refl) as Hsr. pose proof (Hid (ServerHand 0 (Err [])) eq_refl) as Hsh.
  pose proof (Hid (ServerWrite true) eq_refl) as Hsw. pose proof (hy_reader _ HH) as Hal.
  cbn in *. unfold reader_step, writer_step, server_read, server_hand, server_write in *.
  rewrite (hy_writer _ HH) in Hw. rewrite (hy_server _ HH) in Hsw.
  destruct (reader st); [|done..]. destruct (wire_in st); [|done]. destruct (tx_writer st); [|done].
  destruct (wire_out st); [|done]. destruct (replies st); [|done]. destruct (tasks st); done.
Qed.

Lemma idle_call st k c :
  Healthy st -> idle st -> calls st !! k = Some c ->
  (exists r, call_pc c = Done r) \/ (call_pc c = Suspended /\ notified c = false).
Proof.
  intros HH Hid Hk. pose proof (Hid (CallStep k) eq_refl) as Hc. cbn in Hc. unfold call_step in Hc. rewrite Hk in Hc.
  destruct (slots st !! ix c) as [s|] eqn:Hs.
  2: { apply lookup_ge_None in Hs. rewrite (sl_length _ _ _ _ (so_slots _ (hy_sound _ HH))) in Hs.
       pose proof (slot_index_lt (call_id c)). lia. }
  destruct (idle_queues st HH Hid) as (_ & Htx & _). pose proof (he_going _ _ _ _ _ (hy_health _ HH) _ _ Hk) as Hg.
  unfold writer_ended, has_room in Hc. rewrite Htx, (hy_writer _ HH) in Hc.
  destruct (call_action k c s _ _) as [[[c' s'] sent]|] eqn:Ha; [done|]. unfold call_action in Ha. change (0 <? CHANNEL_SIZE)%nat with true in Ha. cbn in Ha.
  destruct (call_pc c) as [| | | | |again|again| | |r|r|]; try done; repeat case_match; try done; eauto.
Qed.

(** ** Properties *)

(** C13: whatever the interleaving of the calls, of the tasks and of the server,
    timeouts and a failing connection included, a call that returns a response
    returns the response to its own request, and its request was served exactly
    once. The one condition, besides that fewer than 2^32 - 2 calls were
    made, is that no call takes over a slot while the reading task is between
    the check of the generation and the store of the response. *)
Theorem rpc_answers_own st k c b :
  reached undisturbed st -> calls st !! k = Some c -> call_pc c = Done (Ok b) ->
  exists j, served st !! j = Some (request_frame c, b) /\
    forall j' e, served st !! j' = Some e -> get_u32 e.1 = call_id c -> j' = j.
Proof.
  intros Hst Hk Hpc. pose proof (reached_sound st Hst) as [HT _ HM _].
  pose proof (ma_answered _ HM k c b Hk (or_intror Hpc)) as [j Hj]%list_elem_of_lookup.
  exists j. split; [done|]. intros j' e Hj' He.
  pose proof (tr_once _ _ _ _ HT) as (Hnd & _)%NoDup_app.
  eapply (NoDup_lookup _ j' j (call_id c)); [exact Hnd|..]; rewrite list_lookup_fmap.
  - rewrite Hj'. cbn. by rewrite He.
  - rewrite Hj. cbn. f_equal. change (get_u32 (request_frame c) = call_id c). by eapply traffic_frame_id.
Qed.


(** ** Sample runs *)

Definition steps (n : nat) (a : Action) : list Action := replicate n a.

(** A call up to the send of its request, and on to the wait for its response. *)
Definition sending (k : nat) : list Action := steps 5 (CallStep k).
Definition suspending (k : nat) : list Action := steps 5 (CallStep k).

Definition text_a : bytes := str "a".
Definition text_b : bytes := str "b".

(** Two calls, answered in the other order; the first has to be woken. *)
Definition crossing : list Action :=
  [Begin 1 text_a; Begin 1 text_b] ++ sending 0 ++ sending 1 ++ suspending 0 ++
  [WriterStep true; WriterStep true; ServerRead; ServerRead; ServerHand 1 (Ok text_b); ServerHand 0 (Ok text_a);
   ServerWrite true; ServerWrite true] ++ steps 4 ReaderStep ++ steps 2 (CallStep 1) ++ steps 4 ReaderStep ++ steps 3 (CallStep 0).

(** The fields of a state that are small. *)
Definition summary (st : Rpc) :=
  (calls st, served st, refused st, (tx_writer st, writer st, reader st), (wire_out st, tasks st, replies st, wire_in st)).

Definition crossed_calls : list Call :=
  [mkCall 1 1 text_a (Done (Ok text_a)) false; mkCall 2 1 text_b (Done (Ok text_b)) false].

Lemma crossing_runs ok : (forall st a, healthy st a = true -> ok st a = true) ->
  exists st, reached ok st /\ reached healthy st /\ calls st = crossed_calls /\ refused st = [] /\
    (tx_writer st, writer st, reader st) = ([], WriterRunning, Listening) /\
    (wire_out st, tasks st, replies st, wire_in st) = ([], [], [], []).
Proof.
  intros Hok. assert (H : summary <$> rpc_run healthy rpc_new crossing =
    Some (crossed_calls, [(request_frame (mkCall 2 1 text_b Claim false), text_b); (request_frame (mkCall 1 1 text_a Claim false), text_a)],
      [], ([], WriterRunning, Listening), ([], [], [], []))) by (vm_compute; reflexivity).
  destruct (rpc_run healthy rpc_new crossing) as [st|] eqn:E; [|done]. apply fmap_Some in H as (st' & [= <-] & H).
  exists st. pose proof (rpc_run_reached _ _ _ _ (reached_new _) E) as Hh. split_and!.
  - clear -Hh Hok. induction Hh; [constructor|]. eapply reached_step; eauto.
  - done.
  - exact (eq_sym (f_equal (fun p => p.1.1.1.1) H)).
  - exact (eq_sym (f_equal (fun p => p.1.1.2) H)).
  - exact (eq_sym (f_equal (fun p => p.1.2) H)).
  - exact (eq_sym (f_equal (fun p => p.2) H)).
Qed.

Lemma rpc_answers_own_witness :
  exists st j, calls st = crossed_calls /\ served st !! j = Some (request_frame (mkCall 1 1 text_a (Done (Ok text_a)) false), text_a).
Proof.
  destruct (crossing_runs (fun _ _ => true)) as (st & _ & Hh & Hc & _); [done|].
  assert (Hu : reached undisturbed st).
  { clear Hc. induction Hh; [constructor|]. eapply reached_step; eauto. apply healthy_undisturbed; [by apply reached_healthy|done]. }
  destruct (rpc_answers_own st 0 (mkCall 1 1 text_a (Done (Ok text_a)) false) text_a Hu) as (j & Hj & _); [by rewrite Hc|done|].
  by exists st, j.
Defined.


(** ** How it goes wrong *)

Definition any_step (st : Rpc) (a : Action) : bool := true.

(** [n] calls that have only taken their ids. *)
Fixpoint waiting_calls (first : Z) (n : nat) : list Call :=
  match n with
  | O => []
  | S n' => mkCall first 1 [] Claim false :: waiting_calls (wrap_u32 (first + 1)) n'
  end.

Definition with_calls (st : Rpc) (n : nat) : Rpc :=
  mkRpc (slots st) (wrap_u32 (next_request_id st + Z.of_nat n)) (calls st ++ waiting_calls (next_request_id st) n)
    (tx_writer st) (writer st) (reader st) (wire_out st) (tasks st) (replies st)
    (server_open st) (wire_in st) (served st) (refused st).

Lemma run_begins n : forall st, wrap_u32 (next_request_id st) = next_request_id st ->
  rpc_run any_step st (steps n (Begin 1 [])) = Some (with_calls st n).
Proof.
  induction n as [|n IH]; intros st Hst; cbn.
  - unfold with_calls. cbn. rewrite Z.add_0_r, app_nil_r, Hst. by destruct st.
  - unfold steps in IH. rewrite IH by (cbn; unfold wrap_u32; by rewrite Z.mod_mod by lia).
    unfold with_calls. cbn. f_equal. f_equal.
    + unfold wrap_u32. rewrite Zplus_mod_idemp_l. f_equal. lia.
    + by rewrite <- app_assoc.
Qed.

Lemma run_app ok acts1 acts2 st :
  rpc_run ok st (acts1 ++ acts2) = (let* st1 := rpc_run ok st acts1 in rpc_run ok st1 acts2).
Proof.
  revert st. induction acts1 as [|a acts1 IH]; intros st; [done|]. cbn. destruct (ok st a); [|done].
  destruct (rpc_step st a); [apply IH|done].
Qed.

(** The first call times out while its response is being stored. *)
Definition stale_before : list Action :=
  [Begin 1 text_a] ++ sending 0 ++ suspending 0 ++
  [WriterStep true; ServerRead; ServerHand 0 (Ok text_a); ServerWrite true; ReaderStep; Cancel 0].

(** Another call takes the slot over. *)
Definition stale_after : list Action :=
  [Begin 1 text_b] ++ steps 4 (CallStep MAX_PENDING) ++ steps 2 ReaderStep ++ steps 3 (CallStep MAX_PENDING).

(** The generation does not keep a late response apart: when a call times
    out while its response is being stored, and the call with the same low bits
    takes the slot over in that moment, that call returns the response of the
    other, though its own request was never served. *)
Theorem rpc_stale_response :
  exists st c b, reached any_step st /\ calls st !! MAX_PENDING = Some c /\ call_pc c = Done (Ok b) /\
    forall e, e ∈ served st -> e.1 <> request_frame c.
Proof.
  set (n := Z.to_nat 65535).
  assert (H : (fun st => (calls st !! MAX_PENDING, served st)) <$>
      (let* st1 := rpc_run any_step rpc_new stale_before in rpc_run any_step (with_calls st1 n) stale_after) =
    Some (Some (mkCall 65537 1 text_b (Done (Ok text_a)) false), [(request_frame (mkCall 1 1 text_a Claim false), text_a)]))
    by (vm_compute; reflexivity).
  destruct (rpc_run any_step rpc_new stale_before) as [st1|] eqn:E1; [|done].
  destruct (rpc_run any_step (with_calls st1 n) stale_after) as [st2|] eqn:E2; [|done].
  apply (inj Some), pair_equal_spec in H as [Hc Hs]. exists st2, (mkCall 65537 1 text_b (Done (Ok text_a)) false), text_a.
  split; [|split; [exact Hc|split; [reflexivity|]]].
  - assert (Hn : next_request_id st1 = 2).
    { assert (Hn : next_request_id <$> rpc_run any_step rpc_new stale_before = Some 2) by (vm_compute; reflexivity).
      rewrite E1 in Hn. by injection Hn. }
    eapply rpc_run_reached; [|exact E2]. eapply rpc_run_reached; [|apply (run_begins n)].
    + eapply rpc_run_reached; [constructor|exact E1].
    + by rewrite Hn.
  - rewrite Hs. intros e ->%list_elem_of_singleton. cbn. vm_compute. congruence.
Qed.

(** A slot that is occupied and that no call holds. *)
Definition leaked (st : Rpc) (i : nat) (n : nat) : Prop :=
  length (slots st) = MAX_PENDING /\ occupied (slot_at (slots st) i) = true /\
  forall k c, calls st !! k = Some c -> ix c = i ->
    holding (call_pc c) = false /\ ((n <= k)%nat -> call_pc c = Claim \/ call_pc c = Done (Err too_many_requests)).

Definition unswept (st : Rpc) : Prop := writer st = WriterRunning /\ alive (reader st) = true.

Lemma leaked_table st st' i n :
  leaked st i n -> same_calls (calls st) (calls st') -> length (slots st') = length (slots st) ->
  occupied (slot_at (slots st') i) = occupied (slot_at (slots st) i) -> leaked st' i n.
Proof.
  intros (Hl & Ho & Hc) Hsc Hlen Hoc. split; [by rewrite Hlen|]. split; [by rewrite Hoc|].
  intros k c' Hk Hi. destruct (proj2 Hsc k c' Hk) as (c & Hk' & [Hid _] & Hp). rewrite <- Hp. apply (Hc k c Hk'). by rewrite Hid.
Qed.

Lemma leaked_call st k st' i n : leaked st i n -> call_step st k = Some st' -> leaked st' i n.
Proof.
  intros (Hl & Ho & Hc) (c & c' & s' & sent & Hk & Hlt & Ha & ->)%call_step_inv.
  pose proof (call_action_same _ _ _ _ _ _ _ _ Ha) as [[Hid _] _]. split; [cbn; by rewrite length_insert|].
  destruct (decide (ix c = i)) as [Hi|Hi].
  - destruct (Hc k c Hk Hi) as [Hh _]. assert (Hpc : call_pc c = Claim).
    { unfold call_action in Ha. by destruct (call_pc c). }
    unfold call_action in Ha. rewrite Hpc, Hi, Ho in Ha. injection Ha as <- <- <-. cbn. split.
    + rewrite slot_at_insert, decide_True; done.
    + intros k1 c1 [(<- & <- & _)|(Hne & Hk1)]%list_lookup_insert_Some Hi1; [split; [done|by right]|by apply Hc].
  - cbn. split; [rewrite slot_at_insert, decide_False; done|].
    intros k1 c1 [(<- & <- & _)|(Hne & Hk1)]%list_lookup_insert_Some Hi1; [by rewrite <- Hid in Hi1|by apply Hc].
Qed.

Lemma leaked_cancel st k st' i n : leaked st i n -> cancel st k = Some st' -> leaked st' i n.
Proof.
  intros (Hl & Ho & Hc) H. unfold cancel in H. destruct (calls st !! k) as [c|] eqn:Hk; [|done].
  assert (Hn : holding (call_pc c) = true -> ix c <> i).
  { intros Hh E. destruct (Hc k c Hk E). congruence. }
  assert (Hcalls : ix c <> i -> forall k1 c1, <[k := set_pc Cancelled c]> (calls st) !! k1 = Some c1 -> ix c1 = i ->
    holding (call_pc c1) = false /\ ((n <= k1)%nat -> call_pc c1 = Claim \/ call_pc c1 = Done (Err too_many_requests))).
  { intros Hi k1 c1 [(<- & <- & _)|(Hne & Hk1)]%list_lookup_insert_Some E; [done|by apply Hc]. }
  destruct (call_pc c) eqn:Hpc; try done.
  - destruct (has_room st); [done|]. injection H as <-. split_and!; [done..|]. apply Hcalls. by apply Hn.
  - injection H as <-. split_and!; cbn; [by rewrite length_alter| |apply Hcalls; by apply Hn].
    unfold slot_at. rewrite list_lookup_alter_ne; [done|]. by apply Hn.
Qed.

Lemma unswept_step st a st' : rpc_step st a = Some st' -> unswept st' -> unswept st.
Proof.
  intros H [Hw Hr]. destruct a as [func body|k|k|sent| | | |j answer|sent]; cbn [rpc_step] in H.
  - by injection H as <-.
  - by apply call_step_inv in H as (c & c' & s' & sent & _ & _ & _ & ->).
  - unfold cancel in H. destruct (calls st !! k) as [c|]; [|done].
    destruct (call_pc c); try done; [destruct (has_room st); [done|]|]; by injection H as <-.
  - unfold writer_step in H. destruct (writer st) as [|sw|] eqn:Ew; [|injection H as <-; by destruct (sweep_step st _ sw) as [? []]|done].
    destruct (tx_writer st); [done|]. injection H as <-. destruct (sent && _); done.
  - unfold reader_step in H. unfold unswept. destruct (reader st) as [|r b|r b|r|sw|] eqn:Er.
    + destruct (wire_in st); [done|]. injection H as <-. by repeat case_match.
    + by injection H as <-.
    + by injection H as <-.
    + injection H as <-. by destruct (wake_faded st (slot_index r)) as [[_ _ _ (sl & cs & Hst)] _]; rewrite Hst in *.
    + injection H as <-. by destruct (sweep_step st _ sw) as [? []].
    + done.
  - unfold reader_close in H. destruct (reader st); try done. by injection H as <-.
  - unfold server_read in H. destruct (wire_out st); [done|]. by injection H as <-.
  - unfold server_hand in H. destruct (tasks st !! j); [|done]. injection H as <-. repeat case_match; done.
  - unfold server_write in H. destruct (server_open st), (replies st); try done. injection H as <-. destruct (sent && _); done.
Qed.

Lemma unswept_run acts : forall st st', rpc_run any_step st acts = Some st' -> unswept st' -> unswept st.
Proof.
  induction acts as [|a acts IH]; intros st st' H Hu; cbn in H; [by injection H as <-|].
  destruct (rpc_step st a) as [st1|] eqn:Es; [|done]. eapply unswept_step; [exact Es|]. by eapply IH.
Qed.

(** While the connection is up nothing frees the slot. *)
Lemma leaked_step st a st' i n :
  leaked st i n -> (n <= length (calls st))%nat -> rpc_step st a = Some st' -> unswept st' ->
  leaked st' i n /\ (n <= length (calls st'))%nat.
Proof.
  intros HL Hn H Hu. destruct (unswept_step _ _ _ H Hu) as [Hw Hr].
  destruct a as [func body|k|k|sent| | | |j answer|sent]; cbn [rpc_step] in H.
  - injection H as <-. destruct HL as (Hl & Ho & Hc). cbn. rewrite length_app. split; [|lia].
    split; [done|]. split; [done|]. intros k c [Hk|[_ Hk]]%lookup_app_Some Hi; [by apply Hc|].
    apply list_lookup_singleton_Some in Hk as [_ <-]. split; [done|]. by left.
  - pose proof (leaked_call _ _ _ _ _ HL H). apply call_step_inv in H as (c & c' & s' & sent & _ & _ & _ & ->).
    cbn. by rewrite length_insert.
  - pose proof (leaked_cancel _ _ _ _ _ HL H). unfold cancel in H. destruct (calls st !! k) as [c|]; [|done].
    destruct (call_pc c); try done; [destruct (has_room st); [done|]|]; injection H as <-; cbn; by rewrite length_insert.
  - unfold writer_step in H. rewrite Hw in H. destruct (tx_writer st); [done|]. injection H as <-. destruct (sent && _); done.
  - unfold reader_step in H. destruct (reader st) as [|r b|r b|r|sw|]; [| | | |done..].
    + destruct (wire_in st); [done|]. injection H as <-. by repeat case_match.
    + injection H as <-. split; [|done]. eapply leaked_table; [exact HL|apply same_calls_refl|..]; cbn.
      * by rewrite length_alter.
      * by apply (slot_at_alter_field same_occupied).
    + injection H as <-. split; [|done]. eapply leaked_table; [exact HL|apply same_calls_refl|..]; cbn.
      * by rewrite length_alter.
      * by apply (slot_at_alter_field same_occupied).
    + injection H as <-. destruct (wake_faded st (slot_index r)) as [[Hc Hf Hl (sl & cs & Hst)] Ho]. rewrite Hst in *. cbn in *.
      split; [|by rewrite (proj1 Hc)]. eapply leaked_table; [exact HL|done|done|apply Ho].
  - unfold reader_close in H. destruct (reader st); try done. by injection H as <-.
  - unfold server_read in H. destruct (wire_out st); [done|]. by injection H as <-.
  - unfold server_hand in H. destruct (tasks st !! j); [|done]. injection H as <-. repeat case_match; done.
  - unfold server_write in H. destruct (server_open st), (replies st); try done. injection H as <-. destruct (sent && _); done.
Qed.

Lemma leaked_run acts : forall st st' i n,
  leaked st i n -> (n <= length (calls st))%nat -> rpc_run any_step st acts = Some st' -> unswept st' -> leaked st' i n.
Proof.
  induction acts as [|a acts IH]; intros st st' i n HL Hn H Hu; cbn in H; [by injection H as <-|].
  destruct (rpc_step st a) as [st1|] eqn:Es; [|done].
  pose proof (unswept_run _ _ _ H Hu) as Hu1.
  destruct (leaked_step _ _ _ _ _ HL Hn Es Hu1) as (HL1 & Hn1). by eapply IH.
Qed.

(** A call that times out while the channel to the writing task is full
    leaves its slot occupied for as long as the connection is up: every later
    call with the same low bits fails with "too many requests". The slot is freed
    by the [ResponseFuture], which does not exist yet at that point. *)
Theorem cancelled_send_leaks st k c st1 acts st2 k' c' :
  reached undisturbed st -> calls st !! k = Some c -> call_pc c = Send -> cancel st k = Some st1 ->
  rpc_run any_step st1 acts = Some st2 -> writer st2 = WriterRunning -> alive (reader st2) = true ->
  (length (calls st) <= k')%nat -> calls st2 !! k' = Some c' -> slot_index (call_id c') = slot_index (call_id c) ->
  call_pc c' = Claim \/ call_pc c' = Done (Err too_many_requests).
Proof.
  intros Hst Hk Hpc Hcan Hrun Hw Hr Hlen Hk' Hi. pose proof (reached_sound st Hst) as [_ HS _ _].
  unfold cancel in Hcan. rewrite Hk, Hpc in Hcan. destruct (has_room st); [done|]. injection Hcan as <-.
  assert (Hu : unswept (with_table st (slots st) (<[k := set_pc Cancelled c]> (calls st)))).
  { eapply unswept_run; [exact Hrun|done]. }
  assert (Hns : forall i, ~ swept (writer st) (reader st) i).
  { destruct Hu as [Hwu Hru]. cbn in *. intros i. rewrite Hwu. intros [[]|]. by destruct (reader st). }
  assert (HL : leaked (with_table st (slots st) (<[k := set_pc Cancelled c]> (calls st))) (ix c) (length (calls st))).
  { split; [apply HS|]. split; [by apply (sl_occupied _ _ _ _ HS k c); [|rewrite Hpc|]|]. cbn.
    intros k1 c1 [(<- & <- & _)|(Hne & Hk1)]%list_lookup_insert_Some Hi1.
    - split; [done|]. apply lookup_lt_Some in Hk. lia.
    - split; [|apply lookup_lt_Some in Hk1; lia]. destruct (holding (call_pc c1)) eqn:Hh; [|done].
      destruct Hne. eapply (sl_unique _ _ _ _ HS); eauto. by rewrite Hpc. }
  pose proof (leaked_run _ _ _ _ _ HL ltac:(cbn; rewrite length_insert; lia) Hrun (conj Hw Hr)) as HL2.
  by apply (proj2 (proj2 HL2) k' c' Hk' Hi).
Qed.

(** Calls that are sent while the writing task does not run fill the channel. *)
Record Filling (n m : nat) (c : Call) (s : Slot) (st : Rpc) : Prop := {
  fi_reached : reached undisturbed st;
  fi_call : calls st !! n = Some c;
  fi_calls : length (calls st) = S n;
  fi_id : call_id c = 1 + Z.of_nat n;
  fi_slot : slots st !! S n = Some s;
  fi_free i : (S n < i < MAX_PENDING)%nat -> slots st !! i = Some slot_default;
  fi_tasks : writer st = WriterRunning /\ reader st = Listening;
  fi_channel : length (tx_writer st) = m
}.

Lemma slot_index_small n : (n < MAX_PENDING)%nat -> slot_index (Z.of_nat n) = n.
Proof.
  unfold slot_index, MAX_PENDING. intros Hn. change INDEX_MASK with (Z.ones 16). rewrite Z.land_ones, Z.mod_small by lia. lia.
Qed.

Lemma filling_step n m c s st c' s' sent :
  Filling n m c s st -> (S n < MAX_PENDING)%nat -> call_id c' = call_id c ->
  call_action n c s true (m <? CHANNEL_SIZE)%nat = Some (c', s', sent) ->
  exists st', Filling n (m + length sent) c' s' st'.
Proof.
  intros [Hr Hc Hl Hid Hs Hf [Hw Hrd] Hm] Hn Hid' Ha.
  assert (Hi : ix c = S n). { rewrite Hid. replace (1 + Z.of_nat n) with (Z.of_nat (S n)) by lia. by apply slot_index_small. }
  eexists. constructor.
  - eapply (reached_step _ st (CallStep n)); [done| |].
    + cbn. by rewrite Hc, Hrd.
    + cbn. unfold call_step. rewrite Hc, Hi, Hs. unfold writer_ended, has_room. rewrite Hw, Hm. cbn [negb]. rewrite Ha. reflexivity.
  - cbn. apply list_lookup_insert_eq. lia.
  - cbn. by rewrite length_insert.
  - by rewrite Hid'.
  - cbn. apply list_lookup_insert_eq. by eapply lookup_lt_Some.
  - intros i Hi'. cbn. rewrite list_lookup_insert_ne by lia. by apply Hf.
  - done.
  - cbn. rewrite length_app. lia.
Qed.

Definition filler (n : nat) (p : Pc) : Call := mkCall (1 + Z.of_nat n) 1 [] p false.

(** Up to the send. *)
Lemma filling_begin n st :
  reached undisturbed st -> length (calls st) = n -> (S n < MAX_PENDING)%nat ->
  (forall i, (n < i < MAX_PENDING)%nat -> slots st !! i = Some slot_default) ->
  writer st = WriterRunning -> reader st = Listening ->
  exists st', Filling n (length (tx_writer st)) (filler n Send) (mkSlot None None None true (1 + Z.of_nat n)) st'.
Proof.
  intros Hr Hl Hn Hf Hw Hrd. pose proof (so_next _ (reached_sound _ Hr)) as Hnx.
  assert (H0 : Filling n (length (tx_writer st)) (filler n Claim) slot_default (begin_call st 1 [])).
  { constructor; cbn; try done.
    - eapply (reached_step _ st (Begin 1 [])); [done| |done]. cbn. apply Z.ltb_lt. unfold MAX_PENDING in Hn. lia.
    - rewrite lookup_app_r, Hl, Nat.sub_diag by lia. cbn. by rewrite Hnx, Hl.
    - rewrite length_app. cbn. lia.
    - apply Hf. lia.
    - intros i Hi. apply Hf. lia. }
  assert (Hgo : forall m c s st0 c' s', Filling n m c s st0 -> call_id c' = call_id c ->
    call_action n c s true (m <? CHANNEL_SIZE)%nat = Some (c', s', []) -> exists st', Filling n m c' s' st').
  { intros m c s st0 c' s' H Hid Ha. destruct (filling_step _ _ _ _ _ _ _ _ H Hn Hid Ha) as [st' H']. exists st'.
    by rewrite Nat.add_0_r in H'. }
  destruct (Hgo _ _ _ _ (filler n StoreGeneration) (set_occupied true slot_default) H0) as [st1 H1]; [done..|].
  destruct (Hgo _ _ _ _ (filler n ClearData) (mkSlot None None None true (1 + Z.of_nat n)) H1) as [st2 H2]; [done..|].
  destruct (Hgo _ _ _ _ (filler n ClearError) (mkSlot None None None true (1 + Z.of_nat n)) H2) as [st3 H3]; [done..|].
  by destruct (Hgo _ _ _ _ (filler n Send) (mkSlot None None None true (1 + Z.of_nat n)) H3) as [st4 H4]; [done..|exists st4].
Qed.

Lemma channel_fills n :
  (n <= CHANNEL_SIZE)%nat ->
  exists st, reached undisturbed st /\ length (calls st) = n /\ length (tx_writer st) = n /\
    (forall i, (n < i < MAX_PENDING)%nat -> slots st !! i = Some slot_default) /\ writer st = WriterRunning /\ reader st = Listening.
Proof.
  assert (Hsz : (CHANNEL_SIZE < MAX_PENDING - 1)%nat) by (unfold CHANNEL_SIZE, MAX_PENDING; lia).
  induction n as [|n IH]; intros Hn.
  - exists rpc_new. split_and!; try done; [constructor|]. intros i Hi. cbn. unfold slot_table_new.
    apply lookup_replicate_2. lia.
  - destruct IH as (st & Hr & Hl & Ht & Hf & Hw & Hrd); [lia|].
    destruct (filling_begin n st Hr Hl ltac:(lia) Hf Hw Hrd) as [st1 H1]. rewrite Ht in H1.
    destruct (filling_step _ _ _ _ _ (filler n (PollData false)) (mkSlot None None None true (1 + Z.of_nat n)) [request_frame (filler n Send)] H1)
      as [st2 [H2 H3 H4 H5 H6 H7 [H8 H8'] H9]]; [lia|done| |].
    + rewrite (proj2 (Nat.ltb_lt n CHANNEL_SIZE)) by lia. done.
    + exists st2. split_and!; try done. rewrite H9. cbn. lia.
Qed.

Lemma cancelled_send_leaks_witness :
  exists st k c st1, reached undisturbed st /\ calls st !! k = Some c /\ call_pc c = Send /\ cancel st k = Some st1 /\
    forall acts st2 k' c', rpc_run any_step st1 acts = Some st2 -> writer st2 = WriterRunning -> alive (reader st2) = true ->
      (length (calls st) <= k')%nat -> calls st2 !! k' = Some c' -> slot_index (call_id c') = slot_index (call_id c) ->
      call_pc c' = Claim \/ call_pc c' = Done (Err too_many_requests).
Proof.
  assert (Hsz : (S CHANNEL_SIZE < MAX_PENDING)%nat) by (unfold CHANNEL_SIZE, MAX_PENDING; lia).
  destruct (channel_fills CHANNEL_SIZE (le_n _)) as (st0 & Hr & Hl & Ht & Hf & Hw & Hrd).
  destruct (filling_begin _ st0 Hr Hl Hsz Hf Hw Hrd) as [st [H1 H2 H3 H4 H5 H6 H7 H8]]. rewrite Ht in H8.
  exists st, CHANNEL_SIZE, (filler CHANNEL_SIZE Send).
  eexists. split_and!; [exact H1|exact H2|done| |].
  - unfold cancel. rewrite H2. cbn [call_pc filler]. unfold has_room. rewrite H8, Nat.ltb_irrefl. reflexivity.
  - intros acts st2 k' c' Hrun Hw2 Hr2 Hlen Hk' Hi.
    refine (cancelled_send_leaks st CHANNEL_SIZE (filler CHANNEL_SIZE Send) _ acts st2 k' c' H1 H2 eq_refl _ Hrun Hw2 Hr2 Hlen Hk' Hi).
    unfold cancel. rewrite H2. cbn [call_pc filler]. unfold has_room. by rewrite H8, Nat.ltb_irrefl.
Defined.

Lemma reader_ends n : forall st i,
  reached any_step st -> reader st = ReaderSweep (SweepSwap i) -> (length (slots st) <= i + n)%nat ->
  (forall j s, slots st !! j = Some s -> occupied s = false) ->
  reached any_step (with_reader st ReaderEnded (wire_in st)).
Proof.
  induction n as [|n IH]; intros st i Hst Hr Hn Hf.
  - eapply (reached_step _ st ReaderStep); [done|done|]. cbn. unfold reader_step. rewrite Hr. cbn.
    by rewrite (proj2 (lookup_ge_None (slots st) i)) by lia.
  - destruct (slots st !! i) as [s|] eqn:Hs.
    + assert (Hnext : reached any_step (with_reader st (ReaderSweep (SweepSwap (S i))) (wire_in st))).
      { eapply (reached_step _ st ReaderStep); [done|done|]. cbn. unfold reader_step. rewrite Hr. cbn. by rewrite Hs, (Hf _ _ Hs). }
      apply (IH _ (S i) Hnext); [done|cbn; lia|done].
    + eapply (reached_step _ st ReaderStep); [done|done|]. cbn. unfold reader_step. rewrite Hr. cbn. by rewrite Hs.
Qed.

(** The stream ends; then a call is made. *)
Definition closed_new : Rpc := with_reader rpc_new ReaderEnded [].

Definition unheard : list Action :=
  [Begin 1 text_a] ++ sending 0 ++ suspending 0 ++ [WriterStep true; ServerRead; ServerHand 0 (Ok text_a); ServerWrite true].

Lemma closed_new_reached : reached any_step closed_new.
Proof.
  assert (H : reached any_step (with_reader rpc_new (ReaderSweep (SweepSwap 0)) [])).
  { eapply (reached_step _ rpc_new ReaderClose); [constructor|done..]. }
  apply (reader_ends MAX_PENDING _ 0 H); [done| |].
  { change (length slot_table_new <= 0 + MAX_PENDING)%nat. unfold slot_table_new. rewrite length_replicate. lia. }
  intros j s. change (slot_table_new !! j = Some s -> occupied s = false). unfold slot_table_new. intros [-> _]%lookup_replicate. done.
Qed.

(** Once the reading task has ended nothing marks the connection as closed: a
    call made after that is accepted and its request is sent and may be served,
    but no task is left that could ever answer it or fail it, and it waits
    until it is dropped by a timeout. *)
Theorem rpc_hangs_after_close :
  exists st c, reached any_step st /\ calls st !! 0%nat = Some c /\ call_pc c = Suspended /\
    (request_frame c, text_a) ∈ served st /\ idle st.
Proof.
  set (c := mkCall 1 1 text_a Suspended false).
  assert (H : summary <$> rpc_run any_step closed_new unheard =
    Some ([c], [(request_frame c, text_a)], [], ([], WriterRunning, ReaderEnded), ([], [], [], [put_u32 1 ++ text_a])))
    by (vm_compute; reflexivity).
  destruct (rpc_run any_step closed_new unheard) as [st|] eqn:E; [|done]. apply (inj Some) in H.
  pose proof (f_equal (fun p => p.1.1.1.1) H) as Hc. pose proof (f_equal (fun p => p.1.1.1.2) H) as Hs.
  pose proof (f_equal (fun p => p.1.2) H) as Hq1. pose proof (f_equal (fun p => p.2) H) as Hq2. unfold summary in *. cbn [fst snd] in *.
  injection Hq1 as H1 H2 H3. injection Hq2 as H4 H5 H6 H7.
  exists st, c. split_and!; [eapply rpc_run_reached; [apply closed_new_reached|exact E]|by rewrite Hc|done|rewrite Hs; by left|].
  clear E H. intros a Ha. apply andb_prop in Ha as [Ha Hb].
  destruct a as [func body|k|k|sent| | | |j answer|sent]; try done; cbn [rpc_step].
  - unfold call_step. rewrite Hc. destruct k as [|k]; [|done]. cbn [lookup list_lookup]. by destruct (slots st !! _).
  - unfold writer_step. by rewrite H1, H2.
  - unfold reader_step. by rewrite H3.
  - unfold server_read. by rewrite H4.
  - unfold server_hand. by rewrite H5.
  - unfold server_write. rewrite H6. by destruct (server_open st).
Qed.
