(* ===== verification/LogStore.v ===== *)
(** * LogStore: the Raft log on disk.

    Models src/cache_cat/src/raft/store/log_store.rs and the index function of
    src/cache_cat/src/raft/store/raft_engine.rs.

    The raft-engine crate is a parameter. What it documents is stated with the
    history of the records written to it: a read sees what replaying the history
    gives ([replay_log]), and a crash may lose the records that were not synced
    ([crash]). The types of log ids, votes and entries are those of openraft
    and are abstract. *)

From S2P Require Import Prelude Text.

(** ** What raft-engine documents *)

Section Engine.
Context {LogId Vote Entry : Type} (entry_log_id : Entry -> LogId) (log_index : LogId -> Z).

(** [MessageExt::index]. *)
Definition entry_index (e : Entry) : Z := log_index (entry_log_id e).

(** The values of the two keys of [mod meta]. *)
Inductive Meta := MetaLogId (id : LogId) | MetaVote (v : Vote).

(** One record of a [LogBatch]. *)
Inductive Record_ :=
| AddEntries (group : Z) (es : list Entry)
| PutMessage (group : Z) (key : bytes) (v : Meta)
| CompactTo (group : Z) (index : Z).

(** A region: entries with consecutive indexes from [first_index], and messages. *)
Record Region := mkRegion { first_index : Z; region_log : list Entry; messages : gmap bytes Meta }.

Definition region_new : Region := mkRegion 0 [] ∅.

(** Entries are appended, and replace those at their indexes and after. *)
Definition add_entries (r : Region) (es : list Entry) : Region :=
  match es with
  | [] => r
  | e :: _ =>
      match region_log r with
      | [] => mkRegion (entry_index e) es (messages r)
      | _ => mkRegion (first_index r) (take (Z.to_nat (entry_index e - first_index r)) (region_log r) ++ es) (messages r)
      end
  end.

Definition compact (r : Region) (index : Z) : Region :=
  if index <=? first_index r then r
  else mkRegion index (drop (Z.to_nat (index - first_index r)) (region_log r)) (messages r).

Definition apply_record (m : gmap Z Region) (w : Record_) : gmap Z Region :=
  let region g := default region_new (m !! g) in
  match w with
  | AddEntries g es => <[g := add_entries (region g) es]> m
  | PutMessage g k v => <[g := mkRegion (first_index (region g)) (region_log (region g)) (<[k := v]> (messages (region g)))]> m
  | CompactTo g i => <[g := compact (region g) i]> m
  end.

Definition replay_log (h : list Record_) : gmap Z Region := foldl apply_record ∅ h.

Definition region_of (h : list Record_) (g : Z) : Region := default region_new (replay_log h !! g).

Definition region_last (r : Region) : option Z :=
  match region_log r with [] => None | l => Some (first_index r + Z.of_nat (length l) - 1) end.

(** The entries with indexes from [a] to [b]. *)
Definition region_slice (r : Region) (a b : Z) : list Entry :=
  take (Z.to_nat (b - a)) (drop (Z.to_nat (a - first_index r)) (region_log r)).

Class RaftEngine := {
  Engine : Type;
  history : Engine -> list Record_;
  synced : Engine -> nat;
  engine_write : Engine -> list Record_ -> bool -> result Engine bytes;
  engine_sync : Engine -> result Engine bytes;
  engine_compact_to : Engine -> Z -> Z -> Engine;
  engine_last_index : Engine -> Z -> option Z;
  engine_get_entry : Engine -> Z -> Z -> result (option Entry) bytes;
  engine_fetch_entries_to : Engine -> Z -> Z -> Z -> result (list Entry) bytes;
  engine_get_message : Engine -> Z -> bytes -> result (option Meta) bytes
}.

Class RaftEngineOk (RE : RaftEngine) : Prop := {
  synced_bound e : (synced e <= length (history e))%nat;
  write_history e b s e' : engine_write e b s = Ok e' -> history e' = history e ++ b /\ (synced e <= synced e')%nat;
  sync_history e e' : engine_sync e = Ok e' -> history e' = history e /\ synced e' = length (history e');
  compact_history e g i : history (engine_compact_to e g i) = history e ++ [CompactTo g i] /\
    synced e = synced (engine_compact_to e g i);
  last_index_reads e g : engine_last_index e g = region_last (region_of (history e) g);
  get_entry_reads e g i : let r := region_of (history e) g in
    first_index r <= i -> engine_get_entry e g i = Ok (region_log r !! Z.to_nat (i - first_index r));
  fetch_reads e g a b : let r := region_of (history e) g in
    first_index r <= a -> a <= b -> b <= first_index r + Z.of_nat (length (region_log r)) ->
    engine_fetch_entries_to e g a b = Ok (region_slice r a b);
  get_message_reads e g k : engine_get_message e g k = Ok (messages (region_of (history e) g) !! k)
}.

Context `{RE : RaftEngine}.

(** Power is lost: the records that were not synced may be gone. *)
Definition crash (e e' : Engine) : Prop :=
  exists n, (synced e <= n)%nat /\ history e' = take n (history e).

(** ** The store *)

Inductive Bound := Included (n : Z) | Excluded (n : Z) | Unbounded.

Definition LAST_PURGED : bytes := str "last_purged_log_id".
Definition VOTE : bytes := str "vote".

Variable group_id : Z.

(** [get_meta] at each of the two keys. *)
Definition get_last_purged (e : Engine) : result (option LogId) bytes :=
  match engine_get_message e group_id LAST_PURGED with
  | Ok (Some (MetaLogId id)) => Ok (Some id)
  | Ok (Some (MetaVote _)) => Err (str "invalid data")
  | Ok None => Ok None
  | Err err => Err err
  end.

Definition read_vote (e : Engine) : result (option Vote) bytes :=
  match engine_get_message e group_id VOTE with
  | Ok (Some (MetaVote v)) => Ok (Some v)
  | Ok (Some (MetaLogId _)) => Err (str "invalid data")
  | Ok None => Ok None
  | Err err => Err err
  end.

Definition put_meta (e : Engine) (key : bytes) (v : Meta) : result Engine bytes :=
  engine_write e [PutMessage group_id key v] false.

Definition range_start (b : Bound) : Z :=
  match b with Included n => n | Excluded n => wrap_u64 (n + 1) | Unbounded => 0 end.

Definition range_end (b : Bound) : Z :=
  match b with Included n => wrap_u64 (n + 1) | Excluded n => n | Unbounded => u64_max end.

Definition try_get_log_entries (e : Engine) (lo hi : Bound) : result (list Entry) bytes :=
  let start := range_start lo in
  let end_ := range_end hi in
  match engine_last_index e group_id with
  | None => Ok []
  | Some x => engine_fetch_entries_to e group_id (Z.min (wrap_u64 (x + 1)) start) (Z.min (wrap_u64 (x + 1)) end_)
  end.

Record LogState := mkLogState { last_purged_log_id : option LogId; last_log_id : option LogId }.

Definition get_log_state (e : Engine) : result LogState bytes :=
  let? last :=
    match engine_last_index e group_id with
    | None => Ok None
    | Some i => let? entry := engine_get_entry e group_id i in Ok (entry_log_id <$> entry)
    end in
  let? purged := get_last_purged e in
  Ok (mkLogState purged (match last with None => purged | Some x => Some x end)).

Definition save_vote (e : Engine) (v : Vote) : result Engine bytes :=
  let? e1 := put_meta e VOTE (MetaVote v) in engine_sync e1.

(** [append] returns when the entries can be read; the spawned task then syncs
    and tells openraft the outcome ([flush]). *)
Definition append (e : Engine) (entries : list Entry) : result Engine bytes :=
  engine_write e [AddEntries group_id entries] false.

Definition flush (e : Engine) : Engine * result unit bytes :=
  match engine_sync e with
  | Ok e' => (e', Ok tt)
  | Err err => (e, Err err)
  end.

Definition truncate_after (e : Engine) (last : option LogId) : result Engine bytes := Ok e.

Definition purge (e : Engine) (id : LogId) : result Engine bytes :=
  let? e1 := put_meta e LAST_PURGED (MetaLogId id) in
  Ok (engine_compact_to e1 group_id (wrap_u64 (log_index id + 1))).

(** ** The log openraft keeps *)

(** [lg_next] is the index after the last entry; [lg_stale] are the entries that
    were truncated and not yet replaced. *)
Record Log := mkLog {
  lg_purged : option LogId;
  lg_vote : option Vote;
  lg_next : Z;
  lg_entries : list Entry;
  lg_stale : list Entry
}.

Definition log_new : Log := mkLog None None 0 [] [].

Inductive LogOp :=
| OpAppend (es : list Entry)
| OpFlush
| OpTruncate (last : option LogId)
| OpPurge (id : LogId)
| OpVote (v : Vote).

Definition lg_first (lg : Log) : Z := lg_next lg - Z.of_nat (length (lg_entries lg)).

Definition index_after (last : option LogId) : Z := match last with Some id => log_index id + 1 | None => 0 end.

Definition log_step (lg : Log) (op : LogOp) : Log :=
  match op with
  | OpAppend [] => lg
  | OpAppend es => mkLog (lg_purged lg) (lg_vote lg) (lg_next lg + Z.of_nat (length es)) (lg_entries lg ++ es) []
  | OpFlush => lg
  | OpTruncate last =>
      let n := Z.to_nat (index_after last - lg_first lg) in
      mkLog (lg_purged lg) (lg_vote lg) (index_after last) (take n (lg_entries lg)) (drop n (lg_entries lg) ++ lg_stale lg)
  | OpPurge id =>
      let i := log_index id + 1 in
      mkLog (Some id) (lg_vote lg) (Z.max (lg_next lg) i) (drop (Z.to_nat (i - lg_first lg)) (lg_entries lg))
        (drop (Z.to_nat (i - lg_next lg)) (lg_stale lg))
  | OpVote v => mkLog (lg_purged lg) (Some v) (lg_next lg) (lg_entries lg) (lg_stale lg)
  end.

(** What openraft calls the store with: entries that continue the log, and a
    truncation inside it. *)
Definition log_allows (lg : Log) (op : LogOp) : Prop :=
  match op with
  | OpAppend es =>
      (forall j e, es !! j = Some e -> entry_index e = lg_next lg + Z.of_nat j) /\
      lg_next lg + Z.of_nat (length es) < 2 ^ 64
  | OpTruncate last => lg_first lg <= index_after last <= lg_next lg
  | OpPurge id => lg_first lg <= log_index id + 1 < 2 ^ 64
  | OpFlush | OpVote _ => True
  end.

Fixpoint log_allows_all (lg : Log) (ops : list LogOp) : Prop :=
  match ops with
  | [] => True
  | op :: ops' => log_allows lg op /\ log_allows_all (log_step lg op) ops'
  end.

Definition log_run (lg : Log) (ops : list LogOp) : Log := foldl log_step lg ops.

Definition store_step (e : Engine) (op : LogOp) : result Engine bytes :=
  match op with
  | OpAppend es => append e es
  | OpFlush => let '(e', r) := flush e in let? _ := r in Ok e'
  | OpTruncate last => truncate_after e last
  | OpPurge id => purge e id
  | OpVote v => save_vote e v
  end.

Fixpoint store_run (e : Engine) (ops : list LogOp) : result Engine bytes :=
  match ops with
  | [] => Ok e
  | op :: ops' => let? e' := store_step e op in store_run e' ops'
  end.

(** The entries with indexes from [a] to [b]. *)
Definition log_slice (lg : Log) (a b : Z) : list Entry :=
  take (Z.to_nat (b - a)) (drop (Z.to_nat (a - lg_first lg)) (lg_entries lg)).

(** ** The records of an operation *)

Definition op_records (op : LogOp) : list Record_ :=
  match op with
  | OpAppend es => [AddEntries group_id es]
  | OpFlush | OpTruncate _ => []
  | OpPurge id => [PutMessage group_id LAST_PURGED (MetaLogId id); CompactTo group_id (wrap_u64 (log_index id + 1))]
  | OpVote v => [PutMessage group_id VOTE (MetaVote v)]
  end.

Context `{REO : !RaftEngineOk RE}.

Lemma store_step_history e op e' :
  store_step e op = Ok e' -> history e' = history e ++ op_records op /\ (synced e <= synced e')%nat.
Proof.
  destruct op as [es| |last|id|v]; cbn.
  - intros [H1 H2]%write_history. done.
  - unfold flush. destruct (engine_sync e) as [e1|] eqn:E; [|done]. cbn. intros [= <-].
    apply sync_history in E as [H1 H2]. rewrite app_nil_r, H1, H2, H1. split; [done|]. apply synced_bound.
  - intros [= <-]. by rewrite app_nil_r.
  - unfold purge, put_meta. destruct (engine_write _ _ _) as [e1|] eqn:E; [|done]. cbn. intros [= <-].
    apply write_history in E as [H1 H2]. destruct (compact_history e1 group_id (wrap_u64 (log_index id + 1))) as [H3 H4].
    rewrite H3, H1, <- app_assoc, <- H4. done.
  - unfold save_vote, put_meta. destruct (engine_write _ _ _) as [e1|] eqn:E; [|done]. cbn. intros Hs.
    apply write_history in E as [H1 H2]. apply sync_history in Hs as [H3 H4]. rewrite H4, H3, H1. split; [done|].
    pose proof (synced_bound e). rewrite length_app. lia.
Qed.

(** A region that holds a log, with entries before it that are already purged. *)
Record Holds (old : list Entry) (r : Region) (lg : Log) : Prop := {
  ho_log : region_log r = old ++ lg_entries lg ++ lg_stale lg;
  ho_first : lg_entries lg ++ lg_stale lg <> [] -> first_index r + Z.of_nat (length old) = lg_first lg;
  ho_past : region_log r <> [] -> first_index r <= lg_first lg;
  ho_low : 0 <= lg_first lg;
  ho_range : 0 <= first_index r /\ first_index r + Z.of_nat (length (region_log r)) < 2 ^ 64;
  ho_purged : messages r !! LAST_PURGED = MetaLogId <$> lg_purged lg;
  ho_vote : messages r !! VOTE = MetaVote <$> lg_vote lg
}.

Lemma region_of_snoc h w : 
  region_of (h ++ [w]) group_id = default region_new (apply_record (replay_log h) w !! group_id).
Proof. unfold region_of, replay_log. by rewrite foldl_app. Qed.

Lemma holds_new : Holds [] region_new log_new.
Proof. by constructor. Qed.

Lemma holds_append r lg es :
  Holds [] r lg -> log_allows lg (OpAppend es) -> Holds [] (add_entries r es) (log_step lg (OpAppend es)).
Proof.
  intros [H1 H2 H3 H4 H5 H6 H7] [Hi Hlt]. destruct es as [|e es]; [done|].
  pose proof (Hi 0%nat e eq_refl) as He. rewrite Z.add_0_r in He. cbn [app length] in *. unfold lg_first in *.
  unfold add_entries. destruct (region_log r) as [|x l] eqn:El.
  - symmetry in H1. apply app_nil in H1 as [H1 H1']. rewrite H1 in *. cbn in *. rewrite He. constructor; cbn; rewrite ?app_nil_r, ?H1; try done;
      unfold lg_first; cbn; rewrite ?H1; cbn; lia.
  - assert (Hf : first_index r = lg_next lg - Z.of_nat (length (lg_entries lg))).
    { rewrite <- H2; [cbn; lia|]. by rewrite <- H1. }
    assert (Htake : take (Z.to_nat (entry_index e - first_index r)) (x :: l) = lg_entries lg).
    { rewrite He, Hf, H1. replace (Z.to_nat _) with (length (lg_entries lg)) by lia. apply take_app_length. }
    constructor; cbn; rewrite ?app_nil_r, ?Htake; try done; unfold lg_first; cbn; rewrite ?length_app; cbn; lia.
Qed.

Lemma holds_truncate r lg last :
  Holds [] r lg -> log_allows lg (OpTruncate last) -> Holds [] r (log_step lg (OpTruncate last)).
Proof.
  intros [H1 H2 H3 H4 H5 H6 H7] [Hlo Hhi]. cbn in Hlo, Hhi.
  assert (Hfirst : lg_first (log_step lg (OpTruncate last)) = lg_first lg).
  { cbn. unfold lg_first in *. cbn. rewrite length_take. lia. }
  constructor; rewrite ?Hfirst; try done;
    cbn [lg_entries lg_stale log_step]; by rewrite (app_assoc (take _ _)), take_drop.
Qed.

(** The record of the purge is written, the compaction is not. *)
Lemma holds_purging r lg id :
  Holds [] r lg -> log_allows lg (OpPurge id) ->
  exists old, Holds old (mkRegion (first_index r) (region_log r) (<[LAST_PURGED := MetaLogId id]> (messages r)))
    (log_step lg (OpPurge id)).
Proof.
  intros [H1 H2 H3 H4 H5 H6 H7] [Hlo Hhi]. cbn [app length] in *.
  set (d := Z.to_nat (log_index id + 1 - lg_first lg)). set (d' := Z.to_nat (log_index id + 1 - lg_next lg)).
  assert (Hd : (length (lg_entries lg) <= d)%nat \/ d' = 0%nat) by (unfold d, d', lg_first; lia).
  exists (take d (lg_entries lg) ++ take d' (lg_stale lg)). constructor; cbn; fold d d'.
  - rewrite H1. destruct Hd as [Hd|Hd].
    + rewrite (take_ge (lg_entries lg)), (drop_ge (lg_entries lg)) by done. cbn. rewrite <- app_assoc. by rewrite take_drop.
    + rewrite Hd, take_0, drop_0, app_nil_r, app_assoc. by rewrite take_drop.
  - intros Hne. unfold lg_first in *. cbn. fold d.
    assert (Hs : lg_entries lg ++ lg_stale lg <> []).
    { intros [E1 E2]%app_nil. rewrite E1, E2, !drop_nil in Hne. done. }
    specialize (H2 Hs). rewrite length_app, !length_take, length_drop.
    assert (Hcase : (d < length (lg_entries lg))%nat \/ (d' < length (lg_stale lg))%nat).
    { destruct (decide (d < length (lg_entries lg))%nat); [by left|]. right.
      destruct (decide (d' < length (lg_stale lg))%nat); [done|]. destruct Hne. by rewrite !drop_ge by lia. }
    unfold d, d' in *. lia.
  - intros Hne. specialize (H3 Hne). unfold lg_first in *. cbn. rewrite length_drop. unfold d. lia.
  - unfold lg_first in *. cbn. rewrite length_drop. unfold d. lia.
  - done.
  - by rewrite lookup_insert_eq.
  - by rewrite lookup_insert_ne.
Qed.

Lemma holds_purge r lg id :
  Holds [] r lg -> log_allows lg (OpPurge id) ->
  Holds [] (compact (mkRegion (first_index r) (region_log r) (<[LAST_PURGED := MetaLogId id]> (messages r))) (wrap_u64 (log_index id + 1)))
    (log_step lg (OpPurge id)).
Proof.
  intros [H1 H2 H3 H4 H5 H6 H7] [Hlo Hhi]. cbn [app length] in *. rewrite wrap_u64_small by (unfold is_u64; lia).
  assert (Hmsg : <[LAST_PURGED := MetaLogId id]> (messages r) !! LAST_PURGED = MetaLogId <$> Some id /\
    <[LAST_PURGED := MetaLogId id]> (messages r) !! VOTE = MetaVote <$> lg_vote lg).
  { by rewrite lookup_insert_eq, lookup_insert_ne. }
  assert (Hfirst : lg_first (log_step lg (OpPurge id)) = log_index id + 1).
  { cbn. unfold lg_first in *. cbn. rewrite length_drop. lia. }
  unfold compact. cbn [first_index region_log messages].
  destruct (Z.leb_spec (log_index id + 1) (first_index r)) as [Hle|Hgt].
  - assert (Hsame : drop (Z.to_nat (log_index id + 1 - lg_first lg)) (lg_entries lg) ++
      drop (Z.to_nat (log_index id + 1 - lg_next lg)) (lg_stale lg) = region_log r).
    { destruct (region_log r) as [|x l] eqn:El.
      - symmetry in H1. apply app_nil in H1 as [-> ->]. by rewrite !drop_nil.
      - specialize (H3 ltac:(done)). replace (Z.to_nat (log_index id + 1 - lg_first lg)) with 0%nat by lia.
        replace (Z.to_nat (log_index id + 1 - lg_next lg)) with 0%nat by (unfold lg_first in *; lia). done. }
    constructor; rewrite ?Hfirst; try apply Hmsg; try done; cbn [lg_entries lg_stale log_step first_index region_log app length].
    + rewrite Hsame. intros Hne. specialize (H3 Hne). lia.
    + intros Hne. specialize (H3 Hne). lia.
    + lia.
  - assert (Hdrop : drop (Z.to_nat (log_index id + 1 - first_index r)) (region_log r) =
      drop (Z.to_nat (log_index id + 1 - lg_first lg)) (lg_entries lg) ++ drop (Z.to_nat (log_index id + 1 - lg_next lg)) (lg_stale lg)).
    { rewrite H1. destruct (lg_entries lg ++ lg_stale lg) as [|x l] eqn:El.
      - apply app_nil in El as [-> ->]. by rewrite !drop_nil.
      - specialize (H2 ltac:(done)). rewrite <- El, drop_app. f_equal; f_equal; unfold lg_first in *; lia. }
    constructor; rewrite ?Hfirst; try apply Hmsg; try done; cbn [lg_entries lg_stale log_step first_index region_log app length].
    + lia.
    + lia.
    + rewrite length_drop. lia.
Qed.

Lemma holds_vote r lg v :
  Holds [] r lg ->
  Holds [] (mkRegion (first_index r) (region_log r) (<[VOTE := MetaVote v]> (messages r))) (log_step lg (OpVote v)).
Proof.
  intros [H1 H2 H3 H4 H5 H6 H7]. constructor; cbn; try done.
  - by rewrite lookup_insert_ne.
  - by rewrite lookup_insert_eq.
Qed.

Lemma holds_step h lg op :
  Holds [] (region_of h group_id) lg -> log_allows lg op -> Holds [] (region_of (h ++ op_records op) group_id) (log_step lg op).
Proof.
  intros HH Ha. destruct op as [es| |last|id|v]; cbn [op_records]; rewrite ?app_nil_r.
  - rewrite region_of_snoc. cbn [apply_record]. rewrite lookup_insert_eq. by apply holds_append.
  - done.
  - by apply holds_truncate.
  - rewrite cons_middle, app_assoc, region_of_snoc. cbn [apply_record]. rewrite lookup_insert_eq. cbn [default].
    change (default region_new (replay_log (h ++ [PutMessage group_id LAST_PURGED (MetaLogId id)]) !! group_id))
      with (region_of (h ++ [PutMessage group_id LAST_PURGED (MetaLogId id)]) group_id).
    rewrite region_of_snoc. cbn [apply_record]. rewrite lookup_insert_eq. by apply holds_purge.
  - rewrite region_of_snoc. cbn [apply_record]. rewrite lookup_insert_eq. by apply holds_vote.
Qed.

Lemma holds_run ops : forall e lg e',
  Holds [] (region_of (history e) group_id) lg -> log_allows_all lg ops -> store_run e ops = Ok e' ->
  Holds [] (region_of (history e') group_id) (log_run lg ops) /\
  history e' = history e ++ concat (op_records <$> ops) /\ (synced e <= synced e')%nat.
Proof.
  induction ops as [|op ops IH]; intros e lg e' HH Hal H; cbn in H.
  - injection H as <-. cbn. by rewrite app_nil_r.
  - destruct (store_step e op) as [e1|] eqn:Es; [|done]. cbn in H. destruct Hal as [Ha Hal].
    destruct (store_step_history _ _ _ Es) as [Hh Hsy]. pose proof (holds_step _ _ _ HH Ha) as H1. rewrite <- Hh in H1.
    destruct (IH _ _ _ H1 Hal H) as (HH' & Hh' & Hsy'). split_and!; [done| |].
    + rewrite Hh', Hh. cbn. by rewrite <- app_assoc.
    + lia.
Qed.
(** ** Reading *)

(** A range inside the log reads the entries of the log, whatever lies before
    and after it. *)
Lemma holds_reads e old lg lo hi :
  Holds old (region_of (history e) group_id) lg -> lg_first lg <= range_start lo -> range_start lo <= range_end hi ->
  range_end hi <= lg_next lg ->
  try_get_log_entries e lo hi = Ok (log_slice lg (range_start lo) (range_end hi)).
Proof.
  intros [H1 H2 H3 H4 H5 H6 H7] Ha Hab Hb. unfold try_get_log_entries. rewrite last_index_reads. unfold region_last.
  set (r := region_of (history e) group_id) in *. unfold log_slice.
  destruct (region_log r) as [|x l] eqn:El.
  - symmetry in H1. apply app_nil in H1 as [_ [-> _]%app_nil]. by rewrite drop_nil, take_nil.
  - specialize (H3 ltac:(done)). rewrite wrap_u64_small by (unfold is_u64; cbn in *; lia).
    replace (first_index r + Z.of_nat (length (x :: l)) - 1 + 1) with (first_index r + Z.of_nat (length (region_log r))) by (rewrite El; lia).
    set (n := first_index r + Z.of_nat (length (region_log r))).
    assert (Hn : n = first_index r + Z.of_nat (length old) + Z.of_nat (length (lg_entries lg)) + Z.of_nat (length (lg_stale lg))).
    { unfold n. rewrite El, H1, !length_app. lia. }
    rewrite fetch_reads; fold r; [|lia..]. f_equal. unfold region_slice. rewrite El, H1.
    destruct (lg_entries lg) as [|y es] eqn:Ee.
    + rewrite drop_nil, take_nil. unfold lg_first in *. rewrite Ee in *. cbn in Ha, Hn.
      replace (Z.min n (range_end hi) - Z.min n (range_start lo)) with 0 by lia. done.
    + specialize (H2 ltac:(done)). unfold lg_first in *. rewrite Ee in *.
      rewrite !Z.min_r by lia. rewrite drop_app_ge by lia.
      rewrite drop_app_le by lia. rewrite take_app_le by (rewrite length_drop; lia). f_equal. f_equal. lia.
Qed.

Lemma holds_vote_read e old lg : Holds old (region_of (history e) group_id) lg -> read_vote e = Ok (lg_vote lg).
Proof. intros HH. unfold read_vote. rewrite get_message_reads, (ho_vote _ _ _ HH). by destruct (lg_vote lg). Qed.

Lemma holds_purged_read e old lg : Holds old (region_of (history e) group_id) lg -> get_last_purged e = Ok (lg_purged lg).
Proof. intros HH. unfold get_last_purged. rewrite get_message_reads, (ho_purged _ _ _ HH). by destruct (lg_purged lg). Qed.

Lemma holds_state e lg :
  Holds [] (region_of (history e) group_id) lg ->
  get_log_state e = Ok (mkLogState (lg_purged lg)
    (match last (lg_entries lg ++ lg_stale lg) with Some x => Some (entry_log_id x) | None => lg_purged lg end)).
Proof.
  intros HH. unfold get_log_state. rewrite last_index_reads, (holds_purged_read _ _ _ HH).
  destruct HH as [H1 H2 H3 H4 H5 H6 H7]. cbn [app] in H1. rewrite <- H1. unfold region_last.
  set (r := region_of (history e) group_id) in *. destruct (region_log r) as [|x l] eqn:El; [done|].
  rewrite get_entry_reads by (fold r; cbn [length]; lia). fold r. cbn [result_bind]. rewrite El, last_lookup.
  replace (Z.to_nat _) with (Nat.pred (length (x :: l))) by (cbn [length]; lia).
  destruct ((x :: l) !! Nat.pred (length (x :: l))) as [y|] eqn:Ey; [done|].
  apply lookup_ge_None in Ey. cbn in Ey. lia.
Qed.

(** ** After a crash *)

(** A part of the records of some operations is those of the first of them, and
    perhaps the first record of a purge. *)
Lemma records_prefix ops : forall n,
  exists k, (k <= length ops)%nat /\ (take n (concat (op_records <$> ops)) = concat (op_records <$> take k ops) \/
    exists id, ops !! k = Some (OpPurge id) /\
      take n (concat (op_records <$> ops)) = concat (op_records <$> take k ops) ++ [PutMessage group_id LAST_PURGED (MetaLogId id)]).
Proof.
  induction ops as [|op ops IH]; intros n; [exists 0%nat; cbn; rewrite take_nil; auto|]. cbn [fmap list_fmap concat].
  destruct (decide (length (op_records op) <= n)%nat) as [Hle|Hgt].
  - destruct (IH (n - length (op_records op))%nat) as (k & Hk & Hcase). exists (S k). cbn [length take lookup list_lookup fmap list_fmap concat].
    split; [lia|]. rewrite take_app_ge by done. destruct Hcase as [->|(id & Ho & ->)]; [by left|]. right. exists id. split; [done|]. by rewrite app_assoc.
  - exists 0%nat. split; [cbn; lia|]. rewrite take_app_le by lia. destruct n as [|[|n]].
    + left. by rewrite take_0.
    + destruct op as [es| |last|id|v]; cbn in Hgt; try lia. right. by exists id.
    + destruct op as [es| |last|id|v]; cbn in Hgt; lia.
Qed.

Lemma log_allows_take lg ops k : log_allows_all lg ops -> log_allows_all lg (take k ops).
Proof. revert lg k. induction ops as [|op ops IH]; intros lg [|k]; cbn; try done. intros [H1 H2]. split; [done|by apply IH]. Qed.

Lemma log_allows_at lg ops : forall k op, log_allows_all lg ops -> ops !! k = Some op -> log_allows (log_run lg (take k ops)) op.
Proof.
  revert lg. induction ops as [|o ops IH]; intros lg [|k] op; cbn; try done.
  - by intros [H _] [= <-].
  - intros [_ H] Hk. by apply IH.
Qed.

Lemma holds_records ops : forall h lg,
  Holds [] (region_of h group_id) lg -> log_allows_all lg ops ->
  Holds [] (region_of (h ++ concat (op_records <$> ops)) group_id) (log_run lg ops).
Proof.
  induction ops as [|op ops IH]; intros h lg HH Hal; cbn [fmap list_fmap concat]; [by rewrite app_nil_r|].
  destruct Hal as [Ha Hal]. rewrite app_assoc. apply IH; [|done]. by apply holds_step.
Qed.

(** A crash leaves the log as it was after some of the operations, with
    purged entries still in place at worst. *)
Lemma holds_crash e lg ops e2 e' :
  Holds [] (region_of (history e) group_id) lg -> synced e = length (history e) -> log_allows_all lg ops ->
  store_run e ops = Ok e2 -> crash e2 e' ->
  exists k old, (k <= length ops)%nat /\ Holds old (region_of (history e') group_id) (log_run lg (take k ops)).
Proof.
  intros HH Hsy Hal Hrun (n & Hn & Hh'). destruct (holds_run _ _ _ _ HH Hal Hrun) as (_ & Hh & Hle).
  rewrite Hh, take_app_ge in Hh' by lia. destruct (records_prefix ops (n - length (history e))) as (k & Hk & Hcase).
  pose proof (holds_records (take k ops) _ _ HH (log_allows_take _ _ k Hal)) as Hpre.
  destruct Hcase as [E|(id & Ho & E)]; rewrite E in Hh'; rewrite Hh'.
  - by exists k, [].
  - rewrite app_assoc, region_of_snoc. cbn [apply_record]. rewrite lookup_insert_eq. cbn [default].
    destruct (holds_purging _ _ id Hpre (log_allows_at _ _ _ _ Hal Ho)) as [old Hold]. exists (S k), old.
    split; [apply lookup_lt_Some in Ho; lia|]. rewrite (take_S_r _ _ _ Ho). unfold log_run in *. by rewrite foldl_app.
Qed.

Lemma log_allows_app ops1 ops2 : forall lg,
  log_allows_all lg (ops1 ++ ops2) -> log_allows_all lg ops1 /\ log_allows_all (log_run lg ops1) ops2.
Proof.
  induction ops1 as [|op ops1 IH]; intros lg; cbn; [done|]. intros [H1 H2]. destruct (IH _ H2). done.
Qed.

Lemma store_run_synced e0 ops op e1 :
  (op = OpFlush \/ exists v, op = OpVote v) -> store_run e0 (ops ++ [op]) = Ok e1 -> synced e1 = length (history e1).
Proof.
  intros Hop. revert e0. induction ops as [|o ops IH]; intros e0; cbn.
  - destruct Hop as [->|[v ->]]; cbn.
    + unfold flush. destruct (engine_sync e0) as [e2|] eqn:E; [|done]. cbn. intros [= <-]. by apply sync_history in E as [_ ?].
    + unfold save_vote, put_meta. destruct (engine_write _ _ _) as [e2|]; [|done]. cbn.
      destruct (engine_sync e2) as [e3|] eqn:E; [|done]. cbn. intros [= <-]. by apply sync_history in E as [_ ?].
  - destruct (store_step e0 o) as [e2|]; [|done]. cbn. apply IH.
Qed.

(** ** Properties *)


(** C12: what was synced survives a crash: after a vote is saved, or the flush of
    an append is reported, whatever is done next and whenever power is lost, the
    store comes back as it was after one of the later operations: with its vote,
    its last purged id, and every entry after that id. In particular a purge never
    loses an entry it has not recorded as purged. *)
Theorem log_store_survives e0 ops1 op ops2 e1 e2 e' :
  history e0 = [] -> (op = OpFlush \/ exists v, op = OpVote v) -> log_allows_all log_new (ops1 ++ op :: ops2) ->
  store_run e0 (ops1 ++ [op]) = Ok e1 -> store_run e1 ops2 = Ok e2 -> crash e2 e' ->
  exists k, (k <= length ops2)%nat /\
  let lg := log_run log_new (ops1 ++ op :: take k ops2) in
  read_vote e' = Ok (lg_vote lg) /\ get_last_purged e' = Ok (lg_purged lg) /\
  forall lo hi, lg_first lg <= range_start lo -> range_start lo <= range_end hi -> range_end hi <= lg_next lg ->
    try_get_log_entries e' lo hi = Ok (log_slice lg (range_start lo) (range_end hi)).
Proof.
  intros Hh Hop Hal Hrun1 Hrun2 Hcr.
  assert (H0 : Holds [] (region_of (history e0) group_id) log_new) by (rewrite Hh; apply holds_new).
  rewrite cons_middle, app_assoc in Hal. apply log_allows_app in Hal as [Hal1 Hal2].
  destruct (holds_run _ _ _ _ H0 Hal1 Hrun1) as (HH & _).
  destruct (holds_crash _ _ _ _ _ HH (store_run_synced _ _ _ _ Hop Hrun1) Hal2 Hrun2 Hcr) as (k & old & Hk & HHk).
  exists k. split; [done|]. cbn zeta. rewrite cons_middle, app_assoc. unfold log_run in *. rewrite foldl_app. split_and!.
  - by apply (holds_vote_read e' old).
  - by apply (holds_purged_read e' old).
  - intros lo hi. by apply (holds_reads e' old).
Qed.
End Engine.

(** ** A sample engine *)

(** The history itself, and how much of it is synced. *)
Definition SampleEntry : Type := Z * Z.

#[local] Instance sample_engine : @RaftEngine Z Z SampleEntry := {|
  Engine := list (@Record_ Z Z SampleEntry) * nat;
  history := fst;
  synced e := Nat.min e.2 (length e.1);
  engine_write e b s := Ok (e.1 ++ b, Nat.min e.2 (length e.1));
  engine_sync e := Ok (e.1, length e.1);
  engine_compact_to e g i := (e.1 ++ [CompactTo g i], Nat.min e.2 (length e.1));
  engine_last_index e g := region_last (region_of snd id e.1 g);
  engine_get_entry e g i := let r := region_of snd id e.1 g in Ok (region_log r !! Z.to_nat (i - first_index r));
  engine_fetch_entries_to e g a b := Ok (region_slice (region_of snd id e.1 g) a b);
  engine_get_message e g k := Ok (messages (region_of snd id e.1 g) !! k)
|}.

#[local] Instance sample_engine_ok : RaftEngineOk snd id sample_engine.
Proof.
  constructor; cbn; try done.
  - intros e. apply Nat.le_min_r.
  - intros [h n] b s e' [= <-]. cbn. split; [done|]. rewrite length_app. apply Nat.min_glb; [done|]. etransitivity; [apply Nat.le_min_r|]. apply Nat.le_add_r.
  - intros [h n] e' [= <-]. cbn. split; [done|]. apply Nat.min_id.
  - intros [h n] g i. cbn. split; [done|]. symmetry. apply Nat.min_l. etransitivity; [apply Nat.le_min_r|]. rewrite length_app. apply Nat.le_add_r.
Qed.

(** Terms and indexes: two entries of term 1 are truncated and replaced by one
    of term 2, and the first entry is purged. *)
Definition sample_ops : list (@LogOp Z Z SampleEntry) :=
  [OpVote 1; OpAppend [(1, 0); (1, 1); (1, 2)]; OpTruncate (Some 0); OpAppend [(2, 1)]].

Lemma sample_ops_allowed : log_allows_all snd id log_new (sample_ops ++ OpFlush :: [OpPurge 0; OpAppend [(2, 2)]]).
Proof.
  cbn. unfold lg_first, entry_index. cbn. split_and!; try done; try lia.
  - intros [|[|[|j]]] e; cbn; try done; by intros [= <-].
  - intros [|j] e; cbn; try done. by intros [= <-].
  - intros [|j] e; cbn; try done. by intros [= <-].
Qed.


Definition sample_new : @Engine Z Z SampleEntry sample_engine := ([], 0%nat).

(** Power is lost in the middle of the purge. *)
Definition sample_crashed : @Engine Z Z SampleEntry sample_engine :=
  ([PutMessage 0 VOTE (MetaVote 1); AddEntries 0 [(1, 0); (1, 1); (1, 2)]; AddEntries 0 [(2, 1)];
    PutMessage 0 LAST_PURGED (MetaLogId 0)], 4%nat).

Lemma log_store_survives_witness :
  (exists e1 e2, store_run id 0 sample_new (sample_ops ++ [OpFlush]) = Ok e1 /\
    store_run id 0 e1 [OpPurge 0; OpAppend [(2, 2)]] = Ok e2 /\ crash e2 sample_crashed) /\
  try_get_log_entries 0 sample_crashed (Included 1) (Excluded 2) = Ok [(2, 1)].
Proof.
  assert (Hc : exists e1 e2, store_run id 0 sample_new (sample_ops ++ [OpFlush]) = Ok e1 /\
    store_run id 0 e1 [OpPurge 0; OpAppend [(2, 2)]] = Ok e2 /\ crash e2 sample_crashed).
  { eexists _, _. split; [reflexivity|]. split; [reflexivity|]. exists 4%nat. split; [vm_compute; lia|reflexivity]. }
  split; [exact Hc|]. destruct Hc as (e1 & e2 & E1 & E2 & Hcr).
  destruct (log_store_survives (RE := sample_engine) snd id 0 sample_new sample_ops OpFlush [OpPurge 0; OpAppend [(2, 2)]] e1 e2 sample_crashed
    eq_refl (or_introl eq_refl) sample_ops_allowed E1 E2 Hcr) as (k & Hk & _ & _ & Hr).
  specialize (Hr (Included 1) (Excluded 2)). cbn in Hk.
  destruct k as [|[|[|k]]]; [| | |lia]; exact (Hr ltac:(vm_compute; congruence) ltac:(cbn; lia) ltac:(vm_compute; congruence)).
Defined.
