(* ===== verification/Pipeline.v ===== *)
(** * Pipeline: requests answered in the order they are sent.

    Models [PipelineClient] of src/cache_cat/src/raft/network/pipeline_client.rs
    and [pipeline_mode] of src/cache_cat/src/raft/network/rpc.rs: frames without
    identifiers, matched with their callers by their position alone. The tasks of
    both ends take steps in any order. *)

From S2P Require Import Prelude Text.

Section Pipeline.
(** Requests and responses, and the bytes of a request if it can be serialized. *)
Context {Req Res : Type} (serialize : Req -> result bytes bytes).

Definition CALL_CAPACITY : nat := 1024.
Definition CALLBACK_CAPACITY : nat := 1024.
Definition MAX_FUTURES : nat := 100.

(** What a caller receives through its callback. *)
Inductive CallResult := Response (r : Res) | SerializeError (text : bytes).

(** The queue of calls, the callback the write task holds while it waits for the
    queue of callbacks, that queue, and the callback the read task holds; the
    frames under way; the requests the server is executing, in order, with their
    results once they have ended; the responses under way; what the callers have
    received. The last two fields record every frame written, with its call, and
    every response the server sent, with its frame. *)
Record Pipe := mkPipe {
  calls : list (nat * Req);
  writer : option nat;
  callbacks : list nat;
  reader : option nat;
  to_server : list bytes;
  pending : list (bytes * option Res);
  to_client : list Res;
  received : list (nat * CallResult);
  written : list (nat * bytes);
  served : list (bytes * Res)
}.

Definition pipe_new : Pipe := mkPipe [] None [] None [] [] [] [] [] [].

Inductive PipeAction :=
| PipeCall (id : nat) (req : Req)
| PipeWrite
| PipePushCallback
| PipeTakeCallback
| PipeReadResponse
| PipeServerRead
| PipeServerFinish (i : nat) (r : Res)
| PipeServerSend.

(** [call]: [self.tx.send(..)] waits while the queue is full. *)
Definition pipe_call (p : Pipe) (id : nat) (req : Req) : option Pipe :=
  if (length (calls p) <? CALL_CAPACITY)%nat
  then Some (mkPipe (calls p ++ [(id, req)]) (writer p) (callbacks p) (reader p) (to_server p) (pending p) (to_client p) (received p) (written p) (served p))
  else None.

(** The write task: a frame, or the error to its caller. *)
Definition pipe_write (p : Pipe) : option Pipe :=
  match writer p, calls p with
  | None, (id, req) :: rest =>
      match serialize req with
      | Ok encoded =>
          Some (mkPipe rest (Some id) (callbacks p) (reader p) (to_server p ++ [encoded]) (pending p) (to_client p) (received p)
                  (written p ++ [(id, encoded)]) (served p))
      | Err e =>
          Some (mkPipe rest None (callbacks p) (reader p) (to_server p) (pending p) (to_client p) (received p ++ [(id, SerializeError e)])
                  (written p) (served p))
      end
  | _, _ => None
  end.

Definition pipe_push_callback (p : Pipe) : option Pipe :=
  match writer p with
  | Some id =>
      if (length (callbacks p) <? CALLBACK_CAPACITY)%nat
      then Some (mkPipe (calls p) None (callbacks p ++ [id]) (reader p) (to_server p) (pending p) (to_client p) (received p) (written p) (served p))
      else None
  | None => None
  end.

(** The read task: a callback, then the next frame for it. *)
Definition pipe_take_callback (p : Pipe) : option Pipe :=
  match reader p, callbacks p with
  | None, id :: rest =>
      Some (mkPipe (calls p) (writer p) rest (Some id) (to_server p) (pending p) (to_client p) (received p) (written p) (served p))
  | _, _ => None
  end.

Definition pipe_read_response (p : Pipe) : option Pipe :=
  match reader p, to_client p with
  | Some id, r :: rest =>
      Some (mkPipe (calls p) (writer p) (callbacks p) None (to_server p) (pending p) rest (received p ++ [(id, Response r)]) (written p) (served p))
  | _, _ => None
  end.

(** [pipeline_mode]: a request is read while fewer than a hundred are pending;
    they are executed together, and [FuturesOrdered] yields them in order. *)
Definition pipe_server_read (p : Pipe) : option Pipe :=
  match to_server p with
  | frame :: rest =>
      if (length (pending p) <? MAX_FUTURES)%nat
      then Some (mkPipe (calls p) (writer p) (callbacks p) (reader p) rest (pending p ++ [(frame, None)]) (to_client p) (received p) (written p) (served p))
      else None
  | [] => None
  end.

Definition pipe_server_finish (p : Pipe) (i : nat) (r : Res) : option Pipe :=
  match pending p !! i with
  | Some (frame, None) =>
      Some (mkPipe (calls p) (writer p) (callbacks p) (reader p) (to_server p) (<[i := (frame, Some r)]> (pending p)) (to_client p) (received p) (written p) (served p))
  | _ => None
  end.

Definition pipe_server_send (p : Pipe) : option Pipe :=
  match pending p with
  | (frame, Some r) :: rest =>
      Some (mkPipe (calls p) (writer p) (callbacks p) (reader p) (to_server p) rest (to_client p ++ [r]) (received p) (written p) (served p ++ [(frame, r)]))
  | _ => None
  end.

Definition pipe_step (p : Pipe) (a : PipeAction) : option Pipe :=
  match a with
  | PipeCall id req => pipe_call p id req
  | PipeWrite => pipe_write p
  | PipePushCallback => pipe_push_callback p
  | PipeTakeCallback => pipe_take_callback p
  | PipeReadResponse => pipe_read_response p
  | PipeServerRead => pipe_server_read p
  | PipeServerFinish i r => pipe_server_finish p i r
  | PipeServerSend => pipe_server_send p
  end.

Fixpoint pipe_run (p : Pipe) (acts : list PipeAction) : option Pipe :=
  match acts with [] => Some p | a :: acts' => let* p' := pipe_step p a in pipe_run p' acts' end.

(** ** Matching *)

(** The responses that arrived, in order. *)
Definition responses (l : list (nat * CallResult)) : list (nat * Res) :=
  omap (fun x => match x.2 with Response r => Some (x.1, r) | SerializeError _ => None end) l.

(** The callbacks that are not answered, in order, are those of the frames whose
    responses have not arrived, in order. *)
Record PipeInv (p : Pipe) : Prop := {
  pi_ids : (written p).*1 = (responses (received p)).*1 ++ option_list (reader p) ++ callbacks p ++ option_list (writer p);
  pi_frames : (written p).*2 = (served p).*1 ++ (pending p).*1 ++ to_server p;
  pi_results : (served p).*2 = (responses (received p)).*2 ++ to_client p
}.

Ltac pcbn := cbn [calls writer callbacks reader to_server pending to_client received written served option_list app] in *.

Lemma responses_app l1 l2 : responses (l1 ++ l2) = responses l1 ++ responses l2.
Proof. apply omap_app. Qed.

Lemma responses_ok l id r : responses (l ++ [(id, Response r)]) = responses l ++ [(id, r)].
Proof. by rewrite responses_app. Qed.

Lemma responses_error l id e : responses (l ++ [(id, SerializeError e)]) = responses l.
Proof. rewrite responses_app. apply app_nil_r. Qed.

Lemma pipe_step_inv p a p' : PipeInv p -> pipe_step p a = Some p' -> PipeInv p'.
Proof.
  intros [H1 H2 H3] Hs. destruct p as [cs w cbs rd ts pn tc rv wr sv]. pcbn.
  destruct a as [id req| | | | | |i r|]; cbn [pipe_step] in Hs; unfold pipe_call, pipe_write, pipe_push_callback, pipe_take_callback,
    pipe_read_response, pipe_server_read, pipe_server_finish, pipe_server_send in Hs; pcbn.
  - case_match; [|done]. injection Hs as <-. by constructor.
  - destruct w; [done|]. destruct cs as [|[id req] cs]; [done|]. destruct (serialize req) as [b|e]; injection Hs as <-; constructor; pcbn;
      rewrite ?responses_error; try done.
    + rewrite fmap_app, H1, app_nil_r, <- !app_assoc. done.
    + rewrite fmap_app, H2, <- !app_assoc. done.
  - destruct w as [id|]; [|done]. case_match; [|done]. injection Hs as <-. constructor; pcbn; [|done..].
    by rewrite H1, app_nil_r.
  - destruct rd; [done|]. destruct cbs as [|id cbs]; [done|]. injection Hs as <-. by constructor.
  - destruct rd as [id|]; [|done]. destruct tc as [|r tc]; [done|]. injection Hs as <-. constructor; pcbn; rewrite ?responses_ok, ?fmap_app; [|done|].
    + rewrite H1, <- !app_assoc. done.
    + rewrite H3, <- !app_assoc. done.
  - destruct ts as [|f ts]; [done|]. case_match; [|done]. injection Hs as <-. constructor; pcbn; [done| |done].
    rewrite fmap_app, H2, <- !app_assoc. done.
  - destruct (pn !! i) as [[f [x|]]|] eqn:Ei; try done. injection Hs as <-. constructor; pcbn; [done| |done].
    rewrite list_fmap_insert. cbn [fst]. rewrite list_insert_id; [done|]. by rewrite list_lookup_fmap, Ei.
  - destruct pn as [|[f [r|]] pn]; try done. injection Hs as <-. constructor; pcbn; [done| |].
    + rewrite fmap_app, H2, <- !app_assoc. done.
    + rewrite fmap_app, H3, <- !app_assoc. done.
Qed.

Lemma pipe_run_inv acts : forall p p', PipeInv p -> pipe_run p acts = Some p' -> PipeInv p'.
Proof.
  induction acts as [|a acts IH]; intros p p' Hp; cbn [pipe_run]; [by intros [= <-]|]. destruct (pipe_step p a) as [p1|] eqn:E; [|done].
  apply IH. by eapply pipe_step_inv.
Qed.

Lemma pipe_matched p k id r : PipeInv p -> responses (received p) !! k = Some (id, r) ->
  exists frame, written p !! k = Some (id, frame) /\ served p !! k = Some (frame, r).
Proof.
  intros [H1 H2 H3] Hk.
  assert (Hid : (written p).*1 !! k = Some id) by (rewrite H1; apply lookup_app_l_Some; by rewrite list_lookup_fmap, Hk).
  assert (Hr : (served p).*2 !! k = Some r) by (rewrite H3; apply lookup_app_l_Some; by rewrite list_lookup_fmap, Hk).
  rewrite list_lookup_fmap in Hid. rewrite list_lookup_fmap in Hr. destruct (written p !! k) as [[id' frame]|] eqn:Ew; [|done].
  destruct (served p !! k) as [[frame' r']|] eqn:Es; [|done]. cbn in Hid, Hr. injection Hid as ->. injection Hr as ->.
  assert (Hf : (written p).*2 !! k = Some frame') by (rewrite H2; apply lookup_app_l_Some; by rewrite list_lookup_fmap, Es).
  rewrite list_lookup_fmap, Ew in Hf. cbn in Hf. injection Hf as ->. by exists frame'.
Qed.

(** No task can take a step, and the server executes nothing. *)
Definition pipe_quiet (p : Pipe) : Prop :=
  Forall (fun x => is_Some x.2) (pending p) /\
  Forall (fun a => pipe_step p a = None) [PipeWrite; PipePushCallback; PipeTakeCallback; PipeReadResponse; PipeServerRead; PipeServerSend].

Lemma pipe_quiet_done p : PipeInv p -> pipe_quiet p -> calls p = [] /\ length (responses (received p)) = length (written p).
Proof.
  intros [H1 H2 H3] [Hf Hs]. rewrite !Forall_cons in Hs. destruct Hs as (Q1 & Q2 & Q3 & Q4 & Q5 & Q6 & _).
  destruct p as [cs w cbs rd ts pn tc rv wr sv]. cbn [pipe_step] in *.
  unfold pipe_write, pipe_push_callback, pipe_take_callback, pipe_read_response, pipe_server_read, pipe_server_send in *. pcbn.
  assert (pn = []) as ->. { destruct pn as [|[f [r|]] pn]; [done|done|]. apply Forall_cons in Hf as [[x Hx] _]. done. }
  assert (ts = []) as -> by (by destruct ts).
  assert (tc = []) as ->.
  { destruct tc as [|r tc]; [done|]. destruct rd; [done|]. exfalso.
    assert (cbs = []) as -> by (by destruct cbs). assert (w = None) as -> by (by destruct w).
    apply (f_equal length) in H1, H2, H3. rewrite ?length_app, !length_fmap in *. cbn in *. lia. }
  assert (Hlen : length (responses rv) = length wr).
  { apply (f_equal length) in H2, H3. rewrite ?length_app, !length_fmap in *. cbn in *. lia. }
  split; [|done]. assert (w = None) as ->. { destruct w; [|done]. apply (f_equal length) in H1. rewrite ?length_app, !length_fmap in *. cbn in *. lia. }
  destruct cs as [|[id req] cs]; [done|]. by destruct (serialize req).
Qed.

(** C32: A pipelined call gets the response to its own request. In every state the
    two ends can reach, the k-th response that arrived went to the call whose
    frame was written k-th, and is what the server computed for that frame,
    whatever order the server finished its requests in. And the bounded queues
    never block each other: when no task can take a step and the server has no
    request left to execute, every call is written and every frame answered. *)
Theorem pipeline_matches (acts : list PipeAction) (p : Pipe) (Hrun : pipe_run pipe_new acts = Some p) :
  (forall k id r, responses (received p) !! k = Some (id, r) ->
     exists frame, written p !! k = Some (id, frame) /\ served p !! k = Some (frame, r)) /\
  (pipe_quiet p -> calls p = [] /\ length (responses (received p)) = length (written p)).
Proof.
  assert (Hi : PipeInv p) by (eapply pipe_run_inv; [|exact Hrun]; by constructor).
  split; [intros k id r; by apply pipe_matched|by apply pipe_quiet_done].
Qed.
End Pipeline.

(** Two calls whose requests the server finishes in the opposite order. *)
Lemma pipeline_matches_witness : exists p,
  pipe_run (fun b : bytes => Ok b) pipe_new
    [PipeCall 0%nat (str "a"); PipeCall 1%nat (str "b"); PipeWrite; PipePushCallback; PipeWrite; PipePushCallback; PipeServerRead; PipeServerRead;
     PipeServerFinish 1%nat (str "B"); PipeServerFinish 0%nat (str "A"); PipeServerSend; PipeServerSend; PipeTakeCallback; PipeReadResponse] = Some p /\
  responses (received p) = [(0%nat, str "A")] /\ exists frame, written p !! 0%nat = Some (0%nat, frame) /\ served p !! 0%nat = Some (frame, str "A").
Proof.
  eexists. split; [vm_compute; reflexivity|]. split; [vm_compute; reflexivity|].
  refine (proj1 (pipeline_matches (Req := bytes) (Res := bytes) (fun b => Ok b)
    [PipeCall 0%nat (str "a"); PipeCall 1%nat (str "b"); PipeWrite; PipePushCallback; PipeWrite; PipePushCallback; PipeServerRead; PipeServerRead;
     PipeServerFinish 1%nat (str "B"); PipeServerFinish 0%nat (str "A"); PipeServerSend; PipeServerSend; PipeTakeCallback; PipeReadResponse] _ _) 0%nat 0%nat (str "A") _);
    vm_compute; reflexivity.
Defined.
