(* ===== verification/Config.v ===== *)
(** * Config: the configuration of a node.

    Models src/cache_cat/src/cfg/config.rs, cli_arg.rs and default.rs,
    src/cache_cat/src/node/parsed_config.rs,
    src/cache_cat/src/raft/types/endpoint.rs, and the choice of TLS contexts of
    src/cache_cat/src/raft/network/tls.rs. Reading the file (the toml crate) and
    the command line (clap) is done elsewhere: their results are arguments, and
    so are the certificates that rustls loads. *)

From S2P Require Import Prelude Text Reply Errors.
From Stdlib Require Import Strings.Byte.

(** ** Records *)

Record RedisConfig := mkRedisConfig {
  cfg_tls_port : option Z;
  cfg_redis_port : Z;
  requirepass : option bytes;
  cfg_cleaning_interval : Z;
  cfg_sentinel_master_name : bytes;
  databases : Z
}.

Record RaftConfig := mkRaftConfig {
  cfg_log_path : bytes;
  cfg_address : bytes;
  advertise_host : bytes;
  cfg_single : bool;
  cfg_join : list bytes;
  cfg_election_timeout : Z;
  cfg_snapshot_policy : Z;
  cfg_replication_lag_threshold : Z
}.

Record TlsConfig := mkTlsConfig {
  cfg_tls_cert_file : option bytes;
  cfg_tls_key_file : option bytes;
  cfg_tls_ca_cert_file : option bytes;
  cfg_tls_auth_clients : option bool;
  cfg_tls_protocols : option bytes;
  cfg_tls_replication : option bool
}.

Record Config := mkConfig { cfg_node_id : Z; cfg_redis : RedisConfig; cfg_raft : RaftConfig; cfg_tls : TlsConfig }.

Definition default_raft_config : RaftConfig :=
  mkRaftConfig (str ".data") (str "0.0.0.0:5001") (str "0.0.0.0") true [] 699 50000 60000.
Definition default_redis_config : RedisConfig := mkRedisConfig None 6379 None 10 (str "cat") 16.
Definition default_tls_config : TlsConfig := mkTlsConfig None None None None None None.
Definition config_default : Config := mkConfig 1 default_redis_config default_raft_config default_tls_config.

(** ** Socket addresses

    [str::parse::<SocketAddr>] of the standard library, as far as [validate] needs
    it: whether the text is an address. Each reader returns what is left. *)

Definition hex_digit (b : byte) : option Z :=
  if is_digit b then Some (digit_val b)
  else if ((97 <=? bz b) && (bz b <=? 102))%bool then Some (bz b - 87)
  else if ((65 <=? bz b) && (bz b <=? 70))%bool then Some (bz b - 55)
  else None.

Definition to_digit (radix : Z) (b : byte) : option Z :=
  let* d := hex_digit b in if d <? radix then Some d else None.

Fixpoint read_digits (radix : Z) (s : bytes) (acc : Z) (n : nat) : Z * nat * bytes :=
  match s with
  | [] => (acc, n, [])
  | b :: s' =>
      match to_digit radix b with
      | Some d => read_digits radix s' (acc * radix + d) (S n)
      | None => (acc, n, s)
      end
  end.

Definition read_number (radix : Z) (max_digits : option nat) (allow_zero_prefix : bool) (max : Z) (s : bytes) : option bytes :=
  let '(v, n, rest) := read_digits radix s 0 0 in
  let leading_zero := match s with x30 :: _ => true | _ => false end in
  if match max_digits with Some m => (m <? n)%nat | None => false end then None
  else if (n =? 0)%nat then None
  else if (negb allow_zero_prefix && leading_zero && (1 <? n)%nat)%bool then None
  else if v <=? max then Some rest else None.

Definition read_given_char (c : byte) (s : bytes) : option bytes :=
  match s with b :: s' => if bool_decide (b = c) then Some s' else None | [] => None end.

(** [read_separator]: the separator comes before every item but the first. *)
Definition read_separator (c : byte) (i : nat) (inner : bytes -> option bytes) (s : bytes) : option bytes :=
  if (i =? 0)%nat then inner s else let* s1 := read_given_char c s in inner s1.

Definition read_ipv4 (s : bytes) : option bytes :=
  let octet i := read_separator x2e i (read_number 10 (Some 3%nat) false 255) in
  let* s := octet 0%nat s in let* s := octet 1%nat s in let* s := octet 2%nat s in octet 3%nat s.

Definition read_port (s : bytes) : option bytes :=
  let* s := read_given_char x3a s in read_number 10 None true 65535 s.

(** [read_groups]: the number of groups read, whether they end with an IPv4
    address, and the rest. [left] groups may follow the [i] that were read. *)
Fixpoint read_groups (left i : nat) (s : bytes) : nat * bool * bytes :=
  match left with
  | O => (i, false, s)
  | S left' =>
      match (match left' with O => None | S _ => read_separator x3a i read_ipv4 s end) with
      | Some rest => (S (S i), true, rest)
      | None =>
          match read_separator x3a i (read_number 16 (Some 4%nat) true 65535) s with
          | Some rest => read_groups left' (S i) rest
          | None => (i, false, s)
          end
      end
  end.

Definition read_ipv6 (s : bytes) : option bytes :=
  let '(head, head_ipv4, s1) := read_groups 8 0 s in
  if (head =? 8)%nat then Some s1
  else if head_ipv4 then None
  else
    let* s2 := read_given_char x3a s1 in
    let* s3 := read_given_char x3a s2 in
    let '(_, _, s4) := read_groups (8 - (head + 1)) 0 s3 in Some s4.

Definition read_scope_id (s : bytes) : option bytes :=
  let* s := read_given_char x25 s in read_number 10 None true (2 ^ 32 - 1) s.

Definition read_socket_v4 (s : bytes) : option bytes := let* s := read_ipv4 s in read_port s.

Definition read_socket_v6 (s : bytes) : option bytes :=
  let* s := read_given_char x5b s in
  let* s := read_ipv6 s in
  let s := default s (read_scope_id s) in
  let* s := read_given_char x5d s in
  read_port s.

Definition is_socket_addr (s : bytes) : bool :=
  match (match read_socket_v4 s with Some rest => Some rest | None => read_socket_v6 s end) with
  | Some [] => true
  | _ => false
  end.

(** ** Checking and merging *)

Definition validate (c : Config) : result unit CacheCatError :=
  let r := cfg_raft c in
  if (cfg_single r && negb (bool_decide (cfg_join r = [])))%bool
  then Err (InvalidConfig (str "'single' mode cannot be used together with 'join' configuration"))
  else if (negb (cfg_snapshot_policy r =? 0) && (cfg_replication_lag_threshold r <? cfg_snapshot_policy r))%bool
  then Err (InvalidConfig (str "'snapshot_policy' cannot be greater than 'replication_lag_threshold'"))
  else if is_socket_addr (cfg_address r) then Ok tt
  else Err (InvalidConfig (str "invalid socket address syntax while parsing " ++ cfg_address r)).

Record CliArgs := mkCliArgs {
  cli_config : option bytes;
  cli_node_id : option Z;
  cli_redis_port : option Z;
  cli_redis_password : option bytes;
  cli_redis_cleaning_interval : option Z;
  cli_redis_sentinel_master_name : option bytes;
  cli_redis_databases : option Z;
  cli_raft_log_path : option bytes;
  cli_raft_address : option bytes;
  cli_raft_advertise_host : option bytes;
  cli_raft_single : option bool;
  cli_raft_join : list bytes;
  cli_raft_election_timeout : option Z;
  cli_raft_snapshot_policy : option Z;
  cli_raft_replication_lag_threshold : option Z;
  cli_tls_port : option Z;
  cli_tls_cert_file : option bytes;
  cli_tls_key_file : option bytes;
  cli_tls_ca_cert_file : option bytes;
  cli_tls_auth_clients : option bool;
  cli_tls_protocols : option bytes;
  cli_tls_replication : option bool
}.

(** A given value replaces the one of the file. *)
Definition over {A} (cli : option A) (old : A) : A := default old cli.
Definition over_some {A} (cli old : option A) : option A := match cli with Some v => Some v | None => old end.

Definition apply_cli (cli : CliArgs) (c : Config) : Config :=
  let d := cfg_redis c in
  let r := cfg_raft c in
  let t := cfg_tls c in
  mkConfig (over (cli_node_id cli) (cfg_node_id c))
    (mkRedisConfig (over_some (cli_tls_port cli) (cfg_tls_port d)) (over (cli_redis_port cli) (cfg_redis_port d))
       (over_some (cli_redis_password cli) (requirepass d)) (over (cli_redis_cleaning_interval cli) (cfg_cleaning_interval d))
       (over (cli_redis_sentinel_master_name cli) (cfg_sentinel_master_name d)) (over (cli_redis_databases cli) (databases d)))
    (mkRaftConfig (over (cli_raft_log_path cli) (cfg_log_path r)) (over (cli_raft_address cli) (cfg_address r))
       (over (cli_raft_advertise_host cli) (advertise_host r)) (over (cli_raft_single cli) (cfg_single r))
       (if bool_decide (cli_raft_join cli = []) then cfg_join r else cli_raft_join cli)
       (over (cli_raft_election_timeout cli) (cfg_election_timeout r)) (over (cli_raft_snapshot_policy cli) (cfg_snapshot_policy r))
       (over (cli_raft_replication_lag_threshold cli) (cfg_replication_lag_threshold r)))
    (mkTlsConfig (over_some (cli_tls_cert_file cli) (cfg_tls_cert_file t)) (over_some (cli_tls_key_file cli) (cfg_tls_key_file t))
       (over_some (cli_tls_ca_cert_file cli) (cfg_tls_ca_cert_file t)) (over_some (cli_tls_auth_clients cli) (cfg_tls_auth_clients t))
       (over_some (cli_tls_protocols cli) (cfg_tls_protocols t)) (over_some (cli_tls_replication cli) (cfg_tls_replication t))).

(** [file] is what [load_config] returns for the path, if one is given; a path
    that is not UTF-8 is refused before. *)
Definition load_config_with_cli (cli : CliArgs) (file : bytes -> result Config bytes) : result Config bytes :=
  let? config := match cli_config cli with Some path => file path | None => Ok config_default end in
  let config := apply_cli cli config in
  match validate config with
  | Ok _ => Ok config
  | Err e => Err (str "Configuration validation failed: " ++ kind_text e)
  end.

(** ** Endpoints *)

Record Endpoint := mkEndpoint { ep_address : bytes; ep_port : Z; ep_redis_port : Z }.

Definition endpoint_new (addr : bytes) (redis_port port : Z) : Endpoint := mkEndpoint addr port redis_port.

Definition redis_addr (e : Endpoint) : bytes := ep_address e ++ [x3a] ++ nat_to_string (ep_redis_port e).
Definition raft_addr (e : Endpoint) : bytes := ep_address e ++ [x3a] ++ nat_to_string (ep_port e).

Definition parse_u32_str (s : bytes) : option Z :=
  let v := match s with x2b :: s' => parse_digits s' | _ => parse_digits s end in
  let* z := v in
  if z <? 2 ^ 32 then Some z else None.

(** The text of the error of [parse::<u32>]: the first thing that is wrong. *)
Fixpoint digits_error (s : bytes) (acc max : Z) : bytes :=
  match s with
  | [] => []
  | b :: s' =>
      if is_digit b then
        if max <? 10 * acc + digit_val b then str "number too large to fit in target type"
        else digits_error s' (10 * acc + digit_val b) max
      else str "invalid digit found in string"
  end.

Definition parse_int_error (s : bytes) (max : Z) : bytes :=
  match s with
  | [] => str "cannot parse integer from empty string"
  | [x2b] => str "invalid digit found in string"
  | x2b :: s' => digits_error s' 0 max
  | _ => digits_error s 0 max
  end.

(** [splitn(2, ':')]: before and after the first colon. *)
Fixpoint split_colon (s : bytes) : option (bytes * bytes) :=
  match s with
  | [] => None
  | b :: s' =>
      if bool_decide (b = x3a) then Some ([], s')
      else let* p := split_colon s' in Some (b :: p.1, p.2)
  end.

Definition endpoint_parse (address : bytes) (redis_port : Z) : result Endpoint CacheCatError :=
  match split_colon address with
  | None => Err (InvalidConfig (str "Failed to parse address: " ++ address))
  | Some (host, port) =>
      match parse_u32_str port with
      | None => Err (InvalidConfig (str "Failed to parse port: " ++ parse_int_error port (2 ^ 32 - 1) ++ str "; address: " ++ address))
      | Some p => Ok (endpoint_new host redis_port p)
      end
  end.

(** ** The parsed configuration *)

Inductive SnapshotPolicy := LogsSinceLast (n : Z) | Never.

Record ParsedConfig := mkParsedConfig {
  node_id : Z;
  raft_endpoint : Endpoint;
  raft_advertise_endpoint : Endpoint;
  redis_port : Z;
  raft_single : bool;
  config_password : option bytes;
  raft_join : list bytes;
  log_path : bytes;
  sentinel_master_name : bytes;
  election_timeout : Z;
  snapshot_policy : SnapshotPolicy;
  replication_lag_threshold : Z;
  cleaning_interval : Z;
  config_db_number : Z;
  tls_port : option Z;
  tls_cert_file : option bytes;
  tls_key_file : option bytes;
  tls_ca_cert_file : option bytes;
  tls_auth_clients : bool;
  tls_protocols : option bytes;
  tls_replication : bool
}.

Definition parsed_config_from (c : Config) : result ParsedConfig CacheCatError :=
  let d := cfg_redis c in
  let r := cfg_raft c in
  let t := cfg_tls c in
  let? raft_endpoint := endpoint_parse (cfg_address r) (cfg_redis_port d) in
  let advertise := endpoint_new (advertise_host r) (cfg_redis_port d) (ep_port raft_endpoint) in
  let policy := if cfg_snapshot_policy r =? 0 then Never else LogsSinceLast (cfg_snapshot_policy r) in
  Ok (mkParsedConfig (cfg_node_id c) raft_endpoint advertise (cfg_redis_port d) (cfg_single r) (requirepass d)
        (cfg_join r) (cfg_log_path r) (cfg_sentinel_master_name d) (Z.max (cfg_election_timeout r) 500) policy
        (cfg_replication_lag_threshold r) (cfg_cleaning_interval d) (databases d)
        (match cfg_tls_port d with Some p => if p =? 0 then None else Some p | None => None end)
        (cfg_tls_cert_file t) (cfg_tls_key_file t) (cfg_tls_ca_cert_file t) (default false (cfg_tls_auth_clients t))
        (cfg_tls_protocols t) (default false (cfg_tls_replication t))).

(** ** TLS *)

Inductive TlsVersion := TLS12 | TLS13.

(** [split_whitespace]. *)
Fixpoint words_loop (cs : list bytes) (word : bytes) : list bytes :=
  let flush := match word with [] => [] | _ => [word] end in
  match cs with
  | [] => flush
  | c :: cs' => if is_whitespace c then flush ++ words_loop cs' [] else words_loop cs' (word ++ c)
  end.

Definition split_whitespace (s : bytes) : list bytes := words_loop (lossy_chars s) [].

Fixpoint tls_versions (ps : list bytes) : result (list TlsVersion) TlsError :=
  match ps with
  | [] => Ok []
  | p :: ps' =>
      if bool_decide (p = str "TLSv1.2") then let? vs := tls_versions ps' in Ok (TLS12 :: vs)
      else if bool_decide (p = str "TLSv1.3") then let? vs := tls_versions ps' in Ok (TLS13 :: vs)
      else Err (InvalidTls (str "unsupported TLS protocol version '" ++ p ++ str "'"))
  end.

Definition parse_tls_versions (protocol : option bytes) : result (list TlsVersion) TlsError :=
  let? versions := tls_versions (split_whitespace (default (str "TLSv1.2 TLSv1.3") protocol)) in
  match versions with
  | [] => Err (InvalidTls (str "no TLS protocol versions specified"))
  | _ => Ok versions
  end.

(** Files, and what rustls and rustls-pemfile make of them. *)
Class TlsEnv := {
  Cert : Type;
  PrivateKey : Type;
  Roots : Type;
  Verifier : Type;
  ServerTls : Type;
  ClientTls : Type;
  read_file : bytes -> result bytes bytes;
  pem_certs : bytes -> result (list Cert) bytes;
  pkcs8_private_key : bytes -> option (result PrivateKey bytes);
  rsa_private_key : bytes -> option (result PrivateKey bytes);
  ec_private_key : bytes -> option (result PrivateKey bytes);
  roots_empty : Roots;
  roots_add : Roots -> Cert -> result Roots bytes;
  client_verifier : Roots -> result Verifier bytes;
  server_config : list TlsVersion -> option Verifier -> list Cert -> PrivateKey -> result ServerTls bytes;
  client_config : list TlsVersion -> Roots -> list Cert -> PrivateKey -> result ClientTls bytes
}.

Definition map_err {A E F} (f : E -> F) (r : result A E) : result A F :=
  match r with Ok a => Ok a | Err e => Err (f e) end.

Section Tls.
Context `{TE : TlsEnv}.

Definition load_cert_chain (path : bytes) : result (list Cert) TlsError :=
  let? data := map_err (fun e => CertificateLoad (str "failed to read certificate '" ++ path ++ str "': " ++ e)) (read_file path) in
  let? certs := map_err (fun e => CertificateLoad (str "failed to parse certificate: " ++ e)) (pem_certs data) in
  match certs with
  | [] => Err (CertificateLoad (str "no valid certificate found"))
  | _ => Ok certs
  end.

Definition load_private_key (path : bytes) : result PrivateKey TlsError :=
  let? data := map_err (fun e => PrivateKeyLoad (str "failed to read private key '" ++ path ++ str "': " ++ e)) (read_file path) in
  match pkcs8_private_key data with
  | Some key => map_err PrivateKeyLoad key
  | None =>
      match rsa_private_key data with
      | Some key => map_err PrivateKeyLoad key
      | None =>
          match ec_private_key data with
          | Some key => map_err PrivateKeyLoad key
          | None => Err (PrivateKeyLoad (str "no supported private key found"))
          end
      end
  end.

Fixpoint add_roots (roots : Roots) (certs : list Cert) : result Roots TlsError :=
  match certs with
  | [] => Ok roots
  | cert :: certs' =>
      let? roots := map_err (fun e => CaCertificateLoad (str "failed to add CA certificate: " ++ e)) (roots_add roots cert) in
      add_roots roots certs'
  end.

Definition load_root_store (path : bytes) : result Roots TlsError :=
  let? certs := map_err (fun e => CaCertificateLoad (tls_text e)) (load_cert_chain path) in
  add_roots roots_empty certs.

Definition load_identity (cert_file key_file : bytes) : result (list Cert * PrivateKey) TlsError :=
  let? certs := load_cert_chain cert_file in
  let? key := load_private_key key_file in
  Ok (certs, key).

Definition load_tls_config (cert_file key_file : bytes) (config : ParsedConfig) : result ServerTls TlsError :=
  let? versions := parse_tls_versions (tls_protocols config) in
  let? identity := load_identity cert_file key_file in
  if tls_auth_clients config then
    let? ca := ok_or (tls_ca_cert_file config) (InvalidTls (str "client authentication enabled but CA certificate missing")) in
    let? roots := load_root_store ca in
    let? verifier := map_err InvalidTls (client_verifier roots) in
    map_err InvalidTls (server_config versions (Some verifier) identity.1 identity.2)
  else map_err InvalidTls (server_config versions None identity.1 identity.2).

Definition load_client_tls_config (cert_file key_file : bytes) (config : ParsedConfig) : result ClientTls TlsError :=
  let? versions := parse_tls_versions (tls_protocols config) in
  let? identity := load_identity cert_file key_file in
  let? ca := ok_or (tls_ca_cert_file config) (InvalidTls (str "tls-ca-cert-file is required")) in
  let? roots := load_root_store ca in
  map_err InvalidTls (client_config versions roots identity.1 identity.2).

Record TlsContext := mkTlsContext { ctx_server : option ServerTls; ctx_client : option ClientTls; ctx_replication : bool }.

Definition tls_context_load (config : ParsedConfig) : result TlsContext TlsError :=
  match tls_cert_file config, tls_key_file config with
  | Some cert_file, Some key_file =>
      let? server := load_tls_config cert_file key_file config in
      let? client := load_client_tls_config cert_file key_file config in
      Ok (mkTlsContext (Some server) (Some client) (tls_replication config))
  | None, None => Ok (mkTlsContext None None (tls_replication config))
  | _, _ => Err (InvalidTls (str "tls-cert-file and tls-key-file must both be specified"))
  end.

Definition acceptor_for_client (ctx : TlsContext) : option ServerTls := ctx_server ctx.

Definition acceptor_for_cluster (ctx : TlsContext) : option ServerTls :=
  if ctx_replication ctx then ctx_server ctx else None.

Definition connector_for_cluster (ctx : TlsContext) : option ClientTls :=
  if ctx_replication ctx then ctx_client ctx else None.

(** A context is complete or empty, both ends of the cluster agree on whether
    they use it, and a complete one needs a CA file. *)
Lemma tls_context_agrees config ctx :
  tls_context_load config = Ok ctx ->
  ctx_replication ctx = tls_replication config /\
  (acceptor_for_cluster ctx = None <-> connector_for_cluster ctx = None) /\
  (acceptor_for_client ctx <> None -> tls_ca_cert_file config <> None).
Proof.
  unfold tls_context_load, acceptor_for_cluster, connector_for_cluster, acceptor_for_client.
  destruct (tls_cert_file config) as [cf|], (tls_key_file config) as [kf|]; try done.
  - destruct (load_tls_config cf kf config) as [server|]; [|done]. cbn [result_bind].
    destruct (load_client_tls_config cf kf config) as [client|] eqn:E; [|done]. intros [= <-]. cbn.
    split; [done|]. split; [by destruct (tls_replication config)|]. intros _ Hca. revert E. unfold load_client_tls_config. rewrite Hca.
    destruct (parse_tls_versions _); [|done]. cbn [result_bind]. destruct (load_identity cf kf); done.
  - intros [= <-]. cbn. by destruct (tls_replication config).
Qed.
End Tls.

(** ** Which configurations a node starts with *)

Definition addr_byte (b : byte) : Prop := is_digit b = true \/ b = x2e.

Lemma to_digit_decimal b d : to_digit 10 b = Some d -> is_digit b = true /\ d = digit_val b.
Proof.
  unfold to_digit, hex_digit. destruct (is_digit b) eqn:Hb; cbn.
  - case_match; [|done]. by intros [= <-].
  - destruct ((97 <=? bz b) && _)%bool eqn:H1; cbn; [zbool; destruct (_ <? 10) eqn:?; zbool; [lia|done]|].
    destruct ((65 <=? bz b) && _)%bool eqn:H2; cbn; [zbool; destruct (_ <? 10) eqn:?; zbool; [lia|done]|done].
Qed.

Lemma read_digits_prefix radix s : forall acc n v m rest,
  read_digits radix s acc n = (v, m, rest) ->
  exists ds, s = ds ++ rest /\ m = (n + length ds)%nat /\
    (radix = 10 -> Forall (fun b => is_digit b = true) ds /\ digits_val acc ds = Some v).
Proof.
  induction s as [|b s IH]; intros acc n v m rest; cbn [read_digits].
  - intros [= <- <- <-]. exists []. cbn. split_and!; [done|lia|done].
  - destruct (to_digit radix b) as [d|] eqn:Hd.
    + intros (ds & -> & -> & Hv)%IH. exists (b :: ds). cbn. split_and!; [done|lia|].
      intros ->. apply to_digit_decimal in Hd as [Hb ->]. destruct (Hv eq_refl) as [Hf Hval].
      rewrite Hb. split; [by constructor|]. by rewrite <- Hval; f_equal; lia.
    + intros [= <- <- <-]. exists []. cbn. split_and!; [done|lia|done].
Qed.

Lemma read_number_prefix radix md zp max s rest :
  read_number radix md zp max s = Some rest ->
  exists ds, s = ds ++ rest /\ ds <> [] /\
    (radix = 10 -> Forall (fun b => is_digit b = true) ds /\ exists v, parse_digits ds = Some v /\ v <= max).
Proof.
  unfold read_number. destruct (read_digits radix s 0 0) as [[v n] r] eqn:E.
  apply read_digits_prefix in E as (ds & -> & -> & Hv). cbn [Nat.add].
  match goal with |- context [(negb zp && ?b && _)%bool] => generalize b; intros z end.
  destruct (match md with Some m => _ | None => false end); [done|].
  destruct (length ds =? 0)%nat eqn:Hlen; [done|]. destruct (_ && _)%bool; [done|].
  destruct (Z.leb_spec v max); [|done]. intros [= <-]. exists ds. split; [done|].
  destruct ds as [|b ds]; [done|]. split; [done|]. intros Hr. destruct (Hv Hr) as [? ?]. split; [done|].
  exists v. split; [done|lia].
Qed.

Lemma read_given_char_cons c s r : read_given_char c s = Some r -> s = c :: r.
Proof. destruct s as [|b s]; cbn; [done|]. case_bool_decide; [|done]. by intros [= <-]; subst. Qed.

Lemma read_ipv4_prefix s r : read_ipv4 s = Some r -> exists p, s = p ++ r /\ Forall addr_byte p.
Proof.
  assert (Hoct : forall i s r, read_separator x2e i (read_number 10 (Some 3%nat) false 255) s = Some r ->
    exists p, s = p ++ r /\ Forall addr_byte p).
  { intros i s0 r0. unfold read_separator. destruct (i =? 0)%nat.
    - intros (ds & -> & _ & H)%read_number_prefix. exists ds. split; [done|]. destruct (H eq_refl) as [Hf _].
      eapply Forall_impl; [exact Hf|]. by left.
    - destruct (read_given_char x2e s0) as [s1|] eqn:E; [|done]. apply read_given_char_cons in E as ->. cbn.
      intros (ds & -> & _ & H)%read_number_prefix. exists (x2e :: ds). split; [done|]. destruct (H eq_refl) as [Hf _].
      constructor; [by right|]. eapply Forall_impl; [exact Hf|]. by left. }
  unfold read_ipv4.
  destruct (read_separator x2e 0 _ s) as [s1|] eqn:E1; [|done]. cbn [option_bind].
  destruct (read_separator x2e 1 _ s1) as [s2|] eqn:E2; [|done]. cbn [option_bind].
  destruct (read_separator x2e 2 _ s2) as [s3|] eqn:E3; [|done]. cbn [option_bind]. intros E4.
  apply Hoct in E1 as (p1 & -> & H1), E2 as (p2 & -> & H2), E3 as (p3 & -> & H3), E4 as (p4 & -> & H4).
  exists (p1 ++ p2 ++ p3 ++ p4). rewrite <- !app_assoc. split; [done|]. by repeat apply Forall_app_2.
Qed.

Lemma read_port_digits s : read_port s = Some [] ->
  exists ds v, s = x3a :: ds /\ parse_u32_str ds = Some v /\ 0 <= v <= 65535.
Proof.
  unfold read_port. destruct (read_given_char x3a s) as [s1|] eqn:E; [|done]. apply read_given_char_cons in E as ->. cbn [option_bind].
  intros (ds & -> & Hne & H)%read_number_prefix. destruct (H eq_refl) as [Hf (v & Hv & Hle)]. rewrite app_nil_r.
  exists ds, v. split; [done|]. assert (Hnn : 0 <= v) by (destruct ds; [done|]; by eapply digits_val_nonneg, Hv).
  unfold parse_u32_str. destruct ds as [|b ds]; [done|]. apply Forall_cons in Hf as [Hb _].
  destruct (digit_ascii b Hb) as (_ & Hp & _). split; [|lia].
  transitivity (let* z := parse_digits (b :: ds) in if z <? 2 ^ 32 then Some z else None).
  - destruct b; try done; by destruct Hp.
  - rewrite Hv. cbn [option_bind]. destruct (Z.ltb_spec v (2 ^ 32)); [done|lia].
Qed.

Lemma split_colon_app host port : (x3a ∉ host) -> split_colon (host ++ x3a :: port) = Some (host, port).
Proof.
  induction host as [|b host IH]; intros Hn; cbn [split_colon app]; [by rewrite bool_decide_eq_true_2|].
  apply not_elem_of_cons in Hn as [Hb Hn]. rewrite bool_decide_eq_false_2 by congruence. by rewrite IH.
Qed.

Lemma split_colon_inv s host port : split_colon s = Some (host, port) -> s = host ++ x3a :: port /\ x3a ∉ host.
Proof.
  revert host. induction s as [|b s IH]; intros host; cbn [split_colon]; [done|]. case_bool_decide as Hb.
  - intros [= <- <-]. subst. split; [done|apply not_elem_of_nil].
  - destruct (split_colon s) as [[h p]|] eqn:E; [|done]. cbn. intros [= <- <-].
    destruct (IH h eq_refl) as [-> Hh]. split; [done|]. by apply not_elem_of_cons.
Qed.

Lemma addr_bytes_no_colon p : Forall addr_byte p -> (x3a ∉ p) /\ head p <> Some x5b.
Proof.
  intros H. split; [intros Hin|destruct p as [|b p]; cbn; [done|intros [= ->]]].
  - by destruct (proj1 (Forall_forall _ _) H _ Hin).
  - by apply Forall_cons in H as [[|] _].
Qed.

(** A list that starts with an IPv4 address is split at its port. *)
Lemma read_socket_v4_parse s : read_socket_v4 s = Some [] ->
  exists host ds v, s = host ++ x3a :: ds /\ (x3a ∉ host) /\ head s <> Some x5b /\ parse_u32_str ds = Some v /\ 0 <= v <= 65535.
Proof.
  unfold read_socket_v4. destruct (read_ipv4 s) as [s1|] eqn:E; [|done]. cbn [option_bind].
  apply read_ipv4_prefix in E as (p & -> & Hp). intros (ds & v & -> & Hv & Hr)%read_port_digits.
  exists p, ds, v. destruct (addr_bytes_no_colon p Hp) as [Hc Hh]. split_and!; try done; try lia. by destruct p.
Qed.

Definition colons (s : bytes) : nat := length (filter (fun b => b = x3a) s).

Lemma colons_app s t : colons (s ++ t) = (colons s + colons t)%nat.
Proof. unfold colons. by rewrite filter_app, length_app. Qed.

Lemma read_separator_prefix c i inner s r :
  (forall s r, inner s = Some r -> exists p, s = p ++ r) -> read_separator c i inner s = Some r ->
  exists p, s = p ++ r /\ (i <> 0%nat -> c ∈ p).
Proof.
  intros Hin. unfold read_separator. destruct (Nat.eqb_spec i 0) as [Hi|Hi].
  - intros (p & ->)%Hin. by exists p.
  - destruct (read_given_char c s) as [s1|] eqn:E; [|done]. apply read_given_char_cons in E as ->. cbn [option_bind].
    intros (p & ->)%Hin. exists (c :: p). split; [done|]. intros _. left.
Qed.

Lemma colons_in p : (x3a ∈ p) -> (1 <= colons p)%nat.
Proof.
  intros (l1 & l2 & ->)%list_elem_of_split. rewrite colons_app. change (x3a :: l2) with ([x3a] ++ l2). rewrite colons_app.
  change (colons [x3a]) with 1%nat. lia.
Qed.

Lemma read_groups_prefix left : forall i s n v4 r, read_groups left i s = (n, v4, r) ->
  exists p, s = p ++ r /\ (i <> 0%nat -> (i < n)%nat -> x3a ∈ p) /\ ((2 < n)%nat -> (i < n)%nat -> x3a ∈ p).
Proof.
  assert (Hv4 : forall s r, read_ipv4 s = Some r -> exists p, s = p ++ r).
  { intros s r (p & -> & _)%read_ipv4_prefix. by exists p. }
  assert (Hg : forall s r, read_number 16 (Some 4%nat) true 65535 s = Some r -> exists p, s = p ++ r).
  { intros s r (p & -> & _)%read_number_prefix. by exists p. }
  induction left as [|left IH]; intros i s n v4 r; cbn [read_groups].
  { intros [= <- <- <-]. exists []. split; [done|]. split; lia. }
  destruct (match left with O => None | S _ => read_separator x3a i read_ipv4 s end) as [rest|] eqn:E1.
  - intros [= <- <- <-]. destruct left; [done|]. apply read_separator_prefix in E1 as (p & -> & Hc); [|done].
    exists p. split; [done|]. split; [tauto|]. intros H _. apply Hc. lia.
  - destruct (read_separator x3a i (read_number 16 _ _ _) s) as [rest|] eqn:E2.
    + apply read_separator_prefix in E2 as (p & -> & Hc); [|done]. intros (q & -> & H1 & H2)%IH.
      exists (p ++ q). rewrite <- app_assoc. split; [done|]. rewrite elem_of_app. split; [tauto|].
      intros Hn Hi. destruct (decide (i = 0%nat)); [right; apply H1; lia|left; tauto].
    + intros [= <- <- <-]. exists []. split; [done|]. split; lia.
Qed.

Lemma read_ipv6_prefix s r : read_ipv6 s = Some r -> exists p, s = p ++ r /\ x3a ∈ p.
Proof.
  unfold read_ipv6. destruct (read_groups 8 0 s) as [[h v4] s1] eqn:E. apply read_groups_prefix in E as (p & -> & _ & Hp).
  destruct (Nat.eqb_spec h 8) as [->|]; [intros [= <-]; exists p; split; [done|apply Hp; lia]|].
  destruct v4; [done|].
  destruct (read_given_char x3a s1) as [s2|] eqn:E1; [|done]. apply read_given_char_cons in E1 as ->. cbn [option_bind].
  destruct (read_given_char x3a s2) as [s3|] eqn:E2; [|done]. apply read_given_char_cons in E2 as ->. cbn [option_bind].
  destruct (read_groups _ 0 s3) as [[t v4'] s4] eqn:E3. apply read_groups_prefix in E3 as (q & -> & _). intros [= <-].
  exists (p ++ x3a :: x3a :: q). rewrite <- app_assoc. split; [done|]. set_solver.
Qed.

(** An IPv6 socket address starts with a bracket and has two colons at least. *)
Lemma read_socket_v6_colons s : read_socket_v6 s = Some [] -> head s = Some x5b /\ (2 <= colons s)%nat.
Proof.
  unfold read_socket_v6. destruct (read_given_char x5b s) as [s1|] eqn:E; [|done]. apply read_given_char_cons in E as ->. cbn [option_bind].
  destruct (read_ipv6 s1) as [s2|] eqn:E; [|done]. apply read_ipv6_prefix in E as (p & -> & Hp). cbn [option_bind].
  assert (exists q, s2 = q ++ default s2 (read_scope_id s2)) as [q Hq].
  { unfold read_scope_id. destruct (read_given_char x25 s2) as [s3|] eqn:E; [|by exists []].
    apply read_given_char_cons in E as ->. cbn [option_bind]. destruct (read_number _ _ _ _ s3) as [s4|] eqn:E; [|by exists []].
    apply read_number_prefix in E as (ds & -> & _). by exists (x25 :: ds). }
  destruct (read_given_char x5d _) as [s3|] eqn:E; [|done]. apply read_given_char_cons in E. rewrite E in Hq. subst s2. cbn [option_bind].
  intros (ds & v & -> & _)%read_port_digits. split; [done|].
  change (x5b :: ?l) with ([x5b] ++ l). change (x5d :: x3a :: ds) with ([x5d] ++ [x3a] ++ ds). rewrite !colons_app.
  change (colons [x3a]) with 1%nat. apply colons_in in Hp. lia.
Qed.

Lemma digits_val_colons s : forall acc v, digits_val acc s = Some v -> colons s = 0%nat.
Proof.
  induction s as [|b s IH]; intros acc v; cbn [digits_val]; [done|]. destruct (is_digit b) eqn:Hb; [|done]. intros H%IH.
  change (b :: s) with ([b] ++ s). rewrite colons_app, H. unfold colons. rewrite filter_cons_False; [done|]. by intros ->.
Qed.

Lemma parse_u32_str_colons s v : parse_u32_str s = Some v -> colons s = 0%nat.
Proof.
  unfold parse_u32_str. intros H.
  assert (Hd : forall t w, parse_digits t = Some w -> colons t = 0%nat) by (intros [|b t] w Hw; [done|by eapply digits_val_colons]).
  destruct (match s with x2b :: s' => parse_digits s' | _ => parse_digits s end) as [w|] eqn:E; [|done]. clear H.
  destruct s as [|b s]; [done|]. destruct (decide (b = x2b)) as [->|Hb].
  - change (x2b :: s) with ([x2b] ++ s). rewrite colons_app. by rewrite (Hd _ _ E).
  - apply (Hd _ w). rewrite <- E. by destruct b.
Qed.

Lemma colons_none s : (x3a ∉ s) -> colons s = 0%nat.
Proof.
  induction s as [|b s IH]; intros Hs; [done|]. apply not_elem_of_cons in Hs as [Hb Hs]. unfold colons.
  rewrite filter_cons_False by congruence. by apply IH.
Qed.

Lemma endpoint_parse_colons s p e : endpoint_parse s p = Ok e -> colons s = 1%nat.
Proof.
  unfold endpoint_parse. destruct (split_colon s) as [[host port]|] eqn:E; [|done]. apply split_colon_inv in E as [-> Hh].
  destruct (parse_u32_str port) as [v|] eqn:Ep; [|done]. intros _. change (x3a :: port) with ([x3a] ++ port).
  rewrite !colons_app, (colons_none _ Hh), (parse_u32_str_colons _ _ Ep). done.
Qed.

(** What [ParsedConfig::from] makes of a configuration whose address parses. *)
Lemma parsed_config_ok c e : endpoint_parse (cfg_address (cfg_raft c)) (cfg_redis_port (cfg_redis c)) = Ok e ->
  exists p, parsed_config_from c = Ok p /\ raft_endpoint p = e /\ 500 <= election_timeout p /\
    ep_port (raft_advertise_endpoint p) = ep_port e /\ tls_port p <> Some 0.
Proof.
  intros He. unfold parsed_config_from. rewrite He. cbn [result_bind]. eexists. split; [done|]. cbn. split_and!; [done|lia|done|].
  destruct (cfg_tls_port _) as [q|]; [|done]. destruct (Z.eqb_spec q 0); [done|congruence].
Qed.

(** C33: A configuration that [Config::validate] accepts is one that a node can
    start with exactly when its Raft address is not an IPv6 one: [validate] takes
    every socket address, [Endpoint::parse] splits at the first colon. When the
    address parses, the endpoint prints as the address without a changed host, its
    port fits sixteen bits, the advertised endpoint has the same port, the election
    timeout is at least 500 ms and a TLS port of zero is dropped. *)
Theorem validated_config_parses (c : Config) (Hvalid : validate c = Ok tt) :
  let address := cfg_address (cfg_raft c) in
  (head address = Some x5b -> exists text, parsed_config_from c = Err (InvalidConfig text)) /\
  (head address <> Some x5b ->
     exists p port, parsed_config_from c = Ok p /\
       address = ep_address (raft_endpoint p) ++ x3a :: port /\
       parse_u32_str port = Some (ep_port (raft_endpoint p)) /\ 0 <= ep_port (raft_endpoint p) <= 65535 /\
       ep_port (raft_advertise_endpoint p) = ep_port (raft_endpoint p) /\
       500 <= election_timeout p /\ tls_port p <> Some 0).
Proof.
  intros address. assert (Ha : is_socket_addr address = true).
  { revert Hvalid. unfold validate. repeat (case_match; try done). }
  unfold is_socket_addr in Ha. destruct (read_socket_v4 address) as [[|b r]|] eqn:E4; [|done|].
  - clear Ha. apply read_socket_v4_parse in E4 as (host & ds & v & Hs & Hh & Hhd & Hv & Hr). split; [done|]. intros _.
    assert (He : endpoint_parse address (cfg_redis_port (cfg_redis c)) = Ok (endpoint_new host (cfg_redis_port (cfg_redis c)) v)).
    { unfold endpoint_parse. by rewrite Hs, split_colon_app, Hv. }
    destruct (parsed_config_ok c _ He) as (p & Hp & Hep & Ht & Had & Htls). exists p, ds. rewrite Hep in *.
    split_and!; try done; cbn; lia.
  - destruct (read_socket_v6 address) as [[|b r]|] eqn:E6; [|done..]. apply read_socket_v6_colons in E6 as [Hhd Hc].
    split; [|done]. intros _. unfold parsed_config_from.
    destruct (endpoint_parse _ _) as [e|e] eqn:He; [by apply endpoint_parse_colons in He; fold address in He; lia|].
    cbn [result_bind]. revert He. unfold endpoint_parse. intros He. repeat case_match; inversion He; eauto.
Qed.

Lemma validated_config_parses_witness :
  validate config_default = Ok tt /\
  exists p, parsed_config_from config_default = Ok p /\ raft_addr (raft_endpoint p) = str "0.0.0.0:5001".
Proof.
  split; [reflexivity|].
  destruct (proj2 (validated_config_parses config_default eq_refl) ltac:(discriminate)) as (p & port & Hp & _).
  exists p. split; [exact Hp|]. injection Hp as <-. reflexivity.
Defined.

(** An address that is accepted and then refused. *)
Example ipv6_address_refused :
  is_socket_addr (str "[::1]:5001") = true /\
  endpoint_parse (str "[::1]:5001") 6379 =
    Err (InvalidConfig (str "Failed to parse port: invalid digit found in string; address: [::1]:5001")).
Proof. split; reflexivity. Qed.
