(* ===== verification/Transfer.v ===== *)
(** * Transfer: snapshot files on disk and on their way to another node.

    Models [FileOperator] and [send_file_once] of
    src/cache_cat/src/raft/types/file_operator.rs, [handle_connection] and
    [stream_mode] of src/cache_cat/src/raft/network/rpc.rs, the file operations
    of [dump_cache_to_path] in
    src/cache_cat/src/raft/store/snapshot/snapshot_handler.rs and
    [get_current_snapshot] of src/cache_cat/src/raft/store/statemachine.rs. The
    contents of the files are those of Snapshot.

    The file system has names and the files they stand for, so that a hard link
    is a second name of a file. A connection delivers its bytes in pieces. The
    text of a UUID and the TLS handshake are parameters. *)

From S2P Require Import Prelude Text F64 Reply Errors SortedSet TimeWheel Mocha Ops Store Refine Spop StringCmd KeyCmd Memory Handler Answers Typed StateMachine Snapshot Config.
From Stdlib Require Import Strings.Byte.

(** ** Files *)

Record FS := mkFS { names : gmap bytes nat; contents : gmap nat bytes; next_file : nat }.

Definition fs_read (fs : FS) (path : bytes) : option bytes := let* i := names fs !! path in contents fs !! i.

(** [File::create] and the writes that follow: a file that exists is truncated. *)
Definition fs_write (fs : FS) (path data : bytes) : FS :=
  match names fs !! path with
  | Some i => mkFS (names fs) (<[i := data]> (contents fs)) (next_file fs)
  | None => mkFS (<[path := next_file fs]> (names fs)) (<[next_file fs := data]> (contents fs)) (S (next_file fs))
  end.

Definition fs_hard_link (fs : FS) (src dst : bytes) : result FS IoError :=
  match names fs !! src, names fs !! dst with
  | Some i, None => Ok (mkFS (<[dst := i]> (names fs)) (contents fs) (next_file fs))
  | Some _, Some _ => Err (Other (str "File exists"))
  | None, _ => Err (Other (str "No such file or directory"))
  end.

Definition fs_rename (fs : FS) (src dst : bytes) : result FS IoError :=
  match names fs !! src with
  | Some i => Ok (mkFS (<[dst := i]> (delete src (names fs))) (contents fs) (next_file fs))
  | None => Err (Other (str "No such file or directory"))
  end.

Definition fs_remove (fs : FS) (path : bytes) : FS := mkFS (delete path (names fs)) (contents fs) (next_file fs).

(** [Path::join] with a relative component. *)
Definition join_path (base component : bytes) : bytes :=
  match last base with
  | None => component
  | Some x2f => base ++ component
  | Some _ => base ++ x2f :: component
  end.

Definition get_snapshot_file_name : bytes := str "snapshot.bin".
Definition snapshot_dir (path : bytes) : bytes := join_path path (str "snapshot").
Definition snapshot_path (path : bytes) : bytes := join_path (snapshot_dir path) get_snapshot_file_name.

(** ** FileOperator *)

Record FileOperator := mkFileOperator { file_path : bytes; uuid : bytes }.

(** The text of a UUID is its own. *)
Class UuidText := { uuid_text : bytes -> bytes; uuid_text_inj u v : uuid_text u = uuid_text v -> u = v }.

Section Files.
Context `{U : UuidText}.

Definition hardlink_filename (u : bytes) : bytes := str "hardlink_snapshot_" ++ uuid_text u ++ str ".tmp".

Definition get_hard_link_buf (op : FileOperator) : bytes := join_path (file_path op) (hardlink_filename (uuid op)).

Definition get_local_hard_link_buf (op : FileOperator) (path : bytes) : bytes :=
  join_path (snapshot_dir path) (hardlink_filename (uuid op)).

(** [FileOperator::new]; [u] is the new random UUID. *)
Definition file_operator_new (fs : FS) (path u : bytes) : FS * result (option FileOperator) IoError :=
  match names fs !! snapshot_path path with
  | None => (fs, Ok None)
  | Some _ =>
      let operator := mkFileOperator path u in
      match fs_hard_link fs (snapshot_path path) (get_hard_link_buf operator) with
      | Ok fs' => (fs', Ok (Some operator))
      | Err e => (fs, Err e)
      end
  end.

(** [Drop]: the hard link is removed, an error only printed. *)
Definition file_operator_drop (fs : FS) (op : FileOperator) : FS := fs_remove fs (get_hard_link_buf op).

(** The file operations of [dump_cache_to_path]. *)
Definition temp_dump_path (path u : bytes) : bytes :=
  join_path (snapshot_dir path) (str "snapshot_from_mem_" ++ uuid_text u ++ str ".tmp").

Definition dump_to_files (fs : FS) (path u data : bytes) : result FS IoError :=
  fs_rename (fs_write fs (temp_dump_path path u) data) (temp_dump_path path u) (snapshot_path path).

(** ** The connection *)

(** [read_exact] of the pieces that arrive. *)
Fixpoint take_exact (n : nat) (pieces : list bytes) : option (bytes * list bytes) :=
  match n with
  | O => Some ([], pieces)
  | _ =>
      match pieces with
      | [] => None
      | p :: ps =>
          if (length p <=? n)%nat
          then let* r := take_exact (n - length p) ps in Some (p ++ r.1, r.2)
          else Some (take n p, drop n p :: ps)
      end
  end.

(** The receiving loop: what arrives is appended to the file until the end. *)
Definition receive_all (pieces : list bytes) : bytes := foldl (fun file n => file ++ n) [] pieces.

(** [stream_mode]: the files and the reply, which is the UUID. *)
Definition stream_mode (fs : FS) (path : bytes) (pieces : list bytes) : FS * result bytes IoError :=
  match take_exact 16 pieces with
  | None => (fs, Err UnexpectedEof)
  | Some (u, rest) =>
      (fs_write fs (join_path (snapshot_dir path) (hardlink_filename u)) (receive_all rest), Ok u)
  end.

Inductive ConnMode := RpcMode (rest : list bytes) | StreamMode (rest : list bytes) | PipelineMode (rest : list bytes) | ClosedMode.

(** [handle_connection]. [tls_accept] is the handshake of the acceptor, if there
    is one: it yields what the peer sends inside the session. *)
Definition handle_connection (tls_replication : bool) (tls_accept : option (list bytes -> result (list bytes) bytes)) (pieces : list bytes)
    : result ConnMode IoError :=
  let? connection :=
    (if tls_replication then
       match tls_accept with
       | Some accept => map_err Other (accept pieces)
       | None => Err (Other (str "TLS replication is enabled but TLS acceptor is not configured"))
       end
     else Ok pieces) in
  match take_exact 1 connection with
  | Some ([b], rest) =>
      Ok (if bool_decide (b = x00) then RpcMode rest
          else if bool_decide (b = x01) then StreamMode rest
          else if bool_decide (b = x02) then PipelineMode rest
          else ClosedMode)
  | _ => Err UnexpectedEof
  end.

(** What [send_file_once] writes before it closes its end; a file that cannot be
    opened leaves the header only. *)
Definition sent_bytes (fs : FS) (path u : bytes) : bytes := x01 :: u ++ default [] (fs_read fs path).

(** [send_file_once]: the answer of the other side is read when the file could be. *)
Definition send_file_once (fs : FS) (path u : bytes) (reply : result bytes IoError) : result bytes IoError :=
  match fs_read fs path with
  | None => Err (Other (str "No such file or directory"))
  | Some _ => let? r := reply in if (length r <? 16)%nat then Err UnexpectedEof else Ok (take 16 r)
  end.

Definition send_file (fs : FS) (op : FileOperator) (reply : result bytes IoError) : result bytes IoError :=
  send_file_once fs (get_hard_link_buf op) (uuid op) reply.

(** A transfer: the bytes of the sender, cut into [pieces], reach the receiver,
    whose answer, or whose closing of the connection, reaches the sender. *)
Definition transfer_file (sender receiver : FS) (op : FileOperator) (receiver_path : bytes)
    (tls_replication : bool) (tls_accept : option (list bytes -> result (list bytes) bytes)) (pieces : list bytes)
    : FS * result bytes IoError :=
  match handle_connection tls_replication tls_accept pieces with
  | Ok (StreamMode rest) =>
      let '(receiver', reply) := stream_mode receiver receiver_path rest in
      (receiver', send_file sender op reply)
  | _ => (receiver, send_file sender op (Err UnexpectedEof))
  end.

(** [get_current_snapshot]: a link to the snapshot and the meta data in it. *)
Definition get_current_snapshot {LogId Membership} `{B : Bincode (LogId := LogId) (Membership := Membership)} (fs : FS) (path u : bytes)
    : FS * result (option (SnapshotMeta * FileOperator)) IoError :=
  match file_operator_new fs path u with
  | (fs', Err e) => (fs', Err e)
  | (fs', Ok None) => (fs', Ok None)
  | (fs', Ok (Some op)) =>
      match fs_read fs' (get_hard_link_buf op) with
      | None => (file_operator_drop fs' op, Err (Other (str "meta data is empty")))
      | Some file =>
          match load_meta_from_path file with
          | Ok meta => (fs', Ok (Some (meta, op)))
          | Err e => (file_operator_drop fs' op, Err e)
          end
      end
  end.

(** ** Paths *)

Lemma join_prefix path : exists pre, forall c, join_path path c = pre ++ c.
Proof.
  unfold join_path. destruct (last path) as [b|]; [|by exists []].
  destruct (decide (b = x2f)) as [-> |Hb]; [by exists path|]. exists (path ++ [x2f]). intros c. rewrite <- app_assoc. by destruct b.
Qed.

Lemma join_inj path c d : join_path path c = join_path path d -> c = d.
Proof. destruct (join_prefix path) as [pre Hpre]. rewrite !Hpre. apply app_inv_head. Qed.

(** A name in the snapshot directory is not one beside it. *)
Lemma join_dir_ne path c d : head c <> Some x73 -> join_path path c <> join_path (snapshot_dir path) d.
Proof.
  intros Hc. destruct (join_prefix path) as [pre Hpre]. unfold snapshot_dir. rewrite !Hpre. unfold join_path.
  rewrite last_app. cbn. rewrite <- app_assoc. intros ->%app_inv_head. by apply Hc.
Qed.

Lemma hardlink_inj u v : hardlink_filename u = hardlink_filename v -> u = v.
Proof. unfold hardlink_filename. intros H%app_inv_head%app_inv_tail. by apply uuid_text_inj. Qed.

Lemma hard_link_ne op path d : file_path op = path -> get_hard_link_buf op <> join_path (snapshot_dir path) d.
Proof. intros <-. by apply join_dir_ne. Qed.

(** ** What arrives *)

Lemma take_exact_spec pieces : forall n, (n <= length (concat pieces))%nat ->
  exists rest, take_exact n pieces = Some (take n (concat pieces), rest) /\ concat rest = drop n (concat pieces).
Proof.
  induction pieces as [|p ps IH]; intros n Hn; cbn [concat] in *.
  - cbn in Hn. replace n with 0%nat by lia. by exists [].
  - destruct n as [|n]; [by exists (p :: ps)|]. cbn [take_exact]. rewrite length_app in Hn.
    destruct (Nat.leb_spec (length p) (S n)) as [Hle|Hlt].
    + destruct (IH (S n - length p)%nat ltac:(lia)) as (rest & -> & Hr). exists rest. cbn [fst snd].
      rewrite Hr, take_app_ge, drop_app_ge by lia. done.
    + exists (drop (S n) p :: ps). cbn [concat]. rewrite take_app_le, drop_app_le by lia. done.
Qed.

Lemma receive_all_concat pieces : receive_all pieces = concat pieces.
Proof.
  unfold receive_all. assert (H : forall acc, foldl (fun file n : bytes => file ++ n) acc pieces = acc ++ concat pieces); [|apply H].
  induction pieces as [|p ps IH]; intros acc; cbn; [by rewrite app_nil_r|]. by rewrite IH, <- app_assoc.
Qed.

(** The first byte and the rest of a connection without TLS. *)
Lemma handle_plain pieces b s : concat pieces = b :: s ->
  exists rest, concat rest = s /\ handle_connection false None pieces =
    Ok (if bool_decide (b = x00) then RpcMode rest else if bool_decide (b = x01) then StreamMode rest
        else if bool_decide (b = x02) then PipelineMode rest else ClosedMode).
Proof.
  intros Hc. destruct (take_exact_spec pieces 1) as (rest & Ht & Hr); [rewrite Hc; cbn; lia|]. rewrite Hc in *. cbn in Hr.
  exists rest. rewrite Hr. split; [by rewrite drop_0|]. unfold handle_connection. cbn [result_bind]. by rewrite Ht.
Qed.

Lemma stream_mode_spec fs path pieces u data : length u = 16%nat -> concat pieces = u ++ data ->
  stream_mode fs path pieces = (fs_write fs (join_path (snapshot_dir path) (hardlink_filename u)) data, Ok u).
Proof.
  intros Hu Hc. unfold stream_mode. destruct (take_exact_spec pieces 16) as (rest & -> & Hr); [rewrite Hc, length_app; lia|].
  rewrite Hc in *. rewrite take_app_length' by done. rewrite drop_app_length' in Hr by done. by rewrite receive_all_concat, Hr.
Qed.

(** Names stand for files that exist. *)
Definition FSInv (fs : FS) : Prop := forall path i, names fs !! path = Some i -> (i < next_file fs)%nat /\ is_Some (contents fs !! i).

Lemma fs_write_read fs path data : FSInv fs ->
  fs_read (fs_write fs path data) path = Some data /\
  forall p, names fs !! p <> names fs !! path \/ names fs !! path = None -> p <> path -> fs_read (fs_write fs path data) p = fs_read fs p.
Proof.
  intros Hi. unfold fs_write, fs_read. destruct (names fs !! path) as [i|] eqn:E; cbn [names contents].
  - rewrite E. rewrite lookup_insert_eq. split; [done|]. intros p [Hp|[=]] _. destruct (names fs !! p) as [j|]; [|done].
    by rewrite lookup_insert_ne by congruence.
  - rewrite !lookup_insert_eq. split; [done|]. intros p _ Hne. rewrite lookup_insert_ne by done.
    destruct (names fs !! p) as [j|] eqn:Ej; [|done]. apply Hi in Ej as [? _]. by rewrite lookup_insert_ne by lia.
Qed.

(** Without TLS a file arrives whole, however the connection cuts it up. *)
Lemma transfer_plain sender receiver op path pieces data :
  length (uuid op) = 16%nat -> fs_read sender (get_hard_link_buf op) = Some data ->
  concat pieces = sent_bytes sender (get_hard_link_buf op) (uuid op) ->
  transfer_file sender receiver op path false None pieces =
    (fs_write receiver (get_local_hard_link_buf op path) data, Ok (uuid op)).
Proof.
  intros Hu Hd Hp. unfold sent_bytes in Hp. rewrite Hd in Hp. cbn [default] in Hp.
  destruct (handle_plain pieces x01 _ Hp) as (rest & Hr & Hh). unfold transfer_file.
  rewrite Hh, bool_decide_eq_false_2, bool_decide_eq_true_2 by done.
  rewrite (stream_mode_spec _ _ _ _ _ Hu Hr). unfold send_file, send_file_once. rewrite Hd. cbn [result_bind]. rewrite Hu. cbn [Nat.ltb Nat.leb].
  by rewrite take_ge by lia.
Qed.

(** ** The link is the snapshot as it was *)

(** What happens to the files of a node: new snapshots, new links, and links
    that are dropped. *)
Inductive FileEvent := FDump (u data : bytes) | FOpen (u : bytes) | FDrop (op : FileOperator).

Definition file_step (path : bytes) (fs : FS) (ev : FileEvent) : FS :=
  match ev with
  | FDump u data => match dump_to_files fs path u data with Ok fs' => fs' | Err _ => fs end
  | FOpen u => (file_operator_new fs path u).1
  | FDrop op => file_operator_drop fs op
  end.

(** The file [i] is called [name], holds [data], and no dump writes to it. *)
Record Kept (path name : bytes) (i : nat) (data : bytes) (fs : FS) : Prop := {
  kept_inv : FSInv fs;
  kept_name : names fs !! name = Some i;
  kept_data : contents fs !! i = Some data;
  kept_temp : forall u, names fs !! temp_dump_path path u <> Some i
}.

Lemma temp_ne_snapshot path u : temp_dump_path path u <> snapshot_path path.
Proof. unfold temp_dump_path, snapshot_path. by intros H%join_inj. Qed.

Lemma fs_write_inv fs path data : FSInv fs -> FSInv (fs_write fs path data).
Proof.
  intros Hi p i. unfold fs_write. destruct (names fs !! path) as [j|] eqn:E; cbn.
  - intros [? H]%Hi. split; [done|]. destruct (decide (i = j)) as [-> |]; [by rewrite lookup_insert_eq|by rewrite lookup_insert_ne].
  - intros [[<- <-]|[? [? H]%Hi]]%lookup_insert_Some; [rewrite lookup_insert_eq; split; [lia|done]|].
    rewrite lookup_insert_ne by lia. split; [lia|done].
Qed.

Lemma kept_dump path name i data fs u new :
  name <> temp_dump_path path u -> name <> snapshot_path path ->
  Kept path name i data fs -> exists fs', dump_to_files fs path u new = Ok fs' /\ Kept path name i data fs'.
Proof.
  intros Hn1 Hn2 [Hi Hn Hd Ht]. set (tmp := temp_dump_path path u) in *. unfold dump_to_files. fold tmp.
  assert (Hw : exists j, names (fs_write fs tmp new) !! tmp = Some j /\ j <> i /\ contents (fs_write fs tmp new) !! i = Some data /\
    forall p, p <> tmp -> names (fs_write fs tmp new) !! p = names fs !! p).
  { unfold fs_write. destruct (names fs !! tmp) as [j|] eqn:E; cbn.
    - assert (j <> i) by (intros ->; by apply (Ht u)). exists j. by rewrite lookup_insert_ne by done.
    - destruct (Hi _ _ Hn) as [Hlt _]. exists (next_file fs). rewrite lookup_insert_eq, lookup_insert_ne by lia.
      split_and!; [done|lia|done|]. intros p Hp. by rewrite lookup_insert_ne by done. }
  destruct Hw as (j & Hj & Hji & Hdi & Hother). unfold fs_rename. rewrite Hj. eexists. split; [done|]. constructor; cbn [names contents next_file].
  - intros p k; cbn [names contents next_file]; intros [[<- <-]|[_ [_ H]%lookup_delete_Some]]%lookup_insert_Some; [by apply (fs_write_inv fs tmp new Hi tmp)|].
    by apply (fs_write_inv fs tmp new Hi p).
  - rewrite lookup_insert_ne, lookup_delete_ne, Hother by done. done.
  - done.
  - intros v. destruct (decide (temp_dump_path path v = tmp)) as [-> |Hv].
    + rewrite lookup_insert_ne by (intros E; by apply (temp_ne_snapshot path u)). by rewrite lookup_delete_eq.
    + rewrite lookup_insert_ne by (intros E; by apply (temp_ne_snapshot path v)). rewrite lookup_delete_ne, Hother by done. apply Ht.
Qed.

Lemma kept_step path op i data fs ev : file_path op = path ->
  (forall op', ev = FDrop op' -> file_path op' = path /\ op' <> op) ->
  Kept path (get_hard_link_buf op) i data fs -> Kept path (get_hard_link_buf op) i data (file_step path fs ev).
Proof.
  intros Hp Hev Hk. destruct ev as [u new|u|op']; cbn [file_step].
  - destruct (kept_dump path (get_hard_link_buf op) i data fs u new) as (fs' & -> & H); [by apply hard_link_ne..|done|done].
  - unfold file_operator_new. destruct (names fs !! snapshot_path path) as [j|] eqn:Ej; [|done]. unfold fs_hard_link. rewrite Ej.
    destruct (names fs !! get_hard_link_buf (mkFileOperator path u)) as [k|] eqn:Ek; [done|]. cbn [fst].
    destruct Hk as [Hi Hn Hd Ht]. constructor; cbn [names contents next_file].
    + intros p k; cbn [names contents next_file]; intros [[<- <-]|[_ H]]%lookup_insert_Some; [by apply (Hi (snapshot_path path))|by apply (Hi p)].
    + rewrite lookup_insert_ne by congruence. done.
    + done.
    + intros v. rewrite lookup_insert_ne by (by apply hard_link_ne). apply Ht.
  - destruct (Hev op' eq_refl) as [Hp' Hne]. destruct Hk as [Hi Hn Hd Ht].
    constructor; cbn [names contents next_file file_operator_drop fs_remove].
    + intros p k; cbn [names contents next_file file_operator_drop fs_remove]; intros [_ H]%lookup_delete_Some. by apply (Hi p).
    + rewrite lookup_delete_ne; [done|]. unfold get_hard_link_buf. rewrite Hp, Hp'. intros H%join_inj%hardlink_inj. apply Hne.
      destruct op, op'; cbn in *; congruence.
    + done.
    + intros v. rewrite lookup_delete_ne by (by apply hard_link_ne). apply Ht.
Qed.

Lemma kept_steps path op i data evs : file_path op = path ->
  Forall (fun ev => forall op', ev = FDrop op' -> file_path op' = path /\ op' <> op) evs -> forall fs,
  Kept path (get_hard_link_buf op) i data fs -> Kept path (get_hard_link_buf op) i data (foldl (file_step path) fs evs).
Proof. intros Hp. induction 1 as [|ev evs Hev _ IH]; intros fs Hk; cbn; [done|]. by apply IH, kept_step. Qed.

(** A new link holds the snapshot of that moment. *)
Lemma kept_new path u fs fs' op : FSInv fs -> (forall v, names fs !! temp_dump_path path v <> names fs !! snapshot_path path) ->
  file_operator_new fs path u = (fs', Ok (Some op)) ->
  op = mkFileOperator path u /\ exists i data, fs_read fs (snapshot_path path) = Some data /\ Kept path (get_hard_link_buf op) i data fs'.
Proof.
  intros Hi Ht. unfold file_operator_new, fs_hard_link. destruct (names fs !! snapshot_path path) as [i|] eqn:E; [|done].
  destruct (names fs !! get_hard_link_buf _) as [k|] eqn:Ek; [done|]. intros [= <- <-]. split; [done|].
  destruct (Hi _ _ E) as [Hlt [data Hd]]. exists i, data. split; [unfold fs_read; by rewrite E|]. constructor; cbn [names contents next_file].
  - intros p k; cbn [names contents next_file]; intros [[<- <-]|[_ H]]%lookup_insert_Some; [by apply (Hi (snapshot_path path))|by apply (Hi p)].
  - by rewrite lookup_insert_eq.
  - done.
  - intros v. rewrite lookup_insert_ne by (by apply hard_link_ne). apply Ht.
Qed.

Lemma kept_read path name i data fs : Kept path name i data fs -> fs_read fs name = Some data.
Proof. intros [_ Hn Hd _]. unfold fs_read. by rewrite Hn. Qed.

Lemma dump_keeps_clean fs path u data : FSInv fs -> (forall v, names fs !! temp_dump_path path v = None) ->
  exists fs', dump_to_files fs path u data = Ok fs' /\ FSInv fs' /\ fs_read fs' (snapshot_path path) = Some data /\
    forall v, names fs' !! temp_dump_path path v = None.
Proof.
  intros Hi Hc. unfold dump_to_files, fs_rename, fs_write. rewrite Hc. cbn [names contents next_file]. rewrite lookup_insert_eq.
  eexists. split; [done|]. split_and!.
  - intros p k; cbn [names contents next_file]. rewrite delete_insert_id by apply Hc.
    intros [[<- <-]|[_ [? H]%Hi]]%lookup_insert_Some; [rewrite lookup_insert_eq; split; [lia|done]|].
    rewrite lookup_insert_ne by lia. split; [lia|done].
  - unfold fs_read. cbn [names contents]. by rewrite !lookup_insert_eq.
  - intros v. cbn [names]. rewrite lookup_insert_ne by (intros E; by apply (temp_ne_snapshot path v)). rewrite delete_insert_id by apply Hc. apply Hc.
Qed.

(** ** From one replica to another *)


(** C40: An installed snapshot is forgotten. Receiving a snapshot leaves the file
    that a node loads when it starts as it was, whatever arrives: the received
    file keeps its temporary name. A replica that installed a snapshot and starts
    again has the state it had before. *)
Theorem installed_snapshot_forgotten {LogId Membership} (B : Bincode (LogId := LogId) (Membership := Membership))
    (E : Env) (OF : OrderedFloat) (M : MemEnv) (sender receiver : FS) (op : FileOperator) (path : bytes) (tls : bool)
    (accept : option (list bytes -> result (list bytes) bytes)) (pieces : list bytes) (db_number : Z)
    (Hinv : FSInv receiver)
    (Halias : forall u, names receiver !! snapshot_path path <> names receiver !! join_path (snapshot_dir path) (hardlink_filename u) \/
                        names receiver !! join_path (snapshot_dir path) (hardlink_filename u) = None) :
  let receiver' := (transfer_file sender receiver op path tls accept pieces).1 in
  fs_read receiver' (snapshot_path path) = fs_read receiver (snapshot_path path) /\
  state_machine_store_new db_number (fs_read receiver' (snapshot_path path)) =
    state_machine_store_new db_number (fs_read receiver (snapshot_path path)).
Proof.
  cbv zeta. assert (H : fs_read (transfer_file sender receiver op path tls accept pieces).1 (snapshot_path path) = fs_read receiver (snapshot_path path)).
  { unfold transfer_file. destruct (handle_connection tls accept pieces) as [[r|rest|r|]|e]; [done| |done..].
    unfold stream_mode. destruct (take_exact 16 rest) as [[u body]|]; [|done]. cbn [fst].
    destruct (fs_write_read receiver (join_path (snapshot_dir path) (hardlink_filename u)) (receive_all body) Hinv) as [_ Ho].
    apply Ho; [apply Halias|]. unfold snapshot_path. by intros H%join_inj. }
  split; [done|]. by rewrite H.
Qed.

(** With TLS between the nodes no snapshot arrives. The sender speaks without
    TLS, and a handshake fails on bytes that do not start like one: the receiver
    keeps its files and the sender gets an error, whatever the file. *)
Theorem tls_snapshot_never_arrives (accept : list bytes -> result (list bytes) bytes)
    (Haccept : forall pieces, head (concat pieces) <> Some x16 -> exists e, accept pieces = Err e)
    (sender receiver : FS) (op : FileOperator) (path : bytes) (pieces : list bytes)
    (Hpieces : concat pieces = sent_bytes sender (get_hard_link_buf op) (uuid op)) :
  exists e, transfer_file sender receiver op path true (Some accept) pieces = (receiver, Err e).
Proof.
  destruct (Haccept pieces) as [e He]; [by rewrite Hpieces|]. unfold transfer_file, handle_connection. rewrite He. cbn [result_bind map_err].
  unfold send_file, send_file_once. destruct (fs_read sender _); by eexists.
Qed.
End Files.

(** ** Witnesses *)

Definition plain_uuid : UuidText := {| uuid_text := fun u => u; uuid_text_inj := fun u v H => H |}.

Definition empty_fs : FS := mkFS ∅ ∅ 0.

Lemma empty_fs_inv : FSInv empty_fs.
Proof. by intros p i H. Qed.

Import Snapshot.Sample.

Definition sample_uuid (b : byte) : bytes := replicate 16 b.

(** The snapshot of the machine of Snapshot, in place on one node, replaced by
    another one after the link was made. *)
Definition sample_file : bytes := match (build_snapshot (after sample_evs)).2 with Ok (_, file) => file | Err _ => [] end.

Definition sample_dumped : FS :=
  match dump_to_files (U := plain_uuid) empty_fs (str "a") (sample_uuid x61) sample_file with Ok fs => fs | Err _ => empty_fs end.

Definition sample_opened : FS := (file_operator_new (U := plain_uuid) sample_dumped (str "a") (sample_uuid x62)).1.

Definition sample_operator : FileOperator := mkFileOperator (str "a") (sample_uuid x62).

Definition sample_file_events : list FileEvent := [FDump (sample_uuid x63) (str "newer"); FOpen (sample_uuid x64)].

Definition sample_pieces : list bytes :=
  [[x01; x62; x62]; replicate 14 x62 ++ take 100 sample_file; drop 100 sample_file].


(** The replica that got the snapshot above starts again: the key is gone. *)
Lemma installed_snapshot_forgotten_witness :
  let receiver' := (transfer_file (U := plain_uuid) sample_opened empty_fs sample_operator (str "b") false None sample_pieces).1 in
  match install_snapshot (state_machine_new 1) (fs_read receiver' (get_local_hard_link_buf (U := plain_uuid) sample_operator (str "b"))) with
  | Ret (sm1, Ok _) => value_of (kvs sm1)
  | _ => None
  end = Some (PString (str "v")) /\
  state_machine_store_new (LogId := Z) (Membership := bytes) (B := sample_codec) 1 (fs_read receiver' (snapshot_path (str "b")))
    = Ret (state_machine_new 1, Ok tt).
Proof.
  cbv zeta. split; [vm_compute; reflexivity|].
  destruct (installed_snapshot_forgotten (U := plain_uuid) sample_codec first_env ordered_float no_mem sample_opened empty_fs sample_operator (str "b") false None sample_pieces 1)
    as [_ H]; [apply empty_fs_inv|intros u; right; apply lookup_empty|]. rewrite H. vm_compute. reflexivity.
Defined.

(** A handshake that looks at the first byte only. *)
Definition sample_accept (pieces : list bytes) : result (list bytes) bytes :=
  match concat pieces with x16 :: _ => Ok pieces | _ => Err (str "InvalidContentType") end.

Lemma tls_snapshot_never_arrives_witness :
  exists e, transfer_file (U := plain_uuid) sample_opened empty_fs sample_operator (str "b") true (Some sample_accept) sample_pieces = (empty_fs, Err e).
Proof.
  apply (tls_snapshot_never_arrives (U := plain_uuid) sample_accept).
  - intros pieces H. unfold sample_accept. destruct (concat pieces) as [|b s]; [by eexists|]. destruct b; first [by destruct H|eexists; reflexivity].
  - vm_compute. reflexivity.
Defined.
