(* ===== verification/Peers.v ===== *)
(** * Peers: calls from one node to another.

    Models the clients of src/cache_cat/src/raft/network/client.rs
    ([RpcMultiClient], and [RpcClient::call] on top of the slots of Rpc), the
    network of openraft in src/cache_cat/src/raft/network/raft_network.rs, the
    [Connector] of src/cache_cat/src/raft/application/connector.rs and the
    dispatch of src/cache_cat/src/raft/network/external_handler.rs.

    The other node and the network are an environment that is asked, with what
    has happened so far, whether a connection is accepted and what comes back
    from a request. A connection is named by the position of its event. *)

From S2P Require Import Prelude Text Reply Errors Config.
From Stdlib Require Import Strings.Byte.

(** ** The network *)

Inductive NetEvent :=
| Dialled (addr : bytes) (tls : bool)
| Sent (conn : nat) (func_id : Z) (payload : bytes)
| FileSent (addr : bytes).

(** What becomes of a dial: a connection, an error, or no answer. *)
Inductive Dial := Accepted | Rejected (text : bytes) | DialSilent.

(** What becomes of [call_serialized]: it fails before the frame is queued, the
    connection breaks, the response comes, or nothing does. *)
Inductive Reach := Unsent (text : bytes) | Broken (text : bytes) | Answered (body : bytes) | Silent.

(** The file of a snapshot: the replication is cancelled, the transfer fails or ends. *)
Inductive FileOutcome := Cancelled | FileFailed (text : bytes) | FileDone.

Class Peer := {
  on_dial : list NetEvent -> bytes -> bool -> Dial;
  on_call : list NetEvent -> nat -> Z -> bytes -> Reach;
  on_file : list NetEvent -> bytes -> FileOutcome
}.

(** [RPCError], with the texts of the errors it wraps. *)
Inductive RPCError :=
| RpcTimeout
| RpcUnreachable (text : bytes)
| RpcNetwork (text : bytes).

(** What has happened, and the connection in each [Arc<RwLock<RpcClient>>]. *)
Record Net := mkNet { events : list NetEvent; cells : list nat }.

(** A computation that awaits: it ends, waits for ever, or panics. *)
Inductive awaited (A : Type) :=
| Done (a : A) (n : Net)
| Waits (n : Net)
| Crashed.
Arguments Done {A} a n.
Arguments Waits {A} n.
Arguments Crashed {A}.

Definition task (A : Type) := Net -> awaited A.

Definition task_ret {A} (a : A) : task A := Done a.
Definition task_bind {A B} (m : task A) (k : A -> task B) : task B := fun n =>
  match m n with Done a n' => k a n' | Waits n' => Waits n' | Crashed => Crashed end.

Notation "'let!' x := m 'in' k" := (task_bind m (fun x => k))
  (at level 10, x pattern, m at level 100, k at level 200) : rust_scope.

(** The [?] operator inside a task. *)
Definition task_try {A B E} (m : task (result A E)) (k : A -> task (result B E)) : task (result B E) :=
  let! r := m in match r with Ok a => k a | Err e => task_ret (Err e) end.

Notation "'let!?' x := m 'in' k" := (task_try m (fun x => k))
  (at level 10, x pattern, m at level 100, k at level 200) : rust_scope.

(** [timeout(duration, future)]: what has not ended by then is dropped. *)
Definition timeout {A} (m : task A) : task (option A) := fun n =>
  match m n with Done a n' => Done (Some a) n' | Waits n' => Done None n' | Crashed => Crashed end.

Section Peers.
Context `{P : Peer}.

(** ** Connections *)

Definition record (e : NetEvent) : task unit := fun n => Done tt (mkNet (events n ++ [e]) (cells n)).

(** [RpcClient::connect]. *)
Definition client_connect (addr : bytes) (tls : bool) : task (result nat bytes) := fun n =>
  match on_dial (events n) addr tls with
  | Accepted => Done (Ok (length (events n))) (mkNet (events n ++ [Dialled addr tls]) (cells n))
  | Rejected text => Done (Err text) n
  | DialSilent => Waits n
  end.

(** [Arc::new(RwLock::new(client))]. *)
Definition new_cell (conn : nat) : task nat := fun n =>
  Done (length (cells n)) (mkNet (events n) (cells n ++ [conn])).

Definition read_cell (cell : nat) : task nat := fun n =>
  match cells n !! cell with Some conn => Done conn n | None => Crashed end.

Definition write_cell (cell conn : nat) : task unit := fun n => Done tt (mkNet (events n) (<[cell := conn]> (cells n))).

Definition call_serialized (conn : nat) (func_id : Z) (payload : bytes) : task (result bytes RPCError) := fun n =>
  let sent := mkNet (events n ++ [Sent conn func_id payload]) (cells n) in
  match on_call (events n) conn func_id payload with
  | Unsent text => Done (Err (RpcNetwork text)) n
  | Broken text => Done (Err (RpcNetwork text)) sent
  | Answered body => Done (Ok body) sent
  | Silent => Waits sent
  end.

(** ** RpcMultiClient *)

Definition TCP_CONNECT_NUM : nat := 4.

Record RpcMultiClient := mkMulti { clients : list nat; next_client : Z; multi_addr : bytes; multi_tls : bool }.

(** [Clone]: the connections are shared, the counter starts again. *)
Definition multi_clone (m : RpcMultiClient) : RpcMultiClient := mkMulti (clients m) 0 (multi_addr m) (multi_tls m).

Fixpoint connect_loop (num : nat) (addr : bytes) (tls : bool) (acc : list nat) : task (result (list nat) bytes) :=
  match num with
  | O => task_ret (Ok acc)
  | S num' =>
      let!? conn := client_connect addr tls in
      let! cell := new_cell conn in
      connect_loop num' addr tls (acc ++ [cell])
  end.

Definition connect_with_num (addr : bytes) (num : nat) (tls : bool) : task (result RpcMultiClient bytes) :=
  let!? cs := connect_loop num addr tls [] in
  task_ret (Ok (mkMulti cs 0 addr tls)).

Definition multi_connect (addr : bytes) (tls : bool) : task (result RpcMultiClient bytes) :=
  connect_with_num addr TCP_CONNECT_NUM tls.

(** [fetch_add] on the [AtomicU32], modulo the number of clients. *)
Definition next_client_index (m : RpcMultiClient) : option nat * RpcMultiClient :=
  (if (length (clients m) =? 0)%nat then None else Some (Z.to_nat (next_client m mod Z.of_nat (length (clients m)))),
   mkMulti (clients m) ((next_client m + 1) mod 2 ^ 32) (multi_addr m) (multi_tls m)).

Section Typed.
Context {Req Res : Type} (serialize : Req -> result bytes bytes) (deserialize : bytes -> result (result Res bytes) bytes).

Definition decode_response (response : bytes) : result Res RPCError :=
  match deserialize response with
  | Err e => Err (RpcNetwork e)
  | Ok (Err e) => Err (RpcUnreachable e)
  | Ok (Ok res) => Ok res
  end.

(** [RpcClient::call]. *)
Definition client_call (conn : nat) (func_id : Z) (req : Req) : task (result Res RPCError) :=
  match serialize req with
  | Err e => task_ret (Err (RpcNetwork e))
  | Ok payload =>
      let!? response := call_serialized conn func_id payload in
      task_ret (decode_response response)
  end.

(** The second attempt of [call], on a fresh connection. *)
Definition retry_call (m : RpcMultiClient) (cell : nat) (func_id : Z) (payload : bytes) : task (result Res RPCError) :=
  let! fresh := client_connect (multi_addr m) (multi_tls m) in
  match fresh with
  | Err e => task_ret (Err (RpcNetwork e))
  | Ok conn =>
      let! _ := write_cell cell conn in
      let!? response := call_serialized conn func_id payload in
      task_ret (decode_response response)
  end.

Definition multi_call (m : RpcMultiClient) (func_id : Z) (req : Req) : task (result Res RPCError * RpcMultiClient) :=
  match serialize req with
  | Err e => task_ret (Err (RpcNetwork e), m)
  | Ok payload =>
      let '(idx, m') := next_client_index m in
      match idx ≫= (clients m !!.) with
      | None => fun _ => Crashed
      | Some cell =>
          let! conn := read_cell cell in
          let! first := call_serialized conn func_id payload in
          match first with
          | Ok response => task_ret (decode_response response, m')
          | Err (RpcNetwork _) => let! r := retry_call m cell func_id payload in task_ret (r, m')
          | Err e => task_ret (Err e, m')
          end
      end
  end.

Definition call_with_timeout (m : RpcMultiClient) (func_id : Z) (req : Req) : task (result Res RPCError) :=
  let! r := timeout (multi_call m func_id req) in
  task_ret (match r with Some (result, _) => result | None => Err RpcTimeout end).
End Typed.

(** ** The network of openraft *)

Record TcpNetwork := mkTcp {
  tcp_tls : bool;
  tcp_addr : bytes;
  nodes : option RpcMultiClient;
  target : Z;
  tcp_node_id : Z
}.

Record Node := mkNode { member_id : Z; endpoint : Endpoint }.

(** [NetworkFactory::new_client]. *)
Definition new_client (tls : bool) (tgt : Z) (node : Node) : TcpNetwork :=
  mkTcp tls (raft_addr (endpoint node)) None tgt (member_id node).

Definition set_nodes (t : TcpNetwork) (m : option RpcMultiClient) : TcpNetwork :=
  mkTcp (tcp_tls t) (tcp_addr t) m (target t) (tcp_node_id t).

Definition get_or_connect_client (t : TcpNetwork) : task (TcpNetwork * result RpcMultiClient RPCError) :=
  match nodes t with
  | Some m => task_ret (t, Ok (multi_clone m))
  | None =>
      let! r := multi_connect (tcp_addr t) (tcp_tls t) in
      task_ret
        match r with
        | Ok m => (set_nodes t (Some (multi_clone m)), Ok m)
        | Err _ => (t, Err (RpcUnreachable (str "node " ++ nat_to_string (target t) ++ str " not reachable at " ++ tcp_addr t)))
        end
  end.

(** The requests that openraft sends, already of the type of their handler. *)
Class RaftCodec := {
  AppendReq : Type; AppendRes : Type; VoteReq : Type; VoteRes : Type; SnapshotReq : Type; SnapshotRes : Type;
  append_ser : AppendReq -> result bytes bytes; append_de : bytes -> result (result AppendRes bytes) bytes;
  vote_ser : VoteReq -> result bytes bytes; vote_de : bytes -> result (result VoteRes bytes) bytes;
  snapshot_ser : SnapshotReq -> result bytes bytes; snapshot_de : bytes -> result (result SnapshotRes bytes) bytes
}.

Context `{RC : RaftCodec}.

Definition append_entries (t : TcpNetwork) (req : AppendReq) : task (TcpNetwork * result AppendRes RPCError) :=
  let! tc := get_or_connect_client t in
  match tc.2 with
  | Err e => task_ret (tc.1, Err e)
  | Ok client => let! r := call_with_timeout append_ser append_de client 7 req in task_ret (tc.1, r)
  end.

Definition vote (t : TcpNetwork) (req : VoteReq) : task (TcpNetwork * result VoteRes RPCError) :=
  let! tc := get_or_connect_client t in
  match tc.2 with
  | Err e => task_ret (tc.1, Err e)
  | Ok client => let! r := call_with_timeout vote_ser vote_de client 6 req in task_ret (tc.1, r)
  end.

Definition not_found (t : TcpNetwork) : bytes := str "node " ++ nat_to_string (target t) ++ str " not found".

(** The transfer of the file and the request that installs it. *)
Definition full_snapshot (t : TcpNetwork) (req : SnapshotReq) : task (TcpNetwork * result SnapshotRes RPCError) :=
  let! tc := get_or_connect_client t in
  match tc.2 with
  | Err _ => task_ret (tc.1, Err (RpcUnreachable (not_found t)))
  | Ok client => fun n =>
      match on_file (events n) (multi_addr client) with
      | Cancelled => Done (tc.1, Err RpcTimeout) n
      | FileFailed _ => Done (tc.1, Err (RpcUnreachable (not_found t))) n
      | FileDone =>
          (let! _ := record (FileSent (multi_addr client)) in
           let! r := call_with_timeout snapshot_ser snapshot_de client 8 req in
           task_ret (tc.1, r)) n
      end
  end.

(** ** The connector *)

Record Connector := mkConnector { connection : gmap bytes RpcMultiClient; connector_tls : bool }.

(** [From<RPCError> for Error]; [unreachable_text] and [network_text] are what
    openraft prints for the errors it wraps. *)
Definition rpc_error_from (unreachable_text network_text : bytes -> bytes) (e : RPCError) : CacheCatError :=
  RPC match e with
      | RpcTimeout => Timeout
      | RpcUnreachable e => Unreachable (unreachable_text e)
      | RpcNetwork e => Network (network_text e)
      end.

Definition send_msg {Req Res} (ser : Req -> result bytes bytes) (de : bytes -> result (result Res bytes) bytes)
    (convert : RPCError -> CacheCatError) (k : Connector) (addr : bytes) (func_id : Z) (req : Req)
    : task (Connector * result Res CacheCatError) :=
  let call (k : Connector) (client : RpcMultiClient) :=
    let! r := call_with_timeout ser de client func_id req in
    task_ret (k, map_err convert r) in
  match connection k !! addr with
  | Some client => call k (multi_clone client)
  | None =>
      let! r := timeout (connect_with_num addr 1 (connector_tls k)) in
      match r with
      | None => task_ret (k, Err (convert RpcTimeout))
      | Some (Err e) => task_ret (k, Err (RPC (Network e)))
      | Some (Ok client) => call (mkConnector (<[addr := multi_clone client]> (connection k)) (connector_tls k)) client
      end
  end.

(** ** What a call does *)

(** [after r Q W]: the task does not panic; [Q] holds if it ends, [W] if it waits. *)
Definition after {A} (r : awaited A) (Q : A -> Net -> Prop) (W : Net -> Prop) : Prop :=
  match r with Done a n => Q a n | Waits n => W n | Crashed => False end.

Lemma after_bind {A B} (m : task A) (k : A -> task B) n Q W :
  after (m n) (fun a n' => after (k a n') Q W) W -> after (task_bind m k n) Q W.
Proof. unfold task_bind. by destruct (m n). Qed.

Lemma after_try {A B E} (m : task (result A E)) (k : A -> task (result B E)) n Q W :
  after (m n) (fun r n' => match r with Ok a => after (k a n') Q W | Err e => Q (Err e) n' end) W ->
  after (task_try m k n) Q W.
Proof. intros H. apply after_bind. destruct (m n) as [[a|e] n'|n'|]; done. Qed.

Lemma after_impl {A} (r : awaited A) (Q Q' : A -> Net -> Prop) (W W' : Net -> Prop) :
  after r Q W -> (forall a n, Q a n -> Q' a n) -> (forall n, W n -> W' n) -> after r Q' W'.
Proof. destruct r; cbn; auto. Qed.

(** The effect of one call through the connection [conn] of a cell: at most one
    request, then at most a new connection, put in the cell, and the same
    request again. *)
Inductive call_effect (n : Net) (cell conn : nat) (func_id : Z) (payload : bytes) : Net -> Prop :=
| effect_none : call_effect n cell conn func_id payload n
| effect_one : call_effect n cell conn func_id payload (mkNet (events n ++ [Sent conn func_id payload]) (cells n))
| effect_again (pre again : list NetEvent) (addr : bytes) (tls : bool) :
    pre = [] \/ pre = [Sent conn func_id payload] ->
    let fresh := length (events n ++ pre) in
    again = [] \/ again = [Sent fresh func_id payload] ->
    call_effect n cell conn func_id payload
      (mkNet (events n ++ pre ++ Dialled addr tls :: again) (<[cell := fresh]> (cells n))).

(** [res] was decoded from what came back for the last event of [n]. *)
Definition answered_by {Res} (deserialize : bytes -> result (result Res bytes) bytes) (func_id : Z) (payload : bytes) (n : Net) (res : Res) : Prop :=
  exists before conn body, events n = before ++ [Sent conn func_id payload] /\
    on_call before conn func_id payload = Answered body /\ deserialize body = Ok (Ok res).

Section Calls.
Context {Req Res : Type} (serialize : Req -> result bytes bytes) (deserialize : bytes -> result (result Res bytes) bytes).

Lemma decode_response_ok body res : decode_response deserialize body = Ok res -> deserialize body = Ok (Ok res).
Proof. unfold decode_response. by destruct (deserialize body) as [[r|]|]; intros [= ->]. Qed.

Lemma call_serialized_after conn func_id payload n :
  after (call_serialized conn func_id payload n)
    (fun r n' => (n' = n /\ exists e, r = Err (RpcNetwork e)) \/
       (n' = mkNet (events n ++ [Sent conn func_id payload]) (cells n) /\
        ((exists e, r = Err (RpcNetwork e)) \/ exists body, r = Ok body /\ on_call (events n) conn func_id payload = Answered body)))
    (fun n' => n' = mkNet (events n ++ [Sent conn func_id payload]) (cells n)).
Proof. unfold call_serialized. destruct (on_call _ _ _ _); cbn; eauto 10. Qed.

Lemma retry_call_after m cell conn func_id payload n pre :
  pre = [] \/ pre = [Sent conn func_id payload] ->
  after (retry_call deserialize m cell func_id payload (mkNet (events n ++ pre) (cells n)))
    (fun r n' => call_effect n cell conn func_id payload n' /\ forall res, r = Ok res -> answered_by deserialize func_id payload n' res)
    (call_effect n cell conn func_id payload).
Proof.
  intros Hpre. assert (H0 : call_effect n cell conn func_id payload (mkNet (events n ++ pre) (cells n))).
  { destruct Hpre as [-> | ->]; [rewrite app_nil_r; destruct n|]; constructor. }
  unfold retry_call. apply after_bind. unfold client_connect. cbn [events cells].
  destruct (on_dial _ _ _); cbn [after]; [|split; [done|by intros]|done].
  apply after_bind. cbn [after write_cell events cells]. apply after_try.
  eapply after_impl; [apply call_serialized_after| |]; cbn [events cells]; rewrite <- ?app_assoc; cbn [app].
  - intros r n' [[-> [e ->]]|[-> [[e ->]|(body & -> & Hb)]]]; cbn [after task_ret].
    + split; [|done]. apply (effect_again _ _ _ _ _ pre []); auto.
    + split; [|done]. apply (effect_again _ _ _ _ _ pre [_]); auto.
    + split; [apply (effect_again _ _ _ _ _ pre [_]); auto|]. intros res Hres. unfold answered_by. cbn [events].
      exists (events n ++ pre ++ [Dialled (multi_addr m) (multi_tls m)]), (length (events n ++ pre)), body.
      rewrite <- !app_assoc. split_and!; [done|by rewrite <- ?app_assoc in Hb|by apply decode_response_ok].
  - intros n' ->. apply (effect_again _ _ _ _ _ pre [_]); auto.
Qed.

(** A call through a client whose counter is at [idx] uses that connection. *)
Lemma multi_call_after m func_id req payload n idx cell conn :
  serialize req = Ok payload -> (next_client_index m).1 = Some idx -> clients m !! idx = Some cell -> cells n !! cell = Some conn ->
  after (multi_call serialize deserialize m func_id req n)
    (fun r n' => call_effect n cell conn func_id payload n' /\ forall res, r.1 = Ok res -> answered_by deserialize func_id payload n' res)
    (call_effect n cell conn func_id payload).
Proof.
  intros Hs Hi Hc Hn. unfold multi_call. rewrite Hs. destruct (next_client_index m) as [i m']. cbn [fst] in Hi. subst i. cbn [mbind option_bind].
  rewrite Hc. apply after_bind. unfold read_cell. rewrite Hn. cbn [after]. apply after_bind.
  assert (Hretry : forall pre, pre = [] \/ pre = [Sent conn func_id payload] ->
    after ((let! r := retry_call deserialize m cell func_id payload in task_ret (r, m')) (mkNet (events n ++ pre) (cells n)))
      (fun r n' => call_effect n cell conn func_id payload n' /\ forall res, r.1 = Ok res -> answered_by deserialize func_id payload n' res)
      (call_effect n cell conn func_id payload)).
  { intros pre Hpre. apply after_bind. by eapply after_impl; [by apply retry_call_after| |]. }
  unfold call_serialized. destruct (on_call (events n) conn func_id payload) as [e|e|body|] eqn:Hoc; cbn [after].
  - specialize (Hretry [] ltac:(by left)). rewrite app_nil_r in Hretry. by destruct n.
  - apply (Hretry [_]). by right.
  - split; [constructor|]. cbn [fst]. intros res Hres. exists (events n), conn, body. by split_and!; [| |apply decode_response_ok].
  - constructor.
Qed.

(** [call_with_timeout] ends whatever the other side does. *)
Lemma call_with_timeout_after m func_id req payload n idx cell conn :
  serialize req = Ok payload -> (next_client_index m).1 = Some idx -> clients m !! idx = Some cell -> cells n !! cell = Some conn ->
  after (call_with_timeout serialize deserialize m func_id req n)
    (fun r n' => call_effect n cell conn func_id payload n' /\ forall res, r = Ok res -> answered_by deserialize func_id payload n' res)
    (fun _ => False).
Proof.
  intros Hs Hi Hc Hn. pose proof (multi_call_after m func_id req payload n idx cell conn Hs Hi Hc Hn) as H.
  unfold call_with_timeout. apply after_bind. unfold timeout. destruct (multi_call _ _ m func_id req n) as [[r m'] n'|n'|]; cbn in *; done.
Qed.
End Calls.

(** ** PipelineMultiClient *)

Record PipelineMultiClient := mkPipeMulti { pipe_clients : list nat; pipe_next : Z; pipe_addr : bytes }.

Definition pipe_multi_clone (m : PipelineMultiClient) : PipelineMultiClient := mkPipeMulti (pipe_clients m) 0 (pipe_addr m).

(** [PipelineClient::connect] opens a connection without TLS. *)
Definition pipe_multi_connect (addr : bytes) (num : nat) : task (result PipelineMultiClient bytes) :=
  let!? cs := connect_loop num addr false [] in
  task_ret (Ok (mkPipeMulti cs 0 addr)).

Section Pipelined.
Context {Req Res : Type} (serialize : Req -> result bytes bytes) (deserialize : bytes -> result (result Res bytes) bytes).

(** [PipelineClient::call], as Pipeline has it on one connection. A pipelined
    frame has no method number, 0 stands in its place; a response that cannot be
    decoded stops the reading task, which drops the callback. *)
Definition pipe_exchange (conn : nat) (req : Req) : task (result Res bytes) := fun n =>
  match serialize req with
  | Err e => Done (Err (str "Serialize error: " ++ e)) n
  | Ok payload =>
      let sent := mkNet (events n ++ [Sent conn 0 payload]) (cells n) in
      match on_call (events n) conn 0 payload with
      | Unsent text => Done (Err text) n
      | Broken text => Done (Err text) sent
      | Answered body => Done (match deserialize body with Ok r => r | Err _ => Err (str "Response channel closed") end) sent
      | Silent => Waits sent
      end
  end.

(** [PipelineMultiClient::call]; the index is taken modulo the number of clients,
    which panics without any. *)
Definition pipe_multi_call (m : PipelineMultiClient) (req : Req) : task (result Res bytes * PipelineMultiClient) :=
  let m' := mkPipeMulti (pipe_clients m) ((pipe_next m + 1) mod 2 ^ 32) (pipe_addr m) in
  match (if (length (pipe_clients m) =? 0)%nat then None
         else pipe_clients m !! Z.to_nat (pipe_next m mod Z.of_nat (length (pipe_clients m)))) with
  | None => fun _ => Crashed
  | Some cell =>
      let! conn := read_cell cell in
      let! first := pipe_exchange conn req in
      match first with
      | Ok res => task_ret (Ok res, m')
      | Err _ =>
          let! fresh := client_connect (pipe_addr m) false in
          match fresh with
          | Err e => task_ret (Err e, m')
          | Ok conn' =>
              let! _ := write_cell cell conn' in
              let! r := pipe_exchange conn' req in
              task_ret (r, m')
          end
      end
  end.

(** An error that the server answers is taken for a broken connection: the
    request goes out again, over a new one. *)
Lemma pipe_error_repeats m req payload n cell conn body e :
  serialize req = Ok payload -> pipe_clients m = [cell] -> cells n !! cell = Some conn ->
  on_call (events n) conn 0 payload = Answered body -> deserialize body = Ok (Err e) ->
  on_dial (events n ++ [Sent conn 0 payload]) (pipe_addr m) false = Accepted ->
  (forall evs c, on_call evs c 0 payload <> Silent /\ forall t, on_call evs c 0 payload <> Unsent t) ->
  exists r n', pipe_multi_call m req n = Done r n' /\
    events n' = events n ++ [Sent conn 0 payload; Dialled (pipe_addr m) false; Sent (S (length (events n))) 0 payload].
Proof.
  intros Hs Hm Hc Ha Hd Hdial Hall. unfold pipe_multi_call. rewrite Hm. change (Z.of_nat (length [cell])) with 1.
  rewrite Z.mod_1_r. change ([cell] !! Z.to_nat 0) with (Some cell). cbn [length Nat.eqb].
  unfold task_bind, read_cell. rewrite Hc. unfold pipe_exchange at 1. rewrite Hs, Ha, Hd. unfold client_connect. cbn [events cells].
  rewrite Hdial. cbn [write_cell]. unfold pipe_exchange. rewrite Hs. cbn [events cells].
  rewrite length_app, Nat.add_1_r, <- !app_assoc. cbn [app].
  set (evs := events n ++ _). destruct (Hall evs (S (length (events n)))) as [H1 H2].
  destruct (on_call evs (S (length (events n))) 0 payload) as [t|t|b|]; [by destruct (H2 t)| | |done];
    (eexists _, _; split; [reflexivity|]; cbn [events]; unfold evs; by rewrite <- ?app_assoc).
Qed.
End Pipelined.

(** ** Which connections are used *)

Definition sent_on (conn : nat) (n : Net) : Prop := exists func_id payload, Sent conn func_id payload ∈ events n.

(** The requests so far went over connections that exist, and not over those in
    the last three cells of the client. *)
Record TcpInv (t : TcpNetwork) (n : Net) : Prop := {
  ti_known : forall conn, sent_on conn n -> (conn < length (events n))%nat;
  ti_cells : forall m, nodes t = Some m ->
    next_client m = 0 /\ exists first rest, clients m = first :: rest /\ length rest = 3%nat /\ (first ∉ rest) /\
      (exists conn, cells n !! first = Some conn /\ (conn < length (events n))%nat /\ forall i, i ∈ rest -> cells n !! i <> Some conn) /\
      forall i, i ∈ rest -> exists conn, cells n !! i = Some conn /\ (conn < length (events n))%nat /\ ~ sent_on conn n
}.

(** Connections are opened without sending a request. *)
Definition quiet (n n' : Net) : Prop :=
  (length (events n) <= length (events n'))%nat /\ forall conn, sent_on conn n' -> sent_on conn n.

(** The cells [cs] hold connections of their own, opened since [n0]. *)
Record Opened (n0 n : Net) (cs : list nat) : Prop := {
  op_quiet : quiet n0 n;
  op_nodup : NoDup cs;
  op_conn : forall i, i ∈ cs -> exists conn, cells n !! i = Some conn /\ (length (events n0) <= conn < length (events n))%nat;
  op_inj : forall i j conn, i ∈ cs -> j ∈ cs -> cells n !! i = Some conn -> cells n !! j = Some conn -> i = j
}.

Lemma quiet_dial n addr tls cs : quiet n (mkNet (events n ++ [Dialled addr tls]) cs).
Proof.
  split; [cbn; rewrite length_app; cbn; lia|]. intros conn (f & p & H). exists f, p. cbn in H. set_solver.
Qed.

Lemma quiet_trans n1 n2 n3 : quiet n1 n2 -> quiet n2 n3 -> quiet n1 n3.
Proof. intros [H1 H2] [H3 H4]. split; [lia|auto]. Qed.

Lemma opened_cons n0 n cs addr tls : Opened n0 n cs ->
  Opened n0 (mkNet (events n ++ [Dialled addr tls]) (cells n ++ [length (events n)])) (cs ++ [length (cells n)]).
Proof.
  intros [Hq Hd Hc Hi]. assert (Hlt : forall i, i ∈ cs -> (i < length (cells n))%nat).
  { intros i (conn & H & _)%Hc. by apply lookup_lt_Some in H. }
  assert (Hold : forall i, i ∈ cs -> (cells n ++ [length (events n)]) !! i = cells n !! i).
  { intros i H%Hlt. by rewrite lookup_app_l. }
  assert (Hnew : (cells n ++ [length (events n)]) !! length (cells n) = Some (length (events n))).
  { by rewrite lookup_app_r, Nat.sub_diag by lia. }
  constructor.
  - eapply quiet_trans; [exact Hq|apply quiet_dial].
  - apply NoDup_app. split_and!; [done| |apply NoDup_singleton]. intros i H%Hlt ->%list_elem_of_singleton. lia.
  - cbn [events cells]. rewrite length_app. cbn [length]. intros i [H| ->%list_elem_of_singleton]%elem_of_app.
    + rewrite Hold by done. destruct (Hc i H) as (conn & ? & ?). exists conn. split; [done|lia].
    + exists (length (events n)). split; [done|]. destruct Hq. lia.
  - cbn [cells]. intros i j conn [H1| ->%list_elem_of_singleton]%elem_of_app [H2| ->%list_elem_of_singleton]%elem_of_app.
    + rewrite !Hold by done. by apply Hi.
    + rewrite (Hold i), Hnew by done. intros E [= <-]. destruct (Hc i H1) as (c & E' & ?). rewrite E in E'. injection E' as <-. lia.
    + rewrite (Hold j), Hnew by done. intros [= <-] E. destruct (Hc j H2) as (c & E' & ?). rewrite E in E'. injection E' as <-. lia.
    + done.
Qed.

Lemma connect_loop_after num addr tls n0 : forall n acc, Opened n0 n acc ->
  after (connect_loop num addr tls acc n)
    (fun r n' => quiet n0 n' /\ forall cs, r = Ok cs -> Opened n0 n' cs /\ length cs = (length acc + num)%nat)
    (quiet n0).
Proof.
  induction num as [|num IH]; intros n acc H; cbn [connect_loop].
  - cbn. split; [apply H|]. intros cs [= <-]. split; [done|lia].
  - apply after_try. unfold client_connect. destruct (on_dial _ _ _); cbn [after].
    + apply after_bind. cbn [new_cell after events cells].
      eapply after_impl; [apply IH, opened_cons, H| |done]. cbn. intros r n' [Hq Hr]. split; [done|].
      intros cs [Hc Hl]%Hr. split; [done|]. rewrite Hl, length_app. cbn. lia.
    + split; [apply H|done].
    + apply H.
Qed.

Lemma quiet_known n n' : (forall conn, sent_on conn n -> (conn < length (events n))%nat) -> quiet n n' ->
  forall conn, sent_on conn n' -> (conn < length (events n'))%nat.
Proof. intros H [H1 H2] conn Hc%H2%H. lia. Qed.

Lemma get_or_connect_after t n : TcpInv t n ->
  after (get_or_connect_client t n)
    (fun tr n' => TcpInv tr.1 n' /\ forall m, tr.2 = Ok m -> next_client m = 0 /\ exists m0, nodes tr.1 = Some m0 /\ clients m0 = clients m)
    (TcpInv t).
Proof.
  intros [Hk Hc]. unfold get_or_connect_client. destruct (nodes t) as [m|] eqn:Hn.
  { cbn. split; [constructor; [done|by rewrite Hn]|]. intros m' [= <-]. split; [done|]. by exists m. }
  apply after_bind. unfold multi_connect, connect_with_num. apply after_try.
  assert (H0 : Opened n n []) by (constructor; [done|apply NoDup_nil_2|set_solver|set_solver]).
  eapply after_impl; [apply (connect_loop_after _ _ _ _ _ _ H0)| |].
  - intros [cs|e] n' [Hq Hr]; cbn [after task_ret fst snd].
    2:{ split; [|done]. constructor; [by eapply quiet_known|by rewrite Hn]. }
    destruct (Hr cs eq_refl) as [[_ Hd Hcn Hi] Hl]. split; [|intros m [= <-]; split; [done|by eexists]].
    constructor; [by eapply quiet_known|]. cbn. intros m [= <-]. split; [done|]. cbn.
    destruct cs as [|first rest]; [done|]. apply NoDup_cons in Hd as [Hnin Hd].
    exists first, rest. split_and!; [done|by injection Hl as ->|done| |].
    + destruct (Hcn first ltac:(left)) as (conn & E & ?). exists conn. split_and!; [done|lia|].
      intros i Hin E'. apply Hnin. by rewrite (Hi first i conn ltac:(left) ltac:(by right) E E').
    + intros i Hin. destruct (Hcn i ltac:(by right)) as (conn & E & ?). exists conn. split_and!; [done|lia|].
      intros Hs%Hq%Hk. lia.
  - intros n' Hq. constructor; [by eapply quiet_known|by rewrite Hn].
Qed.

Lemma sent_on_snoc n e cs conn : sent_on conn (mkNet (events n ++ [e]) cs) ->
  sent_on conn n \/ exists f p, e = Sent conn f p.
Proof. intros (f & p & [H|H%list_elem_of_singleton]%elem_of_app); [left; by exists f, p|right; eauto]. Qed.

(** A call through the first cell leaves the others unused. *)
Lemma call_effect_inv t m n n' first rest conn func_id payload :
  TcpInv t n -> nodes t = Some m -> clients m = first :: rest -> cells n !! first = Some conn ->
  call_effect n first conn func_id payload n' -> TcpInv t n'.
Proof.
  intros [Hk Hc] Hn Hm Hf Heff. destruct (Hc m Hn) as (H0 & first' & rest' & E & Hlen & Hnin & (c0 & Ec0 & Hlt & Hne) & Hrest).
  rewrite E in Hm. injection Hm as -> ->. rewrite Hf in Ec0. injection Ec0 as <-.
  (* the events that follow mention [conn] or connections that are new *)
  assert (Hgen : forall evs c1, (forall c, sent_on c (mkNet (events n ++ evs) []) -> sent_on c n \/ c = conn \/ c = c1) ->
    (c1 = conn \/ (length (events n) <= c1 < length (events n ++ evs))%nat) ->
    TcpInv t (mkNet (events n ++ evs) (<[first := c1]> (cells n)))).
  { intros evs c1 Hev Hc1. assert (Hlen' : (length (events n) <= length (events n ++ evs))%nat) by (rewrite length_app; lia).
    constructor; cbn [events cells].
    - intros c [H%Hk|[-> | ->]]%Hev; lia.
    - rewrite Hn. intros m' [= <-]. split; [done|]. exists first, rest. split_and!; [done..| |].
      + exists c1. rewrite list_lookup_insert_eq by (by eapply lookup_lt_Some). split_and!; [done|lia|].
        intros i Hi. rewrite list_lookup_insert_ne by (intros ->; done). destruct Hc1 as [-> |Hc1]; [by apply Hne|].
        intros Hx. destruct (Hrest i Hi) as (c & Ec & ? & _). rewrite Hx in Ec. injection Ec as <-. lia.
      + intros i Hi. rewrite list_lookup_insert_ne by (intros ->; done). destruct (Hrest i Hi) as (c & Ec & Hcl & Hns).
        exists c. split_and!; [done|lia|]. intros [H|[-> | ->]]%Hev; [done|by apply (Hne i Hi)|]. destruct Hc1 as [-> |]; [by apply (Hne i Hi)|lia]. }
  assert (Hself : <[first := conn]> (cells n) = cells n) by (by apply list_insert_id).
  destruct Heff as [| |pre again addr tls Hpre fresh Hagain].
  - by constructor.
  - specialize (Hgen [Sent conn func_id payload] conn). rewrite Hself in Hgen. apply Hgen; [|by left].
    intros c [?|(f & p & [= -> _ _])]%sent_on_snoc; auto.
  - apply (Hgen (pre ++ Dialled addr tls :: again) fresh).
    + intros c (f & p & H). cbn in H. destruct Hpre as [-> | ->], Hagain as [-> | ->]; cbn in H;
        rewrite elem_of_app, ?elem_of_cons in H; destruct H as [H|H]; [left; by exists f, p| |left; by exists f, p| |left; by exists f, p| |left; by exists f, p|];
        destruct_or!; simplify_eq; auto; by apply not_elem_of_nil in H.
    + right. unfold fresh. rewrite !length_app. cbn [length]. lia.
Qed.

(** The requests openraft makes of a network. *)
Inductive RaftRpc := RpcAppend (req : AppendReq) | RpcVote (req : VoteReq) | RpcSnapshot (req : SnapshotReq).

Definition rpc_sendable (r : RaftRpc) : Prop :=
  match r with
  | RpcAppend q => exists p, append_ser q = Ok p
  | RpcVote q => exists p, vote_ser q = Ok p
  | RpcSnapshot q => exists p, snapshot_ser q = Ok p
  end.

Definition raft_rpc (t : TcpNetwork) (r : RaftRpc) : task TcpNetwork :=
  match r with
  | RpcAppend q => let! x := append_entries t q in task_ret x.1
  | RpcVote q => let! x := vote t q in task_ret x.1
  | RpcSnapshot q => let! x := full_snapshot t q in task_ret x.1
  end.

Fixpoint raft_rpcs (t : TcpNetwork) (rs : list RaftRpc) : task TcpNetwork :=
  match rs with
  | [] => task_ret t
  | r :: rs' => let! t' := raft_rpc t r in raft_rpcs t' rs'
  end.

Lemma timed_call_inv {Req Res} (ser : Req -> result bytes bytes) (de : bytes -> result (result Res bytes) bytes) t m0 m func_id req payload n :
  TcpInv t n -> nodes t = Some m0 -> clients m0 = clients m -> next_client m = 0 -> ser req = Ok payload ->
  after (call_with_timeout ser de m func_id req n) (fun _ n' => TcpInv t n') (fun _ => False).
Proof.
  intros Hi Hn Hm H0 Hs. destruct (ti_cells _ _ Hi m0 Hn) as (_ & first & rest & E & Hlen & _ & (conn & Ec & _) & _).
  eapply after_impl; [eapply (call_with_timeout_after ser de m func_id req payload n 0 first conn Hs)| |done].
  - unfold next_client_index. rewrite <- Hm, E, H0. cbn [length Nat.eqb fst]. by rewrite Zmod_0_l.
  - by rewrite <- Hm, E.
  - done.
  - cbn. intros r n' [Heff _]. by eapply call_effect_inv.
Qed.

Lemma tcp_inv_file t n addr : TcpInv t n -> TcpInv t (mkNet (events n ++ [FileSent addr]) (cells n)).
Proof.
  intros [Hk Hc]. assert (Hs : forall c cs, sent_on c (mkNet (events n ++ [FileSent addr]) cs) -> sent_on c n).
  { by intros c cs [?|(f & p & ?)]%sent_on_snoc. }
  constructor; cbn [events cells]; rewrite length_app; cbn [length].
  - intros c H%Hs%Hk. lia.
  - intros m Hm. destruct (Hc m Hm) as (H0 & first & rest & E & Hl & Hn & (conn & Ec & Hlt & Hne) & Hr).
    split; [done|]. exists first, rest. split_and!; [done..| |].
    + exists conn. split_and!; [done|lia|done].
    + intros i Hi. destruct (Hr i Hi) as (c & Eci & ? & Hns). exists c. split_and!; [done|lia|]. by intros Hx%Hs.
Qed.

(** What the three requests share: get the client, do something first, call. *)
Lemma raft_rpc_inv t r n : TcpInv t n -> rpc_sendable r ->
  after (raft_rpc t r n) (fun t' n' => TcpInv t' n') (TcpInv t).
Proof.
  intros Hi Hr. pose proof (get_or_connect_after t n Hi) as Hg.
  destruct r as [q|q|q], Hr as [p Hp]; cbn [raft_rpc]; apply after_bind; [unfold append_entries|unfold vote|unfold full_snapshot];
    apply after_bind; (eapply after_impl; [exact Hg| |done]); intros [t' [m|e]] n'; cbn [fst snd]; intros [Hi' Hm]; cbn [after task_ret fst]; try done;
    destruct (Hm m eq_refl) as (H0 & m0 & Hn0 & Hc0).
  - apply after_bind. eapply after_impl; [by eapply timed_call_inv| |done]. done.
  - apply after_bind. eapply after_impl; [by eapply timed_call_inv| |done]. done.
  - destruct (on_file _ _); cbn [after fst]; [done..|]. apply after_bind. cbn [record after events cells]. apply after_bind.
    pose proof (tcp_inv_file t' n' (multi_addr m) Hi') as Hf.
    eapply after_impl; [by eapply (timed_call_inv snapshot_ser snapshot_de t' m0 m 8 q p _ Hf)| |done]. done.
Qed.

Lemma raft_rpcs_inv rs : forall t n, TcpInv t n -> Forall rpc_sendable rs ->
  after (raft_rpcs t rs n) (fun t' n' => TcpInv t' n') (fun _ => True).
Proof.
  induction rs as [|r rs IH]; intros t n Hi Hrs; cbn [raft_rpcs]; [done|]. apply Forall_cons in Hrs as [Hr Hrs].
  apply after_bind. eapply after_impl; [by apply raft_rpc_inv| |done]. intros t' n' Hi'. by apply IH.
Qed.

(** C31: A call through [RpcMultiClient] does not panic and sends its request at
    most twice: a second time only over a connection opened for it, put in place
    of the one that failed. With the timeout it always ends. When it returns a
    value, that value is decoded from the response to the last request. *)
Theorem rpc_call_effect {Req Res : Type} (serialize : Req -> result bytes bytes)
    (deserialize : bytes -> result (result Res bytes) bytes) (m : RpcMultiClient) (func_id : Z) (req : Req)
    (payload : bytes) (n : Net) (idx cell conn : nat)
    (Hser : serialize req = Ok payload) (Hidx : (next_client_index m).1 = Some idx)
    (Hcell : clients m !! idx = Some cell) (Hconn : cells n !! cell = Some conn) :
  after (multi_call serialize deserialize m func_id req n)
    (fun r n' => call_effect n cell conn func_id payload n' /\
       forall res, r.1 = Ok res -> answered_by deserialize func_id payload n' res)
    (call_effect n cell conn func_id payload) /\
  exists r n', call_with_timeout serialize deserialize m func_id req n = Done r n' /\
    call_effect n cell conn func_id payload n' /\
    forall res, r = Ok res -> answered_by deserialize func_id payload n' res.
Proof.
  split; [by eapply multi_call_after|].
  pose proof (call_with_timeout_after serialize deserialize m func_id req payload n idx cell conn Hser Hidx Hcell Hconn) as H.
  destruct (call_with_timeout _ _ _ _ _ _) as [r n'| |]; [|done..]. by exists r, n'.
Qed.

(** A [TcpNetwork] opens four connections to its node and, whatever openraft
    asks of it, sends over the first of them only: the client that is used is a
    clone, and a clone starts its counter at zero. *)
Theorem tcp_network_uses_one_connection (tls : bool) (tgt : Z) (node : Node) (rs : list RaftRpc)
    (Hsend : Forall rpc_sendable rs) :
  after (raft_rpcs (new_client tls tgt node) rs (mkNet [] []))
    (fun t n => forall m, nodes t = Some m -> exists first rest, clients m = first :: rest /\ length rest = 3%nat /\
       forall i, i ∈ rest -> exists conn, cells n !! i = Some conn /\ ~ sent_on conn n)
    (fun _ => True).
Proof.
  assert (H0 : TcpInv (new_client tls tgt node) (mkNet [] [])).
  { constructor; [|done]. intros conn (f & p & H). by apply not_elem_of_nil in H. }
  eapply after_impl; [by apply raft_rpcs_inv| |done]. intros t n [_ Hc] m Hm.
  destruct (Hc m Hm) as (_ & first & rest & E & Hl & _ & _ & Hr). exists first, rest. split_and!; [done..|].
  intros i Hi. destruct (Hr i Hi) as (conn & Ec & _ & Hn). by exists conn.
Qed.
End Peers.

(** ** The server side *)

Section Handler.
Context {St Req Res : Type} (deserialize : bytes -> result Req bytes) (serialize : Res -> result bytes bytes)
  (func : St -> Req -> St * Res).

(** [RpcMethod::internal_call]. *)
Definition internal_call (st : St) (data : bytes) : St * result bytes CacheCatError :=
  match deserialize data with
  | Err e => (st, Err (Internal e))
  | Ok req => let '(st', res) := func st req in (st', map_err Internal (serialize res))
  end.
End Handler.

(** With codecs that read back what they write, the caller gets what the
    function returned, its errors as an unreachable node. *)
Lemma internal_call_decoded {St Req A : Type} (ser_req : Req -> result bytes bytes) (de_req : bytes -> result Req bytes)
    (ser_res : result A bytes -> result bytes bytes) (de_res : bytes -> result (result A bytes) bytes)
    (func : St -> Req -> St * result A bytes) st req payload body st' res :
  (forall q p, ser_req q = Ok p -> de_req p = Ok q) -> (forall r p, ser_res r = Ok p -> de_res p = Ok r) ->
  ser_req req = Ok payload -> func st req = (st', res) -> ser_res res = Ok body ->
  internal_call de_req ser_res func st payload = (st', Ok body) /\
  decode_response de_res body = map_err RpcUnreachable res.
Proof.
  intros Hq Hr Hp Hf Hb. unfold internal_call, decode_response. rewrite (Hq _ _ Hp), Hf, Hb, (Hr _ _ Hb). by destruct res.
Qed.

(** ** Witnesses *)

(** A node that answers every request with a byte, after the first has broken. *)
Definition flaky_peer : Peer := {|
  on_dial := fun _ _ _ => Accepted;
  on_call := fun evs conn _ _ => if (length evs <=? 4)%nat then Broken (str "reset") else Answered [x00];
  on_file := fun _ _ => FileDone
|}.

Definition byte_codec : RaftCodec := {|
  AppendReq := byte; AppendRes := bytes; VoteReq := byte; VoteRes := bytes; SnapshotReq := byte; SnapshotRes := bytes;
  append_ser := fun b => Ok [b]; append_de := fun s => Ok (Ok s);
  vote_ser := fun b => Ok [b]; vote_de := fun s => Ok (Ok s);
  snapshot_ser := fun b => Ok [b]; snapshot_de := fun s => Ok (Ok s)
|}.

Definition sample_node : Node := mkNode 2 (mkEndpoint (str "h") 5001 6379).

Lemma rpc_call_effect_witness :
  exists r n', call_with_timeout (P := flaky_peer) (fun b : byte => Ok [b]) (fun s => Ok (Ok s)) (mkMulti [0%nat] 0 (str "h:1") false) 7 x05
      (mkNet [Dialled (str "h:1") false] [0%nat]) = Done r n' /\
    events n' = [Dialled (str "h:1") false; Sent 0 7 [x05]; Dialled (str "h:1") false; Sent 2 7 [x05]].
Proof.
  destruct (rpc_call_effect (P := flaky_peer) (fun b : byte => Ok [b]) (fun s => Ok (Ok s)) (mkMulti [0%nat] 0 (str "h:1") false) 7 x05 [x05]
    (mkNet [Dialled (str "h:1") false] [0%nat]) 0 0 0 eq_refl eq_refl eq_refl eq_refl) as (_ & r & n' & H & _).
  exists r, n'. split; [exact H|]. vm_compute in H. injection H as _ <-. reflexivity.
Defined.

Lemma tcp_network_uses_one_connection_witness :
  let r := raft_rpcs (P := flaky_peer) (RC := byte_codec) (new_client false 2 sample_node) [RpcVote (RC := byte_codec) x01; RpcAppend (RC := byte_codec) x02] (mkNet [] []) in
  after r (fun t n => nodes t <> None /\ length (events n) = 8%nat) (fun _ => False) /\
  after r (fun t n => forall m, nodes t = Some m -> exists first rest, clients m = first :: rest /\ length rest = 3%nat /\
    forall i, i ∈ rest -> exists conn, cells n !! i = Some conn /\ ~ sent_on conn n) (fun _ => True).
Proof.
  split; [vm_compute; split; [discriminate|reflexivity]|].
  apply (tcp_network_uses_one_connection (P := flaky_peer) (RC := byte_codec)).
  repeat apply Forall_cons_2; [by exists [x01]|by exists [x02]|apply Forall_nil_2].
Defined.
