(* ===== verification/Cluster.v ===== *)
(** * Cluster: what a node knows of its cluster, and how members come and go.

    Models src/cache_cat/src/raft/application/cluster.rs, the handlers [add_node]
    and [set_nodes_state] of src/cache_cat/src/raft/network/external_handler.rs,
    and joining and initialising a cluster in
    src/cache_cat/src/node/raft_node.rs.

    openraft is a parameter: what its metrics show is a record, and changes of
    the membership are operations with the documented effect on the voters. *)

From S2P Require Import Prelude Text Reply Errors Config Peers.

(** ** Who is alive *)

(** A [Duration] is its number of nanoseconds. *)
Definition as_millis (d : Z) : Z := d / 10 ^ 6.

Record NodeState := mkNodeState { nodes_heartbeat : gmap Z Z; election_timeout_max : Z }.

Definition is_survive (s : NodeState) (node_id : Z) : bool :=
  match nodes_heartbeat s !! node_id with
  | Some d => wrap_u64 (as_millis d) <? election_timeout_max s
  | None => false
  end.

(** What [raft.metrics()], [raft.config()] and the like show: the node, whether
    it leads, the leader it knows, the members by identifier and, on a leader,
    for how long each node has been silent. *)
Record RaftView := mkRaftView {
  rv_node_id : Z;
  rv_is_leader : bool;
  rv_current_leader : option Z;
  rv_members : list (Z * Node);
  rv_heartbeat : option (list (Z * option Z));
  rv_election_timeout_max : Z
}.

Record Cluster := mkCluster { current_endpoint : Endpoint; last_master : Z; node_state : NodeState }.

(** [Cluster::new], and the callback it registers for a change of leader. *)
Definition cluster_new (r : RaftView) (ep : Endpoint) : Cluster :=
  mkCluster ep (rv_node_id r) (mkNodeState ∅ (rv_election_timeout_max r)).

Definition on_leader_change (c : Cluster) (new : Z) : Cluster := mkCluster (current_endpoint c) new (node_state c).

Definition set_nodes_state (c : Cluster) (s : NodeState) : Cluster := mkCluster (current_endpoint c) (last_master c) s.

Fixpoint heartbeat_map (hs : list (Z * option Z)) (acc : gmap Z Z) : gmap Z Z :=
  match hs with
  | [] => acc
  | (_, None) :: hs' => heartbeat_map hs' acc
  | (id, Some elapsed) :: hs' => heartbeat_map hs' (<[id := elapsed]> acc)
  end.

Definition nodes_state (r : RaftView) : option NodeState :=
  let* heartbeat_info := rv_heartbeat r in
  Some (mkNodeState (<[rv_node_id r := 0]> (heartbeat_map heartbeat_info ∅)) (rv_election_timeout_max r)).

Definition last_slave (r : RaftView) (c : Cluster) : list Node :=
  snd <$> filter (fun p => p.1 <> last_master c) (rv_members r).

Definition find_member (r : RaftView) (id : Z) : option Node :=
  snd <$> find (fun p => p.1 =? id) (rv_members r).

Definition last_leader (r : RaftView) (c : Cluster) : Endpoint :=
  match find_member r (last_master c) with Some node => endpoint node | None => current_endpoint c end.

Definition leader_addr (r : RaftView) : option Endpoint :=
  let* leader_id := rv_current_leader r in
  let* node := find_member r leader_id in
  Some (endpoint node).

(** [leader_rpc_call]: whom the leader calls, with the addresses it uses. *)
Definition leader_targets (r : RaftView) : result (list bytes) CacheCatError :=
  if rv_is_leader r
  then Ok ((fun p => raft_addr (endpoint p.2)) <$> filter (fun p => p.1 <> rv_node_id r) (rv_members r))
  else Err (Protocol ReadOnly).

(** One tick of [cluster_state_sync]: the state the leader keeps and sends. *)
Definition state_sync (r : RaftView) (c : Cluster) : Cluster * option (NodeState * list bytes) :=
  match nodes_state r with
  | None => (c, None)
  | Some s =>
      (set_nodes_state c s, match leader_targets r with Ok addrs => Some (s, addrs) | Err _ => None end)
  end.

(** ** Membership *)

Inductive InitError := NotAllowed (msg : bytes) | NotInMembers (msg : bytes) | InitFatal (msg : bytes).

Definition initialize (r : result unit InitError) : result unit CacheCatError :=
  match r with
  | Ok _ | Err (NotAllowed _) => Ok tt
  | Err (NotInMembers e) => Err (InvalidConfig e)
  | Err (InitFatal e) => Err (Internal e)
  end.

Inductive ChangeMembers := AddVoters (m : gmap Z Node) | RemoveVoters (s : gset Z) | RemoveNodes (s : gset Z).

(** A Raft node that takes changes of the membership. *)
Class RaftMembers := {
  Raft : Type;
  voters : Raft -> gset Z;
  add_learner : Raft -> Z -> Node -> Raft * result unit bytes;
  change_membership : Raft -> ChangeMembers -> Raft * result unit bytes
}.

(** What openraft documents: a learner does not vote, and a change that is
    answered with success has taken place, one that fails has not. *)
Class RaftMembersOk (RM : RaftMembers) : Prop := {
  learner_voters r id node : voters (add_learner r id node).1 = voters r;
  change_voters r c r' : change_membership r c = (r', Ok tt) ->
    voters r' = match c with AddVoters m => voters r ∪ dom m | RemoveVoters s => voters r ∖ s | RemoveNodes _ => voters r end;
  change_failed r c r' e : change_membership r c = (r', Err e) -> voters r' = voters r
}.

Record JoinRequest := mkJoinRequest { join_node_id : Z; join_master_name : bytes; join_endpoint : Endpoint }.

Section Members.
Context `{RM : RaftMembers}.

Definition add_node (r : Raft) (req : JoinRequest) : Raft * result unit bytes :=
  let node := mkNode (join_node_id req) (join_endpoint req) in
  if bool_decide (join_node_id req ∈ voters r) then (r, Ok tt)
  else change_membership (add_learner r (join_node_id req) node).1 (AddVoters {[ join_node_id req := node ]}).

Definition remove_self (r : Raft) (node_id : Z) : Raft * result unit bytes :=
  match change_membership r (RemoveVoters {[ node_id ]}) with
  | (r', Ok _) => change_membership r' (RemoveNodes {[ node_id ]})
  | failed => failed
  end.

Context `{!RaftMembersOk RM}.

(** The members of a cluster. A join request that is answered with success
    leaves the node among the voters and nobody else in or out; one that fails
    leaves the voters as they were; a node that is a voter already is accepted
    without a change. [remove_self] takes exactly the node out. *)
Theorem membership_changes (r : Raft) (req : JoinRequest) (node_id : Z) :
  (let '(r', res) := add_node r req in
   voters r' = match res with Ok _ => {[ join_node_id req ]} ∪ voters r | Err _ => voters r end /\
   (join_node_id req ∈ voters r -> r' = r /\ res = Ok tt)) /\
  (let '(r', res) := remove_self r node_id in
   (res = Ok tt -> voters r' = voters r ∖ {[ node_id ]}) /\ (voters r' = voters r \/ voters r' = voters r ∖ {[ node_id ]})).
Proof.
  split.
  - unfold add_node. case_bool_decide as Hin; [split; [set_solver|done]|].
    destruct (change_membership _ _) as [r' [[]|e]] eqn:E; (split; [|done]).
    + rewrite (change_voters _ _ _ E), learner_voters, dom_singleton_L. set_solver.
    + by rewrite (change_failed _ _ _ _ E), learner_voters.
  - unfold remove_self. destruct (change_membership r _) as [r1 [[]|e]] eqn:E1.
    + apply change_voters in E1. destruct (change_membership r1 _) as [r2 [[]|e]] eqn:E2.
      * apply change_voters in E2. rewrite E2, E1. auto.
      * apply change_failed in E2. rewrite E2, E1. auto.
    + apply change_failed in E1. split; [done|]. by left.
Qed.
End Members.

(** ** Masters and slaves *)

Lemma find_member_in r id node : find_member r id = Some node -> (id, node) ∈ rv_members r.
Proof.
  unfold find_member. destruct (find _ _) as [[i x]|] eqn:E; cbn; [|done]. intros [= ->].
  apply List.find_some in E as [E H]. cbn in H. apply Z.eqb_eq in H as ->. by apply list_elem_of_In.
Qed.

Lemma find_member_none r id : find_member r id = None -> (id ∉ (rv_members r).*1).
Proof.
  unfold find_member. destruct (find _ _) as [p|] eqn:E; cbn; [done|]. intros _ ([i x] & -> & Hin)%list_elem_of_fmap.
  apply list_elem_of_In in Hin. pose proof (List.find_none _ _ E _ Hin) as H. cbn in H. lia.
Qed.

Lemma members_split (l : list (Z * Node)) id node : NoDup l.*1 -> (id, node) ∈ l ->
  l.*2 ≡ₚ node :: (filter (fun p => p.1 <> id) l).*2.
Proof.
  induction l as [|[i x] l IH]; intros Hd Hin; [by apply not_elem_of_nil in Hin|]. cbn in Hd. apply NoDup_cons in Hd as [Hn Hd].
  cbn [fmap list_fmap snd]. rewrite filter_cons. apply elem_of_cons in Hin as [[= -> ->]|Hin].
  - rewrite decide_False by (cbn; lia). constructor.
    assert (filter (fun p => p.1 <> i) l = l) as ->; [|done]. clear IH Hd. induction l as [|[j y] l IHl]; [done|].
    rewrite filter_cons. cbn in Hn. apply not_elem_of_cons in Hn as [Hij Hn]. rewrite decide_True by (cbn; lia). by rewrite IHl.
  - assert (i <> id). { intros ->. apply Hn. apply list_elem_of_fmap. by exists (id, node). }
    rewrite decide_True by done. cbn [fmap list_fmap snd]. rewrite (IH Hd Hin). constructor.
Qed.

(** The master and the slaves that SENTINEL reports are the members of the
    cluster, each once, when the last master is one of them; otherwise every
    member is a slave and the master is this node. *)
Lemma master_and_slaves r c : NoDup (rv_members r).*1 ->
  match find_member r (last_master c) with
  | Some node => last_leader r c = endpoint node /\ (rv_members r).*2 ≡ₚ node :: last_slave r c
  | None => last_leader r c = current_endpoint c /\ last_slave r c = (rv_members r).*2
  end.
Proof.
  intros Hd. unfold last_leader, last_slave. destruct (find_member r (last_master c)) as [node|] eqn:E.
  - split; [done|]. by apply members_split; [|apply find_member_in].
  - split; [done|]. apply find_member_none in E. induction (rv_members r) as [|[i x] l IH]; [done|].
    cbn [fmap list_fmap fst] in E, Hd. apply not_elem_of_cons in E as [Hi E]. apply NoDup_cons in Hd as [_ Hd].
    rewrite filter_cons, decide_True by (cbn; lia). cbn [fmap list_fmap snd]. f_equal. by apply IH.
Qed.

Lemma heartbeat_map_lookup hs : forall acc id, NoDup hs.*1 ->
  heartbeat_map hs acc !! id =
    match (snd <$> find (fun p => p.1 =? id) hs) with Some (Some d) => Some d | _ => acc !! id end.
Proof.
  induction hs as [|[i o] hs IH]; intros acc id Hd; [done|]. cbn in Hd. apply NoDup_cons in Hd as [Hn Hd].
  cbn [heartbeat_map find fst]. destruct (Z.eqb_spec i id) as [-> |Hne].
  - assert (find (fun p : Z * option Z => p.1 =? id) hs = None) as Hf.
    { destruct (find _ hs) as [[j x]|] eqn:E; [|done]. apply List.find_some in E as [Hin Hj]. cbn in Hj. apply Z.eqb_eq in Hj as ->.
      destruct Hn. apply list_elem_of_fmap. exists (id, x). by split; [|apply list_elem_of_In]. }
    destruct o as [d|]; rewrite IH, Hf by done; cbn; [by rewrite lookup_insert_eq|done].
  - destruct o as [d|]; rewrite IH by done; [|done]. rewrite lookup_insert_ne by done. done.
Qed.

(** ** Starting and joining *)

Section Joining.
Context `{P : Peer}.

(** The configuration, the codec of the request, how openraft prints an error
    of a call and how Rust prints a list of strings. *)
Context (config : ParsedConfig) (ser : JoinRequest -> result bytes bytes) (de : bytes -> result (result unit bytes) bytes)
  (tls : bool) (rpc_display : RPCError -> bytes) (debug_list : list bytes -> bytes).

Definition join_via (addr : bytes) : task (result unit CacheCatError) :=
  let join_req := mkJoinRequest (node_id config) (sentinel_master_name config) (raft_endpoint config) in
  let! client := client_connect addr tls in
  match client with
  | Err e => task_ret (Err (Internal e))
  | Ok conn => let! r := client_call ser de conn 9 join_req in task_ret (map_err (fun e => Internal (rpc_display e)) r)
  end.

Inductive Tried := Joined | NotJoined (e : CacheCatError) | RanOut.

(** The [for _i in 0..3] of one address; the pause before a retry is not seen. *)
Fixpoint try_addr (attempts : nat) (addr : bytes) : task Tried :=
  match attempts with
  | O => task_ret RanOut
  | S attempts' =>
      let! result := join_via addr in
      match result with
      | Ok _ => task_ret Joined
      | Err e => if is_retryable e then try_addr attempts' addr else task_ret (NotJoined e)
      end
  end.

Definition own_address (addr : bytes) : bool :=
  (bool_decide (addr = raft_addr (raft_endpoint config)) || bool_decide (addr = raft_addr (raft_advertise_endpoint config)))%bool.

Fixpoint join_loop (addrs : list bytes) (errors : list CacheCatError) : task (result unit (list CacheCatError)) :=
  match addrs with
  | [] => task_ret (Err errors)
  | addr :: addrs' =>
      if own_address addr then join_loop addrs' errors
      else
        let! tried := try_addr 3 addr in
        match tried with
        | Joined => task_ret (Ok tt)
        | NotJoined e => join_loop addrs' (errors ++ [e])
        | RanOut => join_loop addrs' errors
        end
  end.

Fixpoint join_texts (sep : bytes) (ts : list bytes) : bytes :=
  match ts with [] => [] | [t] => t | t :: ts' => t ++ sep ++ join_texts sep ts' end.

Definition do_join_cluster : task (result unit CacheCatError) :=
  let! r := join_loop (raft_join config) [] in
  task_ret (map_err (fun errors =>
    Internal (str "fail to join node-" ++ nat_to_string (node_id config) ++ str " to cluster via " ++ debug_list (raft_join config)
              ++ str ", errors: " ++ join_texts (str ", ") ((fun e => display_error e None) <$> errors))) r).

Definition join_cluster : task (result unit CacheCatError) :=
  if bool_decide (raft_join config = []) then task_ret (Ok tt) else do_join_cluster.

(** [init_cluster] of the node itself; [raft_init] is what openraft answers. *)
Definition init_cluster (cluster_node_id : Z) (node : Node) (raft_init : result unit InitError) : result unit CacheCatError :=
  if negb (member_id node =? cluster_node_id)
  then Err (InvalidConfig (str "Node ID " ++ nat_to_string (member_id node) ++ str " does not match current node ID " ++ nat_to_string cluster_node_id))
  else if bool_decide (ep_address (endpoint node) = []) then Err (InvalidConfig (str "Node endpoint address cannot be empty"))
  else initialize raft_init.

(** [start], once the service listens or has failed to. *)
Definition start (service : result unit bytes) (raft_init : result unit InitError) : task (result unit CacheCatError) :=
  match service with
  | Err msg => task_ret (Err (Internal msg))
  | Ok _ =>
      if raft_single config
      then task_ret (init_cluster (node_id config) (mkNode (node_id config) (raft_endpoint config)) raft_init)
      else join_cluster
  end.

(** ** One attempt per address *)

(** Trying each address once, until one of them takes the node. *)
Fixpoint join_once (addrs : list bytes) (errors : list CacheCatError) : task (result unit (list CacheCatError)) :=
  match addrs with
  | [] => task_ret (Err errors)
  | addr :: addrs' =>
      let! r := join_via addr in
      match r with Ok _ => task_ret (Ok tt) | Err e => join_once addrs' (errors ++ [e]) end
  end.

(** An error of [join_via] is internal, so it is not retried. *)
Lemma join_via_error addr n e n' : join_via addr n = Done (Err e) n' -> is_retryable e = false.
Proof.
  unfold join_via, task_bind. destruct (client_connect addr tls n) as [[conn|e0] n0|n0|]; [|by intros [= <- _]|done..].
  destruct (client_call ser de conn 9 _ n0) as [[[]|e0] n1|n1|]; cbn; [done|by intros [= <- _]|done..].
Qed.

Lemma try_addr_once attempts addr n :
  try_addr (S attempts) addr n =
    (let! r := join_via addr in task_ret (match r with Ok _ => Joined | Err e => NotJoined e end)) n.
Proof.
  cbn [try_addr]. unfold task_bind. destruct (join_via addr n) as [[[]|e] n'|n'|] eqn:E; [done| |done..].
  by rewrite (join_via_error _ _ _ _ E).
Qed.

Lemma join_loop_once addrs : forall errors n,
  join_loop addrs errors n = join_once (filter (fun a => own_address a = false) addrs) errors n.
Proof.
  induction addrs as [|addr addrs IH]; intros errors n; [done|]. cbn [join_loop]. rewrite filter_cons.
  destruct (own_address addr) eqn:Ho; [by rewrite decide_False|]. rewrite decide_True by done. cbn [join_once].
  unfold task_bind at 1. rewrite try_addr_once. unfold task_bind. destruct (join_via addr n) as [[[]|e] n'|n'|]; cbn; [done|apply IH|done..].
Qed.

(** Joining a cluster tries every configured address that is not the node's
    own exactly once and in order, until one of them takes the node: the loop of
    three attempts never goes round, since every error of an attempt is an
    internal one. The node has joined exactly when an attempt succeeded; the
    error lists every failure. *)
Theorem join_tries_each_once (n : Net) :
  let others := filter (fun a => own_address a = false) (raft_join config) in
  do_join_cluster n =
    (let! r := join_once others [] in
     task_ret (map_err (fun errors =>
       Internal (str "fail to join node-" ++ nat_to_string (node_id config) ++ str " to cluster via " ++ debug_list (raft_join config)
                 ++ str ", errors: " ++ join_texts (str ", ") ((fun e => display_error e None) <$> errors))) r)) n /\
  forall errors n', join_once others [] n = Done (Err errors) n' -> length errors = length others /\ Forall (fun e => is_retryable e = false) errors.
Proof.
  intros others. split; [unfold do_join_cluster, task_bind; by rewrite join_loop_once|].
  assert (H : forall addrs acc n0 errors n', Forall (fun e => is_retryable e = false) acc -> join_once addrs acc n0 = Done (Err errors) n' ->
    length errors = (length acc + length addrs)%nat /\ Forall (fun e => is_retryable e = false) errors).
  { induction addrs as [|addr addrs IH]; intros acc n0 errors n' Hacc; cbn [join_once].
    - intros [= <- _]. cbn. split; [lia|done].
    - unfold task_bind. destruct (join_via addr n0) as [[[]|e] n1|n1|] eqn:E; [done| |done..]. intros [Hl Hf]%IH.
      + rewrite Hl, length_app. cbn. split; [lia|done].
      + apply Forall_app. split; [done|]. constructor; [by eapply join_via_error|done]. }
  intros errors n' Hj. by apply (H others [] n errors n').
Qed.
End Joining.
