(* ===== verification/Broadcast.v ===== *)
(** * Broadcast: a message for the subscribers of every node.

    Models the part of [execute] of
    src/cache_cat/src/protocol/pub_sub/publish.rs that follows the delivery to
    this node's own clients, [leader_rpc_call] of
    src/cache_cat/src/raft/types/raft_types.rs as PUBLISH uses it, and the handler
    [publish] of src/cache_cat/src/raft/network/external_handler.rs.

    The subscription tables are those of PubSub, one for each node, by the address
    at which the other nodes call it. Whether a call arrives is up to the network. *)

From S2P Require Import Prelude Text Reply Errors Config Peers Cluster PubSub.

Section Broadcast.
Context (id_iter : gset Z -> list Z) (registry_iter : gmap bytes (gset Z) -> list (bytes * gset Z)).

(** The handler [publish] on the node at [addr]; its count is dropped. *)
Definition publish_handler (channel message : bytes) (tables : gmap bytes PubSub) (addr : bytes) : gmap bytes PubSub :=
  alter (fun ps => (publish id_iter registry_iter ps channel message).1) addr tables.

(** [leader_rpc_call] with the message: every other member is called once, and
    what comes of it is ignored. A node that does not lead calls nobody. *)
Definition forward (r : RaftView) (arrives : bytes -> bool) (channel message : bytes) (tables : gmap bytes PubSub) : gmap bytes PubSub :=
  match leader_targets r with
  | Ok addrs => foldl (publish_handler channel message) tables (filter (fun a => arrives a = true) addrs)
  | Err _ => tables
  end.

(** PUBLISH on the node at [own]: its clients first, then the other nodes. *)
Definition publish_execute (r : RaftView) (own : bytes) (arrives : bytes -> bool) (channel message : bytes) (tables : gmap bytes PubSub)
    : gmap bytes PubSub * Value :=
  (forward r arrives channel message (publish_handler channel message tables own),
   match tables !! own with Some ps => (publish id_iter registry_iter ps channel message).2 | None => Integer 0 end).

(** ** Who is reached *)

Lemma handlers_lookup channel message addrs a : NoDup addrs -> forall tables,
  foldl (publish_handler channel message) tables addrs !! a =
    if decide (a ∈ addrs) then (fun ps => (publish id_iter registry_iter ps channel message).1) <$> tables !! a else tables !! a.
Proof.
  induction addrs as [|b addrs IH]; intros Hd tables; cbn [foldl]; [by rewrite decide_False by apply not_elem_of_nil|].
  apply NoDup_cons in Hd as [Hb Hd]. rewrite IH by done. unfold publish_handler. destruct (decide (a = b)) as [-> |Hne].
  - rewrite decide_False by done. rewrite decide_True by left. by rewrite lookup_alter_eq.
  - rewrite lookup_alter_ne by done. destruct (decide (a ∈ addrs)); [by rewrite decide_True by (by right)|].
    by rewrite decide_False by (by intros [?|?]%elem_of_cons).
Qed.

Hypothesis id_iter_perm : forall s, id_iter s ≡ₚ elements s.
Hypothesis registry_iter_perm : forall r, registry_iter r ≡ₚ map_to_list r.

Definition addresses (r : RaftView) : list bytes := (fun p => raft_addr (endpoint p.2)) <$> rv_members r.

Definition targets (r : RaftView) : list bytes :=
  (fun p => raft_addr (endpoint p.2)) <$> filter (fun p => p.1 <> rv_node_id r) (rv_members r).

(** The members that the leader calls: all but itself, each once. *)
Lemma targets_spec r me : NoDup (addresses r) -> NoDup (rv_members r).*1 -> (rv_node_id r, me) ∈ rv_members r ->
  NoDup (targets r) /\ forall a, a ∈ targets r <-> a ∈ addresses r /\ a <> raft_addr (endpoint me).
Proof.
  unfold targets, addresses. set (f := fun p : Z * Node => raft_addr (endpoint p.2)). intros Hd Hn Hme. split.
  - clear Hme Hn. induction (rv_members r) as [|p l IH]; [constructor|]. rewrite fmap_cons in Hd. apply NoDup_cons in Hd as [Hp Hd].
    rewrite filter_cons. case_decide; [|by apply IH]. rewrite fmap_cons. apply NoDup_cons. split; [|by apply IH].
    intros (q & Hq & Hin)%list_elem_of_fmap. apply Hp. rewrite Hq. apply list_elem_of_filter in Hin as [_ Hin]. by apply list_elem_of_fmap_2.
  - intros a. split.
    + intros (p & -> & Hin)%list_elem_of_fmap. apply list_elem_of_filter in Hin as [Hne Hin]. split; [by apply list_elem_of_fmap_2|].
      intros He. apply list_elem_of_lookup in Hin as [i Hi]. apply list_elem_of_lookup in Hme as [j Hj].
      assert (i = j) as ->; [|rewrite Hi in Hj; injection Hj as ->; done].
      apply (NoDup_lookup (f <$> rv_members r) i j (f p)); [done|by rewrite list_lookup_fmap, Hi|by rewrite list_lookup_fmap, Hj, He].
    + intros [(p & -> & Hin)%list_elem_of_fmap Hne]. apply list_elem_of_fmap_2, list_elem_of_filter. split; [|done].
      intros Hid. apply Hne. apply list_elem_of_lookup in Hin as [i Hi]. apply list_elem_of_lookup in Hme as [j Hj].
      assert (i = j) as ->; [|rewrite Hi in Hj; injection Hj as ->; done].
      apply (NoDup_lookup (rv_members r).*1 i j (rv_node_id r)); [done|by rewrite list_lookup_fmap, Hi; cbn; rewrite Hid|by rewrite list_lookup_fmap, Hj].
Qed.

Lemma publish_execute_lookup r me arrives channel message tables addr :
  NoDup (addresses r) -> NoDup (rv_members r).*1 -> (rv_node_id r, me) ∈ rv_members r ->
  (publish_execute r (raft_addr (endpoint me)) arrives channel message tables).1 !! addr =
    if decide (addr = raft_addr (endpoint me) \/ rv_is_leader r = true /\ addr ∈ addresses r /\ arrives addr = true)
    then (fun ps => (publish id_iter registry_iter ps channel message).1) <$> tables !! addr else tables !! addr.
Proof.
  intros Ha Hn Hme. destruct (targets_spec r me Ha Hn Hme) as [Hd Ht]. unfold publish_execute, forward, leader_targets. cbn [fst].
  fold (targets r). set (own := raft_addr (endpoint me)) in *.
  assert (publish_handler channel message tables own !! addr =
    if decide (addr = own) then (fun ps => (publish id_iter registry_iter ps channel message).1) <$> tables !! addr else tables !! addr) as Hown.
  { unfold publish_handler. case_decide as E; [subst; by rewrite lookup_alter_eq|by rewrite lookup_alter_ne]. }
  destruct (rv_is_leader r).
  - rewrite handlers_lookup by (by apply NoDup_filter). rewrite Hown. destruct (decide (addr = own)) as [-> |Hne].
    + rewrite decide_False by (intros [_ [_ ?]%Ht]%list_elem_of_filter; done). by rewrite decide_True by (by left).
    + destruct (decide (addr ∈ filter _ (targets r))) as [[? [? _]%Ht]%list_elem_of_filter|Hnin]; [by rewrite decide_True by (by right)|].
      rewrite decide_False; [done|]. intros [?|(_ & Hin & Harr)]; [done|]. apply Hnin, list_elem_of_filter. split; [done|]. by apply Ht.
  - rewrite Hown. destruct (decide (addr = own)); [by rewrite decide_True by (by left)|]. by rewrite decide_False by (intros [?|(? & _)]; done).
Qed.

(** C28: PUBLISH in a cluster. On the leader every member that can be reached
    delivers the message once, to exactly those of its clients that listen
    to the channel or to a pattern that matches it. On any other node only the
    clients of that node get it. *)
Theorem publish_reaches_cluster (r : RaftView) (me : Node) (arrives : bytes -> bool) (channel message : bytes) (tables : gmap bytes PubSub) :
  NoDup (addresses r) -> NoDup (rv_members r).*1 -> (rv_node_id r, me) ∈ rv_members r ->
  map_Forall (fun _ ps => PubSubInv ps) tables ->
  let own := raft_addr (endpoint me) in
  forall addr ps, tables !! addr = Some ps ->
  exists ps' order, (publish_execute r own arrives channel message tables).1 !! addr = Some ps' /\
    order ≡ₚ filter (fun p => matches_pattern channel p = true) (map_to_list (patterns ps)).*1 /\
    forall id, clients ps' !! id =
      if decide (addr = own \/ rv_is_leader r = true /\ addr ∈ addresses r /\ arrives addr = true)
      then pushed (messages ps order channel message id) <$> clients ps !! id else clients ps !! id.
Proof using id_iter_perm registry_iter_perm.
  intros Ha Hn Hme Hinv own addr ps Hps. subst own. rewrite publish_execute_lookup by done. rewrite Hps.
  destruct (publish_spec id_iter registry_iter id_iter_perm registry_iter_perm ps channel message (Hinv _ _ Hps)) as (d & _ & Hc & _).
  set (order := filter _ (registry_iter (patterns ps)).*1) in Hc. destruct (decide _) as [Hd|Hd].
  - eexists _, order. split; [done|]. split; [unfold order; by rewrite registry_iter_perm|]. intros id. by rewrite Hc.
  - exists ps, order. split; [done|]. split; [unfold order; by rewrite registry_iter_perm|]. done.
Qed.
End Broadcast.

(** ** Witness *)

Definition sample_members : list (Z * Node) := (fun id => (id, mkNode id (mkEndpoint (str "10.0.0." ++ nat_to_string id) 5001 6379))) <$> [1; 2; 3].

Definition sample_site (leads : bool) : RaftView := mkRaftView 1 leads (Some 1) sample_members None 1400.

Definition sample_tables : gmap bytes PubSub := list_to_map ((fun p => (raft_addr (endpoint p.2), sample_pubsub)) <$> sample_members).

Lemma sample_pubsub_inv : PubSubInv sample_pubsub.
Proof. by destruct (run_calls_ok elements elements map_to_list (fun _ => reflexivity _) (fun _ => reflexivity _) (fun _ => reflexivity _) sample_calls pubsub_new (fun _ _ => ∅) pubsub_new_inv). Qed.

Lemma publish_reaches_cluster_witness :
  exists ps' order, (publish_execute elements map_to_list (sample_site true) (str "10.0.0.1:5001") (fun _ => true) (str "news") (str "hi") sample_tables).1
      !! str "10.0.0.3:5001" = Some ps' /\
    order ≡ₚ filter (fun p => matches_pattern (str "news") p = true) (map_to_list (patterns sample_pubsub)).*1.
Proof.
  destruct (publish_reaches_cluster elements map_to_list (fun _ => reflexivity _) (fun _ => reflexivity _) (sample_site true)
    (mkNode 1 (mkEndpoint (str "10.0.0.1") 5001 6379)) (fun _ => true) (str "news") (str "hi") sample_tables) with (addr := str "10.0.0.3:5001") (ps := sample_pubsub)
    as (ps' & order & H1 & H2 & _).
  - apply (bool_decide_unpack _). vm_compute. exact I.
  - apply (bool_decide_unpack _). vm_compute. exact I.
  - left.
  - unfold sample_tables. repeat apply map_Forall_insert_2; try apply sample_pubsub_inv. apply map_Forall_empty.
  - vm_compute. reflexivity.
  - exists ps', order. split; [exact H1|exact H2].
Defined.
