(* ===== verification/Boot.v ===== *)
(** * Boot: how a node starts.

    Models [RaftNodeBuilder::build] of src/cache_cat/src/node/raft_builder.rs,
    [RaftNode::create] and [start_raft_service] of
    src/cache_cat/src/node/raft_node.rs, [create_raft_engine] of
    src/cache_cat/src/raft/store/raft_engine.rs, and the listeners of
    [Server::start_server] in src/cache_cat/src/raft/network/rpc.rs and of
    [start_redis_server] in src/cache_cat/src/raft/network/redis_server.rs.

    What the operating system, raft-engine and openraft answer is a record; the
    configuration, TLS and joining a cluster are those of Config and Cluster. *)

From S2P Require Import Prelude Text Reply Errors Config Peers Cluster.
From Stdlib Require Import Strings.Byte.

Record World := mkWorld {
  dir_exists : bytes -> bool;
  create_dir : bytes -> result unit bytes;
  open_engine : bytes -> result unit bytes;
  load_state : result unit CacheCatError;
  raft_create : result unit bytes;
  bind : bytes -> result unit bytes;
  raft_initialize : result unit InitError
}.

(** How far the start has come. *)
Inductive Stage :=
| EngineOpened (path : bytes)
| StateLoaded
| TlsLoaded
| RaftCreated
| RpcListening (addr : bytes)
| ClusterReady
| ExpirationTask (seconds : Z)
| StateSyncTask (seconds : Z).

(** The stages that are behind us, and the value or the error. *)
Definition boot (A : Type) : Type := list Stage * result A CacheCatError.

Definition reached {A} (st : Stage) (r : result A CacheCatError) : boot A :=
  match r with Ok a => ([st], Ok a) | Err e => ([], Err e) end.

Definition boot_bind {A B} (m : boot A) (k : A -> boot B) : boot B :=
  match m.2 with Ok a => (m.1 ++ (k a).1, (k a).2) | Err e => (m.1, Err e) end.

(** [Path::join] of a relative name. *)
Definition path_join (dir name : bytes) : bytes :=
  match last dir with
  | None => name
  | Some b => if bool_decide (b = x2f) then dir ++ name else dir ++ [x2f] ++ name
  end.

Definition create_raft_engine (w : World) (path : bytes) : result unit CacheCatError :=
  let? _ := if dir_exists w path then Ok tt else map_err io_error_from (create_dir w path) in
  map_err (fun err => InvalidConfig (str "directory does not exist: " ++ err ++ str "," ++ path)) (open_engine w path).

Section Boot.
Context `{TE : TlsEnv} `{P : Peer}.
Context (w : World).

(** [RaftNode::create]. *)
Definition create (config : ParsedConfig) : boot TlsContext :=
  let path := path_join (log_path config) (str "raft-engine") in
  boot_bind (reached (EngineOpened path) (create_raft_engine w path)) (fun _ =>
  boot_bind (reached StateLoaded (load_state w)) (fun _ =>
  boot_bind (reached TlsLoaded (map_err Tls (tls_context_load config))) (fun tls_context =>
  boot_bind (reached RaftCreated (map_err (fun e => Internal (str "Failed to create raft: " ++ e)) (raft_create w))) (fun _ =>
  ([], Ok tls_context))))).

(** The listener of [start_server], whose result [start_raft_service] waits for. *)
Definition start_server (config : ParsedConfig) : result unit bytes :=
  let addr := raft_addr (raft_advertise_endpoint config) in
  map_err (fun err => str "Failed to bind TCP server to " ++ addr ++ str ": " ++ err) (bind w addr).

(** The addresses at which Redis clients are served. [start_redis_server] runs in
    a task of its own; a listener that cannot be bound ends that task. *)
Definition redis_listeners (config : ParsedConfig) (tls_context : TlsContext) : list bytes :=
  let addr := redis_addr (raft_advertise_endpoint config) in
  match bind w addr with
  | Err _ => []
  | Ok _ =>
      match tls_port config, acceptor_for_client tls_context with
      | Some port, Some _ =>
          let tls := ep_address (raft_endpoint config) ++ [x3a] ++ nat_to_string port in
          match bind w tls with Err _ => [] | Ok _ => [addr; tls] end
      | _, _ => [addr]
      end
  end.

(** How the environment of [join_cluster] encodes and prints. *)
Context (ser : JoinRequest -> result bytes bytes) (de : bytes -> result (result unit bytes) bytes)
  (rpc_display : RPCError -> bytes) (debug_list : list bytes -> bytes).

(** [RaftNode::start]: the service, then the cluster. *)
Definition start_node (config : ParsedConfig) (tls_context : TlsContext) : task (boot unit) :=
  let service := start_server config in
  let tls := match connector_for_cluster tls_context with Some _ => true | None => false end in
  let! r := start config ser de tls rpc_display debug_list service (raft_initialize w) in
  task_ret
    match service with
    | Err msg => ([], r)
    | Ok _ => boot_bind ([RpcListening (raft_addr (raft_advertise_endpoint config))], Ok tt) (fun _ => reached ClusterReady r)
    end.

(** [RaftNodeBuilder::build]. *)
Definition build (c : Config.Config) : task (boot TlsContext) :=
  match (let? _ := validate c in parsed_config_from c) with
  | Err e => task_ret ([], Err e)
  | Ok config =>
      let created := create config in
      match created.2 with
      | Err e => task_ret created
      | Ok tls_context =>
          let! started := start_node config tls_context in
          task_ret (boot_bind created (fun ctx => boot_bind started (fun _ =>
            ([ExpirationTask (cleaning_interval config); StateSyncTask 1], Ok ctx))))
      end
  end.

(** ** The stages come in order *)

Definition plan (config : ParsedConfig) : list Stage :=
  [EngineOpened (path_join (log_path config) (str "raft-engine")); StateLoaded; TlsLoaded; RaftCreated;
   RpcListening (raft_addr (raft_advertise_endpoint config)); ClusterReady;
   ExpirationTask (cleaning_interval config); StateSyncTask 1].

(** [m] has come through the first stages of [p], all of them if it succeeded. *)
Definition follows {A} (p : list Stage) (m : boot A) : Prop :=
  match m.2 with Ok _ => m.1 = p | Err _ => exists st rest, p = m.1 ++ st :: rest end.

Lemma follows_reached {A} st (r : result A CacheCatError) : follows [st] (reached st r).
Proof. destruct r; cbn; [done|]. by exists st, []. Qed.

Lemma follows_bind {A B} p q (m : boot A) (k : A -> boot B) :
  follows p m -> (forall a, m.2 = Ok a -> follows q (k a)) -> follows (p ++ q) (boot_bind m k).
Proof.
  destruct m as [l [a|e]]; unfold follows, boot_bind; cbn.
  - intros -> Hk. specialize (Hk a eq_refl). destruct (k a) as [l' [b|e]]; cbn in *; [by rewrite Hk|].
    destruct Hk as (st & rest & ->). exists st, rest. by rewrite <- app_assoc.
  - intros (st & rest & ->) _. exists st, (rest ++ q). by rewrite <- app_assoc.
Qed.

Lemma create_follows config : follows (take 4 (plan config)) (create config).
Proof.
  change (take 4 (plan config)) with ([EngineOpened (path_join (log_path config) (str "raft-engine"))] ++ [StateLoaded] ++ [TlsLoaded] ++ [RaftCreated] ++ []).
  repeat (apply follows_bind; [apply follows_reached|intros _ _ || intros ctx _]). done.
Qed.

Lemma start_node_follows config ctx n r n' : start_node config ctx n = Done r n' ->
  follows [RpcListening (raft_addr (raft_advertise_endpoint config)); ClusterReady] r /\ (r.2 = Ok tt -> start_server config = Ok tt).
Proof.
  unfold start_node, task_bind. destruct (start _ _ _ _ _ _ _ _ n) as [res n1|n1|] eqn:Es; [|done|done]. intros [= <- <-].
  destruct (start_server config) as [[]|msg] eqn:Ess.
  - split; [|done]. apply (follows_bind [_] [ClusterReady]); [done|]. intros _ _. apply follows_reached.
  - cbn in Es. injection Es as <- _. split; [|done]. by eexists _, _.
Qed.

End Boot.

(** ** Witnesses *)

(** Nothing fails but the listener for Redis clients. *)
Definition sample_world : World :=
  mkWorld (fun _ => true) (fun _ => Ok tt) (fun _ => Ok tt) (Ok tt) (Ok tt)
    (fun addr => if bool_decide (addr = str "0.0.0.0:6379") then Err (str "address in use") else Ok tt) (Ok tt).

Definition no_tls : TlsEnv := {|
  Cert := unit; PrivateKey := unit; Roots := unit; Verifier := unit; ServerTls := unit; ClientTls := unit;
  read_file := fun _ => Err []; pem_certs := fun _ => Err []; pkcs8_private_key := fun _ => None; rsa_private_key := fun _ => None;
  ec_private_key := fun _ => None; roots_empty := tt; roots_add := fun _ _ => Ok tt; client_verifier := fun _ => Ok tt;
  server_config := fun _ _ _ _ => Ok tt; client_config := fun _ _ _ _ => Ok tt
|}.

Definition sample_build : task (boot TlsContext) :=
  build (TE := no_tls) (P := flaky_peer) sample_world (fun _ => Ok []) (fun _ => Ok (Ok tt)) (fun _ => []) (fun _ => []) config_default.


(** Nobody notices that Redis clients cannot connect: the start succeeds. *)
Example redis_failure_unnoticed :
  match (let? _ := validate config_default in parsed_config_from config_default), sample_build (mkNet [] []) with
  | Ok config, Done (stages, Ok ctx) _ => stages = plan config /\ redis_listeners (TE := no_tls) sample_world config ctx = []
  | _, _ => False
  end.
Proof. vm_compute. split; reflexivity. Qed.
