(* ===== verification/App.v ===== *)
(** * App: reads and writes on a node.

    Models [CacheCatApp::write], [read] and [multi_read]
    (src/cache_cat/src/raft/types/raft_types.rs) and the RPC [write] of
    src/cache_cat/src/raft/network/external_handler.rs.

    What Raft decides is an argument: whether it takes a request, which entries
    of other clients it applies first, and whether the node may read under its
    lease. *)

From S2P Require Import Prelude Text F64 Reply Errors SortedSet TimeWheel Mocha Ops Store Refine Spop StringCmd KeyCmd Memory Handler Answers Script Typed StateMachine.

Section App.
Context {LogId Membership : Type}.
Abbreviation StateMachineData := (StateMachineData (LogId := LogId) (Membership := Membership)).
Abbreviation LogEntry := (LogEntry (LogId := LogId) (Membership := Membership)).

(** [client_write]: refused, or committed under [id] after the entries [before]. *)
Inductive Commit :=
| Refused (reason : bytes)
| Committed (before : list LogEntry) (id : LogId).

(** [lease_read]: no lease, or not ready, or ready once [before] is applied. *)
Inductive Lease :=
| NoLease (reason : bytes)
| NotReady (reason : bytes)
| Leased (before : list LogEntry).

Context `{E : Env} `{OF : OrderedFloat} `{ME : MemEnv} `{LE : LuaEnv}.

(** Committing [request]: it is applied after [before] and its reply returned. *)
Definition client_write (sm : StateMachineData) (request : Request) (r : Commit)
    : outcome (StateMachineData * result Value bytes) :=
  match r with
  | Refused reason => Ret (sm, Err reason)
  | Committed before id =>
      match apply sm (Ok <$> before ++ [mkLogEntry id (Normal request)]) with
      | Ret (sm', vs, _) => Ret (sm', ok_or (last vs) (str "no response"))
      | Panic => Panic
      | OutOfFuel => OutOfFuel
      end
  end.

Definition write (sm : StateMachineData) (system_now : Z) (op : Operation) (db_number : Z) (r : Commit)
    : outcome (StateMachineData * result Value CacheCatError) :=
  let write_clock := generate_new_write_clock (kvs sm) system_now in
  match client_write sm (request_new write_clock db_number op) r with
  | Ret (sm', Ok v) => Ret (sm', Ok v)
  | Ret (sm', Err e) => Ret (sm', Err (Storage (WriteFailed e)))
  | Panic => Panic
  | OutOfFuel => OutOfFuel
  end.

(** The RPC handler: the request arrives with the clock of another node. *)
Definition rpc_write (sm : StateMachineData) (system_now : Z) (req : Request) (r : Commit)
    : outcome (StateMachineData * result Value bytes) :=
  client_write sm (set_request_clock req (generate_new_write_clock (kvs sm) system_now)) r.

Definition read (sm : StateMachineData) (system_now : Z) (param : ReadOperation) (db_number : Z) (l : Lease)
    : outcome (StateMachineData * result Value CacheCatError) :=
  match l with
  | NoLease reason => Ret (sm, Err (Storage (ReadFailed reason)))
  | NotReady reason => Ret (sm, Err (Storage (WriteFailed reason)))
  | Leased before =>
      match apply sm (Ok <$> before) with
      | Panic => Panic
      | OutOfFuel => OutOfFuel
      | Ret (sm1, _, _) =>
          let '(c1, read_clock) := get_and_update_read_clock (kvs sm1) system_now in
          match read_request c1 param db_number (Some read_clock) with
          | Ret (c2, v) => Ret (with_kvs sm1 c2, Ok v)
          | Panic => Panic
          | OutOfFuel => OutOfFuel
          end
      end
  end.

(** [multi_read] also takes the lock that [apply] holds; a request is one step
    here anyway. *)
Definition multi_read := read.

(** ** Clocks *)

Context `{!EnvOk E} `{SS : !ScriptSpec LE}.

Lemma read_clock_inv c t : CacheInv c -> CacheInv (get_and_update_read_clock c t).1.
Proof. intros [H1 H2 H3 H4 H5 H6]. by constructor. Qed.

Lemma apply_loop_snoc (entries : list LogEntry) (e : LogEntry) : forall c meta u c1 meta1 u1 vs,
  apply_loop c meta u (Ok <$> entries) = Ret (c1, meta1, u1, vs, Ok tt) ->
  apply_loop c meta u (Ok <$> entries ++ [e]) =
    match apply_entry c1 meta1 u1 e with
    | Ret (c2, meta2, u2, v) => Ret (c2, meta2, u2, vs ++ [v], Ok tt)
    | Panic => Panic
    | OutOfFuel => OutOfFuel
    end.
Proof.
  induction entries as [|x entries IH]; intros c meta u c1 meta1 u1 vs H.
  - injection H as <- <- <- <-. cbn. by destruct (apply_entry _ _ _ e) as [[[[? ?] ?] ?]| |].
  - cbn [app fmap list_fmap apply_loop] in *. destruct (apply_entry c meta u x) as [[[[cx mx] ux] vx]| |]; [|done..].
    destruct (apply_loop cx mx ux (Ok <$> entries)) as [[[[[cy my] uy] vsy] ry]| |] eqn:Er; [|done..].
    injection H as -> -> -> <- ->. rewrite (IH _ _ _ _ _ _ _ Er). by destruct (apply_entry c1 meta1 u1 e) as [[[[? ?] ?] ?]| |].
Qed.

(** A committed write does to the store what the specification says, at the
    clock it was stamped with or the clock of the log if that is later, after
    the entries that were committed before it. *)
Lemma write_committed sm now op n before id :
  CacheInv (kvs sm) -> op_fits op -> 0 <= n < 2 ^ 16 -> Forall (entry_ok script_fits) before ->
  exists st sm' v, log_runs (view (kvs sm)) before st /\
    let clk := Z.max st.1 (generate_new_write_clock (kvs sm) now mod 2 ^ 48) in
    write sm now op n (Committed before id) = Ret (sm', Ok v) /\ CacheInv (kvs sm') /\
    write_logic_clock (kvs sm') = clk /\ op_answers clk clk n op (live clk <$> st.2) (abs (kvs sm')) v.
Proof.
  intros Hc Hop Hn Hb. unfold write, client_write, apply.
  set (w := generate_new_write_clock (kvs sm) now) in *. set (e := mkLogEntry id (Normal (request_new w n op))).
  destruct (apply_loop_refines before (kvs sm) (raft_meta_data sm)
    (mkUpdate 0 0 (if decide (snapshot_state (raft_meta_data sm) = Start) then Snapshot (incremental_operation_queue sm) else UNone)))
    as (c1 & meta1 & u1 & vs & E1 & Hc1 & Hv1 & _ & _ & Hu1); [done|done|cbn; by case_decide|].
  rewrite (apply_loop_snoc _ e _ _ _ _ _ _ _ E1). unfold apply_entry. cbn [payload e].
  assert (split_u64 (request_new w n op) = (w mod 2 ^ 48, n)) as ->.
  { rewrite split_u64_val. cbn [request_new number]. rewrite merge_u64_val by lia.
    rewrite (Z.add_comm (_ * 2 ^ 16)), Z.div_add, Z.mod_add, (Z.div_small n), (Z.mod_small n) by lia. done. }
  assert (is_u64 (w mod 2 ^ 48)) as Ht by (pose proof (Z.mod_pos_bound w (2 ^ 48) ltac:(lia)); unfold is_u64; lia).
  pose proof (set_write_clock_refines c1 (w mod 2 ^ 48) Hc1 Ht) as Hs. destruct (set_write_clock c1 (w mod 2 ^ 48)) as [c2 t].
  destruct Hs as (-> & Hk & Hnow & Hc2 & Ha2). set (clk := Z.max (write_logic_clock c1) (w mod 2 ^ 48)) in *.
  destruct (request_op_answers LE clk clk n op c2 (mkUpdate n clk (update_type u1))) as (c' & u' & v & E2 & Hc' & Ha' & Hk' & _);
    [by split_and!|done|].
  cbn [operation request_new]. rewrite E2. eexists (view c1), _, v. split; [done|]. split; [by rewrite last_snoc|].
  rewrite Ha2 in Ha'. split_and!; [done| |done]. cbn [kvs]. by rewrite Hk', Hk.
Qed.

(** C29: what a read has seen expire, a later write does not find. When a read
    on this node was stamped with the clock [rc], the next write gets a clock of
    at least [rc]; it is applied to contents in which every key whose deadline
    the read had passed is gone, so no command can act on a key that a client
    has been told is missing. *)
Theorem write_after_read sm t1 t2 op n id c1 rc :
  CacheInv (kvs sm) -> op_fits op -> 0 <= read_logic_clock (kvs sm) -> 0 <= n < 2 ^ 16 ->
  get_and_update_read_clock (kvs sm) t1 = (c1, rc) ->
  let w := generate_new_write_clock c1 t2 in
  w < 2 ^ 48 ->
  exists sm' v, write (with_kvs sm c1) t2 op n (Committed [] id) = Ret (sm', Ok v) /\
    let now := Z.max (write_logic_clock (kvs sm)) w in
    rc <= now /\ op_answers now now n op (live now <$> abs (kvs sm)) (abs (kvs sm')) v /\
    forall i m k e a, abs (kvs sm) !! i = Some m -> m !! k = Some e -> e_expire_at e = Some a -> a <= rc ->
      (live now m) !! k = None.
Proof.
  intros Hc Hop Hr0 Hn Hrc w Hw. unfold get_and_update_read_clock in Hrc. injection Hrc as Hc1 Hrc.
  assert (rc <= w /\ 0 <= w) as [Hle Hw0] by (unfold w, generate_new_write_clock; rewrite <- Hc1; cbn; lia).
  assert (CacheInv c1) as Hinv by (rewrite <- Hc1; apply (read_clock_inv (kvs sm) t1 Hc)).
  assert (write_logic_clock c1 = write_logic_clock (kvs sm) /\ abs c1 = abs (kvs sm)) as [Hwc Hab] by (by rewrite <- Hc1).
  destruct (write_committed (with_kvs sm c1) t2 op n [] id) as (st & sm' & v & Hst & Hwr & _ & _ & Hans); [done..|].
  inversion Hst; subst st. cbn [view fst snd kvs with_kvs] in Hans. fold w in Hans.
  rewrite (Z.mod_small w), Hwc, Hab in Hans by lia.
  exists sm', v. split; [done|]. split_and!; [lia|done|].
  intros i m k x a Hi Hk Hx Hdue. rewrite live_lookup, Hk. unfold is_expired. rewrite Hx.
  destruct (Z.leb_spec a (Z.max (write_logic_clock (kvs sm)) w)); [done|lia].
Qed.
End App.

Lemma write_after_read_witness : exists (sm' : StateMachineData (LogId := nat) (Membership := unit)) v,
  write (E := Spop.first_env) (OF := ordered_float) (ME := no_mem) (LE := no_lua)
    (with_kvs (state_machine_new 1) (get_and_update_read_clock (my_cache_new 1) 100).1) 50 (Base (Incr (mkIncrReq (str "k")))) 0 (Committed [] 1%nat)
  = Ret (sm', Ok v).
Proof.
  destruct (write_after_read (E := Spop.first_env) (EnvOk0 := Spop.first_env_ok) (ME := no_mem) (SS := no_scripts no_lua)
    (state_machine_new (LogId := nat) (Membership := unit) 1) 100 50 (Base (Incr (mkIncrReq (str "k")))) 0 1%nat
    (get_and_update_read_clock (my_cache_new 1) 100).1 100) as (sm' & v & H & _).
  - apply cache_new_inv.
  - exact I.
  - apply Z.leb_le. reflexivity.
  - split; [apply Z.leb_le|apply Z.ltb_lt]; reflexivity.
  - reflexivity.
  - apply Z.ltb_lt. vm_compute. reflexivity.
  - exists sm', v. exact H.
Defined.
