(* ===== verification/Node.v ===== *)
(** * Node: the background work of a node.

    Models the tick of [timed_expiration] in
    src/cache_cat/src/node/raft_builder.rs, with [time_gap] of
    src/cache_cat/src/utils/times.rs, the options a node gives openraft
    ([RaftNode::create] in src/cache_cat/src/node/raft_node.rs) and the handlers
    [print_test], [read] and [batch_write] of
    src/cache_cat/src/raft/network/external_handler.rs ([write] is in App). *)

From S2P Require Import Prelude Text F64 Reply Errors SortedSet TimeWheel Mocha Ops Store Refine Spop StringCmd KeyCmd Memory Handler Answers Script Typed StateMachine App.
From S2P Require Import Config.

(** ** The options of openraft *)

Record RaftOptions := mkRaftOptions {
  heartbeat_interval : Z;
  election_timeout_min : Z;
  opt_election_timeout_max : Z;
  purge_batch_size : Z;
  max_in_snapshot_log_to_keep : Z;
  opt_snapshot_policy : SnapshotPolicy;
  opt_replication_lag_threshold : Z
}.

Definition raft_options (config : ParsedConfig) : RaftOptions :=
  mkRaftOptions 500 (Config.election_timeout config) (wrap_u64 (Config.election_timeout config + 300)) 256
    (wrap_u64 (Config.replication_lag_threshold config + 100)) (Config.snapshot_policy config) (Config.replication_lag_threshold config).

(** ** Cleaning expired entries *)

(** Seconds since [old_time]; clocks are in milliseconds. *)
Definition time_gap (now_ms old_time : Z) : Z := Z.max 0 (now_ms - old_time) / 1000.

(** [has_expired_by_local_clock_async] of every database. *)
Fixpoint any_expired (now now_local : Z) (dbs : list (Mocha MyValue)) : list (Mocha MyValue) * bool :=
  match dbs with
  | [] => ([], false)
  | db :: dbs' =>
      let '(db', expired) := has_expired_by_local_clock now now_local db in
      let '(rest, have_expired) := any_expired now now_local dbs' in
      (db' :: rest, (expired || have_expired)%bool)
  end.

(** One round of the loop: the cache, whose workers have been asked, and the
    request that is written to the log. *)
Definition expiration_tick (c : MyCache) (now_ms duration : Z) (is_leader : bool) : MyCache * option Request :=
  if time_gap now_ms (write_logic_clock c) <? duration then (c, None)
  else if negb is_leader then (c, None)
  else
    let '(dbs, have_expired) := any_expired (write_logic_clock c) now_ms (Store.databases c) in
    let c' := mkMyCache dbs (read_logic_clock c) (write_logic_clock c) (heap c) in
    if have_expired then (c', Some (request_new (generate_new_write_clock c' now_ms) 0 (Base Ops.Empty))) else (c', None).

(** An entry of some database whose deadline is at or before [t]. *)
Definition holds_expired (t : Z) (c : MyCache) : Prop :=
  exists i db k e a, Store.databases c !! i = Some db /\ map_ db !! k = Some e /\ e_expire_at e = Some a /\ a <= t.

Lemma has_expired_keeps now now_local (db : Mocha MyValue) : MochaInv now db ->
  let db' := (has_expired_by_local_clock now now_local db).1 in
  MochaInv now db' /\ live now (map_ db') = live now (map_ db).
Proof.
  intros Hm. unfold has_expired_by_local_clock.
  destruct (send_and_wait_spec now db (HasExpiredByLocalClock now_local) eq_refl Hm) as (m1 & H1 & _ & Hlive & ->).
  cbn. split; [done|]. apply Hlive. lia.
Qed.

Lemma any_expired_spec now now_local dbs : Forall (MochaInv now) dbs ->
  let '(dbs', b) := any_expired now now_local dbs in
  Forall2 (fun db db' => MochaInv now db' /\ live now (map_ db') = live now (map_ db)) dbs dbs' /\
  (b = true <-> exists i db k e a, dbs' !! i = Some db /\ map_ db !! k = Some e /\ e_expire_at e = Some a /\ a <= now_local).
Proof.
  induction dbs as [|db dbs IH]; intros Hf; cbn [any_expired].
  { split; [done|]. split; [done|]. by intros (i & db & k & e & a & H & _). }
  apply Forall_cons in Hf as [Hm Hf]. specialize (IH Hf).
  pose proof (has_expired_keeps now now_local db Hm) as Hk. pose proof (has_expired_by_local_clock_exact now now_local db Hm) as Hx.
  destruct (has_expired_by_local_clock now now_local db) as [db' b]. destruct (any_expired now now_local dbs) as [rest br].
  destruct IH as [IH1 IH2], Hx as [_ Hx]. split; [by constructor|]. rewrite orb_true_iff, Hx, IH2. split.
  - intros [(k & e & a & H)|(i & d & k & e & a & H)]; [by exists 0%nat, db', k, e, a|by exists (S i), d, k, e, a].
  - intros ([|i] & d & k & e & a & Hi & H); [left; injection Hi as ->; by exists k, e, a|right; by exists i, d, k, e, a].
Qed.

Lemma tick_inv c now_ms duration is_leader : CacheInv c ->
  let c' := (expiration_tick c now_ms duration is_leader).1 in
  CacheInv c' /\ abs c' = abs c /\ write_logic_clock c' = write_logic_clock c /\ read_logic_clock c' = read_logic_clock c.
Proof.
  intros Hc. unfold expiration_tick. destruct (_ <? duration); [done|]. destruct (negb is_leader); [done|].
  pose proof (any_expired_spec (write_logic_clock c) now_ms (Store.databases c)) as H.
  destruct (any_expired _ _ _) as [dbs b]. destruct H as [Hdbs _].
  { apply Forall_lookup. intros i db Hi. by apply (inv_mocha c Hc i). }
  assert (Hinv : CacheInv (mkMyCache dbs (read_logic_clock c) (write_logic_clock c) (heap c))).
  { apply shrink_inv; [done|]. eapply Forall2_impl; [exact Hdbs|]. cbn. by intros db db' [? ->]. }
  assert (Habs : abs (mkMyCache dbs (read_logic_clock c) (write_logic_clock c) (heap c)) = abs c).
  { unfold abs. cbn. clear Hinv b. induction Hdbs as [|db db' l l' [_ E] _ IH]; [done|]. cbn. f_equal; [|exact IH].
    unfold abs_db. by rewrite E. }
  by destruct b.
Qed.

Lemma expire_all_clean c : CacheInv c -> ~ holds_expired (write_logic_clock c) (expire_all c).
Proof.
  intros Hc (i & db' & k & e & a & Hi & Hk & Ha & Hle). cbn in Hi. rewrite list_lookup_fmap in Hi.
  destruct (Store.databases c !! i) as [db|] eqn:E; [|done]. cbn in Hi. injection Hi as <-.
  destruct (expire_cycle_spec (write_logic_clock c) db (inv_mocha c Hc _ _ E)) as [Hm _]. rewrite Hm, live_lookup in Hk.
  destruct (map_ db !! k) as [x|]; [|done]. unfold is_expired in Hk.
  destruct (e_expire_at x) as [ax|] eqn:Ex; [|injection Hk as <-; congruence].
  destruct (Z.leb_spec ax (write_logic_clock c)); [done|]. injection Hk as <-. rewrite Ha in Ex. injection Ex as <-. lia.
Qed.

Section Cleaning.
Context {LogId Membership : Type} `{E : Env} `{OF : OrderedFloat} `{ME : MemEnv} `{LE : LuaEnv}.
Abbreviation StateMachineData := (StateMachineData (LogId := LogId) (Membership := Membership)).

(** ** Handlers of other nodes' requests *)

Definition print_test (message : bytes) : result bytes bytes := Ok message.

Definition rpc_read (sm : StateMachineData) (system_now : Z) (key : bytes) (db_number : Z) (l : Lease (LogId := LogId) (Membership := Membership))
    : outcome (StateMachineData * result Value bytes) :=
  match read sm system_now (RGet (mkGetParams key)) db_number l with
  | Ret (sm', r) => Ret (sm', map_err (fun e => display_error e None) r)
  | Panic => Panic
  | OutOfFuel => OutOfFuel
  end.

(** The requests keep the clock of the node that sent them. *)
Fixpoint batch_write (sm : StateMachineData) (reqs : list (Request * Commit (LogId := LogId) (Membership := Membership)))
    : outcome (StateMachineData * list (result Value bytes)) :=
  match reqs with
  | [] => Ret (sm, [])
  | (req, commit) :: reqs' =>
      match client_write sm req commit with
      | Ret (sm1, r) =>
          match batch_write sm1 reqs' with
          | Ret (sm2, rs) => Ret (sm2, r :: rs)
          | Panic => Panic
          | OutOfFuel => OutOfFuel
          end
      | Panic => Panic
      | OutOfFuel => OutOfFuel
      end
  end.

(** C30: Cleaning works. A tick writes a request exactly when the node leads, no
    write has moved the clock for [duration] seconds, and the local clock has
    passed the deadline of an entry that is still stored. It does not change what
    clients see, and once its request is committed no database holds an entry
    whose deadline that clock had passed. *)
Theorem expired_entries_are_cleaned (sm : StateMachineData) (now_ms duration : Z) (is_leader : bool) (id : LogId)
    (Hinv : CacheInv (kvs sm)) (Hread : 0 <= read_logic_clock (kvs sm) < 2 ^ 48) (Hnow : 0 <= now_ms < 2 ^ 48) :
  let '(c, request) := expiration_tick (kvs sm) now_ms duration is_leader in
  CacheInv c /\ abs c = abs (kvs sm) /\
  match request with
  | None => is_leader = false \/ time_gap now_ms (write_logic_clock c) < duration \/ ~ holds_expired now_ms c
  | Some req =>
      is_leader = true /\ duration <= time_gap now_ms (write_logic_clock c) /\ holds_expired now_ms c /\
      exists sm', client_write (with_kvs sm c) req (Committed [] id) = Ret (sm', Ok value_ok) /\
        now_ms <= write_logic_clock (kvs sm') /\ ~ holds_expired (write_logic_clock (kvs sm')) (kvs sm') /\
        CacheInv (kvs sm') /\ abs (kvs sm') = live (write_logic_clock (kvs sm')) <$> abs c
  end.
Proof.
  pose proof (tick_inv (kvs sm) now_ms duration is_leader Hinv) as Ht. unfold expiration_tick in *.
  destruct (Z.ltb_spec (time_gap now_ms (write_logic_clock (kvs sm))) duration) as [Hd|Hd]; [cbn in Ht; split_and!; [apply Ht..|]; by right; left|].
  destruct is_leader; cbn [negb] in *; [|cbn in Ht; split_and!; [apply Ht..|by left]].
  pose proof (any_expired_spec (write_logic_clock (kvs sm)) now_ms (Store.databases (kvs sm))) as Hx.
  destruct (any_expired _ _ _) as [dbs b]. destruct Hx as [_ Hx].
  { apply Forall_lookup. intros i db Hi. by apply (inv_mocha _ Hinv i). }
  set (c := mkMyCache dbs _ _ _) in *. destruct b; cbn [fst] in Ht; destruct Ht as (Hc & Ha & Hw & Hr).
  - split_and!; [done|done|done|done|by apply Hx|].
    unfold client_write, apply. cbn [fmap list_fmap app apply_loop kvs with_kvs]. unfold apply_entry. cbn [payload].
    set (w := generate_new_write_clock c now_ms). assert (Hww : now_ms <= w < 2 ^ 48) by (unfold w, generate_new_write_clock; rewrite Hr; lia).
    assert (split_u64 (request_new w 0 (Base Ops.Empty)) = (w, 0)) as ->.
    { rewrite split_u64_val. cbn [request_new number]. rewrite merge_u64_val by lia.
      rewrite Z.add_0_r, (Z.mod_small w) by lia. by rewrite Z.div_mul, Z.mod_mul by lia. }
    pose proof (set_write_clock_refines c w Hc ltac:(unfold is_u64; lia)) as Hs. destruct (set_write_clock c w) as [c2 t].
    destruct Hs as (-> & Hk & _ & Hc2 & Ha2). cbn [operation request_new do_request base_request].
    set (sq := if decide _ then _ else _). destruct (expire_all_refines c2 (mkUpdate 0 (Z.max (write_logic_clock c) w) sq) Hc2) as (Hi3 & Ha3 & _).
    eexists. split; [done|]. cbn [kvs expire_all write_logic_clock]. rewrite Hk. split_and!; [lia| |done|].
    + rewrite <- Hk. by apply expire_all_clean.
    + cbn in Ha3. by rewrite <- Ha2, <- Ha3.
  - split_and!; [done|done|]. right; right. intros H. apply Hx in H. done.
Qed.
End Cleaning.

(** A node that holds a key since 100 ms, with its deadline at 5 seconds. *)
Definition sample_op : Operation := Base (Set_op (mkSetReq (str "k") (str "v") 5000)).

Definition sample_write :=
  write (E := Spop.first_env) (OF := ordered_float) (ME := no_mem) (LE := no_lua) (state_machine_new (LogId := nat) (Membership := unit) 1)
    100 sample_op 0 (Committed [] 1%nat).

Definition sample_node_state : StateMachineData (LogId := nat) (Membership := unit) :=
  match sample_write with Ret (sm, _) => sm | _ => state_machine_new 1 end.

Lemma sample_node_inv : CacheInv (kvs sample_node_state).
Proof.
  destruct (write_committed (E := Spop.first_env) (EnvOk0 := Spop.first_env_ok) (ME := no_mem) (SS := no_scripts no_lua)
    (state_machine_new (LogId := nat) (Membership := unit) 1) 100 sample_op 0 [] 1%nat) as (st & sm' & v & _ & Hw & Hc & _).
  - apply cache_new_inv.
  - cbn. unfold is_u64. lia.
  - lia.
  - apply Forall_nil_2.
  - unfold sample_node_state, sample_write. rewrite Hw. exact Hc.
Qed.

Lemma expired_entries_are_cleaned_witness : exists request sm',
  (expiration_tick (kvs sample_node_state) 20000 10 true).2 = Some request /\
  client_write (E := Spop.first_env) (OF := ordered_float) (ME := no_mem) (LE := no_lua)
    (with_kvs sample_node_state (expiration_tick (kvs sample_node_state) 20000 10 true).1) request (Committed [] 2%nat) = Ret (sm', Ok value_ok) /\
  abs (kvs sm') = [∅].
Proof.
  assert (Hr : read_logic_clock (kvs sample_node_state) = 0) by (vm_compute; reflexivity).
  pose proof (expired_entries_are_cleaned (E := Spop.first_env) (OF := ordered_float) (ME := no_mem) (LE := no_lua)
    sample_node_state 20000 10 true 2%nat sample_node_inv ltac:(rewrite Hr; lia) ltac:(lia)) as H.
  assert (Hs : (expiration_tick (kvs sample_node_state) 20000 10 true).2 = Some (request_new 20000 0 (Base Ops.Empty))) by (vm_compute; reflexivity).
  destruct (expiration_tick (kvs sample_node_state) 20000 10 true) as [c req]. cbn [fst snd] in *. subst req.
  destruct H as (_ & Ha & _ & _ & _ & sm' & Hw & Hle & _ & _ & Habs). exists (request_new 20000 0 (Base Ops.Empty)), sm'.
  split; [reflexivity|]. split; [exact Hw|]. rewrite Habs, Ha. clear -Hle.
  replace (abs (kvs sample_node_state)) with [{[ str "k" := mkEntry (mkPValue 1 (PString (str "v"))) (Some 5000) ]} : gmap bytes (Entry PValue)] by (vm_compute; reflexivity).
  cbn [fmap list_fmap]. f_equal. apply map_eq. intros k. rewrite live_lookup, lookup_empty.
  destruct (decide (str "k" = k)) as [<-|Hk]; [|by rewrite lookup_singleton_ne].
  rewrite lookup_singleton_eq. unfold is_expired. cbn [e_expire_at]. destruct (Z.leb_spec 5000 (write_logic_clock (kvs sm'))); [done|lia].
Defined.
