(* ===== verification/Session.v ===== *)
(** * Session: the commands as a client's requests.

    Models the client of src/cache_cat/src/protocol/command.rs and the [execute]
    methods of the commands under src/cache_cat/src/protocol: the data commands,
    the connection commands, transactions, scripts, publish and subscribe.

    A command takes the client, its arguments and the server, and returns the
    new client and server with the reply. What Raft and the clock decide while it
    runs is in [Inputs]. The commands that report on the process or on the
    cluster (TIME, SAVE, BGSAVE, SHUTDOWN, SENTINEL, CLIENT INFO and the MEMORY
    reports) are a parameter. *)

From S2P Require Import Prelude Text F64 Reply Errors Args SortedSet TimeWheel Mocha Ops Store Refine ListCmd StringCmd KeyCmd HashCmd SetCmd Spop ZSetCmd BitmapCmd HllCmd Memory Handler Script Typed StateMachine PubSub App.

(** ** The client *)

Record ClientFlag := mkClientFlag { in_sub : bool; multi : bool; blocking : bool }.

Record Client := mkClient {
  cl_id : Z;
  cl_db_number : Z;
  transaction_queue : option (list Operation);
  closed : bool;
  authenticated : bool;
  proto_version : Z;
  cl_name : bytes;
  connection_time : Z;
  last_interaction : Z;
  flag : ClientFlag;
  last_cmd : bytes;
  lib_name : bytes;
  lib_ver : bytes
}.

(** [Client::new] with a [RespCodec::new()], which speaks RESP2. *)
Definition client_new (id now : Z) (auth : bool) : Client :=
  mkClient id 0 None false auth 2 [] now now (mkClientFlag false false false) [] [] [].

Definition set_queue (c : Client) (q : option (list Operation)) : Client :=
  mkClient (cl_id c) (cl_db_number c) q (closed c) (authenticated c) (proto_version c) (cl_name c)
    (connection_time c) (last_interaction c) (flag c) (last_cmd c) (lib_name c) (lib_ver c).
Definition set_db (c : Client) (n : Z) : Client :=
  mkClient (cl_id c) n (transaction_queue c) (closed c) (authenticated c) (proto_version c) (cl_name c)
    (connection_time c) (last_interaction c) (flag c) (last_cmd c) (lib_name c) (lib_ver c).
Definition set_closed (c : Client) : Client :=
  mkClient (cl_id c) (cl_db_number c) (transaction_queue c) true (authenticated c) (proto_version c) (cl_name c)
    (connection_time c) (last_interaction c) (flag c) (last_cmd c) (lib_name c) (lib_ver c).
Definition set_authenticated (c : Client) : Client :=
  mkClient (cl_id c) (cl_db_number c) (transaction_queue c) (closed c) true (proto_version c) (cl_name c)
    (connection_time c) (last_interaction c) (flag c) (last_cmd c) (lib_name c) (lib_ver c).
Definition set_proto (c : Client) (p : Z) : Client :=
  mkClient (cl_id c) (cl_db_number c) (transaction_queue c) (closed c) (authenticated c) p (cl_name c)
    (connection_time c) (last_interaction c) (flag c) (last_cmd c) (lib_name c) (lib_ver c).
Definition set_name (c : Client) (s : bytes) : Client :=
  mkClient (cl_id c) (cl_db_number c) (transaction_queue c) (closed c) (authenticated c) (proto_version c) s
    (connection_time c) (last_interaction c) (flag c) (last_cmd c) (lib_name c) (lib_ver c).
Definition set_flag (c : Client) (f : ClientFlag) : Client :=
  mkClient (cl_id c) (cl_db_number c) (transaction_queue c) (closed c) (authenticated c) (proto_version c) (cl_name c)
    (connection_time c) (last_interaction c) f (last_cmd c) (lib_name c) (lib_ver c).
Definition set_lib (c : Client) (n v : bytes) : Client :=
  mkClient (cl_id c) (cl_db_number c) (transaction_queue c) (closed c) (authenticated c) (proto_version c) (cl_name c)
    (connection_time c) (last_interaction c) (flag c) (last_cmd c) n v.
Definition touch (c : Client) (now : Z) : Client :=
  mkClient (cl_id c) (cl_db_number c) (transaction_queue c) (closed c) (authenticated c) (proto_version c) (cl_name c)
    (connection_time c) now (flag c) (last_cmd c) (lib_name c) (lib_ver c).
Definition set_last_cmd (c : Client) (s : bytes) : Client :=
  mkClient (cl_id c) (cl_db_number c) (transaction_queue c) (closed c) (authenticated c) (proto_version c) (cl_name c)
    (connection_time c) (last_interaction c) (flag c) s (lib_name c) (lib_ver c).

Definition set_multi (f : ClientFlag) (b : bool) : ClientFlag := mkClientFlag (in_sub f) b (blocking f).
Definition set_in_sub (f : ClientFlag) (b : bool) : ClientFlag := mkClientFlag b (multi f) (blocking f).

(** [parse_command]. *)
Definition parse_command (v : Value) : parsed (bytes * list Value) :=
  match v with
  | Array (Some ((name :: _) as items)) =>
      let? w := ok_or (word_of name) (InvalidFormat (str "invalid command name")) in Ok (w, items)
  | _ => Err (InvalidFormat (str "expected array"))
  end.

(** ** Parameters of the connection commands *)

(** [HelloParam]; the user name is parsed and not used. *)
Record HelloParam := mkHelloParam {
  hello_proto : option Z;
  hello_username : option bytes;
  hello_password : option bytes;
  hello_client_name : option bytes
}.

Definition hello_version (v : Value) : parsed Z :=
  let? requested :=
    match v with
    | Integer n =>
        if ((n <? 0) || (255 <? n))%bool then Err (Custom (str "NOPROTO unsupported protocol version")) else Ok n
    | BulkString (Some data) =>
        ok_or (parse_u8_str (from_utf8_lossy data)) (Custom (str "ERR Protocol version is not an integer or out of range"))
    | BulkString None => Err (InvalidArgument (str "protocol version cannot be null"))
    | _ => Err (InvalidArgument (str "protocol version must be integer or string"))
    end in
  if ((requested =? 2) || (requested =? 3))%bool then Ok requested
  else Err (Custom (str "NOPROTO unsupported protocol version")).

(** A string, or nothing for a null bulk string. *)
Definition hello_string (v : Value) (e : ProtocolError) : parsed (option bytes) :=
  match v with
  | BulkString (Some data) => Ok (Some (from_utf8_lossy data))
  | BulkString None => Ok None
  | SimpleString s => Ok (Some s)
  | _ => Err e
  end.

(** The loop over AUTH and SETNAME. *)
Fixpoint hello_options (p : HelloParam) (items : list Value) : parsed HelloParam :=
  match items with
  | [] => Ok p
  | option_word :: items =>
      match word_of option_word with
      | None => Err (InvalidArgument (str "HELLO option must be AUTH or SETNAME"))
      | Some w =>
          if is_word w "AUTH" then
            match items with
            | [] => Err (WrongArgCount (str "HELLO AUTH"))
            | user :: items =>
                let? username := hello_string user (InvalidArgument (str "AUTH username must be string")) in
                match items with
                | [] => Err (WrongArgCount (str "HELLO AUTH missing password"))
                | pass :: items' =>
                    let? given := hello_string pass (InvalidArgument (str "AUTH password must be string")) in
                    match given with
                    | None => Err (InvalidArgument (str "AUTH password cannot be null"))
                    | Some _ =>
                        hello_options (mkHelloParam (hello_proto p)
                          (match username with Some _ => username | None => hello_username p end)
                          given (hello_client_name p)) items'
                    end
                end
            end
          else if is_word w "SETNAME" then
            match items with
            | [] => Err (WrongArgCount (str "HELLO SETNAME"))
            | name :: items' =>
                let? name := hello_string name (InvalidArgument (str "client name must be string")) in
                hello_options (mkHelloParam (hello_proto p) (hello_username p) (hello_password p) name) items'
            end
          else Err (UnknownCommand (str "HELLO"))
      end
  end.

Definition hello_parse (items : list Value) : parsed HelloParam :=
  match items with
  | [] => Err (WrongArgCount (str "HELLO"))
  | [_] => Ok (mkHelloParam None None None None)
  | _ :: v :: items' =>
      let? proto := hello_version v in
      hello_options (mkHelloParam (Some proto) None None None) items'
  end.

(** ** Parameters of the script commands *)

Definition evalsha_parse := eval_parse "evalsha" "sha1".

Inductive FlushMode := FlushSync | FlushAsync.
Inductive ScriptDebugMode := DebugYes | DebugSync | DebugNo.

Inductive ScriptParam :=
| ScriptLoad (script : bytes)
| ScriptExists (sha1s : list bytes)
| ScriptFlush (flush_mode : FlushMode)
| ScriptKill
| ScriptDebug (mode : ScriptDebugMode).

Definition string_from_value (v : Value) : parsed bytes :=
  ok_or
    match v with
    | BulkString (Some data) => let* cs := from_utf8 data in Some (concat cs)
    | SimpleString s => Some s
    | _ => None
    end (InvalidArgument (str "script")).

Fixpoint strings_from_values (items : list Value) : parsed (list bytes) :=
  match items with
  | [] => Ok []
  | v :: items' => let? s := string_from_value v in let? l := strings_from_values items' in Ok (s :: l)
  end.

(** [to_uppercase] of a [String]. *)
Definition upper (s : bytes) : bytes := to_uppercase (lossy_chars s).

(** [items[1]] is read when only [items.is_empty()] has been ruled out. *)
Definition script_parse (items : list Value) : outcome (parsed ScriptParam) :=
  match items with
  | [] => Ret (Err (WrongArgCount (str "script")))
  | [_] => Panic
  | _ :: sub :: rest => Ret (
      let? cs := ok_or (as_str_lossy sub) (InvalidArgument (str "script subcommand")) in
      let sub_cmd := to_uppercase cs in
      if is_word sub_cmd "LOAD" then
        match rest with
        | [v] => let? script := string_from_value v in Ok (ScriptLoad script)
        | _ => Err (WrongArgCount (str "script|load"))
        end
      else if is_word sub_cmd "EXISTS" then
        let? sha1s := strings_from_values rest in Ok (ScriptExists sha1s)
      else if is_word sub_cmd "FLUSH" then
        match rest with
        | [] => Ok (ScriptFlush FlushSync)
        | [v] =>
            let? mode_str := string_from_value v in
            if is_word (upper mode_str) "ASYNC" then Ok (ScriptFlush FlushAsync)
            else if is_word (upper mode_str) "SYNC" then Ok (ScriptFlush FlushSync)
            else Err (InvalidArgument (str "flush mode"))
        | _ => Err (WrongArgCount (str "script|flush"))
        end
      else if is_word sub_cmd "KILL" then
        match rest with [] => Ok ScriptKill | _ => Err (WrongArgCount (str "script|kill")) end
      else if is_word sub_cmd "DEBUG" then
        match rest with
        | [v] =>
            let? mode_str := string_from_value v in
            if is_word (upper mode_str) "YES" then Ok (ScriptDebug DebugYes)
            else if is_word (upper mode_str) "SYNC" then Ok (ScriptDebug DebugSync)
            else if is_word (upper mode_str) "NO" then Ok (ScriptDebug DebugNo)
            else Err (InvalidArgument (str "debug mode"))
        | _ => Err (WrongArgCount (str "script|debug"))
        end
      else Err (InvalidArgument (str "unknown script subcommand")))
  end.

(** ** Parameters of the publish and subscribe commands *)

Definition publish_parse (items : list Value) : parsed (bytes * bytes) :=
  if argc items =? 3 then
    let? channel := string_or items 1 (WrongArgCount (str "publish")) in
    let? message := string_or items 2 (WrongArgCount (str "publish")) in
    Ok (channel, message)
  else Err (WrongArgCount (str "publish")).

Inductive PubSubSubCommand :=
| Channels (pattern : option bytes)
| NumSub (channels : list bytes)
| NumPat.

Definition pubsub_parse (items : list Value) : parsed PubSubSubCommand :=
  if argc items <? 2 then Err (WrongArgCount (str "pubsub"))
  else
    let? cs := ok_or (as_str_lossy (item items 1)) (InvalidArgument (str "Invalid subcommand format")) in
    let subcommand_str := ascii_upper <$> concat cs in
    if is_word subcommand_str "CHANNELS" then
      if 3 <=? argc items then
        let? pattern := string_item items 2 (str "Invalid pattern format") in Ok (Channels (Some pattern))
      else Ok (Channels None)
    else if is_word subcommand_str "NUMSUB" then
      let? channels := strings_from items 2 (InvalidArgument (str "Invalid channel format")) in Ok (NumSub channels)
    else if is_word subcommand_str "NUMPAT" then
      if 2 <? argc items then Err (WrongArgCount (str "pubsub numpat")) else Ok NumPat
    else Err (UnknownCommand (str "Unknown PUBSUB subcommand: " ++ subcommand_str)).

(** SUBSCRIBE and PSUBSCRIBE. *)
Definition subscribe_parse (t : target) (items : list Value) : parsed (list bytes) :=
  if argc items <? 2 then Err (WrongArgCount (verb t false)) else strings_from items 1 (WrongArgCount (verb t false)).

(** UNSUBSCRIBE and PUNSUBSCRIBE: [None] is everything. *)
Definition unsubscribe_parse (t : target) (items : list Value) : parsed (option (list bytes)) :=
  if argc items =? 1 then Ok None
  else let? l := strings_from items 1 (WrongArgCount (verb t true)) in Ok (Some l).

(** The four parsers. *)
Definition subscribe_params := subscribe_parse Channel.
Definition psubscribe_params := subscribe_parse Pattern.
Definition unsubscribe_params := unsubscribe_parse Channel.
Definition punsubscribe_params := unsubscribe_parse Pattern.

(** ** The server *)

Section Server.
Context {LogId Membership : Type}.
Abbreviation StateMachineData := (StateMachineData (LogId := LogId) (Membership := Membership)).
Abbreviation Commit := (Commit (LogId := LogId) (Membership := Membership)).
Abbreviation Lease := (Lease (LogId := LogId) (Membership := Membership)).

(** The state machine, the subscriptions, the scripts by their SHA1 and the
    configured password. *)
Record Server := mkServer {
  state_machine : StateMachineData;
  broadcast : PubSub;
  script_map : gmap bytes bytes;
  password : option bytes
}.

Definition set_machine (s : Server) (sm : StateMachineData) : Server :=
  mkServer sm (broadcast s) (script_map s) (password s).
Definition set_broadcast (s : Server) (ps : PubSub) : Server :=
  mkServer (state_machine s) ps (script_map s) (password s).
Definition set_scripts (s : Server) (m : gmap bytes bytes) : Server :=
  mkServer (state_machine s) (broadcast s) m (password s).

(** The system clock, what Raft decides, and whether the interpreter's flag lets
    SCRIPT KILL interrupt it. *)
Record Inputs := mkInputs { in_now : Z; in_commit : Commit; in_lease : Lease; in_interrupted : bool }.

(** The new client and server, and the reply or the error. *)
Abbreviation answer := (outcome (Client * Server * result Value CacheCatError)).
Abbreviation command := (Inputs -> Client -> list Value -> Server -> answer).

(** The iteration orders of the subscription tables, the SHA1 of a script in
    hexadecimal, the version of the package, and what the commands that are not
    modelled answer: they change nothing that is modelled. *)
Class ServerEnv := {
  name_iter : gset bytes -> list bytes;
  id_iter : gset Z -> list Z;
  registry_iter : gmap bytes (gset Z) -> list (bytes * gset Z);
  sha1_hex : bytes -> bytes;
  package_version : bytes;
  other_command : bytes -> Inputs -> Client -> list Value -> Server -> result Value CacheCatError
}.

Context `{E : Env} `{OF : OrderedFloat} `{ME : MemEnv} `{LE : LuaEnv} `{SE : ServerEnv}.

Definition reply (c : Client) (s : Server) (v : Value) : answer := Ret (c, s, Ok v).
Definition fail (c : Client) (s : Server) (e : ProtocolError) : answer := Ret (c, s, Err (Protocol e)).

(** ** Data commands *)

(** [server.app.write(operation, client.db_number).await?] and what is made of
    the reply. *)
Definition write_op (i : Inputs) (c : Client) (s : Server) (op : Operation) (post : Value -> Value) : answer :=
  match write (state_machine s) (in_now i) op (cl_db_number c) (in_commit i) with
  | Ret (sm, Ok v) => Ret (c, set_machine s sm, Ok (post v))
  | Ret (sm, Err e) => Ret (c, set_machine s sm, Err e)
  | Panic => Panic
  | OutOfFuel => OutOfFuel
  end.

Definition read_op (i : Inputs) (c : Client) (s : Server) (op : ReadOperation) : answer :=
  match read (state_machine s) (in_now i) op (cl_db_number c) (in_lease i) with
  | Ret (sm, r) => Ret (c, set_machine s sm, r)
  | Panic => Panic
  | OutOfFuel => OutOfFuel
  end.

(** [if let Some(vec) = client.transaction_queue ..], with the text replied. *)
Definition queued (text : String.string) (raft_request : list Value -> parsed Operation) (k : command) : command :=
  fun i c items s =>
    match transaction_queue c with
    | Some vec =>
        match raft_request items with
        | Ok op => reply (set_queue c (Some (vec ++ [op]))) s (SimpleString (str text))
        | Err e => fail c s e
        end
    | None => k i c items s
    end.

(** [RaftCommand] for a [ReadRaftCommand]. *)
Definition write_with (raft_request : list Value -> parsed Operation) (post : Operation -> Value -> Value) : command :=
  fun i c items s =>
    match raft_request items with
    | Ok op => write_op i c s op (post op)
    | Err e => fail c s e
    end.

Definition keep (op : Operation) (v : Value) : Value := v.
Definition always_ok (op : Operation) (v : Value) : Value := value_ok.

Definition read_with (read_operation : list Value -> parsed ReadOperation) : command :=
  fun i c items s =>
    match read_operation items with
    | Ok op => read_op i c s op
    | Err e => fail c s e
    end.

Definition write_command (raft_request : list Value -> parsed Operation) : command :=
  queued "QUEUED" raft_request (write_with raft_request keep).
Definition read_command (read_operation : list Value -> parsed ReadOperation) : command :=
  queued "QUEUED" (read_raft read_operation) (read_with read_operation).

(** The commands whose [execute] is one of these two. *)
Definition hdel_command := write_command hdel_request.
Definition hincrby_command := write_command hincrby_request.
Definition hset_command := write_command hset_request.
Definition hsetnx_command := write_command hsetnx_request.
Definition del_command := write_command del_request.
Definition expire_command := write_command expire_request.
Definition flushall_command := write_command flushall_request.
Definition flushdb_command := write_command flushdb_request.
Definition persist_command := write_command persist_request.
Definition pexpire_command := write_command pexpire_request.
Definition rename_command := write_command rename_request.
Definition renamenx_command := write_command renamenx_request.
Definition unlink_command := write_command unlink_request.
Definition lpop_command := write_command lpop_request.
Definition lpush_command := write_command lpush_request.
Definition lrem_command := write_command lrem_request.
Definition lset_command := write_command lset_request.
Definition ltrim_command := write_command ltrim_request.
Definition rpop_command := write_command rpop_request.
Definition rpush_command := write_command rpush_request.
Definition sadd_command := write_command sadd_request.
Definition sinterstore_command := write_command sinterstore_request.
Definition srem_command := write_command srem_request.
Definition append_command := write_command append_request.
Definition decr_command := write_command decr_request.
Definition decrby_command := write_command decrby_request.
Definition incr_command := write_command incr_request.
Definition incrby_command := write_command incrby_request.
Definition mset_command := write_command mset_request.
Definition zincrby_command := write_command zincrby_request.
Definition spop_command := write_command spop_request.
Definition sdiffstore_command := write_command sdiffstore_request.
Definition sunionstore_command := write_command sunionstore_request.
Definition pfadd_command := write_command pfadd_request.
Definition setnx_command := write_command setnx_request.
Definition getset_command := write_command getset_request.
Definition hgetall_command := read_command hgetall_operation.
Definition hvals_command := read_command hvals_operation.
Definition hget_command := read_command hget_operation.
Definition hkeys_command := read_command hkeys_operation.
Definition hmget_command := read_command hmget_operation.
Definition hexists_command := read_command hexists_operation.
Definition hlen_command := read_command hlen_operation.
Definition llen_command := read_command llen_operation.
Definition lrange_command := read_command lrange_operation.
Definition lindex_command := read_command lindex_operation.
Definition smembers_command := read_command smembers_operation.
Definition sismember_command := read_command sismember_operation.
Definition scard_command := read_command scard_operation.
Definition srandmember_command := read_command srandmember_operation.
Definition get_command := read_command get_operation.
Definition strlen_command := read_command strlen_operation.
Definition exists_command := read_command exists_operation.
Definition sdiff_command := read_command sdiff_operation.
Definition sinter_command := read_command sinter_operation.
Definition sunion_command := read_command sunion_operation.
Definition mget_command := read_command mget_operation.
Definition keys_command := read_command keys_operation.
Definition dbsize_command := read_command dbsize_operation.
Definition pfcount_command := read_command pfcount_operation.
Definition memory_usage_command := read_command memory_usage_operation.

(** The commands that do not look at the transaction. *)
Definition zadd_command : command := write_with zadd_request keep.
Definition zpopmin_command : command := write_with zpopmin_request keep.
Definition zrem_command : command := write_with zrem_request keep.
Definition pttl_command : command := read_with pttl_operation.
Definition ttl_command : command := read_with ttl_operation.
Definition type_command : command := read_with type_operation.
Definition zcard_command : command := read_with zcard_operation.
Definition zrange_command : command := read_with zrange_operation.
Definition zrangebyscore_command : command := read_with zrangebyscore_operation.
Definition zrank_command : command := read_with zrank_operation.
Definition zrevrank_command : command := read_with zrevrank_operation.
Definition zscore_command : command := read_with zscore_operation.

(** The bitmap commands answer with their own name when they are queued. *)
Definition setbit_command := queued "SETBIT" setbit_request (write_with setbit_request keep).
Definition bitfield_command := queued "BITFIELD" bitfield_request (write_with bitfield_request keep).
Definition getbit_command := queued "GETBIT" (read_raft getbit_operation) (read_with getbit_operation).
Definition bitcount_command := queued "BITCOUNT" (read_raft bitcount_operation) (read_with bitcount_operation).
Definition bitpos_command := queued "BITPOS" (read_raft bitpos_operation) (read_with bitpos_operation).

(** SET replies with the value only under GET; SETEX and PSETEX never do. *)
Definition set_post (op : Operation) (v : Value) : Value :=
  match op with Redis (RedisSet p) => if sp_get p then v else value_ok | _ => v end.
Definition set_command := queued "QUEUED" set_request (write_with set_request set_post).
Definition setex_command := queued "QUEUED" setex_request (write_with setex_request always_ok).
Definition psetex_command := queued "QUEUED" psetex_request (write_with psetex_request always_ok).

(** The commands that are not modelled. *)
Definition other (name : String.string) : command :=
  fun i c items s => Ret (c, s, other_command (str name) i c items s).

(** ** Connection commands *)

(** [PingParam::parse]. *)
Definition ping_parse (items : list Value) : parsed (option bytes) :=
  match items with
  | [_] => Ok None
  | [_; BulkString data] => Ok data
  | [_; SimpleString s] => Ok (Some s)
  | [_; Integer i] => Ok (Some (i64_to_string i))
  | [_; _] => Err (InvalidArgument (str "ping supports only string/integer arguments"))
  | _ => Err (WrongArgCount (str "ping"))
  end.

Definition pong (message : option bytes) : Value :=
  match message with None => SimpleString (str "PONG") | Some m => BulkString (Some m) end.

Definition ping_command : command := fun i c items s =>
  match ping_parse items with Ok m => reply c s (pong m) | Err e => fail c s e end.

Definition echo_command : command := fun i c items s =>
  match items with
  | [_; (BulkString _ | SimpleString _ | Integer _ | Error _) as v] => reply c s v
  | [_; _] => fail c s (InvalidArgument (str "argument type"))
  | _ => fail c s (WrongArgCount (str "echo"))
  end.

Definition select_parse (items : list Value) : parsed Z :=
  match items with
  | [] | [_] => Ok 0
  | [_; Integer n] => Ok (n mod 2 ^ 16)
  | [_; SimpleString s] => ok_or (parse_u16_str s) SyntaxError
  | [_; BulkString (Some data)] =>
      ok_or (let* cs := from_utf8 data in parse_u16_str (concat cs)) (WrongArgCount (str "select"))
  | [_; _] => Err SyntaxError
  | _ => Err (WrongArgCount (str "select"))
  end.

Definition select_command : command := fun i c items s =>
  match select_parse items with
  | Ok num =>
      if Z.of_nat (length (databases (kvs (state_machine s)))) mod 2 ^ 16 <=? num then fail c s DbNotExist
      else reply (set_db c num) s value_ok
  | Err e => fail c s e
  end.

Definition quit_command : command := fun i c items s =>
  if 2 <=? argc items then fail c s (WrongArgCount (str "QUIT")) else reply (set_closed c) s value_ok.

Definition auth_command : command := fun i c items s =>
  match items with
  | [_; v] =>
      match as_str_lossy v, password s with
      | None, _ => fail c s SyntaxError
      | Some _, None => fail c s (Custom (str "AUTH called without any password configured"))
      | Some cs, Some configured =>
          if bool_decide (concat cs = configured) then reply (set_authenticated c) s value_ok
          else fail c s (Custom (str "invalid username-password pair"))
      end
  | _ => fail c s (WrongArgCount (str "AUTH"))
  end.

Definition setname_command : command := fun i c items s =>
  match items with
  | [_; _; v] =>
      match as_str_lossy v with
      | Some cs => reply (set_name c (concat cs)) s value_ok
      | None => fail c s (InvalidArgument (str "master name"))
      end
  | _ => fail c s (WrongArgCount (str "SENTINEL GET-MASTER-ADDR-BY-NAME"))
  end.

(** The field and the value are both read from [items[2]]. *)
Definition setinfo_command : command := fun i c items s =>
  match items with
  | [_; _; v; _] =>
      match as_str_lossy v with
      | Some cs =>
          if is_word (to_uppercase cs) "LIB-NAME" then reply (set_lib c (concat cs) (lib_ver c)) s value_ok
          else if is_word (to_uppercase cs) "LIB-VER" then reply (set_lib c (lib_name c) (concat cs)) s value_ok
          else fail c s (InvalidArgument (str "SETINFO sub-option"))
      | None => fail c s (InvalidArgument (str "field"))
      end
  | _ => fail c s (WrongArgCount (str "CLIENT SETINFO"))
  end.

(** [self.sub_commands.get(&sub_command)]. *)
Definition lookup_command (table : list (String.string * command)) (name : bytes) : option command :=
  snd <$> find (fun p => is_word name p.1) table.

Definition with_sub_commands (name : String.string) (table : list (String.string * command)) : command :=
  fun i c items s =>
    match items with
    | _ :: v :: _ =>
        match word_of v with
        | Some w =>
            match lookup_command table w with
            | Some cmd => cmd i c items s
            | None => fail c s (UnknownCommand (str name ++ str " " ++ w))
            end
        | None => fail c s (InvalidArgument (str "subcommand"))
        end
    | _ => fail c s (WrongArgCount (str name))
    end.

Definition client_command : command := with_sub_commands "CLIENT"
  [("INFO", other "CLIENT INFO"); ("SETNAME", setname_command); ("SETINFO", setinfo_command)]%string.

Definition memory_command : command := with_sub_commands "MEMORY"
  [("USAGE", memory_usage_command); ("STATS", other "MEMORY STATS"); ("PURGE", other "MEMORY PURGE");
   ("MALLOC-STATS", other "MEMORY MALLOC-STATS"); ("DOCTOR", other "MEMORY DOCTOR"); ("HELP", other "MEMORY HELP")]%string.

Definition hello_command : command := fun i c items s =>
  match hello_parse items with
  | Err e => fail c s e
  | Ok p =>
      let refused :=
        match hello_password p, password s with
        | Some given, Some configured => negb (bool_decide (given = configured))
        | _, _ => false
        end in
      if refused then fail c s (Custom (str "WRONGPASS invalid username-password pair"))
      else
        let c := match hello_password p with Some _ => set_authenticated c | None => c end in
        let c := match hello_client_name p with Some name => set_name c name | None => c end in
        let c := match hello_proto p with Some v => set_proto c v | None => c end in
        reply c s (Map_ [
          (bulk (str "server"), bulk (str "redis"));
          (bulk (str "version"), bulk package_version);
          (bulk (str "proto"), Integer (proto_version c));
          (bulk (str "id"), Integer (wrap_i64 (cl_id c)));
          (bulk (str "mode"), bulk (str "standalone"));
          (bulk (str "role"), bulk (str "master"));
          (bulk (str "modules"), Array (Some []))])
  end.

(** ** Transactions *)

Definition multi_command : command := fun i c items s =>
  if 2 <=? argc items then fail c s (WrongArgCount (str "MULTI"))
  else
    match transaction_queue c with
    | Some _ => fail c s (Custom (str "MULTI calls can not be nested"))
    | None => reply (set_flag (set_queue c (Some [])) (set_multi (flag c) true)) s value_ok
    end.

Definition discard_command : command := fun i c items s =>
  if 2 <=? argc items then fail c s (WrongArgCount (str "DISCARD"))
  else
    match transaction_queue c with
    | None => fail c s (Custom (str "DISCARD without MULTI"))
    | Some _ => reply (set_queue c None) s value_ok
    end.

(** The queue is taken before the write, the flag reset only after it. *)
Definition exec_command : command := fun i c items s =>
  if 2 <=? argc items then fail c s (WrongArgCount (str "EXEC"))
  else
    match transaction_queue c with
    | None => fail c s (Custom (str "EXECABORT Transaction discarded because of previous errors."))
    | Some ops =>
        match write_op i (set_queue c None) s (Redis (RedisExec ops)) id with
        | Ret (c', s', Ok v) => reply (set_flag c' (set_multi (flag c') false)) s' v
        | r => r
        end
    end.

(** ** Scripts *)

Definition set_proto_of (proto : Z) (op : Operation) : Operation :=
  match op with
  | Redis (RedisEval p) => Redis (RedisEval (mkEvalParams (eval_script p) (eval_numkeys p) (eval_keys p) (eval_args p) proto))
  | _ => op
  end.

Definition eval_command : command := queued "QUEUED" eval_raft_request (fun i c items s =>
  match eval_raft_request items with
  | Ok op => write_op i c s (set_proto_of (proto_version c) op) id
  | Err e => fail c s e
  end).

Definition evalsha_command : command := fun i c items s =>
  match evalsha_parse items with
  | Err e => fail c s e
  | Ok (sha1, numkeys, keys, args) =>
      match script_map s !! sha1 with
      | None => fail c s (Custom (str "NOSCRIPT No matching script. Please use EVAL."))
      | Some script => write_op i c s (Redis (RedisEval (mkEvalParams script numkeys keys args (proto_version c)))) id
      end
  end.

Definition script_command : command := fun i c items s =>
  match script_parse items with
  | Ret (Ok (ScriptLoad script)) =>
      reply c (set_scripts s (<[sha1_hex script := script]> (script_map s))) (bulk (sha1_hex script))
  | Ret (Ok (ScriptExists sha1s)) =>
      reply c s (Array (Some ((fun sha => Integer (if bool_decide (is_Some (script_map s !! sha)) then 1 else 0)) <$> sha1s)))
  | Ret (Ok (ScriptFlush _)) => reply c (set_scripts s ∅) value_ok
  | Ret (Ok ScriptKill) =>
      reply c s (if in_interrupted i then value_ok else Error (str "ERR No scripts in execution right now."))
  | Ret (Ok (ScriptDebug _)) => reply c s (Error (str "Not implemented"))
  | Ret (Err e) => fail c s e
  | Panic => Panic
  | OutOfFuel => OutOfFuel
  end.

(** ** Publish and subscribe *)

(** The message also goes to the clients of the other nodes; see Broadcast. *)
Definition publish_command : command := fun i c items s =>
  match publish_parse items with
  | Ok (channel, message) =>
      let '(ps, v) := publish id_iter registry_iter (broadcast s) channel message in reply c (set_broadcast s ps) v
  | Err e => fail c s e
  end.

Definition pubsub_command : command := fun i c items s =>
  match pubsub_parse items with
  | Ok (Channels pattern) => reply c s (pubsub_channels registry_iter (broadcast s) pattern)
  | Ok (NumSub channels) => reply c s (pubsub_numsub (broadcast s) channels)
  | Ok NumPat => reply c s (pubsub_numpat (broadcast s))
  | Err e => fail c s e
  end.

(** UNSUBSCRIBE and PUNSUBSCRIBE. *)
Definition unsubscribe_names (t : target) (c : Client) (s : Server) (o : option (list bytes)) : Server * Value :=
  let '(ps, v) :=
    match o with
    | None => unsubscribe_all name_iter t (broadcast s) (cl_id c)
    | Some l => unsubscribe_from t (broadcast s) l (cl_id c)
    end in
  (set_broadcast s ps, v).

Definition unsubscribe_with (t : target) (parse : list Value -> parsed (option (list bytes))) : command := fun i c items s =>
  match parse items with
  | Ok o => let '(s', v) := unsubscribe_names t c s o in reply c s' v
  | Err e => fail c s e
  end.

Definition unsubscribe_command : command := unsubscribe_with Channel unsubscribe_params.
Definition punsubscribe_command : command := unsubscribe_with Pattern punsubscribe_params.
End Server.
