(* ===== verification/Admin.v ===== *)
(** * Admin: the commands about the process and the cluster.

    Models src/cache_cat/src/protocol/sentinel/ (MASTERS, GET-MASTER-ADDR-BY-NAME,
    SLAVES and SENTINELS), TIME, SAVE, BGSAVE and SHUTDOWN of
    src/cache_cat/src/protocol/server/, CLIENT INFO of
    src/cache_cat/src/protocol/connection/client/info.rs, and the part of
    the command table that sends a request to them and to the MEMORY reports.

    What such a command observes of the node (the clock, the sockets, the view
    that openraft gives of the cluster) is a record; what it sets off is a list of
    [Effect]s next to its reply. [admin_server_env] puts these commands in the
    place that Session leaves open for them. *)

From S2P Require Import Prelude Text F64 Reply Errors Args Store Script StateMachine PubSub Session Config Peers Cluster Reports.
From Stdlib Require Import Strings.Byte.

(** ** What a command observes and sets off *)

(** [nv_time] is [SystemTime::now().duration_since(UNIX_EPOCH)] in nanoseconds,
    [nv_trigger] whether openraft takes the order to build a snapshot. *)
Record NodeView := mkNodeView {
  nv_config : ParsedConfig;
  nv_raft : RaftView;
  nv_cluster : Cluster;
  nv_time : option Z;
  nv_trigger : bool;
  nv_peer_addr : result bytes bytes;
  nv_local_addr : result bytes bytes;
  nv_fd : Z
}.

(** The snapshot is built at once, once more when the one that is being built is
    finished, and the shutdown signal is sent. [WaitSnapshot] holds the command
    back until a snapshot has been built. *)
Inductive Effect := TriggerSnapshot | WaitSnapshot | SnapshotAgain | ShutdownSignal.

(** The effects so far, in order, and the reply or the error. *)
Definition admin : Type := list Effect * result Value CacheCatError.

Definition answers (v : Value) : admin := ([], Ok v).
Definition refuses (e : ProtocolError) : admin := ([], Err (Protocol e)).

(** [String::from_utf8_lossy] of a bulk string, or a simple string. *)
Definition lossy_string (v : Value) : option bytes :=
  match v with
  | BulkString (Some data) => Some (from_utf8_lossy data)
  | SimpleString s => Some s
  | _ => None
  end.

(** ** SENTINEL *)

Definition master_flags (leader : option Endpoint) : bytes :=
  match leader with None => str "master,o_down,disconnected" | Some _ => str "master" end.

Definition sentinel_masters (nv : NodeView) (items : list Value) : admin :=
  let leader_endpoint := leader_addr (nv_raft nv) in
  let endpoint := default (raft_advertise_endpoint (nv_config nv)) leader_endpoint in
  answers (Array (Some [Array (Some (bulk <$> [
    str "name"; sentinel_master_name (nv_config nv);
    str "ip"; ep_address endpoint;
    str "port"; nat_to_string (ep_redis_port endpoint);
    str "flags"; master_flags leader_endpoint;
    str "num-other-sentinels"; nat_to_string (Z.of_nat (length (rv_members (nv_raft nv))))]))])).

(** The three commands that take the name of the master: what they reply for
    another name, and for the configured one. *)
Definition with_master_name (nv : NodeView) (command : bytes) (items : list Value) (other known : Value) : admin :=
  if negb (argc items =? 3) then refuses (WrongArgCount command)
  else
    match lossy_string (item items 2) with
    | None => refuses (InvalidArgument (str "master name"))
    | Some name => answers (if bool_decide (sentinel_master_name (nv_config nv) = name) then known else other)
    end.

Definition sentinel_get_master_addr (nv : NodeView) (items : list Value) : admin :=
  let leader := last_leader (nv_raft nv) (nv_cluster nv) in
  with_master_name nv (str "SENTINEL GET-MASTER-ADDR-BY-NAME") items (BulkString None)
    (Array (Some [bulk (ep_address leader); bulk (nat_to_string (ep_redis_port leader))])).

Definition slave_info (nv : NodeView) (slave : Node) : Value :=
  let last := last_leader (nv_raft nv) (nv_cluster nv) in
  Array (Some (bulk <$> [
    str "name"; redis_addr (endpoint slave);
    str "ip"; ep_address (endpoint slave);
    str "port"; nat_to_string (ep_redis_port (endpoint slave));
    str "runid"; nat_to_string (rv_node_id (nv_raft nv));
    str "flags"; if is_survive (node_state (nv_cluster nv)) (member_id slave) then str "slave" else str "slave,o_down,disconnected";
    str "master-link-status"; match leader_addr (nv_raft nv) with Some _ => str "ok" | None => str "err" end;
    str "master-host"; ep_address last;
    str "master-port"; nat_to_string (ep_port last);
    str "slave-repl-offset"; str "0";
    str "slave-priority"; str "100"])).

Definition sentinel_slaves (nv : NodeView) (items : list Value) : admin :=
  with_master_name nv (str "SENTINEL SLAVES") items (Array None)
    (Array (Some (slave_info nv <$> last_slave (nv_raft nv) (nv_cluster nv)))).

Definition sentinel_info (nv : NodeView) (m : Z * Node) : Value :=
  let '(node_id, node) := m in
  Array (Some (bulk <$> [
    str "name"; nat_to_string node_id;
    str "ip"; ep_address (endpoint node);
    str "port"; nat_to_string (ep_redis_port (endpoint node));
    str "runid"; nat_to_string node_id;
    str "flags"; if is_survive (node_state (nv_cluster nv)) node_id then str "sentinel" else str "sentinel,o_down,disconnected"])).

Definition sentinel_sentinels (nv : NodeView) (items : list Value) : admin :=
  with_master_name nv (str "SENTINEL SENTINELS") items (Array None)
    (Array (Some (sentinel_info nv <$> rv_members (nv_raft nv)))).

Definition sentinel_execute (nv : NodeView) (items : list Value) : admin :=
  if argc items <? 2 then refuses (WrongArgCount (str "SENTINEL"))
  else
    match word_of (item items 1) with
    | None => refuses (InvalidArgument (str "subcommand"))
    | Some sub =>
        if is_word sub "MASTERS" then sentinel_masters nv items
        else if is_word sub "GET-MASTER-ADDR-BY-NAME" then sentinel_get_master_addr nv items
        else if is_word sub "SLAVES" then sentinel_slaves nv items
        else if is_word sub "SENTINELS" then sentinel_sentinels nv items
        else refuses (UnknownCommand (str "SENTINEL " ++ sub))
    end.

(** ** TIME *)

Definition time_execute (nv : NodeView) (items : list Value) : admin :=
  if negb (argc items =? 1) then refuses (WrongArgCount (str "time"))
  else
    match nv_time nv with
    | None => refuses (Custom (str "Failed to get system time"))
    | Some now =>
        answers (Array (Some [bulk (nat_to_string (now / 10 ^ 9)); bulk (nat_to_string (now mod 10 ^ 9 / 1000))]))
    end.

(** ** SHUTDOWN *)

Inductive ShutdownOption := Save | NoSave.

Definition shutdown_parse (items : list Value) : parsed ShutdownOption :=
  match items with
  | [_] => Ok Save
  | [_; v] =>
      match word_of v with
      | None => Err (InvalidArgument (str "shutdown expects SAVE or NOSAVE argument"))
      | Some arg =>
          if is_word arg "SAVE" then Ok Save
          else if is_word arg "NOSAVE" then Ok NoSave
          else Err (InvalidArgument (str "shutdown supports only SAVE or NOSAVE arguments"))
      end
  | _ => Err (WrongArgCount (str "shutdown"))
  end.

(** The option is parsed and not used. *)
Definition shutdown_execute (items : list Value) : admin :=
  match shutdown_parse items with
  | Err e => refuses e
  | Ok _ => ([ShutdownSignal], Ok (SimpleString (str "OK")))
  end.

(** ** CLIENT INFO *)

(** [Display] of the flags. *)
Definition flag_text (f : ClientFlag) : bytes :=
  let flags := (if in_sub f then [x50] else []) ++ (if multi f then [x78] else []) ++ (if blocking f then [x62] else []) in
  match flags with [] => [x4e] | _ => flags end.

Definition info_pair (kv : bytes * bytes) : bytes := kv.1 ++ [x3d] ++ kv.2.

Section Admin.
Context {LogId Membership : Type}.
Abbreviation Server := (Server (LogId := LogId) (Membership := Membership)).
Abbreviation Inputs := (Inputs (LogId := LogId) (Membership := Membership)).

(** ** SAVE and BGSAVE *)

(** [RaftMetaData::snapshot_state]. *)
Definition in_snapshot (s : Server) : bool :=
  negb (bool_decide (snapshot_state (raft_meta_data (state_machine s)) = End_)).

Definition in_progress : ProtocolError := Custom (str "Background save already in progress").

(** [trigger_snapshot], and what happens once openraft has taken the order. *)
Definition trigger_then (nv : NodeView) (later : list Effect) : admin :=
  if nv_trigger nv then (TriggerSnapshot :: later, Ok value_ok)
  else ([TriggerSnapshot], Err (Protocol (Custom (str "snapshot error")))).

Definition save_execute (nv : NodeView) (items : list Value) (s : Server) : admin :=
  if 2 <=? argc items then refuses (WrongArgCount (str "save"))
  else if in_snapshot s then refuses in_progress
  else trigger_then nv [WaitSnapshot].

Definition bgsave_execute (nv : NodeView) (items : list Value) (s : Server) : admin :=
  if 2 <? argc items then refuses (WrongArgCount (str "save"))
  else
    let run (schedule : bool) : admin :=
      if (in_snapshot s && negb schedule)%bool then refuses in_progress
      else trigger_then nv (if (schedule && in_snapshot s)%bool then [SnapshotAgain] else []) in
    if argc items =? 2 then
      match word_of (item items 1) with
      | None => refuses SyntaxError
      | Some arg => run (is_word arg "SCHEDULE")
      end
    else run false.

(** The table is a [HashMap], printed in the order of its iteration. *)
Class InfoOrder := { info_iter : gmap bytes bytes -> list (bytes * bytes) }.
Class InfoOrderOk (IO : InfoOrder) : Prop := { info_iter_ok m : info_iter m ≡ₚ map_to_list m }.

Context `{IO : InfoOrder}.

Definition map_to_string (m : gmap bytes bytes) : bytes := join_texts [x20] (info_pair <$> info_iter m).

(** Seconds between two [u64] times in milliseconds, which wrap around. *)
Definition seconds_since (now t : Z) : Z := wrap_u64 (now - t) / 1000.

Definition info_fields (now : Z) (nv : NodeView) (c : Client) (s : Server) (addr laddr : bytes) : list (bytes * bytes) :=
  [(str "id", nat_to_string (cl_id c)); (str "addr", addr); (str "laddr", laddr);
   (str "fd", nat_to_string (nv_fd nv)); (str "name", cl_name c);
   (str "age", nat_to_string (seconds_since now (connection_time c)));
   (str "idle", nat_to_string (seconds_since now (last_interaction c)));
   (str "flags", flag_text (flag c)); (str "db", nat_to_string (cl_db_number c)); (str "cmd", last_cmd c);
   (str "resp", nat_to_string (proto_version c)); (str "lib_name", lib_name c); (str "lib_ver", lib_ver c);
   (str "sub", nat_to_string (client_subscription_count (broadcast s) (cl_id c)));
   (str "psub", nat_to_string (client_pattern_count (broadcast s) (cl_id c)))].

Definition client_info_execute (now : Z) (nv : NodeView) (c : Client) (s : Server) : admin :=
  match nv_peer_addr nv, nv_local_addr nv with
  | Err e, _ | Ok _, Err e => ([], Err (io_error_from e))
  | Ok addr, Ok laddr =>
      answers (BulkString (Some (map_to_string (list_to_map (info_fields now nv c s addr laddr)))))
  end.

(** ** The commands in the command table *)

Context `{AL : Allocator}.

Definition report (r : parsed Value) : admin := match r with Ok v => answers v | Err e => refuses e end.

(** The entry of the command table that a name stands for. *)
Definition admin_command (name : bytes) (now : Z) (nv : NodeView) (c : Client) (items : list Value) (s : Server) : option admin :=
  if is_word name "SENTINEL" then Some (sentinel_execute nv items)
  else if is_word name "TIME" then Some (time_execute nv items)
  else if is_word name "SAVE" then Some (save_execute nv items s)
  else if is_word name "BGSAVE" then Some (bgsave_execute nv items s)
  else if is_word name "SHUTDOWN" then Some (shutdown_execute items)
  else if is_word name "CLIENT INFO" then Some (client_info_execute now nv c s)
  else if is_word name "MEMORY STATS" then Some (report (memory_stats_execute items))
  else if is_word name "MEMORY PURGE" then Some (report (memory_purge_execute items))
  else if is_word name "MEMORY MALLOC-STATS" then Some (report (malloc_stats_execute items))
  else if is_word name "MEMORY DOCTOR" then Some (report (memory_doctor_execute items))
  else if is_word name "MEMORY HELP" then Some (report (memory_help_execute items))
  else None.

(** The commands above as the part of the command table that Session leaves open,
    given what they observe. *)
Definition admin_server_env (observe : Inputs -> Client -> NodeView) (base : ServerEnv (LogId := LogId) (Membership := Membership)) :
  ServerEnv (LogId := LogId) (Membership := Membership) := {|
  name_iter := @name_iter _ _ base;
  id_iter := @id_iter _ _ base;
  registry_iter := @registry_iter _ _ base;
  sha1_hex := @sha1_hex _ _ base;
  package_version := @package_version _ _ base;
  other_command := fun name i c items s =>
    match admin_command name (in_now i) (observe i c) c items s with
    | Some a => a.2
    | None => Err (Protocol (UnknownCommand name))
    end
|}.
End Admin.

(** ** Reading a report *)

Fixpoint field_of (k : bytes) (l : list Value) : option bytes :=
  match l with
  | BulkString (Some k') :: BulkString (Some v) :: l' => if bool_decide (k' = k) then Some v else field_of k l'
  | _ => None
  end.

Definition info_field (k : String.string) (v : Value) : option bytes :=
  match v with Array (Some l) => field_of (str k) l | _ => None end.

(** Where a report says a node is, and in what state. *)
Definition described (v : Value) : option bytes * option bytes * option bytes :=
  (info_field "ip" v, info_field "port" v, info_field "flags" v).

(** The leader has heard from a node within the election timeout. *)
Definition heard (r : RaftView) (hs : list (Z * option Z)) (id : Z) : bool :=
  ((id =? rv_node_id r) ||
   existsb (fun h => (h.1 =? id) && match h.2 with Some d => as_millis d <? rv_election_timeout_max r | None => false end) hs)%bool.

(** The description that a member should have. *)
Definition description (r : RaftView) (hs : list (Z * option Z)) (role : String.string) (m : Z * Node) :
  option bytes * option bytes * option bytes :=
  (Some (ep_address (endpoint m.2)), Some (nat_to_string (ep_redis_port (endpoint m.2))),
   Some (str role ++ if heard r hs m.1 then [] else str ",o_down,disconnected")).

Lemma described_fields name ip port runid flags rest :
  described (Array (Some (bulk <$> [str "name"; name; str "ip"; ip; str "port"; port; str "runid"; runid; str "flags"; flags] ++ rest))) =
    (Some ip, Some port, Some flags).
Proof. reflexivity. Qed.

Lemma described_sentinel nv m :
  described (sentinel_info nv m) =
    (Some (ep_address (endpoint m.2)), Some (nat_to_string (ep_redis_port (endpoint m.2))),
     Some (str "sentinel" ++ if is_survive (node_state (nv_cluster nv)) m.1 then [] else str ",o_down,disconnected")).
Proof. destruct m as [id node]. etrans; [apply (described_fields _ _ _ _ _ [])|]. cbn [fst snd]. by destruct (is_survive _ _). Qed.

Lemma described_slave nv node :
  described (slave_info nv node) =
    (Some (ep_address (endpoint node)), Some (nat_to_string (ep_redis_port (endpoint node))),
     Some (str "slave" ++ if is_survive (node_state (nv_cluster nv)) (member_id node) then [] else str ",o_down,disconnected")).
Proof. etrans; [eapply (described_fields _ _ _ _ _ [str "master-link-status"; _; _; _; _; _; _; _; _; _])|]. by destruct (is_survive _ _). Qed.

(** After a round of the leader's state, a node counts as alive exactly when it
    has been heard. *)
Lemma synced_survive r c0 hs id : rv_heartbeat r = Some hs -> NoDup hs.*1 -> 0 < rv_election_timeout_max r ->
  Forall (fun h => match h.2 with Some d => 0 <= as_millis d < 2 ^ 64 | None => True end) hs ->
  is_survive (node_state (state_sync r c0).1) id = heard r hs id.
Proof.
  intros Hh Hd Ht Hb. unfold state_sync, nodes_state. rewrite Hh. cbn [option_bind fst node_state set_nodes_state].
  unfold is_survive, heard. cbn [nodes_heartbeat election_timeout_max]. destruct (Z.eqb_spec id (rv_node_id r)) as [-> |Hne].
  { rewrite lookup_insert_eq. cbn [orb]. change (wrap_u64 (as_millis 0)) with 0. lia. }
  rewrite lookup_insert_ne by done. rewrite heartbeat_map_lookup by done. rewrite lookup_empty. cbn [orb]. clear Hh.
  induction hs as [|[i o] hs IH]; [done|]. cbn [find existsb fst snd]. cbn in Hd. apply NoDup_cons in Hd as [Hn Hd].
  apply Forall_cons in Hb as [Hb1 Hb]. destruct (Z.eqb_spec i id) as [-> |Hi]; [|by apply IH].
  cbn [fmap option_fmap option_map snd andb]. assert (existsb (fun h : Z * option Z => (h.1 =? id) && match h.2 with
    Some d => as_millis d <? rv_election_timeout_max r | None => false end)%bool hs = false) as ->.
  { apply not_true_is_false. intros (x & Hin & Hx)%List.existsb_exists. apply andb_true_iff in Hx as [Hx%Z.eqb_eq _].
    apply Hn, list_elem_of_fmap. exists x. by split; [|apply list_elem_of_In]. }
  rewrite orb_false_r. destruct o as [d|]; [|done]. cbn in Hb1. unfold wrap_u64. by rewrite Z.mod_small.
Qed.

Lemma with_master_name_known nv command cmd sub arg other known :
  lossy_string arg = Some (sentinel_master_name (nv_config nv)) ->
  with_master_name nv command [cmd; sub; arg] other known = answers known.
Proof.
  intros H. unfold with_master_name. change (argc [cmd; sub; arg] =? 3) with true. change (item [cmd; sub; arg] 2) with arg.
  cbn [negb]. by rewrite H, bool_decide_true.
Qed.

(** C34: What SENTINEL tells of a cluster. Once the leader has published the
    state of the nodes, SENTINELS lists every member once, with its address, its
    Redis port and whether the leader has heard from it within the election
    timeout. SLAVES lists the members other than the last master in the same
    way, and GET-MASTER-ADDR-BY-NAME gives the address of that master: together
    they name every member exactly once. When the last master is no longer a
    member, all members are slaves and the node names itself as the master. *)
Theorem sentinel_describes_cluster (nv : NodeView) (c0 : Cluster) (hs : list (Z * option Z)) (cmd sub arg : Value) :
  let r := nv_raft nv in
  nv_cluster nv = (state_sync r c0).1 ->
  rv_heartbeat r = Some hs -> NoDup hs.*1 -> NoDup (rv_members r).*1 -> 0 < rv_election_timeout_max r ->
  Forall (fun h => match h.2 with Some d => 0 <= as_millis d < 2 ^ 64 | None => True end) hs ->
  Forall (fun m => member_id m.2 = m.1) (rv_members r) ->
  lossy_string arg = Some (sentinel_master_name (nv_config nv)) ->
  exists sentinels slaves leader,
    sentinel_sentinels nv [cmd; sub; arg] = answers (Array (Some sentinels)) /\
    sentinel_slaves nv [cmd; sub; arg] = answers (Array (Some slaves)) /\
    sentinel_get_master_addr nv [cmd; sub; arg] =
      answers (Array (Some [bulk (ep_address leader); bulk (nat_to_string (ep_redis_port leader))])) /\
    described <$> sentinels = description r hs "sentinel" <$> rv_members r /\
    match find_member r (last_master c0) with
    | Some master =>
        leader = endpoint master /\
        description r hs "slave" <$> rv_members r ≡ₚ description r hs "slave" (last_master c0, master) :: (described <$> slaves)
    | None => leader = current_endpoint c0 /\ described <$> slaves = description r hs "slave" <$> rv_members r
    end.
Proof.
  intros r Hc Hh Hd Hm Ht Hb Hid Harg.
  assert (forall id, is_survive (node_state (nv_cluster nv)) id = heard r hs id) as Hs
    by (intros id; rewrite Hc; by apply synced_survive).
  assert (last_master (nv_cluster nv) = last_master c0 /\ current_endpoint (nv_cluster nv) = current_endpoint c0) as [Hl He]
    by (rewrite Hc; unfold state_sync; by destruct (nodes_state r)).
  exists (sentinel_info nv <$> rv_members r), (slave_info nv <$> last_slave r (nv_cluster nv)), (last_leader r (nv_cluster nv)).
  unfold sentinel_sentinels, sentinel_slaves, sentinel_get_master_addr. rewrite !with_master_name_known by done.
  do 3 (split; [done|]). split.
  { rewrite <- list_fmap_compose. apply list_fmap_ext. intros i m _. cbn. by rewrite described_sentinel, Hs. }
  set (g := fun node => description r hs "slave" (member_id node, node)).
  assert (forall l, described <$> (slave_info nv <$> l) = g <$> l) as ->.
  { intros l. rewrite <- list_fmap_compose. apply list_fmap_ext. intros i m _. cbn. by rewrite described_slave, Hs. }
  assert (description r hs "slave" <$> rv_members r = g <$> (rv_members r).*2) as ->.
  { rewrite <- list_fmap_compose. apply list_fmap_ext. intros i [id node] Hin. unfold g. cbn.
    rewrite Forall_lookup in Hid. pose proof (Hid _ _ Hin) as Hx. cbn in Hx. by rewrite Hx. }
  pose proof (master_and_slaves r (nv_cluster nv) Hm) as Hms. rewrite Hl, He in Hms.
  destruct (find_member r (last_master c0)) as [master|] eqn:Ef; destruct Hms as [-> Hms]; (split; [done|]); [|by rewrite Hms].
  rewrite Hms. cbn [fmap list_fmap]. unfold g at 1. apply find_member_in in Ef. rewrite Forall_forall in Hid.
  pose proof (Hid _ Ef) as Hx. cbn in Hx. by rewrite Hx.
Qed.

Definition sample_node (id : Z) : Node := mkNode id (mkEndpoint (str "10.0.0." ++ nat_to_string id) 5001 6379).

Definition sample_config : ParsedConfig :=
  mkParsedConfig 1 (endpoint (sample_node 1)) (endpoint (sample_node 1)) 6379 false None [] (str ".data") (str "cat") 699
    (LogsSinceLast 50000) 60000 10 16 None None None None false None false.

(** Node 1 leads three nodes; it has not heard from node 3 for two seconds. *)
Definition sample_heartbeats : list (Z * option Z) := [(1, None); (2, Some (5 * 10 ^ 6)); (3, Some (2 * 10 ^ 9))].
Definition sample_raft : RaftView :=
  mkRaftView 1 true (Some 1) ((fun id => (id, sample_node id)) <$> [1; 2; 3]) (Some sample_heartbeats) 1400.
Definition sample_view : NodeView :=
  mkNodeView sample_config sample_raft (state_sync sample_raft (cluster_new sample_raft (endpoint (sample_node 1)))).1
    (Some 1234567891234567) true (Ok (str "127.0.0.1:50000")) (Ok (str "127.0.0.1:6379")) 7.

Lemma sentinel_describes_cluster_witness :
  exists sentinels slaves leader,
    sentinel_sentinels sample_view [Null; Null; bulk (str "cat")] = answers (Array (Some sentinels)) /\
    sentinel_slaves sample_view [Null; Null; bulk (str "cat")] = answers (Array (Some slaves)) /\
    sentinel_get_master_addr sample_view [Null; Null; bulk (str "cat")] =
      answers (Array (Some [bulk (ep_address leader); bulk (nat_to_string (ep_redis_port leader))])) /\
    described <$> sentinels = description sample_raft sample_heartbeats "sentinel" <$> rv_members sample_raft.
Proof.
  destruct (sentinel_describes_cluster sample_view (cluster_new sample_raft (endpoint (sample_node 1))) sample_heartbeats
              Null Null (bulk (str "cat"))) as (sentinels & slaves & leader & H1 & H2 & H3 & H4 & _).
  - reflexivity.
  - reflexivity.
  - apply (bool_decide_unpack _). vm_compute. exact I.
  - apply (bool_decide_unpack _). vm_compute. exact I.
  - reflexivity.
  - repeat constructor; vm_compute; congruence.
  - repeat constructor.
  - reflexivity.
  - exists sentinels, slaves, leader. auto.
Defined.

(** What the leader of the sample says of the node it has lost. *)
Example sentinel_lost_node :
  described <$> (slave_info sample_view <$> last_slave sample_raft (nv_cluster sample_view)) =
    [(Some (str "10.0.0.2"), Some (str "6379"), Some (str "slave"));
     (Some (str "10.0.0.3"), Some (str "6379"), Some (str "slave,o_down,disconnected"))].
Proof. vm_compute. reflexivity. Qed.

(** ** The other commands *)

Section Others.
Context {LogId Membership : Type}.
Abbreviation Server := (Server (LogId := LogId) (Membership := Membership)).
Abbreviation Inputs := (Inputs (LogId := LogId) (Membership := Membership)).

(** While a snapshot is being built SAVE starts none, and BGSAVE orders one only
    when it is asked to SCHEDULE it, and then a second one for afterwards. *)
Lemma save_in_progress nv items (s : Server) : in_snapshot s = true ->
  (save_execute nv items s).1 = [] /\
  ((bgsave_execute nv items s).1 <> [] ->
   (exists v, items !! 1%nat = Some v /\ word_of v = Some (str "SCHEDULE")) /\
   ((bgsave_execute nv items s).2 = Ok value_ok -> (bgsave_execute nv items s).1 = [TriggerSnapshot; SnapshotAgain])).
Proof.
  intros Hs. unfold save_execute, bgsave_execute, trigger_then. rewrite Hs. split; [by destruct (2 <=? argc items)|].
  destruct (2 <? argc items); [done|]. destruct (argc items =? 2) eqn:E2; [|done].
  destruct items as [|v0 [|v1 items]]; [done..|]. change (item (v0 :: v1 :: items) 1) with v1.
  destruct (word_of v1) as [arg|] eqn:Ew; [|done]. unfold is_word. case_bool_decide as Ha; [subst arg|done].
  intros _. split; [by exists v1|]. by destruct (nv_trigger nv).
Qed.

Context `{IO : InfoOrder} `{!InfoOrderOk IO}.

Lemma info_keys now nv c (s : Server) addr laddr : NoDup (info_fields now nv c s addr laddr).*1.
Proof. apply (bool_decide_unpack _). vm_compute. exact I. Qed.

(** CLIENT INFO prints each of its fields once, in some order. *)
Lemma client_info_fields now nv c (s : Server) addr laddr :
  nv_peer_addr nv = Ok addr -> nv_local_addr nv = Ok laddr ->
  exists fs, fs ≡ₚ info_fields now nv c s addr laddr /\
    client_info_execute now nv c s = answers (BulkString (Some (join_texts [x20] (info_pair <$> fs)))).
Proof.
  intros Hp Hl. unfold client_info_execute, map_to_string. rewrite Hp, Hl.
  exists (info_iter (list_to_map (info_fields now nv c s addr laddr))). split; [|done].
  rewrite info_iter_ok. apply map_to_list_to_map, info_keys.
Qed.

Context `{AL : Allocator}.

(** The commands that Session leaves open are the ones above: the reply is
    theirs, and neither the client nor the server changes. *)
Lemma other_is_admin (observe : Inputs -> Client -> NodeView) (base : ServerEnv) (name : String.string) i c items (s : Server) :
  name ∈ ["SENTINEL"; "TIME"; "SAVE"; "BGSAVE"; "SHUTDOWN"; "CLIENT INFO"; "MEMORY STATS"; "MEMORY PURGE";
          "MEMORY MALLOC-STATS"; "MEMORY DOCTOR"; "MEMORY HELP"]%string ->
  exists a, admin_command (str name) (in_now i) (observe i c) c items s = Some a /\
    other (SE := admin_server_env observe base) name i c items s = Ret (c, s, a.2).
Proof. intros H. repeat (apply elem_of_cons in H as [-> |H]; [eexists; split; reflexivity|]). by apply not_elem_of_nil in H. Qed.
End Others.
