(* ===== verification/Connection.v ===== *)
(** * Connection: the life of a connection.

    Models [CommandFactory] of src/cache_cat/src/protocol/command.rs (the command
    table, [execute_command], the blocking mode of a subscriber and
    [process_connection]), [execute_during_block] of SUBSCRIBE and PSUBSCRIBE and
    [handle_connection_pipeline] of src/cache_cat/src/raft/network/redis_server.rs.

    A connection is a state machine: [conn_step] takes the connection, the server
    and the next event, and returns both with the values that are sent. What
    other connections do to the server happens between the steps. A write to the
    socket that fails ends the connection as a read error does, so it is not a
    separate event. *)

From S2P Require Import Prelude Text F64 Reply Errors Args SortedSet TimeWheel Mocha Ops Store Refine Memory Handler StateMachine PubSub App Session.

(** The subscription stream of a blocked client: the receiver of the client's
    sender, with the number of values it has seen. When the client's entry goes
    away its sender is dropped, and the receiver keeps what was in the channel. *)
Inductive Stream :=
| Attached (seen : nat)
| Detached (w : Watch) (seen : nat).

Definition drop_receiver (ps : PubSub) (client_id : Z) : PubSub :=
  match clients ps !! client_id with
  | Some state =>
      with_clients ps (<[client_id := mkClientState (watch_drop (sender state)) (subscribed_channels state) (subscribed_patterns state)]> (clients ps))
  | None => ps
  end.

(** The receiver that [subscribe] has just returned. *)
Definition stream_of (ps : PubSub) (client_id : Z) : Stream :=
  Attached (default 0%nat ((fun state => length (sent (sender state))) <$> clients ps !! client_id)).

(** What becomes of the receiver when the tables go from [ps] to [ps']. *)
Definition follow (ps ps' : PubSub) (client_id : Z) (st : Stream) : Stream :=
  match st, clients ps !! client_id, clients ps' !! client_id with
  | Attached seen, Some state, None => Detached (sender state) seen
  | _, _, _ => st
  end.

(** [stream.changed()] and [stream.borrow()]: still waiting, a value, or the
    sender is gone. *)
Inductive Change := Waiting | Changed (v : option Value) (st : Stream) | SenderDropped.

Definition stream_changed (ps : PubSub) (client_id : Z) (st : Stream) : Change :=
  match st with
  | Attached seen =>
      match clients ps !! client_id with
      | Some state =>
          match watch_poll (sender state) seen with Some (v, n) => Changed v (Attached n) | None => Waiting end
      | None => SenderDropped
      end
  | Detached w seen =>
      match watch_poll w seen with Some (v, n) => Changed v (Detached w n) | None => SenderDropped end
  end.

Definition stream_drop (ps : PubSub) (client_id : Z) (st : Stream) : PubSub :=
  match st with Attached _ => drop_receiver ps client_id | Detached _ _ => ps end.

(** [Ended ok]: [process_connection] has returned [Ok] or an error. *)
Inductive Mode :=
| Serving
| Blocked (t : target) (st : Stream)
| Ended (ok : bool).

Record Conn := mkConn { client : Client; mode : Mode }.

Definition SUBSCRIBE_MODE_COMMANDS : list String.string :=
  ["SUBSCRIBE"; "UNSUBSCRIBE"; "PSUBSCRIBE"; "PUNSUBSCRIBE"; "PING"; "QUIT"; "RESET"]%string.

Definition ascii_lower (b : byte) : byte := if byte_in 65 90 b then zb (bz b + 32) else b.

Section Connection.
Context {LogId Membership : Type}.
Context `{E : Env} `{OF : OrderedFloat} `{ME : MemEnv} `{LE : LuaEnv} `{SE : !ServerEnv (LogId := LogId) (Membership := Membership)}.
Abbreviation Server := (Server (LogId := LogId) (Membership := Membership)).
Abbreviation Inputs := (Inputs (LogId := LogId) (Membership := Membership)).
Abbreviation command := (Inputs -> Client -> list Value -> Server -> outcome (Client * Server * result Value CacheCatError)).

(** [CommandFactory::init]. *)
Definition commands : list (String.string * command) := [
  ("PING", ping_command); ("ECHO", echo_command); ("TIME", other "TIME"); ("SELECT", select_command);
  ("QUIT", quit_command); ("AUTH", auth_command); ("CLIENT", client_command); ("HELLO", hello_command);
  ("MEMORY", memory_command);
  ("GET", get_command); ("SET", set_command); ("DEL", del_command); ("INCR", incr_command);
  ("INCRBY", incrby_command); ("MSET", mset_command); ("MGET", mget_command); ("APPEND", append_command);
  ("EXPIRE", expire_command); ("PEXPIRE", pexpire_command); ("EXISTS", exists_command);
  ("PERSIST", persist_command); ("RENAME", rename_command); ("RENAMENX", renamenx_command);
  ("PSETEX", psetex_command); ("SETEX", setex_command); ("SETNX", setnx_command); ("STRLEN", strlen_command);
  ("TYPE", type_command); ("DECRBY", decrby_command); ("PTTL", pttl_command); ("TTL", ttl_command);
  ("DECR", decr_command); ("GETSET", getset_command); ("FLUSHDB", flushdb_command);
  ("FLUSHALL", flushall_command); ("KEYS", keys_command); ("UNLINK", unlink_command);
  ("DBSIZE", dbsize_command); ("PFCOUNT", pfcount_command); ("PFADD", pfadd_command);
  ("LPUSH", lpush_command); ("RPUSH", rpush_command); ("LRANGE", lrange_command); ("LLEN", llen_command);
  ("LPOP", lpop_command); ("RPOP", rpop_command); ("LINDEX", lindex_command); ("LREM", lrem_command);
  ("LSET", lset_command); ("LTRIM", ltrim_command);
  ("HSET", hset_command); ("HGET", hget_command); ("HINCRBY", hincrby_command); ("HMGET", hmget_command);
  ("HDEL", hdel_command); ("HGETALL", hgetall_command); ("HKEYS", hkeys_command); ("HVALS", hvals_command);
  ("HEXISTS", hexists_command); ("HLEN", hlen_command); ("HSETNX", hsetnx_command);
  ("SADD", sadd_command); ("SMEMBERS", smembers_command); ("SREM", srem_command);
  ("SISMEMBER", sismember_command); ("SPOP", spop_command); ("SRANDMEMBER", srandmember_command);
  ("SINTER", sinter_command); ("SINTERSTORE", sinterstore_command); ("SUNION", sunion_command);
  ("SUNIONSTORE", sunionstore_command); ("SDIFF", sdiff_command); ("SDIFFSTORE", sdiffstore_command);
  ("ZADD", zadd_command); ("ZRANGE", zrange_command); ("ZRANGEBYSCORE", zrangebyscore_command);
  ("ZREM", zrem_command); ("ZSCORE", zscore_command); ("ZCARD", zcard_command); ("ZRANK", zrank_command);
  ("ZPOPMIN", zpopmin_command); ("ZREVRANK", zrevrank_command); ("ZINCRBY", zincrby_command);
  ("SETBIT", setbit_command); ("GETBIT", getbit_command); ("BITCOUNT", bitcount_command);
  ("BITPOS", bitpos_command); ("SCARD", scard_command); ("BITFIELD", bitfield_command);
  ("EVAL", eval_command); ("EVALSHA", evalsha_command); ("SCRIPT", script_command);
  ("MULTI", multi_command); ("DISCARD", discard_command); ("EXEC", exec_command);
  ("BGSAVE", other "BGSAVE"); ("SAVE", other "SAVE"); ("SHUTDOWN", other "SHUTDOWN");
  ("PUBLISH", publish_command); ("UNSUBSCRIBE", unsubscribe_command);
  ("PUNSUBSCRIBE", punsubscribe_command); ("PUBSUB", pubsub_command); ("SENTINEL", other "SENTINEL")]%string.

Definition block_commands (name : bytes) : option target :=
  if is_word name "SUBSCRIBE" then Some Channel else if is_word name "PSUBSCRIBE" then Some Pattern else None.

Inductive Event :=
| Recv (i : Inputs) (v : Value)
| ReadError
| Eof
| Wake.

Abbreviation step_result := (outcome (Conn * Server * list Value)).

(** The reply to a command, an error as an error value. *)
Definition response (r : result Value CacheCatError) : Value :=
  match r with Ok v => v | Err e => error_value e end.

(** [handle_connection_pipeline] after [process_connection]: the subscriptions
    go only when that has returned [Ok]. *)
Definition finish (ok : bool) (c : Client) (s : Server) (sent : list Value) : step_result :=
  Ret (mkConn c (Ended ok), (if ok then set_broadcast s (remove_client (broadcast s) (cl_id c)) else s), sent).

(** The loop of [process_connection] goes on unless the client has quit. *)
Definition resume (c : Client) (s : Server) (sent : list Value) : step_result :=
  if closed c then finish true c s sent else Ret (mkConn c Serving, s, sent).

(** A command of the table. *)
Definition run_command (cmd : command) (i : Inputs) (c : Client) (items : list Value) (s : Server) : outcome (Client * Server * Value) :=
  match cmd i c items s with
  | Ret (c', s', r) => Ret (c', s', response r)
  | Panic => Panic
  | OutOfFuel => OutOfFuel
  end.

Definition execute_command (i : Inputs) (c : Client) (s : Server) (value : Value) : step_result :=
  let c := touch c (in_now i) in
  match parse_command value with
  | Err e => resume c s [protocol_error e]
  | Ok (name, items) =>
      let c := set_last_cmd c name in
      if (negb (authenticated c) && negb (is_word name "AUTH") && negb (is_word name "QUIT"))%bool
      then resume c s [protocol_error NotAuthenticated]
      else
        match lookup_command commands name with
        | Some cmd =>
            match run_command cmd i c items s with
            | Ret (c', s', v) => resume c' s' [v]
            | Panic => Panic
            | OutOfFuel => OutOfFuel
            end
        | None =>
            match block_commands name with
            | Some t =>
                match (match t with Channel => subscribe_params | Pattern => psubscribe_params end) items with
                | Ok l =>
                    let '(ps, v) := subscribe_to t (broadcast s) l (cl_id c) in
                    let c := set_flag c (mkClientFlag true (multi (flag c)) true) in
                    Ret (mkConn c (Blocked t (stream_of ps (cl_id c))), set_broadcast s ps, [v])
                | Err e => resume c s [protocol_error e]
                end
            | None => resume c s [protocol_error (UnknownCommand name)]
            end
        end
  end.

(** PING in the blocking mode. *)
Definition ping_during_block (t : target) (c : Client) (message : option bytes) : Value :=
  match t with
  | Channel =>
      if proto_version c =? 2 then Array (Some [bulk (str "pong"); bulk (default [] message)]) else pong message
  | Pattern => Array (Some [SimpleString (str "PONG"); BulkString message])
  end.

Definition refuse_during_block (t : target) (name : bytes) : Value :=
  Error (match t with
  | Channel =>
      str "ERR Can't execute '" ++ (ascii_lower <$> name) ++
      str "': only (P|S)SUBSCRIBE / (P|S)UNSUBSCRIBE / PING / QUIT / RESET are allowed in this context"
  | Pattern => str "ERR only (P)SUBSCRIBE / (P)UNSUBSCRIBE / PING / QUIT allowed in this context"
  end).

(** [execute_during_block] of the two block commands. The receiver that
    [subscribe] returns is dropped. *)
Definition run_during_block (t : target) (c : Client) (name : bytes) (items : list Value) (s : Server)
    : Client * Server * result Value ProtocolError :=
  let leave t' parse :=
    match parse items with
    | Ok o => let '(s', v) := unsubscribe_names t' c s o in (c, s', Ok v)
    | Err e => (c, s, Err e)
    end in
  let enter t' parse :=
    match parse items with
    | Ok l =>
        let '(ps, v) := subscribe_to t' (broadcast s) l (cl_id c) in
        (c, set_broadcast s (drop_receiver ps (cl_id c)), Ok v)
    | Err e => (c, s, Err e)
    end in
  if is_word name "PUNSUBSCRIBE" then leave Pattern punsubscribe_params
  else if is_word name "PSUBSCRIBE" then enter Pattern psubscribe_params
  else if is_word name "SUBSCRIBE" then enter Channel subscribe_params
  else if is_word name "UNSUBSCRIBE" then leave Channel unsubscribe_params
  else if is_word name "PING" then
    match ping_parse items with Ok m => (c, s, Ok (ping_during_block t c m)) | Err e => (c, s, Err e) end
  else if is_word name "QUIT" then (set_closed c, s, Ok value_ok)
  else (c, s, Ok (refuse_during_block t name)).

Definition subscribe_during_block := run_during_block Channel.
Definition psubscribe_during_block := run_during_block Pattern.

(** [block_cmd.execute_during_block(..)]. *)
Definition execute_during_block (t : target) :=
  match t with Channel => subscribe_during_block | Pattern => psubscribe_during_block end.

(** [handle_command_in_blocking_context]; an [Err] ends the connection. *)
Definition handle_command_in_blocking_context (i : Inputs) (t : target) (c : Client) (name : bytes) (items : list Value) (s : Server)
    : outcome (Client * Server * result Value ProtocolError) :=
  if ((proto_version c =? 3) && negb (existsb (is_word name) SUBSCRIBE_MODE_COMMANDS))%bool then
    match lookup_command commands name with
    | Some cmd =>
        match run_command cmd i c items s with
        | Ret (c', s', v) => Ret (c', s', Ok v)
        | Panic => Panic
        | OutOfFuel => OutOfFuel
        end
    | None => Ret (c, s, Ok (protocol_error (UnknownCommand name)))
    end
  else Ret (execute_during_block t c name items s).

(** [process_blocking_stream] has returned: the receiver is dropped, the flags
    are reset, and the error or the closed connection is handled. *)
Definition unblock (ok : bool) (c : Client) (s : Server) (st : Stream) (sent : list Value) : step_result :=
  let c := set_flag c (mkClientFlag false (multi (flag c)) false) in
  let s := set_broadcast s (stream_drop (broadcast s) (cl_id c) st) in
  if ok then resume c s sent else finish false c s sent.

(** One turn of the [select!] loop. *)
Definition blocked_step (t : target) (st : Stream) (c : Client) (s : Server) (ev : Event) : step_result :=
  match ev with
  | Wake =>
      match stream_changed (broadcast s) (cl_id c) st with
      | Waiting => Ret (mkConn c (Blocked t st), s, [])
      | Changed (Some v) st' => Ret (mkConn c (Blocked t st'), s, [v])
      | Changed None st' => unblock true c s st' []
      | SenderDropped => unblock true c s st []
      end
  | Recv i value =>
      match parse_command value with
      | Err e => Ret (mkConn c (Blocked t st), s, [protocol_error e])
      | Ok (name, items) =>
          match handle_command_in_blocking_context i t c name items s with
          | Ret (c', s', r) =>
              let st' := follow (broadcast s) (broadcast s') (cl_id c) st in
              match r with
              | Err _ => unblock false c' s' st' []
              | Ok v => if closed c' then unblock true c' s' st' [v] else Ret (mkConn c' (Blocked t st'), s', [v])
              end
          | Panic => Panic
          | OutOfFuel => OutOfFuel
          end
      end
  | ReadError => unblock false c s st []
  | Eof => unblock true c s st []
  end.

Definition conn_step (k : Conn) (s : Server) (ev : Event) : step_result :=
  match mode k with
  | Serving =>
      match ev with
      | Recv i v => execute_command i (client k) s v
      | ReadError => finish false (client k) s []
      | Eof => finish true (client k) s []
      | Wake => Ret (k, s, [])
      end
  | Blocked t st => blocked_step t st (client k) s ev
  | Ended _ => Ret (k, s, [])
  end.

(** The connection on its own: its events in order, and everything it sends. *)
Fixpoint conn_run (k : Conn) (s : Server) (evs : list Event) : step_result :=
  match evs with
  | [] => Ret (k, s, [])
  | ev :: evs' =>
      match conn_step k s ev with
      | Ret (k1, s1, out1) =>
          match conn_run k1 s1 evs' with
          | Ret (k2, s2, out2) => Ret (k2, s2, out1 ++ out2)
          | Panic => Panic
          | OutOfFuel => OutOfFuel
          end
      | Panic => Panic
      | OutOfFuel => OutOfFuel
      end
  end.

(** [handle_connection_pipeline]: without a password everybody is authenticated. *)
Definition connect (s : Server) (client_id now : Z) : Conn :=
  mkConn (client_new client_id now (bool_decide (password s = None))) Serving.
End Connection.
