(* ===== verification/Safety.v ===== *)
(** * Safety: what holds whatever the clients send.

    Theorems about the connections of Connection: a command returns and keeps
    the invariants ([safe], for the whole command table), a request has one
    reply, a transaction is one step, nothing happens before authentication,
    and what is left of a connection that has ended. *)

From S2P Require Import Prelude Text F64 Reply Errors Resp Args Glob SortedSet TimeWheel Mocha Ops Store Refine ListCmd StringCmd KeyCmd HashCmd SetCmd Spop ZSetCmd BitmapCmd HllCmd Memory Handler Answers Requests Script Typed StateMachine PubSub App Session Connection.

Section Safety.
Context {LogId Membership : Type}.
Context `{E : Env} `{!EnvOk E} `{OF : OrderedFloat} `{ME : MemEnv} `{LE : LuaEnv} `{SS : !ScriptSpec LE} `{SE : !ServerEnv (LogId := LogId) (Membership := Membership)}.
Abbreviation Server := (Server (LogId := LogId) (Membership := Membership)).
Abbreviation Inputs := (Inputs (LogId := LogId) (Membership := Membership)).
Abbreviation command := (Inputs -> Client -> list Value -> Server -> outcome (Client * Server * result Value CacheCatError)).

(** ** Every command returns *)

(** The entries of other clients that Raft puts before ours. *)
Definition commit_ok (r : Commit (LogId := LogId) (Membership := Membership)) : Prop :=
  match r with Committed before _ => Forall (entry_ok script_fits) before | Refused _ => True end.
Definition lease_ok (l : Lease (LogId := LogId) (Membership := Membership)) : Prop :=
  match l with Leased before => Forall (entry_ok script_fits) before | _ => True end.
Definition inputs_ok (i : Inputs) : Prop := commit_ok (in_commit i) /\ lease_ok (in_lease i).

Definition client_ok (c : Client) : Prop :=
  0 <= cl_db_number c < 2 ^ 16 /\ Forall op_fits (default [] (transaction_queue c)).

(** The text can be run whatever its keys and arguments are. *)
Definition text_fits (script : bytes) : Prop := forall numkeys keys args proto, script_fits (mkEvalParams script numkeys keys args proto).

Definition server_ok (s : Server) : Prop :=
  CacheInv (kvs (state_machine s)) /\ map_Forall (fun _ script => text_fits script) (script_map s).

(** [cmd] returns on arguments that satisfy [P], and keeps everything in order. *)
Definition safe (P : list Value -> Prop) (cmd : command) : Prop :=
  forall i c items s, inputs_ok i -> client_ok c -> items_ok items -> server_ok s -> P items ->
    exists c' s' r, cmd i c items s = Ret (c', s', r) /\ client_ok c' /\ server_ok s' /\
      cl_id c' = cl_id c /\ password s' = password s.

Lemma safe_weaken (P Q : list Value -> Prop) cmd : (forall items, Q items -> P items) -> safe P cmd -> safe Q cmd.
Proof. intros H Hs i c items s ? ? ? ? HQ. by apply Hs; [..|apply H]. Qed.

Lemma merge_u64_range c d : 0 <= d < 2 ^ 16 -> is_u64 (merge_u64 c d).
Proof.
  intros Hd. rewrite merge_u64_val by done. unfold is_u64, u64_max. pose proof (Z.mod_pos_bound c (2 ^ 48) ltac:(lia)). lia.
Qed.

Lemma write_safe sm now op n r : CacheInv (kvs sm) -> op_fits op -> 0 <= n < 2 ^ 16 -> commit_ok r ->
  exists sm' res, write sm now op n r = Ret (sm', res) /\ CacheInv (kvs sm').
Proof.
  intros Hc Hop Hn Hr. unfold write, client_write. destruct r as [reason|before id]; [by eexists _, _|].
  destruct (apply_refines sm (before ++ [mkLogEntry id (Normal (request_new (generate_new_write_clock (kvs sm) now) n op))]))
    as (sm' & vs & -> & Hc' & _); [done| |].
  - apply Forall_app_2; [done|]. apply Forall_singleton. split; [by apply merge_u64_range|done].
  - destruct (ok_or (last vs) (str "no response")); by eexists _, _.
Qed.

Lemma read_safe sm now op n l : CacheInv (kvs sm) -> read_ok op -> lease_ok l ->
  exists sm' res, read sm now op n l = Ret (sm', res) /\ CacheInv (kvs sm').
Proof.
  intros Hc Hop Hl. unfold read. destruct l as [reason|reason|before]; [by eexists _, _..|].
  destruct (apply_refines sm before Hc Hl) as (sm1 & vs & -> & Hc1 & _).
  pose proof (read_clock_inv (kvs sm1) now Hc1) as Hc2. destruct (get_and_update_read_clock (kvs sm1) now) as [c1 rc]. cbn [fst] in Hc2.
  destruct (read_request_refines c1 op n (Some rc) Hc2 Hop) as (c2 & v & -> & Hc3 & _). by eexists _, _.
Qed.

Lemma write_op_safe i c s op post : inputs_ok i -> client_ok c -> server_ok s -> op_fits op ->
  exists s' r, write_op i c s op post = Ret (c, s', r) /\ server_ok s' /\ password s' = password s.
Proof.
  intros [Hi _] [Hn _] [Hs Hm] Hop. unfold write_op.
  destruct (write_safe (state_machine s) (in_now i) op (cl_db_number c) (in_commit i)) as (sm' & [v|e] & -> & Hc); try done; by eexists _, _.
Qed.

Lemma read_op_safe i c s op : inputs_ok i -> server_ok s -> read_ok op ->
  exists s' r, read_op i c s op = Ret (c, s', r) /\ server_ok s' /\ password s' = password s.
Proof.
  intros [_ Hi] [Hs Hm] Hop. unfold read_op.
  destruct (read_safe (state_machine s) (in_now i) op (cl_db_number c) (in_lease i)) as (sm' & r & -> & Hc); try done; by eexists _, _.
Qed.

Lemma write_with_safe f post : request_ok f -> safe (fun _ => True) (write_with f post).
Proof.
  intros Hf i c items s Hi Hc Hit Hs _. unfold write_with. destruct (f items) as [op|e] eqn:Ef; [|by eexists _, _, _].
  destruct (write_op_safe i c s op (post op)) as (s' & r & -> & ? & ?); try done; [by eapply op_ok_scripts, Hf|]. by eexists _, _, _.
Qed.

(** A read whose operation is fine on the arguments that satisfy [P]. *)
Definition reads_ok (P : list Value -> Prop) (f : list Value -> parsed ReadOperation) : Prop :=
  forall items op, items_ok items -> P items -> f items = Ok op -> read_ok op.

Lemma read_with_safe P f : reads_ok P f -> safe P (read_with f).
Proof.
  intros Hf i c items s Hi Hc Hit Hs HP. unfold read_with. destruct (f items) as [op|e] eqn:Ef; [|by eexists _, _, _].
  destruct (read_op_safe i c s op) as (s' & r & -> & ? & ?); try done; [by eapply Hf|]. by eexists _, _, _.
Qed.

Lemma queued_safe P text f k :
  (forall items op, items_ok items -> P items -> f items = Ok op -> op_fits op) -> safe P k -> safe P (queued text f k).
Proof.
  intros Hf Hk i c items s Hi Hc Hit Hs HP. unfold queued. destruct (transaction_queue c) as [vec|] eqn:Eq; [|by apply Hk].
  destruct (f items) as [op|e] eqn:Ef; [|by eexists _, _, _]. eexists _, _, _. split; [done|]. split_and!; try done.
  destruct Hc as [Hn Hv]. rewrite Eq in Hv. split; [done|]. cbn. apply Forall_app_2; [done|]. apply Forall_singleton. by eapply Hf.
Qed.

Lemma write_command_safe text f post : request_ok f -> safe (fun _ => True) (queued text f (write_with f post)).
Proof. intros Hf. apply queued_safe; [|by apply write_with_safe]. intros items op Hit _ Ho. by eapply op_ok_scripts, Hf. Qed.

Lemma read_command_safe P text f : reads_ok P f -> safe P (queued text (read_raft f) (read_with f)).
Proof.
  intros Hf. apply queued_safe; [|by apply read_with_safe]. intros items op Hit HP. unfold read_raft.
  destruct (f items) as [r|] eqn:Ef; [|done]. intros [= <-]. by eapply Hf.
Qed.

Lemma operation_reads_ok f : operation_ok f -> reads_ok (fun _ => True) f.
Proof. intros Hf items op Hit _. by apply Hf. Qed.

(** KEYS needs a pattern that the matcher accepts. *)
Definition keys_guard (items : list Value) : Prop :=
  forall pattern, string_bytes_clone (item items 1) = Some pattern -> is_Some (glob_tokens pattern).

Lemma keys_reads_ok : reads_ok keys_guard keys_operation.
Proof.
  intros items op _ Hg H. unfold keys_operation, string_item, string_or in H. parsed H. cbn. by apply Hg.
Qed.

Lemma other_safe name : safe (fun _ => True) (other name).
Proof. intros i c items s Hi Hc Hit Hs _. by eexists _, _, _. Qed.

Ltac answers := intros i c items s Hi Hc Hit Hs _; unfold reply, fail;
  repeat case_match; eexists _, _, _; (split; [reflexivity|]); by split_and!.

Lemma select_safe : safe (fun _ => True) select_command.
Proof.
  intros i c items s Hi Hc Hit Hs _. unfold select_command. destruct (select_parse items) as [n|e] eqn:En; [|by eexists _, _, _].
  case_match; [by eexists _, _, _|]. eexists _, _, _. split; [done|]. split_and!; try done. split; [|apply Hc]. cbn.
  assert (forall b z, parse_u16_str b = Some z -> 0 <= z < 2 ^ 16) as Hp.
  { intros b z Hb. unfold parse_u16_str in Hb. case_match eqn:Em; [|done]. destruct (Z.ltb_spec z0 (2 ^ 16)); [|done].
    injection Hb as <-. split; [|done]. revert Em. assert (forall l, parse_digits l = Some z0 -> 0 <= z0) as Hd.
    { intros [|x l]; [done|]. apply digits_val_nonneg. lia. } repeat case_match; apply Hd. }
  unfold select_parse in En. pose proof (fun z => Z.mod_pos_bound z (2 ^ 16) ltac:(lia)).
  repeat case_match; try discriminate En; try (apply ok_or_ok in En); try (injection En as <-); eauto with lia.
  all: repeat case_match; try discriminate En; eauto.
Qed.

Lemma ping_safe : safe (fun _ => True) ping_command.
Proof. unfold ping_command. answers. Qed.
Lemma echo_safe : safe (fun _ => True) echo_command.
Proof. unfold echo_command. answers. Qed.
Lemma quit_safe : safe (fun _ => True) quit_command.
Proof. unfold quit_command. answers. Qed.
Lemma auth_safe : safe (fun _ => True) auth_command.
Proof. unfold auth_command. answers. Qed.
Lemma setname_safe : safe (fun _ => True) setname_command.
Proof. unfold setname_command. answers. Qed.
Lemma setinfo_safe : safe (fun _ => True) setinfo_command.
Proof. unfold setinfo_command. answers. Qed.
Lemma pubsub_safe : safe (fun _ => True) pubsub_command.
Proof. unfold pubsub_command. answers. Qed.
Lemma publish_safe : safe (fun _ => True) publish_command.
Proof. unfold publish_command. answers. Qed.
Lemma unsubscribe_safe t parse : safe (fun _ => True) (unsubscribe_with t parse).
Proof.
  intros i c items s Hi Hc Hit Hs _. unfold unsubscribe_with. destruct (parse items) as [o|e]; [|by eexists _, _, _].
  unfold unsubscribe_names. destruct (match o with None => _ | Some l => _ end) as [ps v]. by eexists _, _, _.
Qed.
Lemma multi_safe : safe (fun _ => True) multi_command.
Proof.
  unfold multi_command. intros i c items s Hi Hc Hit Hs _.
  repeat case_match; eexists _, _, _; (split; [reflexivity|]); split_and!; try done; (split; [apply Hc|by constructor]).
Qed.
Lemma discard_safe : safe (fun _ => True) discard_command.
Proof.
  unfold discard_command. intros i c items s Hi Hc Hit Hs _.
  repeat case_match; eexists _, _, _; (split; [reflexivity|]); split_and!; try done; (split; [apply Hc|by constructor]).
Qed.

Lemma hello_safe : safe (fun _ => True) hello_command.
Proof.
  unfold hello_command. intros i c items s Hi Hc Hit Hs _. destruct (hello_parse items) as [p|e]; [|by eexists _, _, _].
  destruct (match hello_password p with Some _ => _ | None => _ end); [by eexists _, _, _|].
  eexists _, _, _. split; [reflexivity|]. by destruct (hello_password p), (hello_client_name p), (hello_proto p).
Qed.

Lemma exec_safe : safe (fun _ => True) exec_command.
Proof.
  unfold exec_command. intros i c items s Hi Hc Hit Hs _. case_match; [by eexists _, _, _|].
  destruct (transaction_queue c) as [ops|] eqn:Eq; [|by eexists _, _, _]. destruct Hc as [Hn Hq]. rewrite Eq in Hq.
  assert (client_ok (set_queue c None)) as Hc' by (split; [done|by constructor]).
  destruct (write_op_safe i (set_queue c None) s (Redis (RedisExec ops)) id Hi) as (s' & r & -> & Hs' & Hp); [done|done| |].
  - by apply with_scripts_exec.
  - destruct r; eexists _, _, _; (split; [reflexivity|]); by split_and!.
Qed.

(** What SCRIPT is asked to keep has to be a script that can be run. *)
Definition script_guard (items : list Value) : Prop :=
  2 <= argc items /\ forall script, script_parse items = Ret (Ok (ScriptLoad script)) -> text_fits script.

Lemma script_safe : safe script_guard script_command.
Proof.
  intros i c items s Hi Hc Hit [Hs Hm] [Ha Hl]. unfold script_command.
  destruct (script_parse items) as [[[]|]| |] eqn:Ep; try (by eexists _, _, _).
  - eexists _, _, _. split; [reflexivity|]. split_and!; try done. split; [done|]. apply map_Forall_insert_2; [by apply Hl|done].
  - unfold script_parse in Ep. destruct items as [|? [|? ?]]; [discriminate Ep|unfold argc in Ha; cbn in Ha; lia|discriminate Ep].
  - unfold script_parse in Ep. destruct items as [|? [|? ?]]; [discriminate Ep|unfold argc in Ha; cbn in Ha; lia|discriminate Ep].
Qed.

Definition eval_guard (items : list Value) : Prop := forall script numkeys keys args proto,
  eval_parse "eval" "script" items = Ok (script, numkeys, keys, args) -> script_fits (mkEvalParams script numkeys keys args proto).

Lemma eval_safe : safe eval_guard eval_command.
Proof.
  apply queued_safe; unfold eval_raft_request.
  - intros items op _ Hg H. destruct (eval_parse _ _ items) as [[[[script numkeys] keys] args]|e] eqn:Ep; [|done].
    injection H as <-. by apply (Hg script).
  - intros i c items s Hi Hc Hit Hs Hg. destruct (eval_parse _ _ items) as [[[[script numkeys] keys] args]|e] eqn:Ep; [|by eexists _, _, _].
    cbn [result_bind set_proto_of]. destruct (write_op_safe i c s (Redis (RedisEval (mkEvalParams script numkeys keys args (proto_version c)))) id Hi Hc Hs)
      as (s' & r & E1 & ? & ?); [by apply (Hg script)|]. exists c, s', r. by split_and!.
Qed.

Lemma evalsha_safe : safe (fun _ => True) evalsha_command.
Proof.
  intros i c items s Hi Hc Hit Hs _. unfold evalsha_command. destruct (evalsha_parse items) as [[[[sha numkeys] keys] args]|e]; [|by eexists _, _, _].
  destruct (script_map s !! sha) as [script|] eqn:Em; [|by eexists _, _, _].
  destruct (write_op_safe i c s (Redis (RedisEval (mkEvalParams script numkeys keys args (proto_version c)))) id Hi Hc Hs) as (s' & r & E1 & ? & ?).
  - apply (proj2 Hs sha script Em).
  - exists c, s', r. by split_and!.
Qed.

Lemma with_sub_commands_safe name table :
  Forall (fun p : String.string * command => safe (fun _ => True) p.2) table -> safe (fun _ => True) (with_sub_commands name table).
Proof.
  intros Ht i c items s Hi Hc Hit Hs _. unfold with_sub_commands.
  destruct items as [|x [|v items]]; [by eexists _, _, _..|]. destruct (word_of v) as [w|]; [|by eexists _, _, _].
  unfold lookup_command. destruct (find _ table) as [[n cmd]|] eqn:Ef; [|by eexists _, _, _]. cbn.
  apply find_some in Ef as [Hin _]. apply list_elem_of_In in Hin.
  exact (proj1 (Forall_forall _ _) Ht (n, cmd) Hin i c _ s Hi Hc Hit Hs I).
Qed.

(** What a command needs beyond well-formed arguments: the script of EVAL and what
    SCRIPT keeps can be run, a bare SCRIPT panics, and so do some patterns of KEYS. *)
Definition guard (name : bytes) (items : list Value) : Prop :=
  if is_word name "EVAL" then eval_guard items
  else if is_word name "SCRIPT" then script_guard items
  else if is_word name "KEYS" then keys_guard items
  else True.

Ltac command_safe :=
  first [ apply other_safe | apply ping_safe | apply echo_safe | apply select_safe | apply quit_safe | apply auth_safe
        | apply hello_safe | apply publish_safe | apply pubsub_safe | apply unsubscribe_safe | apply multi_safe
        | apply discard_safe | apply exec_safe | apply evalsha_safe
        | apply write_with_safe; auto with requests | apply write_command_safe; auto with requests
        | apply read_with_safe, operation_reads_ok; auto with requests
        | apply read_command_safe, operation_reads_ok; auto with requests ].

Lemma client_safe : safe (fun _ => True) client_command.
Proof. apply with_sub_commands_safe. repeat apply Forall_cons_2; [apply other_safe|apply setname_safe|apply setinfo_safe|by apply Forall_nil_2]. Qed.

Lemma memory_safe : safe (fun _ => True) memory_command.
Proof. apply with_sub_commands_safe. repeat apply Forall_cons_2; try apply Forall_nil_2; cbn [snd]; command_safe. Qed.

Lemma commands_safe : Forall (fun p : String.string * command => safe (guard (str p.1)) p.2) commands.
Proof.
  unfold commands. repeat apply Forall_cons_2; try apply Forall_nil_2; cbn [fst snd].
  all: try (apply (safe_weaken (fun _ => True)); [done|]; solve [command_safe | apply client_safe | apply memory_safe]).
  - apply (safe_weaken keys_guard); [by intros items H|]. apply read_command_safe, keys_reads_ok.
  - apply (safe_weaken eval_guard); [by intros items H|]. apply eval_safe.
  - apply (safe_weaken script_guard); [by intros items H|]. apply script_safe.
Qed.

Lemma lookup_safe name cmd : lookup_command commands name = Some cmd -> safe (guard name) cmd.
Proof.
  unfold lookup_command. destruct (find _ commands) as [[n c]|] eqn:Ef; [|done]. cbn. intros [= <-].
  apply find_some in Ef as [Hin Hn]. apply list_elem_of_In in Hin. apply bool_decide_eq_true in Hn. subst name.
  exact (proj1 (Forall_forall _ _) commands_safe (n, c) Hin).
Qed.

Lemma run_command_safe name cmd i c items s : lookup_command commands name = Some cmd ->
  inputs_ok i -> client_ok c -> items_ok items -> server_ok s -> guard name items ->
  exists c' s' v, run_command cmd i c items s = Ret (c', s', v) /\ client_ok c' /\ server_ok s'.
Proof.
  intros Hl Hi Hc Hit Hs Hg. destruct (lookup_safe name cmd Hl i c items s Hi Hc Hit Hs Hg) as (c' & s' & r & Hr & ? & ? & _).
  unfold run_command. rewrite Hr. by eexists _, _, _.
Qed.

(** ** Connections *)

(** The decoder has delivered [v] from some buffer. *)
Definition decoded (v : Value) : Prop :=
  exists buffer rest, alloc_ok buffer /\ take_from_bytes_stream buffer = Ret (Some (v, rest)).

Definition event_ok (ev : Event) : Prop :=
  match ev with
  | Recv i v => inputs_ok i /\ decoded v /\ forall name items, parse_command v = Ok (name, items) -> guard name items
  | _ => True
  end.

Lemma decoded_items_ok v name items : decoded v -> parse_command v = Ok (name, items) -> items_ok items.
Proof.
  intros (buffer & rest & Hu & Hd) Hp. pose proof (decode_wf buffer v rest Hu Hd) as Hw.
  destruct v as [| | | |[[|x l]|]| | | | | | | | | | |]; try done. cbn [parse_command] in Hp.
  destruct (ok_or (word_of x) _) as [w|]; [|done]. injection Hp as <- <-. cbn [value_wf] in Hw. rewrite value_wf_all, <- Forall_cons in Hw.
  destruct Hw as [Hlen Hall]. split.
  - eapply Forall_impl; [exact Hall|]. by intros y Hy n ->.
  - unfold argc, alloc_ok in *. lia.
Qed.

Definition is_request (ev : Event (LogId := LogId) (Membership := Membership)) : bool :=
  match ev with Recv _ _ => true | _ => false end.

(** The step returns, keeps the invariants, and [out] is one value for a
    request, unless the connection ends with an error. *)
Definition step_ok (r : outcome (Conn * Server * list Value)) (request : bool) : Prop :=
  exists k' s' out, r = Ret (k', s', out) /\ client_ok (client k') /\ server_ok s' /\
    (request = true -> length out = 1%nat \/ out = [] /\ mode k' = Ended false).

Lemma resume_ok c s v b : client_ok c -> server_ok s -> step_ok (resume c s [v]) b.
Proof. intros Hc Hs. unfold resume, finish. destruct (closed c); eexists _, _, _; (split; [done|]); split_and!; auto. Qed.

Lemma finish_ok ok c s : client_ok c -> server_ok s -> step_ok (finish ok c s []) false.
Proof. intros Hc Hs. unfold finish. eexists _, _, _. split; [done|]. by destruct ok. Qed.

Lemma execute_command_ok i c s v : client_ok c -> server_ok s -> event_ok (Recv i v) ->
  step_ok (execute_command i c s v) true.
Proof.
  intros Hc Hs (Hi & Hd & Hv). pose proof (decoded_items_ok v) as Hit.
  unfold execute_command. destruct (parse_command v) as [[name items]|e]; [|by apply resume_ok].
  specialize (Hit name items Hd eq_refl). specialize (Hv name items eq_refl). case_match; [by apply resume_ok|].
  destruct (lookup_command commands name) as [cmd|] eqn:El.
  - destruct (run_command_safe name cmd i (set_last_cmd (touch c (in_now i)) name) items s El) as (c' & s' & r & -> & ? & ?); try done.
    by apply resume_ok.
  - destruct (block_commands name) as [t|]; [|by apply resume_ok].
    destruct (_ items) as [l|e]; [|by apply resume_ok].
    destruct (subscribe_to t _ l _) as [ps frames]. eexists _, _, _. split; [done|]. split_and!; auto.
Qed.

Lemma unsubscribe_names_rest t c s o : let s' := (unsubscribe_names t c s o).1 in
  state_machine s' = state_machine s /\ script_map s' = script_map s /\ password s' = password s.
Proof. unfold unsubscribe_names. by destruct (match o with None => _ | Some l => _ end). Qed.

Lemma during_block_ok t c name items s : client_ok c -> server_ok s ->
  let r := execute_during_block t c name items s in client_ok r.1.1 /\ server_ok r.1.2.
Proof.
  intros Hc Hs. assert (execute_during_block t c name items s = run_during_block t c name items s) as -> by (by destruct t).
  unfold run_during_block, server_ok in *. cbv zeta.
  repeat match goal with
  | |- context [if ?b then _ else _] => destruct b
  | |- context [match ?x with Ok _ => _ | Err _ => _ end] => destruct x
  | |- context [unsubscribe_names ?t ?c ?s ?o] =>
      destruct (unsubscribe_names_rest t c s o) as (Hsm & Hmap & _); destruct (unsubscribe_names t c s o); cbn [fst] in Hsm, Hmap
  | |- context [subscribe_to ?t ?ps ?l ?id] => destruct (subscribe_to t ps l id)
  end; cbn; by rewrite ?Hsm, ?Hmap.
Qed.

Lemma blocking_context_ok i t c name items s : inputs_ok i -> client_ok c -> server_ok s -> items_ok items -> guard name items ->
  exists c' s' r, handle_command_in_blocking_context i t c name items s = Ret (c', s', r) /\ client_ok c' /\ server_ok s'.
Proof.
  intros Hi Hc Hs Hit Hg. unfold handle_command_in_blocking_context. case_match.
  - destruct (lookup_command commands name) as [cmd|] eqn:El; [|by eexists _, _, _].
    destruct (run_command_safe name cmd i c items s El) as (c' & s' & r & -> & ? & ?); try done. by eexists _, _, _.
  - pose proof (during_block_ok t c name items s Hc Hs). destruct (execute_during_block t c name items s) as [[c' s'] r].
    by eexists _, _, _.
Qed.

Lemma unblock_ok ok c s st out b : client_ok c -> server_ok s ->
  (b = true -> length out = 1%nat \/ out = [] /\ ok = false) -> step_ok (unblock ok c s st out) b.
Proof.
  intros Hc Hs Hout. unfold unblock, resume, finish.
  destruct ok; [destruct (closed _)|]; eexists _, _, _; (split; [done|]); split_and!; try done; naive_solver.
Qed.

Lemma blocked_step_ok t st c s ev : client_ok c -> server_ok s -> event_ok ev ->
  step_ok (blocked_step t st c s ev) (is_request ev).
Proof.
  intros Hc Hs Hev. unfold blocked_step. destruct ev as [i v| | |]; cbn [is_request].
  - destruct Hev as (Hi & Hd & Hv). pose proof (decoded_items_ok v) as Hit.
    destruct (parse_command v) as [[name items]|e]; [|eexists _, _, _; split; [done|]; split_and!; auto].
    specialize (Hit name items Hd eq_refl). specialize (Hv name items eq_refl).
    destruct (blocking_context_ok i t c name items s) as (c' & s' & r & -> & ? & ?); try done.
    destruct r as [w|e]; [|apply unblock_ok; auto]. destruct (closed c'); [apply unblock_ok; auto|].
    eexists _, _, _. split; [done|]. split_and!; auto.
  - by apply unblock_ok.
  - by apply unblock_ok.
  - destruct (stream_changed _ _ st) as [|[w|] st'|]; [|..|by apply unblock_ok]; [..|by apply unblock_ok];
      (eexists _, _, _; split; [done|]; by split_and!).
Qed.

Lemma conn_step_ok k s ev : client_ok (client k) -> server_ok s -> event_ok ev ->
  (forall ok, mode k <> Ended ok) -> step_ok (conn_step k s ev) (is_request ev).
Proof.
  intros Hc Hs Hev Hm. unfold conn_step. destruct (mode k) as [|t st|ok].
  - destruct ev as [i v| | |]; cbn [is_request].
    + by apply execute_command_ok.
    + by apply finish_ok.
    + by apply finish_ok.
    + by eexists _, _, _.
  - by apply blocked_step_ok.
  - by destruct (Hm ok).
Qed.

Definition ended (k : Conn) : bool := match mode k with Ended _ => true | _ => false end.


(** A request gets exactly one reply frame, in the normal and in the
    blocking mode, or the connection is closed with an error and no reply at
    all; nothing else happens. *)
Theorem one_reply k s i v : client_ok (client k) -> server_ok s -> event_ok (Recv i v) ->
  (forall ok, mode k <> Ended ok) ->
  exists k' s' out, conn_step k s (Recv i v) = Ret (k', s', out) /\
    (length out = 1%nat \/ out = [] /\ mode k' = Ended false).
Proof.
  intros Hc Hs Hev Hm. destruct (conn_step_ok k s (Recv i v) Hc Hs Hev Hm) as (k' & s' & out & H & _ & _ & Ho).
  exists k', s', out. split; [done|]. by apply Ho.
Qed.

(** ** Transactions *)

(** The commands that can be queued, the text they answer with and the
    operation they queue. *)
Definition queue_table : list (String.string * String.string * (list Value -> parsed Operation)) := [
  ("GET", "QUEUED", read_raft get_operation); ("SET", "QUEUED", set_request); ("DEL", "QUEUED", del_request);
  ("INCR", "QUEUED", incr_request); ("INCRBY", "QUEUED", incrby_request); ("MSET", "QUEUED", mset_request);
  ("MGET", "QUEUED", read_raft mget_operation); ("APPEND", "QUEUED", append_request);
  ("EXPIRE", "QUEUED", expire_request); ("PEXPIRE", "QUEUED", pexpire_request);
  ("EXISTS", "QUEUED", read_raft exists_operation); ("PERSIST", "QUEUED", persist_request);
  ("RENAME", "QUEUED", rename_request); ("RENAMENX", "QUEUED", renamenx_request);
  ("PSETEX", "QUEUED", psetex_request); ("SETEX", "QUEUED", setex_request); ("SETNX", "QUEUED", setnx_request);
  ("STRLEN", "QUEUED", read_raft strlen_operation); ("DECRBY", "QUEUED", decrby_request);
  ("DECR", "QUEUED", decr_request); ("GETSET", "QUEUED", getset_request);
  ("FLUSHDB", "QUEUED", flushdb_request); ("FLUSHALL", "QUEUED", flushall_request);
  ("KEYS", "QUEUED", read_raft keys_operation); ("UNLINK", "QUEUED", unlink_request);
  ("DBSIZE", "QUEUED", read_raft dbsize_operation); ("PFCOUNT", "QUEUED", read_raft pfcount_operation);
  ("PFADD", "QUEUED", pfadd_request); ("LPUSH", "QUEUED", lpush_request); ("RPUSH", "QUEUED", rpush_request);
  ("LRANGE", "QUEUED", read_raft lrange_operation); ("LLEN", "QUEUED", read_raft llen_operation);
  ("LPOP", "QUEUED", lpop_request); ("RPOP", "QUEUED", rpop_request);
  ("LINDEX", "QUEUED", read_raft lindex_operation); ("LREM", "QUEUED", lrem_request);
  ("LSET", "QUEUED", lset_request); ("LTRIM", "QUEUED", ltrim_request); ("HSET", "QUEUED", hset_request);
  ("HGET", "QUEUED", read_raft hget_operation); ("HINCRBY", "QUEUED", hincrby_request);
  ("HMGET", "QUEUED", read_raft hmget_operation); ("HDEL", "QUEUED", hdel_request);
  ("HGETALL", "QUEUED", read_raft hgetall_operation); ("HKEYS", "QUEUED", read_raft hkeys_operation);
  ("HVALS", "QUEUED", read_raft hvals_operation); ("HEXISTS", "QUEUED", read_raft hexists_operation);
  ("HLEN", "QUEUED", read_raft hlen_operation); ("HSETNX", "QUEUED", hsetnx_request);
  ("SADD", "QUEUED", sadd_request); ("SMEMBERS", "QUEUED", read_raft smembers_operation);
  ("SREM", "QUEUED", srem_request); ("SISMEMBER", "QUEUED", read_raft sismember_operation);
  ("SPOP", "QUEUED", spop_request); ("SRANDMEMBER", "QUEUED", read_raft srandmember_operation);
  ("SINTER", "QUEUED", read_raft sinter_operation); ("SINTERSTORE", "QUEUED", sinterstore_request);
  ("SUNION", "QUEUED", read_raft sunion_operation); ("SUNIONSTORE", "QUEUED", sunionstore_request);
  ("SDIFF", "QUEUED", read_raft sdiff_operation); ("SDIFFSTORE", "QUEUED", sdiffstore_request);
  ("ZINCRBY", "QUEUED", zincrby_request); ("SETBIT", "SETBIT", setbit_request);
  ("GETBIT", "GETBIT", read_raft getbit_operation); ("BITCOUNT", "BITCOUNT", read_raft bitcount_operation);
  ("BITPOS", "BITPOS", read_raft bitpos_operation); ("SCARD", "QUEUED", read_raft scard_operation);
  ("BITFIELD", "BITFIELD", bitfield_request); ("EVAL", "QUEUED", eval_raft_request)]%string.

Lemma queue_table_ok : Forall (fun r : String.string * String.string * (list Value -> parsed Operation) =>
  exists k : command, lookup_command commands (str r.1.1) = Some (queued r.1.2 r.2 k)) queue_table.
Proof. unfold queue_table. repeat apply Forall_cons_2; try apply Forall_nil_2; cbn [fst snd]; eexists; reflexivity. Qed.

(** The steps of one connection, each on the server as the other connections
    have left it; the result has the server and what was sent after each. *)
Fixpoint conn_steps (k : Conn) (l : list (Server * Event)) : outcome (Conn * list (Server * list Value)) :=
  match l with
  | [] => Ret (k, [])
  | (s, ev) :: l' =>
      match conn_step k s ev with
      | Ret (k1, s1, out) =>
          match conn_steps k1 l' with
          | Ret (k2, outs) => Ret (k2, (s1, out) :: outs)
          | Panic => Panic
          | OutOfFuel => OutOfFuel
          end
      | Panic => Panic
      | OutOfFuel => OutOfFuel
      end
  end.

(** A request that can be queued. *)
Record Queueable := mkQueueable {
  qu_server : Server; qu_inputs : Inputs; qu_value : Value; qu_text : String.string; qu_op : Operation
}.

Definition queueable (q : Queueable) : Prop :=
  exists name f items, (name, qu_text q, f) ∈ queue_table /\
    parse_command (qu_value q) = Ok (str name, items) /\ f items = Ok (qu_op q).

Definition request (words : list String.string) : Value := Array (Some ((fun w => bulk (str w)) <$> words)).

Definition ready (c : Client) : Prop := authenticated c = true /\ closed c = false.

Lemma queue_step c vec q : ready c -> transaction_queue c = Some vec -> queueable q ->
  exists c', conn_step (mkConn c Serving) (qu_server q) (Recv (qu_inputs q) (qu_value q)) =
      Ret (mkConn c' Serving, qu_server q, [SimpleString (str (qu_text q))]) /\
    ready c' /\ transaction_queue c' = Some (vec ++ [qu_op q]) /\ cl_db_number c' = cl_db_number c.
Proof.
  intros [Ha Hcl] Hq (name & f & items & Hin & Hp & Hf).
  destruct (proj1 (Forall_forall _ _) queue_table_ok _ Hin) as [k Hk]. cbn [fst snd] in Hk.
  unfold conn_step, execute_command. cbn [mode client]. rewrite Hp. cbn [authenticated set_last_cmd touch]. rewrite Ha. cbn [negb andb].
  rewrite Hk. unfold run_command, queued. cbn [transaction_queue set_last_cmd touch]. rewrite Hq, Hf. cbn [response reply].
  unfold resume. cbn [closed set_queue set_last_cmd touch]. rewrite Hcl. eexists. split; [done|]. by split_and!.
Qed.

Lemma queue_steps l : forall c vec, ready c -> transaction_queue c = Some vec -> Forall queueable l ->
  exists c', (forall rest, conn_steps (mkConn c Serving) (((fun q => (qu_server q, Recv (qu_inputs q) (qu_value q))) <$> l) ++ rest) =
      match conn_steps (mkConn c' Serving) rest with
      | Ret (k, outs) => Ret (k, ((fun q => (qu_server q, [SimpleString (str (qu_text q))])) <$> l) ++ outs)
      | Panic => Panic
      | OutOfFuel => OutOfFuel
      end) /\
    ready c' /\ transaction_queue c' = Some (vec ++ (qu_op <$> l)) /\ cl_db_number c' = cl_db_number c.
Proof.
  induction l as [|q l IH]; intros c vec Hr Hq Hl.
  - exists c. split_and!; [|done| |done]; [|by rewrite app_nil_r]. intros rest. cbn.
    by destruct (conn_steps _ rest) as [[? ?]| |].
  - apply Forall_cons in Hl as [Hq1 Hl]. destruct (queue_step c vec q Hr Hq Hq1) as (c1 & E1 & Hr1 & Hq2 & Hn1).
    destruct (IH c1 _ Hr1 Hq2 Hl) as (c2 & E2 & Hr2 & Hq3 & Hn2). exists c2. split_and!; [|done| |congruence].
    + intros rest. cbn [fmap list_fmap app conn_steps]. rewrite E1, E2. by destruct (conn_steps (mkConn c2 Serving) rest) as [[? ?]| |].
    + by rewrite Hq3, <- app_assoc.
Qed.

Lemma multi_step c s i : ready c -> transaction_queue c = None ->
  exists c', conn_step (mkConn c Serving) s (Recv i (request ["MULTI"%string])) = Ret (mkConn c' Serving, s, [value_ok]) /\
    ready c' /\ transaction_queue c' = Some [] /\ cl_db_number c' = cl_db_number c.
Proof.
  intros [Ha Hcl] Hq. unfold conn_step, execute_command. cbn [mode client].
  change (parse_command (request ["MULTI"%string])) with (Ok (E := ProtocolError) (str "MULTI", [bulk (str "MULTI")])). cbv beta iota.
  cbn [authenticated set_last_cmd touch]. rewrite Ha. cbn [negb andb].
  change (lookup_command commands (str "MULTI")) with (Some (multi_command (LogId := LogId) (Membership := Membership))). cbv beta iota.
  unfold run_command, multi_command. change (2 <=? argc [bulk (str "MULTI")]) with false. cbn [transaction_queue set_last_cmd touch].
  rewrite Hq. cbn [response reply]. unfold resume. cbn [closed set_flag set_queue set_last_cmd touch]. rewrite Hcl. by eexists.
Qed.

Lemma exec_step_conn c s i ops sm' v : ready c -> transaction_queue c = Some ops ->
  write (state_machine s) (in_now i) (Redis (RedisExec ops)) (cl_db_number c) (in_commit i) = Ret (sm', Ok v) ->
  exists c', conn_step (mkConn c Serving) s (Recv i (request ["EXEC"%string])) =
      Ret (mkConn c' Serving, set_machine s sm', [v]) /\ transaction_queue c' = None.
Proof.
  intros [Ha Hcl] Hq Hw. unfold conn_step, execute_command. cbn [mode client].
  change (parse_command (request ["EXEC"%string])) with (Ok (E := ProtocolError) (str "EXEC", [bulk (str "EXEC")])). cbv beta iota.
  cbn [authenticated set_last_cmd touch]. rewrite Ha. cbn [negb andb].
  change (lookup_command commands (str "EXEC")) with (Some (exec_command (LogId := LogId) (Membership := Membership))). cbv beta iota.
  unfold run_command, exec_command. change (2 <=? argc [bulk (str "EXEC")]) with false. cbn [transaction_queue set_last_cmd touch].
  rewrite Hq. unfold write_op. cbn [cl_db_number set_queue set_last_cmd touch]. rewrite Hw. cbn [response reply].
  unfold resume. cbn [closed set_flag set_queue set_last_cmd touch]. rewrite Hcl. by eexists.
Qed.

(** C3: a transaction is atomic. From MULTI to EXEC, with other connections
    changing the server at will in between, each queued command answers at once
    and leaves the server as it found it; EXEC then commits all of them as one
    entry of the log, so they are applied in their order, at one clock, with
    nothing in between, and the reply has an allowed answer for each. *)
Theorem transaction_atomic c l s0 i0 s i before id :
  ready c -> transaction_queue c = None -> 0 <= cl_db_number c < 2 ^ 16 ->
  Forall queueable l -> Forall op_fits (qu_op <$> l) ->
  server_ok s -> in_commit i = Committed before id -> Forall (entry_ok script_fits) before ->
  let sm := state_machine s in
  exists k' sm' rs st,
    conn_steps (mkConn c Serving)
      ((s0, Recv i0 (request ["MULTI"%string])) ::
       ((fun q => (qu_server q, Recv (qu_inputs q) (qu_value q))) <$> l) ++ [(s, Recv i (request ["EXEC"%string]))]) =
    Ret (k', (s0, [value_ok]) :: ((fun q => (qu_server q, [SimpleString (str (qu_text q))])) <$> l) ++
             [(set_machine s sm', [Array (Some rs)])]) /\
    transaction_queue (client k') = None /\ mode k' = Serving /\
    log_runs (view (kvs sm)) before st /\
    let clk := Z.max st.1 (generate_new_write_clock (kvs sm) (in_now i) mod 2 ^ 48) in
    write_logic_clock (kvs sm') = clk /\
    in_order (op_answers clk clk (cl_db_number c)) (qu_op <$> l) (live clk <$> st.2) (abs (kvs sm')) rs.
Proof.
  intros Hrd Hq Hn Hl Hops Hs Hcommit Hb sm.
  destruct (multi_step c s0 i0 Hrd Hq) as (c1 & E1 & Hrd1 & Hq1 & Hn1).
  destruct (queue_steps l c1 [] Hrd1 Hq1 Hl) as (c2 & E2 & Hrd2 & Hq2 & Hn2). cbn [app] in Hq2.
  destruct (write_committed sm (in_now i) (Redis (RedisExec (qu_op <$> l))) (cl_db_number c) before id)
    as (st & sm' & v & Hst & Ew & _ & Hv & Hr); [apply Hs|by apply with_scripts_exec|done|done|].
  apply answers_exec_inv in Hr as (rs & -> & Hrs).
  destruct (exec_step_conn c2 s i (qu_op <$> l) sm' (Array (Some rs)) Hrd2 Hq2) as (c3 & E3 & Hq3).
  { by rewrite Hn2, Hn1, Hcommit. }
  exists (mkConn c3 Serving), sm', rs, st. cbn [conn_steps]. rewrite E1, E2. cbn [conn_steps]. by rewrite E3.
Qed.

(** ** Authentication *)

(** The event is an AUTH with the password [p]. *)
Definition offers (p : bytes) (ev : Event (LogId := LogId) (Membership := Membership)) : bool :=
  match ev with
  | Recv _ v =>
      match parse_command v with
      | Ok (name, [_; x]) =>
          (is_word name "AUTH" && match as_str_lossy x with Some cs => bool_decide (concat cs = p) | None => false end)%bool
      | _ => false
      end
  | _ => false
  end.

(** An error, or the answer to QUIT. *)
Definition plain_reply (v : Value) : Prop := v = value_ok \/ exists e, v = Error e.

(** A connection that has not authenticated: it has changed nothing, except that
    it may be over and its client gone from the subscriptions. *)
Definition outside (s0 : Server) (k : Conn) (s : Server) : Prop :=
  authenticated (client k) = false /\
  (mode k = Serving /\ s = s0 \/
   exists ok, mode k = Ended ok /\ (s = s0 \/ s = set_broadcast s0 (remove_client (broadcast s0) (cl_id (client k))))).

Definition outside_step (s0 : Server) (id : Z) (r : outcome (Conn * Server * list Value)) : Prop :=
  exists k' s' out, r = Ret (k', s', out) /\ outside s0 k' s' /\ cl_id (client k') = id /\ Forall plain_reply out.

Lemma resume_outside c s v : authenticated c = false -> plain_reply v -> outside_step s (cl_id c) (resume c s [v]).
Proof.
  intros Ha Hv. unfold resume, finish. destruct (closed c); eexists _, _, _; (split; [done|]); split_and!; try done;
    try (by apply Forall_singleton); (split; [done|]); [right; exists true; auto|by left].
Qed.

Lemma auth_outside (i : Inputs) c items (s : Server) p : password s = Some p -> authenticated c = false ->
  (forall x y cs, items = [x; y] -> as_str_lossy y = Some cs -> concat cs <> p) ->
  exists e, auth_command i c items s = Ret (c, s, Err (Protocol e)).
Proof.
  intros Hp Ha Hno. unfold auth_command, fail. destruct items as [|x [|y [|]]]; try (by eexists).
  rewrite Hp. destruct (as_str_lossy y) as [cs|] eqn:Ey; [|by eexists].
  rewrite bool_decide_eq_false_2; [by eexists|]. by apply (Hno x y cs).
Qed.

Lemma execute_outside i c s v p : password s = Some p -> authenticated c = false -> offers p (Recv i v) = false ->
  outside_step s (cl_id c) (execute_command i c s v).
Proof.
  intros Hp Ha Hno. unfold execute_command. cbn [offers] in Hno.
  destruct (parse_command v) as [[name items]|e]; [|apply (resume_outside (touch c (in_now i))); [done|right; by eexists]].
  cbn [authenticated set_last_cmd touch]. rewrite Ha. cbn [negb andb]. set (c' := set_last_cmd _ _).
  destruct (is_word name "AUTH") eqn:E1; [|destruct (is_word name "QUIT") eqn:E2].
  - apply bool_decide_eq_true in E1 as ->. cbn [negb andb].
    change (lookup_command commands (str "AUTH")) with (Some (auth_command (LogId := LogId) (Membership := Membership))). cbv beta iota.
    destruct (auth_outside i c' items s p Hp Ha) as [e He].
    { intros x y cs -> Hy Hc. rewrite Hy, Hc, bool_decide_eq_true_2 in Hno; done. }
    unfold run_command. rewrite He. apply (resume_outside c'); [done|right; by eexists].
  - apply bool_decide_eq_true in E2 as ->. cbn [negb andb].
    change (lookup_command commands (str "QUIT")) with (Some (quit_command (LogId := LogId) (Membership := Membership))). cbv beta iota.
    unfold run_command, quit_command. destruct (2 <=? argc items); cbn [response reply fail].
    + apply (resume_outside c'); [done|right; by eexists].
    + apply (resume_outside (set_closed c')); [done|by left].
  - cbn [negb andb]. apply (resume_outside c'); [done|right; by eexists].
Qed.

Lemma conn_step_outside s0 k s ev p : password s0 = Some p -> outside s0 k s -> offers p ev = false ->
  outside_step s0 (cl_id (client k)) (conn_step k s ev).
Proof.
  intros Hp [Ha Hk] Hno. unfold conn_step. destruct Hk as [[Hm ->]|(ok & Hm & Hs)]; rewrite Hm.
  - destruct ev as [i v| | |]; [by eapply execute_outside|..]; unfold finish; eexists _, _, _; (split; [done|]); split_and!; try done.
    + split; [done|]. right. exists false. auto.
    + split; [done|]. right. exists true. auto.
    + split; [done|]. by left.
  - eexists _, _, _. split; [done|]. split_and!; try done. split; [done|]. right. by exists ok.
Qed.


(** ** The end of a connection *)

(** The client [id] is in none of the tables. *)
Definition forgotten (ps : PubSub) (id : Z) : Prop :=
  clients ps !! id = None /\ forall t name, ~ member (registry t ps) id name.

Lemma remove_client_forgotten ps id : forgotten (remove_client ps id) id.
Proof.
  split; [apply lookup_delete_eq|]. intros t name (set & Hs & Hin).
  assert (registry t (remove_client ps id) = registry_drop id (registry t ps)) as Hr by (by destruct t).
  rewrite Hr in Hs. unfold registry_drop in Hs. apply map_lookup_filter_Some in Hs as [Hs _].
  rewrite lookup_fmap in Hs. destruct (registry t ps !! name); [|done]. injection Hs as <-. set_solver.
Qed.

Definition clean_step (r : outcome (Conn * Server * list Value)) : Prop :=
  forall k' s' out, r = Ret (k', s', out) -> mode k' = Ended true -> forgotten (broadcast s') (cl_id (client k')).

Lemma finish_clean ok c s out : clean_step (finish ok c s out).
Proof. intros k' s' o [= <- <- <-]. cbn. intros [= ->]. apply remove_client_forgotten. Qed.

Lemma resume_clean c s out : clean_step (resume c s out).
Proof. unfold resume. destruct (closed c); [apply finish_clean|]. by intros k' s' o [= <- <- <-]. Qed.

Lemma unblock_clean ok c s st out : clean_step (unblock ok c s st out).
Proof. unfold unblock. destruct ok; [apply resume_clean|apply finish_clean]. Qed.

Lemma stay_clean c m s out : m <> Ended true -> clean_step (Ret (mkConn c m, s, out)).
Proof. by intros Hm k' s' o [= <- <- <-]. Qed.

Lemma execute_clean i c s v : clean_step (execute_command i c s v).
Proof.
  unfold execute_command. destruct (parse_command v) as [[name items]|e]; [|apply resume_clean].
  case_match; [apply resume_clean|]. destruct (lookup_command commands name) as [cmd|].
  - destruct (run_command cmd i _ items s) as [[[c' s'] r]| |]; [apply resume_clean|done..].
  - destruct (block_commands name) as [t|]; [|apply resume_clean]. destruct (_ items); [|apply resume_clean].
    destruct (subscribe_to t _ _ _). by apply stay_clean.
Qed.

Lemma blocked_clean t st c s ev : clean_step (blocked_step t st c s ev).
Proof.
  unfold blocked_step. destruct ev as [i v| | |]; try apply unblock_clean.
  - destruct (parse_command v) as [[name items]|e]; [|by apply stay_clean].
    destruct (handle_command_in_blocking_context i t c name items s) as [[[c' s'] [w|e]]| |]; try done; [|apply unblock_clean].
    destruct (closed c'); [apply unblock_clean|by apply stay_clean].
  - destruct (stream_changed _ _ st) as [|[w|] st'|]; try apply unblock_clean; by apply stay_clean.
Qed.

(** C36: a connection that ends without an error leaves no subscription behind:
    its client is in no channel, in no pattern and has no entry of its own. *)
Theorem ended_unsubscribed k s evs k' s' out : ended k = false ->
  conn_run k s evs = Ret (k', s', out) -> mode k' = Ended true -> forgotten (broadcast s') (cl_id (client k')).
Proof.
  revert k s out. enough (forall k s out, (mode k = Ended true -> forgotten (broadcast s) (cl_id (client k))) ->
    conn_run k s evs = Ret (k', s', out) -> mode k' = Ended true -> forgotten (broadcast s') (cl_id (client k'))) as Hgo.
  { intros k s out Hk. apply Hgo. intros Hm. unfold ended in Hk. by rewrite Hm in Hk. }
  induction evs as [|ev evs IH]; intros k s out Hk; cbn [conn_run]; [by intros [= <- <- <-]|].
  assert (clean_step (conn_step k s ev)) as Hstep.
  { unfold conn_step. destruct (mode k) eqn:Em; [destruct ev| |].
    - apply execute_clean.
    - apply finish_clean.
    - apply finish_clean.
    - intros ? ? ? [= <- <- <-]. by rewrite Em.
    - apply blocked_clean.
    - intros ? ? ? [= <- <- <-]. by rewrite Em. }
  destruct (conn_step k s ev) as [[[k1 s1] out1]| |]; [|done..].
  destruct (conn_run k1 s1 evs) as [[[k2 s2] out2]| |] eqn:Er; [|done..]. intros [= -> -> _].
  apply (IH k1 s1 out2); [|done]. by apply (Hstep k1 s1 out1).
Qed.
End Safety.

(** ** Examples *)

Definition sample_server_env : ServerEnv (LogId := nat) (Membership := unit) := {|
  name_iter := elements;
  id_iter := elements;
  registry_iter := map_to_list;
  sha1_hex := fun s => s;
  package_version := str "0.1.0";
  other_command := fun _ _ _ _ _ => Ok value_ok
|}.

Definition sample_server (p : option bytes) : Server (LogId := nat) (Membership := unit) :=
  mkServer (state_machine_new 16) pubsub_new ∅ p.

Definition sample_inputs : Inputs (LogId := nat) (Membership := unit) :=
  mkInputs 100 (Committed [] 1%nat) (Leased []) false.

Definition sample_request (words : list String.string) : Event := Recv sample_inputs (request words).

Definition sample_run (p : option bytes) (evs : list Event) :=
  conn_run (E := Spop.first_env) (OF := ordered_float) (ME := no_mem) (LE := sample_lua Spop.first_env) (SE := sample_server_env)
    (connect (sample_server p) 7 0) (sample_server p) evs.

(** A subscriber whose SUBSCRIBE has no arguments is cut off without a
    reply, and its subscription stays in the table after the connection is
    gone: [remove_client] is only reached when the connection ends well. *)
Theorem subscription_leaks :
  match sample_run None [sample_request ["SUBSCRIBE"; "a"]%string; sample_request ["SUBSCRIBE"%string]] with
  | Ret (k, s, out) =>
      mode k = Ended false /\ out = [Batch [push_frame (str "subscribe") (Some (str "a")) 1]] /\
      subs (broadcast s) !! str "a" = Some {[7]}
  | _ => False
  end.
Proof. vm_compute. split_and!; reflexivity. Qed.

(** SCRIPT without a subcommand panics: the parser reads [items[1]] after it
    has only checked that [items] is not empty. *)
Theorem bare_script_panics : sample_run None [sample_request ["SCRIPT"%string]] = Panic.
Proof. vm_compute. reflexivity. Qed.

(** ** Witnesses *)

Abbreviation sample_scripts := (script_spec (E := Spop.first_env) (EnvOk0 := Spop.first_env_ok) (OF := ordered_float) (ME := no_mem) (IP := sample_interp) 1).

Lemma sample_event_ok w words :
  take_from_bytes_stream (encode_to 2 (request (w :: words))) = Ret (Some (request (w :: words), [])) ->
  (length (encode_to 2 (request (w :: words))) <=? 1000)%nat = true ->
  guard (SS := sample_scripts) (to_uppercase (lossy_chars (str w))) (bulk (str w) :: ((fun w => bulk (str w)) <$> words)) ->
  event_ok (SS := sample_scripts) (sample_request (w :: words)).
Proof.
  intros Hd Hl%Nat.leb_le Hg. split_and!; [by split; apply Forall_nil_2| |].
  - eexists _, []. split; [|exact Hd]. unfold alloc_ok, i64_max. lia.
  - by intros name items [= <- <-].
Qed.

Lemma sample_server_ok p : server_ok (SS := sample_scripts) (sample_server p).
Proof. split; [apply cache_new_inv|apply map_Forall_empty]. Qed.

Definition sample_eval : list String.string :=
  ["EVAL"; "return redis.call('INCRBY', KEYS[1], ARGV[1])"; "1"; "n"; "5"]%string.

Lemma sample_eval_guard : eval_guard (SS := sample_scripts) ((fun w => bulk (str w)) <$> sample_eval).
Proof.
  intros script numkeys keys args proto H.
  assert (eval_parse "eval" "script" ((fun w => bulk (str w)) <$> sample_eval) = Ok (count_text, 1, [str "n"], [str "5"])) as E0 by (vm_compute; reflexivity).
  rewrite E0 in H. injection H as <- <- <- <-. refine (eval_calls_mono _ _ 1 _ _ (count_calls proto)).
  by intros op [Hop _].
Qed.

Lemma sample_client_ok p : client_ok (SS := sample_scripts) (client (connect (sample_server p) 7 0)).
Proof. split; [cbn; lia|by apply Forall_nil_2]. Qed.


Lemma one_reply_witness : exists k' s' out,
  conn_step (E := Spop.first_env) (OF := ordered_float) (ME := no_mem) (LE := sample_lua Spop.first_env) (SE := sample_server_env)
    (connect (sample_server None) 7 0) (sample_server None) (sample_request ["INCR"; "n"]%string) = Ret (k', s', out) /\
  (length out = 1%nat \/ out = [] /\ mode k' = Ended false).
Proof.
  apply (one_reply (E := Spop.first_env) (EnvOk0 := Spop.first_env_ok) (SS := sample_scripts)
    (SE := sample_server_env) (connect (sample_server None) 7 0) (sample_server None) sample_inputs (request ["INCR"; "n"]%string)).
  - apply sample_client_ok.
  - apply sample_server_ok.
  - apply sample_event_ok; [vm_compute; reflexivity|vm_compute; reflexivity|exact I].
  - intros ok H. discriminate H.
Defined.


Definition sample_queue : list Queueable := [
  mkQueueable (sample_server None) sample_inputs (request ["INCR"; "n"]%string) "QUEUED" (Base (Incr (mkIncrReq (str "n"))));
  mkQueueable (sample_server None) sample_inputs (request ["GET"; "n"]%string) "QUEUED" (Read (RGet (mkGetParams (str "n"))))].

Lemma transaction_atomic_witness : exists k' sm' rs,
  conn_steps (E := Spop.first_env) (OF := ordered_float) (ME := no_mem) (LE := sample_lua Spop.first_env) (SE := sample_server_env)
    (connect (sample_server None) 7 0)
    ((sample_server None, sample_request ["MULTI"%string]) ::
     ((fun q => (qu_server q, Recv (qu_inputs q) (qu_value q))) <$> sample_queue) ++ [(sample_server None, sample_request ["EXEC"%string])]) =
  Ret (k', (sample_server None, [value_ok]) :: ((fun q => (qu_server q, [SimpleString (str (qu_text q))])) <$> sample_queue) ++
    [(set_machine (sample_server None) sm', [Array (Some rs)])]).
Proof.
  destruct (transaction_atomic (E := Spop.first_env) (EnvOk0 := Spop.first_env_ok) (SS := sample_scripts)
    (SE := sample_server_env) (client (connect (sample_server None) 7 0)) sample_queue (sample_server None) sample_inputs
    (sample_server None) sample_inputs [] 1%nat) as (k' & sm' & rs & st & H & _).
  - split; reflexivity.
  - reflexivity.
  - cbn. lia.
  - repeat apply Forall_cons_2; try apply Forall_nil_2.
    + exists "INCR"%string, incr_request, [bulk (str "INCR"); bulk (str "n")]. split_and!; [|reflexivity|reflexivity].
      repeat (apply list_elem_of_here || apply list_elem_of_further).
    + exists "GET"%string, (read_raft get_operation), [bulk (str "GET"); bulk (str "n")]. split_and!; [|reflexivity|reflexivity].
      repeat (apply list_elem_of_here || apply list_elem_of_further).
  - repeat apply Forall_cons_2; try apply Forall_nil_2; exact I.
  - apply sample_server_ok.
  - reflexivity.
  - apply Forall_nil_2.
  - exists k', sm', rs. exact H.
Defined.

Lemma ended_unsubscribed_witness :
  match sample_run None [sample_request ["SUBSCRIBE"; "a"]%string; sample_request ["QUIT"%string]] with
  | Ret (k, s, _) => forgotten (broadcast s) (cl_id (client k))
  | _ => False
  end.
Proof.
  destruct (sample_run None [sample_request ["SUBSCRIBE"; "a"]%string; sample_request ["QUIT"%string]]) as [[[k s] out]| |] eqn:Er.
  - apply (ended_unsubscribed (E := Spop.first_env) (EnvOk0 := Spop.first_env_ok) (OF := ordered_float) (ME := no_mem) (LE := sample_lua Spop.first_env) (SE := sample_server_env)
      (connect (sample_server None) 7 0) (sample_server None) [sample_request ["SUBSCRIBE"; "a"]%string; sample_request ["QUIT"%string]] k s out).
    + reflexivity.
    + exact Er.
    + vm_compute in Er. injection Er as <- _ _. reflexivity.
  - vm_compute in Er. discriminate Er.
  - vm_compute in Er. discriminate Er.
Defined.
