(* ===== verification/Serve.v ===== *)
(** * Serve: the server, from the bytes of many connections to the bytes it sends.

    Models [RespCodec], [RedisServer::new] and [start_redis_server] of
    src/cache_cat/src/raft/network/redis_server.rs on top of the connections of
    Connection: the accept loop that numbers the clients, and one task per
    connection that decodes requests from what has arrived and encodes replies.

    [Framed] of tokio-util is between the socket and the codec. As documented, it
    decodes from what has arrived before it waits for more, and a stream that ends
    inside a frame is an error. *)

From S2P Require Import Prelude Text F64 Reply Errors Resp Args Glob SortedSet TimeWheel Mocha Ops Store Refine ListCmd StringCmd KeyCmd HashCmd SetCmd Spop ZSetCmd BitmapCmd HllCmd Memory Handler Answers Requests Script Typed StateMachine PubSub App Config Session Connection Safety.
From Stdlib Require Import Strings.Byte.

(** ** The codec *)

(** [Decoder::decode] and [Encoder::encode] of [RespCodec]; its protocol version
    is that of the client. *)
Definition codec_decode (src : bytes) : outcome (option (Value * bytes)) := take_from_bytes_stream src.
Definition codec_encode (proto_version : Z) (dst : bytes) (item : Value) : bytes := dst ++ encode_to proto_version item.

(** [RedisServer::new]: where clients with TLS connect. *)
Definition tls_addr (config : ParsedConfig) : option bytes :=
  (fun port => ep_address (raft_endpoint config) ++ [x3a] ++ nat_to_string port) <$> tls_port config.

(** A connection with the bytes that have arrived and are not decoded yet, and
    those that have been sent. *)
Record Link := mkLink { link_conn : Conn; link_in : bytes; link_out : bytes }.

Section Serve.
Context {LogId Membership : Type}.
Context `{E : Env} `{OF : OrderedFloat} `{ME : MemEnv} `{LE : LuaEnv} `{SE : !ServerEnv (LogId := LogId) (Membership := Membership)}.
Abbreviation Server := (Server (LogId := LogId) (Membership := Membership)).
Abbreviation Inputs := (Inputs (LogId := LogId) (Membership := Membership)).
Abbreviation Event := (Event (LogId := LogId) (Membership := Membership)).
Abbreviation command := (Inputs -> Client -> list Value -> Server -> outcome (Client * Server * result Value CacheCatError)).

(** ** The task of a connection *)

(** What is left after a step: the replies are encoded with the version that the
    client has then, and a connection that has ended reads no more. *)
Definition settle (k : Conn) (rest out : bytes) (replies : list Value) : Link :=
  mkLink k (if ended k then [] else rest) (foldl (codec_encode (proto_version (client k))) out replies).

Definition link_step (l : Link) (rest : bytes) (s : Server) (ev : Event) : outcome (Link * Server) :=
  match conn_step (link_conn l) s ev with
  | Ret (k, s', replies) => Ret (settle k rest (link_out l) replies, s')
  | Panic => Panic
  | OutOfFuel => OutOfFuel
  end.

(** Bytes arrive. *)
Definition arrive (l : Link) (data : bytes) : Link :=
  if ended (link_conn l) then l else mkLink (link_conn l) (link_in l ++ data) (link_out l).

(** The next request, if it is there. *)
Definition turn (l : Link) (s : Server) (i : Inputs) : outcome (option (Link * Server)) :=
  if ended (link_conn l) then Ret None
  else
    match codec_decode (link_in l) with
    | Ret (Some (v, rest)) => outcome_map Some (link_step l rest s (Recv i v))
    | Ret None => Ret None
    | Panic => Panic
    | OutOfFuel => OutOfFuel
    end.

(** The client has closed its side. *)
Definition hang_up (l : Link) (s : Server) : outcome (Link * Server) :=
  if ended (link_conn l) then Ret (l, s)
  else link_step l [] s (if bool_decide (link_in l = []) then Eof else ReadError).

(** ** The accept loop *)

(** [sys_id] is [client_id]. *)
Record System := mkSystem { sys_server : Server; sys_id : Z; sys_links : gmap Z Link }.

Inductive Act :=
| AcceptPlain (now : Z)
| AcceptTls (now : Z) (handshake : bool)
| AcceptError
| Packet (id : Z) (data : bytes)
| Turn (id : Z) (i : Inputs)
| WakeUp (id : Z)
| HangUp (id : Z)
| Broken (id : Z)
| Replicate (entries : list (LogEntry (LogId := LogId) (Membership := Membership))).

(** A stream has been accepted: it gets the next identifier, and its task starts. *)
Definition accept (sys : System) (now : Z) (handshake : bool) : System :=
  let id := sys_id sys + 1 in
  mkSystem (sys_server sys) id
    (if handshake then <[id := mkLink (connect (sys_server sys) id now) [] []]> (sys_links sys) else sys_links sys).

Definition with_link (sys : System) (id : Z) (f : Link -> Server -> outcome (Link * Server)) : outcome System :=
  match sys_links sys !! id with
  | None => Ret sys
  | Some l =>
      outcome_map (fun r : Link * Server => mkSystem r.2 (sys_id sys) (<[id := r.1]> (sys_links sys))) (f l (sys_server sys))
  end.

(** One step of the accept loop, of the task of a connection, or of the state
    machine, which applies what other nodes have written. *)
Definition sys_step (sys : System) (a : Act) : outcome System :=
  match a with
  | AcceptPlain now => Ret (accept sys now true)
  | AcceptTls now handshake => Ret (accept sys now handshake)
  | AcceptError => Ret sys
  | Packet id data => with_link sys id (fun l s => Ret (arrive l data, s))
  | Turn id i => with_link sys id (fun l s => outcome_map (default (l, s)) (turn l s i))
  | WakeUp id => with_link sys id (fun l s => link_step l (link_in l) s Wake)
  | HangUp id => with_link sys id hang_up
  | Broken id => with_link sys id (fun l s => if ended (link_conn l) then Ret (l, s) else link_step l [] s ReadError)
  | Replicate entries =>
      outcome_map (fun r => mkSystem (set_machine (sys_server sys) r.1.1) (sys_id sys) (sys_links sys))
        (apply (state_machine (sys_server sys)) (Ok <$> entries))
  end.

(** [start_redis_server] before its first connection. *)
Definition system_start (s : Server) : System := mkSystem s 0 ∅.

(** ** Packets do not matter *)

(** The task after a packet: requests are handled while they last. [ins] are the
    clock and the answers of Raft that the requests meet. *)
Fixpoint drain (ins : list Inputs) (l : Link) (s : Server) : outcome (Link * Server * list Inputs) :=
  match ins with
  | [] => Ret (l, s, [])
  | i :: ins' =>
      match turn l s i with
      | Ret (Some (l', s')) => drain ins' l' s'
      | Ret None => Ret (l, s, ins)
      | Panic => Panic
      | OutOfFuel => OutOfFuel
      end
  end.

Fixpoint serve (packets : list bytes) (ins : list Inputs) (l : Link) (s : Server) : outcome (Link * Server * list Inputs) :=
  match packets with
  | [] => Ret (l, s, ins)
  | data :: packets' =>
      match drain ins (arrive l data) s with
      | Ret (l', s', ins') => serve packets' ins' l' s'
      | Panic => Panic
      | OutOfFuel => OutOfFuel
      end
  end.

(** The requests one after the other, and the bytes of their replies. *)
Fixpoint answer_each (k : Conn) (s : Server) (reqs : list (Inputs * Value)) : outcome (Conn * Server * bytes) :=
  match reqs with
  | [] => Ret (k, s, [])
  | (i, v) :: reqs' =>
      if ended k then Ret (k, s, [])
      else
        match conn_step k s (Recv i v) with
        | Ret (k1, s1, replies) =>
            outcome_map (fun r : Conn * Server * bytes =>
              (r.1.1, r.1.2, concat (encode_to (proto_version (client k1)) <$> replies) ++ r.2)) (answer_each k1 s1 reqs')
        | Panic => Panic
        | OutOfFuel => OutOfFuel
        end
  end.

Lemma encode_replies proto replies : forall out, foldl (codec_encode proto) out replies = out ++ concat (encode_to proto <$> replies).
Proof.
  induction replies as [|v l IH]; intros out; cbn; [by rewrite app_nil_r|]. rewrite IH. unfold codec_encode. by rewrite <- app_assoc.
Qed.

Lemma alloc_prefix a b : alloc_ok (a ++ b) -> alloc_ok a.
Proof. unfold alloc_ok. rewrite length_app. lia. Qed.

Lemma alloc_suffix a b : alloc_ok (a ++ b) -> alloc_ok b.
Proof. unfold alloc_ok. rewrite length_app. lia. Qed.

Lemma arrive_nil l : arrive l [] = l.
Proof. destruct l as [k a o]. unfold arrive. cbn. rewrite app_nil_r. by destruct (ended k). Qed.

(** A packet that is cut in two has the same effect. *)
Lemma drain_arrive ins : forall l s a b, alloc_ok (link_in l ++ a ++ b) ->
  drain ins (arrive l (a ++ b)) s =
    match drain ins (arrive l a) s with
    | Ret (l', s', ins') => drain ins' (arrive l' b) s'
    | Panic => Panic
    | OutOfFuel => OutOfFuel
    end.
Proof.
  induction ins as [|i ins IH]; intros l s a b Hu.
  { cbn. unfold arrive. destruct (ended (link_conn l)) eqn:En; cbn; rewrite En; [done|]. by rewrite <- app_assoc. }
  destruct (ended (link_conn l)) eqn:En.
  { assert (turn l s i = Ret None) as Ht by (unfold turn; by rewrite En).
    assert (forall c, arrive l c = l) as Ha by (intros c; unfold arrive; by rewrite En).
    rewrite !Ha. cbn [drain]. rewrite Ht, Ha. cbn [drain]. by rewrite Ht. }
  assert (forall c, arrive l c = mkLink (link_conn l) (link_in l ++ c) (link_out l)) as Ha by (intros c; unfold arrive; by rewrite En).
  rewrite !Ha. cbn [drain]. unfold turn at 2. cbn [link_conn link_in]. rewrite En. unfold codec_decode.
  rewrite app_assoc in Hu. destruct (decode_inv (link_in l ++ a) (alloc_prefix _ _ Hu)) as (o & Ho & Hrest). rewrite Ho.
  destruct o as [[v rest]|].
  - unfold turn. cbn [link_conn link_in]. rewrite En. unfold codec_decode. rewrite app_assoc.
    rewrite (decode_app _ b _ _ (alloc_prefix _ _ Hu) Ho). unfold link_step. cbn [link_conn link_out].
    destruct (conn_step (link_conn l) s (Recv i v)) as [[[k s'] replies]| |]; [|done|done]. cbn [outcome_map].
    replace (settle k (rest ++ b) (link_out l) replies) with (arrive (settle k rest (link_out l) replies) b).
    2: { unfold arrive, settle. cbn. by destruct (ended k). }
    destruct Hrest as (p & _ & _ & _ & _ & -> & _).
    set (l' := settle k _ (link_out l) replies).
    rewrite <- (app_nil_l b). rewrite IH; [by rewrite arrive_nil|]. unfold l', settle. cbn [link_in]. unfold alloc_ok in *.
    rewrite !length_app in *. destruct (ended k); cbn [length app]; rewrite ?length_drop, ?length_app; lia.
  - cbn [link_conn link_in]. unfold arrive at 1. cbn [link_conn]. rewrite En. cbn [link_in link_out]. by rewrite app_assoc.
Qed.

Lemma turn_shrinks l s i l' s' : alloc_ok (link_in l) -> turn l s i = Ret (Some (l', s')) -> (length (link_in l') <= length (link_in l))%nat.
Proof.
  intros Hu. unfold turn, codec_decode. destruct (ended (link_conn l)); [done|].
  destruct (decode_inv _ Hu) as (o & -> & Ho). destruct o as [[v rest]|]; [|done]. destruct Ho as (p & _ & _ & _ & _ & -> & _).
  unfold link_step. destruct (conn_step _ _ _) as [[[k s1] replies]| |]; [|done|done]. cbn. intros [= <- _]. cbn.
  destruct (ended k); cbn; rewrite ?length_drop; lia.
Qed.

Lemma drain_shrinks ins : forall l s l' s' ins', alloc_ok (link_in l) -> drain ins l s = Ret (l', s', ins') ->
  (length (link_in l') <= length (link_in l))%nat /\ drain ins' l' s' = Ret (l', s', ins').
Proof.
  induction ins as [|i ins IH]; intros l s l' s' ins' Hu; cbn [drain]; [by intros [= <- <- <-]|].
  destruct (turn l s i) as [[[l1 s1]|]| |] eqn:Et; [|intros [= <- <- <-]; split; [done|]; cbn [drain]; by rewrite Et|done|done].
  intros Hd. pose proof (turn_shrinks _ _ _ _ _ Hu Et) as Hl. destruct (IH l1 s1 l' s' ins') as [H1 H2]; [|done|split; [lia|done]].
  unfold alloc_ok in *. lia.
Qed.

Lemma arrive_length l a : (length (link_in (arrive l a)) <= length (link_in l) + length a)%nat.
Proof. unfold arrive. destruct (ended _); cbn; rewrite ?length_app; lia. Qed.

(** Only the bytes matter. *)
Lemma serve_concat packets : forall ins l s, alloc_ok (link_in l ++ concat packets) -> drain ins l s = Ret (l, s, ins) ->
  serve packets ins l s = drain ins (arrive l (concat packets)) s.
Proof.
  induction packets as [|data packets IH]; intros ins l s Hu Hd; cbn [serve concat]; [by rewrite arrive_nil|].
  cbn [concat] in Hu. rewrite drain_arrive by done. destruct (drain ins (arrive l data) s) as [[[l' s'] ins']| |] eqn:Ed; [|done|done].
  pose proof (arrive_length l data) as Hl. unfold alloc_ok in *. rewrite !length_app in Hu.
  destruct (drain_shrinks ins (arrive l data) s l' s' ins') as [H1 H2]; [unfold alloc_ok; lia|done|]. apply IH; [|done]. rewrite length_app. lia.
Qed.

(** The bytes of requests are handled as the requests one after the other. *)
Lemma drain_requests proto reqs : forall k s out,
  Forall (fun r : Inputs * Value => wire_ok proto r.2) reqs -> alloc_ok (concat (encode_to proto <$> reqs.*2)) ->
  let l := mkLink k (if ended k then [] else concat (encode_to proto <$> reqs.*2)) out in
  match answer_each k s reqs with
  | Ret (k', s', sent) => exists ins', drain reqs.*1 l s = Ret (mkLink k' [] (out ++ sent), s', ins')
  | Panic => drain reqs.*1 l s = Panic
  | OutOfFuel => drain reqs.*1 l s = OutOfFuel
  end.
Proof.
  induction reqs as [|[i v] reqs IH]; intros k s out Hw Hu l; subst l.
  { cbn. exists []. rewrite app_nil_r. by destruct (ended k). }
  apply Forall_cons in Hw as [Hv Hw]. cbn [fmap list_fmap fst snd concat] in *. cbn [answer_each drain]. unfold turn, codec_decode.
  cbn [link_conn link_in]. destruct (ended k) eqn:En; [eexists; rewrite app_nil_r; done|].
  rewrite encode_decode_app by (done || by eapply alloc_prefix). unfold link_step. cbn [link_conn link_out].
  destruct (conn_step k s (Recv i v)) as [[[k1 s1] replies]| |]; [|done|done]. cbn [outcome_map].
  specialize (IH k1 s1 (foldl (codec_encode (proto_version (client k1))) out replies) Hw (alloc_suffix _ _ Hu)).
  unfold settle. destruct (answer_each k1 s1 reqs) as [[[k' s'] sent]| |]; cbn [outcome_map fst snd]; [|done|done].
  destruct IH as [ins' IH]. exists ins'. rewrite IH, encode_replies. by rewrite <- app_assoc.
Qed.

(** In any packets. *)
Lemma serve_requests proto k s out packets (reqs : list (Inputs * Value)) :
  ended k = false -> Forall (fun r => wire_ok proto r.2) reqs ->
  concat packets = concat (encode_to proto <$> reqs.*2) -> alloc_ok (concat packets) ->
  match answer_each k s reqs with
  | Ret (k', s', sent) => exists ins', serve packets reqs.*1 (mkLink k [] out) s = Ret (mkLink k' [] (out ++ sent), s', ins')
  | Panic => serve packets reqs.*1 (mkLink k [] out) s = Panic
  | OutOfFuel => serve packets reqs.*1 (mkLink k [] out) s = OutOfFuel
  end.
Proof.
  intros En Hw Hb Hu. rewrite serve_concat; [|done|].
  - unfold arrive. cbn [link_conn link_in link_out]. rewrite En, app_nil_l, Hb. rewrite Hb in Hu.
    pose proof (drain_requests proto reqs k s out Hw Hu) as H. by rewrite En in H.
  - destruct reqs.*1; [done|]. cbn [drain]. unfold turn. cbn [link_conn link_in]. by rewrite En.
Qed.

(** C7: Pipelining. However the network cuts the bytes of a client's requests
    into packets, the server handles the requests one at a time, in order, with
    the effects that each of them has on its own, and it sends the bytes of their
    replies in the same order, each in the protocol version that is in force
    once its request has been handled. After a request that ends the connection
    nothing more is read. *)
Theorem pipelined_requests proto k s out packets (reqs : list (Inputs * Value)) :
  ended k = false -> Forall (fun r => wire_ok proto r.2) reqs ->
  concat packets = concat (encode_to proto <$> reqs.*2) -> alloc_ok (concat packets) ->
  match answer_each k s reqs with
  | Ret (k', s', sent) => exists ins', serve packets reqs.*1 (mkLink k [] out) s = Ret (mkLink k' [] (out ++ sent), s', ins')
  | Panic => serve packets reqs.*1 (mkLink k [] out) s = Panic
  | OutOfFuel => serve packets reqs.*1 (mkLink k [] out) s = OutOfFuel
  end.
Proof. apply serve_requests. Qed.

(** ** Clients keep apart *)

(** The orders of iteration are those of the tables. *)
Class ServerEnvOk : Prop := {
  name_iter_perm s : name_iter s ≡ₚ elements s;
  id_iter_perm s : id_iter s ≡ₚ elements s;
  registry_iter_perm r : registry_iter r ≡ₚ map_to_list r
}.
Context {SO : ServerEnvOk}.

(** Going from [ps] to [ps'] nobody but client [id] subscribes or unsubscribes. *)
Definition own (id : Z) (ps ps' : PubSub) : Prop :=
  PubSubInv ps -> PubSubInv ps' /\ forall t id', id' <> id -> names_of t ps' id' = names_of t ps id'.

Lemma own_refl id ps : own id ps ps.
Proof. by intros H. Qed.

Lemma own_trans id a b c : own id a b -> own id b c -> own id a c.
Proof. intros Hab Hbc H. destruct (Hab H) as [Hb Nb]. destruct (Hbc Hb) as [Hc Nc]. split; [done|]. intros t i Hi. by rewrite Nc, Nb. Qed.

Definition call_of (id : Z) (c : call) : Prop :=
  match c with
  | CSubscribe _ _ i | CUnsubscribe _ _ i | CUnsubscribeAll _ i | CDisconnect i => i = id
  | CPublish _ _ => True
  end.

Lemma own_call id ps c : call_of id c -> own id ps (run_call name_iter id_iter registry_iter ps c).1.
Proof.
  intros Hc H. destruct (run_call_ok name_iter id_iter registry_iter name_iter_perm id_iter_perm registry_iter_perm ps c H) as [Hi Hn].
  split; [done|]. intros t i Hne. rewrite Hn. destruct c; cbn in *; subst; repeat case_decide; naive_solver.
Qed.

Lemma own_subscribe id ps t l : own id ps (subscribe_to t ps l id).1.
Proof. by apply (own_call id ps (CSubscribe t l id)). Qed.

Lemma own_drop id ps : own id ps (drop_receiver ps id).
Proof.
  intros H. unfold drop_receiver. destruct (clients ps !! id) as [st|] eqn:Es; [|done].
  set (ps' := with_clients _ _). assert (forall t i, names_of t ps' i = names_of t ps i) as Hn.
  { intros t i. unfold names_of, ps'. cbn. destruct (decide (i = id)) as [-> |Hne]; [|by rewrite lookup_insert_ne].
    rewrite lookup_insert_eq, Es. by destruct t. }
  split; [|done]. constructor; [|intros []; [apply (inv_wf ps H Channel)|apply (inv_wf ps H Pattern)]].
  intros t i name. rewrite Hn. destruct t; [apply (inv_agree ps H Channel)|apply (inv_agree ps H Pattern)].
Qed.

Lemma own_stream_drop id ps st : own id ps (stream_drop ps id st).
Proof. destruct st; [apply own_drop|apply own_refl]. Qed.

(** A command acts for the client that sends it. *)
Definition quiet (cmd : command) : Prop := forall i c items s c' s' r, cmd i c items s = Ret (c', s', r) ->
  cl_id c' = cl_id c /\ own (cl_id c) (broadcast s) (broadcast s').

Ltac quiet_steps :=
  repeat first [ progress simplify_eq/= | case_match ];
  (split; [done|apply own_refl]).

Lemma write_op_quiet i c (s : Server) op post c' s' r : write_op i c s op post = Ret (c', s', r) -> c' = c /\ broadcast s' = broadcast s.
Proof. unfold write_op. intros H. repeat case_match; by simplify_eq/=. Qed.

Lemma read_op_quiet i c (s : Server) op c' s' r : read_op i c s op = Ret (c', s', r) -> c' = c /\ broadcast s' = broadcast s.
Proof. unfold read_op. intros H. repeat case_match; by simplify_eq/=. Qed.

Lemma write_with_quiet f post : quiet (write_with f post).
Proof.
  intros i c items s c' s' r. unfold write_with. destruct (f items); [|unfold fail; intros [= <- <- _]; split; [done|apply own_refl]].
  intros [-> ->]%write_op_quiet. split; [done|apply own_refl].
Qed.

Lemma read_with_quiet f : quiet (read_with f).
Proof.
  intros i c items s c' s' r. unfold read_with. destruct (f items); [|unfold fail; intros [= <- <- _]; split; [done|apply own_refl]].
  intros [-> ->]%read_op_quiet. split; [done|apply own_refl].
Qed.

Lemma queued_quiet text f k : quiet k -> quiet (queued text f k).
Proof.
  intros Hk i c items s c' s' r. unfold queued, reply, fail. destruct (transaction_queue c); [|apply Hk].
  destruct (f items); intros [= <- <- _]; (split; [done|apply own_refl]).
Qed.

Lemma other_quiet name : quiet (other name).
Proof. intros i c items s c' s' r. unfold other. intros [= <- <- _]. split; [done|apply own_refl]. Qed.

(** The commands that leave the tables alone. *)
Lemma plain_quiet : Forall quiet [ping_command; echo_command; select_command; quit_command; auth_command; hello_command; setname_command;
  setinfo_command; multi_command; discard_command; pubsub_command; script_command].
Proof.
  repeat apply Forall_cons_2; try apply Forall_nil_2; intros i c items s c' s' r;
    unfold ping_command, echo_command, select_command, quit_command, auth_command, hello_command, setname_command, setinfo_command,
      multi_command, discard_command, pubsub_command, script_command, reply, fail; intros Hr; quiet_steps.
Qed.

Lemma exec_quiet : quiet exec_command.
Proof.
  intros i c items s c' s' r. unfold exec_command, reply, fail.
  destruct (2 <=? argc items); [intros [= <- <- _]; split; [done|apply own_refl]|].
  destruct (transaction_queue c); [|intros [= <- <- _]; split; [done|apply own_refl]].
  destruct (write_op _ _ _ _ _) as [[[c1 s1] res]| |] eqn:Ew; [|done|done].
  apply write_op_quiet in Ew as [-> Hb]. destruct res; intros [= <- <- _]; rewrite Hb; (split; [done|apply own_refl]).
Qed.

Lemma eval_quiet : quiet eval_command.
Proof.
  apply queued_quiet. intros i c items s c' s' r. destruct (eval_raft_request items); [intros [-> ->]%write_op_quiet|intros [= <- <- _]];
    (split; [done|apply own_refl]).
Qed.

Lemma evalsha_quiet : quiet evalsha_command.
Proof.
  intros i c items s c' s' r. unfold evalsha_command, fail. destruct (evalsha_parse items) as [[[[sha1 n] keys] args]|e].
  - destruct (script_map s !! sha1); [intros [-> ->]%write_op_quiet|intros [= <- <- _]]; (split; [done|apply own_refl]).
  - intros [= <- <- _]. split; [done|apply own_refl].
Qed.

Lemma publish_quiet : quiet publish_command.
Proof.
  intros i c items s c' s' r. unfold publish_command, reply, fail. destruct (publish_parse items) as [[channel message]|e].
  - pose proof (own_call (cl_id c) (broadcast s) (CPublish channel message) I) as Ho. cbn [run_call] in Ho.
    destruct (publish _ _ _ _ _) as [ps v]. by intros [= <- <- _].
  - intros [= <- <- _]. split; [done|apply own_refl].
Qed.

Lemma unsubscribe_names_own t c (s : Server) o : own (cl_id c) (broadcast s) (broadcast (Session.unsubscribe_names t c s o).1).
Proof.
  unfold Session.unsubscribe_names. destruct o as [l|].
  - pose proof (own_call (cl_id c) (broadcast s) (CUnsubscribe t l (cl_id c)) eq_refl) as Ho. cbn [run_call] in Ho. by destruct (unsubscribe_from _ _ _ _).
  - pose proof (own_call (cl_id c) (broadcast s) (CUnsubscribeAll t (cl_id c)) eq_refl) as Ho. cbn [run_call] in Ho. by destruct (unsubscribe_all _ _ _ _).
Qed.

Lemma unsubscribe_quiet t parse : quiet (unsubscribe_with t parse).
Proof.
  intros i c items s c' s' r. unfold unsubscribe_with, reply, fail. destruct (parse items) as [o|e].
  - pose proof (unsubscribe_names_own t c s o) as Ho. destruct (Session.unsubscribe_names t c s o) as [s1 v]. by intros [= <- <- _].
  - intros [= <- <- _]. split; [done|apply own_refl].
Qed.

Lemma with_sub_commands_quiet name table : Forall (fun p : String.string * command => quiet p.2) table -> quiet (with_sub_commands name table).
Proof.
  intros Ht i c items s c' s' r. unfold with_sub_commands, fail.
  destruct items as [|v0 [|v items]]; [intros [= <- <- _]; split; [done|apply own_refl]..|].
  destruct (word_of v) as [w|]; [|intros [= <- <- _]; split; [done|apply own_refl]].
  unfold lookup_command. destruct (find _ table) as [[n cmd]|] eqn:Ef; cbn [fmap option_fmap option_map snd].
  - apply List.find_some in Ef as [Hin _]. apply list_elem_of_In in Hin. exact (proj1 (Forall_forall _ _) Ht _ Hin i c _ s c' s' r).
  - intros [= <- <- _]. split; [done|apply own_refl].
Qed.

Ltac command_quiet :=
  first [ apply other_quiet | apply write_with_quiet | apply read_with_quiet | apply queued_quiet; apply write_with_quiet
        | apply queued_quiet; apply read_with_quiet | apply exec_quiet | apply eval_quiet | apply evalsha_quiet
        | apply publish_quiet | apply unsubscribe_quiet ].

Lemma commands_quiet : Forall (fun p : String.string * command => quiet p.2) commands.
Proof.
  pose proof plain_quiet as Hp. repeat (apply Forall_cons in Hp as [? Hp]). clear Hp.
  unfold commands. repeat apply Forall_cons_2; try apply Forall_nil_2; cbn [fst snd]; first [assumption | command_quiet | idtac].
  - apply with_sub_commands_quiet. repeat apply Forall_cons_2; try apply Forall_nil_2; cbn [fst snd]; first [assumption | command_quiet].
  - apply with_sub_commands_quiet. repeat apply Forall_cons_2; try apply Forall_nil_2; cbn [fst snd]; command_quiet.
Qed.

Definition step_quiet (id : Z) (s : Server) (r : outcome (Conn * Server * list Value)) : Prop :=
  forall k' s' out, r = Ret (k', s', out) -> cl_id (client k') = id /\ own id (broadcast s) (broadcast s').

Lemma finish_quiet ok c (s0 s : Server) out : own (cl_id c) (broadcast s0) (broadcast s) -> step_quiet (cl_id c) s0 (finish ok c s out).
Proof.
  intros Ho k' s' out'. unfold finish. intros [= <- <- _]. split; [done|]. destruct ok; [|done]. eapply own_trans; [done|].
  by apply (own_call (cl_id c) (broadcast s) (CDisconnect (cl_id c))).
Qed.

Lemma stay_quiet c m (s0 s : Server) out : own (cl_id c) (broadcast s0) (broadcast s) -> step_quiet (cl_id c) s0 (Ret (mkConn c m, s, out)).
Proof. by intros Ho k' s' out' [= <- <- _]. Qed.

Lemma resume_quiet c (s0 s : Server) out : own (cl_id c) (broadcast s0) (broadcast s) -> step_quiet (cl_id c) s0 (resume c s out).
Proof. intros Ho. unfold resume. destruct (closed c); [by apply finish_quiet|by apply stay_quiet]. Qed.

Lemma unblock_quiet ok c (s0 s : Server) st out : own (cl_id c) (broadcast s0) (broadcast s) -> step_quiet (cl_id c) s0 (unblock ok c s st out).
Proof.
  intros Ho. unfold unblock. set (c1 := set_flag c _). change (cl_id c) with (cl_id c1).
  assert (own (cl_id c1) (broadcast s0) (stream_drop (broadcast s) (cl_id c1) st)) as Hd by (eapply own_trans; [done|apply own_stream_drop]).
  destruct ok; [by apply resume_quiet|by apply finish_quiet].
Qed.

Lemma run_command_quiet name cmd i c items (s : Server) c' s' v : lookup_command commands name = Some cmd ->
  run_command cmd i c items s = Ret (c', s', v) -> cl_id c' = cl_id c /\ own (cl_id c) (broadcast s) (broadcast s').
Proof.
  unfold lookup_command. destruct (find _ commands) as [[n c0]|] eqn:Ef; [|done]. cbn. intros [= <-].
  apply List.find_some in Ef as [Hin _]. apply list_elem_of_In in Hin. unfold run_command.
  destruct (c0 i c items s) as [[[c1 s1] r]| |] eqn:Er; [|done|done]. intros [= <- <- _].
  exact (proj1 (Forall_forall _ _) commands_quiet _ Hin i c items s c1 s1 r Er).
Qed.

Lemma execute_quiet i c (s : Server) v : step_quiet (cl_id c) s (execute_command i c s v).
Proof.
  unfold execute_command. set (c0 := touch c (in_now i)). change (cl_id c) with (cl_id c0).
  destruct (parse_command v) as [[name items]|e]; [|apply resume_quiet, own_refl].
  set (c1 := set_last_cmd c0 name). change (cl_id c0) with (cl_id c1). case_match; [apply resume_quiet, own_refl|].
  destruct (lookup_command commands name) as [cmd|] eqn:El.
  - destruct (run_command cmd i c1 items s) as [[[c' s'] r]| |] eqn:Er; [|done|done].
    destruct (run_command_quiet _ _ _ _ _ _ _ _ _ El Er) as [<- Ho]. by apply resume_quiet.
  - destruct (block_commands name) as [t|]; [|apply resume_quiet, own_refl].
    destruct ((match t with Channel => subscribe_params | Pattern => psubscribe_params end) items) as [l|e]; [|apply resume_quiet, own_refl].
    pose proof (own_subscribe (cl_id c1) (broadcast s) t l) as Ho. destruct (subscribe_to t (broadcast s) l (cl_id c1)) as [ps v'].
    by apply (stay_quiet (set_flag c1 (mkClientFlag true (multi (flag c1)) true)) (Blocked t (stream_of ps (cl_id c1)))).
Qed.

Lemma during_block_quiet t c name items (s : Server) c' s' r : execute_during_block t c name items s = (c', s', r) ->
  cl_id c' = cl_id c /\ own (cl_id c) (broadcast s) (broadcast s').
Proof.
  assert (execute_during_block t c name items s = run_during_block t c name items s) as -> by (by destruct t). unfold run_during_block.
  pose proof (own_refl (cl_id c) (broadcast s)) as Hrefl.
  pose proof (fun t' o => unsubscribe_names_own t' c s o) as Hun.
  assert (forall t' l, own (cl_id c) (broadcast s) (drop_receiver (subscribe_to t' (broadcast s) l (cl_id c)).1 (cl_id c))) as Hsub
    by (intros t' l; eapply own_trans; [apply own_subscribe|apply own_drop]).
  repeat case_match; intros [= <- <- _]; (split; [done|]); try done;
    repeat match goal with H : Session.unsubscribe_names ?t' c s ?o = _ |- _ => specialize (Hun t' o); rewrite H in Hun; done
      | H : subscribe_to ?t' _ ?l _ = _ |- _ => specialize (Hsub t' l); rewrite H in Hsub; done end.
Qed.

Lemma conn_step_quiet k (s : Server) ev : step_quiet (cl_id (client k)) s (conn_step k s ev).
Proof.
  unfold conn_step. destruct k as [c m]. cbn [client mode]. destruct m as [|t st|ok].
  - destruct ev; [apply execute_quiet|apply finish_quiet, own_refl..|apply stay_quiet, own_refl].
  - destruct ev as [i value| | |]; cbn [blocked_step].
    + destruct (parse_command value) as [[name items]|e]; [|apply stay_quiet, own_refl].
      destruct (handle_command_in_blocking_context i t c name items s) as [[[c' s'] r]| |] eqn:Eh; [|done|done].
      assert (cl_id c' = cl_id c /\ own (cl_id c) (broadcast s) (broadcast s')) as [Hid Ho].
      { unfold handle_command_in_blocking_context in Eh. case_match; [|injection Eh as Eh; by eapply during_block_quiet].
        destruct (lookup_command commands name) eqn:El; [|by simplify_eq]. destruct (run_command _ _ _ _ _) as [[[? ?] ?]| |] eqn:Er; [|done|done].
        simplify_eq. by eapply run_command_quiet. }
      rewrite <- Hid in Ho |- *. destruct r; [|by apply unblock_quiet]. destruct (closed c'); [by apply unblock_quiet|by apply stay_quiet].
    + apply unblock_quiet, own_refl.
    + apply unblock_quiet, own_refl.
    + destruct (stream_changed _ _ _) as [|[v|] st'|]; [apply stay_quiet, own_refl|apply stay_quiet, own_refl|apply unblock_quiet, own_refl..].
  - intros k' s' out [= <- <- _]. split; [done|apply own_refl].
Qed.

(** ** The whole server *)

Context `{!EnvOk E} `{SS : !ScriptSpec LE}.

Definition link_ok (id : Z) (l : Link) : Prop :=
  cl_id (client (link_conn l)) = id /\ client_ok (client (link_conn l)) /\ alloc_ok (link_in l).

Record SysOk (sys : System) : Prop := {
  so_server : server_ok (sys_server sys);
  so_pubsub : PubSubInv (broadcast (sys_server sys));
  so_id : 0 <= sys_id sys;
  so_links id l : sys_links sys !! id = Some l -> 1 <= id <= sys_id sys /\ link_ok id l;
  so_names t id : names_of t (broadcast (sys_server sys)) id <> ∅ -> 1 <= id <= sys_id sys
}.

(** What the world does: the bytes that wait fit into memory, the requests meet
    the guards of their commands, and the log entries are those of clients. *)
Definition act_ok (sys : System) (a : Act) : Prop :=
  match a with
  | Packet id data => forall l, sys_links sys !! id = Some l -> alloc_ok (link_in l ++ data)
  | Turn id i => inputs_ok i /\ forall l v rest name items, sys_links sys !! id = Some l ->
      codec_decode (link_in l) = Ret (Some (v, rest)) -> parse_command v = Ok (name, items) -> guard name items
  | Replicate entries => Forall (entry_ok script_fits) entries
  | _ => True
  end.

(** The connection whose task makes the step. *)
Definition act_of (a : Act) : option Z :=
  match a with Packet id _ | Turn id _ | WakeUp id | HangUp id | Broken id => Some id | _ => None end.

Definition link_outcome (id : Z) (s : Server) (r : outcome (Link * Server)) : Prop :=
  exists l' s', r = Ret (l', s') /\ link_ok id l' /\ server_ok s' /\ own id (broadcast s) (broadcast s').

Lemma link_step_ok id l rest s ev : link_ok id l -> server_ok s -> event_ok ev -> ended (link_conn l) = false ->
  alloc_ok rest -> link_outcome id s (link_step l rest s ev).
Proof.
  intros (Hid & Hc & _) Hs Hev En Hu. destruct (conn_step_ok (link_conn l) s ev Hc Hs Hev) as (k & s' & out & Hk & Hc' & Hs' & _).
  { intros ok Hm. unfold ended in En. by rewrite Hm in En. }
  destruct (conn_step_quiet _ _ _ _ _ _ Hk) as [Hid' Ho]. rewrite Hid in Hid', Ho. unfold link_step. rewrite Hk.
  eexists _, _. split; [done|]. split_and!; [|done|done]. unfold link_ok, settle. cbn. split_and!; [done|done|by destruct (ended k)].
Qed.

Lemma link_same id l s : link_ok id l -> server_ok s -> link_outcome id s (Ret (l, s)).
Proof. intros Hl Hs. exists l, s. split_and!; [done..|apply own_refl]. Qed.

Lemma alloc_nil : alloc_ok [].
Proof. done. Qed.

(** The task of one connection. *)
Lemma task_ok sys a id l : SysOk sys -> act_ok sys a -> act_of a = Some id -> sys_links sys !! id = Some l ->
  exists f, sys_step sys a = with_link sys id f /\ link_outcome id (sys_server sys) (f l (sys_server sys)).
Proof.
  intros Hsys Ha Hid Hl. destruct (so_links _ Hsys id l Hl) as [_ Hlo]. pose proof (so_server _ Hsys) as Hs. pose proof Hlo as (Hcl & Hc & Hu).
  destruct a as [| | |i data|i inp|i|i|i|]; try done; injection Hid as ->; cbn [sys_step act_ok] in *; eexists; (split; [reflexivity|]); cbn beta.
  - specialize (Ha l Hl). unfold arrive. exists (arrive l data), (sys_server sys). split; [done|]. split_and!; [|done|apply own_refl].
    unfold arrive. destruct (ended (link_conn l)); by split_and!.
  - unfold turn. destruct (ended (link_conn l)) eqn:En; [cbn; by apply link_same|]. destruct Ha as [Hi Hg].
    destruct (decode_inv _ Hu) as (o & Ho & Hrest). unfold codec_decode in *. rewrite Ho. destruct o as [[v rest]|]; [|cbn; by apply link_same].
    destruct Hrest as (p & _ & _ & _ & _ & -> & _).
    destruct (link_step_ok id l (drop (parser_len p) (link_in l)) (sys_server sys) (Recv inp v)) as (l' & s' & -> & H); try done.
    + split_and!; [done| |]; [by exists (link_in l), (drop (parser_len p) (link_in l))|]. intros name items Hp. by eapply Hg.
    + unfold alloc_ok in *. rewrite length_drop. lia.
    + by exists l', s'.
  - destruct (ended (link_conn l)) eqn:En; [|by apply link_step_ok]. unfold link_step, conn_step, ended in *.
    destruct (mode (link_conn l)) as [| |ok] eqn:Em; [done|done|]. exists (settle (link_conn l) (link_in l) (link_out l) []), (sys_server sys).
    split_and!; [done| |done|apply own_refl]. unfold link_ok, settle, ended. cbn. rewrite Em. by split_and!.
  - unfold hang_up. destruct (ended (link_conn l)) eqn:En; [by apply link_same|].
    apply link_step_ok; [done|done|by case_bool_decide|done|apply alloc_nil].
  - destruct (ended (link_conn l)) eqn:En; [by apply link_same|]. by apply link_step_ok.
Qed.

Lemma connect_ok (s : Server) id now : client_ok (client (connect s id now)).
Proof. split; cbn; [lia|constructor]. Qed.

(** A stream is accepted. *)
Lemma accept_ok sys now handshake : SysOk sys -> SysOk (accept sys now handshake).
Proof.
  intros [Hs Hp Hi Hl Hn]. constructor; cbn; [done|done|lia| |].
  - intros id l Hlk. destruct handshake; [|destruct (Hl id l Hlk); split; [lia|done]].
    apply lookup_insert_Some in Hlk as [[<- <-]|[_ Hlk]]; [|destruct (Hl id l Hlk); split; [lia|done]].
    split; [lia|]. split_and!; [done|apply connect_ok|apply alloc_nil].
  - intros t id Hne. specialize (Hn t id Hne). lia.
Qed.

(** One step: it is made, it keeps the invariant, and it leaves the other
    connections and their subscriptions alone. *)
Lemma sys_step_ok sys a : SysOk sys -> act_ok sys a ->
  exists sys', sys_step sys a = Ret sys' /\ SysOk sys' /\ sys_id sys <= sys_id sys' /\
    forall id, id <= sys_id sys -> act_of a <> Some id ->
      sys_links sys' !! id = sys_links sys !! id /\
      forall t, names_of t (broadcast (sys_server sys')) id = names_of t (broadcast (sys_server sys)) id.
Proof.
  intros Hsys Ha. destruct (act_of a) as [i|] eqn:Eid.
  - destruct (sys_links sys !! i) as [l|] eqn:El.
    2: { exists sys. split; [|done]. destruct a; try done; injection Eid as ->; cbn [sys_step]; unfold with_link; by rewrite El. }
    destruct (task_ok sys a i l Hsys Ha Eid El) as (f & -> & l' & s' & Hf & Hl' & Hs' & Ho). unfold with_link. rewrite El, Hf. cbn [outcome_map fst snd].
    pose proof Hsys as [Hs Hp Hi Hl Hn]. destruct (Ho Hp) as [Hp' Hoth]. destruct (Hl i l El) as [Hrange _].
    eexists. split; [done|]. split; [|split; [done|]].
    + constructor; cbn; [done|done|done| |].
      * intros id lk Hlk. apply lookup_insert_Some in Hlk as [[<- <-]|[_ Hlk]]; [done|by apply Hl].
      * intros t id Hne. destruct (decide (id = i)) as [-> |Hid]; [done|]. rewrite Hoth in Hne by done. by eapply Hn.
    + intros id _ Hid. cbn. assert (id <> i) by congruence. split; [by rewrite lookup_insert_ne|]. intros t. by apply Hoth.
  - destruct a as [now|now handshake| | | | | | |entries]; try done; cbn [sys_step].
    + eexists. split; [done|]. split; [by apply accept_ok|]. split; [cbn; lia|]. intros id Hid _. cbn. split; [|done].
      by rewrite lookup_insert_ne by lia.
    + eexists. split; [done|]. split; [by apply accept_ok|]. split; [cbn; lia|]. intros id Hid _. cbn. split; [|done].
      destruct handshake; [|done]. by rewrite lookup_insert_ne by lia.
    + by exists sys.
    + pose proof Hsys as [[Hc Hm] Hp Hi Hl Hn]. destruct (apply_refines (state_machine (sys_server sys)) entries Hc Ha) as (sm' & vs & -> & Hc' & _).
      eexists. split; [done|]. split; [by constructor|]. by split.
Qed.

(** The states of a server that has started with the state [s0]. *)
Inductive reachable (s0 : Server) : System -> Prop :=
| reach_start : reachable s0 (system_start s0)
| reach_step sys a sys' : reachable s0 sys -> act_ok sys a -> sys_step sys a = Ret sys' -> reachable s0 sys'.

Lemma reachable_ok s0 sys : server_ok s0 -> broadcast s0 = pubsub_new -> reachable s0 sys -> SysOk sys.
Proof.
  intros Hs Hb Hr. induction Hr as [|sys a sys' Hr IH Ha Hstep].
  - constructor; cbn; [done|rewrite Hb; apply pubsub_new_inv|done|by intros|]. intros t id. rewrite Hb. unfold names_of, pubsub_new. cbn. by rewrite lookup_empty.
  - destruct (sys_step_ok sys a IH Ha) as (sys1 & H1 & H2 & _). rewrite Hstep in H1. by injection H1 as ->.
Qed.

End Serve.

(** ** Witnesses *)

#[local] Instance sample_env_ok : ServerEnvOk (SE := sample_server_env).
Proof. by constructor. Qed.

Abbreviation sample_turns := (serve (E := Spop.first_env) (OF := ordered_float) (ME := no_mem) (LE := sample_lua Spop.first_env) (SE := sample_server_env)).

Definition sample_requests : list (Inputs (LogId := nat) (Membership := unit) * Value) :=
  [(sample_inputs, request ["INCR"; "n"]%string); (sample_inputs, request ["HELLO"; "3"]%string); (sample_inputs, request ["GET"; "m"]%string)].

Definition sample_bytes : bytes := concat (encode_to 2 <$> sample_requests.*2).

(** The requests arrive in three packets that are cut inside of frames. *)
Definition sample_packets : list bytes := [take 10 sample_bytes; take 25 (drop 10 sample_bytes); drop 35 sample_bytes].

Lemma pipelined_requests_witness : exists l s ins,
  sample_turns sample_packets sample_requests.*1 (mkLink (connect (sample_server None) 1 0) [] []) (sample_server None) = Ret (l, s, ins) /\
  link_in l = [].
Proof.
  pose proof (pipelined_requests (E := Spop.first_env) (OF := ordered_float) (ME := no_mem) (LE := sample_lua Spop.first_env) (SE := sample_server_env)
    2 (connect (sample_server None) 1 0) (sample_server None) [] sample_packets sample_requests) as H.
  match type of H with _ -> _ -> _ -> _ -> match ?r with _ => _ end => destruct r as [[[k' s'] sent]| |] eqn:Er end.
  - destruct H as [ins H]; [reflexivity|repeat constructor|vm_compute; reflexivity|vm_compute; reflexivity|]. exists (mkLink k' [] ([] ++ sent)), s', ins.
    split; [exact H|reflexivity].
  - exfalso. vm_compute in Er. discriminate.
  - exfalso. vm_compute in Er. discriminate.
Defined.

(** What is sent, in either protocol version. *)
Example sample_reply :
  match sample_turns sample_packets sample_requests.*1 (mkLink (connect (sample_server None) 1 0) [] []) (sample_server None) with
  | Ret (l, _, _) => take 5 (link_out l) = str ":1" ++ crlf ++ str "%" /\ drop (length (link_out l) - 3) (link_out l) = str "_" ++ crlf
  | _ => False
  end.
Proof. vm_compute. split; reflexivity. Qed.

