(* ===== verification/Ping.v ===== *)
(** * Ping: the health check.

    Models src/cache_cat_ping/src/main.rs, the program that probes a server with
    one PING, and runs it against the server of Serve. *)

From S2P Require Import Prelude Text F64 Reply Errors Resp Args Refine Store Script StateMachine PubSub App Session Connection Safety Serve Spop Handler Memory Ops.
From Stdlib Require Import Strings.Byte.

(** What the program writes to the socket. *)
Definition ping_frame : bytes := str "*1" ++ crlf ++ str "$4" ++ crlf ++ str "PING" ++ crlf.

Fixpoint starts_with (p s : bytes) : bool :=
  match p, s with
  | [], _ => true
  | a :: p', b :: s' => (Byte.eqb a b && starts_with p' s')%bool
  | _, [] => false
  end.

(** [cachecat_ping] once the server has sent [sent]: one read of at most 512
    bytes, which returns [n] of them. *)
Definition cachecat_ping (sent : bytes) (n : nat) : bool := starts_with (str "+PONG") (from_utf8_lossy (take (Nat.min n 512) sent)).

(** [main]: the arguments, and the connection or an error. *)
Definition ping_main (args : list bytes) (connect : bytes -> result bool bytes) : Z * bytes :=
  match args with
  | [_; host; port] =>
      match connect (host ++ [x3a] ++ port) with
      | Ok true => (0, str "OK")
      | Ok false => (1, str "Unexpected response from CacheCat")
      | Err err => (1, str "Failed to ping CacheCat: " ++ err)
      end
  | _ => (1, str "Usage: " ++ default [] (head args) ++ str " <host> <port>")
  end.

Section Ping.
Context {LogId Membership : Type}.
Context `{E : Env} `{OF : OrderedFloat} `{ME : MemEnv} `{LE : LuaEnv} `{SE : !ServerEnv (LogId := LogId) (Membership := Membership)}.
Abbreviation Server := (Server (LogId := LogId) (Membership := Membership)).
Abbreviation Inputs := (Inputs (LogId := LogId) (Membership := Membership)).

Definition ping_request : Value := Array (Some [bulk (str "PING")]).

Lemma ping_frame_encodes : ping_frame = encode_to 2 ping_request.
Proof. vm_compute. reflexivity. Qed.

(** What the probe says of a reply, however much of it it reads. *)
Lemma ping_verdict reply b : (5 <= length reply <= 512)%nat ->
  forallb (fun m => Bool.eqb (cachecat_ping reply m) b) (seq 5 (length reply - 4)) = true ->
  forall n, (5 <= n)%nat -> cachecat_ping reply n = b.
Proof.
  intros Hl Hall n Hn. assert (cachecat_ping reply n = cachecat_ping reply (Nat.min n (length reply))) as ->.
  { unfold cachecat_ping. do 2 f_equal. destruct (le_lt_dec n (length reply)); [f_equal; lia|]. rewrite !take_ge by lia. done. }
  rewrite forallb_forall in Hall. apply Bool.eqb_prop, Hall, in_seq. lia.
Qed.

(** What a fresh connection answers. *)
Lemma ping_answer (s : Server) id now (i : Inputs) :
  exists k, answer_each (connect s id now) s [(i, ping_request)] =
    Ret (k, s, encode_to 2 (match password s with None => SimpleString (str "PONG") | Some _ => protocol_error NotAuthenticated end)).
Proof. unfold connect. destruct (password s) as [p|] eqn:Ep; eexists; reflexivity. Qed.

(** The health check. However the network cuts the request and whatever Raft
    answers, the probe of a fresh connection reports a healthy server exactly
    when the server has no password, provided it reads the first five bytes of
    the reply; and it leaves the server as it was. A server with a password
    looks unhealthy however well it is. *)
Theorem health_check (s : Server) (id now : Z) (i : Inputs) (packets : list bytes) (n : nat) :
  concat packets = ping_frame -> (5 <= n)%nat ->
  exists l ins, serve packets [i] (mkLink (connect s id now) [] []) s = Ret (l, s, ins) /\
    cachecat_ping (link_out l) n = bool_decide (password s = None).
Proof.
  intros Hp Hn. pose proof (serve_requests 2 (connect s id now) s [] packets [(i, ping_request)]) as H.
  destruct (ping_answer s id now i) as [k Hk]. rewrite Hk in H. destruct H as [ins H]; [done|by repeat constructor| |by rewrite Hp|].
  { rewrite Hp, ping_frame_encodes. cbn [fmap list_fmap snd concat]. by rewrite app_nil_r. }
  exists (mkLink k [] ([] ++ encode_to 2 (match password s with None => SimpleString (str "PONG") | Some _ => protocol_error NotAuthenticated end))), ins.
  split; [exact H|]. cbn [link_out app].
  destruct (password s) as [p|]; (apply ping_verdict; [cbn; lia|vm_compute; reflexivity|done]).
Qed.
End Ping.

Lemma health_check_witness : exists l ins,
  serve (E := Spop.first_env) (OF := ordered_float) (ME := no_mem) (LE := sample_lua Spop.first_env) (SE := sample_server_env)
    [take 3 ping_frame; drop 3 ping_frame] [sample_inputs] (mkLink (connect (sample_server None) 1 0) [] []) (sample_server None) = Ret (l, sample_server None, ins) /\
  cachecat_ping (link_out l) 7 = true.
Proof.
  destruct (health_check (E := Spop.first_env) (OF := ordered_float) (ME := no_mem) (LE := sample_lua Spop.first_env) (SE := sample_server_env)
    (sample_server None) 1 0 sample_inputs [take 3 ping_frame; drop 3 ping_frame] 7) as (l & ins & H1 & H2).
  - reflexivity.
  - lia.
  - exists l, ins. split; [exact H1|exact H2].
Defined.
